(* ===== verification/_CoqProject ===== *)
-Q . S2P
Prelude.v
Hlc.v
Lww.v
Wire.v
Replog.v
SyncState.v
System.v
Node.v
Persistence.v
Protocol.v
Session.v
Membership.v
Pairing.v
Discovery.v
Swarm.v
Json.v
Float64.v
P2pStore.v
Tasks.v
Types.v
Backend.v
WasmBackend.v
OfflineQueue.v
StorePersistence.v
PersistentQueue.v
MemoryStore.v
SyncEngine.v
MqttAdapters.v
RemoteSync.v
Store.v
SortRecords.v
StoreLaws.v
ScopeLaws.v
StoreExamples.v
Facade.v
Subscriptions.v
Bindings.v
Net.v
Turn.v
Stun.v
TurnClient.v
QuicAccept.v
Transfer.v
Signaling.v
Demo.v
Harness.v
Peer.v
Endpoint.v
