(* ===== verification/Prelude.v ===== *)
(** * A verification library for stitch

    The repository holds two synchronisation systems and their plumbing.

    - [crates/stitch-p2p] replicates records between peers without a server:
      every peer stamps its writes with a hybrid logical clock, keeps a log per
      origin, resolves conflicts by last writer wins, and exchanges missing
      frames in sessions. Membership records and pairing decide who takes part.
    - [crates/stitch] is a document store for clients of an MQTT broker: a
      memory cache, a durable layer, a queue for writes made offline, and a
      sync engine that talks to the broker.
    - [crates/mqp2p] brings peers together: they register with a broker,
      learn their public address from a STUN server, agree on candidates by an
      offer and an answer, and connect over QUIC directly or through a TURN
      relay; it also transfers files.
    - [crates/stitch-wasm] exports the document store to JavaScript;
      [crates/stitch-tasks] is a task board on the peer-to-peer store with a
      test cluster and a demo, [crates/stitch-harness] runs a broker for tests.

    ** Files

    This file holds what the others share: machine integers with the
    wrap-around of a release build, [result] and the state-and-error monad
    [action] with its notations ([let!], [try!], [;;]), the weakest-precondition
    rules [post] and the tactics [astep], [asteps] and [acall] that run them,
    bytes, UTF-8 and hexadecimal, Rust's orders ([RustOrd]), hash-map iteration
    in an unknown order ([HashIter]), and the hint database of the development.

    The peer-to-peer system, bottom up (sources in crates/stitch-p2p/src):
    - Hlc.v (hlc.rs), Lww.v (lww.rs), Wire.v (wire.rs), Replog.v (replog.rs):
      clock, applier, frame codec and per-origin log, each a [Record] for the
      struct and one definition per method in a [Module] of the struct's name.
    - SyncState.v (sync_state.rs): one peer. [FramePersister] and [FrameAuth]
      are classes, as the traits are in the source.
    - System.v: any number of peers over a network that loses, repeats and
      reorders, as a step relation over the functions of SyncState.v.
    - Node.v (node.rs), Persistence.v (persistence.rs), Protocol.v
      (protocol.rs), Session.v (session.rs): shared state and channels, the
      durable log with crashes, messages on byte streams, and the [select!]
      loop as a sequence of events.
    - Membership.v (membership.rs), Pairing.v (pairing.rs), Discovery.v
      (discovery.rs and the fingerprints of mqp2p/src/quic.rs).
    - Swarm.v (discovery.rs): the accept and connect loops, the session tasks
      and their table, and the teardown, as steps that interleave.
    - P2pStore.v (store.rs): the JSON document facade.
    - Tasks.v (crates/stitch-tasks/src/lib.rs, harness.rs): the task board, the
      cluster and the random workload. Demo.v (bin/demo.rs, bin/soak.rs): the
      demo's peer process and orchestrator, as the lines they exchange.

    The broker-based store, bottom up (sources in crates/stitch/src):
    - Json.v, Types.v (types.rs, origin.rs, error.rs, config.rs, queue.rs),
      Backend.v (backend/mod.rs, backend/native.rs, db_helpers.rs): records,
      vocabulary and the database trait [Db] with the laws [DbLaws] that a
      healthy database gives the layers.
    - OfflineQueue.v and PersistentQueue.v (offline_queue.rs): consolidation,
      flush, and the two queues.
    - StorePersistence.v (persistence.rs), MemoryStore.v (memory_store.rs).
    - SyncEngine.v (sync_engine.rs over the trait of mqtt_client/mod.rs): what
      happens while a call awaits is the list of events the client reports with
      its answer.
    - WasmBackend.v (backend/wasm.rs) and MqttAdapters.v (mqtt_client/native.rs,
      wasm.rs): the adapters to mqdb-wasm and to the two MQTT clients, as
      instances of [Db] and of the engine's client.
    - RemoteSync.v (remote_sync.rs): outbound routing, inbound application and
      reconciliation over the trait [LocalAccessor].
    - Store.v (store.rs): the facade, as state passing over one record of all
      layers; its background loops are steps ([mutation_step], [flush_turn],
      [status_step]). StoreLaws.v and ScopeLaws.v hold its theorems,
      StoreExamples.v a broker kept as a table, runs of the theorems at it, and
      the executions in which the store loses or hides records. SortRecords.v
      holds the sorting of snapshots, over the doubles of Float64.v.
    - Facade.v (store.rs, config.rs, rt.rs): the handle of a store, from opening
      to shutdown and drop, with the tasks that run on its inner state, for the
      native and the browser target; the synchronous reads.
    - Subscriptions.v (store.rs, crates/stitch-wasm/src/lib.rs): from the buses
      of a store, whose readers may be overrun, through the filtering tasks and
      the channel of a subscription to its callback; the connection status.
    - Bindings.v (crates/stitch-wasm/src/lib.rs): the exported class and the
      conversion of values, options and errors.
    - Harness.v (crates/stitch-harness/src/lib.rs): the builder of a test broker.

    The transport (sources in crates/mqp2p/src):
    - Net.v (error.rs): socket addresses, errors, byte fields.
    - Turn.v (turn.rs): STUN and TURN messages, the MAC check, channel data.
    - Stun.v (stun.rs, stun_tap.rs): address discovery, on a plain socket and
      tapped off the QUIC socket.
    - TurnClient.v (turn_client.rs): the client of a relay. What the network
      delivers while a request waits is a script.
    - QuicAccept.v (quic.rs): identities, the certificate check, and the
      rendezvous of inbound connections with the callers that wait for them, as
      operations on a shared state and as a step relation.
    - Endpoint.v (quic.rs, peer.rs): TLS and QUIC configurations, the endpoint
      from binding to its end, and the methods of a connection, over the class
      [QuicLib].
    - Signaling.v (signaling.rs): presence, leases, peer records and the
      messages of a handshake, over the class [MqttClient].
    - Peer.v (peer.rs): configuration, start, registration and heartbeat,
      connecting and accepting, composed from all of the above over the class
      [Machine] of sockets, QUIC handshakes and timers.
    - Transfer.v (transfer.rs): both ends of a file transfer.

    ** Conventions

    Integers are [Z] with their width written out where it matters; peer ids,
    payloads and keys are lists of [byte]; Rust strings are [string]. A
    [HashMap] is a [gmap]; where the source iterates over one, the order is a
    parameter constrained only to list every entry once. Fallible calls return
    [result]; a panic, or a loop that does not end, is the [None] of an outer
    [option]. Fresh ids, clock readings and random draws are inputs. Third-party
    code (fjall, mqdb, Ed25519, SPAKE2, HKDF, HMAC, SHA-256, the MQTT client,
    serde_json, async streams, sockets, TLS and QUIC) is a class of operations, with a second class for
    the documented behaviour a theorem relies on; each such class has a concrete
    instance, and the theorems that need it are run on that instance. Mutexes
    and locks are dropped where the guarded section is one step, and kept as
    separate steps where the source releases them in between (flush of the
    queue, sessions of a node, requests of the engine). Logging is left out.
    Loops that are not structural take fuel; the theorems about them show that
    the fuel given by the definitions is enough, or that no fuel is
    ([contradictory_roles_loop]). Where tasks interleave (Swarm.v, Facade.v,
    Subscriptions.v, Endpoint.v), a run is a list of events, one for each stretch of
    code between two awaits, and the theorems hold for every list.

    ** Theorems

    - Convergence of the peer-to-peer system: [lww_convergence],
      [no_resurrection], [system_prefix] and [system_convergence] (safety for
      every reachable state of a network), [exchange_converges] and
      [replog_pull] (one exchange closes the gap, when nothing
      needed was reclaimed and every frame is stored and verified), [session_bytes] (the byte
      level session implements the message level one), [reclaim_safe].
    - Durability: [acknowledged_survives], [restart_transparent],
      [session_stream].
    - Codecs: [wire_roundtrip], [wire_canonical], [message_roundtrip],
      [read_message_typed], [signing_bytes_bind].
    - Who takes part: [authorized_members_spec], [proof_admits],
      [signed_write_verifies], [gated_pair], [pairing_binds],
      [pairing_completes], [one_dialer].
    - Swarms: [swarm_one_session], [abort_ends_sessions],
      [session_count_exact].
    - Documents: [document_writes], [readers_agree], and on the task board
      [board_writes], [sessions_follow_links], [chaos_report], [demo_verdict].
    - Offline writes: [flush_replays] and [flush_exact] (a flush is the replay
      of the queued writes, for histories that fit the broker's rows), [persistent_queue_refines] and
      [persistent_flush_replays] (the durable queue implements the in-memory
      one), [version_counts_events], [batch_collapses].
    - Sync: [request_answered], [open_scope_window], [event_delivered_once],
      [updates_monotone], [reconcile_converges], [reconcile_keeps_edits].
    - The store: [create_outcomes], [update_outcomes], [delete_outcomes],
      [update_if_outcomes] and [delete_if_outcomes] (memory, durable layer and
      queue after every answer of the broker), [foreign_writes_stay_local],
      [remote_mutation_coherent] (the cache stays a view of the durable rows),
      [offline_scope_shows_durable].
    - The handle: [initialize_contract], [shutdown_stops], [sync_reads_agree];
      snapshots: [sort_records_sorts].
    - Platforms: [wasm_contract] (over a healthy browser database and a lossless
      JSON host the adapter keeps rows as the native one does), [refusal_classes_agree], [native_rejections_reported],
      [reason_code_read], [f64_roundtrip].
    - Bindings: [create_then_read], [error_kinds], [version_through_js],
      [snapshot_by_id], [uninitialised_calls]; subscriptions:
      [subscription_contract], [status_in_order].
    - Test broker: [anonymous_access], [ports_allocated].
    - Messages and addresses: [turn_roundtrip], [turn_decode_typed],
      [integrity_checked] and [integrity_sound] (what the MAC check accepts),
      [tap_recovers_address].
    - Relays: [authed_answers_genuine], [allocation_completes],
      [relay_delivers], [maintenance_in_time].
    - Meeting: [presence_tracks] and [lease_runs_from_sighting] (who is listed),
      [heartbeat_keeps_listed] (a running peer stays listed), [rendezvous] (no
      inbound connection is lost or misdirected), [handshake_mutual] (both ends
      checked the other's certificate), [connect_completes],
      [endpoint_authenticates], [ended_endpoint].
    - Files: [receive_safe] (whatever the peer sends and whichever call fails),
      [transfer_completes].
    - Faults, each shown on an execution: [observe_overflow], [refused_write],
      [refused_write_resurfaces], [cut_read_desynchronises], [hostile_records],
      [contradictory_roles_loop], [recreated_row_lost], [version_reused],
      [queued_edit_lost], [volatile_scope_lost], [moved_row_stays],
      [reconnect_leaves_cache_stale], [stranger_hides_record],
      [appended_attributes_accepted], [offer_unchecked],
      [absolute_name_escapes], [silent_stun_outlasts_lease],
      [reregistering_stops_rediscovery], [registered_fingerprint_ignored],
      [abort_race], [second_session], [panicked_never_redialled],
      [mixed_column_unsorted], [loops_outlive_handle],
      [browser_shutdown_ignored], [browser_update_not_mirrored],
      [wasm_rejections_unreported], [called_after_unsubscribe],
      [rename_of_nothing], [seed_repeats] and [late_answer_counts].

    ** Not modelled

    The runtime (task spawning, timers and locks of rt.rs and lock.rs, beyond
    what aborting a task does), the files of the durable logs and the encryption
    of the database, which are those of fjall and mqdb; probes in a timed loop
    ([send_probes], stun.rs), the socket methods that only forward
    (stun_tap.rs, turn_client.rs) and the disconnect a dropped [Peer] attempts;
    the signature checks of the TLS verifiers, which call rustls; and of the demo
    the processes, ports and printing. Tests and derived traits other than
    serialisation have no counterpart. *)
From stdpp Require Export base gmap sets list strings fin_maps sorting.
From Stdlib Require Export ZArith Lia.
From Stdlib Require Import Strings.Byte.
From Corelib Require Export Init.Byte.

#[global] Set Default Proof Using "Type".
#[global] Set Warnings "-clear-no-such-hyp".

(** ** Machine integers *)

Definition u8_max : Z := 255.
Definition u32_max : Z := 4294967295.
Definition u64_max : Z := 18446744073709551615.

(** The wrap-around of [+] on [u32]; the workspace sets no
    [overflow-checks], so this is what a release build computes. *)
Definition u32_wrap (z : Z) : Z := z mod 2 ^ 32.

Definition is_u32 (z : Z) : Prop := (0 ≤ z ≤ u32_max)%Z.
Definition is_u64 (z : Z) : Prop := (0 ≤ z ≤ u64_max)%Z.

(** [u8::try_from], [u32::try_from] of a length. *)
Definition u8_try_from (n : nat) : option Z :=
  if bool_decide (Z.of_nat n ≤ u8_max)%Z then Some (Z.of_nat n) else None.
Definition u32_try_from (n : nat) : option Z :=
  if bool_decide (Z.of_nat n ≤ u32_max)%Z then Some (Z.of_nat n) else None.

Definition i64_max : Z := 9223372036854775807.
Definition u64_wrap (z : Z) : Z := z mod 2 ^ 64.

Create HintDb rust.

Lemma u32_wrap_small z : is_u32 z → u32_wrap z = z.
Proof. unfold is_u32, u32_wrap, u32_max. intros. apply Z.mod_small. lia. Qed.

Lemma u32_wrap_range z : is_u32 (u32_wrap z).
Proof.
  unfold is_u32, u32_wrap, u32_max.
  pose proof (Z.mod_pos_bound z (2 ^ 32) ltac:(lia)). lia.
Qed.

Lemma u8_try_from_Some n z : u8_try_from n = Some z ↔ z = Z.of_nat n ∧ (Z.of_nat n ≤ u8_max)%Z.
Proof. unfold u8_try_from. case_bool_decide; naive_solver. Qed.

Lemma u32_try_from_Some n z : u32_try_from n = Some z ↔ z = Z.of_nat n ∧ (Z.of_nat n ≤ u32_max)%Z.
Proof. unfold u32_try_from. case_bool_decide; naive_solver. Qed.

#[export] Hint Resolve u32_wrap_range : rust.

(** ** Results: Rust's [Result] and the [?] operator *)

Inductive result (T E : Type) : Type :=
| Ok (t : T)
| Err (e : E).
Arguments Ok {T E} t.
Arguments Err {T E} e.

#[global] Instance result_eq_dec `{EqDecision T, EqDecision E} : EqDecision (result T E).
Proof. solve_decision. Defined.

Definition rbind {T U E} (r : result T E) (k : T → result U E) : result U E :=
  match r with Ok t => k t | Err e => Err e end.

(** [ok_or]: an option as a result. *)
Definition ok_or {T E} (o : option T) (e : E) : result T E :=
  match o with Some t => Ok t | None => Err e end.

Definition map_err {T E F} (f : E → F) (r : result T E) : result T F :=
  match r with Ok t => Ok t | Err e => Err (f e) end.

(** [iter().collect::<Result<Vec<_>, _>>()]: the first error wins. *)
Fixpoint collect {T E} (rs : list (result T E)) : result (list T) E :=
  match rs with
  | [] => Ok []
  | r :: rs => rbind r (λ t, rbind (collect rs) (λ ts, Ok (t :: ts)))
  end.

Definition is_ok {T E} (r : result T E) : bool :=
  match r with Ok _ => true | Err _ => false end.

Declare Scope rust_scope.
Delimit Scope rust_scope with rust.
Notation "'let?' x := r 'in' k" := (rbind r (λ x, k))
  (at level 10, x name, r at level 100, k at level 200) : rust_scope.
Notation "'let?' ' p := r 'in' k" := (rbind r (λ x, match x with p => k end))
  (at level 10, p pattern, r at level 100, k at level 200) : rust_scope.
#[global] Open Scope rust_scope.

#[global] Instance Ok_inj {T E} : Inj (=) (=) (@Ok T E).
Proof. by intros ? ? [= ->]. Qed.

Lemma rbind_Ok {T U E} (r : result T E) (k : T → result U E) u :
  rbind r k = Ok u ↔ ∃ t, r = Ok t ∧ k t = Ok u.
Proof. destruct r; naive_solver. Qed.

Lemma collect_Ok {T E} (rs : list (result T E)) ts : collect rs = Ok ts ↔ rs = Ok <$> ts.
Proof.
  revert ts. induction rs as [|r rs IH]; intros ts; simpl.
  - destruct ts; naive_solver.
  - destruct r as [t|e]; simpl; [|by destruct ts].
    destruct (collect rs) as [ts'|e]; simpl.
    + destruct ts as [|t0 ts0]; [done|]. specialize (IH ts0). naive_solver.
    + destruct ts as [|t0 ts0]; [done|]. specialize (IH ts0). naive_solver.
Qed.

Lemma ok_or_Ok {T E} (o : option T) (e : E) t : ok_or o e = Ok t ↔ o = Some t.
Proof. destruct o; naive_solver. Qed.

(** ** Stateful fallible code

    A method that takes a lock, calls other layers and returns a [Result] is
    an action on the state it owns; a failing action keeps the state it left
    behind. [let!] is [let x = m.await?;], [try!] binds the raw [Result] the
    code matches on. *)
Definition action (S E A : Type) : Type := S → S * result A E.

Definition aret {S E A} (a : A) : action S E A := λ s, (s, Ok a).
Definition athrow {S E A} (e : E) : action S E A := λ s, (s, Err e).
Definition aget {S E A} (f : S → A) : action S E A := λ s, (s, Ok (f s)).
Definition amodify {S E} (f : S → S) : action S E () := λ s, (f s, Ok ()).
Definition alift {S E A} (r : result A E) : action S E A := λ s, (s, r).
Definition abind {S E A B} (m : action S E A) (k : A → action S E B) : action S E B :=
  λ s, let '(s, r) := m s in match r with Ok a => k a s | Err e => (s, Err e) end.
Definition atry {S E A B} (m : action S E A) (k : result A E → action S E B) : action S E B :=
  λ s, let '(s, r) := m s in k r s.

(** A part of the state reached by a getter and a setter. *)
Definition azoom {S T E A} (get : S → T) (put : T → S → S) (m : action T E A) : action S E A :=
  λ s, let '(t, r) := m (get s) in (put t s, r).

(** [for x in l { body(x).await?; }]. *)
Fixpoint afor {S E A} (body : A → action S E ()) (l : list A) : action S E () :=
  match l with
  | [] => aret ()
  | x :: l => abind (body x) (λ _, afor body l)
  end.

Notation "'let!' x := m 'in' k" := (abind m (λ x, k))
  (at level 10, x name, m at level 100, k at level 200) : rust_scope.
Notation "'let!' ' p := m 'in' k" := (abind m (λ x, match x with p => k end))
  (at level 10, p pattern, m at level 100, k at level 200) : rust_scope.
Notation "'try!' x := m 'in' k" := (atry m (λ x, k))
  (at level 10, x name, m at level 100, k at level 200) : rust_scope.
Notation "m ;; k" := (abind m (λ _, k)) (at level 100, k at level 200, right associativity) : rust_scope.

(** [m.await.ok()] and [let _ = m.await]. *)
Definition aignore {S E A} (m : action S E A) : action S E () := λ s, ((m s).1, Ok ()).

(** The postcondition of an action from a given state, and its proof rules. *)
Definition post {S E A} (m : action S E A) (s : S) (Q : S → result A E → Prop) : Prop :=
  Q (m s).1 (m s).2.

Section post.
Context {S E : Type}.

Lemma post_eq {A} (m : action S E A) s s' r Q : m s = (s', r) → Q s' r → post m s Q.
Proof. unfold post. by intros ->. Qed.

Lemma post_ext {A} (m m' : action S E A) s Q : m s = m' s → post m' s Q → post m s Q.
Proof. unfold post. by intros ->. Qed.

Lemma post_elim {A} (m : action S E A) s s' r Q : m s = (s', r) → post m s Q → Q s' r.
Proof. unfold post. by intros ->. Qed.

Lemma post_exists {A} (m : action S E A) s r (P : S → Prop) :
  post m s (λ s' r', r' = r ∧ P s') → ∃ s', m s = (s', r) ∧ P s'.
Proof. unfold post. destruct (m s) as [s' r']. intros [<- HP]. by exists s'. Qed.

Lemma post_mono {A} (m : action S E A) s (P Q : S → result A E → Prop) :
  post m s P → (∀ s' r, P s' r → Q s' r) → post m s Q.
Proof. unfold post. auto. Qed.

Lemma post_bind {A B} (m : action S E A) (k : A → action S E B) s Q :
  post m s (λ s' r, match r with Ok a => post (k a) s' Q | Err e => Q s' (Err e) end) →
  post (abind m k) s Q.
Proof. unfold post, abind. by destruct (m s) as [s' [a|e]]. Qed.

Lemma post_try {A B} (m : action S E A) (k : result A E → action S E B) s Q :
  post m s (λ s' r, post (k r) s' Q) → post (atry m k) s Q.
Proof. unfold post, atry. by destruct (m s) as [s' r]. Qed.

Lemma post_ret {A} (a : A) s (Q : S → result A E → Prop) : Q s (Ok a) → post (aret a) s Q.
Proof. done. Qed.

Lemma post_throw {A} (e : E) s (Q : S → result A E → Prop) : Q s (Err e) → post (athrow e) s Q.
Proof. done. Qed.

Lemma post_get {A} (f : S → A) s (Q : S → result A E → Prop) : Q s (Ok (f s)) → post (aget f) s Q.
Proof. done. Qed.

Lemma post_modify f s (Q : S → result () E → Prop) : Q (f s) (Ok ()) → post (amodify f) s Q.
Proof. done. Qed.

Lemma post_lift {A} (r : result A E) s (Q : S → result A E → Prop) : Q s r → post (alift r) s Q.
Proof. done. Qed.

Lemma post_ignore {A} (m : action S E A) s Q : post m s (λ s' _, Q s' (Ok ())) → post (aignore m) s Q.
Proof. done. Qed.

Lemma post_zoom {T A} (get : S → T) (put : T → S → S) (m : action T E A) s Q :
  post m (get s) (λ t r, Q (put t s) r) → post (azoom get put m) s Q.
Proof. unfold post, azoom. by destruct (m (get s)) as [t r]. Qed.

Lemma post_for_app {A} (body : A → action S E ()) l k s Q :
  post (afor body l) s (λ s' r, match r with Ok _ => post (afor body k) s' Q | Err e => Q s' (Err e) end) →
  post (afor body (l ++ k)) s Q.
Proof.
  revert s. induction l as [|x l IH]; intros s H; [exact H|]. simpl in *.
  unfold post, abind in *. destruct (body x s) as [s' [[]|e]]; [|exact H]. by apply (IH s').
Qed.

(** A loop whose body never fails, by an invariant on the part still to do. *)
Lemma post_for {A} (body : A → action S E ()) (I : list A → S → Prop) l s :
  I l s →
  (∀ x l s, I (x :: l) s → post (body x) s (λ s' r, r = Ok () ∧ I l s')) →
  post (afor body l) s (λ s' r, r = Ok () ∧ I [] s').
Proof.
  intros HI Hbody. revert s HI. induction l as [|x l IH]; intros s HI; [by apply post_ret|].
  simpl. apply post_bind. eapply post_mono; [by apply Hbody|]. intros s' r [-> HI']. by apply IH.
Qed.

(** A loop whose turns each add the facts [G x] to what holds of the state. *)
Lemma post_for_collect {A B} (body : A → action S E ()) (inv : S → Prop) (F : S → B → Prop) (G : A → B → Prop) l s :
  inv s →
  (∀ x s, x ∈ l → inv s → post (body x) s (λ s' r, r = Ok () ∧ inv s' ∧ ∀ y, F s' y ↔ F s y ∨ G x y)) →
  post (afor body l) s (λ s' r, r = Ok () ∧ inv s' ∧ ∀ y, F s' y ↔ F s y ∨ ∃ x, x ∈ l ∧ G x y).
Proof.
  intros HI Hbody. revert s HI. induction l as [|x l IH]; intros s HI; simpl.
  { apply post_ret. split_and!; [done..|]. intros y. split; [by left|]. intros [?|(x & Hx & _)]; [done|]. by apply not_elem_of_nil in Hx. }
  apply post_bind. eapply post_mono; [apply Hbody; [by left|done]|]. intros s' r (-> & HI' & HF).
  eapply post_mono; [apply IH; [|done]; intros z s2 Hz; apply Hbody; by right|]. cbv beta.
  intros s2 r (-> & HI2 & HF2). split_and!; [done..|]. intros y. rewrite HF2, HF. setoid_rewrite elem_of_cons. naive_solver.
Qed.
End post.

(** Steps through the primitives; stops at calls and case distinctions. *)
Ltac astep :=
  lazymatch goal with
  | |- post (abind _ _) _ _ => apply post_bind
  | |- post (atry _ _) _ _ => apply post_try
  | |- post (aret _) _ _ => apply post_ret
  | |- post (athrow _) _ _ => apply post_throw
  | |- post (aget _) _ _ => apply post_get
  | |- post (amodify _) _ _ => apply post_modify
  | |- post (alift _) _ _ => apply post_lift
  | |- post (aignore _) _ _ => apply post_ignore
  | |- post (azoom _ _ _) _ _ => apply post_zoom
  end; cbv beta iota.
Ltac asteps := cbv beta iota; repeat astep.

(** Uses the specification [H] of the call at hand. *)
Tactic Notation "acall" uconstr(H) := eapply post_mono; [eapply H|cbv beta].

Lemma abind_Ok {S E A B} (m : action S E A) (k : A → action S E B) s s' b :
  abind m k s = (s', Ok b) ↔ ∃ s1 a, m s = (s1, Ok a) ∧ k a s1 = (s', Ok b).
Proof. unfold abind. destruct (m s) as [s1 [a|e]]; naive_solver. Qed.

(** ** Bytes *)

#[global] Instance byte_eq_dec : EqDecision byte := Byte.byte_eq_dec.
#[global] Program Instance byte_countable : Countable byte :=
  inj_countable Byte.to_N Byte.of_N _.
Next Obligation. apply Byte.of_to_N. Qed.
#[global] Instance byte_inhabited : Inhabited byte := populate x00.

Definition byte_val (b : byte) : Z := Z.of_N (Byte.to_N b).
Definition byte_of (z : Z) : byte := default x00 (Byte.of_N (Z.to_N (z mod 256))).

Lemma byte_val_range b : (0 ≤ byte_val b ≤ 255)%Z.
Proof. unfold byte_val. pose proof (Byte.to_N_bounded b). lia. Qed.

Lemma byte_val_of z : byte_val (byte_of z) = (z mod 256)%Z.
Proof.
  unfold byte_val, byte_of. pose proof (Z.mod_pos_bound z 256 ltac:(lia)).
  destruct (Byte.of_N _) as [b|] eqn:E; simpl.
  - apply Byte.to_of_N in E. rewrite E. lia.
  - apply Byte.of_N_None_iff in E. lia.
Qed.

#[global] Instance byte_val_inj : Inj (=) (=) byte_val.
Proof.
  intros a b H. unfold byte_val in H. apply N2Z.inj in H.
  apply (f_equal Byte.of_N) in H. rewrite !Byte.of_to_N in H. congruence.
Qed.

Lemma byte_of_val b : byte_of (byte_val b) = b.
Proof.
  apply (inj byte_val). rewrite byte_val_of. pose proof (byte_val_range b).
  apply Z.mod_small. lia.
Qed.

(** [to_be_bytes] at a width of [n] bytes, and [from_be_bytes]. *)
Fixpoint to_be_bytes (n : nat) (v : Z) : list byte :=
  match n with
  | O => []
  | S n => to_be_bytes n (v / 256) ++ [byte_of v]
  end.

Definition from_be_bytes (bs : list byte) : Z :=
  foldl (λ acc b, acc * 256 + byte_val b)%Z 0%Z bs.

Lemma length_to_be_bytes n v : length (to_be_bytes n v) = n.
Proof. revert v; induction n as [|n IH]; intros; simpl; [done|]. rewrite length_app, IH. simpl. lia. Qed.

Lemma from_be_bytes_snoc bs b :
  from_be_bytes (bs ++ [b]) = (from_be_bytes bs * 256 + byte_val b)%Z.
Proof. unfold from_be_bytes. by rewrite foldl_app. Qed.

Lemma from_to_be_bytes n v :
  (0 ≤ v < 256 ^ Z.of_nat n)%Z → from_be_bytes (to_be_bytes n v) = v.
Proof.
  revert v; induction n as [|n IH]; intros v Hv; simpl.
  - change (from_be_bytes []) with 0%Z. lia.
  - rewrite from_be_bytes_snoc, byte_val_of. rewrite Nat2Z.inj_succ, Z.pow_succ_r in Hv by lia.
    rewrite IH; [pose proof (Z.div_mod v 256); lia|].
    split; [apply Z.div_pos; lia|apply Z.div_lt_upper_bound; lia].
Qed.

Lemma from_be_bytes_range bs : (0 ≤ from_be_bytes bs < 256 ^ Z.of_nat (length bs))%Z.
Proof.
  induction bs as [|b bs IH] using rev_ind; [done|].
  rewrite from_be_bytes_snoc, length_app; simpl. pose proof (byte_val_range b).
  rewrite Nat2Z.inj_add, Z.pow_add_r by lia. simpl. lia.
Qed.

Lemma to_from_be_bytes bs : to_be_bytes (length bs) (from_be_bytes bs) = bs.
Proof.
  induction bs as [|b bs IH] using rev_ind; [done|].
  rewrite length_app, Nat.add_comm, from_be_bytes_snoc; simpl.
  pose proof (byte_val_range b). f_equal.
  - transitivity (to_be_bytes (length bs) (from_be_bytes bs)); [f_equal|done].
    rewrite Z.add_comm, Z.div_add by lia. rewrite Z.div_small; lia.
  - f_equal. apply (inj byte_val). rewrite byte_val_of, Z.add_comm, Z.mod_add by lia.
    apply Z.mod_small. lia.
Qed.

Arguments to_be_bytes : simpl never.
Arguments from_be_bytes : simpl never.

(** [buf[a..b]]. *)
Definition slice {A} (a b : nat) (buf : list A) : list A := take (b - a) (drop a buf).

Lemma length_slice {A} a b (buf : list A) :
  a ≤ b → b ≤ length buf → length (slice a b buf) = b - a.
Proof. intros. unfold slice. rewrite length_take, length_drop. lia. Qed.

Lemma slice_app_r {A} a b (l k : list A) :
  length l ≤ a → slice a b (l ++ k) = slice (a - length l) (b - length l) k.
Proof.
  intros. unfold slice. rewrite drop_app_ge by done. f_equal. lia.
Qed.

Lemma slice_app_head {A} b (l k : list A) : length l = b → slice 0 b (l ++ k) = l.
Proof. intros <-. unfold slice. simpl. rewrite Nat.sub_0_r. apply take_app_length. Qed.

(** [buf[i]] behind a length check. *)
Definition at_byte (buf : list byte) (i : nat) : byte := default x00 (buf !! i).

Lemma at_byte_app_r (l k : list byte) i :
  length l ≤ i → at_byte (l ++ k) i = at_byte k (i - length l).
Proof. intros. unfold at_byte. by rewrite lookup_app_r. Qed.

(** ** Strings: UTF-8 byte sequences *)

Definition as_bytes (s : string) : list byte := String.list_byte_of_string s.
Definition str_len (s : string) : nat := length (as_bytes s).

(** The continuation bytes [0x80..=0xBF]. *)
Definition is_cont (b : byte) : bool := (128 <=? byte_val b)%Z && (byte_val b <=? 191)%Z.
Definition byte_in (lo hi : Z) (b : byte) : bool := (lo <=? byte_val b)%Z && (byte_val b <=? hi)%Z.

(** [core::str::from_utf8]'s validity: no overlong form, no surrogate, no
    scalar above U+10FFFF. *)
Fixpoint utf8_valid (bs : list byte) : bool :=
  match bs with
  | [] => true
  | b0 :: r0 =>
    if byte_in 0 127 b0 then utf8_valid r0 else
    match r0 with
    | [] => false
    | b1 :: r1 =>
      if byte_in 194 223 b0 then is_cont b1 && utf8_valid r1 else
      match r1 with
      | [] => false
      | b2 :: r2 =>
        if byte_in 224 224 b0 then byte_in 160 191 b1 && is_cont b2 && utf8_valid r2 else
        if byte_in 225 236 b0 || byte_in 238 239 b0
          then is_cont b1 && is_cont b2 && utf8_valid r2 else
        if byte_in 237 237 b0 then byte_in 128 159 b1 && is_cont b2 && utf8_valid r2 else
        match r2 with
        | [] => false
        | b3 :: r3 =>
          if byte_in 240 240 b0
            then byte_in 144 191 b1 && is_cont b2 && is_cont b3 && utf8_valid r3 else
          if byte_in 241 243 b0
            then is_cont b1 && is_cont b2 && is_cont b3 && utf8_valid r3 else
          if byte_in 244 244 b0
            then byte_in 128 143 b1 && is_cont b2 && is_cont b3 && utf8_valid r3 else false
        end
      end
    end
  end.

Definition from_utf8 (bs : list byte) : option string :=
  if utf8_valid bs then Some (String.string_of_list_byte bs) else None.

(** [String::from_utf8_lossy]: U+FFFD for every maximal invalid sequence. *)
Definition replacement : list byte := [xef; xbf; xbd].

Fixpoint utf8_lossy (bs : list byte) : list byte :=
  match bs with
  | [] => []
  | b0 :: r0 =>
    if byte_in 0 127 b0 then b0 :: utf8_lossy r0 else
    match r0 with
    | [] => replacement
    | b1 :: r1 =>
      if byte_in 194 223 b0
      then if is_cont b1 then b0 :: b1 :: utf8_lossy r1 else replacement ++ utf8_lossy r0 else
      if byte_in 224 224 b0 && byte_in 160 191 b1
         || (byte_in 225 236 b0 || byte_in 238 239 b0) && is_cont b1
         || byte_in 237 237 b0 && byte_in 128 159 b1
      then
        match r1 with
        | [] => replacement
        | b2 :: r2 => if is_cont b2 then b0 :: b1 :: b2 :: utf8_lossy r2 else replacement ++ utf8_lossy r1
        end
      else if byte_in 240 240 b0 && byte_in 144 191 b1
         || byte_in 241 243 b0 && is_cont b1
         || byte_in 244 244 b0 && byte_in 128 143 b1
      then
        match r1 with
        | [] => replacement
        | b2 :: r2 =>
          if is_cont b2 then
            match r2 with
            | [] => replacement
            | b3 :: r3 =>
              if is_cont b3 then b0 :: b1 :: b2 :: b3 :: utf8_lossy r3 else replacement ++ utf8_lossy r2
            end
          else replacement ++ utf8_lossy r1
        end
      else replacement ++ utf8_lossy r0
    end
  end.

Definition from_utf8_lossy (bs : list byte) : string := String.string_of_list_byte (utf8_lossy bs).

(** What Rust's type [String] guarantees. *)
Definition str_ok (s : string) : Prop := utf8_valid (as_bytes s) = true.

Lemma as_bytes_of bs : as_bytes (String.string_of_list_byte bs) = bs.
Proof. apply String.list_byte_of_string_of_list_byte. Qed.

Lemma as_bytes_app s t : as_bytes (s +:+ t) = as_bytes s ++ as_bytes t.
Proof. unfold as_bytes, String.list_byte_of_string. induction s as [|c s IH]; simpl; [done|]. by f_equal. Qed.

(** [str::strip_prefix]. *)
Fixpoint strip_prefix (p s : string) : option string :=
  match p, s with
  | EmptyString, _ => Some s
  | String a p, String b s => if bool_decide (a = b) then strip_prefix p s else None
  | String _ _, EmptyString => None
  end.

Lemma strip_prefix_app p s : strip_prefix p (p +:+ s) = Some s.
Proof. induction p as [|a p IH]; simpl; [done|]. by rewrite bool_decide_eq_true_2. Qed.

Lemma strip_prefix_Some p s r : strip_prefix p s = Some r → s = p +:+ r.
Proof.
  revert s. induction p as [|a p IH]; intros [|b s] H; simplify_eq/=; try done.
  case_bool_decide; simplify_eq/=. by rewrite (IH s).
Qed.

Lemma from_utf8_as_bytes s : str_ok s → from_utf8 (as_bytes s) = Some s.
Proof.
  unfold str_ok, from_utf8. intros ->. f_equal. apply String.string_of_list_byte_of_string.
Qed.

Lemma from_utf8_Some bs s : from_utf8 bs = Some s → as_bytes s = bs ∧ str_ok s.
Proof.
  unfold from_utf8, str_ok. destruct (utf8_valid bs) eqn:E; [|done].
  intros [= <-]. by rewrite as_bytes_of.
Qed.

Lemma utf8_lossy_valid bs : utf8_valid bs = true → utf8_lossy bs = bs.
Proof.
  remember (length bs) as n eqn:Hn. revert bs Hn.
  induction (lt_wf n) as [n _ IH]. intros bs -> Hv.
  assert (∀ r, length r < length bs → utf8_valid r = true → utf8_lossy r = r) as IH' by (intros; by eapply IH).
  clear IH. destruct bs as [|b0 r0]; [done|]. simpl in *.
  destruct (byte_in 0 127 b0); [by rewrite IH' by (done || lia)|].
  destruct r0 as [|b1 r1]; [done|]. simpl in *.
  destruct (byte_in 194 223 b0) eqn:E2.
  { apply andb_prop in Hv as [-> Hv]. by rewrite IH' by (done || lia). }
  destruct r1 as [|b2 r2]; [done|]. simpl in *.
  destruct (byte_in 224 224 b0) eqn:E3.
  { apply andb_prop in Hv as [[-> ->]%andb_prop Hv]. simpl. by rewrite IH' by (done || lia). }
  destruct (byte_in 225 236 b0 || byte_in 238 239 b0) eqn:E4.
  { apply andb_prop in Hv as [[-> ->]%andb_prop Hv]. simpl. by rewrite IH' by (done || lia). }
  destruct (byte_in 237 237 b0) eqn:E5.
  { apply andb_prop in Hv as [[-> ->]%andb_prop Hv]. simpl. by rewrite IH' by (done || lia). }
  destruct r2 as [|b3 r3]; [done|]. simpl in *.
  destruct (byte_in 240 240 b0) eqn:E6; [|destruct (byte_in 241 243 b0) eqn:E7; [|destruct (byte_in 244 244 b0) eqn:E8; [|done]]].
  all: apply andb_prop in Hv as [[[-> ->]%andb_prop ->]%andb_prop Hv]; simpl; rewrite ?orb_true_r; by rewrite IH' by (done || lia).
Qed.

Lemma from_utf8_lossy_as_bytes s : str_ok s → from_utf8_lossy (as_bytes s) = s.
Proof. intros H. unfold from_utf8_lossy. rewrite utf8_lossy_valid by done. apply String.string_of_list_byte_of_string. Qed.

(** ** Total orders: Rust's [Ord] *)

Class RustOrd (A : Type) := {
  cmp : A → A → comparison;
  cmp_eq_iff x y : cmp x y = Eq ↔ x = y;
  cmp_flip x y : cmp y x = CompOpp (cmp x y);
  cmp_lt_trans x y z : cmp x y = Lt → cmp y z = Lt → cmp x z = Lt;
}.

Definition ord_lt `{RustOrd A} (x y : A) : Prop := cmp x y = Lt.
Definition ord_le `{RustOrd A} (x y : A) : Prop := cmp x y ≠ Gt.
Infix "<ₒ" := ord_lt (at level 70, no associativity) : rust_scope.
Infix "≤ₒ" := ord_le (at level 70, no associativity) : rust_scope.

(** [Ordering::then_with]. *)
Definition then_with (c d : comparison) : comparison := match c with Eq => d | _ => c end.

#[global] Instance ord_lt_dec `{RustOrd A} (x y : A) : Decision (x <ₒ y).
Proof. unfold ord_lt. apply _. Defined.
#[global] Instance ord_le_dec `{RustOrd A} (x y : A) : Decision (x ≤ₒ y).
Proof. unfold ord_le. apply _. Defined.

Section rust_ord.
Context `{RustOrd A}.
Implicit Types x y z : A.

Lemma cmp_refl x : cmp x x = Eq.
Proof. by apply cmp_eq_iff. Qed.

Lemma cmp_gt x y : cmp x y = Gt ↔ y <ₒ x.
Proof. unfold ord_lt. rewrite (cmp_flip x y). destruct (cmp x y); simpl; naive_solver. Qed.

Lemma ord_le_lt_eq x y : x ≤ₒ y ↔ x <ₒ y ∨ x = y.
Proof.
  unfold ord_le, ord_lt. rewrite <-(cmp_eq_iff x y). destruct (cmp x y); naive_solver.
Qed.

Lemma ord_le_not_lt x y : x ≤ₒ y ↔ ¬ y <ₒ x.
Proof. unfold ord_le. by rewrite cmp_gt. Qed.

#[global] Instance ord_lt_irrefl : Irreflexive ord_lt.
Proof. intros x. unfold ord_lt, complement. by rewrite cmp_refl. Qed.

#[global] Instance ord_lt_transitive : Transitive ord_lt.
Proof. intros x y z. apply cmp_lt_trans. Qed.

#[global] Instance ord_le_refl : Reflexive ord_le.
Proof. intros x. unfold ord_le. by rewrite cmp_refl. Qed.

#[global] Instance ord_le_transitive : Transitive ord_le.
Proof.
  intros x y z. rewrite !ord_le_lt_eq. intros [?| ->] [?| ->]; eauto.
  left. by etrans.
Qed.

#[global] Instance ord_le_antisymm : AntiSymm (=) ord_le.
Proof.
  intros x y. rewrite !ord_le_lt_eq. intros [?|?] [?|?]; try done.
  exfalso. apply (irreflexivity ord_lt x). by etrans.
Qed.

Lemma ord_lt_le x y : x <ₒ y → x ≤ₒ y.
Proof. rewrite ord_le_lt_eq. auto. Qed.

Lemma ord_lt_le_trans x y z : x <ₒ y → y ≤ₒ z → x <ₒ z.
Proof. rewrite ord_le_lt_eq. intros ? [?| <-]; [by etrans|done]. Qed.

Lemma ord_le_lt_trans x y z : x ≤ₒ y → y <ₒ z → x <ₒ z.
Proof. rewrite ord_le_lt_eq. intros [?| ->] ?; [by etrans|done]. Qed.

Lemma ord_lt_ne x y : x <ₒ y → x ≠ y.
Proof. intros Hlt ->. by apply (irreflexivity ord_lt y). Qed.

Lemma ord_total x y : x <ₒ y ∨ x = y ∨ y <ₒ x.
Proof.
  unfold ord_lt. rewrite (cmp_flip x y), <-(cmp_eq_iff x y).
  destruct (cmp x y); simpl; auto.
Qed.
End rust_ord.

#[export] Hint Resolve ord_lt_le ord_lt_le_trans ord_le_lt_trans ord_lt_ne : rust.

#[global] Program Instance Z_ord : RustOrd Z := {| cmp := Z.compare |}.
Next Obligation. apply Z.compare_eq_iff. Qed.
Next Obligation. intros. apply Z.compare_antisym. Qed.
Next Obligation. intros x y z. rewrite !Z.compare_lt_iff. lia. Qed.

(** An order pulled back along an injection. *)
Definition inj_ord {A B} `{RustOrd B} (f : A → B) (Hf : ∀ x y, f x = f y → x = y) : RustOrd A.
Proof.
  refine {| cmp x y := cmp (f x) (f y) |}.
  - intros. rewrite cmp_eq_iff. split; [auto|by intros ->].
  - intros. apply cmp_flip.
  - intros ???. apply cmp_lt_trans.
Defined.

#[global] Instance byte_ord : RustOrd byte := inj_ord byte_val byte_val_inj.

(** Derived [Ord] of a pair, and [cmp().then_with()]. *)
#[global] Program Instance prod_ord `{RustOrd A, RustOrd B} : RustOrd (A * B) :=
  {| cmp x y := then_with (cmp x.1 y.1) (cmp x.2 y.2) |}.
Next Obligation.
  intros A ? B ? [a b] [c d]; simpl. pose proof (cmp_eq_iff a c). pose proof (cmp_eq_iff b d).
  destruct (cmp a c), (cmp b d); simpl; naive_solver.
Qed.
Next Obligation.
  intros A ? B ? [a b] [c d]; simpl. rewrite (cmp_flip a c), (cmp_flip b d).
  by destruct (cmp a c).
Qed.
Next Obligation.
  intros A ? B ? [a b] [c d] [e f]; simpl.
  destruct (cmp a c) eqn:E1; simpl; [| |done].
  - apply cmp_eq_iff in E1 as <-. destruct (cmp a e); simpl; [apply cmp_lt_trans|done..].
  - intros _. destruct (cmp c e) eqn:E2; simpl; [| |done].
    + apply cmp_eq_iff in E2 as <-. by rewrite E1.
    + intros _. by rewrite (cmp_lt_trans a c e).
Qed.

(** Lexicographic [Ord] of arrays, slices and strings. *)
Fixpoint list_cmp `{RustOrd A} (l k : list A) : comparison :=
  match l, k with
  | [], [] => Eq
  | [], _ => Lt
  | _, [] => Gt
  | x :: l, y :: k => then_with (cmp x y) (list_cmp l k)
  end.

#[global] Program Instance list_ord `{RustOrd A} : RustOrd (list A) := {| cmp := list_cmp |}.
Next Obligation.
  intros A ? l. induction l as [|x l IH]; intros [|y k]; simpl; [done..|].
  pose proof (cmp_eq_iff x y). specialize (IH k).
  destruct (cmp x y); simpl; naive_solver.
Qed.
Next Obligation.
  intros A ? l. induction l as [|x l IH]; intros [|y k]; simpl; [done..|].
  rewrite (cmp_flip x y), (IH k). by destruct (cmp x y).
Qed.
Next Obligation.
  intros A ? l. induction l as [|x l IH]; intros [|y k] [|z m]; simpl; try done.
  destruct (cmp x y) eqn:E1; simpl; [| |done].
  - apply cmp_eq_iff in E1 as <-. destruct (cmp x z); simpl; [apply IH|done..].
  - intros _. destruct (cmp y z) eqn:E2; simpl; [| |done].
    + apply cmp_eq_iff in E2 as <-. by rewrite E1.
    + intros _. by rewrite (cmp_lt_trans x y z).
Qed.

(** ** Hash maps

    [HashMap] is [gmap]: lookup, insertion and equality are extensional. The
    order in which a [HashMap] is iterated is unspecified, so code that
    iterates one is written against this interface and its theorems hold for
    every order. *)
Class HashIter := {
  hiter : ∀ {K V} `{Countable K}, gmap K V → list (K * V);
  hiter_perm : ∀ {K V} `{Countable K} (m : gmap K V), hiter m ≡ₚ map_to_list m;
}.

#[export] Program Instance map_to_list_iter : HashIter :=
  {| hiter K V _ _ m := map_to_list m |}.
Next Obligation. done. Qed.

Section hash_iter.
Context `{HashIter} `{Countable K} {V : Type}.
Implicit Types m : gmap K V.

Lemma elem_of_hiter m k v : (k, v) ∈ hiter m ↔ m !! k = Some v.
Proof. rewrite hiter_perm. apply elem_of_map_to_list. Qed.

Lemma NoDup_hiter_fst m : NoDup (hiter m).*1.
Proof. rewrite hiter_perm. apply NoDup_fst_map_to_list. Qed.

Lemma list_to_map_hiter m : list_to_map (hiter m) = m.
Proof.
  rewrite <-(list_to_map_to_list m) at 2.
  apply list_to_map_proper; [apply NoDup_hiter_fst|apply hiter_perm].
Qed.
End hash_iter.

(** [HashSet] iteration. *)
Definition hset_iter {HI : HashIter} `{Countable K} (s : gset K) : list K :=
  (hiter (gset_to_gmap () s)).*1.

Lemma elem_of_hset_iter {HI : HashIter} `{Countable K} (s : gset K) k : k ∈ hset_iter s ↔ k ∈ s.
Proof.
  unfold hset_iter. rewrite list_elem_of_fmap. split.
  - intros ([k' []] & -> & H'). apply elem_of_hiter, lookup_gset_to_gmap_Some in H'. naive_solver.
  - intros Hk. exists (k, ()). split; [done|]. apply elem_of_hiter. by apply lookup_gset_to_gmap_Some.
Qed.

Lemma NoDup_hset_iter {HI : HashIter} `{Countable K} (s : gset K) : NoDup (hset_iter s).
Proof. apply NoDup_hiter_fst. Qed.

(** Collecting keys into a map by a function of the key. *)
Lemma lookup_keyed `{Countable K} {V} (g : K → V) (ks : list K) (o : K) :
  (list_to_map ((λ k, (k, g k)) <$> ks) : gmap K V) !! o =
    if decide (o ∈ ks) then Some (g o) else None.
Proof.
  induction ks as [|k ks IH].
  - rewrite decide_False; [done|]. apply not_elem_of_nil.
  - rewrite fmap_cons, list_to_map_cons, lookup_insert. destruct (decide (k = o)) as [->|Hk].
    + rewrite decide_True; [done|]. left.
    + rewrite IH. apply decide_ext. rewrite elem_of_cons. naive_solver.
Qed.

Lemma list_filter_all {A} (P : A → Prop) `{∀ x, Decision (P x)} (l : list A) :
  (∀ x, x ∈ l → P x) → filter P l = l.
Proof.
  induction l as [|x l IH]; intros HP; [done|].
  rewrite filter_cons_True by (apply HP; left). f_equal. apply IH. intros y Hy. apply HP. by right.
Qed.

Lemma list_filter_none {A} (P : A → Prop) `{∀ x, Decision (P x)} (l : list A) :
  (∀ x, x ∈ l → ¬ P x) → filter P l = [].
Proof.
  induction l as [|x l IH]; intros HP; [done|].
  rewrite filter_cons_False by (apply HP; left). apply IH. intros y Hy. apply HP. by right.
Qed.

Lemma list_filter_comm {A} (P Q : A → Prop) `{∀ x, Decision (P x), ∀ x, Decision (Q x)} (l : list A) :
  filter P (filter Q l) = filter Q (filter P l).
Proof. rewrite !list_filter_filter. apply list_filter_iff. naive_solver. Qed.

Lemma list_filter_ext_in {A} (P Q : A → Prop) `{∀ x, Decision (P x), ∀ x, Decision (Q x)} (l : list A) :
  (∀ x, x ∈ l → P x ↔ Q x) → filter P l = filter Q l.
Proof.
  induction l as [|x l IH]; intros HPQ; [done|]. rewrite !filter_cons, IH.
  - apply decide_ext, HPQ. left.
  - intros y Hy. apply HPQ. by right.
Qed.

Lemma list_filter_fmap {A B} (f : A → B) (P : B → Prop) `{∀ y, Decision (P y)} (l : list A) :
  filter P (f <$> l) = f <$> filter (λ x, P (f x)) l.
Proof.
  induction l as [|x l IH]; [done|]. rewrite fmap_cons, !filter_cons, IH. by case_decide.
Qed.

(** Selecting one element of a list without repetitions. *)
Lemma list_filter_eq `{EqDecision A} (x : A) (l : list A) :
  NoDup l → filter (λ y, y = x) l = if bool_decide (x ∈ l) then [x] else [].
Proof.
  induction 1 as [|y l Hy _ IH]; [done|]. rewrite filter_cons, IH. destruct (decide (y = x)) as [->|E].
  - rewrite (bool_decide_eq_false_2 (x ∈ l)) by done. rewrite bool_decide_eq_true_2; [done|left].
  - rewrite (bool_decide_ext (x ∈ y :: l) (x ∈ l)); [done|]. rewrite elem_of_cons. naive_solver.
Qed.

Lemma StronglySorted_filter' {A} (R : relation A) (P : A → Prop) `{∀ x, Decision (P x)} (l : list A) :
  StronglySorted R l → StronglySorted R (filter P l).
Proof.
  induction 1 as [|x l _ IH Hall]; [constructor|]. rewrite filter_cons. case_decide; [|done].
  constructor; [done|]. rewrite Forall_forall in Hall |- *.
  intros y [_ Hy]%list_elem_of_filter. auto.
Qed.

Lemma NoDup_fmap_inj {A B} (f : A → B) (l : list A) x y :
  NoDup (f <$> l) → x ∈ l → y ∈ l → f x = f y → x = y.
Proof.
  intros Hnd [i Hi]%list_elem_of_lookup [j Hj]%list_elem_of_lookup E.
  assert (i = j) as ->; [|congruence].
  apply (NoDup_lookup _ _ _ (f x) Hnd); rewrite list_lookup_fmap; [by rewrite Hi|by rewrite Hj, E].
Qed.

Lemma pair_inv {A B} (a a' : A) (b b' : B) : (a, b) = (a', b') → a = a' ∧ b = b'.
Proof. by intros [= -> ->]. Qed.

(** The order of strings. *)
Definition string_le (a b : string) : bool := match cmp (as_bytes a) (as_bytes b) with Gt => false | _ => true end.

Lemma string_le_ord x y : string_le x y = true ↔ as_bytes x ≤ₒ as_bytes y.
Proof. unfold string_le, ord_le. destruct (cmp _ _); naive_solver. Qed.

Lemma string_le_total x y : string_le x y = true ∨ string_le y x = true.
Proof.
  rewrite !string_le_ord, !ord_le_not_lt. destruct (decide (as_bytes x <ₒ as_bytes y)) as [H|]; [|by right].
  left. intros H'. by apply (irreflexivity ord_lt (as_bytes x)); etrans.
Qed.

Lemma string_le_trans x y z : string_le x y = true → string_le y z = true → string_le x z = true.
Proof. rewrite !string_le_ord. apply transitivity. Qed.

Lemma string_le_antisym x y : string_le x y = true → string_le y x = true → x = y.
Proof.
  rewrite !string_le_ord. intros H1 H2. pose proof (anti_symm ord_le _ _ H1 H2) as E.
  apply (f_equal String.string_of_list_byte) in E. by rewrite !String.string_of_list_byte_of_string in E.
Qed.

(** ** Sorting

    [sort_by_key] and [sort_by]: stable, by an order given as a boolean
    comparison [le]. *)
Section stable_sort.
Context {A : Type} (le : A → A → bool).

Fixpoint sort_insert (x : A) (l : list A) : list A :=
  match l with
  | [] => [x]
  | y :: l' => if le x y then x :: l else y :: sort_insert x l'
  end.

Definition sort_by (l : list A) : list A := foldr sort_insert [] l.

Lemma sort_insert_perm x l : sort_insert x l ≡ₚ x :: l.
Proof.
  induction l as [|y l IH]; simpl; [done|]. destruct (le x y); [done|].
  rewrite IH. by apply Permutation_swap.
Qed.

Lemma sort_by_perm l : sort_by l ≡ₚ l.
Proof. induction l as [|x l IH]; simpl; [done|]. by rewrite sort_insert_perm, IH. Qed.

Lemma sort_insert_id x l : Forall (λ y, le x y = true) l → sort_insert x l = x :: l.
Proof. destruct l as [|y l]; [done|]. intros [H _]%Forall_cons. simpl. by rewrite H. Qed.

(** A list already in order is left as it is, equal keys included. *)
Lemma sort_by_sorted l : StronglySorted (λ x y, le x y = true) l → sort_by l = l.
Proof.
  induction 1 as [|x l _ IH Hall]; simpl; [done|]. rewrite IH. by apply sort_insert_id.
Qed.

Context (le_total : ∀ x y, le x y = true ∨ le y x = true).
Context (le_trans : ∀ x y z, le x y = true → le y z = true → le x z = true).

Lemma sort_insert_StronglySorted x l :
  StronglySorted (λ x y, le x y = true) l → StronglySorted (λ x y, le x y = true) (sort_insert x l).
Proof using le_total le_trans.
  induction 1 as [|y l Hs IH Hall]; simpl; [by repeat constructor|].
  destruct (le x y) eqn:E.
  - constructor; [by constructor|]. constructor; [done|].
    eapply Forall_impl; [exact Hall|]. intros z Hz. by eapply le_trans.
  - constructor; [done|]. rewrite sort_insert_perm. constructor; [|done].
    destruct (le_total x y); congruence.
Qed.

Lemma sort_by_StronglySorted l : StronglySorted (λ x y, le x y = true) (sort_by l).
Proof using le_total le_trans.
  induction l; simpl; [constructor|]. by apply sort_insert_StronglySorted.
Qed.

(** Stability: selecting the elements of one class commutes with sorting. *)
Lemma sort_by_filter (P : A → Prop) `{∀ x, Decision (P x)} l :
  filter P (sort_by l) = sort_by (filter P l).
Proof using le_total le_trans.
  induction l as [|x l IH]; [done|]. simpl.
  pose proof (sort_by_StronglySorted l) as Hs. revert Hs IH.
  generalize (sort_by l) as k. intros k Hs IH. rewrite filter_cons.
  transitivity (if decide (P x) then sort_insert x (filter P k) else filter P k).
  2:{ rewrite IH. case_decide; done. }
  clear IH. induction Hs as [|y k Hs IH Hall]; simpl.
  - rewrite filter_cons. case_decide; [done|]. by rewrite filter_nil.
  - destruct (le x y) eqn:E.
    + rewrite filter_cons. case_decide as HP; [|done].
      symmetry. apply sort_insert_id. rewrite Forall_forall. intros z [_ Hz]%list_elem_of_filter.
      apply elem_of_cons in Hz as [->|Hz]; [done|]. rewrite Forall_forall in Hall. eauto.
    + rewrite !(filter_cons _ y), IH. destruct (decide (P y)), (decide (P x)); simpl; try done.
      by rewrite E.
Qed.
End stable_sort.

(** ** Tactics shared by the components *)

(** Case analysis on a boolean or decidable test of the code. *)
Ltac split_tests :=
  repeat first [ case_decide | case_bool_decide | case_match ]; simplify_eq/=.

(** Turns an [Ok] outcome of a chain of [let?] into the outcomes of its steps. *)
Ltac inv_ok :=
  repeat match goal with
  | H : rbind _ _ = Ok _ |- _ => apply rbind_Ok in H as (? & ? & ?)
  | H : ok_or _ _ = Ok _ |- _ => apply ok_or_Ok in H
  | H : Ok _ = Ok _ |- _ => apply (inj Ok) in H
  end; simplify_eq/=.

(** Evaluates a decidable proposition without normalising its types. *)
Ltac decide_compute := apply (bool_decide_unpack _); vm_compute; exact I.
