(* ===== verification/Hlc.v ===== *)
(** * Hybrid logical clocks and write stamps

    [crates/stitch-p2p/src/hlc.rs]: the clock [Hlc] with [tick] and
    [observe], and [Stamp], the total order under which writes compete. *)
From S2P Require Import Prelude.

Definition PEER_ID_LEN : nat := 32.

(** [[u8; PEER_ID_LEN]]; the length is a well-formedness fact, [peer_ok]. *)
Abbreviation PeerId := (list byte).
Definition peer_ok (p : PeerId) : Prop := length p = PEER_ID_LEN.

Record Hlc := mkHlc { physical : Z; logical : Z }.

Record Stamp := mkStamp { hlc : Hlc; peer : PeerId }.

#[global] Instance Hlc_eq_dec : EqDecision Hlc.
Proof. solve_decision. Defined.
#[global] Instance Stamp_eq_dec : EqDecision Stamp.
Proof. solve_decision. Defined.

Module Hlc.
Definition default : Hlc := mkHlc 0 0.

(** [Hlc::tick]; the new clock is also what it returns. *)
Definition tick (prev : Hlc) (wall_ms : Z) : Hlc :=
  let phys := Z.max (physical prev) wall_ms in
  mkHlc phys
    (if bool_decide (phys = physical prev) then u32_wrap (logical prev + 1) else 0%Z).

(** [Hlc::observe]. *)
Definition observe (prev remote : Hlc) (wall_ms : Z) : Hlc :=
  let phys := Z.max (Z.max (physical prev) (physical remote)) wall_ms in
  mkHlc phys
    (if bool_decide (phys = physical prev ∧ phys = physical remote)
     then u32_wrap (Z.max (logical prev) (logical remote) + 1)
     else if bool_decide (phys = physical prev) then u32_wrap (logical prev + 1)
     else if bool_decide (phys = physical remote) then u32_wrap (logical remote + 1)
     else 0%Z).
End Hlc.

Arguments Hlc.tick : simpl never.
Arguments Hlc.observe : simpl never.

(** The derived order of [Hlc]: physical part first. *)
Definition hlc_pair (h : Hlc) : Z * Z := (physical h, logical h).
#[global] Instance hlc_pair_inj : Inj (=) (=) hlc_pair.
Proof. intros [] []; unfold hlc_pair; simpl; congruence. Qed.
#[global] Instance Hlc_ord : RustOrd Hlc := inj_ord hlc_pair hlc_pair_inj.

(** [impl Ord for Stamp]: the clock, then the writer's id. *)
Definition stamp_pair (s : Stamp) : Hlc * PeerId := (hlc s, peer s).
#[global] Instance stamp_pair_inj : Inj (=) (=) stamp_pair.
Proof. intros [] []; unfold stamp_pair; simpl; congruence. Qed.
#[global] Instance Stamp_ord : RustOrd Stamp := inj_ord stamp_pair stamp_pair_inj.

(** The machine ranges of a clock. *)
Definition hlc_ok (h : Hlc) : Prop := is_u64 (physical h) ∧ is_u32 (logical h).

(** No increment of a logical part overflows from this clock. *)
Definition hlc_room (h : Hlc) : Prop := (logical h < u32_max)%Z.

Section clocks.
Implicit Types h r : Hlc.

Lemma hlc_lt_iff h r :
  h <ₒ r ↔ (physical h < physical r ∨ physical h = physical r ∧ logical h < logical r)%Z.
Proof.
  unfold ord_lt; simpl. unfold cmp, then_with; simpl.
  destruct (Z.compare_spec (physical h) (physical r)).
  - rewrite Z.compare_lt_iff. lia.
  - split; [lia|done].
  - split; [done|lia].
Qed.

Lemma hlc_le_iff h r :
  h ≤ₒ r ↔ (physical h < physical r ∨ physical h = physical r ∧ logical h ≤ logical r)%Z.
Proof.
  rewrite ord_le_lt_eq, hlc_lt_iff. split.
  - intros [?| ->]; lia.
  - intros ?. destruct (decide (h = r)) as [|Hne]; [auto|left].
    destruct h as [p l], r as [p' l']; simpl in *.
    destruct (decide (l = l')); [|lia].
    destruct (decide (p = p')); [congruence|lia].
Qed.

Lemma stamp_lt_iff (a b : Stamp) :
  a <ₒ b ↔ hlc a <ₒ hlc b ∨ hlc a = hlc b ∧ peer a <ₒ peer b.
Proof.
  destruct a as [ha pa], b as [hb pb]; simpl.
  change (mkStamp ha pa <ₒ mkStamp hb pb) with (then_with (cmp ha hb) (cmp pa pb) = Lt).
  unfold ord_lt at 1 2. pose proof (cmp_eq_iff ha hb).
  destruct (cmp ha hb); simpl; naive_solver.
Qed.

Lemma u32_succ l : is_u32 l → (l < u32_max)%Z → u32_wrap (l + 1) = (l + 1)%Z.
Proof. intros. apply u32_wrap_small. unfold is_u32 in *. lia. Qed.

Lemma tick_ok h w : hlc_ok h → is_u64 w → hlc_ok (Hlc.tick h w).
Proof.
  unfold hlc_ok, is_u64, Hlc.tick. intros [? ?] ?. split; simpl; [lia|].
  case_bool_decide; auto with rust. unfold is_u32, u32_max; lia.
Qed.

Lemma observe_ok h r w : hlc_ok h → hlc_ok r → is_u64 w → hlc_ok (Hlc.observe h r w).
Proof.
  unfold hlc_ok, is_u64, Hlc.observe. intros [? ?] [? ?] ?. split; simpl; [lia|].
  repeat case_bool_decide; auto with rust. unfold is_u32, u32_max; lia.
Qed.

(** A tick moves strictly forward whatever the wall clock says. *)
Lemma tick_lt h w : hlc_ok h → hlc_room h → h <ₒ Hlc.tick h w.
Proof.
  unfold hlc_room, Hlc.tick. intros [_ ?] ?. rewrite hlc_lt_iff; simpl.
  case_bool_decide; [rewrite u32_succ by done|]; lia.
Qed.

(** An observation moves strictly past both the old clock and the remote one. *)
Lemma observe_lt h r w :
  hlc_ok h → hlc_ok r → hlc_room h → hlc_room r →
  h <ₒ Hlc.observe h r w ∧ r <ₒ Hlc.observe h r w.
Proof.
  unfold hlc_room, Hlc.observe. intros [_ ?] [_ ?] ? ?. rewrite !hlc_lt_iff; simpl.
  assert (is_u32 (Z.max (logical h) (logical r))) by (unfold is_u32 in *; lia).
  repeat case_bool_decide; rewrite ?u32_succ by (done || lia); lia.
Qed.

(** At [u32::MAX] the release build wraps and the clock runs backwards. *)
Lemma tick_overflow h w :
  logical h = u32_max → (w ≤ physical h)%Z → Hlc.tick h w = mkHlc (physical h) 0.
Proof.
  intros Hl ?. unfold Hlc.tick. rewrite Z.max_l by done.
  rewrite bool_decide_eq_true_2 by done. by rewrite Hl.
Qed.
End clocks.

#[export] Hint Resolve tick_ok observe_ok tick_lt : rust.

(** A peer id for the examples: one distinguishing byte. *)
Definition ex_peer (n : byte) : PeerId := n :: replicate 31 x00.

(** The clock is strictly monotone. While no logical part sits at
    [u32::MAX], a tick moves past the old clock and an observation past both
    the old clock and the remote one, whatever the wall clock reads, and both
    stay in the machine ranges. *)
Theorem clock_monotone h r w :
  hlc_ok h → hlc_ok r → is_u64 w → hlc_room h → hlc_room r →
  h <ₒ Hlc.tick h w ∧ hlc_ok (Hlc.tick h w) ∧
  h <ₒ Hlc.observe h r w ∧ r <ₒ Hlc.observe h r w ∧ hlc_ok (Hlc.observe h r w).
Proof.
  intros. destruct (observe_lt h r w); try done. split_and!; auto with rust.
Qed.

Lemma clock_monotone_witness :
  mkHlc 500 3 <ₒ Hlc.tick (mkHlc 500 3) 100 ∧ Hlc.tick (mkHlc 500 3) 100 = mkHlc 500 4.
Proof.
  split; [|reflexivity].
  refine (proj1 (clock_monotone (mkHlc 500 3) (mkHlc 900 2) 100 _ _ _ _ _));
    vm_compute; repeat split; discriminate.
Defined.

(** The clock runs backwards on overflow. After observing a remote clock
    that is at least as far ahead and whose logical part is [u32::MAX], the
    release build's clock lies strictly below the remote one: the next local
    stamp loses to a write this peer has already seen. *)
Theorem observe_overflow h r w :
  hlc_ok h → (physical h ≤ physical r)%Z → (w ≤ physical r)%Z → logical r = u32_max →
  Hlc.observe h r w = mkHlc (physical r) 0 ∧ Hlc.observe h r w <ₒ r.
Proof.
  intros [_ Hl] Hp Hw Hr.
  assert (E : Hlc.observe h r w = mkHlc (physical r) 0).
  { unfold Hlc.observe. rewrite Z.max_l, Z.max_r by lia.
    rewrite (bool_decide_eq_true_2 (physical r = physical r)) by done. unfold is_u32 in Hl.
    repeat case_bool_decide; rewrite ?Hr, ?Z.max_r by lia; done || (exfalso; lia). }
  split; [done|]. rewrite E, hlc_lt_iff, Hr. simpl. unfold u32_max. lia.
Qed.

Lemma observe_overflow_witness :
  Hlc.observe (mkHlc 5 0) (mkHlc 9 u32_max) 7 <ₒ mkHlc 9 u32_max.
Proof.
  refine (proj2 (observe_overflow (mkHlc 5 0) (mkHlc 9 u32_max) 7 _ _ _ _));
    vm_compute; repeat split; discriminate.
Defined.
