(* ===== verification/Lww.v ===== *)
(** * Last-writer-wins conflict resolution with tombstone collection

    [crates/stitch-p2p/src/lww.rs]: [Applier], a map of per-record cells, each
    with the current winner and the floor left by a collected tombstone. The
    abstract specification is [winner], the write with the greatest stamp among
    those merged for a key; [models] relates an applier to a list of writes
    merged so far, and every operation is proved against it. *)
From S2P Require Import Prelude Hlc.

Inductive Op := Insert | Update | Delete.

#[global] Instance Op_eq_dec : EqDecision Op.
Proof. solve_decision. Defined.

Definition is_delete (o : Op) : bool := match o with Delete => true | _ => false end.

Record StampedWrite := mkWrite {
  sw_stamp : Stamp;
  sw_op : Op;
  sw_entity : string;
  sw_id : string;
  sw_data : list byte;
}.

#[global] Instance StampedWrite_eq_dec : EqDecision StampedWrite.
Proof. solve_decision. Defined.

Inductive MergeOutcome := Applied | StaleDropped | BelowGcFloor.

#[global] Instance MergeOutcome_eq_dec : EqDecision MergeOutcome.
Proof. solve_decision. Defined.

Record Cell := mkCell { current : option StampedWrite; gc_floor : option Stamp }.

Record Applier := mkApplier { cells : gmap (string * string) Cell }.

Definition cell_default : Cell := mkCell None None.

Module Applier.
Definition new : Applier := mkApplier ∅.

Definition merge (a : Applier) (write : StampedWrite) : Applier * MergeOutcome :=
  let key := (sw_entity write, sw_id write) in
  let cell := default cell_default (cells a !! key) in
  if match gc_floor cell with
     | Some floor => bool_decide (sw_stamp write ≤ₒ floor)
     | None => false
     end
  then (mkApplier (<[key := cell]> (cells a)), BelowGcFloor)
  else if match current cell with
          | Some cur => bool_decide (sw_stamp write ≤ₒ sw_stamp cur)
          | None => false
          end
  then (mkApplier (<[key := cell]> (cells a)), StaleDropped)
  else (mkApplier (<[key := mkCell (Some write) (gc_floor cell)]> (cells a)), Applied).

Definition collect_tombstone (a : Applier) (entity id : string) : Applier * bool :=
  let key := (entity, id) in
  match cells a !! key with
  | None => (a, false)
  | Some cell =>
    match current cell with
    | None => (a, false)
    | Some cur =>
      if negb (is_delete (sw_op cur)) then (a, false) else
      let stamp := sw_stamp cur in
      let floor := match gc_floor cell with
                   | Some prev => if bool_decide (stamp ≤ₒ prev) then prev else stamp
                   | None => stamp
                   end in
      (mkApplier (<[key := mkCell None (Some floor)]> (cells a)), true)
    end
  end.

Definition visible (a : Applier) (entity id : string) : option (list byte) :=
  match cells a !! (entity, id) with
  | None => None
  | Some cell =>
    match current cell with
    | Some w => if negb (is_delete (sw_op w)) then Some (sw_data w) else None
    | None => None
    end
  end.

Definition current_stamp (a : Applier) (entity id : string) : option Stamp :=
  match cells a !! (entity, id) with
  | None => None
  | Some cell => sw_stamp <$> current cell
  end.

Definition visible_with_author (a : Applier) (entity id : string) : option (list byte * PeerId) :=
  match cells a !! (entity, id) with
  | None => None
  | Some cell =>
    match current cell with
    | Some w => if negb (is_delete (sw_op w)) then Some (sw_data w, peer (sw_stamp w)) else None
    | None => None
    end
  end.

Section iter.
Context `{HashIter}.

Definition visible_entity (a : Applier) (entity : string) : list (string * list byte) :=
  omap (λ kc : (string * string) * Cell,
    match current kc.2 with
    | Some w => if negb (is_delete (sw_op w)) then Some (kc.1.2, sw_data w) else None
    | None => None
    end)
  (filter (λ kc : (string * string) * Cell, kc.1.1 = entity) (hiter (cells a))).

Definition entries_with_authors (a : Applier) (entity : string)
    : list (string * list byte * PeerId) :=
  omap (λ kc : (string * string) * Cell,
    match current kc.2 with
    | Some w => if negb (is_delete (sw_op w))
                then Some (kc.1.2, sw_data w, peer (sw_stamp w)) else None
    | None => None
    end)
  (filter (λ kc : (string * string) * Cell, kc.1.1 = entity) (hiter (cells a))).
End iter.
End Applier.

Arguments Applier.merge : simpl never.
Arguments Applier.collect_tombstone : simpl never.

(** ** Specification *)

Definition write_key (w : StampedWrite) : string * string := (sw_entity w, sw_id w).

(** Keep the write with the greater stamp; on a tie the one already held. *)
Definition newer (cur : option StampedWrite) (w : StampedWrite) : option StampedWrite :=
  match cur with
  | Some v => if bool_decide (sw_stamp w ≤ₒ sw_stamp v) then Some v else Some w
  | None => Some w
  end.

(** The winner of the writes [D] (in merge order) for a key. *)
Definition winner (D : list StampedWrite) (key : string * string) : option StampedWrite :=
  foldl newer None (filter (λ w, write_key w = key) D).

(** What a reader sees of a winner. *)
Definition shown (w : option StampedWrite) : option (list byte) :=
  match w with
  | Some w => if is_delete (sw_op w) then None else Some (sw_data w)
  | None => None
  end.

(** A cell holds a winner: as its current write, above any floor, or, once its
    tombstone was collected, as the floor. *)
Definition cell_models (c : Cell) (win : option StampedWrite) : Prop :=
  match win with
  | None => c = cell_default
  | Some w =>
    (current c = Some w ∧ ∀ s, gc_floor c = Some s → s <ₒ sw_stamp w) ∨
    (current c = None ∧ is_delete (sw_op w) = true ∧ gc_floor c = Some (sw_stamp w))
  end.

Definition models (a : Applier) (D : list StampedWrite) : Prop :=
  ∀ key, cell_models (default cell_default (cells a !! key)) (winner D key).

Lemma winner_snoc D w key :
  winner (D ++ [w]) key =
    if decide (write_key w = key) then newer (winner D key) w else winner D key.
Proof.
  unfold winner. rewrite filter_app, foldl_app. rewrite (filter_cons _ w []).
  case_decide; by rewrite filter_nil.
Qed.

Lemma cells_insert_default (m : gmap (string * string) Cell) k c k' :
  default cell_default (<[k := c]> m !! k') =
    if decide (k = k') then c else default cell_default (m !! k').
Proof. rewrite lookup_insert. by case_decide. Qed.

Lemma models_new : models Applier.new [].
Proof. intros key. unfold Applier.new, winner; simpl. by rewrite lookup_empty. Qed.

(** What [merge] does to the one cell it touches. *)
Definition merge_cell (c : Cell) (w : StampedWrite) : Cell * MergeOutcome :=
  if match gc_floor c with Some f => bool_decide (sw_stamp w ≤ₒ f) | None => false end
  then (c, BelowGcFloor)
  else if match current c with Some v => bool_decide (sw_stamp w ≤ₒ sw_stamp v) | None => false end
  then (c, StaleDropped)
  else (mkCell (Some w) (gc_floor c), Applied).

Lemma merge_unfold a w :
  Applier.merge a w =
    let r := merge_cell (default cell_default (cells a !! write_key w)) w in
    (mkApplier (<[write_key w := r.1]> (cells a)), r.2).
Proof.
  unfold Applier.merge, merge_cell, write_key. by repeat case_match.
Qed.

Lemma ord_lt_not_le `{RustOrd A} (x y : A) : ¬ x ≤ₒ y ↔ y <ₒ x.
Proof. rewrite ord_le_not_lt. destruct (decide (y <ₒ x)); tauto. Qed.

(** Merging refines [newer] cell by cell: the outcome says whether the write won. *)
Lemma merge_cell_models c win w :
  cell_models c win →
  cell_models (merge_cell c w).1 (newer win w) ∧
  ((merge_cell c w).2 = Applied ↔ ∀ v, win = Some v → sw_stamp v <ₒ sw_stamp w).
Proof.
  unfold merge_cell, newer. destruct win as [v|]; simpl.
  - case_bool_decide as Hw; intros Hc.
    + assert (Hne : ¬ sw_stamp v <ₒ sw_stamp w) by (by rewrite <-ord_le_not_lt).
      destruct Hc as [[Hcur Hfl]|(Hcur & Hdel & Hfl)]; rewrite Hcur.
      * rewrite (bool_decide_eq_true_2 (sw_stamp w ≤ₒ sw_stamp v)) by done.
        case_match; simpl; naive_solver.
      * rewrite Hfl, bool_decide_eq_true_2 by done. simpl. naive_solver.
    + apply ord_lt_not_le in Hw.
      destruct Hc as [[Hcur Hfl]|(Hcur & Hdel & Hfl)]; rewrite Hcur.
      * rewrite (bool_decide_eq_false_2 (sw_stamp w ≤ₒ sw_stamp v)) by (by apply ord_lt_not_le).
        destruct (gc_floor c) as [s|] eqn:Es; simpl; [|naive_solver].
        rewrite bool_decide_eq_false_2 by (apply ord_lt_not_le; etrans; eauto); simpl.
        split; [left; split; [done|]; intros ? [= <-]; etrans; eauto|naive_solver].
      * rewrite Hfl, bool_decide_eq_false_2 by (by apply ord_lt_not_le); simpl. naive_solver.
  - intros ->. simpl. naive_solver.
Qed.

Lemma merge_models a D w :
  models a D → models (Applier.merge a w).1 (D ++ [w]).
Proof.
  intros HM key. rewrite merge_unfold, winner_snoc; simpl. rewrite cells_insert_default.
  case_decide as Hk; [subst key|by apply HM].
  apply merge_cell_models, HM.
Qed.

(** A write is applied exactly when its stamp beats every write merged before. *)
Lemma merge_outcome_applied a D w :
  models a D →
  (Applier.merge a w).2 = Applied ↔
    ∀ v, winner D (write_key w) = Some v → sw_stamp v <ₒ sw_stamp w.
Proof.
  intros HM. rewrite merge_unfold; simpl.
  by apply merge_cell_models.
Qed.

Lemma collect_models a D e i : models a D → models (Applier.collect_tombstone a e i).1 D.
Proof.
  intros HM. pose proof (HM (e, i)) as Hk. unfold Applier.collect_tombstone.
  destruct (cells a !! (e, i)) as [c|] eqn:Ec; [|done]; simpl in Hk.
  destruct (current c) as [v|] eqn:Ev; [|done].
  destruct (is_delete (sw_op v)) eqn:Ed; [|done]; simpl.
  intros key. simpl. rewrite cells_insert_default. case_decide; [subst key|by apply HM].
  destruct (winner D (e, i)) as [w|]; simpl in *; [|by subst c].
  destruct Hk as [[Hcur Hfl]|(Hcur & ? & ?)]; [|congruence].
  simplify_eq. right. split; [done|]. split; [done|]. f_equal.
  destruct (gc_floor c) as [s|]; [|done].
  rewrite bool_decide_eq_false_2; [done|]. apply ord_lt_not_le. by apply Hfl.
Qed.

(** Reads see the winner, whether or not its tombstone was collected. *)
Lemma visible_models a D e i :
  models a D → Applier.visible a e i = shown (winner D (e, i)).
Proof.
  intros HM. specialize (HM (e, i)). unfold Applier.visible, shown.
  destruct (cells a !! (e, i)) as [c|] eqn:Ec; simpl in HM.
  - destruct (winner D (e, i)) as [w|]; simpl in HM; [|by subst c].
    destruct HM as [[-> _]|(-> & -> & _)]; [by destruct (is_delete _)|done].
  - destruct (winner D (e, i)) as [w|]; simpl in HM; [|done].
    by destruct HM as [[? _]|(_ & _ & ?)].
Qed.

(** The same with the author of the winning write. *)
Definition shown_author (w : option StampedWrite) : option (list byte * PeerId) :=
  match w with
  | Some w => if is_delete (sw_op w) then None else Some (sw_data w, peer (sw_stamp w))
  | None => None
  end.

Lemma visible_with_author_models a D e i :
  models a D → Applier.visible_with_author a e i = shown_author (winner D (e, i)).
Proof.
  intros HM. specialize (HM (e, i)). unfold Applier.visible_with_author, shown_author.
  destruct (cells a !! (e, i)) as [c|] eqn:Ec; simpl in HM.
  - destruct (winner D (e, i)) as [w|]; simpl in HM; [|by subst c].
    destruct HM as [[-> _]|(-> & -> & _)]; [by destruct (is_delete _)|done].
  - destruct (winner D (e, i)) as [w|]; simpl in HM; [|done].
    by destruct HM as [[? _]|(_ & _ & ?)].
Qed.

(** ** The winner is the greatest write *)

Definition unique_stamps (D : list StampedWrite) : Prop :=
  ∀ x y, x ∈ D → y ∈ D → sw_stamp x = sw_stamp y → x = y.

Definition same_writes (D D' : list StampedWrite) : Prop := ∀ w, w ∈ D ↔ w ∈ D'.

Lemma winner_None D key : winner D key = None ↔ ∀ w, w ∈ D → write_key w ≠ key.
Proof.
  induction D as [|w D IH] using rev_ind.
  - split; [|done]. intros _ w Hw. by apply elem_of_nil in Hw.
  - rewrite winner_snoc. setoid_rewrite elem_of_app. setoid_rewrite list_elem_of_singleton.
    case_decide.
    + split; [|naive_solver]. unfold newer. by destruct (winner D key); [case_bool_decide|].
    + naive_solver.
Qed.

Lemma winner_Some D key w :
  winner D key = Some w →
  w ∈ D ∧ write_key w = key ∧ ∀ v, v ∈ D → write_key v = key → sw_stamp v ≤ₒ sw_stamp w.
Proof.
  revert w. induction D as [|x D IH] using rev_ind; [done|]. intros w.
  rewrite winner_snoc. setoid_rewrite elem_of_app. setoid_rewrite list_elem_of_singleton.
  case_decide as Hk; [|naive_solver].
  unfold newer. destruct (winner D key) as [v|] eqn:Ev.
  - specialize (IH _ eq_refl) as (Hin & Hkv & Hmax). case_bool_decide as Hle; intros [= ->].
    + split_and!; [by left|done|]. intros u [?| ->] ?; auto.
    + apply ord_lt_not_le in Hle. split_and!; [by right|done|].
      intros u [?| ->] ?; [|done]. etrans; [by apply Hmax|by apply ord_lt_le].
  - intros [= ->]. split_and!; [by right|done|]. intros u [Hu| ->] Hku; [|done].
    by apply (proj1 (winner_None D key) Ev) in Hu.
Qed.

Lemma winner_intro D key w :
  unique_stamps D → w ∈ D → write_key w = key →
  (∀ v, v ∈ D → write_key v = key → sw_stamp v ≤ₒ sw_stamp w) → winner D key = Some w.
Proof.
  intros Hu Hw Hk Hmax. destruct (winner D key) as [v|] eqn:Ev.
  - apply winner_Some in Ev as (Hv & Hkv & Hmaxv). f_equal. apply Hu; try done.
    apply (anti_symm ord_le); eauto.
  - by apply (proj1 (winner_None D key) Ev) in Hw.
Qed.

(** With distinct stamps the winner depends on the set of writes alone. *)
Lemma winner_ext D D' key :
  unique_stamps D → same_writes D D' → winner D key = winner D' key.
Proof.
  intros Hu Hs. destruct (winner D' key) as [w|] eqn:Ew.
  - apply winner_Some in Ew as (Hw & Hk & Hmax).
    apply winner_intro; auto; [by apply Hs|]. intros v ?%Hs ?. auto.
  - rewrite winner_None in *. intros w Hw%Hs. auto.
Qed.

Lemma same_writes_unique D D' : same_writes D D' → unique_stamps D → unique_stamps D'.
Proof. intros Hs Hu x y ?%Hs ?%Hs. auto. Qed.

(** ** Runs of an applier *)

Inductive ApplierOp :=
| DoMerge (w : StampedWrite)
| DoCollect (entity id : string).

Definition apply_op (a : Applier) (o : ApplierOp) : Applier :=
  match o with
  | DoMerge w => (Applier.merge a w).1
  | DoCollect e i => (Applier.collect_tombstone a e i).1
  end.

Definition run_applier (a : Applier) (ops : list ApplierOp) : Applier := foldl apply_op a ops.

Definition merged (ops : list ApplierOp) : list StampedWrite :=
  omap (λ o, match o with DoMerge w => Some w | DoCollect _ _ => None end) ops.

Lemma merged_app ops ops' : merged (ops ++ ops') = merged ops ++ merged ops'.
Proof. apply omap_app. Qed.

Lemma run_models a D ops : models a D → models (run_applier a ops) (D ++ merged ops).
Proof.
  induction ops as [|o ops IH] using rev_ind; intros HM.
  - by rewrite app_nil_r.
  - unfold run_applier. rewrite foldl_app, merged_app, app_assoc; simpl.
    destruct o; simpl; [apply merge_models|rewrite app_nil_r; apply collect_models]; by apply IH.
Qed.

Lemma run_new_models ops : models (run_applier Applier.new ops) (merged ops).
Proof. apply (run_models Applier.new []), models_new. Qed.

(** C2: Strong convergence of the conflict resolver. Two replicas that merged
    the same set of writes (with distinct stamps), each in its own order, with
    any repetitions and with tombstones collected at any points, show the same
    value for every record. *)
Theorem lww_convergence ops1 ops2 e i :
  unique_stamps (merged ops1) → same_writes (merged ops1) (merged ops2) →
  Applier.visible (run_applier Applier.new ops1) e i =
  Applier.visible (run_applier Applier.new ops2) e i.
Proof.
  intros Hu Hs. rewrite !(visible_models _ _ _ _ (run_new_models _)).
  by rewrite (winner_ext _ _ _ Hu Hs).
Qed.

Lemma winner_app_below D D' key w :
  winner D key = Some w →
  (∀ v, v ∈ D' → write_key v = key → sw_stamp v ≤ₒ sw_stamp w) →
  winner (D ++ D') key = Some w.
Proof.
  intros Hw. induction D' as [|v D' IH] using rev_ind; [by rewrite app_nil_r|].
  setoid_rewrite elem_of_app. setoid_rewrite list_elem_of_singleton. intros Hb.
  rewrite app_assoc, winner_snoc, IH by naive_solver.
  case_decide; [|done]. simpl. rewrite bool_decide_eq_true_2; naive_solver.
Qed.

(** A collected tombstone cannot be resurrected. Once a record's tombstone
    was collected, it stays absent under any later merges and collections as
    long as every merged write of that record has a stamp at or below the
    tombstone's. *)
Theorem no_resurrection ops later e i w :
  winner (merged ops) (e, i) = Some w → is_delete (sw_op w) = true →
  (∀ v, DoMerge v ∈ later → write_key v = (e, i) → sw_stamp v ≤ₒ sw_stamp w) →
  Applier.visible
    (run_applier (Applier.collect_tombstone (run_applier Applier.new ops) e i).1 later) e i = None.
Proof.
  intros Hw Hd Hl.
  rewrite (visible_models _ (merged ops ++ merged later));
    [|apply run_models, collect_models, run_new_models].
  rewrite (winner_app_below _ _ _ w); [by unfold shown; rewrite Hd|done|].
  intros v (o & Ho & Hv)%list_elem_of_omap Hk. destruct o; simplify_eq. by apply Hl.
Qed.

(** Listing a map whose keys are pairs, at one first component. *)
Lemma NoDup_omap_key {C B} (g : C → option B) e (l : list ((string * string) * C)) :
  NoDup l.*1 →
  NoDup (omap (λ kc, (λ b, (kc.1.2, b)) <$> g kc.2)
          (filter (λ kc : (string * string) * C, kc.1.1 = e) l)).*1.
Proof.
  induction l as [|[[e' i] c] l IH]; [constructor|]. rewrite fmap_cons, NoDup_cons.
  intros [Hni Hnd]. rewrite filter_cons. case_decide as He; [|auto]. simpl in *. subst e'.
  destruct (g c) as [b|]; simpl; [|auto]. constructor; [|auto].
  intros ([i' b'] & Hi & Hin)%list_elem_of_fmap. simpl in Hi; subst i'. apply Hni.
  apply list_elem_of_omap in Hin as ([[e' i'] c'] & Hin & Hg). simpl in Hg.
  apply list_elem_of_filter in Hin as [Heq Hin]. simpl in Heq; subst e'.
  apply list_elem_of_fmap. exists ((e, i'), c'). destruct (g c'); naive_solver.
Qed.

Lemma elem_of_listing `{HashIter} {C B} (f : (string * string) * C → option B)
    (m : gmap (string * string) C) e x :
  x ∈ omap f (filter (λ kc : (string * string) * C, kc.1.1 = e) (hiter m)) ↔
    ∃ i c, m !! (e, i) = Some c ∧ f ((e, i), c) = Some x.
Proof.
  rewrite list_elem_of_omap. setoid_rewrite list_elem_of_filter. split.
  - intros ([[e' i] c] & [He Hin] & Hc). simpl in He; subst e'.
    apply elem_of_hiter in Hin. eauto.
  - intros (i & c & Hc & Hf). exists ((e, i), c). by rewrite elem_of_hiter.
Qed.

Lemma elem_of_visible_entity `{HashIter} a e i d :
  (i, d) ∈ Applier.visible_entity a e ↔ Applier.visible a e i = Some d.
Proof.
  unfold Applier.visible_entity, Applier.visible. rewrite elem_of_listing. split.
  - intros (i' & c & Hc & Hf). simpl in Hf. split_tests; congruence.
  - intros Hv. split_tests. eexists _, _. split; [done|]. simplify_option_eq. by split_tests.
Qed.

Lemma elem_of_entries_with_authors `{HashIter} a e i d p :
  (i, d, p) ∈ Applier.entries_with_authors a e ↔
  Applier.visible_with_author a e i = Some (d, p).
Proof.
  unfold Applier.entries_with_authors, Applier.visible_with_author.
  rewrite elem_of_listing. split.
  - intros (i' & c & Hc & Hf). simpl in Hf. split_tests; congruence.
  - intros Hv. split_tests. eexists _, _. split; [done|]. simplify_option_eq. by split_tests.
Qed.

(** The author listing is the plain listing with the author added. *)
Lemma entries_visible_entity `{HashIter} a e :
  Applier.visible_entity a e = fst <$> Applier.entries_with_authors a e.
Proof.
  unfold Applier.visible_entity, Applier.entries_with_authors.
  induction (filter _ (hiter (cells a))) as [|[[e' i] c] l IH]; [done|]. simpl.
  destruct (current c) as [w|]; [|done]. destruct (negb _); simpl; [by f_equal|done].
Qed.

Lemma NoDup_visible_entity `{HashIter} a e : NoDup (Applier.visible_entity a e).*1.
Proof.
  unfold Applier.visible_entity.
  erewrite list_omap_ext; [apply (NoDup_omap_key (λ c, match current c with
    | Some w => if is_delete (sw_op w) then None else Some (sw_data w)
    | None => None end)), NoDup_hiter_fst|].
  apply Forall_Forall2_diag, Forall_forall. intros [[? ?] [[w|] ?]] _; simpl; [|done].
  by destruct (is_delete _).
Qed.

Lemma NoDup_entries_with_authors `{HashIter} a e :
  NoDup (Applier.entries_with_authors a e).*1.*1.
Proof. rewrite <-entries_visible_entity. apply NoDup_visible_entity. Qed.

(** Listing agrees with point reads: an entity's listing holds exactly the
    records a point read shows, each once, in every hash-map order, and the
    author listing adds the winning write's author. *)
Theorem listing_agrees `{HashIter} a e :
  NoDup (Applier.visible_entity a e).*1 ∧
  (∀ i d, (i, d) ∈ Applier.visible_entity a e ↔ Applier.visible a e i = Some d) ∧
  NoDup (Applier.entries_with_authors a e).*1.*1 ∧
  (∀ i d p, (i, d, p) ∈ Applier.entries_with_authors a e ↔
    Applier.visible_with_author a e i = Some (d, p)).
Proof.
  split_and!; [apply NoDup_visible_entity|intros; apply elem_of_visible_entity
    |apply NoDup_entries_with_authors|intros; apply elem_of_entries_with_authors].
Qed.

(** ** Examples *)

Definition ex_put (seq : Z) (p : byte) (op : Op) (data : list byte) : StampedWrite :=
  mkWrite (mkStamp (mkHlc seq 0) (ex_peer p)) op "task" "t1" data.

(** Writer 1 inserts while writer 2 deletes; one replica collects in between. *)
Lemma lww_convergence_witness :
  let ops1 := [DoMerge (ex_put 1 x01 Insert [x61]); DoMerge (ex_put 2 x02 Delete [])] in
  let ops2 := [DoMerge (ex_put 2 x02 Delete []); DoCollect "task" "t1";
               DoMerge (ex_put 1 x01 Insert [x61])] in
  Applier.visible (run_applier Applier.new ops1) "task" "t1" =
  Applier.visible (run_applier Applier.new ops2) "task" "t1".
Proof.
  intros ops1 ops2. apply (lww_convergence ops1 ops2).
  - intros x y Hx Hy. apply list_elem_of_In in Hx, Hy. simpl in Hx, Hy.
    destruct Hx as [<-|[<-|[]]], Hy as [<-|[<-|[]]]; (reflexivity || discriminate).
  - intros w. rewrite !list_elem_of_In. simpl. tauto.
Defined.

Lemma no_resurrection_witness :
  let ops := [DoMerge (ex_put 2 x02 Delete [])] in
  Applier.visible
    (run_applier (Applier.collect_tombstone (run_applier Applier.new ops) "task" "t1").1
      [DoMerge (ex_put 1 x01 Insert [x61])]) "task" "t1" = None.
Proof.
  intros ops. apply (no_resurrection ops _ "task" "t1" (ex_put 2 x02 Delete [])); [reflexivity..|].
  intros v Hv _. apply list_elem_of_In in Hv. destruct Hv as [[= <-]|[]]. vm_compute. discriminate.
Defined.
