(* ===== verification/Wire.v ===== *)
(** * The write frame and its binary encoding

    [crates/stitch-p2p/src/wire.rs]: [WriteFrame], [signing_bytes], [encode],
    [decode], [check_lengths]. Lengths and offsets of the decoder are [Z], so
    an announced length is compared before anything of that size is built. *)
From S2P Require Import Prelude Hlc Lww.

Definition WIRE_VERSION : byte := x02.
Definition HEADER_LEN : nat := 60.
Definition SIGNATURE_LEN : nat := 64.

Inductive WireError :=
| WTruncated (need have : Z)
| BadVersion (v : byte)
| BadOp (b : byte)
| EntityTooLong
| IdTooLong
| DataTooLong
| Utf8
| BadSignatureFlag (b : byte).

#[global] Instance WireError_eq_dec : EqDecision WireError.
Proof. solve_decision. Defined.

Record WriteFrame := mkFrame {
  f_stamp : Stamp;
  f_seq : Z;
  f_op : Op;
  f_entity : string;
  f_id : string;
  f_data : list byte;
  f_signature : option (list byte);
}.

#[global] Instance WriteFrame_eq_dec : EqDecision WriteFrame.
Proof. solve_decision. Defined.

(** What the Rust types guarantee of a frame. *)
Record frame_ok (f : WriteFrame) : Prop := {
  fok_hlc : hlc_ok (hlc (f_stamp f));
  fok_peer : peer_ok (peer (f_stamp f));
  fok_seq : is_u64 (f_seq f);
  fok_entity : str_ok (f_entity f);
  fok_id : str_ok (f_id f);
  fok_sig : ∀ s, f_signature f = Some s → length s = SIGNATURE_LEN;
}.

Definition op_to_u8 (op : Op) : byte :=
  match op with Insert => x00 | Update => x01 | Delete => x02 end.

Definition u8_to_op (b : byte) : result Op WireError :=
  if bool_decide (b = x00) then Ok Insert
  else if bool_decide (b = x01) then Ok Update
  else if bool_decide (b = x02) then Ok Delete
  else Err (BadOp b).

Definition check_lengths (entity id : string) (data : list byte) : result () WireError :=
  let? _ := ok_or (u8_try_from (str_len entity)) EntityTooLong in
  let? _ := ok_or (u8_try_from (str_len id)) IdTooLong in
  let? _ := ok_or (u32_try_from (length data)) DataTooLong in
  Ok ().

Module WriteFrame.
Definition into_stamped (f : WriteFrame) : StampedWrite :=
  mkWrite (f_stamp f) (f_op f) (f_entity f) (f_id f) (f_data f).

Definition signing_bytes (f : WriteFrame) : result (list byte) WireError :=
  let entity_bytes := as_bytes (f_entity f) in
  let id_bytes := as_bytes (f_id f) in
  let? entity_len := ok_or (u8_try_from (length entity_bytes)) EntityTooLong in
  let? id_len := ok_or (u8_try_from (length id_bytes)) IdTooLong in
  let? data_len := ok_or (u32_try_from (length (f_data f))) DataTooLong in
  Ok ([WIRE_VERSION] ++ [op_to_u8 (f_op f)]
      ++ to_be_bytes 8 (physical (hlc (f_stamp f)))
      ++ to_be_bytes 4 (logical (hlc (f_stamp f)))
      ++ peer (f_stamp f)
      ++ to_be_bytes 8 (f_seq f)
      ++ [byte_of entity_len] ++ [byte_of id_len]
      ++ to_be_bytes 4 data_len
      ++ entity_bytes ++ id_bytes ++ f_data f).

Definition encode (f : WriteFrame) : result (list byte) WireError :=
  let? out := signing_bytes f in
  match f_signature f with
  | Some sig => Ok (out ++ [x01] ++ sig)
  | None => Ok (out ++ [x00])
  end.

(** [buf[a..b]] at the decoder's offsets. *)
Definition zslice (a b : Z) (buf : list byte) : list byte :=
  slice (Z.to_nat a) (Z.to_nat b) buf.

(** The [match buf[data_end]] of [decode]. *)
Definition decode_signature (buf : list byte) (data_end : Z)
    : result (option (list byte)) WireError :=
  let have := Z.of_nat (length buf) in
  let flag_end := (data_end + 1)%Z in
  let flag := at_byte buf (Z.to_nat data_end) in
  if bool_decide (flag = x00) then Ok None
  else if bool_decide (flag = x01) then
    let sig_end := (flag_end + Z.of_nat SIGNATURE_LEN)%Z in
    if bool_decide (have < sig_end)%Z then Err (WTruncated sig_end have)
    else Ok (Some (zslice flag_end sig_end buf))
  else Err (BadSignatureFlag flag).

Definition decode (buf : list byte) : result WriteFrame WireError :=
  let have := Z.of_nat (length buf) in
  if bool_decide (have < Z.of_nat HEADER_LEN)%Z
  then Err (WTruncated (Z.of_nat HEADER_LEN) have) else
  let version := at_byte buf 0 in
  if negb (bool_decide (version = WIRE_VERSION)) then Err (BadVersion version) else
  let? op := u8_to_op (at_byte buf 1) in
  let physical := from_be_bytes (slice 2 10 buf) in
  let logical := from_be_bytes (slice 10 14 buf) in
  let peer := slice 14 46 buf in
  let seq := from_be_bytes (slice 46 54 buf) in
  let entity_len := byte_val (at_byte buf 54) in
  let id_len := byte_val (at_byte buf 55) in
  let data_len := from_be_bytes (slice 56 60 buf) in
  let entity_end := (Z.of_nat HEADER_LEN + entity_len)%Z in
  let id_end := (entity_end + id_len)%Z in
  let data_end := (id_end + data_len)%Z in
  let flag_end := (data_end + 1)%Z in
  if bool_decide (have < flag_end)%Z then Err (WTruncated flag_end have) else
  let? entity := ok_or (from_utf8 (zslice (Z.of_nat HEADER_LEN) entity_end buf)) Utf8 in
  let? id := ok_or (from_utf8 (zslice entity_end id_end buf)) Utf8 in
  let data := zslice id_end data_end buf in
  let? signature := decode_signature buf data_end in
  Ok (mkFrame (mkStamp (mkHlc physical logical) peer) seq op entity id data signature).

Definition encoded_len (f : WriteFrame) : nat :=
  HEADER_LEN + str_len (f_entity f) + str_len (f_id f) + length (f_data f) + 1
  + match f_signature f with Some _ => SIGNATURE_LEN | None => 0 end.
End WriteFrame.

Lemma u8_to_op_to op : u8_to_op (op_to_u8 op) = Ok op.
Proof. by destruct op. Qed.

Lemma u8_to_op_Ok b op : u8_to_op b = Ok op → b = op_to_u8 op.
Proof. unfold u8_to_op. repeat case_bool_decide; intros [= <-]; by subst b. Qed.

(** The lengths fit exactly when [check_lengths] passes. *)
Lemma check_lengths_Ok e i d :
  check_lengths e i d = Ok () ↔
  (Z.of_nat (str_len e) ≤ u8_max)%Z ∧ (Z.of_nat (str_len i) ≤ u8_max)%Z ∧
  (Z.of_nat (length d) ≤ u32_max)%Z.
Proof.
  unfold check_lengths, u8_try_from, u32_try_from. split_tests; naive_solver.
Qed.

Lemma signing_bytes_Ok f :
  is_ok (WriteFrame.signing_bytes f) = true ↔
  check_lengths (f_entity f) (f_id f) (f_data f) = Ok ().
Proof.
  unfold check_lengths, WriteFrame.signing_bytes, u8_try_from, u32_try_from, str_len.
  split_tests; naive_solver.
Qed.

(** ** Layout *)

(** The pieces of a frame's fixed header, in order. *)
Definition header (f : WriteFrame) : list byte :=
  [WIRE_VERSION] ++ [op_to_u8 (f_op f)]
  ++ to_be_bytes 8 (physical (hlc (f_stamp f)))
  ++ to_be_bytes 4 (logical (hlc (f_stamp f)))
  ++ peer (f_stamp f)
  ++ to_be_bytes 8 (f_seq f)
  ++ [byte_of (Z.of_nat (str_len (f_entity f)))] ++ [byte_of (Z.of_nat (str_len (f_id f)))]
  ++ to_be_bytes 4 (Z.of_nat (length (f_data f))).

Arguments header : simpl never.

Definition trailer (f : WriteFrame) : list byte :=
  match f_signature f with Some sig => [x01] ++ sig | None => [x00] end.

Lemma signing_bytes_layout f bs :
  WriteFrame.signing_bytes f = Ok bs ↔
  check_lengths (f_entity f) (f_id f) (f_data f) = Ok () ∧
  bs = header f ++ as_bytes (f_entity f) ++ as_bytes (f_id f) ++ f_data f.
Proof.
  rewrite check_lengths_Ok. unfold WriteFrame.signing_bytes, u8_try_from, u32_try_from, str_len, header.
  repeat case_bool_decide; simpl; rewrite <-?app_assoc; naive_solver.
Qed.

Lemma encode_layout f bs :
  WriteFrame.encode f = Ok bs ↔
  check_lengths (f_entity f) (f_id f) (f_data f) = Ok () ∧
  bs = header f ++ as_bytes (f_entity f) ++ as_bytes (f_id f) ++ f_data f ++ trailer f.
Proof.
  unfold WriteFrame.encode, trailer. rewrite rbind_Ok. setoid_rewrite signing_bytes_layout.
  split.
  - intros (x & [Hc Hx] & Hb). subst x. split; [done|].
    destruct (f_signature f); apply (inj Ok) in Hb as <-; by rewrite <-!app_assoc.
  - intros [Hc Hb]. subst bs. eexists. split; [by split|].
    destruct (f_signature f); by rewrite <-!app_assoc.
Qed.

Lemma length_header f : peer_ok (peer (f_stamp f)) → length (header f) = HEADER_LEN.
Proof.
  unfold header, peer_ok, HEADER_LEN, PEER_ID_LEN. intros Hp.
  rewrite !length_app, !length_to_be_bytes, Hp. done.
Qed.

(** The piece of a concatenation behind a prefix of known length. *)
Lemma slice_mid {A} a b (l m r : list A) :
  length l = a → a + length m = b → slice a b (l ++ m ++ r) = m.
Proof.
  intros <- <-. rewrite slice_app_r, Nat.sub_diag by done. apply slice_app_head. lia.
Qed.

Lemma at_byte_mid a (l r : list byte) b : length l = a → at_byte (l ++ [b] ++ r) a = b.
Proof. intros <-. rewrite at_byte_app_r, Nat.sub_diag by done. done. Qed.

Lemma header_fields f r :
  peer_ok (peer (f_stamp f)) →
  let buf := header f ++ r in
  at_byte buf 0 = WIRE_VERSION ∧ at_byte buf 1 = op_to_u8 (f_op f) ∧
  slice 2 10 buf = to_be_bytes 8 (physical (hlc (f_stamp f))) ∧
  slice 10 14 buf = to_be_bytes 4 (logical (hlc (f_stamp f))) ∧
  slice 14 46 buf = peer (f_stamp f) ∧
  slice 46 54 buf = to_be_bytes 8 (f_seq f) ∧
  at_byte buf 54 = byte_of (Z.of_nat (str_len (f_entity f))) ∧
  at_byte buf 55 = byte_of (Z.of_nat (str_len (f_id f))) ∧
  slice 56 60 buf = to_be_bytes 4 (Z.of_nat (length (f_data f))).
Proof.
  unfold peer_ok, PEER_ID_LEN, header. intros Hp. rewrite <-!app_assoc.
  assert (Hl : ∀ n v, length (to_be_bytes n v) = n) by apply length_to_be_bytes.
  split_and!; [done|done|..].
  all: repeat (rewrite slice_app_r by (rewrite ?Hl, ?Hp; simpl; lia));
    repeat (rewrite at_byte_app_r by (rewrite ?Hl, ?Hp; simpl; lia)).
  all: rewrite ?Hl, ?Hp; simpl.
  all: try (apply slice_app_head; rewrite ?Hl, ?Hp; done).
  all: done.
Qed.

Lemma byte_val_of_len n : (Z.of_nat n ≤ u8_max)%Z → byte_val (byte_of (Z.of_nat n)) = Z.of_nat n.
Proof. unfold u8_max. intros. rewrite byte_val_of. apply Z.mod_small. lia. Qed.

Lemma zslice_mid a b (l m r : list byte) :
  Z.of_nat (length l) = a → (a + Z.of_nat (length m))%Z = b →
  WriteFrame.zslice a b (l ++ m ++ r) = m.
Proof. intros. unfold WriteFrame.zslice. apply slice_mid; lia. Qed.

Lemma decode_signature_trailer l f r data_end :
  (∀ s, f_signature f = Some s → length s = SIGNATURE_LEN) →
  Z.of_nat (length l) = data_end →
  WriteFrame.decode_signature (l ++ trailer f ++ r) data_end = Ok (f_signature f).
Proof.
  intros Hs <-. unfold WriteFrame.decode_signature, trailer. rewrite Nat2Z.id.
  destruct (f_signature f) as [s|]; rewrite at_byte_app_r, Nat.sub_diag by done; [|done].
  specialize (Hs _ eq_refl). unfold SIGNATURE_LEN in *. simpl.
  rewrite bool_decide_eq_false_2 by (rewrite !length_app; simpl; rewrite length_app; lia).
  do 2 f_equal. change (l ++ x01 :: s ++ r) with (l ++ [x01] ++ s ++ r). rewrite app_assoc.
  apply zslice_mid; rewrite ?length_app; simpl; lia.
Qed.

(** Decoding reads back a frame from its encoding, whatever follows it. *)
Lemma decode_encode f bs r :
  frame_ok f → WriteFrame.encode f = Ok bs → WriteFrame.decode (bs ++ r) = Ok f.
Proof.
  intros [[Hp Hl] Hpeer Hseq He Hi Hsig] [Hlen ->]%encode_layout.
  apply check_lengths_Ok in Hlen as (Hle & Hli & Hld).
  pose proof (length_header f Hpeer) as Hh. rewrite <-!app_assoc.
  destruct (header_fields f (as_bytes (f_entity f) ++ as_bytes (f_id f) ++ f_data f
    ++ trailer f ++ r) Hpeer) as (H0 & H1 & H2 & H10 & H14 & H46 & H54 & H55 & H56).
  apply from_utf8_as_bytes in He, Hi. unfold str_len in *.
  set (e := as_bytes (f_entity f)) in *. set (i := as_bytes (f_id f)) in *.
  set (buf := header f ++ _) in *. unfold HEADER_LEN in Hh.
  assert (Ht : 1 ≤ length (trailer f)) by (unfold trailer; destruct (f_signature f); simpl; lia).
  assert (Hb : Z.of_nat (length buf) = (60 + Z.of_nat (length e) + Z.of_nat (length i)
    + Z.of_nat (length (f_data f)) + Z.of_nat (length (trailer f)) + Z.of_nat (length r))%Z).
  { unfold buf. rewrite !length_app, Hh. lia. }
  assert (Hz : ∀ l m r' a b, buf = l ++ m ++ r' → Z.of_nat (length l) = a →
    (a + Z.of_nat (length m))%Z = b → WriteFrame.zslice a b buf = m).
  { intros ????? ->. apply zslice_mid. }
  unfold is_u64, u64_max, is_u32, u32_max in *. unfold WriteFrame.decode.
  rewrite H0, H1, H2, H10, H14, H46, H54, H55, H56, !byte_val_of_len by done.
  rewrite !from_to_be_bytes by (simpl; lia). change (Z.of_nat HEADER_LEN) with 60%Z.
  rewrite !(bool_decide_eq_false_2 (Z.of_nat (length buf) < _)%Z) by lia.
  rewrite u8_to_op_to. cbn -[buf].
  rewrite (Hz (header f) e (i ++ f_data f ++ trailer f ++ r)) by (done || lia). rewrite He. cbn -[buf].
  rewrite (Hz (header f ++ e) i (f_data f ++ trailer f ++ r))
    by (unfold buf; rewrite ?length_app, <-?app_assoc; done || lia). rewrite Hi. cbn -[buf].
  rewrite (Hz (header f ++ e ++ i) (f_data f) (trailer f ++ r))
    by (unfold buf; rewrite ?length_app, <-?app_assoc; done || lia).
  unfold buf. rewrite !(app_assoc _ _ (trailer f ++ r)).
  rewrite decode_signature_trailer by (done || rewrite !length_app; lia).
  by destruct f as [[[] ?] ? ? ? ? ? ?].
Qed.

Lemma slice_join {A} a b c (l : list A) : a ≤ b → b ≤ c → slice a b l ++ slice b c l = slice a c l.
Proof.
  intros. unfold slice.
  replace (drop b l) with (drop (b - a) (drop a l)) by (rewrite drop_drop; f_equal; lia).
  rewrite take_take_drop. f_equal. lia.
Qed.

Lemma slice_one (l : list byte) a : a < length l → [at_byte l a] = slice a (S a) l.
Proof.
  intros Ha. unfold slice, at_byte. replace (S a - a) with 1 by lia.
  destruct (lookup_lt_is_Some_2 l a Ha) as [b Hb]. rewrite Hb.
  rewrite (drop_S _ _ _ Hb). done.
Qed.

Lemma to_from_slice n a b buf :
  n = b - a → a ≤ b → b ≤ length buf → to_be_bytes n (from_be_bytes (slice a b buf)) = slice a b buf.
Proof. intros -> ? ?. rewrite <-(length_slice a b buf) at 1 by done. apply to_from_be_bytes. Qed.

Lemma is_u_slice n a b buf :
  n = b - a → a ≤ b → b ≤ length buf →
  (0 ≤ from_be_bytes (slice a b buf) < 256 ^ Z.of_nat n)%Z.
Proof.
  intros -> ? ?. pose proof (from_be_bytes_range (slice a b buf)) as Hr.
  by rewrite length_slice in Hr.
Qed.

Lemma decode_signature_Ok buf n s :
  n < length buf → WriteFrame.decode_signature buf (Z.of_nat n) = Ok s →
  match s with
  | Some sig => length sig = SIGNATURE_LEN ∧ slice n (n + 1 + SIGNATURE_LEN) buf = [x01] ++ sig ∧
                n + 1 + SIGNATURE_LEN ≤ length buf
  | None => slice n (n + 1) buf = [x00]
  end.
Proof.
  intros Hn. unfold WriteFrame.decode_signature, SIGNATURE_LEN. rewrite Nat2Z.id.
  pose proof (slice_one buf n Hn) as H1.
  case_bool_decide as E0; [intros [= <-]; by rewrite Nat.add_1_r, <-H1, E0|].
  case_bool_decide as E1; [|done]. case_bool_decide; [done|]. intros [= <-].
  unfold WriteFrame.zslice. rewrite length_slice by lia. split; [lia|]. split; [|lia].
  rewrite <-E1, H1. replace (Z.to_nat (Z.of_nat n + 1)) with (S n) by lia.
  replace (Z.to_nat (Z.of_nat n + 1 + Z.of_nat 64)) with (n + 1 + 64) by lia. symmetry. apply slice_join; lia.
Qed.

(** A header whose fields were read from a buffer is the buffer's first 60 bytes. *)
Lemma header_of_slices buf f :
  HEADER_LEN ≤ length buf →
  at_byte buf 0 = WIRE_VERSION → at_byte buf 1 = op_to_u8 (f_op f) →
  f_stamp f = mkStamp (mkHlc (from_be_bytes (slice 2 10 buf)) (from_be_bytes (slice 10 14 buf)))
                      (slice 14 46 buf) →
  f_seq f = from_be_bytes (slice 46 54 buf) →
  Z.of_nat (str_len (f_entity f)) = byte_val (at_byte buf 54) →
  Z.of_nat (str_len (f_id f)) = byte_val (at_byte buf 55) →
  Z.of_nat (length (f_data f)) = from_be_bytes (slice 56 60 buf) →
  header f = slice 0 60 buf.
Proof.
  unfold HEADER_LEN. intros Hl H0 H1 Hst Hseq He Hi Hd. unfold header.
  rewrite Hst, Hseq, He, Hi, Hd, <-H0, <-H1, !byte_of_val; cbn [hlc physical logical peer].
  rewrite !to_from_slice, !slice_one by lia. by rewrite !slice_join by lia.
Qed.

Lemma u_slices_ok buf :
  HEADER_LEN ≤ length buf →
  hlc_ok (mkHlc (from_be_bytes (slice 2 10 buf)) (from_be_bytes (slice 10 14 buf))) ∧
  is_u64 (from_be_bytes (slice 46 54 buf)) ∧ is_u32 (from_be_bytes (slice 56 60 buf)).
Proof.
  unfold HEADER_LEN. intros Hl. unfold hlc_ok, is_u64, is_u32, u64_max, u32_max; simpl.
  pose proof (is_u_slice 8 2 10 buf). pose proof (is_u_slice 4 10 14 buf).
  pose proof (is_u_slice 8 46 54 buf). pose proof (is_u_slice 4 56 60 buf). lia.
Qed.

(** What an accepted buffer looks like, piece by piece. *)
Lemma decode_pieces buf f :
  WriteFrame.decode buf = Ok f →
  let n1 := 60 + str_len (f_entity f) in
  let n2 := n1 + str_len (f_id f) in
  let n3 := n2 + length (f_data f) in
  frame_ok f ∧ check_lengths (f_entity f) (f_id f) (f_data f) = Ok () ∧
  WriteFrame.encoded_len f ≤ length buf ∧
  header f = slice 0 60 buf ∧ as_bytes (f_entity f) = slice 60 n1 buf ∧
  as_bytes (f_id f) = slice n1 n2 buf ∧ f_data f = slice n2 n3 buf ∧
  trailer f = slice n3 (WriteFrame.encoded_len f) buf.
Proof.
  unfold WriteFrame.decode. case_bool_decide as Hlen; [done|].
  case_bool_decide as Hver; [|done]. cbn [negb]. intros H. apply rbind_Ok in H as (op & Hop & H).
  case_bool_decide as Hflag; [done|].
  apply rbind_Ok in H as (e & He & H). apply rbind_Ok in H as (i & Hi & H).
  apply rbind_Ok in H as (sg & Hsg & H). apply (inj Ok) in H.
  apply ok_or_Ok, from_utf8_Some in He as [He Hse]. apply ok_or_Ok, from_utf8_Some in Hi as [Hi Hsi].
  destruct (u_slices_ok buf) as (Hhlc & Hseq & Hdl); [lia|].
  change (Z.of_nat HEADER_LEN) with 60%Z in *.
  pose proof (byte_val_range (at_byte buf 54)) as Hel. pose proof (byte_val_range (at_byte buf 55)) as Hil.
  unfold WriteFrame.zslice, is_u32 in *.
  assert (Hle : Z.of_nat (str_len e) = byte_val (at_byte buf 54))
    by (unfold str_len; rewrite He, length_slice; lia).
  assert (Hli : Z.of_nat (str_len i) = byte_val (at_byte buf 55))
    by (unfold str_len; rewrite Hi, length_slice; lia).
  rewrite <-Hle, <-Hli in *.
  destruct (Z_of_nat_complete _ (proj1 Hdl)) as [dl Hdl']. rewrite Hdl' in *.
  replace (60 + Z.of_nat (str_len e) + Z.of_nat (str_len i) + Z.of_nat dl)%Z
    with (Z.of_nat (60 + str_len e + str_len i + dl)) in * by lia.
  apply decode_signature_Ok in Hsg; [|lia].
  rewrite Nat2Z.id in H.
  replace (Z.to_nat (60 + Z.of_nat (str_len e) + Z.of_nat (str_len i)))
    with (60 + str_len e + str_len i) in * by lia.
  replace (Z.to_nat (60 + Z.of_nat (str_len e))) with (60 + str_len e) in * by lia.
  set (d := slice (60 + str_len e + str_len i) _ _) in H.
  assert (Hd : length d = dl) by (unfold d; rewrite length_slice; lia).
  subst f. cbv zeta. cbn [f_entity f_id f_data]. rewrite Hd.
  unfold WriteFrame.encoded_len, trailer, HEADER_LEN. cbn [f_entity f_id f_data f_signature]. rewrite Hd.
  split_and!; try done.
  - split; simpl; try done; [apply length_slice; unfold PEER_ID_LEN; lia|].
    intros s ->. apply Hsg.
  - apply check_lengths_Ok. unfold u8_max, u32_max in *. lia.
  - destruct sg; lia.
  - apply header_of_slices; simpl; try done; [unfold HEADER_LEN; lia|by apply u8_to_op_Ok|lia].
  - destruct sg as [s|]; [destruct Hsg as (_ & <- & _)|rewrite <-Hsg]; f_equal; lia.
Qed.

(** The decoder accepts only what the encoder writes: a decoded frame is
    well-formed and its encoding is the prefix of the input it was read from. *)
Lemma decode_canonical buf f :
  WriteFrame.decode buf = Ok f →
  frame_ok f ∧ WriteFrame.encoded_len f ≤ length buf ∧
  WriteFrame.encode f = Ok (take (WriteFrame.encoded_len f) buf).
Proof.
  intros (Hok & Hc & Hl & Hh & He & Hi & Hd & Ht)%decode_pieces. split_and!; try done.
  apply encode_layout. split; [done|]. rewrite Hh, He, Hi, Hd, Ht.
  unfold WriteFrame.encoded_len, HEADER_LEN in *.
  rewrite !slice_join by lia. unfold slice. by rewrite Nat.sub_0_r.
Qed.

Lemma encode_length f bs :
  frame_ok f → WriteFrame.encode f = Ok bs → length bs = WriteFrame.encoded_len f.
Proof.
  intros Hok [_ ->]%encode_layout. rewrite !length_app, length_header by apply Hok.
  unfold WriteFrame.encoded_len, trailer, str_len.
  destruct (f_signature f) as [s|] eqn:Es; simpl; [rewrite (fok_sig f Hok s Es)|]; lia.
Qed.

Lemma encode_is_ok f :
  is_ok (WriteFrame.encode f) = true ↔ check_lengths (f_entity f) (f_id f) (f_data f) = Ok ().
Proof.
  rewrite <-signing_bytes_Ok. unfold WriteFrame.encode.
  destruct (WriteFrame.signing_bytes f); simpl; [|done]. by destruct (f_signature f).
Qed.

(** Two frames with the same encoded prefix are the same frame. *)
Lemma encode_prefix_inj f g bs cs r :
  frame_ok f → frame_ok g → WriteFrame.encode f = Ok bs → WriteFrame.encode g = Ok cs →
  bs = cs ++ r → f = g.
Proof.
  intros Hf Hg Ef Eg ->. apply (inj (@Ok _ WireError)).
  rewrite <-(decode_encode g cs r Hg Eg). symmetry.
  rewrite <-(app_nil_r (cs ++ r)). by apply decode_encode.
Qed.

(** C31: Wire round trip. A well-formed frame whose fields fit encodes to
    [encoded_len] bytes, decodes back to itself whatever follows it in the
    buffer, and no shorter prefix of its encoding is accepted. *)
Theorem wire_roundtrip f :
  frame_ok f → check_lengths (f_entity f) (f_id f) (f_data f) = Ok () →
  ∃ bs, WriteFrame.encode f = Ok bs ∧ length bs = WriteFrame.encoded_len f ∧
    (∀ rest, WriteFrame.decode (bs ++ rest) = Ok f) ∧
    (∀ n, n < length bs → is_ok (WriteFrame.decode (take n bs)) = false).
Proof.
  intros Hok Hc. apply encode_is_ok in Hc.
  destruct (WriteFrame.encode f) as [bs|] eqn:E; [|done]. exists bs.
  split_and!; [done|by apply encode_length|intros; by apply decode_encode|].
  intros n Hn. destruct (WriteFrame.decode (take n bs)) as [g|] eqn:Eg; [|done].
  apply decode_canonical in Eg as (Hg & Hlen & Eg). rewrite take_take in Eg.
  rewrite length_take in Hlen.
  assert (f = g) as ->.
  { eapply encode_prefix_inj; [done|done|done|exact Eg|]. symmetry. apply take_drop. }
  apply encode_length in E; [|done]. lia.
Qed.

(** The decoder is canonical. Whatever it accepts is a well-formed frame
    whose own encoding is exactly the prefix of the input that was read, so no
    two inputs of the same length encode one frame differently. *)
Theorem wire_canonical buf f :
  WriteFrame.decode buf = Ok f →
  frame_ok f ∧ WriteFrame.encoded_len f ≤ length buf ∧
  WriteFrame.encode f = Ok (take (WriteFrame.encoded_len f) buf).
Proof. apply decode_canonical. Qed.

Definition with_signature (f : WriteFrame) (s : option (list byte)) : WriteFrame :=
  mkFrame (f_stamp f) (f_seq f) (f_op f) (f_entity f) (f_id f) (f_data f) s.

Lemma signing_bytes_with_signature f s :
  WriteFrame.signing_bytes (with_signature f s) = WriteFrame.signing_bytes f.
Proof. done. Qed.

(** A signature binds the whole frame. The signed bytes do not depend on
    the signature, and two well-formed frames with the same signed bytes agree
    on every field but the signature. *)
Theorem signing_bytes_bind f g bs :
  frame_ok f → frame_ok g →
  WriteFrame.signing_bytes f = Ok bs → WriteFrame.signing_bytes g = Ok bs →
  g = with_signature f (f_signature g) ∧
  ∀ s, WriteFrame.signing_bytes (with_signature f s) = Ok bs.
Proof.
  intros Hf Hg Ef Eg. split; [|by intros; rewrite signing_bytes_with_signature].
  assert (Henc : ∀ h, frame_ok h → WriteFrame.signing_bytes h = Ok bs →
    WriteFrame.decode (bs ++ [x00]) = Ok (with_signature h None)).
  { intros h [] Eh. rewrite <-(app_nil_r (bs ++ [x00])). apply decode_encode; [by split|].
    unfold WriteFrame.encode. rewrite signing_bytes_with_signature, Eh. done. }
  pose proof (Henc f Hf Ef) as H1. rewrite (Henc g Hg Eg) in H1.
  apply (inj Ok) in H1. destruct f, g; unfold with_signature in *; simpl in *. congruence.
Qed.

(** ** Examples *)

Definition ex_frame : WriteFrame :=
  mkFrame (mkStamp (mkHlc 1700000000123 7) (ex_peer x2a)) 99 Update "task" "t-uuid-1"
    [x7b; x7d] (Some (replicate 64 x07)).

Lemma ex_frame_ok : frame_ok ex_frame.
Proof. split; try by (vm_compute; split_and?; congruence). by intros s [= <-]. Qed.

Lemma wire_roundtrip_witness :
  frame_ok ex_frame ∧
  ∃ bs, WriteFrame.encode ex_frame = Ok bs ∧ length bs = WriteFrame.encoded_len ex_frame ∧
    (∀ rest, WriteFrame.decode (bs ++ rest) = Ok ex_frame) ∧
    (∀ n, n < length bs → is_ok (WriteFrame.decode (take n bs)) = false).
Proof.
  split; [exact ex_frame_ok|]. apply (wire_roundtrip ex_frame); [exact ex_frame_ok|].
  vm_compute. reflexivity.
Defined.

Definition ex_bytes : list byte :=
  match WriteFrame.encode ex_frame with Ok bs => bs | Err _ => [] end.

Lemma wire_canonical_witness :
  WriteFrame.decode ex_bytes = Ok ex_frame ∧
  WriteFrame.encode ex_frame = Ok (take (WriteFrame.encoded_len ex_frame) ex_bytes).
Proof.
  assert (Hd : WriteFrame.decode ex_bytes = Ok ex_frame) by (vm_compute; reflexivity).
  exact (conj Hd (proj2 (proj2 (wire_canonical ex_bytes ex_frame Hd)))).
Defined.

Lemma signing_bytes_bind_witness :
  ∃ bs, WriteFrame.signing_bytes ex_frame = Ok bs ∧
    with_signature ex_frame None = with_signature ex_frame (f_signature (with_signature ex_frame None)).
Proof.
  destruct (WriteFrame.signing_bytes ex_frame) as [bs|] eqn:E; [|vm_compute in E; discriminate].
  exists bs. split; [reflexivity|].
  refine (proj1 (signing_bytes_bind ex_frame (with_signature ex_frame None) bs ex_frame_ok _ E E)).
  destruct ex_frame_ok. split; try assumption. discriminate.
Defined.
