(* ===== verification/Replog.v ===== *)
(** * The per-origin replication log

    [crates/stitch-p2p/src/replog.rs]: [ReplLog] keeps, for every origin, the
    frames received in sequence order behind a reclaimed prefix. The abstract
    specification is a history, the list of every frame ever accepted from each
    origin; [log_models] relates a log to its history. *)
From S2P Require Import Prelude Hlc Lww Wire.

Abbreviation Cursors := (gmap PeerId Z).

Inductive RecordOutcome :=
| Appended
| Duplicate
| Gap (expected got : Z)
| Rejected
| Unpersisted.

#[global] Instance RecordOutcome_eq_dec : EqDecision RecordOutcome.
Proof. solve_decision. Defined.

Record ReplLog := mkLog {
  log_self_id : PeerId;
  observed : gmap PeerId (list WriteFrame);
  base : gmap PeerId Z;
}.

Definition origin_of (f : WriteFrame) : PeerId := peer (f_stamp f).

Module ReplLog.
Definition new (self_id : PeerId) : ReplLog := mkLog self_id ∅ ∅.

Definition base_of (l : ReplLog) (origin : PeerId) : Z := default 0%Z (base l !! origin).

(** [observed.get(origin)], empty when the origin is unknown. *)
Definition frames_of (l : ReplLog) (origin : PeerId) : list WriteFrame :=
  default [] (observed l !! origin).

Definition cursor_for (l : ReplLog) (origin : PeerId) : Z :=
  (base_of l origin + Z.of_nat (length (frames_of l origin)))%Z.

Definition next_seq (l : ReplLog) (origin : PeerId) : Z := (cursor_for l origin + 1)%Z.

Definition classify (l : ReplLog) (frame : WriteFrame) : RecordOutcome :=
  let have := cursor_for l (origin_of frame) in
  if bool_decide (f_seq frame ≤ have)%Z then Duplicate
  else if bool_decide (f_seq frame = have + 1)%Z then Appended
  else Gap (have + 1) (f_seq frame).

Definition record (l : ReplLog) (frame : WriteFrame) : ReplLog * RecordOutcome :=
  let outcome := classify l frame in
  (if bool_decide (outcome = Appended)
   then mkLog (log_self_id l)
          (<[origin_of frame := frames_of l (origin_of frame) ++ [frame]]> (observed l)) (base l)
   else l, outcome).

Definition truncate (l : ReplLog) (origin : PeerId) (up_to : Z) : ReplLog * nat :=
  let b := base_of l origin in
  if bool_decide (up_to ≤ b)%Z then (l, 0) else
  match observed l !! origin with
  | None => (l, 0)
  | Some log =>
    let n := Z.to_nat (Z.min (up_to - b) (Z.of_nat (length log))) in
    (mkLog (log_self_id l) (<[origin := drop n log]> (observed l))
       (<[origin := (b + Z.of_nat n)%Z]> (base l)), n)
  end.

Section iter.
Context `{HashIter}.

Definition cursors (l : ReplLog) : Cursors :=
  list_to_map ((λ origin, (origin, cursor_for l origin)) <$>
    ((hiter (observed l)).*1 ++ (hiter (base l)).*1)).

Definition frames_for_entity (l : ReplLog) (entity : string) : list WriteFrame :=
  filter (λ f, f_entity f = entity) ((hiter (observed l)).*2 ≫= id).

(** The loop body of [delta_since]: the tail of one origin's log. *)
Definition unseen (l : ReplLog) (their : Cursors) (entry : PeerId * list WriteFrame)
    : list WriteFrame :=
  let '(origin, log) := entry in
  let from := default 0%Z (their !! origin) in
  let skip := Z.max 0 (from - base_of l origin) in
  drop (Z.to_nat (Z.min skip (Z.of_nat (length log)))) log.

Definition delta_since (l : ReplLog) (their : Cursors) : list WriteFrame :=
  hiter (observed l) ≫= unseen l their.
End iter.
End ReplLog.

Arguments ReplLog.record : simpl never.
Arguments ReplLog.truncate : simpl never.

(** ** Specification *)

Definition History := PeerId → list WriteFrame.

Definition empty_history : History := λ _, [].

(** A history numbers each origin's frames from one. *)
Definition history_ok (H : History) : Prop :=
  ∀ o i f, H o !! i = Some f → f_seq f = Z.of_nat (S i) ∧ origin_of f = o.

Definition history_push (H : History) (f : WriteFrame) : History :=
  λ o, if bool_decide (o = origin_of f) then H o ++ [f] else H o.

Record log_models (l : ReplLog) (H : History) : Prop := {
  lm_history : history_ok H;
  lm_base : ∀ o, (0 ≤ ReplLog.base_of l o ≤ Z.of_nat (length (H o)))%Z;
  lm_frames : ∀ o, ReplLog.frames_of l o = drop (Z.to_nat (ReplLog.base_of l o)) (H o);
}.

Lemma log_models_new p : log_models (ReplLog.new p) empty_history.
Proof.
  split; unfold history_ok, ReplLog.base_of, ReplLog.frames_of, empty_history; simpl.
  - intros o i f. by rewrite lookup_nil.
  - intros o. rewrite lookup_empty. simpl. lia.
  - intros o. by rewrite !lookup_empty.
Qed.

Lemma log_models_ext l H H' : (∀ o, H o = H' o) → log_models l H → log_models l H'.
Proof.
  intros He [Hh Hb Hf]. split; unfold history_ok in *; intros *; rewrite <-?He; eauto.
Qed.

(** The cursor counts every frame ever accepted, reclaimed or not. *)
Lemma cursor_for_models l H o :
  log_models l H → ReplLog.cursor_for l o = Z.of_nat (length (H o)).
Proof.
  intros [_ Hb Hf]. unfold ReplLog.cursor_for. rewrite Hf, length_drop. specialize (Hb o). lia.
Qed.

Lemma frames_of_insert l o fs o' b :
  ReplLog.frames_of (mkLog (log_self_id l) (<[o := fs]> (observed l)) b) o' =
  if decide (o = o') then fs else ReplLog.frames_of l o'.
Proof. unfold ReplLog.frames_of; simpl. rewrite lookup_insert. by case_decide. Qed.

Lemma history_push_ok H f :
  history_ok H → f_seq f = Z.of_nat (S (length (H (origin_of f)))) → history_ok (history_push H f).
Proof.
  intros Hok Hs o i g. unfold history_push. case_bool_decide as Ho; [|by apply Hok].
  rewrite lookup_app_Some, list_lookup_singleton_Some. subst o.
  intros [?|(Hi & Hz & <-)]; [by apply Hok|]. split; [|done].
  rewrite Hs. do 2 f_equal. lia.
Qed.

(** Recording a frame either extends the history by that frame, the next of
    its origin, or leaves the log as it was. *)
Lemma record_models l H f :
  log_models l H →
  let n := length (H (origin_of f)) in
  if bool_decide (f_seq f = Z.of_nat (S n))
  then (ReplLog.record l f).2 = Appended ∧ log_models (ReplLog.record l f).1 (history_push H f)
  else (ReplLog.record l f).1 = l ∧
       (ReplLog.record l f).2 =
         (if bool_decide (f_seq f ≤ Z.of_nat n)%Z then Duplicate
          else Gap (Z.of_nat (S n)) (f_seq f)).
Proof.
  intros Hm n. unfold ReplLog.record, ReplLog.classify.
  rewrite (cursor_for_models l H) by done. fold n.
  replace (Z.of_nat n + 1)%Z with (Z.of_nat (S n)) by lia.
  destruct (bool_decide_reflect (f_seq f = Z.of_nat (S n))) as [Hs|Hs].
  - rewrite (bool_decide_eq_false_2 (f_seq f ≤ _)%Z) by lia. simpl. split; [done|].
    destruct Hm as [Hh Hb Hf]. split.
    + by apply history_push_ok.
    + intros o. unfold history_push, ReplLog.base_of in *; simpl. specialize (Hb o).
      case_bool_decide; rewrite ?length_app; simpl; lia.
    + intros o. rewrite frames_of_insert. unfold ReplLog.base_of, history_push; simpl.
      specialize (Hf o) as Hfo. specialize (Hb o) as Hbo. unfold ReplLog.base_of in *.
      repeat (case_decide || case_bool_decide); subst; try done.
      rewrite Hfo, drop_app_le by lia. done.
  - by destruct (bool_decide (f_seq f ≤ Z.of_nat n)%Z).
Qed.

Lemma record_next l H f :
  log_models l H → f_seq f = Z.of_nat (S (length (H (origin_of f)))) →
  (ReplLog.record l f).2 = Appended ∧ log_models (ReplLog.record l f).1 (history_push H f).
Proof.
  intros Hm Hs. pose proof (record_models l H f Hm) as Hr. cbv zeta in Hr.
  by rewrite bool_decide_eq_true_2 in Hr by done.
Qed.

(** Truncation forgets frames, never history. *)
Lemma truncate_models l H o up_to :
  log_models l H → log_models (ReplLog.truncate l o up_to).1 H.
Proof.
  intros Hm. unfold ReplLog.truncate. case_bool_decide; [done|].
  destruct (observed l !! o) as [log|] eqn:Eo; [|done]. simpl.
  pose proof Hm as [Hh Hb Hf]. specialize (Hb o) as Hbo. specialize (Hf o) as Hfo.
  unfold ReplLog.frames_of in Hfo. rewrite Eo in Hfo. simpl in Hfo.
  set (n := Z.to_nat _).
  assert (Hn : n ≤ length log) by lia.
  assert (Hlen : length log = length (H o) - Z.to_nat (ReplLog.base_of l o))
    by (rewrite Hfo, length_drop; done).
  assert (Hbase : ∀ o', ReplLog.base_of (mkLog (log_self_id l) (<[o:=drop n log]> (observed l))
      (<[o:=(ReplLog.base_of l o + Z.of_nat n)%Z]> (base l))) o' =
    if decide (o = o') then (ReplLog.base_of l o + Z.of_nat n)%Z else ReplLog.base_of l o').
  { intros o'. unfold ReplLog.base_of at 1. simpl. rewrite lookup_insert. by case_decide. }
  split; [done|intros o'; rewrite Hbase..]; (case_decide; [subst o'|]; auto).
  - lia.
  - rewrite frames_of_insert, decide_True by done. rewrite Hfo, drop_drop. f_equal. lia.
  - rewrite frames_of_insert, decide_False by done. auto.
Qed.

Lemma truncate_cursor l H o up_to o' :
  log_models l H →
  ReplLog.cursor_for (ReplLog.truncate l o up_to).1 o' = ReplLog.cursor_for l o'.
Proof. intros Hm. rewrite !(cursor_for_models _ H); auto using truncate_models. Qed.

Lemma truncate_count l H o up_to :
  log_models l H →
  Z.of_nat (ReplLog.truncate l o up_to).2 =
    (ReplLog.base_of (ReplLog.truncate l o up_to).1 o - ReplLog.base_of l o)%Z.
Proof.
  intros Hm. unfold ReplLog.truncate. case_bool_decide; simpl; [lia|].
  destruct (observed l !! o) as [log|] eqn:Eo; simpl; [|lia].
  unfold ReplLog.base_of at 2; simpl. rewrite lookup_insert_eq; simpl. lia.
Qed.

Section cursors.
Context `{HashIter}.

Lemma lookup_cursors l o :
  ReplLog.cursors l !! o =
    if decide (o ∈ dom (observed l) ∨ o ∈ dom (base l)) then Some (ReplLog.cursor_for l o) else None.
Proof.
  unfold ReplLog.cursors. rewrite lookup_keyed. apply decide_ext.
  rewrite elem_of_app, !list_elem_of_fmap, !elem_of_dom. unfold is_Some.
  setoid_rewrite <-(elem_of_hiter (observed l)). setoid_rewrite <-(elem_of_hiter (base l)).
  split.
  - intros [([? ?] & -> & ?)|([? ?] & -> & ?)]; eauto.
  - intros [[x ?]|[x ?]]; [left; exists (o, x)|right; exists (o, x)]; done.
Qed.

(** Reading a reported cursor map gives the cursor of every origin. *)
Lemma cursors_get l o : default 0%Z (ReplLog.cursors l !! o) = ReplLog.cursor_for l o.
Proof.
  rewrite lookup_cursors. case_decide as Ho; [done|].
  unfold ReplLog.cursor_for, ReplLog.base_of, ReplLog.frames_of.
  rewrite (proj1 (not_elem_of_dom (base l) o)) by tauto.
  by rewrite (proj1 (not_elem_of_dom (observed l) o)) by tauto.
Qed.
End cursors.

(** ** Anti-entropy: a pull catches the receiver up *)

(** [record] over a batch, as the receiver of a [Delta] runs it. *)
Fixpoint record_all (l : ReplLog) (fs : list WriteFrame) : ReplLog * list RecordOutcome :=
  match fs with
  | [] => (l, [])
  | f :: fs =>
    let r := ReplLog.record l f in
    let rs := record_all r.1 fs in
    (rs.1, r.2 :: rs.2)
  end.

Definition from_origin (o : PeerId) (fs : list WriteFrame) : list WriteFrame :=
  filter (λ f, origin_of f = o) fs.

(** A batch continues a history: each origin's frames in it carry the next
    sequence numbers, in order. Frames of different origins may interleave. *)
Definition continues (H : History) (fs : list WriteFrame) : Prop :=
  ∀ o i f, from_origin o fs !! i = Some f → f_seq f = Z.of_nat (length (H o) + S i).

Lemma continues_cons H f fs :
  continues H (f :: fs) →
  f_seq f = Z.of_nat (S (length (H (origin_of f)))) ∧ continues (history_push H f) fs.
Proof.
  intros Hc. unfold continues, from_origin in *. split.
  - rewrite (Hc (origin_of f) 0 f); [lia|]. by rewrite filter_cons, decide_True.
  - intros o i g Hg. specialize (Hc o). rewrite filter_cons in Hc. unfold history_push.
    case_bool_decide as E; [subst o|].
    + rewrite decide_True in Hc by done. rewrite (Hc (S i) g Hg), length_app. simpl. lia.
    + rewrite decide_False in Hc by done. by apply Hc.
Qed.

Lemma history_push_from H f fs o :
  history_push H f o ++ from_origin o fs = H o ++ from_origin o (f :: fs).
Proof.
  unfold history_push, from_origin. rewrite filter_cons.
  case_bool_decide as E; [subst o; rewrite decide_True by done|by rewrite decide_False].
  by rewrite <-app_assoc.
Qed.

Lemma record_all_continues fs : ∀ l H,
  log_models l H → continues H fs →
  Forall (λ r, r = Appended) (record_all l fs).2 ∧
  log_models (record_all l fs).1 (λ o, H o ++ from_origin o fs).
Proof.
  induction fs as [|f fs IH]; intros l H Hm Hc.
  - split; [constructor|]. eapply log_models_ext; [|done]. intros o. by rewrite app_nil_r.
  - apply continues_cons in Hc as [Hs Hc]. destruct (record_next l H f Hm Hs) as [Ho Hm'].
    destruct (IH _ _ Hm' Hc) as [Hall Hlog].
    split; [by constructor|]. eapply log_models_ext; [|exact Hlog]. apply history_push_from.
Qed.

(** One group of a concatenation keyed by distinct origins. *)
Lemma from_origin_groups (g : PeerId * list WriteFrame → list WriteFrame) l o :
  NoDup l.*1 → (∀ kl f, kl ∈ l → f ∈ g kl → origin_of f = kl.1) →
  (∀ fs, (o, fs) ∈ l → from_origin o (l ≫= g) = g (o, fs)) ∧
  (o ∉ l.*1 → from_origin o (l ≫= g) = []).
Proof.
  unfold from_origin. induction l as [|[k fs] l IH]; intros Hnd Hg.
  - split; [|done]. intros fs Hin. by apply elem_of_nil in Hin.
  - rewrite fmap_cons, NoDup_cons in Hnd. destruct Hnd as [Hk Hnd]. cbn [mbind list_bind].
    destruct IH as [IHin IHout]; [done|intros kl f Hin; apply Hg; by right|].
    assert (Hhd : filter (λ f, origin_of f = o) (g (k, fs)) = if decide (k = o) then g (k, fs) else []).
    { case_decide as E.
      - apply list_filter_all. intros f Hf. rewrite (Hg (k, fs) f); [done|left|done].
      - apply list_filter_none. intros f Hf. rewrite (Hg (k, fs) f); [done|left|done]. }
    simpl in Hk. rewrite filter_app, Hhd. split.
    + intros fs' [[= -> ->]|Hin]%elem_of_cons.
      * rewrite decide_True by done. by rewrite IHout, app_nil_r.
      * assert (k ≠ o). { intros ->. apply Hk, list_elem_of_fmap. by exists (o, fs'). }
        rewrite decide_False by done. by apply IHin.
    + simpl. rewrite not_elem_of_cons. intros [? ?]. rewrite decide_False by done. by apply IHout.
Qed.

Section delta.
Context {HI : HashIter}.

Lemma frames_of_origin l H o f :
  log_models l H → f ∈ ReplLog.frames_of l o → origin_of f = o.
Proof.
  intros [Hh _ Hf] Hin. rewrite Hf in Hin. apply list_elem_of_lookup in Hin as [i Hi].
  rewrite lookup_drop in Hi. by apply Hh in Hi as [_ ?].
Qed.

(** What a delta holds for an origin: the history from the cursor on, or
    from the reclaimed base when the cursor is behind it. *)
Lemma delta_since_models l H their o :
  log_models l H →
  from_origin o (ReplLog.delta_since l their) =
    drop (Z.to_nat (Z.max (default 0%Z (their !! o)) (ReplLog.base_of l o))) (H o).
Proof.
  intros Hm. unfold ReplLog.delta_since.
  destruct (from_origin_groups (ReplLog.unseen l their) (hiter (observed l)) o)
    as [Hin Hout]; [apply NoDup_hiter_fst| |].
  { intros [k fs] f Hkl%elem_of_hiter Hf. simpl. apply (frames_of_origin l H k f Hm).
    unfold ReplLog.frames_of. rewrite Hkl. simpl.
    unfold ReplLog.unseen in Hf. apply list_elem_of_lookup in Hf as [i Hi].
    rewrite lookup_drop in Hi. apply list_elem_of_lookup. eauto. }
  pose proof (lm_frames _ _ Hm o) as Hf. pose proof (lm_base _ _ Hm o) as Hb.
  unfold ReplLog.frames_of in Hf. destruct (observed l !! o) as [fs|] eqn:Eo; simpl in Hf.
  - rewrite (Hin fs) by (by apply elem_of_hiter). subst fs. simpl.
    rewrite drop_drop, length_drop.
    set (from := default 0%Z (their !! o)). set (b := ReplLog.base_of l o) in *.
    destruct (Z.le_gt_cases from (Z.of_nat (length (H o)))).
    + f_equal. lia.
    + rewrite !drop_ge by lia. done.
  - rewrite Hout.
    + symmetry. apply drop_ge. apply (f_equal length) in Hf. rewrite length_drop in Hf. simpl in Hf. lia.
    + intros ([k fs] & -> & Hk%elem_of_hiter)%list_elem_of_fmap. simpl in Eo. congruence.
Qed.

(** Two histories agree: for each origin one is a prefix of the other. *)
Definition compatible (H1 H2 : History) : Prop :=
  ∀ o, H1 o `prefix_of` H2 o ∨ H2 o `prefix_of` H1 o.

Definition history_join (H1 H2 : History) : History :=
  λ o, if decide (length (H1 o) ≤ length (H2 o)) then H2 o else H1 o.

Lemma delta_continues s r Hs Hr their :
  log_models s Hs → log_models r Hr → compatible Hr Hs →
  (∀ o, default 0%Z (their !! o) = ReplLog.cursor_for r o) →
  (∀ o, ReplLog.base_of s o ≤ ReplLog.cursor_for r o)%Z →
  continues Hr (ReplLog.delta_since s their) ∧
  ∀ o, Hr o ++ from_origin o (ReplLog.delta_since s their) = history_join Hr Hs o.
Proof.
  intros Hms Hmr Hc Ht Hb.
  assert (Hd : ∀ o, from_origin o (ReplLog.delta_since s their) = drop (length (Hr o)) (Hs o)).
  { intros o. rewrite (delta_since_models s Hs), Ht by done.
    specialize (Hb o). rewrite (cursor_for_models r Hr) in * by done. f_equal. lia. }
  split.
  - intros o i f. rewrite Hd, lookup_drop. intros Hf.
    apply (lm_history _ _ Hms) in Hf as [-> _]. lia.
  - intros o. rewrite Hd. unfold history_join. destruct (Hc o) as [[k Hk]|[k Hk]]; rewrite Hk.
    + rewrite drop_app_length, length_app. rewrite decide_True by lia. done.
    + rewrite drop_ge by (rewrite length_app; lia). rewrite app_nil_r, length_app.
      case_decide; [|done]. destruct k; [by rewrite app_nil_r|simpl in *; lia].
Qed.
End delta.

(** ** Reachable logs *)

Inductive LogOp :=
| DoRecord (f : WriteFrame)
| DoTruncate (origin : PeerId) (up_to : Z).

Definition apply_log_op (l : ReplLog) (o : LogOp) : ReplLog :=
  match o with
  | DoRecord f => (ReplLog.record l f).1
  | DoTruncate origin up_to => (ReplLog.truncate l origin up_to).1
  end.

Definition run_log (l : ReplLog) (ops : list LogOp) : ReplLog := foldl apply_log_op l ops.

Lemma run_log_snoc l ops x : run_log l (ops ++ [x]) = apply_log_op (run_log l ops) x.
Proof. unfold run_log. by rewrite foldl_app. Qed.

Lemma run_log_models p ops :
  ∃ H, log_models (run_log (ReplLog.new p) ops) H ∧ ∀ o, length (H o) ≤ length ops.
Proof.
  induction ops as [|x ops (H & Hm & Hlen)] using rev_ind.
  - exists empty_history. split; [apply log_models_new|]. done.
  - rewrite run_log_snoc. destruct x as [f|o u]; cbn [apply_log_op].
    + pose proof (record_models _ _ f Hm) as Hr. cbv zeta in Hr. case_bool_decide.
      * exists (history_push H f). split; [apply Hr|]. intros o. specialize (Hlen o).
        unfold history_push. case_bool_decide; rewrite !length_app; simpl; lia.
      * exists H. destruct Hr as [-> _]. split; [done|]. intros o. specialize (Hlen o).
        rewrite length_app. simpl. lia.
    + exists H. split; [by apply truncate_models|]. intros o'. specialize (Hlen o').
      rewrite length_app. simpl. lia.
Qed.

(** The log invariant. Whatever is recorded and truncated, in any order,
    the frames kept for an origin are its own, numbered [base + 1] to
    [base + len] without a gap, and a cursor never exceeds the number of
    operations, so the [u64] counters cannot overflow before that many. *)
Theorem replog_invariant p ops o :
  let l := run_log (ReplLog.new p) ops in
  (0 ≤ ReplLog.base_of l o ≤ ReplLog.cursor_for l o)%Z ∧
  (ReplLog.cursor_for l o ≤ Z.of_nat (length ops))%Z ∧
  ∀ i f, ReplLog.frames_of l o !! i = Some f →
    f_seq f = (ReplLog.base_of l o + Z.of_nat (S i))%Z ∧ origin_of f = o.
Proof.
  intros l. destruct (run_log_models p ops) as (H & Hm & Hlen). fold l in Hm.
  specialize (Hlen o). pose proof (lm_base _ _ Hm o).
  rewrite (cursor_for_models l H) by done. split_and!; [lia..|].
  intros i f. rewrite (lm_frames _ _ Hm), lookup_drop.
  intros [Hf ?]%(lm_history _ _ Hm). split; [lia|done].
Qed.

(** A pull catches the receiver up. If the two peers' histories agree and
    the server has reclaimed nothing the receiver lacks, then recording the
    server's delta for the receiver's cursors accepts every frame (no gap, no
    duplicate, whatever order the hash maps are walked in) and leaves the
    receiver with the longer history of every origin. *)
Theorem replog_pull (H1 H2 : HashIter) s r Hs Hr :
  log_models s Hs → log_models r Hr → compatible Hr Hs →
  (∀ o, ReplLog.base_of s o ≤ ReplLog.cursor_for r o)%Z →
  let delta := @ReplLog.delta_since H1 s (@ReplLog.cursors H2 r) in
  Forall (λ out, out = Appended) (record_all r delta).2 ∧
  log_models (record_all r delta).1 (history_join Hr Hs) ∧
  ∀ o, ReplLog.cursor_for (record_all r delta).1 o =
       Z.max (ReplLog.cursor_for r o) (ReplLog.cursor_for s o).
Proof.
  intros Hms Hmr Hc Hb delta.
  destruct (@delta_continues H1 s r Hs Hr (@ReplLog.cursors H2 r)) as [Hcont Hj];
    try done; [intros o; apply cursors_get|]. fold delta in Hcont, Hj.
  destruct (record_all_continues delta r Hr Hmr Hcont) as [Hall Hm].
  apply (log_models_ext _ _ _ Hj) in Hm. split_and!; [done|done|]. intros o.
  rewrite (cursor_for_models _ _ o Hm), (cursor_for_models r Hr), (cursor_for_models s Hs) by done.
  unfold history_join. case_decide; lia.
Qed.

(** Truncation serves everyone it may. Dropping a prefix changes no cursor,
    reports exactly the frames dropped, and leaves the delta of every peer that
    already delivered through the mark as it was. *)
Theorem truncate_safe (HI : HashIter) l H o up_to their o' :
  log_models l H →
  (up_to ≤ default 0%Z (their !! o))%Z →
  let l' := (ReplLog.truncate l o up_to).1 in
  ReplLog.cursor_for l' o' = ReplLog.cursor_for l o' ∧
  Z.of_nat (ReplLog.truncate l o up_to).2 = (ReplLog.base_of l' o - ReplLog.base_of l o)%Z ∧
  from_origin o' (ReplLog.delta_since l' their) = from_origin o' (ReplLog.delta_since l their).
Proof.
  intros Hm Hu l'. pose proof (truncate_models l H o up_to Hm) as Hm'.
  split_and!; [by eapply truncate_cursor|by eapply truncate_count|].
  rewrite !(delta_since_models _ H) by done. f_equal.
  unfold l', ReplLog.truncate. case_bool_decide; [done|].
  destruct (observed l !! o) as [log|] eqn:Eo; [|done]. simpl.
  unfold ReplLog.base_of at 1; simpl. rewrite lookup_insert.
  case_decide; [subst o'; simpl; lia|done].
Qed.

(** ** Examples *)

Definition ex_write (origin : byte) (seq : Z) : WriteFrame :=
  mkFrame (mkStamp (mkHlc seq 0) (ex_peer origin)) seq Insert "task" "t" [origin] None.

(** A server holding frames 1 and 2 of origin 2, the receiver's new log. *)
Definition ex_server : ReplLog :=
  run_log (ReplLog.new (ex_peer x02)) [DoRecord (ex_write x02 1); DoRecord (ex_write x02 2)].

Definition ex_history : History :=
  history_push (history_push empty_history (ex_write x02 1)) (ex_write x02 2).

Lemma ex_server_models : log_models ex_server ex_history.
Proof.
  apply (record_next (run_log (ReplLog.new (ex_peer x02)) [DoRecord (ex_write x02 1)])); [|done].
  apply (record_next (ReplLog.new (ex_peer x02))); [apply log_models_new|done].
Qed.

Lemma replog_pull_witness :
  let delta := ReplLog.delta_since ex_server (ReplLog.cursors (ReplLog.new (ex_peer x01))) in
  length delta = 2 ∧
  Forall (λ out, out = Appended) (record_all (ReplLog.new (ex_peer x01)) delta).2.
Proof.
  split; [vm_compute; reflexivity|].
  refine (proj1 (replog_pull map_to_list_iter map_to_list_iter ex_server (ReplLog.new (ex_peer x01))
    ex_history empty_history ex_server_models (log_models_new _) _ _)).
  - intros o. left. exists (ex_history o). reflexivity.
  - intros o. change (ReplLog.base_of ex_server o) with 0%Z. vm_compute. discriminate.
Defined.

Lemma truncate_safe_witness :
  let l' := (ReplLog.truncate ex_server (ex_peer x02) 1).1 in
  ReplLog.base_of l' (ex_peer x02) = 1%Z ∧
  ReplLog.cursor_for l' (ex_peer x02) = ReplLog.cursor_for ex_server (ex_peer x02).
Proof.
  split; [vm_compute; reflexivity|].
  refine (proj1 (truncate_safe map_to_list_iter ex_server ex_history (ex_peer x02) 1
    {[ex_peer x02 := 1%Z]} (ex_peer x02) ex_server_models _)).
  vm_compute. discriminate.
Defined.
