(* ===== verification/SyncState.v ===== *)
(** * One peer's sync state

    [crates/stitch-p2p/src/sync_state.rs]: [SyncState] joins the clock, the
    replication log and the applier. The traits [FramePersister] and
    [FrameAuth] are type classes: a persister's [append] returns the sink's
    next state with its outcome, so a sink may fail at any call. The broadcast
    channel is the list of events sent on it. *)
From S2P Require Import Prelude Hlc Lww Wire Replog.

Inductive IoError := UnexpectedEof | InvalidData | InvalidInput | IoOther.

#[global] Instance IoError_eq_dec : EqDecision IoError.
Proof. solve_decision. Defined.

Class FramePersister (P : Type) := {
  append : P → WriteFrame → P * result () IoError;
  load : P → result (list WriteFrame) IoError;
}.

Class FrameAuth (A : Type) := {
  sign : A → list byte → list byte;
  verify : A → WriteFrame → bool;
}.

Inductive WriteError :=
| WireErr (e : WireError)
| PersistErr (e : IoError).

#[global] Instance WriteError_eq_dec : EqDecision WriteError.
Proof. solve_decision. Defined.

Inductive WriteOrigin := Local | Remote.

Record MutationEvent := mkEvent {
  ev_op : Op;
  ev_entity : string;
  ev_id : string;
  ev_data : option (list byte);
  ev_origin : WriteOrigin;
}.

Record SyncState (P A : Type) := mkState {
  self_id : PeerId;
  clock : Hlc;
  log : ReplLog;
  applier : Applier;
  events : list MutationEvent;
  persister : option P;
  auth : option A;
  peer_cursors : gmap PeerId Cursors;
}.
Arguments mkState {P A}.
Arguments self_id {P A}.
Arguments clock {P A}.
Arguments log {P A}.
Arguments applier {P A}.
Arguments events {P A}.
Arguments persister {P A}.
Arguments auth {P A}.
Arguments peer_cursors {P A}.

Module SyncState.
Section ops.
Context {P A : Type} {FP : FramePersister P} {FA : FrameAuth A}.
Implicit Types s : SyncState P A.

Definition new (id : PeerId) : SyncState P A :=
  mkState id Hlc.default (ReplLog.new id) Applier.new [] None None ∅.

Definition set_clock s c :=
  mkState (self_id s) c (log s) (applier s) (events s) (persister s) (auth s) (peer_cursors s).
Definition set_log s l :=
  mkState (self_id s) (clock s) l (applier s) (events s) (persister s) (auth s) (peer_cursors s).
Definition set_applier s a :=
  mkState (self_id s) (clock s) (log s) a (events s) (persister s) (auth s) (peer_cursors s).
Definition set_events s e :=
  mkState (self_id s) (clock s) (log s) (applier s) e (persister s) (auth s) (peer_cursors s).
Definition put_persister s (p : option P) : SyncState P A :=
  mkState (self_id s) (clock s) (log s) (applier s) (events s) p (auth s) (peer_cursors s).

Definition note_peer_cursors s (peer : PeerId) (cursors : Cursors) : SyncState P A :=
  mkState (self_id s) (clock s) (log s) (applier s) (events s) (persister s) (auth s)
    (<[peer := cursors]> (peer_cursors s)).

Definition set_auth s (a : A) : SyncState P A :=
  mkState (self_id s) (clock s) (log s) (applier s) (events s) (persister s) (Some a)
    (peer_cursors s).

Definition set_persister s (p : P) : SyncState P A := put_persister s (Some p).

Definition replay s (frame : WriteFrame) : SyncState P A :=
  let s := set_clock s (Hlc.observe (clock s) (hlc (f_stamp frame)) (physical (hlc (f_stamp frame)))) in
  let r := ReplLog.record (log s) frame in
  let s := set_log s r.1 in
  if bool_decide (r.2 = Appended)
  then set_applier s (Applier.merge (applier s) (WriteFrame.into_stamped frame)).1
  else s.

(** [persist]: the sink may advance whether or not it succeeds. *)
Definition persist s (frame : WriteFrame) : SyncState P A * result () IoError :=
  match persister s with
  | Some p => let r := append p frame in (put_persister s (Some r.1), r.2)
  | None => (s, Ok ())
  end.

Definition emit s (frame : WriteFrame) (origin : WriteOrigin) : SyncState P A :=
  let data := if bool_decide (f_op frame = Delete) then None else Some (f_data frame) in
  set_events s (events s ++ [mkEvent (f_op frame) (f_entity frame) (f_id frame) data origin]).

Definition local_write s (wall_ms : Z) (op : Op) (entity id : string) (data : list byte)
    : SyncState P A * result WriteFrame WriteError :=
  match check_lengths entity id data with
  | Err e => (s, Err (WireErr e))
  | Ok _ =>
    let h := Hlc.tick (clock s) wall_ms in
    let s := set_clock s h in
    let stamp := mkStamp h (self_id s) in
    let seq := ReplLog.next_seq (log s) (self_id s) in
    let frame := mkFrame stamp seq op entity id data None in
    match match auth s with
          | Some a => let? bs := WriteFrame.signing_bytes frame in
                      Ok (with_signature frame (Some (sign a bs)))
          | None => Ok frame
          end with
    | Err e => (s, Err (WireErr e))
    | Ok frame =>
      match persist s frame with
      | (s, Err e) => (s, Err (PersistErr e))
      | (s, Ok _) =>
        let s := set_log s (ReplLog.record (log s) frame).1 in
        let s := set_applier s (Applier.merge (applier s) (WriteFrame.into_stamped frame)).1 in
        (emit s frame Local, Ok frame)
      end
    end
  end.

Definition receive s (frame : WriteFrame) (wall_ms : Z) : SyncState P A * RecordOutcome :=
  if match auth s with Some a => negb (verify a frame) | None => false end
  then (s, Rejected) else
  let s := set_clock s (Hlc.observe (clock s) (hlc (f_stamp frame)) wall_ms) in
  let outcome := ReplLog.classify (log s) frame in
  if negb (bool_decide (outcome = Appended)) then (s, outcome) else
  match persist s frame with
  | (s, Err _) => (s, Unpersisted)
  | (s, Ok _) =>
    let s := set_log s (ReplLog.record (log s) frame).1 in
    let m := Applier.merge (applier s) (WriteFrame.into_stamped frame) in
    let s := set_applier s m.1 in
    (if bool_decide (m.2 = Applied) then emit s frame Remote else s, outcome)
  end.

Definition collect_tombstone s (entity id : string) : SyncState P A * bool :=
  let r := Applier.collect_tombstone (applier s) entity id in (set_applier s r.1, r.2).

Definition visible s (entity id : string) := Applier.visible (applier s) entity id.
Definition visible_with_author s (entity id : string) :=
  Applier.visible_with_author (applier s) entity id.

Section iter.
Context {HI : HashIter}.

Definition cursors s : Cursors := ReplLog.cursors (log s).
Definition delta_since s (their : Cursors) := ReplLog.delta_since (log s) their.
Definition frames_for_entity s (entity : string) := ReplLog.frames_for_entity (log s) entity.
Definition visible_entity s (entity : string) := Applier.visible_entity (applier s) entity.
Definition entries_with_authors s (entity : string) :=
  Applier.entries_with_authors (applier s) entity.

(** The inner loop of [reclaim]: the low-water-mark of an origin. *)
Definition low_water_mark s (members : list PeerId) (origin : PeerId) : Z :=
  foldl (λ lwm member,
    if bool_decide (member = self_id s) then lwm
    else Z.min lwm (default 0%Z (peer_cursors s !! member ≫= λ c, c !! origin)))
    (ReplLog.cursor_for (log s) origin) members.

Definition reclaim s (members : list PeerId) : SyncState P A * nat :=
  foldl (λ acc origin,
    let '(s, dropped) := acc in
    let lwm := low_water_mark s members origin in
    if bool_decide (0 < lwm)%Z
    then let r := ReplLog.truncate (log s) origin lwm in (set_log s r.1, dropped + r.2)
    else (s, dropped)) (s, 0) (hiter (cursors s)).*1.

Definition entries_with_authors_including s (entity : string) (extra : list WriteFrame) :=
  match extra with
  | [] => Applier.entries_with_authors (applier s) entity
  | _ =>
    let scratch := foldl (λ a f, (Applier.merge a (WriteFrame.into_stamped f)).1)
                     (applier s) extra in
    Applier.entries_with_authors scratch entity
  end.
End iter.
End ops.
End SyncState.

(** ** Specification: a state is determined by the history it delivered *)

Definition delivered (H : History) (w : StampedWrite) : Prop :=
  ∃ o f, f ∈ H o ∧ WriteFrame.into_stamped f = w.

Section models.
Context {P A : Type} {FP : FramePersister P} {FA : FrameAuth A}.
Implicit Types s : SyncState P A.

Record state_models s (H : History) : Prop := {
  sm_log : log_models (log s) H;
  sm_applier : ∃ D, models (applier s) D ∧ ∀ w, w ∈ D ↔ delivered H w;
  sm_clock : hlc_ok (clock s);
  sm_above : ∀ o f, f ∈ H o → hlc (f_stamp f) ≤ₒ clock s;
}.

Lemma elem_of_history_push H f o g :
  g ∈ history_push H f o ↔ g ∈ H o ∨ (g = f ∧ o = origin_of f).
Proof.
  unfold history_push. case_bool_decide.
  - rewrite elem_of_app, list_elem_of_singleton. naive_solver.
  - naive_solver.
Qed.

Lemma delivered_push H f w :
  delivered (history_push H f) w ↔ delivered H w ∨ w = WriteFrame.into_stamped f.
Proof.
  unfold delivered. setoid_rewrite elem_of_history_push. split.
  - intros (o & g & [?|[-> ->]] & <-); eauto.
  - intros [(o & g & ? & <-)| ->]; [eauto|]. exists (origin_of f), f. eauto.
Qed.

Lemma state_models_new p : state_models (SyncState.new p) empty_history.
Proof.
  split; simpl.
  - apply log_models_new.
  - exists []. split; [apply models_new|]. intros w. unfold delivered, empty_history.
    setoid_rewrite elem_of_nil. naive_solver.
  - unfold hlc_ok, is_u64, is_u32, u64_max, u32_max; simpl; lia.
  - intros o f Hf. by apply elem_of_nil in Hf.
Qed.

(** Recording and merging the next frame of its origin, by local write,
    receipt or replay, extends the delivered history by it. *)
Lemma deliver_models s H f c ev p :
  state_models s H →
  f_seq f = Z.of_nat (S (length (H (origin_of f)))) →
  hlc_ok c → clock s ≤ₒ c → hlc (f_stamp f) ≤ₒ c →
  state_models
    (mkState (self_id s) c (ReplLog.record (log s) f).1
      (Applier.merge (applier s) (WriteFrame.into_stamped f)).1 ev p (auth s) (peer_cursors s))
    (history_push H f).
Proof.
  intros [Hl (D & HD & HDw) Hc Ha] Hs Hc' Hle Hf. split; simpl.
  - by apply record_next.
  - exists (D ++ [WriteFrame.into_stamped f]). split; [by apply merge_models|].
    intros w. rewrite elem_of_app, list_elem_of_singleton, HDw, delivered_push. done.
  - done.
  - intros o g [Hg|[-> _]]%elem_of_history_push; [|done]. etrans; eauto.
Qed.

(** Steps that touch neither the log nor the applier. *)
Lemma clock_models s s' H :
  state_models s H → log s' = log s → applier s' = applier s →
  hlc_ok (clock s') → clock s ≤ₒ clock s' → state_models s' H.
Proof.
  intros [Hl Ha Hc Hab] El Ea Hc' Hle. split; rewrite ?El, ?Ea; try done.
  intros o f Hf. etrans; eauto.
Qed.

Lemma persist_fields s f :
  self_id (SyncState.persist s f).1 = self_id s ∧ clock (SyncState.persist s f).1 = clock s ∧
  log (SyncState.persist s f).1 = log s ∧ applier (SyncState.persist s f).1 = applier s ∧
  events (SyncState.persist s f).1 = events s ∧ auth (SyncState.persist s f).1 = auth s ∧
  peer_cursors (SyncState.persist s f).1 = peer_cursors s.
Proof. unfold SyncState.persist. by destruct (persister s). Qed.

(** The frame a local write builds, before it is persisted. *)
Definition built s (wall_ms : Z) op entity id data : WriteFrame :=
  let f := mkFrame (mkStamp (Hlc.tick (clock s) wall_ms) (self_id s))
             (ReplLog.next_seq (log s) (self_id s)) op entity id data None in
  match auth s, WriteFrame.signing_bytes f with
  | Some a, Ok bs => with_signature f (Some (sign a bs))
  | _, _ => f
  end.

(** [local_write], its three outcomes: a write that does not fit changes
    nothing, one the sink refuses only moves the clock, and one it accepts
    is recorded, merged and announced. *)
Lemma local_write_cases s w op e i d :
  SyncState.local_write s w op e i d =
    match check_lengths e i d with
    | Err err => (s, Err (WireErr err))
    | Ok _ =>
      let f := built s w op e i d in
      let ticked := SyncState.set_clock s (Hlc.tick (clock s) w) in
      let p := SyncState.persist ticked f in
      match p.2 with
      | Err err => (p.1, Err (PersistErr err))
      | Ok _ =>
        (SyncState.emit
          (mkState (self_id s) (Hlc.tick (clock s) w) (ReplLog.record (log s) f).1
            (Applier.merge (applier s) (WriteFrame.into_stamped f)).1 (events s)
            (persister p.1) (auth s) (peer_cursors s)) f Local, Ok f)
      end
    end.
Proof.
  unfold SyncState.local_write. destruct (check_lengths e i d) as [[]|err] eqn:Hc; [|done].
  destruct s as [id c l a ev p au pc]. unfold built, SyncState.persist; simpl.
  set (f0 := mkFrame _ _ _ _ _ _ None).
  assert (Hsb : is_ok (WriteFrame.signing_bytes f0) = true) by (by apply signing_bytes_Ok).
  destruct au as [au|]; [destruct (WriteFrame.signing_bytes f0); [|done]|]; simpl;
    (destruct p as [q|]; simpl; [|done]); by destruct (append q _) as [q' [[]|err']].
Qed.

Lemma built_fields s w op e i d :
  f_stamp (built s w op e i d) = mkStamp (Hlc.tick (clock s) w) (self_id s) ∧
  f_seq (built s w op e i d) = ReplLog.next_seq (log s) (self_id s) ∧
  WriteFrame.into_stamped (built s w op e i d) =
    mkWrite (mkStamp (Hlc.tick (clock s) w) (self_id s)) op e i d ∧
  f_op (built s w op e i d) = op ∧ f_data (built s w op e i d) = d ∧
  f_entity (built s w op e i d) = e ∧ f_id (built s w op e i d) = i.
Proof. unfold built. simpl. by destruct (auth s); [case_match|]. Qed.

Lemma built_next s H w op e i d :
  state_models s H →
  f_seq (built s w op e i d) = Z.of_nat (S (length (H (origin_of (built s w op e i d))))).
Proof.
  intros Hm. unfold origin_of. destruct (built_fields s w op e i d) as (-> & -> & _). simpl.
  unfold ReplLog.next_seq. rewrite (cursor_for_models _ H) by apply Hm. lia.
Qed.

Lemma local_write_models s H w op e i d s' r :
  state_models s H → hlc_room (clock s) → is_u64 w →
  SyncState.local_write s w op e i d = (s', r) →
  match r with
  | Ok f => f = built s w op e i d ∧ state_models s' (history_push H f) ∧
            clock s <ₒ hlc (f_stamp f) ∧ clock s' = hlc (f_stamp f)
  | Err _ => state_models s' H
  end.
Proof.
  intros Hm Hr Hw. rewrite local_write_cases.
  destruct (check_lengths e i d) as [[]|err]; [|by intros [<- <-]%pair_inv].
  assert (Hlt : clock s <ₒ Hlc.tick (clock s) w) by (apply tick_lt; [apply Hm|done]).
  assert (Hok : hlc_ok (Hlc.tick (clock s) w)) by (apply tick_ok; [apply Hm|done]).
  cbv zeta. destruct (SyncState.persist _ _).2 as [[]|err] eqn:Ep; intros [<- <-]%pair_inv.
  - destruct (built_fields s w op e i d) as (Hst & _). rewrite Hst; simpl.
    split_and!; try done. unfold SyncState.emit, SyncState.set_events; simpl.
    apply deliver_models; try done; [by apply built_next|by apply ord_lt_le|].
    rewrite Hst. done.
  - destruct (persist_fields (SyncState.set_clock s (Hlc.tick (clock s) w)) (built s w op e i d))
      as (_ & Hcl & Hlg & Hap & _).
    apply (clock_models s); rewrite ?Hcl, ?Hlg, ?Hap; simpl; auto with rust.
Qed.

(** [receive] of a frame that passed verification, by its outcome. *)
Lemma receive_cases s f w :
  let observed := SyncState.set_clock s (Hlc.observe (clock s) (hlc (f_stamp f)) w) in
  let p := SyncState.persist observed f in
  let m := Applier.merge (applier s) (WriteFrame.into_stamped f) in
  let landed := mkState (self_id s) (Hlc.observe (clock s) (hlc (f_stamp f)) w)
                  (ReplLog.record (log s) f).1 m.1 (events s)
                  (persister p.1) (auth s) (peer_cursors s) in
  SyncState.receive s f w =
    if match auth s with Some a => negb (verify a f) | None => false end then (s, Rejected)
    else if negb (bool_decide (ReplLog.classify (log s) f = Appended))
    then (observed, ReplLog.classify (log s) f)
    else match p.2 with
         | Err _ => (p.1, Unpersisted)
         | Ok _ => (if bool_decide (m.2 = Applied) then SyncState.emit landed f Remote else landed,
                    ReplLog.classify (log s) f)
         end.
Proof.
  destruct s as [id c l a ev p au pc]. unfold SyncState.receive, SyncState.persist; simpl.
  destruct (match au with Some _ => _ | None => _ end); [done|].
  destruct (negb _); [done|]. destruct p as [q|]; simpl; [|done].
  by destruct (append q f) as [q' [[]|err]].
Qed.

Lemma classify_Appended s H f :
  log_models (log s) H →
  ReplLog.classify (log s) f = Appended ↔ f_seq f = Z.of_nat (S (length (H (origin_of f)))).
Proof.
  intros Hm. unfold ReplLog.classify. rewrite (cursor_for_models _ H) by done.
  repeat case_bool_decide; split; (done || lia).
Qed.

Lemma receive_models s H f w s' out :
  state_models s H → hlc_room (clock s) → hlc_room (hlc (f_stamp f)) →
  hlc_ok (hlc (f_stamp f)) → is_u64 w → SyncState.receive s f w = (s', out) →
  if bool_decide (out = Appended)
  then f_seq f = Z.of_nat (S (length (H (origin_of f)))) ∧ state_models s' (history_push H f)
  else state_models s' H.
Proof.
  intros Hm Hr Hrf Hf Hw. rewrite receive_cases. case_match; [by intros [<- <-]%pair_inv|].
  destruct (observe_lt (clock s) (hlc (f_stamp f)) w) as [Hlt Hltf]; try done; [apply Hm|].
  assert (Hok : hlc_ok (Hlc.observe (clock s) (hlc (f_stamp f)) w))
    by (apply observe_ok; [apply Hm|done..]).
  destruct (bool_decide_reflect (ReplLog.classify (log s) f = Appended)) as [Ha|Ha]; cbn [negb].
  - destruct (SyncState.persist _ f).2 as [[]|err] eqn:Ep; intros [<- <-]%pair_inv.
    + rewrite Ha, bool_decide_eq_true_2 by done.
      pose proof (proj1 (classify_Appended s H f (sm_log _ _ Hm)) Ha) as Hs. split; [done|].
      case_bool_decide; unfold SyncState.emit, SyncState.set_events; simpl;
        apply deliver_models; auto with rust.
    + rewrite bool_decide_eq_false_2 by done.
      destruct (persist_fields (SyncState.set_clock s (Hlc.observe (clock s) (hlc (f_stamp f)) w)) f)
        as (_ & Hcl & Hlg & Hap & _).
      apply (clock_models s); rewrite ?Hcl, ?Hlg, ?Hap; simpl; auto with rust.
  - intros [<- <-]%pair_inv. rewrite bool_decide_eq_false_2 by done.
    apply (clock_models s); simpl; auto with rust.
Qed.

Lemma persist_self s f : self_id (SyncState.persist s f).1 = self_id s.
Proof. apply persist_fields. Qed.

Lemma local_write_self s w op e i d :
  self_id (SyncState.local_write s w op e i d).1 = self_id s.
Proof.
  rewrite local_write_cases. destruct (check_lengths e i d); [|done]. cbv zeta.
  destruct (SyncState.persist _ _).2; [done|]. simpl. by rewrite persist_self.
Qed.

Lemma receive_self s f w : self_id (SyncState.receive s f w).1 = self_id s.
Proof.
  rewrite receive_cases. cbv zeta.
  destruct (match auth s with Some _ => _ | None => _ end); [done|].
  destruct (negb _); [done|]. destruct (SyncState.persist _ f).2; simpl.
  - by destruct (bool_decide _).
  - by rewrite persist_self.
Qed.

Lemma collect_state_models s H e i :
  state_models s H → state_models (SyncState.collect_tombstone s e i).1 H.
Proof.
  intros [Hl (D & HD & HDw) Hc Ha]. split; simpl; try done.
  exists D. split; [by apply collect_models|done].
Qed.

Lemma note_cursors_models s H p c :
  state_models s H → state_models (SyncState.note_peer_cursors s p c) H.
Proof. intros [Hl HD Hc Ha]. by split. Qed.

Lemma replay_cases s f :
  SyncState.replay s f =
    let r := ReplLog.record (log s) f in
    let c := Hlc.observe (clock s) (hlc (f_stamp f)) (physical (hlc (f_stamp f))) in
    let a := if bool_decide (r.2 = Appended)
             then (Applier.merge (applier s) (WriteFrame.into_stamped f)).1 else applier s in
    mkState (self_id s) c r.1 a (events s) (persister s) (auth s) (peer_cursors s).
Proof. unfold SyncState.replay. cbv zeta. simpl. by destruct (bool_decide _). Qed.

Lemma replay_models s H f :
  state_models s H → hlc_room (clock s) → hlc_room (hlc (f_stamp f)) →
  hlc_ok (hlc (f_stamp f)) → f_seq f = Z.of_nat (S (length (H (origin_of f)))) →
  state_models (SyncState.replay s f) (history_push H f).
Proof.
  intros Hm Hr Hrf Hf Hs.
  destruct (observe_lt (clock s) (hlc (f_stamp f)) (physical (hlc (f_stamp f)))) as [? ?];
    try done; [apply Hm|].
  destruct (record_next (log s) H f (sm_log _ _ Hm) Hs) as [Ha _].
  rewrite replay_cases. cbv zeta. case_bool_decide; [|done].
  apply deliver_models; auto with rust. apply observe_ok; [apply Hm|done|apply Hf].
Qed.

(** What a reader sees is the winner of the delivered writes. *)
Lemma visible_state_models s H e i :
  state_models s H →
  ∃ D, (∀ w, w ∈ D ↔ delivered H w) ∧ SyncState.visible s e i = shown (winner D (e, i)).
Proof.
  intros [_ (D & HD & HDw) _ _]. exists D. split; [done|]. by apply visible_models.
Qed.

(** A write stamped above the clock beats every delivered write. *)
Lemma fresh_write_wins D H s w :
  (∀ v, v ∈ D ↔ delivered H v) → state_models s H → clock s <ₒ hlc (sw_stamp w) →
  winner (D ++ [w]) (write_key w) = Some w.
Proof.
  intros HD Hm Hlt. rewrite winner_snoc, decide_True by done. unfold newer.
  destruct (winner D (write_key w)) as [v|] eqn:Ev; [|done].
  apply winner_Some in Ev as (Hv & _). apply HD in Hv as (o & f & Hf & <-).
  apply (sm_above _ _ Hm) in Hf. rewrite bool_decide_eq_false_2; [done|].
  apply ord_lt_not_le, stamp_lt_iff. left. simpl. eauto with rust.
Qed.
End models.

Section reclaim.
Context {P A : Type} {FP : FramePersister P} {FA : FrameAuth A} {HI : HashIter}.
Implicit Types s : SyncState P A.

(** The cursor a peer reported for an origin, 0 when it never did. *)
Definition reported s (member origin : PeerId) : Z :=
  default 0%Z (peer_cursors s !! member ≫= λ c, c !! origin).

Lemma foldl_min_le {B} (g : Z → B → Z) l z :
  (∀ z b, (g z b ≤ z)%Z) → (foldl g z l ≤ z)%Z.
Proof.
  intros Hg. revert z. induction l as [|b l IH]; intros z; simpl; [lia|].
  etrans; [apply IH|apply Hg].
Qed.

Lemma low_water_mark_le s members origin m :
  m ∈ members → m ≠ self_id s →
  (SyncState.low_water_mark s members origin ≤ reported s m origin)%Z.
Proof.
  unfold SyncState.low_water_mark. generalize (ReplLog.cursor_for (log s) origin).
  induction members as [|x members IH]; intros z Hin Hne; [by apply elem_of_nil in Hin|].
  simpl. apply elem_of_cons in Hin as [<-|Hin]; [|by apply IH].
  rewrite bool_decide_eq_false_2 by done. etrans; [apply foldl_min_le|].
  - intros y b. case_bool_decide; lia.
  - unfold reported. lia.
Qed.

Lemma truncate_base l o up_to o' :
  ReplLog.base_of (ReplLog.truncate l o up_to).1 o' = ReplLog.base_of l o' ∨
  o' = o ∧ (ReplLog.base_of l o' ≤ ReplLog.base_of (ReplLog.truncate l o up_to).1 o' ≤ up_to)%Z.
Proof.
  unfold ReplLog.truncate. case_bool_decide; [by left|].
  destruct (observed l !! o) as [fs|]; [|by left]. simpl.
  unfold ReplLog.base_of; simpl. rewrite lookup_insert. case_decide; [subst o'|by left].
  right. split; [done|]. simpl. unfold ReplLog.base_of in *. lia.
Qed.

(** One round of the loop of [reclaim], as a step on the state. *)
Lemma reclaim_loop s members H os : ∀ s0 n,
  state_models s0 H → peer_cursors s0 = peer_cursors s → self_id s0 = self_id s →
  applier s0 = applier s →
  let r := foldl (λ acc origin,
        let '(s, dropped) := acc in
        let lwm := SyncState.low_water_mark s members origin in
        if bool_decide (0 < lwm)%Z
        then let r := ReplLog.truncate (log s) origin lwm in (SyncState.set_log s r.1, dropped + r.2)
        else (s, dropped)) (s0, n) os in
  state_models r.1 H ∧ peer_cursors r.1 = peer_cursors s ∧ self_id r.1 = self_id s ∧
  applier r.1 = applier s ∧
  (∀ o, ReplLog.base_of (log s0) o ≤ ReplLog.base_of (log r.1) o)%Z ∧
  (∀ o m, m ∈ members → m ≠ self_id s →
    ReplLog.base_of (log r.1) o ≤ Z.max (ReplLog.base_of (log s0) o) (reported s m o))%Z.
Proof.
  induction os as [|o os IH]; intros s0 n Hm Hp Hi Ha; simpl.
  { split_and!; try done; intros; lia. }
  case_bool_decide; [|by apply IH].
  pose proof (truncate_base (log s0) o (SyncState.low_water_mark s0 members o)) as Htb.
  destruct (IH (SyncState.set_log s0
    (ReplLog.truncate (log s0) o (SyncState.low_water_mark s0 members o)).1)
    (n + (ReplLog.truncate (log s0) o (SyncState.low_water_mark s0 members o)).2))
    as (Hm' & Hp' & Hi' & Ha' & Hmon & Hb'); try done.
  { destruct Hm. split; try done. simpl. by apply truncate_models. }
  split_and!; try done; [intros o'; specialize (Hmon o'); simpl in Hmon; destruct (Htb o'); lia|].
  intros o' m Hin Hne. specialize (Hb' o' m Hin Hne). simpl in Hb'.
  pose proof (low_water_mark_le s0 members o m Hin) as Hl. unfold reported in Hl, Hb'.
  rewrite Hp, Hi in Hl. specialize (Hl Hne).
  unfold reported. destruct (Htb o') as [Eb|[-> Eb]]; [rewrite Eb in Hb'; done|lia].
Qed.

Lemma reclaim_models s H members :
  state_models s H →
  state_models (SyncState.reclaim s members).1 H ∧
  self_id (SyncState.reclaim s members).1 = self_id s.
Proof.
  intros Hm. pose proof (reclaim_loop s members H (hiter (SyncState.cursors s)).*1 s 0 Hm) as Hr.
  cbv zeta in Hr. unfold SyncState.reclaim. split; by apply Hr.
Qed.
End reclaim.

(** ** Records and log of a history, whatever the clock *)

Section data.
Context {P A : Type} {FP : FramePersister P} {FA : FrameAuth A}.
Implicit Types s : SyncState P A.

Record data_models s (H : History) : Prop := {
  dm_log : log_models (log s) H;
  dm_applier : ∃ D, models (applier s) D ∧ ∀ w, w ∈ D ↔ delivered H w;
}.

Lemma data_models_new p : data_models (SyncState.new p) empty_history.
Proof. destruct (state_models_new (P := P) (A := A) p). by split. Qed.

Lemma state_data s H : state_models s H → data_models s H.
Proof. intros []. by split. Qed.

Lemma data_models_ext s s' H H' :
  log s' = log s → applier s' = applier s → (∀ o, H o = H' o) →
  data_models s H → data_models s' H'.
Proof.
  intros El Ea He [Hl (D & HD & HDw)]. split; rewrite ?El, ?Ea.
  - by eapply log_models_ext.
  - exists D. split; [done|]. intros w. rewrite HDw. unfold delivered. by setoid_rewrite He.
Qed.

Lemma deliver_data s s' H f :
  data_models s H → f_seq f = Z.of_nat (S (length (H (origin_of f)))) →
  log s' = (ReplLog.record (log s) f).1 →
  applier s' = (Applier.merge (applier s) (WriteFrame.into_stamped f)).1 →
  data_models s' (history_push H f).
Proof.
  intros [Hl (D & HD & HDw)] Hs El Ea. split; rewrite ?El, ?Ea.
  - by apply record_next.
  - exists (D ++ [WriteFrame.into_stamped f]). split; [by apply merge_models|].
    intros w. by rewrite elem_of_app, list_elem_of_singleton, HDw, delivered_push.
Qed.

Lemma replay_data s H f :
  data_models s H → f_seq f = Z.of_nat (S (length (H (origin_of f)))) →
  data_models (SyncState.replay s f) (history_push H f).
Proof.
  intros Hm Hs. destruct (record_next (log s) H f) as [Ha _]; [apply Hm|done|].
  apply (deliver_data s); try done; rewrite replay_cases; simpl; [done|].
  by rewrite bool_decide_eq_true_2.
Qed.

(** Replaying a batch that continues the history delivers all of it. *)
Lemma replay_all_data fs : ∀ s H,
  data_models s H → continues H fs →
  data_models (foldl SyncState.replay s fs) (λ o, H o ++ from_origin o fs).
Proof.
  induction fs as [|f fs IH]; intros s H Hm Hc; simpl.
  - eapply data_models_ext; [..|exact Hm]; try done. intros o. by rewrite app_nil_r.
  - apply continues_cons in Hc as [Hs Hc].
    eapply data_models_ext; [done|done|apply history_push_from|].
    apply IH; [by apply replay_data|done].
Qed.

(** Two states of one history show the same records. *)
Lemma data_visible s1 s2 H e i :
  data_models s1 H → data_models s2 H → (∀ D, (∀ w, w ∈ D → delivered H w) → unique_stamps D) →
  SyncState.visible s1 e i = SyncState.visible s2 e i.
Proof.
  intros [_ (D1 & HD1 & Hw1)] [_ (D2 & HD2 & Hw2)] Hu. unfold SyncState.visible.
  rewrite (visible_models _ D1), (visible_models _ D2) by done. f_equal.
  apply winner_ext; [apply Hu; intros w; apply Hw1|]. intros w. by rewrite Hw1, Hw2.
Qed.
End data.

Section theorems.
Context {P A : Type} {FP : FramePersister P} {FA : FrameAuth A}.
Implicit Types s : SyncState P A.

(** C8: An accepted local write is seen at once, as long as the logical part
    of the peer's clock is below its maximum (a frame that carries the maximum
    takes it there). The write takes the next sequence number of this peer, is
    stamped above everything delivered, wins its record whatever the wall clock
    says, and is announced exactly once. *)
Theorem local_write_wins s H w op e i d s' f :
  state_models s H → hlc_room (clock s) → is_u64 w →
  SyncState.local_write s w op e i d = (s', Ok f) →
  f_seq f = (ReplLog.cursor_for (log s) (self_id s) + 1)%Z ∧ origin_of f = self_id s ∧
  ReplLog.cursor_for (log s') (self_id s) = f_seq f ∧
  (∀ o g, g ∈ H o → f_stamp g <ₒ f_stamp f) ∧
  SyncState.visible s' e i = (if is_delete op then None else Some d) ∧
  events s' = events s ++ [mkEvent op e i (if is_delete op then None else Some d) Local].
Proof.
  intros Hm Hr Hw Hl. pose proof (local_write_models s H w op e i d s' (Ok f) Hm Hr Hw Hl)
    as (Hf & Hm' & Hlt & _).
  destruct (built_fields s w op e i d) as (Hst & Hsq & Hin & Hop & Hd & He & Hi).
  rewrite <-Hf in *. unfold origin_of in *. split_and!.
  - rewrite Hsq. done.
  - by rewrite Hst.
  - rewrite (cursor_for_models _ _ _ (sm_log _ _ Hm')), Hsq. unfold ReplLog.next_seq.
    rewrite (cursor_for_models _ _ _ (sm_log _ _ Hm)). unfold history_push, origin_of.
    rewrite Hst; simpl. rewrite bool_decide_eq_true_2, length_app by done. simpl. lia.
  - intros o g Hg. apply stamp_lt_iff. left. eapply ord_le_lt_trans; [by apply (sm_above s H Hm o)|done].
  - destruct (sm_applier _ _ Hm) as (D & HD & HDw). revert Hl. rewrite local_write_cases.
    destruct (check_lengths e i d) as [[]|]; [|done]. cbv zeta.
    destruct (SyncState.persist _ _).2 as [[]|]; [|done]. intros [<- _]%pair_inv. rewrite <-Hf.
    unfold SyncState.visible, SyncState.emit; simpl.
    rewrite (visible_models _ _ _ _ (merge_models _ _ _ HD)), Hin in *.
    change (e, i) with (write_key (mkWrite (f_stamp f) op e i d)). rewrite <-Hst in Hin |- *.
    by rewrite (fresh_write_wins D H s).
  - revert Hl. rewrite local_write_cases.
    destruct (check_lengths e i d) as [[]|]; [|done]. cbv zeta.
    destruct (SyncState.persist _ _).2 as [[]|]; [|done]. intros [<- _]%pair_inv. rewrite <-Hf.
    unfold SyncState.emit; simpl. rewrite Hop, Hd, He, Hi.
    by destruct op.
Qed.

(** What a refused local write leaves behind. One whose fields do not fit
    leaves the state untouched; one the sink cannot store takes no sequence
    number, records, merges and announces nothing, and moves the clock by
    one tick. *)
Theorem refused_write s w op e i d s' err :
  SyncState.local_write s w op e i d = (s', Err err) →
  log s' = log s ∧ applier s' = applier s ∧ events s' = events s ∧
  match err with
  | WireErr we => s' = s ∧ check_lengths e i d = Err we
  | PersistErr _ => check_lengths e i d = Ok () ∧ clock s' = Hlc.tick (clock s) w ∧
      persister s' ≠ None
  end.
Proof.
  rewrite local_write_cases. destruct (check_lengths e i d) as [[]|we].
  2:{ by intros [<- [= <-]]%pair_inv. }
  cbv zeta. set (t := SyncState.set_clock s _). set (f := built _ _ _ _ _ _).
  destruct (SyncState.persist t f).2 as [[]|pe] eqn:Ep; [by intros [_ ?]%pair_inv|].
  intros [<- [= <-]]%pair_inv.
  destruct (persist_fields t f) as (_ & -> & -> & -> & -> & _). split_and!; try done.
  unfold SyncState.persist in *. by destruct (persister t).
Qed.

(** What receiving a frame does, outcome by outcome. A rejected frame
    changes nothing; a duplicate or a frame ahead of the log only moves the
    clock; one the sink cannot store leaves log, applier and events alone so
    the peer offers it again; an accepted one is the next of its origin and
    is announced exactly when its stamp beats the record's winner. *)
Theorem receive_outcomes s H f w s' out :
  state_models s H → SyncState.receive s f w = (s', out) →
  let have := ReplLog.cursor_for (log s) (origin_of f) in
  match out with
  | Rejected => s' = s ∧ ∃ a, auth s = Some a ∧ verify a f = false
  | Duplicate => (f_seq f ≤ have)%Z ∧
      s' = SyncState.set_clock s (Hlc.observe (clock s) (hlc (f_stamp f)) w)
  | Gap expected got => expected = (have + 1)%Z ∧ got = f_seq f ∧ (expected < got)%Z ∧
      s' = SyncState.set_clock s (Hlc.observe (clock s) (hlc (f_stamp f)) w)
  | Unpersisted => f_seq f = (have + 1)%Z ∧
      log s' = log s ∧ applier s' = applier s ∧ events s' = events s
  | Appended => f_seq f = (have + 1)%Z ∧ log s' = (ReplLog.record (log s) f).1 ∧
      applier s' = (Applier.merge (applier s) (WriteFrame.into_stamped f)).1 ∧
      events s' = events s ++
        (if bool_decide ((Applier.merge (applier s) (WriteFrame.into_stamped f)).2 = Applied)
         then [mkEvent (f_op f) (f_entity f) (f_id f)
                (if is_delete (f_op f) then None else Some (f_data f)) Remote] else [])
  end.
Proof.
  intros Hm. rewrite receive_cases. cbv zeta.
  destruct (match auth s with Some a => negb (verify a f) | None => false end) eqn:Eau.
  { intros [<- <-]%pair_inv. split; [done|]. destruct (auth s) as [a|]; [|done].
    exists a. split; [done|]. by apply negb_true_iff. }
  unfold ReplLog.classify. set (have := ReplLog.cursor_for (log s) (origin_of f)).
  destruct (bool_decide_reflect (f_seq f ≤ have)%Z).
  { by intros [<- <-]%pair_inv. }
  destruct (bool_decide_reflect (f_seq f = have + 1)%Z); simpl.
  2:{ intros [<- <-]%pair_inv. split_and!; (done || lia). }
  set (t := SyncState.set_clock s _).
  destruct (persist_fields t f) as (_ & _ & Hl & Ha & He & _).
  destruct (SyncState.persist t f).2 as [[]|pe] eqn:Ep; intros [<- <-]%pair_inv.
  2:{ by rewrite Hl, Ha, He. }
  case_bool_decide; simpl; rewrite ?app_nil_r; split_and!; try done.
  by destruct (f_op f).
Qed.
End theorems.

Section reclaim_theorem.
Context {P A : Type} {FP : FramePersister P} {FA : FrameAuth A} {HI : HashIter}.

(** C9: Reclaiming behind the low-water-mark is safe. It changes no cursor,
    no clock and no record, and for a listed member whose cursors are at or
    past what it last reported the delta stays exactly what it was. *)
Theorem reclaim_safe (s : SyncState P A) H members m their :
  state_models s H → m ∈ members → m ≠ self_id s →
  (∀ o, reported s m o ≤ default 0%Z (their !! o))%Z →
  let s' := (SyncState.reclaim s members).1 in
  state_models s' H ∧ applier s' = applier s ∧
  ∀ o, ReplLog.cursor_for (log s') o = ReplLog.cursor_for (log s) o ∧
    from_origin o (SyncState.delta_since s' their) = from_origin o (SyncState.delta_since s their).
Proof.
  intros Hm Hin Hne Ht s'.
  destruct (reclaim_loop s members H (hiter (SyncState.cursors s)).*1 s 0)
    as (Hm' & _ & _ & Ha & Hmon & Hb); try done.
  change (foldl _ (s, 0) _) with (SyncState.reclaim s members) in *. fold s' in Hm', Ha, Hmon, Hb.
  split_and!; try done. intros o. unfold SyncState.delta_since. split.
  - by rewrite (cursor_for_models _ _ _ (sm_log _ _ Hm')), (cursor_for_models _ _ _ (sm_log _ _ Hm)).
  - rewrite (delta_since_models _ _ _ _ (sm_log _ _ Hm')), (delta_since_models _ _ _ _ (sm_log _ _ Hm)).
    f_equal. specialize (Ht o). specialize (Hb o m Hin Hne).
    specialize (Hmon o). lia.
Qed.
End reclaim_theorem.

(** ** Examples *)

(** A peer with no sink and no signer. *)
Inductive NoSink := no_sink.
#[export] Instance no_persister : FramePersister NoSink :=
  {| append p _ := (p, Ok ()); load _ := Ok [] |}.
#[export] Instance no_auth : FrameAuth NoSink :=
  {| sign _ _ := []; verify _ _ := true |}.

Definition ex_a : SyncState NoSink NoSink := SyncState.new (ex_peer x01).
Definition ex_b : SyncState NoSink NoSink := SyncState.new (ex_peer x02).

Definition ex_written := SyncState.local_write ex_a 100 Insert "task" "t1" [x2a].
Definition ex_sent : WriteFrame := built ex_a 100 Insert "task" "t1" [x2a].
Definition ex_received := SyncState.receive ex_b ex_sent 50.


(** A sink that is full. *)
Inductive FullDisk := full_disk.
#[export] Instance full_persister : FramePersister FullDisk :=
  {| append p _ := (p, Err IoOther); load _ := Ok [] |}.

Definition ex_full : SyncState FullDisk NoSink :=
  SyncState.set_persister (SyncState.new (ex_peer x01)) full_disk.

Lemma local_write_wins_witness :
  ex_written.2 = Ok ex_sent ∧
  SyncState.visible ex_written.1 "task" "t1" = Some [x2a] ∧
  (∀ o g, g ∈ empty_history o → f_stamp g <ₒ f_stamp ex_sent).
Proof.
  assert (E : ex_written = (ex_written.1, Ok ex_sent)) by (vm_compute; reflexivity).
  pose proof (local_write_wins ex_a empty_history 100 Insert "task" "t1" [x2a] ex_written.1 ex_sent
    (state_models_new _) ltac:(done) ltac:(done) E) as (_ & _ & _ & Hst & Hv & _).
  split; [rewrite E; reflexivity|]. split; [exact Hv|exact Hst].
Defined.

Lemma refused_write_witness :
  let r := SyncState.local_write ex_full 100 Insert "task" "t1" [x2a] in
  r.2 = Err (PersistErr IoOther) ∧ log r.1 = log ex_full ∧ clock r.1 ≠ clock ex_full.
Proof.
  intros r. assert (E : r = (r.1, Err (PersistErr IoOther))) by (vm_compute; reflexivity).
  pose proof (refused_write ex_full 100 Insert "task" "t1" [x2a] r.1 (PersistErr IoOther) E)
    as (Hl & _ & _ & _ & Hc & _).
  split; [rewrite E; reflexivity|]. split; [exact Hl|]. rewrite Hc. vm_compute. discriminate.
Defined.

Lemma receive_outcomes_witness :
  ex_received.2 = Appended ∧
  events ex_received.1 = [mkEvent Insert "task" "t1" (Some [x2a]) Remote].
Proof.
  assert (E : ex_received = (ex_received.1, Appended)) by (vm_compute; reflexivity).
  pose proof (receive_outcomes ex_b empty_history ex_sent 50 ex_received.1 Appended
    (state_models_new _) E) as (_ & _ & _ & He).
  split; [rewrite E; reflexivity|]. rewrite He. vm_compute. reflexivity.
Defined.

(** Peer 1 reclaims its one frame once peer 2 reported having it. *)
Lemma reclaim_safe_witness :
  let their : Cursors := {[ex_peer x01 := 1%Z]} in
  let s := SyncState.note_peer_cursors ex_written.1 (ex_peer x02) their in
  (SyncState.reclaim s [ex_peer x02]).2 = 1 ∧
  ReplLog.cursor_for (log (SyncState.reclaim s [ex_peer x02]).1) (ex_peer x01) =
  ReplLog.cursor_for (log s) (ex_peer x01).
Proof.
  intros their s. split; [vm_compute; reflexivity|].
  assert (E : ex_written = (ex_written.1, Ok ex_sent)) by (vm_compute; reflexivity).
  pose proof (local_write_models ex_a empty_history 100 Insert "task" "t1" [x2a] ex_written.1 (Ok ex_sent)
    (state_models_new _) ltac:(done) ltac:(done) E) as (_ & Hm & _).
  pose proof (reclaim_safe s _ [ex_peer x02] (ex_peer x02) their (note_cursors_models _ _ (ex_peer x02) their Hm)
    ltac:(left) ltac:(discriminate)) as Hr.
  refine (proj1 (proj2 (proj2 (Hr _)) (ex_peer x01))).
  intros o. unfold reported, s. simpl. rewrite lookup_insert_eq. simpl. lia.
Defined.
