(* ===== verification/System.v ===== *)
(** * A network of peers

    Any number of [SyncState]s over a network that may lose, repeat, reorder
    and delay frames: a step lets one peer write locally, receive any frame
    ever created, collect a tombstone, note another peer's cursors or reclaim
    its log. A step whose logical clock would overflow [u32] is left out. This
    is the setting of [crates/stitch-p2p/spec/StitchP2P.tla] and its variants
    for skewed clocks, collection and reclamation, over the code itself. *)
From S2P Require Import Prelude Hlc Lww Wire Replog SyncState.

Section system.
Context {P A : Type} {FP : FramePersister P} {FA : FrameAuth A} {HI : HashIter}.

Record System := mkSystem {
  nodes : gmap PeerId (SyncState P A);
  created : History;
}.

Definition update (Σ : System) (p : PeerId) (s : SyncState P A) : System :=
  mkSystem (<[p := s]> (nodes Σ)) (created Σ).

Inductive step : System → System → Prop :=
| step_local_write Σ p s w op e i d s' f :
    nodes Σ !! p = Some s → hlc_room (clock s) → is_u64 w →
    SyncState.local_write s w op e i d = (s', Ok f) →
    step Σ (mkSystem (<[p := s']> (nodes Σ)) (history_push (created Σ) f))
| step_refused_write Σ p s w op e i d s' err :
    nodes Σ !! p = Some s → hlc_room (clock s) → is_u64 w →
    SyncState.local_write s w op e i d = (s', Err err) →
    step Σ (update Σ p s')
| step_receive Σ p s o f w s' out :
    nodes Σ !! p = Some s → f ∈ created Σ o →
    hlc_room (clock s) → hlc_room (hlc (f_stamp f)) → is_u64 w →
    SyncState.receive s f w = (s', out) →
    step Σ (update Σ p s')
| step_collect Σ p s e i :
    nodes Σ !! p = Some s → step Σ (update Σ p (SyncState.collect_tombstone s e i).1)
| step_note_cursors Σ p s q c :
    nodes Σ !! p = Some s → step Σ (update Σ p (SyncState.note_peer_cursors s q c))
| step_reclaim Σ p s members :
    nodes Σ !! p = Some s → step Σ (update Σ p (SyncState.reclaim s members).1).

(** Every peer starts empty, with whatever sink and signer it was given. *)
Definition initial (Σ : System) : Prop :=
  (∀ o, created Σ o = []) ∧
  ∀ p s, nodes Σ !! p = Some s →
    ∃ sink signer, s = mkState p Hlc.default (ReplLog.new p) Applier.new [] sink signer ∅.

Definition reachable (Σ : System) : Prop := ∃ Σ0, initial Σ0 ∧ rtc step Σ0 Σ.

(** ** The invariant *)

(** Each origin's frames carry strictly increasing stamps. *)
Definition increasing (H : History) : Prop :=
  ∀ o i j f g, H o !! i = Some f → H o !! j = Some g → i < j → f_stamp f <ₒ f_stamp g.

Record node_ok (G : History) (p : PeerId) (s : SyncState P A) (H : History) : Prop := {
  no_id : self_id s = p;
  no_state : state_models s H;
  no_prefix : ∀ o, H o `prefix_of` G o;
  no_own : H p = G p;
}.

Record invariant (Σ : System) : Prop := {
  inv_history : history_ok (created Σ);
  inv_increasing : increasing (created Σ);
  inv_hlc : ∀ o f, f ∈ created Σ o → hlc_ok (hlc (f_stamp f));
  inv_nodes : ∀ p s, nodes Σ !! p = Some s → ∃ H, node_ok (created Σ) p s H;
}.

Lemma initial_invariant Σ : initial Σ → invariant Σ.
Proof.
  intros [Hc Hn]. split.
  - intros o i f. by rewrite Hc.
  - intros o i j f g. by rewrite Hc.
  - intros o f. rewrite Hc. by intros ?%elem_of_nil.
  - intros p s (sink & signer & ->)%Hn. exists empty_history. split; [done| | |by rewrite Hc].
    + destruct (state_models_new (P := P) (A := A) p). by split.
    + intros o. apply prefix_nil.
Qed.

(** Replacing one node's state by one that delivered a longer prefix. *)
Lemma update_invariant Σ p s s' H' :
  invariant Σ → node_ok (created Σ) p s' H' → nodes Σ !! p = Some s →
  invariant (update Σ p s').
Proof.
  intros [Hh Hi Hl Hn] Hok Hp. split; try done. simpl. intros q t.
  rewrite lookup_insert. case_decide; [subst q|by apply Hn]. intros [= <-]. eauto.
Qed.

Lemma history_lookup_seq G o f :
  history_ok G → f ∈ G o → ∃ n, f_seq f = Z.of_nat (S n) ∧ G o !! n = Some f ∧ origin_of f = o.
Proof.
  intros HG [n Hn]%list_elem_of_lookup. exists n. by destruct (HG _ _ _ Hn).
Qed.

(** A created frame that is the next one extends the prefix. *)
Lemma push_prefix G H f o :
  history_ok G → f ∈ G o → (∀ o, H o `prefix_of` G o) →
  f_seq f = Z.of_nat (S (length (H (origin_of f)))) →
  (∀ o, history_push H f o `prefix_of` G o) ∧ H (origin_of f) ≠ G (origin_of f).
Proof.
  intros HG Hf Hp Hs. destruct (history_lookup_seq G o f HG Hf) as (n & Hsn & Hn & <-).
  assert (n = length (H (origin_of f))) as -> by lia. split.
  - intros o. unfold history_push. case_bool_decide as Ho; [subst o|done].
    destruct (Hp (origin_of f)) as [k Hk]. rewrite Hk in *.
    rewrite lookup_app_r, Nat.sub_diag in Hn by done.
    destruct k as [|x k]; [done|]. simpl in Hn. injection Hn as ->.
    exists k. by rewrite <-app_assoc.
  - intros E. rewrite <-E in Hn. apply lookup_lt_Some in Hn. lia.
Qed.

Lemma local_write_invariant Σ p s w op e i d s' f :
  invariant Σ → nodes Σ !! p = Some s → hlc_room (clock s) → is_u64 w →
  SyncState.local_write s w op e i d = (s', Ok f) →
  invariant (mkSystem (<[p := s']> (nodes Σ)) (history_push (created Σ) f)).
Proof.
  intros Hinv Hp Hr Hw Hl. destruct (inv_nodes _ Hinv p s Hp) as (H & [Hid Hm Hpre Hown]).
  destruct (local_write_models s H w op e i d s' (Ok f) Hm Hr Hw Hl) as (Hf & Hm' & Hlt & Hclk).
  destruct (built_fields s w op e i d) as (Hst & _).
  assert (Ho : origin_of f = p) by (unfold origin_of; rewrite Hf, Hst; done).
  assert (Hs : f_seq f = Z.of_nat (S (length (created Σ (origin_of f))))).
  { rewrite Ho, <-Hown, <-Ho, Hf. by apply built_next. }
  destruct Hinv as [Hh Hinc Hok Hn]. split; simpl.
  - by apply history_push_ok.
  - intros o i' j g g'. unfold history_push. case_bool_decide as E; [|by apply Hinc].
    rewrite Ho in E. subst o. intros Hi%lookup_app_Some Hj%lookup_app_Some Hij.
    destruct Hj as [Hj|[Hlen Hj]].
    + destruct Hi as [Hi|[Hlen _]]; [by eapply Hinc|]. apply lookup_lt_Some in Hj. lia.
    + apply list_lookup_singleton_Some in Hj as [Hj <-].
      destruct Hi as [Hi|[Hlen' Hi]]; [|apply list_lookup_singleton_Some in Hi as [? ?]; lia].
      apply stamp_lt_iff. left. eapply ord_le_lt_trans; [|exact Hlt].
      apply (sm_above s H Hm p). rewrite Hown. apply list_elem_of_lookup. eauto.
  - intros o g [Hg|[-> _]]%elem_of_history_push; [by eapply Hok|].
    rewrite <-Hclk. apply Hm'.
  - intros q t. rewrite lookup_insert. case_decide as E.
    + subst q. intros [= <-]. exists (history_push H f). split; [|done| |].
      * rewrite <-Hid. change s' with (s', @Ok _ WriteError f).1. rewrite <-Hl. apply local_write_self.
      * intros o. unfold history_push. case_bool_decide as E; [|done].
        rewrite Ho in E. subst o. by rewrite Hown.
      * unfold history_push. by rewrite Hown.
    + intros Hq. destruct (Hn q t Hq) as (Hq' & [Hidq Hmq Hpq Hownq]).
      exists Hq'. split; try done.
      * intros o. etrans; [apply Hpq|]. unfold history_push. case_bool_decide; [|done].
        by apply prefix_app_r.
      * unfold history_push. rewrite bool_decide_eq_false_2 by congruence. done.
Qed.

Lemma receive_invariant Σ p s o f w s' out :
  invariant Σ → nodes Σ !! p = Some s → f ∈ created Σ o →
  hlc_room (clock s) → hlc_room (hlc (f_stamp f)) → is_u64 w →
  SyncState.receive s f w = (s', out) → invariant (update Σ p s').
Proof.
  intros Hinv Hp Hf Hr Hrf Hw Hrec.
  destruct (inv_nodes _ Hinv p s Hp) as (H & [Hid Hm Hpre Hown]).
  pose proof (receive_models s H f w s' out Hm Hr Hrf (inv_hlc _ Hinv o f Hf) Hw Hrec) as Hcase.
  assert (Hid' : self_id s' = p).
  { rewrite <-Hid. change s' with (s', out).1. rewrite <-Hrec. apply receive_self. }
  case_bool_decide.
  - destruct Hcase as [Hs Hm'].
    destruct (push_prefix (created Σ) H f o) as [Hpre' Hne]; try done; [apply Hinv|].
    eapply (update_invariant Σ p s s' (history_push H f)); try done. split; try done.
    unfold history_push. rewrite bool_decide_eq_false_2; [done|]. congruence.
  - by eapply (update_invariant Σ p s s' H).
Qed.

Lemma refused_invariant Σ p s w op e i d s' err :
  invariant Σ → nodes Σ !! p = Some s → hlc_room (clock s) → is_u64 w →
  SyncState.local_write s w op e i d = (s', Err err) → invariant (update Σ p s').
Proof.
  intros Hinv Hp Hr Hw Hl. destruct (inv_nodes _ Hinv p s Hp) as (H & [Hid Hm Hpre Hown]).
  pose proof (local_write_models s H w op e i d s' (Err err) Hm Hr Hw Hl) as Hm'.
  eapply (update_invariant Σ p s s' H); try done. split; try done.
  rewrite <-Hid. change s' with (s', @Err WriteFrame _ err).1. rewrite <-Hl. apply local_write_self.
Qed.

Lemma step_invariant Σ Σ' : step Σ Σ' → invariant Σ → invariant Σ'.
Proof.
  destruct 1; intros Hinv;
    [by eapply local_write_invariant|by eapply refused_invariant|by eapply receive_invariant|..];
    destruct (inv_nodes _ Hinv p s H) as (Hp & [Hid Hm Hpre Hown]);
    eapply (update_invariant _ p s _ Hp); try done; split; try done.
  - by apply collect_state_models.
  - by apply note_cursors_models.
  - rewrite <-Hid. by apply (reclaim_models s Hp).
  - by apply reclaim_models.
Qed.

Lemma reachable_invariant Σ : reachable Σ → invariant Σ.
Proof.
  intros (Σ0 & H0%initial_invariant & Hsteps). induction Hsteps; eauto using step_invariant.
Qed.

Lemma created_unique Σ D :
  invariant Σ → (∀ w, w ∈ D → delivered (created Σ) w) → unique_stamps D.
Proof.
  intros Hinv HD x y (o & f & Hf & <-)%HD (o' & g & Hg & <-)%HD Hst. simpl in Hst.
  destruct (history_lookup_seq _ _ _ (inv_history _ Hinv) Hf) as (n & _ & Hn & Ho).
  destruct (history_lookup_seq _ _ _ (inv_history _ Hinv) Hg) as (m & _ & Hm & Ho').
  assert (o' = o) as -> by (unfold origin_of in *; congruence).
  destruct (Nat.lt_trichotomy n m) as [Hlt|[->|Hlt]].
  - pose proof (inv_increasing _ Hinv o n m f g Hn Hm Hlt) as E. by apply ord_lt_ne in E.
  - congruence.
  - pose proof (inv_increasing _ Hinv o m n g f Hm Hn Hlt) as E. by apply ord_lt_ne in E.
Qed.

Lemma prefix_same_length {B} (l1 l2 l : list B) :
  l1 `prefix_of` l → l2 `prefix_of` l → length l1 = length l2 → l1 = l2.
Proof.
  intros [k1 ->] [k2 E] Hlen. apply (f_equal (take (length l1))) in E.
  rewrite take_app_length, Hlen, take_app_length in E. done.
Qed.

(** C1: Strong eventual consistency of the network. In every state the
    network can reach, through any interleaving of local writes, lost,
    repeated and reordered deliveries, failing disks, rejected frames,
    tombstone collections and log reclamations, two peers whose cursors
    agree show the same value and the same author for every record. *)
Theorem system_convergence Σ p q s t :
  reachable Σ → nodes Σ !! p = Some s → nodes Σ !! q = Some t →
  (∀ o, ReplLog.cursor_for (log s) o = ReplLog.cursor_for (log t) o) →
  ∀ e i, SyncState.visible s e i = SyncState.visible t e i ∧
         SyncState.visible_with_author s e i = SyncState.visible_with_author t e i.
Proof.
  intros Hinv%reachable_invariant Hp Hq Hcur e i.
  destruct (inv_nodes _ Hinv p s Hp) as (H & [_ Hm Hpre _]).
  destruct (inv_nodes _ Hinv q t Hq) as (H' & [_ Hm' Hpre' _]).
  assert (HH : ∀ o, H o = H' o).
  { intros o. eapply prefix_same_length; [apply Hpre|apply Hpre'|]. specialize (Hcur o).
    rewrite (cursor_for_models _ _ _ (sm_log _ _ Hm)) in Hcur.
    rewrite (cursor_for_models _ _ _ (sm_log _ _ Hm')) in Hcur. lia. }
  destruct (sm_applier _ _ Hm) as (D & HD & HDw), (sm_applier _ _ Hm') as (D' & HD' & HDw').
  assert (Hsame : same_writes D D').
  { intros w. rewrite HDw, HDw'. unfold delivered. by setoid_rewrite HH. }
  assert (Huniq : unique_stamps D).
  { apply (created_unique Σ D Hinv). intros w (o & f & Hf & <-)%HDw. exists o, f.
    split; [|done]. destruct (Hpre o) as [k ->]. apply elem_of_app. by left. }
  unfold SyncState.visible, SyncState.visible_with_author.
  rewrite !(visible_models _ _ _ _ HD), !(visible_models _ _ _ _ HD').
  rewrite !(visible_with_author_models _ _ _ _ HD), !(visible_with_author_models _ _ _ _ HD').
  by rewrite (winner_ext D D').
Qed.

(** C3: Every peer holds contiguous prefixes. In every reachable state, what
    a peer has delivered of an origin is a prefix of what that origin ever
    wrote, its own log is complete, and its next local write therefore takes
    a sequence number nobody has used. *)
Theorem system_prefix Σ p s o :
  reachable Σ → nodes Σ !! p = Some s →
  (0 ≤ ReplLog.cursor_for (log s) o ≤ Z.of_nat (length (created Σ o)))%Z ∧
  ReplLog.frames_of (log s) o =
    drop (Z.to_nat (ReplLog.base_of (log s) o))
      (take (Z.to_nat (ReplLog.cursor_for (log s) o)) (created Σ o)) ∧
  ReplLog.next_seq (log s) p = Z.of_nat (S (length (created Σ p))).
Proof.
  intros Hinv%reachable_invariant Hp.
  destruct (inv_nodes _ Hinv p s Hp) as (H & [_ Hm Hpre Hown]).
  unfold ReplLog.next_seq. rewrite !(cursor_for_models _ _ _ (sm_log _ _ Hm)), Hown, Nat2Z.id.
  pose proof (prefix_length _ _ (Hpre o)). split_and!; [lia|lia| |lia].
  rewrite (lm_frames _ _ (sm_log _ _ Hm)). f_equal.
  destruct (Hpre o) as [k ->]. by rewrite take_app_length.
Qed.
End system.

Arguments System : clear implicits.

(** ** Example: a write reaches a second peer *)

Definition ex_start : System NoSink NoSink :=
  mkSystem {[ex_peer x01 := ex_a; ex_peer x02 := ex_b]} empty_history.
Definition ex_mid : System NoSink NoSink :=
  mkSystem (<[ex_peer x01 := ex_written.1]> (nodes ex_start)) (history_push (created ex_start) ex_sent).
Definition ex_end : System NoSink NoSink := update ex_mid (ex_peer x02) ex_received.1.

Lemma ex_end_reachable : reachable ex_end.
Proof.
  exists ex_start. split.
  - split; [done|]. intros p s. unfold ex_start; simpl.
    rewrite lookup_insert. case_decide as E; [intros [= <-]; subst p; by exists None, None|].
    intros [<- <-]%lookup_singleton_Some. by exists None, None.
  - apply (rtc_l _ _ ex_mid); [|apply rtc_once].
    + eapply (step_local_write ex_start (ex_peer x01) ex_a 100 Insert "task" "t1" [x2a]
        ex_written.1 ex_sent); [done|done|done|vm_compute; reflexivity].
    + eapply (step_receive ex_mid (ex_peer x02) ex_b (ex_peer x01) ex_sent 50 ex_received.1 ex_received.2);
        [done| |done|done|done|vm_compute; reflexivity].
      vm_compute. left.
Qed.

Lemma system_convergence_witness :
  SyncState.visible ex_received.1 "task" "t1" = Some [x2a] ∧
  SyncState.visible ex_written.1 "task" "t1" = SyncState.visible ex_received.1 "task" "t1".
Proof.
  split; [vm_compute; reflexivity|].
  refine (proj1 (system_convergence ex_end (ex_peer x01) (ex_peer x02) _ _ ex_end_reachable
    eq_refl eq_refl _ "task" "t1")).
  assert (E1 : observed (log ex_written.1) = {[ex_peer x01 := [ex_sent]]}) by decide_compute.
  assert (E2 : observed (log ex_received.1) = {[ex_peer x01 := [ex_sent]]}) by decide_compute.
  intros o. unfold ReplLog.cursor_for, ReplLog.base_of, ReplLog.frames_of. rewrite E1, E2. reflexivity.
Defined.

Lemma system_prefix_witness :
  ReplLog.next_seq (log ex_written.1) (ex_peer x01) = 2%Z ∧
  ReplLog.next_seq (log ex_written.1) (ex_peer x01) = Z.of_nat (S (length (created ex_end (ex_peer x01)))).
Proof.
  split; [vm_compute; reflexivity|].
  exact (proj2 (proj2 (system_prefix ex_end (ex_peer x01) ex_written.1 (ex_peer x01)
    ex_end_reachable eq_refl))).
Defined.
