(* ===== verification/Node.v ===== *)
(** * A node: one shared state and its live sessions

    [crates/stitch-p2p/src/node.rs]. A [SyncNode] owns one [SyncState] and the
    senders of the channels its sessions read local writes from. A channel is
    shared by the node (its sender) and a session (its receiver), so channels
    live in a store and both ends name one by its index. *)
From S2P Require Import Prelude Hlc Lww Wire Replog SyncState.

(** An unbounded channel: whether its receiver still exists, and what is
    queued for it. *)
Record Channel := mkChannel { rx_live : bool; queue : list WriteFrame }.

Abbreviation Channels := (gmap nat Channel).

(** [UnboundedSender::send], [is_closed], and the receiver being dropped. *)
Definition send (cs : Channels) (tx : nat) (frame : WriteFrame) : Channels * bool :=
  match cs !! tx with
  | Some (mkChannel true q) => (<[tx := mkChannel true (q ++ [frame])]> cs, true)
  | _ => (cs, false)
  end.

Definition is_closed (cs : Channels) (tx : nat) : bool :=
  match cs !! tx with Some (mkChannel true _) => false | _ => true end.

(** [frames.iter().all(|f| tx.send(f.clone()).is_ok())]: stops at a failure. *)
Fixpoint send_all (cs : Channels) (tx : nat) (frames : list WriteFrame) : Channels * bool :=
  match frames with
  | [] => (cs, true)
  | f :: frames => let r := send cs tx f in if r.2 then send_all r.1 tx frames else r
  end.

(** [Vec::retain] with a closure that acts on the channels. *)
Fixpoint retain (keep : Channels → nat → Channels * bool) (cs : Channels) (txs : list nat)
    : Channels * list nat :=
  match txs with
  | [] => (cs, [])
  | tx :: txs =>
    let k := keep cs tx in
    let r := retain keep k.1 txs in
    (r.1, if k.2 then tx :: r.2 else r.2)
  end.

(** [now_millis] of a clock reading: [duration_since(UNIX_EPOCH)] in
    milliseconds, or an error for a clock set before 1970. *)
Definition now_millis (since_epoch : result Z ()) : Z :=
  match since_epoch with
  | Ok ms => if bool_decide (ms ≤ u64_max)%Z then ms else u64_max
  | Err _ => 0
  end.

Record SyncNode (P A : Type) := mkNode {
  state : SyncState P A;
  sessions : list nat;
  channels : Channels;
}.
Arguments mkNode {P A}.
Arguments state {P A}.
Arguments sessions {P A}.
Arguments channels {P A}.

Module SyncNode.
Section ops.
Context {P A : Type} {FP : FramePersister P} {FA : FrameAuth A}.
Implicit Types n : SyncNode P A.

Definition from_state (s : SyncState P A) : SyncNode P A := mkNode s [] ∅.

Definition new (self_id : PeerId) : SyncNode P A := from_state (SyncState.new self_id).

Definition with_persister (self_id : PeerId) (p : P) : result (SyncNode P A) IoError :=
  let? frames := load p in
  let s := foldl SyncState.replay (SyncState.new self_id) frames in
  Ok (from_state (SyncState.set_persister s p)).

(** The receiver end returned is the channel's index. *)
Definition register_session n : SyncNode P A * nat :=
  let tx := fresh (dom (channels n)) in
  (mkNode (state n) (sessions n ++ [tx]) (<[tx := mkChannel true []]> (channels n)), tx).

Definition local_write n (now : result Z ()) (op : Op) (entity id : string) (data : list byte)
    : SyncNode P A * result WriteFrame WriteError :=
  match SyncState.local_write (state n) (now_millis now) op entity id data with
  | (s, Err e) => (mkNode s (sessions n) (channels n), Err e)
  | (s, Ok frame) =>
    let r := retain (λ cs tx, send cs tx frame) (channels n) (sessions n) in
    (mkNode s r.2 r.1, Ok frame)
  end.

(** The loop of [ingest] under the state lock. *)
Definition receive_all (s : SyncState P A) (now : Z) (frames : list WriteFrame)
    : SyncState P A * list WriteFrame :=
  foldl (λ acc frame,
    let r := SyncState.receive acc.1 frame now in
    (r.1, if bool_decide (r.2 = Appended) then acc.2 ++ [frame] else acc.2)) (s, []) frames.

Definition ingest n (now : result Z ()) (frames : list WriteFrame) : SyncNode P A * nat :=
  let '(s, applied) := receive_all (state n) (now_millis now) frames in
  match applied with
  | [] => (mkNode s (sessions n) (channels n), 0)
  | _ =>
    let r := retain (λ cs tx, send_all cs tx applied) (channels n) (sessions n) in
    (mkNode s r.2 r.1, length applied)
  end.

Definition session_count n : SyncNode P A * nat :=
  let live := filter (λ tx, is_closed (channels n) tx = false) (sessions n) in
  (mkNode (state n) live (channels n), length live).

(** What a session does with its end: take the next frame, or go away. *)
Definition recv n (rx : nat) : SyncNode P A * option WriteFrame :=
  match channels n !! rx with
  | Some (mkChannel live (f :: q)) =>
    (mkNode (state n) (sessions n) (<[rx := mkChannel live q]> (channels n)), Some f)
  | _ => (n, None)
  end.

Definition drop_receiver n (rx : nat) : SyncNode P A :=
  mkNode (state n) (sessions n) (alter (λ _, mkChannel false []) rx (channels n)).

Definition visible n (entity id : string) := SyncState.visible (state n) entity id.
Definition visible_with_author n (entity id : string) :=
  SyncState.visible_with_author (state n) entity id.
Definition self_id n : PeerId := self_id (state n).

Section iter.
Context {HI : HashIter}.
Definition list_entity n (entity : string) := SyncState.visible_entity (state n) entity.
Definition entries_with_authors n (entity : string) :=
  SyncState.entries_with_authors (state n) entity.
Definition frames_for_entity n (entity : string) := SyncState.frames_for_entity (state n) entity.
Definition entries_with_authors_including n (entity : string) (extra : list WriteFrame) :=
  SyncState.entries_with_authors_including (state n) entity extra.
Definition reclaim n (members : list PeerId) : SyncNode P A * nat :=
  let r := SyncState.reclaim (state n) members in (mkNode r.1 (sessions n) (channels n), r.2).
End iter.
End ops.
End SyncNode.

(** ** Fan-out *)

Definition live (cs : Channels) (tx : nat) : Prop := is_closed cs tx = false.

#[global] Instance live_dec cs tx : Decision (live cs tx).
Proof. unfold live. apply _. Defined.

Lemma send_live cs tx f :
  live cs tx → ∃ q, cs !! tx = Some (mkChannel true q) ∧
    send cs tx f = (<[tx := mkChannel true (q ++ [f])]> cs, true).
Proof. unfold live, is_closed, send. destruct (cs !! tx) as [[[] q]|]; naive_solver. Qed.

Lemma send_closed cs tx f : ¬ live cs tx → send cs tx f = (cs, false).
Proof. unfold live, is_closed, send. by destruct (cs !! tx) as [[[] q]|]. Qed.

Lemma live_insert cs tx q tx' : live cs tx → live (<[tx := mkChannel true q]> cs) tx' ↔ live cs tx'.
Proof.
  unfold live, is_closed. intros Hl. rewrite lookup_insert. case_decide; [by subst|done].
Qed.

(** What sending a batch to one channel does. *)
Definition pushed (cs : Channels) (tx : nat) (fs : list WriteFrame) : Channels :=
  alter (λ c, mkChannel (rx_live c) (queue c ++ fs)) tx cs.

Lemma send_pushed cs tx f : live cs tx → send cs tx f = (pushed cs tx [f], true).
Proof.
  intros (q & Hq & ->)%(send_live _ _ f). f_equal. unfold pushed.
  apply map_eq. intros k. rewrite lookup_insert, lookup_alter. case_decide; [|done].
  subst k. by rewrite Hq.
Qed.

Lemma pushed_live cs tx fs tx' : live (pushed cs tx fs) tx' ↔ live cs tx'.
Proof.
  unfold live, is_closed, pushed. rewrite lookup_alter. case_decide; [subst|done].
  by destruct (cs !! tx') as [[[] q]|].
Qed.

Lemma pushed_app cs tx fs gs : pushed (pushed cs tx fs) tx gs = pushed cs tx (fs ++ gs).
Proof.
  apply map_eq. intros k. unfold pushed. rewrite !lookup_alter. case_decide; [|done].
  rewrite decide_True by done. destruct (cs !! tx); simpl; [|done]. by rewrite app_assoc.
Qed.

Lemma pushed_nil cs tx : pushed cs tx [] = cs.
Proof.
  apply map_eq. intros k. unfold pushed. rewrite lookup_alter. case_decide; [|done].
  subst k. destruct (cs !! tx) as [[]|]; simpl; [|done]. by rewrite app_nil_r.
Qed.

Lemma send_all_live fs : ∀ cs tx, live cs tx → send_all cs tx fs = (pushed cs tx fs, true).
Proof.
  induction fs as [|f fs IH]; intros cs tx Hl; simpl; [by rewrite pushed_nil|].
  rewrite send_pushed by done. simpl. rewrite IH by (by apply pushed_live).
  by rewrite pushed_app.
Qed.

(** Any closure that pushes a batch to a live channel and refuses a closed
    one: [retain] with it keeps the live sessions and serves each once. *)
Lemma retain_fanout (keep : Channels → nat → Channels * bool) fs txs : ∀ cs,
  (∀ cs tx, live cs tx → keep cs tx = (pushed cs tx fs, true)) →
  (∀ cs tx, ¬ live cs tx → keep cs tx = (cs, false)) →
  NoDup txs →
  (retain keep cs txs).2 = filter (live cs) txs ∧
  ∀ k, (retain keep cs txs).1 !! k =
    (λ c, if decide (k ∈ txs ∧ rx_live c = true) then mkChannel true (queue c ++ fs) else c)
      <$> cs !! k.
Proof.
  induction txs as [|tx txs IH]; intros cs Hlive Hdead Hnd; simpl.
  { split; [done|]. intros k. by destruct (cs !! k). }
  apply NoDup_cons in Hnd as [Hni Hnd]. rewrite filter_cons.
  destruct (decide (live cs tx)) as [Hl|Hl].
  - rewrite Hlive by done. simpl. destruct (IH (pushed cs tx fs)) as [-> Hk]; try done. split.
    + f_equal. apply list_filter_iff. intros. apply pushed_live.
    + intros k. rewrite Hk. unfold pushed. rewrite lookup_alter. case_decide as E.
      * subst k. unfold live, is_closed in Hl. destruct (cs !! tx) as [[[] q]|]; try done. simpl.
        rewrite decide_False by tauto. rewrite decide_True; [done|]. split; [left|done].
      * destruct (cs !! k) as [c|]; simpl; [|done]. f_equal. repeat case_decide; set_solver.
  - rewrite Hdead by done. simpl. destruct (IH cs) as [-> Hk]; try done. split; [done|].
    intros k. rewrite Hk. destruct (cs !! k) as [c|] eqn:E; simpl; [|done]. f_equal.
    destruct (decide (k = tx)) as [->|Hne].
    + unfold live, is_closed in Hl. rewrite E in Hl. destruct c as [[] q]; simpl; [done|].
      by rewrite !decide_False by naive_solver.
    + repeat case_decide; set_solver.
Qed.

Definition served (cs cs' : Channels) (txs : list nat) (fs : list WriteFrame) : Prop :=
  ∀ k, cs' !! k =
    (λ c, if decide (k ∈ txs ∧ rx_live c = true) then mkChannel true (queue c ++ fs) else c)
      <$> cs !! k.

Lemma retain_send cs txs f :
  NoDup txs →
  (retain (λ cs tx, send cs tx f) cs txs).2 = filter (live cs) txs ∧
  served cs (retain (λ cs tx, send cs tx f) cs txs).1 txs [f].
Proof. intros Hnd. apply retain_fanout; auto using send_pushed, send_closed. Qed.

Lemma retain_send_all cs txs fs :
  NoDup txs → fs ≠ [] →
  (retain (λ cs tx, send_all cs tx fs) cs txs).2 = filter (live cs) txs ∧
  served cs (retain (λ cs tx, send_all cs tx fs) cs txs).1 txs fs.
Proof.
  intros Hnd Hfs. apply retain_fanout; auto using send_all_live.
  intros cs' tx Hd. destruct fs as [|f fs]; [done|]. simpl. by rewrite send_closed.
Qed.

Lemma served_live cs cs' txs fs tx : served cs cs' txs fs → live cs' tx ↔ live cs tx.
Proof.
  intros Hs. unfold live, is_closed. rewrite (Hs tx).
  destruct (cs !! tx) as [[[] q]|]; simpl; try case_decide; naive_solver.
Qed.

Section node.
Context {P A : Type} {FP : FramePersister P} {FA : FrameAuth A} {HI : HashIter}.
Implicit Types n : SyncNode P A.

(** Every sender the node holds names a channel, and no two the same one. *)
Definition node_wf n : Prop :=
  NoDup (sessions n) ∧ ∀ tx, tx ∈ sessions n → is_Some (channels n !! tx).

Inductive NodeOp :=
| NRegister
| NWrite (now : result Z ()) (op : Op) (entity id : string) (data : list byte)
| NIngest (now : result Z ()) (frames : list WriteFrame)
| NCount
| NRecv (rx : nat)
| NDrop (rx : nat)
| NReclaim (members : list PeerId).

Definition node_step n (o : NodeOp) : SyncNode P A :=
  match o with
  | NRegister => (SyncNode.register_session n).1
  | NWrite now op e i d => (SyncNode.local_write n now op e i d).1
  | NIngest now fs => (SyncNode.ingest n now fs).1
  | NCount => (SyncNode.session_count n).1
  | NRecv rx => (SyncNode.recv n rx).1
  | NDrop rx => SyncNode.drop_receiver n rx
  | NReclaim ms => (SyncNode.reclaim n ms).1
  end.

(** The frames an operation newly records, and what a session takes. *)
Definition accepted n (o : NodeOp) : list WriteFrame :=
  match o with
  | NWrite now op e i d =>
    match (SyncNode.local_write n now op e i d).2 with Ok f => [f] | Err _ => [] end
  | NIngest now fs => (SyncNode.receive_all (state n) (now_millis now) fs).2
  | _ => []
  end.

Definition taken n (rx : nat) (o : NodeOp) : list WriteFrame :=
  match o with
  | NRecv rx' =>
    if bool_decide (rx' = rx) then option_list (SyncNode.recv n rx').2 else []
  | _ => []
  end.

Fixpoint node_run n (ops : list NodeOp) : SyncNode P A :=
  match ops with [] => n | o :: ops => node_run (node_step n o) ops end.
Fixpoint accepted_by n (ops : list NodeOp) : list WriteFrame :=
  match ops with [] => [] | o :: ops => accepted n o ++ accepted_by (node_step n o) ops end.
Fixpoint taken_by n (rx : nat) (ops : list NodeOp) : list WriteFrame :=
  match ops with [] => [] | o :: ops => taken n rx o ++ taken_by (node_step n o) rx ops end.

(** An operation that fans out [fs]: the shape [local_write] and [ingest]
    share. *)
Definition fans_out n n' (fs : list WriteFrame) : Prop :=
  sessions n' = filter (live (channels n)) (sessions n) ∧
  served (channels n) (channels n') (sessions n) fs ∨
  fs = [] ∧ sessions n' = sessions n ∧ channels n' = channels n.

Lemma local_write_fans_out n now op e i d :
  NoDup (sessions n) →
  fans_out n (node_step n (NWrite now op e i d)) (accepted n (NWrite now op e i d)).
Proof.
  intros Hnd. unfold fans_out. simpl. unfold SyncNode.local_write.
  destruct (SyncState.local_write _ _ _ _ _ _) as [s [f|err]]; simpl; [left|by right].
  by apply retain_send.
Qed.

Lemma ingest_fans_out n now fs :
  NoDup (sessions n) → fans_out n (node_step n (NIngest now fs)) (accepted n (NIngest now fs)).
Proof.
  intros Hnd. unfold fans_out. simpl. unfold SyncNode.ingest.
  destruct (SyncNode.receive_all _ _ _) as [s [|f gs]]; simpl; [by right|left].
  by apply (retain_send_all _ _ (f :: gs)).
Qed.

Lemma fans_out_wf n n' fs : node_wf n → fans_out n n' fs → node_wf n'.
Proof.
  intros [Hnd Hd] [[Hs Hc]|(_ & Hs & Hc)]; unfold node_wf; rewrite Hs.
  - split; [by apply NoDup_filter|]. intros tx [_ Htx]%list_elem_of_filter.
    rewrite (Hc tx). apply Hd in Htx as [c ->]. eauto.
  - by rewrite Hc.
Qed.

Lemma node_step_wf n o : node_wf n → node_wf (node_step n o).
Proof.
  intros Hwf. pose proof Hwf as [Hnd Hd]. destruct o.
  - unfold node_step, SyncNode.register_session, node_wf; simpl.
    pose proof (is_fresh (dom (channels n))) as Hf.
    set (tx := fresh (dom (channels n))) in *. apply not_elem_of_dom in Hf.
    split.
    + apply NoDup_app. split_and!; [done| |apply NoDup_singleton].
      intros x Hx ->%list_elem_of_singleton. apply Hd in Hx as [? ?]. congruence.
    + intros x [Hx| ->%list_elem_of_singleton]%elem_of_app; rewrite lookup_insert; case_decide;
        (done || eauto).
  - eapply fans_out_wf; [done|by apply local_write_fans_out].
  - eapply fans_out_wf; [done|by apply ingest_fans_out].
  - unfold node_wf; simpl. split; [by apply NoDup_filter|].
    intros tx [_ Htx]%list_elem_of_filter. auto.
  - simpl. unfold SyncNode.recv. destruct (channels n !! rx) as [[l [|f q]]|]; try done.
    split; [done|]. simpl. intros tx Htx. rewrite lookup_insert. case_decide; eauto.
  - split; [done|]. simpl. intros tx Htx. rewrite lookup_alter.
    case_decide; [subst tx|]; destruct (Hd _ Htx) as [c ->]; eauto.
  - done.
Qed.

(** One step as a live session sees it. *)
Definition attached n (rx : nat) (q : list WriteFrame) : Prop :=
  rx ∈ sessions n ∧ channels n !! rx = Some (mkChannel true q).

Lemma fans_out_attached n n' fs rx q :
  attached n rx q → fans_out n n' fs → attached n' rx (q ++ fs).
Proof.
  unfold attached. intros [Hin Hq] [[Hs Hc]|(-> & -> & ->)]; [|by rewrite app_nil_r].
  rewrite Hs, (Hc rx), Hq. simpl. rewrite decide_True by done. split; [|done].
  apply list_elem_of_filter. split; [|done]. unfold live, is_closed. by rewrite Hq.
Qed.

Lemma node_step_attached n o rx q :
  node_wf n → attached n rx q → o ≠ NDrop rx →
  ∃ q', attached (node_step n o) rx q' ∧ q ++ accepted n o = taken n rx o ++ q'.
Proof.
  intros [Hnd Hd] Ha Hne. pose proof Ha as [Hin Hq]. destruct o; simpl.
  - exists q. rewrite app_nil_r. split; [|done]. split; simpl; [apply elem_of_app; by left|].
    pose proof (is_fresh (dom (channels n))) as Hf%not_elem_of_dom.
    rewrite lookup_insert. case_decide; [congruence|done].
  - eexists. split; [|done]. eapply fans_out_attached; [done|by apply local_write_fans_out].
  - eexists. split; [|done]. eapply fans_out_attached; [done|by apply ingest_fans_out].
  - exists q. rewrite app_nil_r. split; [|done]. split; [|done]. apply list_elem_of_filter.
    split; [|done]. unfold is_closed. by rewrite Hq.
  - rewrite app_nil_r. unfold SyncNode.recv. case_bool_decide as E; [subst rx0; rewrite Hq|].
    + destruct q as [|f q]; [exists []; done|]. exists q. split; [|done].
      split; [done|]. simpl. by rewrite lookup_insert_eq.
    + exists q. split; [|done]. destruct (channels n !! rx0) as [[l [|f q']]|]; try done.
      split; [done|]. simpl. by rewrite lookup_insert_ne.
  - exists q. rewrite app_nil_r. split; [|done]. split; [done|]. simpl.
    rewrite lookup_alter_ne; [done|]. congruence.
  - exists q. by rewrite app_nil_r.
Qed.

Lemma node_run_attached ops rx : ∀ n q,
  node_wf n → attached n rx q → NDrop rx ∉ ops →
  ∃ q', attached (node_run n ops) rx q' ∧ q ++ accepted_by n ops = taken_by n rx ops ++ q'.
Proof.
  induction ops as [|o ops IH]; intros n q Hwf Ha Hnd; simpl.
  { exists q. by rewrite app_nil_r. }
  apply not_elem_of_cons in Hnd as [Ho Hnd].
  destruct (node_step_attached n o rx q) as (q1 & Ha1 & E1); try done.
  destruct (IH (node_step n o) q1) as (q' & Ha' & E'); [by apply node_step_wf|done..|].
  exists q'. split; [done|]. rewrite app_assoc, E1, <-!app_assoc. by f_equal.
Qed.

(** Fan-out. From the moment a session is registered until its receiver
    goes away, what it has taken from its channel followed by what is still
    queued is exactly the frames the node newly accepted since, local writes
    and ingested frames, each once and in the order they were accepted,
    whatever other sessions come and go. *)
Theorem session_stream n ops :
  node_wf n →
  let '(n0, rx) := SyncNode.register_session n in
  NDrop rx ∉ ops →
  ∃ q, channels (node_run n0 ops) !! rx = Some (mkChannel true q) ∧
    rx ∈ sessions (node_run n0 ops) ∧
    accepted_by n0 ops = taken_by n0 rx ops ++ q.
Proof.
  intros Hwf. destruct (SyncNode.register_session n) as [n0 rx] eqn:E. intros Hnd.
  assert (Hwf0 : node_wf n0) by (replace n0 with (node_step n NRegister) by (unfold node_step; by rewrite E);
    by apply node_step_wf).
  destruct (node_run_attached ops rx n0 []) as (q & [Hin Hq] & Hacc); try done; [|by exists q].
  unfold SyncNode.register_session in E. apply pair_inv in E as [<- <-]. split; simpl.
  - apply elem_of_app. right. left.
  - by rewrite lookup_insert_eq.
Qed.
End node.

(** Two sessions: the first takes a frame, the second goes away before the
    second write, and the first has both writes in order. *)
Definition ex_node : SyncNode NoSink NoSink :=
  (SyncNode.register_session (SyncNode.new (ex_peer x01))).1.

Definition ex_node_ops : list (@NodeOp) :=
  [NRegister; NWrite (Ok 100%Z) Insert "task" "t1" [x2a]; NRecv 1; NDrop 2;
   NWrite (Ok 90%Z) Update "task" "t1" [x2b]; NCount].

Lemma session_stream_witness :
  let r := SyncNode.register_session ex_node in
  r.2 = 1 ∧ length (accepted_by r.1 ex_node_ops) = 2 ∧ length (taken_by r.1 r.2 ex_node_ops) = 1 ∧
  ∃ q, length q = 1 ∧ accepted_by r.1 ex_node_ops = taken_by r.1 r.2 ex_node_ops ++ q.
Proof.
  assert (Hwf : node_wf ex_node).
  { split; [apply NoDup_singleton|]. intros tx ->%list_elem_of_singleton. vm_compute. eauto. }
  pose proof (session_stream ex_node ex_node_ops Hwf) as Hs.
  assert (Hne : NDrop 1 ∉ ex_node_ops) by (unfold ex_node_ops; rewrite !elem_of_cons, elem_of_nil; intuition discriminate).
  intros r. destruct r as [n0 rx] eqn:E. unfold r in E. rewrite E in Hs.
  assert (rx = 1) as -> by (change rx with ((n0, rx).2); rewrite <-E; vm_compute; reflexivity).
  destruct (Hs Hne) as (q & _ & _ & Hq). simpl.
  assert (En : n0 = (SyncNode.register_session ex_node).1) by (by rewrite E).
  assert (H2 : length (accepted_by n0 ex_node_ops) = 2) by (rewrite En; vm_compute; reflexivity).
  assert (H1 : length (taken_by n0 1 ex_node_ops) = 1) by (rewrite En; vm_compute; reflexivity).
  split_and!; try done. exists q. split; [|done]. rewrite Hq, length_app in H2. lia.
Defined.
