(* ===== verification/Persistence.v ===== *)
(** * The durable replication log

    [crates/stitch-p2p/src/persistence.rs]: frames are stored under
    [origin || seq] in an ordered keyspace and read back in key order. The
    key-value engine (fjall) is an interface: what it stores, what it has
    made durable, and what a process that opens the database again, after a
    clean exit or a crash, may find. *)
From S2P Require Import Prelude Hlc Lww Wire Replog SyncState Node.

(** ** The key-value engine *)

Class Keyspace (K : Type) := {
  ks_insert : K → list byte → list byte → K * result () ();
  ks_persist : K → K * result () ();
  ks_iter : K → list (result (list byte * list byte) ());
}.

(** What the log relies on. [contents] is what a reader of the open keyspace
    finds; [durable] are bindings that survive a crash; [wrote] is every pair
    ever handed to [insert]; [reopened k k'] says that [k'] may be found by
    opening the database that [k] was last. A failed [insert] may or may not
    have stored its pair. *)
Class KeyspaceLaws (K : Type) {KS : Keyspace K} := {
  contents : K → gmap (list byte) (list byte);
  durable : K → gmap (list byte) (list byte);
  wrote : K → list byte → list byte → Prop;
  reopened : K → K → Prop;
  durable_contents : ∀ k, durable k ⊆ contents k;
  insert_contents : ∀ k key v k', ks_insert k key v = (k', Ok ()) →
    contents k' = <[key := v]> (contents k);
  insert_durable : ∀ k key v, delete key (durable k) ⊆ durable (ks_insert k key v).1;
  insert_wrote : ∀ k key v key' v', wrote (ks_insert k key v).1 key' v' →
    wrote k key' v' ∨ key' = key ∧ v' = v;
  persist_contents : ∀ k, contents (ks_persist k).1 = contents k;
  persist_durable : ∀ k, durable k ⊆ durable (ks_persist k).1;
  persist_synced : ∀ k k', ks_persist k = (k', Ok ()) → durable k' = contents k';
  persist_wrote : ∀ k key v, wrote (ks_persist k).1 key v → wrote k key v;
  iter_sorted : ∀ k entries, ks_iter k = Ok <$> entries →
    entries ≡ₚ map_to_list (contents k) ∧ StronglySorted (λ a b, a.1 <ₒ b.1) entries;
  reopened_durable : ∀ k k', reopened k k' → durable k ⊆ contents k';
  reopened_synced : ∀ k k', reopened k k' → durable k' = contents k';
  reopened_contents : ∀ k k' key v, reopened k k' → contents k' !! key = Some v → wrote k key v;
  reopened_wrote : ∀ k k' key v, reopened k k' → wrote k' key v → wrote k key v;
}.

(** ** The log *)

Definition frame_key (frame : WriteFrame) : list byte :=
  peer (f_stamp frame) ++ to_be_bytes 8 (f_seq frame).

Record FjallLog (K : Type) := mkFjall { frames : K }.
Arguments mkFjall {K}.
Arguments frames {K}.

Module FjallLog.
Section ops.
Context {K : Type} {KS : Keyspace K}.

Definition append (l : FjallLog K) (frame : WriteFrame) : FjallLog K * result () IoError :=
  match WriteFrame.encode frame with
  | Err _ => (l, Err InvalidInput)
  | Ok bytes =>
    match ks_insert (frames l) (frame_key frame) bytes with
    | (k, Err _) => (mkFjall k, Err IoOther)
    | (k, Ok _) =>
      match ks_persist k with
      | (k, Err _) => (mkFjall k, Err IoOther)
      | (k, Ok _) => (mkFjall k, Ok ())
      end
    end
  end.

Definition load_one (guard : result (list byte * list byte) ()) : result WriteFrame IoError :=
  let? kv := map_err (λ _, IoOther) guard in
  map_err (λ _, InvalidData) (WriteFrame.decode kv.2).

Definition load (l : FjallLog K) : result (list WriteFrame) IoError :=
  collect (load_one <$> ks_iter (frames l)).
End ops.
End FjallLog.

#[export] Instance fjall_persister {K} {KS : Keyspace K} : FramePersister (FjallLog K) :=
  {| append := FjallLog.append; load := FjallLog.load |}.

(** ** Keys sort like sequence numbers *)

Lemma list_cmp_app_same `{RustOrd A} (p l k : list A) : list_cmp (p ++ l) (p ++ k) = list_cmp l k.
Proof. induction p as [|x p IH]; simpl; [done|]. by rewrite cmp_refl. Qed.

Lemma list_cmp_snoc `{RustOrd A} (l k : list A) x y :
  length l = length k → list_cmp (l ++ [x]) (k ++ [y]) = then_with (list_cmp l k) (cmp x y).
Proof.
  revert k. induction l as [|a l IH]; intros [|b k] Hl; simplify_eq/=.
  - by destruct (cmp x y).
  - rewrite IH by done. by destruct (cmp a b).
Qed.

Lemma cmp_be_bytes n : ∀ a b,
  (0 ≤ a < 256 ^ Z.of_nat n)%Z → (0 ≤ b < 256 ^ Z.of_nat n)%Z →
  list_cmp (to_be_bytes n a) (to_be_bytes n b) = (a ?= b)%Z.
Proof.
  induction n as [|n IH]; intros a b Ha Hb.
  - replace a with 0%Z by (simpl in *; lia). by replace b with 0%Z by (simpl in *; lia).
  - rewrite Nat2Z.inj_succ, Z.pow_succ_r in Ha, Hb by lia.
    change (to_be_bytes (S n)) with (λ v, to_be_bytes n (v / 256) ++ [byte_of v]). cbv beta.
    rewrite list_cmp_snoc by (by rewrite !length_to_be_bytes).
    rewrite IH by (split; [apply Z.div_pos|apply Z.div_lt_upper_bound]; lia).
    unfold cmp; simpl. unfold cmp; simpl. rewrite !byte_val_of.
    pose proof (Z.div_mod a 256 ltac:(done)). pose proof (Z.div_mod b 256 ltac:(done)).
    pose proof (Z.mod_pos_bound a 256 ltac:(done)). pose proof (Z.mod_pos_bound b 256 ltac:(done)).
    destruct (Z.compare_spec (a / 256) (b / 256)); simpl; symmetry;
      [destruct (Z.compare_spec (a mod 256) (b mod 256))|..];
      rewrite ?Z.compare_eq_iff, ?Z.compare_lt_iff, ?Z.compare_gt_iff; lia.
Qed.

Lemma u64_be (z : Z) : is_u64 z → (0 ≤ z < 256 ^ Z.of_nat 8)%Z.
Proof. unfold is_u64, u64_max. change (256 ^ Z.of_nat 8)%Z with 18446744073709551616%Z. lia. Qed.

Lemma frame_key_lt f g :
  frame_ok f → frame_ok g → origin_of f = origin_of g →
  frame_key f <ₒ frame_key g ↔ (f_seq f < f_seq g)%Z.
Proof.
  intros Hf Hg Ho. unfold ord_lt, frame_key, cmp; simpl. unfold origin_of in Ho. rewrite Ho.
  rewrite list_cmp_app_same, cmp_be_bytes by (apply u64_be, fok_seq; done).
  apply Z.compare_lt_iff.
Qed.

Lemma frame_key_inj f g :
  frame_ok f → frame_ok g → frame_key f = frame_key g ↔ origin_of f = origin_of g ∧ f_seq f = f_seq g.
Proof.
  intros Hf Hg. unfold frame_key, origin_of. split; [|by intros [-> ->]].
  intros [Hp Hs]%app_inj_1; [|by rewrite (fok_peer f), (fok_peer g)]. split; [done|].
  rewrite <-(from_to_be_bytes 8 (f_seq f)), <-(from_to_be_bytes 8 (f_seq g)), Hs;
    auto using u64_be, fok_seq.
Qed.

(** ** What the disk holds *)

Section disk.
Context {K : Type} {KS : Keyspace K} {KL : KeyspaceLaws K}.

(** [f] is stored in [m] under its key. *)
Definition stored (m : gmap (list byte) (list byte)) (f : WriteFrame) : Prop :=
  frame_ok f ∧ ∃ bs, WriteFrame.encode f = Ok bs ∧ m !! frame_key f = Some bs.

(** Every accepted frame is durable; whatever was ever written is a frame of
    its key, at most one past its origin's accepted frames. *)
Record on_disk (k : K) (H : History) : Prop := {
  od_durable : ∀ o f, f ∈ H o → stored (durable k) f;
  od_wrote : ∀ key v, wrote k key v → ∃ f, frame_ok f ∧ key = frame_key f ∧
    WriteFrame.encode f = Ok v ∧ (1 ≤ f_seq f ≤ Z.of_nat (S (length (H (origin_of f)))))%Z;
}.

Lemma stored_weaken m m' f : m ⊆ m' → stored m f → stored m' f.
Proof. intros Hs (Hok & bs & He & Hl). split; [done|]. exists bs. eauto using lookup_weaken. Qed.

Lemma stored_inj m f g :
  stored m f → stored m g → origin_of f = origin_of g → f_seq f = f_seq g → f = g.
Proof.
  intros (Hf & bs & Ef & Lf) (Hg & cs & Eg & Lg) Ho Hs.
  assert (Hk : frame_key f = frame_key g) by (by apply frame_key_inj).
  rewrite Hk, Lg in Lf. simplify_eq. eapply (encode_prefix_inj f g _ _ []); eauto.
  by rewrite app_nil_r.
Qed.

Lemma history_seq H o f :
  history_ok H → f ∈ H o → origin_of f = o ∧ (1 ≤ f_seq f ≤ Z.of_nat (length (H o)))%Z.
Proof.
  intros Hok (i & Hi)%list_elem_of_lookup. destruct (Hok _ _ _ Hi) as [-> ->].
  apply lookup_lt_Some in Hi. split; [done|lia].
Qed.

Lemma on_disk_push k H f :
  on_disk k H → stored (durable k) f → on_disk k (history_push H f).
Proof.
  intros [Hd Hw] Hf. split.
  - intros o g [Hg|[-> _]]%elem_of_history_push; eauto.
  - intros key v (g & ? & ? & ? & ?)%Hw. exists g. do 3 (split; [done|]). split; [lia|].
    unfold history_push. case_bool_decide; rewrite ?length_app; simpl; lia.
Qed.

(** [append] of the next frame of its origin: on success the frame is
    durable, on failure nothing accepted is lost. *)
Lemma append_on_disk l H f l' r :
  history_ok H → on_disk (frames l) H → frame_ok f →
  f_seq f = Z.of_nat (S (length (H (origin_of f)))) → FjallLog.append l f = (l', r) →
  on_disk (frames l') H ∧ (r = Ok () → on_disk (frames l') (history_push H f)).
Proof.
  intros Hh Hd Hf Hs. unfold FjallLog.append.
  destruct (WriteFrame.encode f) as [bs|] eqn:Ef; [|by intros [<- <-]%pair_inv].
  pose proof (insert_durable (frames l) (frame_key f) bs) as Hid.
  pose proof (insert_wrote (frames l) (frame_key f) bs) as Hiw.
  pose proof (insert_contents (frames l) (frame_key f) bs) as Hic.
  destruct (ks_insert _ _ _) as [k1 r1]. simpl in *.
  assert (H1 : on_disk k1 H).
  { destruct Hd as [Hd Hw]. split.
    - intros o g Hg. destruct (Hd o g Hg) as (Hgok & cs & Eg & Lg). split; [done|]. exists cs.
      split; [done|]. eapply lookup_weaken; [|exact Hid]. rewrite lookup_delete_ne; [done|].
      destruct (history_seq H o g Hh Hg) as [Ho Hb]. intros [Ho' Hs']%frame_key_inj; try done.
      rewrite Ho', Ho in Hs. lia.
    - intros key v [?|[-> ->]]%Hiw; [by apply Hw|]. exists f. split_and!; try done; lia. }
  destruct r1 as [[]|[]]; [|by intros [<- <-]%pair_inv].
  pose proof (persist_durable k1) as Hpd. pose proof (persist_wrote k1) as Hpw.
  pose proof (persist_contents k1) as Hpc. pose proof (persist_synced k1) as Hps.
  destruct (ks_persist k1) as [k2 r2]. simpl in *.
  assert (H2 : on_disk k2 H).
  { destruct H1 as [Hd1 Hw1]. split; [|by eauto]. intros o g Hg. eapply stored_weaken; eauto. }
  destruct r2 as [[]|[]]; intros [<- <-]%pair_inv; simpl; (split; [done|]); [|done].
  intros _. apply on_disk_push; [done|]. split; [done|]. exists bs. split; [done|].
  rewrite (Hps k2) by done. rewrite Hpc, (Hic k1) by done. apply lookup_insert_eq.
Qed.

(** What loading a reopened log yields. *)
Lemma load_frames k k' H fs :
  on_disk k H → reopened k k' → FjallLog.load (mkFjall k') = Ok fs →
  (∀ f, f ∈ fs ↔ stored (contents k') f) ∧ StronglySorted (λ f g, frame_key f <ₒ frame_key g) fs.
Proof.
  intros Hd Hr. unfold FjallLog.load; simpl. rewrite collect_Ok. intros Hfs.
  assert (∃ es, ks_iter k' = Ok <$> es ∧ Forall2 (λ kv f, WriteFrame.decode kv.2 = Ok f) es fs)
    as (es & Hes & Hdec).
  { revert fs Hfs. induction (ks_iter k') as [|r rs IH]; intros [|f fs]; simpl; try done.
    - intros _. by exists [].
    - intros [= Hf Hrs]. destruct (IH fs Hrs) as (es & -> & Hes). unfold FjallLog.load_one in Hf.
      destruct r as [kv|]; simpl in Hf; [|done]. exists (kv :: es). split; [done|].
      constructor; [|done]. by destruct (WriteFrame.decode kv.2); simplify_eq/=. }
  destruct (iter_sorted k' es Hes) as [Hperm Hsort].
  assert (Hkey : Forall2 (λ kv f, frame_ok f ∧ kv.1 = frame_key f ∧ WriteFrame.encode f = Ok kv.2) es fs).
  { apply Forall2_same_length_lookup. split; [by eapply Forall2_length|].
    intros i [key v] f Hi Hf. pose proof (Forall2_lookup_lr _ _ _ _ _ _ Hdec Hi Hf) as Hv. simpl in *.
    assert (Hc : contents k' !! key = Some v).
    { apply elem_of_map_to_list. rewrite <-Hperm. by eapply list_elem_of_lookup_2. }
    apply (reopened_contents k k') in Hc; [|done].
    destruct (od_wrote k H Hd key v Hc) as (g & Hg & -> & Eg & _).
    rewrite <-(app_nil_r v), (decode_encode g v []) in Hv by done. by simplify_eq. }
  split.
  - intros f. split.
    + intros (i & Hi)%list_elem_of_lookup.
      destruct (Forall2_lookup_r _ _ _ _ _ Hkey Hi) as ([key v] & He & Hok & Hk & Ef).
      simpl in Hk, Ef. subst key. split; [done|]. exists v. split; [done|]. apply elem_of_map_to_list. rewrite <-Hperm.
      by eapply list_elem_of_lookup_2.
    + intros (Hok & bs & Ef & Hl). apply elem_of_map_to_list in Hl. rewrite <-Hperm in Hl.
      apply list_elem_of_lookup in Hl as (i & Hi).
      destruct (Forall2_lookup_l _ _ _ _ _ Hdec Hi) as (g & Hg & Eg). simpl in Eg.
      rewrite <-(app_nil_r bs), (decode_encode f bs []) in Eg by done. simplify_eq.
      by eapply list_elem_of_lookup_2.
  - clear Hfs Hdec Hes Hperm. induction Hkey as [|[key v] f es fs (_ & Hk & _) Hkey IH]; [constructor|].
    inversion_clear Hsort as [|? ? Hs Hall]. constructor; [by apply IH|].
    apply Forall_forall. intros g (i & Hi)%list_elem_of_lookup.
    destruct (Forall2_lookup_r _ _ _ _ _ Hkey Hi) as ([key' v'] & He & _ & Hk' & _).
    simpl in *. rewrite <-Hk, <-Hk'. rewrite Forall_forall in Hall.
    by apply (Hall (key', v')), list_elem_of_lookup_2 with i.
Qed.

Definition seq_lt (f g : WriteFrame) : Prop := (f_seq f < f_seq g)%Z.

#[local] Instance seq_lt_antisymm : AntiSymm (=) seq_lt.
Proof. intros f g. unfold seq_lt. lia. Qed.

Lemma seq_lt_NoDup fs : StronglySorted seq_lt fs → NoDup fs.
Proof.
  induction 1 as [|f fs _ IH Hall]; constructor; [|done]. intros Hin.
  rewrite Forall_forall in Hall. apply Hall in Hin. unfold seq_lt in Hin. lia.
Qed.

Lemma numbered_sorted fs n :
  (∀ i f, fs !! i = Some f → f_seq f = Z.of_nat (n + S i)) → StronglySorted seq_lt fs.
Proof.
  revert n. induction fs as [|f fs IH]; intros n Hn; [constructor|]. constructor.
  - apply (IH (S n)). intros i g Hg. rewrite (Hn (S i) g Hg). lia.
  - apply Forall_forall. intros g (i & Hi)%list_elem_of_lookup. unfold seq_lt.
    rewrite (Hn 0 f), (Hn (S i) g) by done. lia.
Qed.

(** Frames of one origin, sorted by key, are sorted by sequence number. *)
Lemma from_origin_sorted fs o :
  Forall frame_ok fs → StronglySorted (λ f g, frame_key f <ₒ frame_key g) fs →
  StronglySorted seq_lt (from_origin o fs).
Proof.
  unfold from_origin. induction fs as [|f fs IH]; [constructor|].
  intros [Hf Hfs]%Forall_cons [Hs Hall]%StronglySorted_inv. rewrite filter_cons.
  case_decide as Ho; [|by apply IH]. constructor; [by apply IH|].
  apply Forall_forall. intros g [Hg Hin]%list_elem_of_filter. rewrite Forall_forall in Hfs, Hall.
  apply frame_key_lt; [done|by apply Hfs|congruence|by apply Hall].
Qed.

(** A reopened log replays every accepted frame in order, followed for each
    origin by at most one frame that was written but not accepted. *)
Lemma load_history k k' H fs o :
  history_ok H → on_disk k H → reopened k k' → FjallLog.load (mkFjall k') = Ok fs →
  from_origin o fs =
    H o ++ filter (λ f, f_seq f = Z.of_nat (S (length (H o)))) (from_origin o fs).
Proof.
  intros Hh Hd Hr Hl. destruct (load_frames k k' H fs Hd Hr Hl) as [Hin Hsort].
  assert (Hok : Forall frame_ok fs).
  { apply Forall_forall. intros f [Hf _]%Hin. done. }
  pose proof (from_origin_sorted fs o Hok Hsort) as Hs.
  set (L := filter _ _).
  assert (HL : StronglySorted seq_lt L) by (by apply StronglySorted_filter').
  assert (HH : StronglySorted seq_lt (H o)).
  { apply (numbered_sorted _ 0). intros i f Hi. by destruct (Hh _ _ _ Hi). }
  assert (Hcat : StronglySorted seq_lt (H o ++ L)).
  { apply StronglySorted_app_2; [|done..]. intros f g Hf [Hg _]%list_elem_of_filter.
    destruct (history_seq H o f Hh Hf). unfold seq_lt. lia. }
  assert (Hsto : ∀ f, f ∈ H o → stored (contents k') f).
  { intros f Hf. eapply stored_weaken; [by apply (reopened_durable k)|]. by apply (od_durable k H Hd o). }
  apply (StronglySorted_unique seq_lt); [done..|].
  apply NoDup_Permutation; [by apply seq_lt_NoDup..|]. intros f. rewrite elem_of_app.
  unfold L. rewrite list_elem_of_filter. unfold from_origin. rewrite list_elem_of_filter, Hin. split.
  - intros [Ho Hf]. pose proof Hf as (Hfok & bs & Ef & Lf).
    destruct (od_wrote k H Hd _ _ (reopened_contents _ _ _ _ Hr Lf)) as (g & Hg & Hk & _ & Hb).
    apply frame_key_inj in Hk as [Ho' Hs']; [|done..]. rewrite <-Ho', <-Hs', Ho in Hb.
    destruct (decide (f_seq f = Z.of_nat (S (length (H o))))) as [|Hne]; [by right|left].
    destruct (lookup_lt_is_Some_2 (H o) (Z.to_nat (f_seq f) - 1)) as [h Hi]; [lia|].
    destruct (Hh _ _ _ Hi) as [Hhs Hho]. apply list_elem_of_lookup_2 in Hi as Hh'.
    rewrite (stored_inj (contents k') f h); auto; [congruence|lia].
  - intros [Hf|(? & ? & ?)]; [|done]. destruct (history_seq H o f Hh Hf). auto.
Qed.

Lemma load_continues k k' H fs :
  history_ok H → on_disk k H → reopened k k' → FjallLog.load (mkFjall k') = Ok fs →
  continues empty_history fs.
Proof.
  intros Hh Hd Hr Hl o i f. rewrite (load_history k k' H fs o) by done. set (L := filter _ _).
  rewrite lookup_app_Some. intros [Hi|[Hge Hi]]; [by destruct (Hh _ _ _ Hi) as [-> _]|].
  destruct (load_frames k k' H fs Hd Hr Hl) as [Hin Hsort].
  assert (HL : StronglySorted seq_lt L).
  { apply StronglySorted_filter', from_origin_sorted; [|done].
    apply Forall_forall. intros g [Hg _]%Hin. done. }
  assert (Hall : ∀ g, g ∈ L → f_seq g = Z.of_nat (S (length (H o)))) by (by intros g [? _]%list_elem_of_filter).
  apply list_elem_of_lookup_2 in Hi as Hf. rewrite (Hall f Hf). simpl.
  destruct L as [|a [|b L]]; [by rewrite lookup_nil in Hi| |].
  - apply lookup_lt_Some in Hi. simpl in Hi. lia.
  - apply StronglySorted_inv in HL as [_ [Hab _]%Forall_cons]. unfold seq_lt in Hab.
    rewrite (Hall a), (Hall b) in Hab by (repeat constructor). lia.
Qed.

(** Everything ever written was accepted. *)
Definition clean_disk (k : K) (H : History) : Prop :=
  ∀ key v, wrote k key v → ∃ o f, f ∈ H o ∧ frame_ok f ∧ key = frame_key f.

Lemma append_clean l H f l' :
  frame_ok f → clean_disk (frames l) H → FjallLog.append l f = (l', Ok ()) →
  clean_disk (frames l') (history_push H f).
Proof.
  intros Hf Hc. unfold FjallLog.append. destruct (WriteFrame.encode f) as [bs|]; [|done].
  pose proof (insert_wrote (frames l) (frame_key f) bs) as Hiw.
  destruct (ks_insert _ _ _) as [k1 [[]|[]]]; [|done]. simpl in Hiw.
  pose proof (persist_wrote k1) as Hpw. destruct (ks_persist k1) as [k2 [[]|[]]]; [|done].
  intros [<- _]%pair_inv. intros key v [Hw|[-> ->]]%Hpw%Hiw.
  - apply Hc in Hw as (o & g & Hg & ? & ?). exists o, g.
    split_and!; try done. apply elem_of_history_push. by left.
  - exists (origin_of f), f. split_and!; try done. apply elem_of_history_push. by right.
Qed.

Lemma load_clean k k' H fs o :
  history_ok H → on_disk k H → clean_disk k H → reopened k k' →
  FjallLog.load (mkFjall k') = Ok fs → from_origin o fs = H o.
Proof.
  intros Hh Hd Hc Hr Hl. rewrite (load_history k k' H fs o), list_filter_none, app_nil_r; try done.
  intros f Hf Hs. unfold from_origin in Hf. apply list_elem_of_filter in Hf as [Ho Hf].
  destruct (load_frames k k' H fs Hd Hr Hl) as [Hin _].
  apply Hin in Hf as (Hok & bs & _ & Hb). apply (reopened_contents k) in Hb; [|done].
  apply Hc in Hb as (o' & g & Hg & Hgok & [Hog Hsg]%frame_key_inj); [|done..].
  apply history_seq in Hg as [Ho' Hb]; [|done]. rewrite <-Ho', <-Hog, Ho in Hb. lia.
Qed.

Lemma reopened_on_disk k k' H fs :
  history_ok H → on_disk k H → reopened k k' → FjallLog.load (mkFjall k') = Ok fs →
  on_disk k' (λ o, from_origin o fs).
Proof.
  intros Hh Hd Hr Hl. destruct (load_frames k k' H fs Hd Hr Hl) as [Hin _]. split.
  - intros o f [_ Hf]%list_elem_of_filter. rewrite (reopened_synced k k') by done. by apply Hin.
  - intros key v Hw%(reopened_wrote k k'); [|done].
    destruct (od_wrote k H Hd key v Hw) as (f & ? & ? & ? & ? & ?). exists f.
    do 3 (split; [done|]). split; [done|]. rewrite (load_history k k' H fs) by done.
    rewrite length_app. lia.
Qed.
End disk.

(** ** A device through crashes and restarts *)

Section device.
Context {K A : Type} {KS : Keyspace K} {KL : KeyspaceLaws K} {FA : FrameAuth A} {HI : HashIter}.

(** A device: its state, the frames it acknowledged (accepted local writes
    and appended remote frames) in order, and whether its disk has so far
    refused nothing. *)
Record Device := mkDevice {
  dev_state : SyncState (FjallLog K) A;
  acked : list WriteFrame;
  clean : bool;
}.

(** [Store::open] and [Store::open_with_identity]: the signer is attached
    after the replay. *)
Definition restart (s : SyncState (FjallLog K) A) (l : FjallLog K)
    : result (SyncState (FjallLog K) A) IoError :=
  let? n := SyncNode.with_persister (self_id s) l in
  Ok (match auth s with Some a => SyncState.set_auth (state n) a | None => state n end).

(** The frames offered are values of the Rust types ([frame_ok]); a device
    may be restarted at any point, on any state the engine may recover. *)
Inductive device_step : Device → Device → Prop :=
| dev_write s ack c w op e i d s' r :
    frame_ok (built s w op e i d) → SyncState.local_write s w op e i d = (s', r) →
    device_step (mkDevice s ack c)
      (mkDevice s' (match r with Ok f => ack ++ [f] | Err _ => ack end)
                   (match r with Err (PersistErr _) => false | _ => c end))
| dev_receive s ack c f w s' out :
    frame_ok f → SyncState.receive s f w = (s', out) →
    device_step (mkDevice s ack c)
      (mkDevice s' (if bool_decide (out = Appended) then ack ++ [f] else ack)
                   (if bool_decide (out = Unpersisted) then false else c))
| dev_collect s ack c e i :
    device_step (mkDevice s ack c) (mkDevice (SyncState.collect_tombstone s e i).1 ack c)
| dev_note s ack c p cs :
    device_step (mkDevice s ack c) (mkDevice (SyncState.note_peer_cursors s p cs) ack c)
| dev_reclaim s ack c ms :
    device_step (mkDevice s ack c) (mkDevice (SyncState.reclaim s ms).1 ack c)
| dev_restart s ack c k k' s' :
    persister s = Some (mkFjall k) → reopened k k' → restart s (mkFjall k') = Ok s' →
    device_step (mkDevice s ack c) (mkDevice s' ack c).

(** A device that opened an empty database. *)
Definition device_initial (d : Device) : Prop :=
  ∃ p k, d = mkDevice (SyncState.set_persister (SyncState.new p) (mkFjall k)) [] true ∧
    ∀ key v, ¬ wrote k key v.

Record device_inv (d : Device) (H : History) : Prop := {
  di_data : data_models (dev_state d) H;
  di_disk : ∃ l, persister (dev_state d) = Some l ∧ on_disk (frames l) H ∧
    (clean d = true → clean_disk (frames l) H);
  di_acked : ∀ f, f ∈ acked d → f ∈ H (origin_of f);
  di_clean : clean d = true → ∀ o, H o = from_origin o (acked d);
}.

Lemma device_deliver s ack c H f l l' r s' :
  device_inv (mkDevice s ack c) H → persister s = Some l → frame_ok f →
  f_seq f = Z.of_nat (S (length (H (origin_of f)))) → FjallLog.append l f = (l', r) →
  persister s' = Some l' →
  match r with
  | Err _ => log s' = log s → applier s' = applier s → device_inv (mkDevice s' ack false) H
  | Ok _ => log s' = (ReplLog.record (log s) f).1 →
      applier s' = (Applier.merge (applier s) (WriteFrame.into_stamped f)).1 →
      device_inv (mkDevice s' (ack ++ [f]) c) (history_push H f)
  end.
Proof.
  intros [Hm (l0 & Hl0 & Hd & Hcd) Hack Hcl] Hl Hf Hs Ha Hp. simpl in *.
  assert (l0 = l) as -> by congruence.
  destruct (append_on_disk l H f l' r) as [Hd1 Hd2]; [apply Hm|done..|].
  destruct r as [[]|err]; intros El Ea.
  - split; simpl.
    + by apply (deliver_data s).
    + exists l'. split_and!; [done|by apply Hd2|]. intros Hc. apply (append_clean l); auto.
    + intros g [Hg| ->%list_elem_of_singleton]%elem_of_app; apply elem_of_history_push; auto.
    + intros Hc o. pose proof (history_push_from H f [] o) as Hpf. rewrite app_nil_r in Hpf.
      rewrite Hpf, (Hcl Hc o). unfold from_origin. by rewrite filter_app.
  - split; simpl; try done; [by eapply data_models_ext|]. by exists l'.
Qed.

Lemma device_same s s' ack c H :
  device_inv (mkDevice s ack c) H → log s' = log s → applier s' = applier s →
  persister s' = persister s → device_inv (mkDevice s' ack c) H.
Proof.
  intros [Hm (l & Hl & Hd) Hack Hcl] El Ea Ep. split; simpl in *; try done.
  - by eapply data_models_ext.
  - exists l. by rewrite Ep.
Qed.

Lemma device_write_inv s ack c w op e i d s' r H :
  device_inv (mkDevice s ack c) H → frame_ok (built s w op e i d) →
  SyncState.local_write s w op e i d = (s', r) →
  ∃ H', device_inv (mkDevice s' (match r with Ok f => ack ++ [f] | Err _ => ack end)
                   (match r with Err (PersistErr _) => false | _ => c end)) H'.
Proof.
  intros Hi Hf. rewrite local_write_cases.
  destruct (check_lengths e i d) as [[]|err]; [|intros [<- <-]%pair_inv; by exists H].
  pose proof Hi as [Hm (l & Hl & _) _ _]. simpl in Hl. unfold SyncState.persist. simpl. rewrite Hl.
  simpl. set (f := built s w op e i d) in *.
  assert (Hs : f_seq f = Z.of_nat (S (length (H (origin_of f))))).
  { unfold origin_of. destruct (built_fields s w op e i d) as (Hst & Hsq & _). fold f in Hst, Hsq.
    rewrite Hst, Hsq. unfold ReplLog.next_seq. rewrite (cursor_for_models _ H) by apply Hm. simpl. lia. }
  destruct (FjallLog.append l f) as [l' r'] eqn:Ea.
  destruct r' as [[]|err]; simpl; intros [<- <-]%pair_inv; eexists.
  - by apply (device_deliver s ack c H f l l' (Ok ())).
  - by apply (device_deliver s ack c H f l l' (Err err)).
Qed.

Lemma device_receive_inv s ack c f w s' out H :
  device_inv (mkDevice s ack c) H → frame_ok f → SyncState.receive s f w = (s', out) →
  ∃ H', device_inv (mkDevice s' (if bool_decide (out = Appended) then ack ++ [f] else ack)
                   (if bool_decide (out = Unpersisted) then false else c)) H'.
Proof.
  intros Hi Hf. rewrite receive_cases. pose proof Hi as [Hm (l & Hl & _) _ _]. simpl in Hm, Hl.
  case_match; [intros [<- <-]%pair_inv; by exists H|].
  case_bool_decide as Hc; simpl.
  2:{ intros [<- <-]%pair_inv. rewrite (bool_decide_eq_false_2 (_ = Appended)) by done.
      unfold ReplLog.classify. repeat case_bool_decide; try done; exists H; by apply (device_same s). }
  pose proof (proj1 (classify_Appended s H f (dm_log _ _ Hm)) Hc) as Hs. rewrite Hc.
  unfold SyncState.persist. simpl. rewrite Hl. simpl.
  destruct (FjallLog.append l f) as [l' r'] eqn:Ea.
  destruct r' as [[]|err]; simpl; intros [<- <-]%pair_inv; eexists; simpl.
  - apply (device_deliver s ack c H f l l' (Ok ())); try done; destruct (bool_decide _); try done;
      unfold ReplLog.record; by rewrite Hc.
  - by apply (device_deliver s ack c H f l l' (Err err)).
Qed.

Lemma device_restart_inv s ack c k k' s' H :
  device_inv (mkDevice s ack c) H → persister s = Some (mkFjall k) → reopened k k' →
  restart s (mkFjall k') = Ok s' → ∃ H', device_inv (mkDevice s' ack c) H'.
Proof.
  intros [Hm (l & Hl & Hd & Hcd) Hack Hcl] Hp Hr. simpl in *. assert (l = mkFjall k) as -> by congruence.
  unfold restart, SyncNode.with_persister. simpl.
  destruct (FjallLog.load (mkFjall k')) as [fs|] eqn:El; simpl; [|done]. intros [= Hs'].
  assert (Hh : history_ok H) by apply Hm.
  exists (λ o, from_origin o fs). split; simpl.
  - eapply data_models_ext; [..|apply (replay_all_data fs (SyncState.new (self_id s)) empty_history)];
      [subst s'; by destruct (auth s)..|done|apply data_models_new|by eapply load_continues].
  - exists (mkFjall k'). split_and!; simpl; [subst s'; by destruct (auth s)|by eapply reopened_on_disk|].
    intros Hc key v Hw%(reopened_wrote k k'); [|done]. apply Hcd in Hw as (o & f & Hf & ? & ?); [|done].
    exists o, f. rewrite (load_clean k k' H fs) by auto. done.
  - intros f Hf. rewrite (load_history k k' H fs) by done. apply elem_of_app. left. auto.
  - intros Hc o. rewrite (load_clean k k' H fs) by auto. auto.
Qed.

Lemma reclaim_ind (I : SyncState (FjallLog K) A → Prop) s ms :
  I s → (∀ s o u, I s → I (SyncState.set_log s (ReplLog.truncate (log s) o u).1)) →
  I (SyncState.reclaim s ms).1.
Proof.
  intros Hs Hstep. unfold SyncState.reclaim. generalize 0 as n.
  generalize (hiter (SyncState.cursors s)).*1 as os. intros os. revert s Hs.
  induction os as [|o os IH]; intros s Hs n; simpl; [done|].
  case_bool_decide; apply IH; auto.
Qed.

Lemma device_step_inv d d' H : device_step d d' → device_inv d H → ∃ H', device_inv d' H'.
Proof.
  intros Hstep Hi. destruct Hstep.
  - by eapply device_write_inv.
  - by eapply device_receive_inv.
  - exists H. destruct Hi as [[Hl (D & HD & HDw)] Hd Hack Hcl]. split; try done. split; [done|].
    exists D. split; [by apply collect_models|done].
  - exists H. by apply (device_same s).
  - exists H. apply (reclaim_ind (λ s', device_inv (mkDevice s' ack c) H)); [done|].
    intros s0 o u [[Hl0 HD0] Hd0 Hack0 Hcl0]. split; try done. split; [|done].
    by apply truncate_models.
  - by eapply device_restart_inv.
Qed.

Definition device_reachable (d : Device) : Prop := ∃ d0, device_initial d0 ∧ rtc device_step d0 d.

Lemma device_reachable_inv d : device_reachable d → ∃ H, device_inv d H.
Proof.
  intros (d0 & (p & k & -> & Hk) & Hsteps).
  assert (Hi : ∃ H, device_inv (mkDevice (SyncState.set_persister (SyncState.new p) (mkFjall k)) [] true) H).
  { exists empty_history. split; simpl.
    - eapply data_models_ext; [..|apply (data_models_new p)]; done.
    - exists (mkFjall k). split_and!; [done| |].
      + split; [by intros o f []%elem_of_nil|]. intros key v []%Hk.
      + intros _ key v []%Hk.
    - intros f []%elem_of_nil.
    - done. }
  clear Hk. induction Hsteps as [|d1 d2 d3 Hstep _ IH]; [done|]. apply IH.
  destruct Hi as [H Hi]. by eapply device_step_inv.
Qed.

(** C32: No acknowledged write is lost. Whatever a device does, however often
    it crashes and reopens its log on whatever the engine recovers, every
    write it ever acknowledged is in its history under its own sequence
    number: the cursor of its origin has passed it, it takes part in every
    record's winner, and the next local write does not reuse its number. *)
Theorem acknowledged_survives d f :
  device_reachable d → f ∈ acked d →
  ∃ H, data_models (dev_state d) H ∧ f ∈ H (origin_of f) ∧
    delivered H (WriteFrame.into_stamped f) ∧
    (1 ≤ f_seq f ≤ ReplLog.cursor_for (log (dev_state d)) (origin_of f))%Z ∧
    (f_seq f < ReplLog.next_seq (log (dev_state d)) (origin_of f))%Z.
Proof.
  intros [H [Hm _ Hack _]]%device_reachable_inv Hf. exists H. apply Hack in Hf.
  unfold ReplLog.next_seq. rewrite (cursor_for_models _ H) by apply Hm.
  destruct (history_seq H (origin_of f) f) as [_ Hb]; [apply Hm|done|].
  split_and!; try done; [by exists (origin_of f), f|lia..].
Qed.

(** Restarts are invisible when the disk never refused a write. The
    device then holds exactly the writes it acknowledged: the cursor of every
    origin counts them, and every record shows their winner, whatever crashes
    and restarts happened in between. *)
Theorem restart_transparent d :
  device_reachable d → clean d = true →
  (∀ o, ReplLog.cursor_for (log (dev_state d)) o = Z.of_nat (length (from_origin o (acked d)))) ∧
  (unique_stamps (WriteFrame.into_stamped <$> acked d) →
   ∀ e i, SyncState.visible (dev_state d) e i =
     shown (winner (WriteFrame.into_stamped <$> acked d) (e, i))).
Proof.
  intros [H [Hm _ Hack Hcl]]%device_reachable_inv Hc. specialize (Hcl Hc). split.
  - intros o. by rewrite (cursor_for_models _ H), Hcl by apply Hm.
  - intros Hu e i. destruct Hm as [_ (D & HD & HDw)].
    assert (Hsame : same_writes (WriteFrame.into_stamped <$> acked d) D).
    { intros w. rewrite HDw, list_elem_of_fmap. unfold delivered. setoid_rewrite Hcl. split.
      - intros (f & -> & Hf). exists (origin_of f), f. split; [|done]. by apply list_elem_of_filter.
      - intros (o & f & [_ Hf]%list_elem_of_filter & <-). eauto. }
    unfold SyncState.visible. rewrite (visible_models _ D) by done. f_equal. symmetry.
    by apply winner_ext.
Qed.
End device.

(** ** An engine that meets the interface

    A write-back store: [insert] changes memory, [persist] flushes it unless
    the next entry of the failure script says otherwise, and a crash may
    recover any state between what was flushed and what was written. *)
Record MemDb := mkDb {
  db_mem : gmap (list byte) (list byte);
  db_disk : gmap (list byte) (list byte);
  db_wrote : list (list byte * list byte);
  db_faults : list bool;
}.

Definition key_le (a b : list byte * list byte) : Prop := a.1 ≤ₒ b.1.

#[local] Instance key_le_dec a b : Decision (key_le a b).
Proof. unfold key_le. apply _. Defined.
#[local] Instance key_le_trans : Transitive key_le.
Proof. intros a b c. unfold key_le. apply transitivity. Qed.
#[local] Instance key_le_total : Total key_le.
Proof.
  intros a b. unfold key_le. rewrite !ord_le_lt_eq.
  destruct (ord_total a.1 b.1) as [?|[?|?]]; auto.
Qed.

#[export] Instance mem_keyspace : Keyspace MemDb := {|
  ks_insert k key v :=
    (mkDb (<[key := v]> (db_mem k)) (db_disk k) ((key, v) :: db_wrote k) (db_faults k), Ok ());
  ks_persist k :=
    match db_faults k with
    | true :: faults => (mkDb (db_mem k) (db_disk k) (db_wrote k) faults, Err ())
    | _ => (mkDb (db_mem k) (db_mem k) (db_wrote k) (tail (db_faults k)), Ok ())
    end;
  ks_iter k := Ok <$> merge_sort key_le (map_to_list (db_mem k));
|}.

Definition mem_durable (k : MemDb) : gmap (list byte) (list byte) :=
  filter (λ kv, db_mem k !! kv.1 = Some kv.2) (db_disk k).

Lemma lookup_mem_durable k key v :
  mem_durable k !! key = Some v ↔ db_disk k !! key = Some v ∧ db_mem k !! key = Some v.
Proof. unfold mem_durable. apply map_lookup_filter_Some. Qed.

Record mem_reopened (k k' : MemDb) : Prop := {
  mr_flushed : db_disk k' = db_mem k';
  mr_durable : mem_durable k ⊆ db_mem k';
  mr_written : ∀ key v, db_mem k' !! key = Some v → (key, v) ∈ db_wrote k;
  mr_wrote : ∀ kv, kv ∈ db_wrote k' → kv ∈ db_wrote k;
}.

Lemma sorted_strict (l : list (list byte * list byte)) :
  StronglySorted key_le l → NoDup l.*1 → StronglySorted (λ a b, a.1 <ₒ b.1) l.
Proof.
  induction 1 as [|a l _ IH Hall]; intros Hnd; [constructor|].
  rewrite fmap_cons, NoDup_cons in Hnd. destruct Hnd as [Hni Hnd]. constructor; [by apply IH|].
  apply Forall_forall. intros b Hb. rewrite Forall_forall in Hall.
  destruct (proj1 (ord_le_lt_eq _ _) (Hall b Hb)) as [?|Heq]; [done|].
  destruct Hni. rewrite Heq. by apply list_elem_of_fmap_2.
Qed.

#[export] Program Instance mem_laws : KeyspaceLaws MemDb := {|
  contents := db_mem;
  durable := mem_durable;
  wrote k key v := (key, v) ∈ db_wrote k;
  reopened := mem_reopened;
|}.
Next Obligation. intros k. apply map_subseteq_spec. intros i x [_ ?]%lookup_mem_durable. done. Qed.
Next Obligation. by intros k key v k' [<- _]%pair_inv. Qed.
Next Obligation.
  intros k key v. apply map_subseteq_spec. intros i x.
  rewrite lookup_delete_Some, !lookup_mem_durable. simpl. intros [? ?].
  by rewrite lookup_insert_ne.
Qed.
Next Obligation. intros k key v key' v'. simpl. rewrite elem_of_cons. naive_solver. Qed.
Next Obligation. intros k. simpl. by destruct (db_faults k) as [|[] ?]. Qed.
Next Obligation.
  intros k. apply map_subseteq_spec. intros i x. rewrite !lookup_mem_durable. simpl.
  destruct (db_faults k) as [|[] ?]; simpl; naive_solver.
Qed.
Next Obligation.
  intros k k'. simpl. destruct (db_faults k) as [|[] ?]; simpl; [|done|];
    (intros [<- _]%pair_inv; apply map_eq; intros i; apply option_eq; intros x;
     rewrite lookup_mem_durable; simpl; naive_solver).
Qed.
Next Obligation. intros k key v. simpl. by destruct (db_faults k) as [|[] ?]. Qed.
Next Obligation.
  intros k es. simpl. intros Heq%(inj (fmap Ok)). subst es. split; [apply merge_sort_Permutation|].
  apply sorted_strict; [apply (StronglySorted_merge_sort key_le)|].
  rewrite merge_sort_Permutation. apply NoDup_fst_map_to_list.
Qed.
Next Obligation. intros k k' Hr. apply Hr. Qed.
Next Obligation.
  intros k k' [Hf _ _ _]. apply map_eq; intros i; apply option_eq; intros x.
  rewrite lookup_mem_durable, Hf. naive_solver.
Qed.
Next Obligation. intros k k' key v Hr Hl. by apply (mr_written k k'). Qed.
Next Obligation. intros k k' key v Hr Hl. by apply (mr_wrote k k'). Qed.

(** ** Examples *)

Definition ex_db (faults : list bool) : MemDb := mkDb ∅ ∅ [] faults.

Definition ex_dev (faults : list bool) : SyncState (FjallLog MemDb) NoSink :=
  SyncState.set_persister (SyncState.new (ex_peer x01)) (mkFjall (ex_db faults)).

Definition ex_dev_write (faults : list bool) :=
  SyncState.local_write (ex_dev faults) 100 Insert "task" "t1" [x2a].

(** The database of [ex_dev_write], opened again with all that was written. *)
Definition ex_reopened : MemDb :=
  let key := frame_key ex_sent in
  let v := match WriteFrame.encode ex_sent with Ok bs => bs | Err _ => [] end in
  mkDb {[key := v]} {[key := v]} [(key, v)] [].

Definition ex_restarted : SyncState (FjallLog MemDb) NoSink :=
  match restart (ex_dev []) (mkFjall ex_reopened) with Ok s => s | Err _ => ex_dev [] end.
Lemma ex_dev_restart (b : bool) ack c :
  device_step (mkDevice (ex_dev_write [b]).1 ack c) (mkDevice ex_restarted ack c).
Proof.
  eapply (dev_restart _ _ _ _ ex_reopened).
  - instantiate (1 := match persister (ex_dev_write [b]).1 with Some l => frames l | None => ex_db [] end).
    by destruct b.
  - split; [done|..].
    + apply map_subseteq_spec. intros i x [_ Hx]%lookup_mem_durable. revert i x Hx.
      apply map_subseteq_spec. by destruct b.
    + intros key v. cbv beta iota zeta delta [ex_reopened db_mem].
      intros [<- <-]%lookup_singleton_Some.
      destruct b; apply list_elem_of_singleton; decide_compute.
    + intros kv ->%list_elem_of_singleton. destruct b; apply list_elem_of_singleton; decide_compute.
  - destruct b; vm_compute; reflexivity.
Qed.

Lemma ex_dev_reachable (b : bool) :
  device_reachable (mkDevice (ex_dev_write [b]).1 (if b then [] else [ex_sent]) (negb b)).
Proof.
  exists (mkDevice (ex_dev [b]) [] true). split.
  { exists (ex_peer x01), (ex_db [b]). split; [done|]. intros key v []%elem_of_nil. }
  replace (if b then [] else [ex_sent])
    with (match (ex_dev_write [b]).2 with Ok f => [] ++ [f] | Err _ => [] end)
    by (destruct b; vm_compute; reflexivity).
  replace (negb b) with (match (ex_dev_write [b]).2 with Err (PersistErr _) => false | _ => true end)
    by (destruct b; vm_compute; reflexivity).
  apply rtc_once. eapply (dev_write _ [] true 100 Insert "task" "t1" [x2a]); [by split|].
  apply surjective_pairing.
Qed.

Lemma ex_dev_recovered : device_reachable (mkDevice ex_restarted [ex_sent] true).
Proof.
  destruct (ex_dev_reachable false) as (d0 & Hi & Hs). exists d0. split; [done|].
  eapply rtc_r; [exact Hs|apply ex_dev_restart].
Qed.

Lemma acknowledged_survives_witness :
  ∃ d : Device (K := MemDb) (A := NoSink), dev_state d = ex_restarted ∧ acked d = [ex_sent] ∧
    (f_seq ex_sent ≤ ReplLog.cursor_for (log (dev_state d)) (ex_peer x01))%Z.
Proof.
  exists (mkDevice ex_restarted [ex_sent] true). split; [done|]. split; [done|].
  destruct (acknowledged_survives (mkDevice ex_restarted [ex_sent] true) ex_sent
    ex_dev_recovered ltac:(left)) as (_ & _ & _ & _ & Hb & _).
  exact (proj2 Hb).
Defined.

Lemma restart_transparent_witness :
  ReplLog.cursor_for (log ex_restarted) (ex_peer x01) = 1%Z ∧
  SyncState.visible ex_restarted "task" "t1" = Some [x2a].
Proof.
  destruct (restart_transparent (mkDevice ex_restarted [ex_sent] true)
    ex_dev_recovered eq_refl) as [Hc Hv].
  split; [exact (Hc (ex_peer x01))|].
  refine (Hv _ "task" "t1"). intros v w. simpl. rewrite !list_elem_of_singleton. congruence.
Defined.

(** A refused write can come back. When the engine stores a frame but
    fails to flush it, [local_write] reports the failure and the record stays
    absent; a reopened log still holds the frame and shows the record. *)
Theorem refused_write_resurfaces :
  let w := ex_dev_write [true] in
  w.2 = Err (PersistErr IoOther) ∧ SyncState.visible w.1 "task" "t1" = None ∧
  device_reachable (mkDevice w.1 [] false) ∧
  device_step (mkDevice w.1 [] false) (mkDevice ex_restarted [] false) ∧
  SyncState.visible ex_restarted "task" "t1" = Some [x2a].
Proof.
  split_and!; [vm_compute; reflexivity..|apply (ex_dev_reachable true)|apply ex_dev_restart|].
  vm_compute. reflexivity.
Qed.
