(* ===== verification/Protocol.v ===== *)
(** * Session messages

    [crates/stitch-p2p/src/protocol.rs]: a [Hello] carries a peer's cursors, a
    [Delta] carries frames; each travels as a type byte, a four-byte length
    and a payload. Transports are the interfaces [AsyncWrite] and [AsyncRead];
    [None] is a panic ([expect]). Lengths and offsets of untrusted input are
    kept in [Z]. *)
From S2P Require Import Prelude Hlc Lww Wire Replog SyncState.

Definition MSG_HELLO : byte := x00.
Definition MSG_DELTA : byte := x01.
Definition MAX_MESSAGE_LEN : Z := 64 * 1024 * 1024.

Inductive ProtocolError :=
| Io (e : IoError)
| Wire (e : WireError)
| BadType (kind : byte)
| TooLarge (len : Z)
| TruncatedPayload (need have : Z).

#[global] Instance ProtocolError_eq_dec : EqDecision ProtocolError.
Proof. solve_decision. Defined.

Inductive SyncMessage :=
| Hello (from : PeerId) (cursors : Cursors)
| Delta (frames : list WriteFrame).

#[global] Instance SyncMessage_eq_dec : EqDecision SyncMessage.
Proof. solve_decision. Defined.

(** ** Payloads *)

Definition cursor_entry (e : PeerId * Z) : list byte := e.1 ++ to_be_bytes 8 e.2.

Definition encode_hello {HI : HashIter} (from : PeerId) (cursors : Cursors) : option (list byte) :=
  count ← u32_try_from (size cursors);
  Some (from ++ to_be_bytes 4 count ++ (hiter cursors ≫= cursor_entry)).

Definition cursor_entry_len : nat := PEER_ID_LEN + 8.

(** The loop of [decode_hello]. *)
Fixpoint decode_cursors (count : nat) (payload : list byte) (off : nat) (cursors : Cursors) : Cursors :=
  match count with
  | O => cursors
  | S count =>
    let peer := slice off (off + PEER_ID_LEN) payload in
    let off := off + PEER_ID_LEN in
    let cursor := from_be_bytes (slice off (off + 8) payload) in
    decode_cursors count payload (off + 8) (<[peer := cursor]> cursors)
  end.

Definition decode_hello (payload : list byte) : result (PeerId * Cursors) ProtocolError :=
  let len := Z.of_nat (length payload) in
  let header := PEER_ID_LEN + 4 in
  if bool_decide (len < Z.of_nat header)%Z then Err (TruncatedPayload (Z.of_nat header) len) else
  let from := slice 0 PEER_ID_LEN payload in
  let count := from_be_bytes (slice PEER_ID_LEN header payload) in
  let need := (Z.of_nat header + count * Z.of_nat cursor_entry_len)%Z in
  if bool_decide (len < need)%Z then Err (TruncatedPayload need len) else
  Ok (from, decode_cursors (Z.to_nat count) payload header ∅).

(** The loop of [encode_delta]. *)
Fixpoint encode_frames (frames : list WriteFrame) : option (result (list byte) ProtocolError) :=
  match frames with
  | [] => Some (Ok [])
  | frame :: frames =>
    match WriteFrame.encode frame with
    | Err e => Some (Err (Wire e))
    | Ok bytes =>
      len ← u32_try_from (length bytes);
      r ← encode_frames frames;
      Some (let? rest := r in Ok (to_be_bytes 4 len ++ bytes ++ rest))
    end
  end.

Definition encode_delta (frames : list WriteFrame) : option (result (list byte) ProtocolError) :=
  count ← u32_try_from (length frames);
  r ← encode_frames frames;
  Some (let? rest := r in Ok (to_be_bytes 4 count ++ rest)).

(** The loop of [decode_delta]: each round checks the length prefix, then
    the frame, before slicing. *)
Fixpoint decode_frames (count : nat) (payload : list byte) (off : nat)
    : result (list WriteFrame) ProtocolError :=
  match count with
  | O => Ok []
  | S count =>
    let have := Z.of_nat (length payload) in
    if bool_decide (have < Z.of_nat (off + 4))%Z
    then Err (TruncatedPayload (Z.of_nat (off + 4)) have) else
    let len := from_be_bytes (slice off (off + 4) payload) in
    let off := off + 4 in
    if bool_decide (have < Z.of_nat off + len)%Z
    then Err (TruncatedPayload (Z.of_nat off + len)%Z have) else
    let fin := off + Z.to_nat len in
    let? frame := map_err Wire (WriteFrame.decode (slice off fin payload)) in
    let? frames := decode_frames count payload fin in
    Ok (frame :: frames)
  end.

Definition decode_delta (payload : list byte) : result (list WriteFrame) ProtocolError :=
  let have := Z.of_nat (length payload) in
  if bool_decide (have < 4)%Z then Err (TruncatedPayload 4 have) else
  let count := from_be_bytes (slice 0 4 payload) in
  decode_frames (Z.to_nat count) payload 4.

(** ** Transports *)

Class AsyncWrite (W : Type) := {
  write_all : W → list byte → W * result () IoError;
  flush : W → W * result () IoError;
}.

Class AsyncRead (R : Type) := {
  read_exact : R → Z → R * result (list byte) IoError;
}.

(** An in-memory pipe: what was written, and what is left to read. A read
    past the end takes what is there and fails. *)
#[export] Instance pipe_write : AsyncWrite (list byte) :=
  {| write_all w bs := (w ++ bs, Ok ()); flush w := (w, Ok ()) |}.

#[export] Instance pipe_read : AsyncRead (list byte) :=
  {| read_exact r n :=
       if bool_decide (Z.of_nat (length r) < n)%Z then ([], Err UnexpectedEof)
       else (drop (Z.to_nat n) r, Ok (take (Z.to_nat n) r)) |}.

(** [MSG_HELLO] and [MSG_DELTA] payloads. *)
Definition payload_of {HI : HashIter} (msg : SyncMessage)
    : option (byte * result (list byte) ProtocolError) :=
  match msg with
  | Hello from cursors => p ← encode_hello from cursors; Some (MSG_HELLO, Ok p)
  | Delta frames => r ← encode_delta frames; Some (MSG_DELTA, r)
  end.

Definition then_io {W T} (r : W * result T IoError)
    (k : W → T → W * result () ProtocolError) : W * result () ProtocolError :=
  match r with
  | (w, Ok t) => k w t
  | (w, Err e) => (w, Err (Io e))
  end.

Definition write_message {HI : HashIter} {W} {AW : AsyncWrite W} (w : W) (msg : SyncMessage)
    : option (W * result () ProtocolError) :=
  '(kind, payload) ← payload_of msg;
  Some match payload with
  | Err e => (w, Err e)
  | Ok payload =>
    match u32_try_from (length payload) with
    | None => (w, Err (TooLarge (Z.of_nat (length payload))))
    | Some len =>
      then_io (write_all w [kind]) (λ w _,
      then_io (write_all w (to_be_bytes 4 len)) (λ w _,
      then_io (write_all w payload) (λ w _,
      then_io (flush w) (λ w _, (w, Ok ())))))
    end
  end.

(** The dispatch on the type byte at the end of [read_message]. *)
Definition decode_message (kind : byte) (payload : list byte) : result SyncMessage ProtocolError :=
  if bool_decide (kind = MSG_HELLO)
  then let? m := decode_hello payload in Ok (Hello m.1 m.2)
  else if bool_decide (kind = MSG_DELTA)
  then let? frames := decode_delta payload in Ok (Delta frames)
  else Err (BadType kind).

Definition read_message {R} {AR : AsyncRead R} (r : R) : R * result SyncMessage ProtocolError :=
  match read_exact r 1 with
  | (r, Err e) => (r, Err (Io e))
  | (r, Ok kind) =>
    match read_exact r 4 with
    | (r, Err e) => (r, Err (Io e))
    | (r, Ok len_bytes) =>
      let len := from_be_bytes len_bytes in
      if bool_decide (MAX_MESSAGE_LEN < len)%Z then (r, Err (TooLarge len)) else
      match read_exact r len with
      | (r, Err e) => (r, Err (Io e))
      | (r, Ok payload) => (r, decode_message (at_byte kind 0) payload)
      end
    end
  end.

(** ** Hello payloads *)

(** Cursors as a peer holds them: peer ids of 32 bytes, 64-bit cursors. *)
Definition cursors_ok (c : Cursors) : Prop :=
  map_Forall (λ p n, peer_ok p ∧ is_u64 n) c ∧ (Z.of_nat (size c) ≤ u32_max)%Z.

Definition message_ok (m : SyncMessage) : Prop :=
  match m with
  | Hello from cursors => peer_ok from ∧ cursors_ok cursors
  | Delta frames => Forall frame_ok frames ∧
      Forall (λ f, check_lengths (f_entity f) (f_id f) (f_data f) = Ok ()) frames ∧
      Forall (λ f, Z.of_nat (WriteFrame.encoded_len f) ≤ u32_max)%Z frames ∧
      (Z.of_nat (length frames) ≤ u32_max)%Z
  end.

Lemma from_to_be_8 z : is_u64 z → from_be_bytes (to_be_bytes 8 z) = z.
Proof. unfold is_u64, u64_max. intros. apply from_to_be_bytes. simpl. lia. Qed.

Lemma from_to_be_4 z : is_u32 z → from_be_bytes (to_be_bytes 4 z) = z.
Proof. unfold is_u32, u32_max. intros. apply from_to_be_bytes. simpl. lia. Qed.

Lemma length_cursor_entry e : peer_ok e.1 → length (cursor_entry e) = cursor_entry_len.
Proof. unfold cursor_entry. rewrite length_app, length_to_be_bytes. by intros ->. Qed.

Lemma length_cursor_entries (es : list (PeerId * Z)) :
  Forall (λ e, peer_ok e.1) es → length (es ≫= cursor_entry) = length es * cursor_entry_len.
Proof.
  induction 1 as [|e es He _ IH]; [done|]. rewrite bind_cons, length_app, IH.
  by rewrite length_cursor_entry.
Qed.

Lemma decode_cursors_entries (es : list (PeerId * Z)) : ∀ l r acc,
  Forall (λ e, peer_ok e.1 ∧ is_u64 e.2) es →
  decode_cursors (length es) (l ++ (es ≫= cursor_entry) ++ r) (length l) acc =
    foldl (λ m e, <[e.1 := e.2]> m) acc es.
Proof.
  induction es as [|[p n] es IH]; intros l r acc Hes; [done|].
  apply Forall_cons in Hes as [[Hp Hn] Hes]. rewrite bind_cons. cbn [length decode_cursors foldl].
  change (cursor_entry (p, n)) with (p ++ to_be_bytes 8 n). simpl in Hp, Hn. cbn [fst snd].
  rewrite <-!app_assoc.
  rewrite (slice_mid _ _ l p) by (rewrite ?Hp; done).
  rewrite (app_assoc l p), (slice_mid _ _ (l ++ p) (to_be_bytes 8 n))
    by (rewrite ?length_app, ?length_to_be_bytes, ?Hp; done).
  rewrite from_to_be_8 by done. rewrite (app_assoc (l ++ p)).
  replace (length l + PEER_ID_LEN + 8) with (length ((l ++ p) ++ to_be_bytes 8 n))
    by (by rewrite !length_app, length_to_be_bytes, Hp). by apply IH.
Qed.

Lemma foldl_insert_map (es : list (PeerId * Z)) (acc : Cursors) :
  NoDup es.*1 → foldl (λ m e, <[e.1 := e.2]> m) acc es = list_to_map es ∪ acc.
Proof.
  revert acc. induction es as [|[p n] es IH]; intros acc Hnd; [symmetry; apply map_empty_union|].
  rewrite fmap_cons, NoDup_cons in Hnd. destruct Hnd as [Hp Hnd]. cbn [foldl fst snd] in *.
  rewrite IH by done. rewrite list_to_map_cons, <-insert_union_l, insert_union_r; [done|].
  by apply not_elem_of_list_to_map.
Qed.

Lemma decode_hello_encode {HI : HashIter} from c r :
  peer_ok from → cursors_ok c →
  ∃ p, encode_hello from c = Some p ∧ decode_hello (p ++ r) = Ok (from, c) ∧
    length p = PEER_ID_LEN + 4 + size c * cursor_entry_len.
Proof.
  intros Hf [Hc Hs]. unfold encode_hello.
  assert (Hes : Forall (λ e : PeerId * Z, peer_ok e.1 ∧ is_u64 e.2) (hiter c)).
  { apply Forall_forall. intros [p n] Hin%elem_of_hiter. by apply Hc in Hin. }
  assert (Hlen : length (hiter c) = size c) by (rewrite hiter_perm; apply length_map_to_list).
  rewrite (proj2 (u32_try_from_Some (size c) _)) by done. cbn [mbind option_bind]. eexists. split; [done|].
  assert (Hl : length (hiter c ≫= cursor_entry) = size c * cursor_entry_len).
  { rewrite length_cursor_entries, Hlen; [done|]. by eapply Forall_impl; [done|intros ? []]. }
  split; [|rewrite !length_app, length_to_be_bytes, Hl, Hf; done].
  unfold decode_hello. rewrite <-!app_assoc.
  assert (Hsz : is_u32 (Z.of_nat (size c))) by (split; [lia|done]).
  rewrite slice_app_head by done.
  rewrite (slice_mid _ _ from (to_be_bytes 4 _)) by (rewrite ?length_to_be_bytes, ?Hf; done).
  rewrite from_to_be_4, Nat2Z.id by done.
  rewrite !length_app, length_to_be_bytes, Hl, Hf.
  rewrite !bool_decide_eq_false_2 by (unfold cursor_entry_len, PEER_ID_LEN; lia).
  do 2 f_equal. rewrite (app_assoc from).
  replace (PEER_ID_LEN + 4) with (length (from ++ to_be_bytes 4 (Z.of_nat (size c))))
    by (by rewrite length_app, length_to_be_bytes, Hf).
  rewrite <-Hlen at 1. rewrite decode_cursors_entries, foldl_insert_map by (done || apply NoDup_hiter_fst).
  by rewrite map_union_empty, list_to_map_hiter.
Qed.

(** ** Delta payloads *)

Lemma decode_frames_encode fs : ∀ l r,
  message_ok (Delta fs) →
  ∃ p, encode_frames fs = Some (Ok p) ∧ decode_frames (length fs) (l ++ p ++ r) (length l) = Ok fs.
Proof.
  induction fs as [|f fs IH]; intros l r (Hok & Hfit & Hlen & Hn); [by exists []|].
  apply Forall_cons in Hok as [Hf Hok], Hfit as [Hff Hfit], Hlen as [Hfl Hlen].
  simpl in Hn. cbn [encode_frames length decode_frames].
  apply encode_is_ok in Hff. destruct (WriteFrame.encode f) as [bs|] eqn:Ef; [|done].
  pose proof (encode_length f bs Hf Ef) as Hbs. rewrite <-Hbs in Hfl.
  rewrite (proj2 (u32_try_from_Some _ _)) by done. cbn [mbind option_bind].
  destruct (IH (l ++ to_be_bytes 4 (Z.of_nat (length bs)) ++ bs) r) as (p & -> & Hdec).
  { split_and!; try done. lia. }
  eexists. split; [done|]. cbn [rbind]. rewrite <-!app_assoc.
  assert (H4 : length (to_be_bytes 4 (Z.of_nat (length bs))) = 4) by apply length_to_be_bytes.
  rewrite (slice_mid _ _ l (to_be_bytes 4 _)) by (rewrite ?H4; done).
  rewrite from_to_be_4 by (split; [lia|done]).
  rewrite !bool_decide_eq_false_2 by (rewrite !length_app, H4; lia). rewrite Nat2Z.id.
  rewrite (app_assoc l), (slice_mid _ _ (l ++ to_be_bytes 4 _) bs) by (rewrite ?length_app, ?H4; done).
  rewrite <-(app_nil_r bs) at 1. rewrite (decode_encode f bs []) by done. cbn [map_err rbind].
  replace (length l + 4 + length bs) with (length (l ++ to_be_bytes 4 (Z.of_nat (length bs)) ++ bs))
    by (rewrite !length_app, H4; lia).
  rewrite <-!app_assoc in *. by rewrite Hdec.
Qed.

Lemma decode_delta_encode fs r :
  message_ok (Delta fs) →
  ∃ p, encode_delta fs = Some (Ok p) ∧ decode_delta (p ++ r) = Ok fs.
Proof.
  intros Hok. pose proof Hok as (_ & _ & _ & Hn). unfold encode_delta, decode_delta.
  rewrite (proj2 (u32_try_from_Some _ _)) by done. cbn [mbind option_bind].
  destruct (decode_frames_encode fs (to_be_bytes 4 (Z.of_nat (length fs))) r Hok) as (p & -> & Hd).
  eexists. split; [done|]. cbn [rbind]. rewrite <-app_assoc.
  rewrite bool_decide_eq_false_2 by (rewrite !length_app, length_to_be_bytes; lia).
  rewrite slice_app_head by apply length_to_be_bytes.
  rewrite from_to_be_4, Nat2Z.id by (split; [lia|done]).
  by rewrite length_to_be_bytes in Hd.
Qed.

(** ** Framed messages *)

Definition framed (kind : byte) (payload : list byte) : list byte :=
  [kind] ++ to_be_bytes 4 (Z.of_nat (length payload)) ++ payload.

Lemma pipe_read_app n (a r : list byte) :
  Z.of_nat (length a) = n → read_exact (a ++ r) n = (r, Ok a).
Proof.
  intros <-. simpl. rewrite bool_decide_eq_false_2 by (rewrite length_app; lia).
  by rewrite Nat2Z.id, drop_app_length, take_app_length.
Qed.

Lemma write_message_framed {HI : HashIter} m kind p (w : list byte) :
  payload_of m = Some (kind, Ok p) → (Z.of_nat (length p) ≤ u32_max)%Z →
  write_message w m = Some (w ++ framed kind p, Ok ()).
Proof.
  intros Hp Hl. unfold write_message. rewrite Hp. cbn [mbind option_bind].
  rewrite (proj2 (u32_try_from_Some _ _)) by done. cbn -[to_be_bytes].
  unfold framed. by rewrite <-!app_assoc.
Qed.

Lemma read_message_framed kind p rest :
  (Z.of_nat (length p) ≤ u32_max)%Z →
  read_message (framed kind p ++ rest) =
    if bool_decide (MAX_MESSAGE_LEN < Z.of_nat (length p))%Z
    then (p ++ rest, Err (TooLarge (Z.of_nat (length p))))
    else (rest, decode_message kind p).
Proof.
  intros Hl. unfold read_message, framed. rewrite <-!app_assoc, pipe_read_app by done.
  rewrite pipe_read_app by (by rewrite length_to_be_bytes).
  rewrite from_to_be_4 by (split; [lia|done]). case_bool_decide; [done|].
  by rewrite pipe_read_app.
Qed.

Lemma payload_of_ok {HI : HashIter} m :
  message_ok m → ∃ kind p, payload_of m = Some (kind, Ok p) ∧ decode_message kind p = Ok m.
Proof.
  destruct m as [from c|fs]; simpl.
  - intros [Hf Hc]. destruct (decode_hello_encode from c [] Hf Hc) as (p & -> & Hd & _).
    exists MSG_HELLO, p. split; [done|]. rewrite app_nil_r in Hd. unfold decode_message. by rewrite Hd.
  - intros Hok. destruct (decode_delta_encode fs [] Hok) as (p & -> & Hd).
    exists MSG_DELTA, p. split; [done|]. rewrite app_nil_r in Hd. unfold decode_message. by rewrite Hd.
Qed.

(** C6: Messages survive the wire, up to the receiver's limit. A well-formed
    message whose payload length fits 32 bits is written as one framed
    message in every cursor order; reading it back yields the message and
    leaves what follows when the payload is at most [MAX_MESSAGE_LEN], and is
    refused by the receiver, with the payload unread, when it is longer: the
    sender does not check the limit. *)
Theorem message_roundtrip {HI : HashIter} m :
  message_ok m →
  ∃ kind p, payload_of m = Some (kind, Ok p) ∧
    ((Z.of_nat (length p) ≤ u32_max)%Z → ∀ w rest : list byte,
      write_message w m = Some (w ++ framed kind p, Ok ()) ∧
      read_message (framed kind p ++ rest) =
        if bool_decide (MAX_MESSAGE_LEN < Z.of_nat (length p))%Z
        then (p ++ rest, Err (TooLarge (Z.of_nat (length p))))
        else (rest, Ok m)).
Proof.
  intros (kind & p & Hp & Hd)%payload_of_ok. exists kind, p. split; [done|]. intros Hl w rest.
  split; [by apply write_message_framed|]. by rewrite read_message_framed, Hd.
Qed.

Lemma single_payload {HI : HashIter} f kind p :
  message_ok (Delta [f]) → payload_of (Delta [f]) = Some (kind, Ok p) →
  length p = 8 + WriteFrame.encoded_len f.
Proof.
  intros (Hok & Hfit & Hlen & _). rewrite Forall_singleton in Hok, Hfit, Hlen.
  apply encode_is_ok in Hfit. destruct (WriteFrame.encode f) as [bs|] eqn:Eb; [|done].
  rewrite <-(encode_length f bs) in * by done.
  cbn [payload_of]. unfold encode_delta. cbn [length encode_frames]. rewrite Eb.
  rewrite (proj2 (u32_try_from_Some 1 _)) by done.
  rewrite (proj2 (u32_try_from_Some (length bs) _)) by done.
  cbn [mbind option_bind rbind]. intros Hp. apply (inj Some), pair_inv in Hp as [_ Hp].
  apply (inj Ok) in Hp as <-. rewrite !length_app, !length_to_be_bytes. simpl. lia.
Qed.

(** ** What a decoder accepts *)

Lemma decode_frames_typed n payload : ∀ off fs,
  decode_frames n payload off = Ok fs → length fs = n ∧ Forall frame_ok fs ∧
    Forall (λ f, check_lengths (f_entity f) (f_id f) (f_data f) = Ok ()) fs.
Proof.
  induction n as [|n IH]; intros off fs; cbn [decode_frames]; [by intros [= <-]|].
  case_bool_decide; [done|]. case_bool_decide; [done|]. intros Hd.
  apply rbind_Ok in Hd as (f & Hf & (fs' & Hfs & [= <-])%rbind_Ok).
  destruct (IH _ _ Hfs) as (<- & Hok & Hfit).
  destruct (WriteFrame.decode _) as [g|] eqn:Eg; simplify_eq/=.
  apply decode_canonical in Eg as (Hg & _ & He). split_and!; [done|by constructor|].
  constructor; [|done]. apply encode_is_ok. by rewrite He.
Qed.

Lemma decode_cursors_typed n payload : ∀ off acc,
  off + n * cursor_entry_len ≤ length payload →
  map_Forall (λ p c, peer_ok p ∧ is_u64 c) acc →
  map_Forall (λ p c, peer_ok p ∧ is_u64 c) (decode_cursors n payload off acc).
Proof.
  unfold cursor_entry_len, PEER_ID_LEN. induction n as [|n IH]; intros off acc Hl Ha; [done|].
  cbn [decode_cursors]. set (key := slice _ _ payload). set (v := from_be_bytes _).
  apply IH.
  - unfold PEER_ID_LEN. lia.
  - apply map_Forall_insert_2; [|done]. split.
    + unfold peer_ok, key. rewrite length_slice; unfold PEER_ID_LEN; lia.
    + unfold v, PEER_ID_LEN. pose proof (from_be_bytes_range (slice (off + 32) (off + 32 + 8) payload)) as Hr.
      rewrite length_slice in Hr by lia. replace (off + 32 + 8 - (off + 32)) with 8 in Hr by lia.
      unfold is_u64, u64_max. simpl in Hr. lia.
Qed.

Lemma pipe_read_Ok (r r' a : list byte) n :
  (0 ≤ n)%Z → read_exact r n = (r', Ok a) → r = a ++ r' ∧ Z.of_nat (length a) = n.
Proof.
  intros Hn. simpl. case_bool_decide; [done|]. intros [<- [= <-]]%pair_inv.
  rewrite take_drop, length_take. split; [done|lia].
Qed.

Lemma decode_message_typed kind p m :
  decode_message kind p = Ok m →
  match m with
  | Hello from c => peer_ok from ∧ map_Forall (λ p n, peer_ok p ∧ is_u64 n) c
  | Delta fs => Forall frame_ok fs ∧
      Forall (λ f, check_lengths (f_entity f) (f_id f) (f_data f) = Ok ()) fs
  end.
Proof.
  unfold decode_message. case_bool_decide; [|case_bool_decide; [|done]].
  - intros ([from c] & Hd & [= <-])%rbind_Ok. unfold decode_hello in Hd.
    case_bool_decide as Hh; [done|]. case_bool_decide as Hn; [done|].
    injection Hd as [= <- <-]. unfold PEER_ID_LEN, cursor_entry_len in *.
    split; [unfold peer_ok; rewrite length_slice; unfold PEER_ID_LEN; lia|].
    apply decode_cursors_typed; [|apply map_Forall_empty]. unfold cursor_entry_len, PEER_ID_LEN.
    unfold PEER_ID_LEN in Hn. change (32 + 4) with 36 in *.
    pose proof (from_be_bytes_range (slice 32 36 p)). lia.
  - intros (fs & Hd & [= <-])%rbind_Ok. unfold decode_delta in Hd. case_bool_decide; [done|].
    by apply decode_frames_typed in Hd as (_ & ? & ?).
Qed.

(** C7: Whatever the reader accepts is well-typed. From arbitrary bytes, a
    message that [read_message] returns has 32-byte peer ids, 64-bit cursors
    and frames that are well-formed and fit, so the merge core never sees a
    value outside its types, and no more than the announced limit was read. *)
Theorem read_message_typed (buf rest : list byte) m :
  read_message buf = (rest, Ok m) →
  match m with
  | Hello from c => peer_ok from ∧ map_Forall (λ p n, peer_ok p ∧ is_u64 n) c
  | Delta fs => Forall frame_ok fs ∧
      Forall (λ f, check_lengths (f_entity f) (f_id f) (f_data f) = Ok ()) fs
  end ∧ suffix rest buf ∧
  (Z.of_nat (length buf) ≤ Z.of_nat (length rest) + 5 + MAX_MESSAGE_LEN)%Z.
Proof.
  unfold read_message.
  destruct (read_exact buf 1) as [r1 [k|]] eqn:E1; [|done].
  destruct (read_exact r1 4) as [r2 [lb|]] eqn:E2; [|done]. case_bool_decide as Hmax; [done|].
  destruct (read_exact r2 _) as [r3 [p|]] eqn:E3; [|done]. intros [-> Hd]%pair_inv.
  apply pipe_read_Ok in E1 as (-> & H1), E2 as (-> & H2), E3 as (-> & H3);
    [|apply from_be_bytes_range|done..].
  split; [by eapply decode_message_typed|]. split.
  - exists (k ++ lb ++ p). by rewrite <-!app_assoc.
  - rewrite !length_app. lia.
Qed.

(** ** Examples *)

Definition ex_cursors : Cursors := {[ex_peer x01 := 3%Z; ex_peer x02 := 7%Z]}.

(** A frame carrying one byte more than a whole message may hold. *)
Definition ex_big : WriteFrame :=
  mkFrame (mkStamp (mkHlc 1 0) (ex_peer x01)) 1 Insert "task" "t1"
    (replicate (Z.to_nat MAX_MESSAGE_LEN) x00) None.

Lemma ex_big_ok : message_ok (Delta [ex_big]).
Proof.
  simpl. split_and!; [apply Forall_singleton..|done].
  - by split.
  - apply check_lengths_Ok. split_and!; [done|done|]. cbn [f_data ex_big].
    rewrite length_replicate. unfold MAX_MESSAGE_LEN, u32_max. lia.
  - unfold WriteFrame.encoded_len. cbn [f_data ex_big f_entity f_id f_signature].
    change (str_len "task") with 4. change (str_len "t1") with 2. unfold HEADER_LEN.
    rewrite length_replicate. unfold MAX_MESSAGE_LEN, u32_max. lia.
Qed.

Lemma ex_big_payload kind p :
  payload_of (Delta [ex_big]) = Some (kind, Ok p) →
  (MAX_MESSAGE_LEN < Z.of_nat (length p) ≤ u32_max)%Z.
Proof.
  intros ->%single_payload; [|apply ex_big_ok]. unfold WriteFrame.encoded_len.
  cbn [f_data ex_big f_entity f_id f_signature]. rewrite length_replicate.
  change (str_len "task") with 4. change (str_len "t1") with 2.
  unfold HEADER_LEN, MAX_MESSAGE_LEN, u32_max. lia.
Qed.

Lemma message_roundtrip_witness :
  (∃ kind p, read_message (framed kind p ++ [x07]) = ([x07], Ok (Hello (ex_peer x01) ex_cursors))) ∧
  (∃ kind p w, write_message [] (Delta [ex_big]) = Some (w, Ok ()) ∧
    read_message (framed kind p) = (p, Err (TooLarge (Z.of_nat (length p))))).
Proof.
  split.
  - destruct (message_roundtrip (Hello (ex_peer x01) ex_cursors)) as (kind & p & Hp & Hr).
    + split; [done|]. split; [|vm_compute; discriminate].
      repeat (apply map_Forall_insert_2; [by split|]). apply map_Forall_empty.
    + exists kind, p. assert (Hl : length p = 116) by (vm_compute in Hp; by simplify_eq).
      destruct (Hr ltac:(rewrite Hl; unfold u32_max; lia) [] [x07]) as [_ ->].
      by rewrite bool_decide_eq_false_2 by (rewrite Hl; unfold MAX_MESSAGE_LEN; lia).
  - destruct (message_roundtrip (Delta [ex_big]) ex_big_ok) as (kind & p & Hp & Hr).
    exists kind, p, (framed kind p).
    assert (Hl : (MAX_MESSAGE_LEN < Z.of_nat (length p) ≤ u32_max)%Z) by (by apply (ex_big_payload kind)).
    destruct (Hr (proj2 Hl) [] []) as [Hw Hrd]. split; [exact Hw|].
    by rewrite !app_nil_r, bool_decide_eq_true_2 in Hrd by apply Hl.
Defined.

Lemma read_message_typed_witness :
  peer_ok (ex_peer x01) ∧ map_Forall (λ p n, peer_ok p ∧ is_u64 n) ({[ex_peer x02 := 7%Z]} : Cursors).
Proof.
  refine (proj1 (read_message_typed
    (framed MSG_HELLO (ex_peer x01 ++ to_be_bytes 4 1 ++ ex_peer x02 ++ to_be_bytes 8 7)) []
    (Hello (ex_peer x01) {[ex_peer x02 := 7%Z]}) _)).
  vm_compute. reflexivity.
Defined.
