(* ===== verification/Session.v ===== *)
(** * The anti-entropy session

    [crates/stitch-p2p/src/session.rs]: each side announces its cursors in a
    [Hello], answers a [Hello] with the frames the other lacks, and applies
    the frames of a [Delta]. The [select!] loop is a sequence of events; each
    branch is one function on the shared state and the writer. [None] is a
    panic. *)
From S2P Require Import Prelude Hlc Lww Wire Replog SyncState Node Protocol.

Definition should_initiate (self_id : PeerId) (remote_id : option PeerId) : bool :=
  match remote_id with
  | Some remote => bool_decide (self_id <ₒ remote)
  | None => true
  end.

Definition peer_ahead {HI : HashIter} (theirs ours : Cursors) : bool :=
  existsb (λ e, bool_decide (default 0%Z (ours !! e.1) < e.2)%Z) (hiter theirs).

Definition is_eof (err : ProtocolError) : bool :=
  match err with Io UnexpectedEof => true | _ => false end.

Record Session (W P A : Type) := mkSession {
  shared : SyncState P A;
  remote_id : option PeerId;
  writer : W;
}.
Arguments mkSession {W P A}.
Arguments shared {W P A}.
Arguments remote_id {W P A}.
Arguments writer {W P A}.

(** Whether [run] goes round its loop again or returns. *)
Inductive Control := Continue | Return (r : result () ProtocolError).

Section run.
Context {W P A : Type} {AW : AsyncWrite W} {FP : FramePersister P} {FA : FrameAuth A} {HI : HashIter}.
Implicit Types se : Session W P A.

(** [apply]: every frame through [receive], all at one clock reading. *)
Definition apply (s : SyncState P A) (frames : list WriteFrame) (now : Z) : SyncState P A :=
  foldl (λ s frame, (SyncState.receive s frame now).1) s frames.

(** [write_message(..).await?] followed by the rest of the branch. *)
Definition write_then se (msg : SyncMessage)
    (k : Session W P A → option (Session W P A * Control)) : option (Session W P A * Control) :=
  '(w, r) ← write_message (writer se) msg;
  let se := mkSession (shared se) (remote_id se) w in
  match r with
  | Ok _ => k se
  | Err e => Some (se, Return (Err e))
  end.

Definition send_hello se (k : Session W P A → option (Session W P A * Control)) :=
  write_then se (Hello (self_id (shared se)) (SyncState.cursors (shared se))) k.

Definition continue se : option (Session W P A * Control) := Some (se, Continue).

(** The start of [run], before its loop. *)
Definition start (s : SyncState P A) (w : W) : option (Session W P A * Control) :=
  send_hello (mkSession s None w) continue.

Definition on_hello se (from : PeerId) (cursors : Cursors) : option (Session W P A * Control) :=
  let s := SyncState.note_peer_cursors (shared se) from cursors in
  let catch_up := SyncState.delta_since s cursors in
  let reply_hello := peer_ahead cursors (SyncState.cursors s)
                     || negb (should_initiate (self_id s) (Some from)) in
  let se := mkSession s (Some from) (writer se) in
  let rest se := if reply_hello then send_hello se continue else continue se in
  match catch_up with
  | [] => rest se
  | _ => write_then se (Delta catch_up) rest
  end.

Definition on_inbound se (now : result Z ()) (inbound : result SyncMessage ProtocolError)
    : option (Session W P A * Control) :=
  match inbound with
  | Ok (Hello from cursors) => on_hello se from cursors
  | Ok (Delta frames) =>
    continue (mkSession (apply (shared se) frames (now_millis now)) (remote_id se) (writer se))
  | Err e => Some (se, Return (if is_eof e then Ok () else Err e))
  end.

Definition on_local se (local : option WriteFrame) : option (Session W P A * Control) :=
  match local with
  | Some frame => write_then se (Delta [frame]) continue
  | None => Some (se, Return (Ok ()))
  end.

Definition on_tick se : option (Session W P A * Control) :=
  if should_initiate (self_id (shared se)) (remote_id se) then send_hello se continue
  else continue se.

Inductive Event :=
| Inbound (now : result Z ()) (inbound : result SyncMessage ProtocolError)
| Local (local : option WriteFrame)
| Tick.

(** The loop: the branches taken, in the order [select!] took them. *)
Fixpoint run_loop se (evs : list Event) : option (Session W P A * Control) :=
  match evs with
  | [] => continue se
  | ev :: evs =>
    '(se, c) ← match ev with
               | Inbound now inbound => on_inbound se now inbound
               | Local local => on_local se local
               | Tick => on_tick se
               end;
    match c with Continue => run_loop se evs | Return r => Some (se, Return r) end
  end.

Definition run (s : SyncState P A) (w : W) (evs : list Event) : option (Session W P A * Control) :=
  '(se, c) ← start s w;
  match c with Continue => run_loop se evs | Return r => Some (se, Return r) end.
End run.

(** ** The exchange of messages *)

Section exchange.
Context {P A : Type} {FP : FramePersister P} {FA : FrameAuth A} {HI : HashIter}.
Implicit Types s : SyncState P A.

(** What one inbound message makes of the shared state, and what is sent. *)
Definition handle s (m : SyncMessage) (now : Z) : SyncState P A * list SyncMessage :=
  match m with
  | Hello from cursors =>
    let s := SyncState.note_peer_cursors s from cursors in
    let catch_up := SyncState.delta_since s cursors in
    (s, (if bool_decide (catch_up = []) then [] else [Delta catch_up]) ++
        (if peer_ahead cursors (SyncState.cursors s)
            || negb (should_initiate (self_id s) (Some from))
         then [Hello (self_id s) (SyncState.cursors s)] else []))
  | Delta frames => (apply s frames now, [])
  end.

Fixpoint handle_all s (ms : list SyncMessage) (now : Z) : SyncState P A * list SyncMessage :=
  match ms with
  | [] => (s, [])
  | m :: ms =>
    let r := handle s m now in
    let rs := handle_all r.1 ms now in
    (rs.1, r.2 ++ rs.2)
  end.

(** The peer accepts a frame: its signature verifies, and its sink stores it. *)
Definition verifies s (f : WriteFrame) : Prop :=
  match auth s with Some a => verify a f = true | None => True end.

Definition sink_ok : Prop := ∀ (p : P) f, (append p f).2 = Ok ().

Lemma receive_next_data s H f w :
  sink_ok → data_models s H → f_seq f = Z.of_nat (S (length (H (origin_of f)))) → verifies s f →
  data_models (SyncState.receive s f w).1 (history_push H f) ∧
  auth (SyncState.receive s f w).1 = auth s.
Proof.
  intros Hsink Hm Hs Hv. rewrite receive_cases. cbv zeta.
  replace (match auth s with Some a => _ | None => _ end) with false
    by (unfold verifies in Hv; destruct (auth s); [by rewrite Hv|done]).
  rewrite (proj2 (classify_Appended s H f (dm_log _ _ Hm)) Hs), bool_decide_eq_true_2 by done.
  cbn [negb].
  assert (Hp : ∀ s0, (SyncState.persist s0 f).2 = Ok ()).
  { intros s0. unfold SyncState.persist. destruct (persister s0) as [p|]; [|done]. simpl. apply Hsink. }
  rewrite Hp. cbn [fst].
  split; [|by destruct (bool_decide _)].
  apply (deliver_data s); try done; by destruct (bool_decide _).
Qed.

Lemma apply_data fs now : ∀ s H,
  sink_ok → data_models s H → continues H fs → Forall (verifies s) fs →
  data_models (apply s fs now) (λ o, H o ++ from_origin o fs) ∧
  self_id (apply s fs now) = self_id s.
Proof.
  induction fs as [|f fs IH]; intros s H Hsink Hm Hc Hv.
  - split; [|done]. eapply data_models_ext; [..|exact Hm]; try done. intros o. by rewrite app_nil_r.
  - apply continues_cons in Hc as [Hs Hc]. apply Forall_cons in Hv as [Hf Hv].
    destruct (receive_next_data s H f now) as [Hm' Ha]; try done. unfold apply. cbn [foldl].
    destruct (IH (SyncState.receive s f now).1 (history_push H f)) as [Hd Hi]; try done.
    { unfold verifies. by rewrite Ha. }
    rewrite <-(receive_self s f now). split; [|exact Hi].
    eapply data_models_ext; [done|done|apply history_push_from|exact Hd].
Qed.

Lemma peer_ahead_spec (theirs ours : Cursors) :
  peer_ahead theirs ours = true ↔
    ∃ o n, theirs !! o = Some n ∧ (default 0%Z (ours !! o) < n)%Z.
Proof.
  unfold peer_ahead. rewrite existsb_exists. split.
  - intros ([o n] & Hin & Hb%bool_decide_eq_true). exists o, n. split; [|done].
    apply elem_of_hiter. by apply list_elem_of_In.
  - intros (o & n & Hl & Hn). exists (o, n). split; [|by apply bool_decide_eq_true].
    by apply list_elem_of_In, elem_of_hiter.
Qed.

(** A peer is behind another exactly when one of its cursors is. *)
Lemma peer_ahead_models s s' H H' :
  data_models s H → data_models s' H' →
  peer_ahead (SyncState.cursors s') (SyncState.cursors s) = true ↔
    ∃ o, length (H o) < length (H' o).
Proof.
  intros [Hm _] [Hm' _]. rewrite peer_ahead_spec. unfold SyncState.cursors. split.
  - intros (o & n & Hl & Hn). exists o. rewrite cursors_get in Hn.
    rewrite lookup_cursors in Hl. case_decide; simplify_eq.
    rewrite (cursor_for_models _ H), (cursor_for_models _ H') in Hn by done. lia.
  - intros (o & Hlt). exists o, (ReplLog.cursor_for (log s') o). rewrite cursors_get.
    rewrite (cursor_for_models (log s) H), (cursor_for_models (log s') H') by done. split; [|lia].
    pose proof (cursors_get (log s') o) as Hg. rewrite (cursor_for_models _ H') in Hg by done.
    destruct (ReplLog.cursors (log s') !! o); simpl in Hg; [by f_equal|lia].
Qed.

Lemma delta_nil s H their :
  data_models s H →
  SyncState.delta_since s their = [] ↔
    ∀ o, (Z.of_nat (length (H o)) ≤ Z.max (default 0 (their !! o)) (ReplLog.base_of (log s) o))%Z.
Proof.
  intros [Hm _]. unfold SyncState.delta_since. split.
  - intros Hd o. pose proof (delta_since_models _ _ their o Hm) as Ho. rewrite Hd in Ho.
    unfold from_origin in Ho. rewrite filter_nil in Ho.
    apply (f_equal length) in Ho. rewrite length_drop in Ho. simpl in Ho.
    pose proof (lm_base _ _ Hm o). lia.
  - intros Hall. destruct (ReplLog.delta_since (log s) their) as [|f fs] eqn:Ed; [done|]. exfalso.
    pose proof (delta_since_models _ _ their (origin_of f) Hm) as Ho. rewrite Ed in Ho.
    unfold from_origin in Ho. rewrite filter_cons_True in Ho by done.
    rewrite drop_ge in Ho; [done|]. specialize (Hall (origin_of f)). lia.
Qed.

Lemma note_data s H p c : data_models s H → data_models (SyncState.note_peer_cursors s p c) H.
Proof. intros [Hl HD]. by split. Qed.

(** Applying what the other side sends for our cursors joins the histories. *)
Lemma apply_delta_join s (t : SyncState P A) H H' now :
  sink_ok → data_models s H → data_models t H' → compatible H H' →
  (∀ o, ReplLog.base_of (log t) o ≤ ReplLog.cursor_for (log s) o)%Z →
  (∀ o f, f ∈ H' o → verifies s f) →
  let fs := SyncState.delta_since t (SyncState.cursors s) in
  data_models (apply s fs now) (history_join H H') ∧ self_id (apply s fs now) = self_id s.
Proof.
  intros Hsink Hm Hm' Hc Hb Hv fs.
  destruct (delta_continues (log t) (log s) H' H (SyncState.cursors s)) as [Hcont Hj];
    [apply Hm'|apply Hm|done|intros; apply cursors_get|done|].
  destruct (apply_data fs now s H) as [Hd Hi]; try done.
  { apply Forall_forall. intros f Hf. apply (Hv (origin_of f)).
    assert (Hfo : f ∈ from_origin (origin_of f) fs) by (by apply list_elem_of_filter).
    unfold fs, SyncState.delta_since in Hfo.
    rewrite (delta_since_models _ H') in Hfo by apply Hm'.
    by eapply subseteq_drop. }
  split; [|done]. eapply data_models_ext; [done|done|exact Hj|exact Hd].
Qed.

Lemma receive_base s f w : base (log (SyncState.receive s f w).1) = base (log s).
Proof.
  rewrite receive_cases. cbv zeta. case_match; [done|]. destruct (negb _); [done|].
  destruct (SyncState.persist _ f) as [s1 [[]|e]] eqn:Ep; cbn [fst snd].
  - destruct (bool_decide _); simpl; unfold ReplLog.record; by destruct (ReplLog.classify _ _).
  - pose proof (persist_fields (SyncState.set_clock s (Hlc.observe (clock s) (hlc (f_stamp f)) w)) f)
      as (_ & _ & Hl & _). rewrite Ep in Hl. simpl in Hl. by rewrite Hl.
Qed.

Lemma apply_base fs now : ∀ s, base (log (apply s fs now)) = base (log s).
Proof.
  unfold apply. induction fs as [|f fs IH]; intros s; simpl; [done|]. by rewrite IH, receive_base.
Qed.

Lemma apply_self fs now : ∀ s, self_id (apply s fs now) = self_id s.
Proof.
  unfold apply. induction fs as [|f fs IH]; intros s; simpl; [done|]. by rewrite IH, receive_self.
Qed.

Lemma compatible_join H H' : compatible H H' → compatible H' (history_join H H').
Proof.
  intros Hc o. unfold history_join. case_decide; [left; done|]. destruct (Hc o); tauto.
Qed.

Lemma history_join_ge H H' o : length (H' o) ≤ length (history_join H H' o).
Proof. unfold history_join. case_decide; lia. Qed.

(** Handling a delta, sent or skipped because it is empty. *)
Lemma handle_all_delta s fs ms now :
  handle_all s ((if bool_decide (fs = []) then [] else [Delta fs]) ++ ms) now =
    handle_all (apply s fs now) ms now.
Proof. case_bool_decide; subst; simpl; [done|]. by destruct (handle_all _ ms now). Qed.
End exchange.

Section theorems.
Context {P A : Type} {FP : FramePersister P} {FA : FrameAuth A} {HI : HashIter}.
Implicit Types s t : SyncState P A.

(** C4: One round of anti-entropy converges both peers, when their histories
    agree, no append to a durable log fails, each verifies the frames it is
    sent, and neither has reclaimed frames the other lacks. The peer with the
    lower id announces its cursors; the other answers with the frames it
    lacks and its own cursors; the first applies them and returns what the
    second lacks. At most two messages and then one travel, nothing further
    is sent, and both end with the longer history of every origin: equal
    cursors, and the same records when write stamps are unique. *)
Theorem exchange_converges s t H H' now :
  sink_ok (P := P) → data_models s H → data_models t H' → compatible H H' →
  self_id s <ₒ self_id t →
  (∀ o, ReplLog.base_of (log t) o ≤ ReplLog.cursor_for (log s) o)%Z →
  (∀ o, ReplLog.base_of (log s) o ≤ ReplLog.cursor_for (log t) o)%Z →
  (∀ o f, f ∈ H' o → verifies s f) → (∀ o f, f ∈ H o ∨ f ∈ H' o → verifies t f) →
  let r1 := handle t (Hello (self_id s) (SyncState.cursors s)) now in
  let r2 := handle_all s r1.2 now in
  let r3 := handle_all r1.1 r2.2 now in
  length r1.2 ≤ 2 ∧ length r2.2 ≤ 1 ∧ r3.2 = [] ∧
  data_models r2.1 (history_join H H') ∧ data_models r3.1 (history_join H H') ∧
  (∀ o, ReplLog.cursor_for (log r2.1) o = ReplLog.cursor_for (log r3.1) o) ∧
  ((∀ D, (∀ w, w ∈ D → delivered (history_join H H') w) → unique_stamps D) →
   ∀ e i, SyncState.visible r2.1 e i = SyncState.visible r3.1 e i).
Proof.
  intros Hsink Hm Hm' Hc Hlt Hb Hb' Hv Hv' r1.
  set (t1 := SyncState.note_peer_cursors t (self_id s) (SyncState.cursors s)).
  set (fs := SyncState.delta_since t (SyncState.cursors s)).
  assert (Er1 : r1 = (t1, (if bool_decide (fs = []) then [] else [Delta fs]) ++
                          [Hello (self_id t) (SyncState.cursors t)])).
  { unfold r1, handle, should_initiate. fold t1. change (SyncState.delta_since t1 _) with fs.
    rewrite (bool_decide_eq_false_2 (self_id t1 <ₒ self_id s)), orb_true_r; [done|].
    change (self_id t1) with (self_id t). intros Hgt.
    apply (irreflexivity ord_lt (self_id s)). by etrans. }
  clearbody r1. subst r1. cbn [fst snd]. rewrite handle_all_delta.
  destruct (apply_delta_join s t H H' now) as [Hj Hid]; try done. fold fs in Hj, Hid.
  set (s1 := apply s fs now) in *. cbn [handle_all handle].
  set (s2 := SyncState.note_peer_cursors s1 (self_id t) (SyncState.cursors t)).
  pose proof (note_data s1 _ (self_id t) (SyncState.cursors t) Hj) as Hj2. fold s2 in Hj2.
  set (gs := SyncState.delta_since s2 (SyncState.cursors t)).
  assert (Ehello : peer_ahead (SyncState.cursors t) (SyncState.cursors s2)
    || negb (should_initiate (self_id s2) (Some (self_id t))) = false).
  { apply orb_false_iff. split.
    - apply not_true_is_false. intros (o & Ho)%(peer_ahead_models s2 t _ _ Hj2 Hm').
      pose proof (history_join_ge H H' o). lia.
    - simpl. change (self_id s2) with (self_id s1). by rewrite Hid, bool_decide_eq_true_2. }
  rewrite Ehello. cbn [fst snd]. rewrite !app_nil_r.
  pose proof (handle_all_delta t1 gs [] now) as Hr3. rewrite app_nil_r in Hr3. rewrite Hr3.
  cbn [handle_all fst snd].
  assert (Hd3 : data_models (apply t1 gs now) (history_join H H')).
  { assert (Hbase : ∀ o, (ReplLog.base_of (log s2) o ≤ ReplLog.cursor_for (log t1) o)%Z).
    { intros o. unfold ReplLog.base_of. simpl. unfold s1. rewrite apply_base. apply Hb'. }
    destruct (apply_delta_join t1 s2 H' (history_join H H') now) as [Hd _]; try done.
    - by apply note_data.
    - by apply compatible_join.
    - intros o f Hf. unfold history_join in Hf. apply (Hv' o). case_decide; auto.
    - eapply data_models_ext; [done|done| |exact Hd]. intros o. unfold history_join at 1.
      rewrite decide_True by apply history_join_ge. done. }
  split_and!; try done.
  - rewrite length_app. destruct (bool_decide (fs = [])); simpl; lia.
  - destruct (bool_decide (gs = [])); simpl; lia.
  - intros o. rewrite (cursor_for_models _ _ _ (dm_log _ _ Hj2)), (cursor_for_models _ _ _ (dm_log _ _ Hd3)). done.
  - intros Hu e i. by eapply data_visible.
Qed.

(** Converged peers go quiet. When two peers hold the same history, a
    [Hello] draws no frames; the higher-id peer answers it with its cursors,
    the lower-id peer does not, so the exchange ends after one reply. *)
Theorem quiescent_session s t H now :
  data_models s H → data_models t H →
  (handle t (Hello (self_id s) (SyncState.cursors s)) now).2 =
    if bool_decide (self_id t <ₒ self_id s) then []
    else [Hello (self_id t) (SyncState.cursors t)].
Proof.
  intros Hm Hm'. cbn [handle snd].
  set (t1 := SyncState.note_peer_cursors t _ _).
  assert (Hm1 : data_models t1 H) by (by apply note_data).
  rewrite (proj2 (delta_nil t1 H _ Hm1)), bool_decide_eq_true_2 by (try done; intros o;
    unfold SyncState.cursors; rewrite cursors_get, (cursor_for_models _ H) by apply Hm; lia).
  replace (peer_ahead _ _) with false; [by simpl; case_bool_decide|].
  symmetry. apply not_true_is_false. intros (o & Ho)%(peer_ahead_models t1 s H H Hm1 Hm). lia.
Qed.
End theorems.

(** ** Bytes on the wire *)

(** A message as it travels: what [write_message] puts on a pipe. *)
Definition wire_of {HI : HashIter} (m : SyncMessage) : list byte :=
  match payload_of m with
  | Some (kind, Ok p) => framed kind p
  | _ => []
  end.

Definition sendable {HI : HashIter} (m : SyncMessage) : Prop :=
  message_ok m ∧
  ∀ kind p, payload_of m = Some (kind, Ok p) → (Z.of_nat (length p) ≤ MAX_MESSAGE_LEN)%Z.

Section transport.
Context {P A : Type} {FP : FramePersister P} {FA : FrameAuth A} {HI : HashIter}.
Implicit Types se : Session (list byte) P A.

Lemma sendable_wire m :
  sendable m → ∃ kind p, payload_of m = Some (kind, Ok p) ∧ wire_of m = framed kind p ∧
    decode_message kind p = Ok m ∧ (Z.of_nat (length p) ≤ MAX_MESSAGE_LEN)%Z.
Proof.
  intros [Hok Hl]. destruct (payload_of_ok m Hok) as (kind & p & Hp & Hd). exists kind, p.
  unfold wire_of. rewrite Hp. eauto.
Qed.

Lemma write_then_pipe se m k :
  sendable m → write_then se m k = k (mkSession (shared se) (remote_id se) (writer se ++ wire_of m)).
Proof.
  intros (kind & p & Hp & Hw & _ & Hl)%sendable_wire. unfold write_then.
  rewrite (write_message_framed m kind p), Hw; [done|done|]. unfold MAX_MESSAGE_LEN, u32_max in *. lia.
Qed.

Lemma read_wire_of m rest : sendable m → read_message (wire_of m ++ rest) = (rest, Ok m).
Proof.
  intros (kind & p & Hp & -> & Hd & Hl)%sendable_wire. rewrite read_message_framed.
  - by rewrite bool_decide_eq_false_2, Hd by lia.
  - unfold MAX_MESSAGE_LEN, u32_max in *. lia.
Qed.

(** Reading a pipe to its end, a branch of the loop per message. *)
Fixpoint drain (n : nat) se (now : result Z ()) (inbox : list byte)
    : option (Session (list byte) P A * Control) :=
  match n, inbox with
  | O, _ | _, [] => continue se
  | S n, _ =>
    let r := read_message inbox in
    '(se, c) ← on_inbound se now r.2;
    match c with Continue => drain n se now r.1 | Return e => Some (se, Return e) end
  end.

Lemma on_inbound_handle se now m :
  Forall sendable (handle (shared se) m (now_millis now)).2 →
  ∃ remote, on_inbound se now (Ok m) =
    continue (mkSession (handle (shared se) m (now_millis now)).1 remote
      (writer se ++ ((handle (shared se) m (now_millis now)).2 ≫= wire_of))).
Proof.
  destruct m as [from c|fs]; cbn [handle on_inbound fst snd].
  2:{ intros _. eexists. by rewrite app_nil_r. }
  intros Hs. exists (Some from). unfold on_hello.
  set (s := SyncState.note_peer_cursors _ _ _) in *.
  set (cu := SyncState.delta_since s c) in *. set (reply := _ || _) in *.
  apply Forall_app in Hs as [Hd Hh].
  assert (Hrest : ∀ w, (if reply then send_hello (mkSession s (Some from) w) continue
      else continue (mkSession s (Some from) w)) =
    continue (mkSession s (Some from) (w ++ ((if reply then [Hello (self_id s) (SyncState.cursors s)]
      else []) ≫= wire_of)))).
  { intros w. destruct reply; simpl; [|by rewrite app_nil_r]. rewrite Forall_singleton in Hh.
    unfold send_hello. rewrite write_then_pipe by done. simpl. by rewrite app_nil_r. }
  destruct cu as [|f cu]; simpl in Hd |- *; [apply Hrest|]. rewrite Forall_singleton in Hd.
  rewrite write_then_pipe by done. simpl. rewrite Hrest. by rewrite <-app_assoc.
Qed.

(** C5: The byte stream refines the exchange of messages. Reading any number
    of sendable messages from a pipe leaves the session with the state the
    messages produce and writes exactly the replies, in order. *)
Theorem session_bytes ms se now :
  Forall sendable ms → Forall sendable (handle_all (shared se) ms (now_millis now)).2 →
  ∃ remote, drain (length ms) se now (ms ≫= wire_of) =
    continue (mkSession (handle_all (shared se) ms (now_millis now)).1 remote
      (writer se ++ ((handle_all (shared se) ms (now_millis now)).2 ≫= wire_of))).
Proof.
  revert se. induction ms as [|m ms IH]; intros se Hms Hout.
  { exists (remote_id se). destruct se; simpl. by rewrite app_nil_r. }
  apply Forall_cons in Hms as [Hm Hms]. cbn [handle_all fst snd] in *.
  apply Forall_app in Hout as [Ho1 Ho2]. rewrite bind_cons.
  destruct (on_inbound_handle se now m Ho1) as (rem & Hon).
  destruct (IH (mkSession (handle (shared se) m (now_millis now)).1 rem
    (writer se ++ ((handle (shared se) m (now_millis now)).2 ≫= wire_of))) Hms Ho2) as (rem' & Hd).
  exists rem'. cbn [length drain].
  destruct (sendable_wire m Hm) as (kind & p & _ & Hw & _).
  destruct (wire_of m ++ (ms ≫= wire_of)) eqn:E; [by rewrite Hw in E|]. rewrite <-E.
  rewrite (read_wire_of m) by done. cbn [fst snd]. rewrite Hon. cbn [mbind option_bind continue].
  unfold continue in *. cbn [mbind option_bind]. rewrite Hd. cbn [shared writer].
  by rewrite bind_app, app_assoc.
Qed.
End transport.

(** ** Reading while other branches win

    [read_message] is one branch of [select!]: a poll takes the bytes that
    have arrived; when another branch completes first the read is dropped,
    with whatever it had taken. *)
Record Reader := mkReader {
  unread : list byte;   (* arrived, not yet taken *)
  partial : list byte;  (* taken by the read in progress *)
}.

Definition arrive (r : Reader) (bs : list byte) : Reader := mkReader (unread r ++ bs) (partial r).

(** One poll: the message is complete, or all that arrived is taken. *)
Definition poll (r : Reader) : Reader * option (result SyncMessage ProtocolError) :=
  match read_message (partial r ++ unread r) with
  | (rest, Ok m) => (mkReader rest [], Some (Ok m))
  | (rest, Err e) =>
    if is_eof e then (mkReader [] (partial r ++ unread r), None)
    else (mkReader rest [], Some (Err e))
  end.

(** Another branch of [select!] completed. *)
Definition cancel (r : Reader) : Reader := mkReader (unread r) [].

Inductive ReadEvent := Arrive (bs : list byte) | Poll | Cancel.

Fixpoint read_all (r : Reader) (evs : list ReadEvent) : Reader * list (result SyncMessage ProtocolError) :=
  match evs with
  | [] => (r, [])
  | Arrive bs :: evs => read_all (arrive r bs) evs
  | Cancel :: evs => read_all (cancel r) evs
  | Poll :: evs =>
    let p := poll r in
    let q := read_all p.1 evs in
    (q.1, option_list p.2 ++ q.2)
  end.

Fixpoint arrived (evs : list ReadEvent) : list byte :=
  match evs with
  | [] => []
  | Arrive bs :: evs => bs ++ arrived evs
  | _ :: evs => arrived evs
  end.

(** No branch wins while a read holds bytes. *)
Fixpoint uncut (r : Reader) (evs : list ReadEvent) : Prop :=
  match evs with
  | [] => True
  | Arrive bs :: evs => uncut (arrive r bs) evs
  | Cancel :: evs => partial r = [] ∧ uncut (cancel r) evs
  | Poll :: evs => uncut (poll r).1 evs
  end.

(** Every strict prefix of a framed message leaves the read waiting. *)
Lemma read_prefix_eof kind p (bs : list byte) :
  (Z.of_nat (length p) ≤ MAX_MESSAGE_LEN)%Z →
  bs `prefix_of` framed kind p → length bs < length (framed kind p) →
  read_message bs = ([], Err (Io UnexpectedEof)).
Proof.
  intros Hl [k Hk] Hlt. unfold framed in *. unfold MAX_MESSAGE_LEN in *.
  assert (H4 : length (to_be_bytes 4 (Z.of_nat (length p))) = 4) by apply length_to_be_bytes.
  set (lb := to_be_bytes 4 (Z.of_nat (length p))) in *.
  assert (Hlb : from_be_bytes lb = Z.of_nat (length p)).
  { apply from_to_be_4. unfold is_u32, u32_max. lia. }
  rewrite !length_app, H4 in Hlt. simpl in Hlt. clearbody lb.
  unfold read_message. destruct bs as [|b bs]; [done|].
  simpl in Hk. injection Hk as <- Hk.
  change (kind :: bs) with ([kind] ++ bs). rewrite (pipe_read_app 1 [kind] bs) by done.
  destruct (le_lt_dec 4 (length bs)) as [Hge|Hsh].
  - assert (∃ q, bs = lb ++ q) as (q & ->).
    { exists (drop 4 bs). rewrite <-(take_drop 4 bs) at 1. f_equal.
      apply (f_equal (take 4)) in Hk. rewrite <-H4 in Hk at 1. rewrite take_app_length in Hk.
      rewrite Hk. symmetry. apply take_app_le. lia. }
    rewrite pipe_read_app by lia. rewrite Hlb.
    rewrite bool_decide_eq_false_2 by (unfold MAX_MESSAGE_LEN; lia).
    simpl in Hlt. rewrite length_app in Hlt. simpl. by rewrite bool_decide_eq_true_2 by lia.
  - simpl. by rewrite bool_decide_eq_true_2 by lia.
Qed.

Section reader.
Context {HI : HashIter}.

(** The bytes of messages still to come, as read so far. *)
Lemma poll_stream r m ms later :
  Forall sendable (m :: ms) → partial r ++ unread r ++ later = (m :: ms) ≫= wire_of →
  poll r = (mkReader [] (partial r ++ unread r), None) ∨
  ∃ rest, poll r = (mkReader rest [], Some (Ok m)) ∧ rest ++ later = ms ≫= wire_of.
Proof.
  intros [Hm _]%Forall_cons Hb. rewrite bind_cons in Hb. unfold poll.
  destruct (sendable_wire m Hm) as (kind & p & _ & Hw & _ & Hl).
  destruct (le_lt_dec (length (wire_of m)) (length (partial r ++ unread r))) as [Hge|Hlt].
  - right. exists (drop (length (wire_of m)) (partial r ++ unread r)).
    assert (Hsplit : partial r ++ unread r =
      wire_of m ++ drop (length (wire_of m)) (partial r ++ unread r)).
    { rewrite <-(take_drop (length (wire_of m)) (partial r ++ unread r)) at 1. f_equal.
      rewrite app_assoc in Hb. apply (f_equal (take (length (wire_of m)))) in Hb.
      by rewrite take_app_length, take_app_le in Hb. }
    rewrite Hsplit at 1. rewrite read_wire_of by done. split; [done|].
    rewrite app_assoc, Hsplit, <-app_assoc in Hb. by apply app_inv_head in Hb.
  - left. rewrite (read_prefix_eof kind p); [done|done| |by rewrite <-Hw].
    rewrite <-Hw. rewrite app_assoc in Hb.
    destruct (prefix_weak_total (partial r ++ unread r) (wire_of m) (wire_of m ++ (ms ≫= wire_of)))
      as [?|Hp%prefix_length]; [by exists later|by eexists|done|lia].
Qed.

(** Chunking does not matter while no read is cut off. However the bytes
    of a sequence of messages are split into arrivals and polls, the reads
    that complete return the messages in order, each once, and none other. *)
Theorem chunked_reads evs : ∀ r ms,
  Forall sendable ms → uncut r evs → partial r ++ unread r ++ arrived evs = ms ≫= wire_of →
  ∃ k, (read_all r evs).2 = Ok <$> take k ms ∧
    partial (read_all r evs).1 ++ unread (read_all r evs).1 = drop k ms ≫= wire_of.
Proof.
  induction evs as [|[bs| |] evs IH]; intros r ms Hms Hu Hb; simpl in *.
  - exists 0. by rewrite app_nil_r in Hb.
  - apply IH; [done|done|]. simpl. by rewrite <-Hb, <-!app_assoc.
  - destruct ms as [|m ms].
    + simpl in Hb. apply app_nil in Hb as [Hp [Hur Harr]%app_nil].
      assert (Epoll : poll r = (mkReader [] [], None)) by (unfold poll; by rewrite Hp, Hur).
      rewrite Epoll in *. simpl in *. apply (IH _ []); done.
    + destruct (poll_stream r m ms (arrived evs) Hms Hb) as [Ep|(rest & Ep & Hrest)];
        rewrite Ep in *; simpl in *.
      * apply IH; [done|done|]. simpl. by rewrite <-app_assoc.
      * apply Forall_cons in Hms as [_ Hms].
        destruct (IH (mkReader rest []) ms Hms Hu Hrest) as (k & Hk & Hd).
        exists (S k). simpl. by rewrite Hk.
  - destruct Hu as [Hp Hu]. apply IH; [done|done|]. simpl. by rewrite Hp in Hb.
Qed.
End reader.

(** A cut-off read loses the stream. When another branch of the loop
    wins after the first byte of a well-formed empty [Delta] was taken, the
    rest of the message is read as a new one: its length bytes become the
    type and length of a 1024-byte [Hello], and the next, equally
    well-formed message is swallowed by it. *)
Theorem cut_read_desynchronises :
  let m := framed MSG_DELTA (to_be_bytes 4 0) in
  read_message m = ([], Ok (Delta [])) ∧
  (read_all (mkReader [] []) [Arrive (take 1 m); Poll; Arrive (drop 1 m); Poll; Arrive m; Poll]).2
    = [Ok (Delta []); Ok (Delta [])] ∧
  (read_all (mkReader [] [])
    [Arrive (take 1 m); Poll; Cancel; Arrive (drop 1 m); Poll; Arrive m; Poll]).2 = [].
Proof. vm_compute. done. Qed.

(** ** Examples *)

Definition ex_h1 : History := history_push empty_history ex_sent.

Lemma ex_written_data : data_models ex_written.1 ex_h1.
Proof.
  assert (E : ex_written = (ex_written.1, Ok ex_sent)) by (vm_compute; reflexivity).
  apply state_data. by apply (local_write_models ex_a empty_history 100 Insert "task" "t1" [x2a]
    ex_written.1 (Ok ex_sent) (state_models_new _) ltac:(done) ltac:(done) E).
Qed.

Lemma ex_h1_elem o f : f ∈ ex_h1 o → f = ex_sent.
Proof. intros [?%elem_of_nil|[? _]]%elem_of_history_push; done. Qed.

(** Peer 1 wrote a task; one round brings it to peer 2. *)
Lemma exchange_converges_witness :
  let r1 := handle ex_b (Hello (ex_peer x01) (SyncState.cursors ex_written.1)) 60 in
  let r2 := handle_all ex_written.1 r1.2 60 in
  let r3 := handle_all r1.1 r2.2 60 in
  length r2.2 = 1 ∧ r3.2 = [] ∧
  SyncState.visible r2.1 "task" "t1" = SyncState.visible r3.1 "task" "t1" ∧
  SyncState.visible r3.1 "task" "t1" = Some [x2a].
Proof.
  destruct (exchange_converges ex_written.1 ex_b ex_h1 empty_history 60)
    as (_ & _ & H3 & _ & _ & _ & Hv).
  - done.
  - apply ex_written_data.
  - apply data_models_new.
  - intros o. right. apply prefix_nil.
  - decide_compute.
  - intros o. unfold ReplLog.base_of at 1. simpl. rewrite lookup_empty.
    rewrite (cursor_for_models _ ex_h1) by apply ex_written_data. simpl. lia.
  - intros o. rewrite (cursor_for_models (log ex_b) empty_history) by apply log_models_new.
    change (base (log ex_written.1)) with (∅ : gmap PeerId Z) in *.
    unfold ReplLog.base_of. change (base (log ex_written.1)) with (∅ : gmap PeerId Z).
    rewrite lookup_empty. done.
  - done.
  - done.
  - split; [vm_compute; reflexivity|]. split; [exact H3|]. split; [|vm_compute; reflexivity].
    apply Hv. intros D HD x y Hx Hy _.
    assert (Hone : ∀ w, w ∈ D → w = WriteFrame.into_stamped ex_sent).
    { intros w (o & f & Hf & <-)%HD. f_equal. unfold history_join in Hf. case_decide as E.
      - destruct (proj1 (elem_of_nil f) Hf).
      - exact (ex_h1_elem o f Hf). }
    by rewrite (Hone x Hx), (Hone y Hy).
Defined.

Lemma quiescent_session_witness :
  (handle ex_b (Hello (ex_peer x01) (SyncState.cursors ex_a)) 60).2 =
    [Hello (ex_peer x02) (SyncState.cursors ex_b)] ∧
  (handle ex_a (Hello (ex_peer x02) (SyncState.cursors ex_b)) 60).2 = [].
Proof.
  split.
  - pose proof (quiescent_session ex_a ex_b empty_history 60 (data_models_new _) (data_models_new _)) as Hq.
    rewrite bool_decide_eq_false_2 in Hq by decide_compute. exact Hq.
  - pose proof (quiescent_session ex_b ex_a empty_history 60 (data_models_new _) (data_models_new _)) as Hq.
    rewrite bool_decide_eq_true_2 in Hq by decide_compute. exact Hq.
Defined.

Lemma sendable_intro m kind p :
  message_ok m → payload_of m = Some (kind, Ok p) → (Z.of_nat (length p) ≤ MAX_MESSAGE_LEN)%Z →
  sendable m.
Proof. intros Hok Hp Hl. split; [done|]. intros k q Hq. rewrite Hp in Hq. by simplify_eq. Qed.

Lemma ex_hello_sendable n : sendable (Hello (ex_peer n) ∅).
Proof.
  eapply (sendable_intro _ MSG_HELLO (ex_peer n ++ to_be_bytes 4 0)); [|reflexivity|done].
  split; [done|]. split; [apply map_Forall_empty|done].
Qed.

Lemma session_bytes_witness :
  ∃ remote, drain 1 (mkSession ex_b None []) (Ok 60%Z) (wire_of (Hello (ex_peer x01) ∅)) =
    continue (mkSession (SyncState.note_peer_cursors ex_b (ex_peer x01) ∅) remote
      (wire_of (Hello (ex_peer x02) ∅))).
Proof.
  pose proof (session_bytes [Hello (ex_peer x01) ∅] (mkSession ex_b None []) (Ok 60%Z)) as Hb.
  destruct Hb as (remote & Hb).
  - apply Forall_singleton, ex_hello_sendable.
  - apply Forall_singleton, ex_hello_sendable.
  - exists remote. rewrite bind_cons, app_nil_r in Hb. exact Hb.
Defined.

Lemma chunked_reads_witness :
  let m := Hello (ex_peer x01) ∅ in
  let evs := [Arrive (take 3 (wire_of m)); Poll; Arrive (drop 3 (wire_of m)); Poll; Cancel] in
  (read_all (mkReader [] []) evs).2 = [Ok m].
Proof.
  intros m evs.
  destruct (chunked_reads evs (mkReader [] []) [m]) as (k & Hk & Hd).
  - apply Forall_singleton, ex_hello_sendable.
  - vm_compute. done.
  - decide_compute.
  - rewrite Hk. destruct k as [|k]; [vm_compute in Hd; discriminate|]. simpl. by rewrite take_nil.
Defined.
