(* ===== verification/Membership.v ===== *)
(** * Membership

    [crates/stitch-p2p/src/membership.rs]: roles, membership records, the set
    of authorized members, membership proofs and frame signatures. Ed25519 is
    an interface. Where the code can panic or loop, an operation returns
    [None] for that outcome. *)
From S2P Require Import Prelude Hlc Lww Wire Replog SyncState Node.

Definition MEMBERS_ENTITY : string := "_members".

Inductive Role := Owner | Admin | Member.

#[global] Instance Role_eq_dec : EqDecision Role.
Proof. solve_decision. Defined.

Module Role.
Definition as_byte (r : Role) : byte :=
  match r with Owner => x00 | Admin => x01 | Member => x02 end.

Definition from_byte (b : byte) : option Role :=
  match b with x00 => Some Owner | x01 => Some Admin | x02 => Some Member | _ => None end.

Definition can_admin (r : Role) : bool :=
  match r with Owner | Admin => true | Member => false end.
End Role.

(** ** Record ids *)

(** A lowercase hexadecimal digit, and [char::to_digit(16)]. *)
Definition hex_digit (n : Z) : byte := byte_of (if bool_decide (n < 10)%Z then 48 + n else 87 + n).

Definition digit_val (b : byte) : option Z :=
  let v := byte_val b in
  if bool_decide (48 ≤ v ≤ 57)%Z then Some (v - 48)%Z
  else if bool_decide (97 ≤ v ≤ 102)%Z then Some (v - 87)%Z
  else if bool_decide (65 ≤ v ≤ 70)%Z then Some (v - 55)%Z
  else None.

(** [format!("{b:02x}")] for every byte. *)
Definition hex_bytes (p : list byte) : list byte :=
  p ≫= λ b, [hex_digit (byte_val b / 16); hex_digit (byte_val b mod 16)].

Definition member_record_id (peer : PeerId) : string := String.string_of_list_byte (hex_bytes peer).

(** [u8::from_str_radix(s, 16)] of a two-byte string: a leading plus sign is
    accepted, and digits of either case. *)
Definition u8_from_hex (a b : byte) : option byte :=
  if bool_decide (a = x2b) then byte_of <$> digit_val b
  else hi ← digit_val a; lo ← digit_val b; Some (byte_of (hi * 16 + lo)).

(** The loop of [peer_from_record_id]: slicing a string off a character
    boundary panics ([None]). *)
Fixpoint parse_pairs (bs : list byte) : option (option (list byte)) :=
  match bs with
  | a :: b :: rest =>
    if is_cont a || match rest with c :: _ => is_cont c | [] => false end then None
    else match u8_from_hex a b with
         | None => Some None
         | Some v => r ← parse_pairs rest; Some (p ← r; Some (v :: p))
         end
  | _ => Some (Some [])
  end.

Definition peer_from_record_id (id : string) : option (option PeerId) :=
  if bool_decide (str_len id = PEER_ID_LEN * 2) then parse_pairs (as_bytes id) else Some None.

(** ** Authorized members *)

(** A record: target, granter, role. *)
Abbreviation MemberRecord := (PeerId * PeerId * Role)%type.

(** One turn of the inner loop: the map and whether it changed so far. *)
Definition pass_step (owner : PeerId) (acc : gmap PeerId Role * bool) (rec : MemberRecord)
    : gmap PeerId Role * bool :=
  let '(authorized, changed) := acc in
  let '(target, granter, role) := rec in
  if bool_decide (target = owner) then acc else
  let granter_can_admin :=
    match authorized !! granter with Some r => Role.can_admin r | None => false end in
  if granter_can_admin && negb (bool_decide (authorized !! target = Some role))
  then (<[target := role]> authorized, true) else acc.

Definition pass (owner : PeerId) (records : list MemberRecord) (authorized : gmap PeerId Role)
    : gmap PeerId Role * bool :=
  foldl (pass_step owner) (authorized, false) records.

(** At most [fuel] rounds; [None] when more would be needed. *)
Fixpoint rounds (fuel : nat) (owner : PeerId) (records : list MemberRecord)
    (authorized : gmap PeerId Role) : option (gmap PeerId Role) :=
  match fuel with
  | O => None
  | S fuel =>
    let r := pass owner records authorized in
    if r.2 then rounds fuel owner records r.1 else Some r.1
  end.

Definition authorized_members (fuel : nat) (owner : PeerId) (records : list MemberRecord)
    : option (gmap PeerId Role) :=
  rounds fuel owner records {[owner := Owner]}.

(** ** What the loop computes *)

(** A peer is granted a role by the owner's standing or by a record whose
    granter is itself granted a role that may administer. *)
Inductive granted (owner : PeerId) (records : list MemberRecord) : PeerId → Role → Prop :=
| granted_owner : granted owner records owner Owner
| granted_record target granter role r :
    (target, granter, role) ∈ records → target ≠ owner →
    granted owner records granter r → Role.can_admin r = true →
    granted owner records target role.

(** No two records give one peer different roles. *)
Definition roles_agree (owner : PeerId) (records : list MemberRecord) : Prop :=
  ∀ t g g' r r', (t, g, r) ∈ records → (t, g', r') ∈ records → t ≠ owner → r = r'.

Section authorized.
Context (owner : PeerId) (records : list MemberRecord).

Definition sound (m : gmap PeerId Role) : Prop :=
  m !! owner = Some Owner ∧ ∀ p r, m !! p = Some r → granted owner records p r.

(** A map the loop leaves as it is. *)
Definition closed (m : gmap PeerId Role) : Prop :=
  ∀ t g role r, (t, g, role) ∈ records → t ≠ owner → m !! g = Some r →
    Role.can_admin r = true → m !! t = Some role.

(** A step either changes nothing, its record being inapplicable or already
    applied, or gives an unlisted target its role. *)
Lemma pass_step_cases m b t g role :
  roles_agree owner records → (t, g, role) ∈ records → sound m →
  (∀ p r, m !! p = Some r → p ≠ owner → ∃ g, (p, g, r) ∈ records) →
  pass_step owner (m, b) (t, g, role) = (m, b) ∧
    (t ≠ owner → ∀ r, m !! g = Some r → Role.can_admin r = true → m !! t = Some role) ∨
  pass_step owner (m, b) (t, g, role) = (<[t := role]> m, true) ∧ t ≠ owner ∧ m !! t = None ∧
    granted owner records t role.
Proof.
  intros Ha Hin [Ho Hs] Hr. unfold pass_step. case_bool_decide as Et; [by left|].
  destruct (m !! g) as [rg|] eqn:Eg; simpl; [|by left].
  destruct (Role.can_admin rg) eqn:Ec; simpl; [|left; split; [done|intros _ r [= <-]; congruence]].
  case_bool_decide as Em; simpl; [by left|].
  right. split_and!; try done.
  - destruct (m !! t) as [r'|] eqn:E; [|done]. destruct (Hr t r' E Et) as [g' Hg'].
    by rewrite (Ha t g g' role r') in Em.
  - eapply granted_record; eauto.
Qed.

Definition recorded (m : gmap PeerId Role) : Prop :=
  ∀ p r, m !! p = Some r → p ≠ owner → ∃ g, (p, g, r) ∈ records.

Lemma pass_loop recs : ∀ m b,
  roles_agree owner records → (∀ x, x ∈ recs → x ∈ records) → sound m → recorded m →
  let r := foldl (pass_step owner) (m, b) recs in
  sound r.1 ∧ recorded r.1 ∧ m ⊆ r.1 ∧
  (r.2 = b ∧ r.1 = m ∧
     (∀ t g role rg, (t, g, role) ∈ recs → t ≠ owner → m !! g = Some rg →
       Role.can_admin rg = true → m !! t = Some role) ∨
   r.2 = true ∧ size m < size r.1).
Proof.
  induction recs as [|[[t g] role] recs IH]; intros m b Ha Hsub Hs Hr; cbn [foldl].
  { split_and!; try done. left. split_and!; try done. by intros ???? []%elem_of_nil. }
  assert (Hin : (t, g, role) ∈ records) by (apply Hsub; left).
  destruct (pass_step_cases m b t g role Ha Hin Hs Hr) as [[-> Hnop]|(-> & Ht & Hnone & Hg)].
  - destruct (IH m b) as (Hs' & Hr' & Hsub' & Hcase); auto.
    { intros x Hx. apply Hsub. by right. }
    split_and!; try done. destruct Hcase as [(E2 & E1 & Hall)|?]; [left|by right].
    split_and!; try done. intros t' g' role' rg [Heq|?]%elem_of_cons; [|by eapply Hall].
    simplify_eq. intros. by eapply Hnop.
  - destruct (IH (<[t := role]> m) true) as (Hs' & Hr' & Hsub' & Hcase); auto.
    { intros x Hx. apply Hsub. by right. }
    { destruct Hs as [Ho Hs]. split; [by rewrite lookup_insert_ne|].
      intros p r [[<- <-]|[_ ?]]%lookup_insert_Some; auto. }
    { intros p r [[<- <-]|[_ ?]]%lookup_insert_Some; eauto. }
    split_and!; try done; [etrans; [by apply insert_subseteq|done]|]. right.
    pose proof (map_size_insert_None t role m Hnone).
    destruct Hcase as [(E2 & E1 & _)|[E2 Hlt]]; [rewrite E1|]; split; (done || lia).
Qed.

Lemma recorded_size m : recorded m → size m ≤ S (length records).
Proof.
  intros Hr. rewrite <-length_map_to_list, <-(length_fmap fst (map_to_list m)).
  rewrite <-(length_fmap (λ x : PeerId * PeerId * Role, x.1.1) records).
  change (S (length ?l)) with (length (owner :: l)).
  apply submseteq_length, NoDup_submseteq; [apply NoDup_fst_map_to_list|].
  intros p ([p' r] & -> & Hp%elem_of_map_to_list)%list_elem_of_fmap. simpl. apply elem_of_cons.
  destruct (decide (p' = owner)) as [->|Hne]; [by left|right].
  destruct (Hr p' r Hp Hne) as [g Hg]. apply list_elem_of_fmap. by exists (p', g, r).
Qed.

Lemma rounds_spec fuel : ∀ m,
  roles_agree owner records → sound m → recorded m → S (length records) < fuel + size m →
  ∃ m', rounds fuel owner records m = Some m' ∧ sound m' ∧ closed m'.
Proof.
  induction fuel as [|fuel IH]; intros m Ha Hs Hr Hlt.
  { pose proof (recorded_size m Hr). lia. }
  cbn [rounds]. unfold pass.
  destruct (pass_loop records m false Ha ltac:(done) Hs Hr) as (Hs' & Hr' & _ & [(-> & -> & Hc)|[-> Hsz]]).
  - by exists m.
  - apply IH; try done. lia.
Qed.

Lemma closed_granted m : sound m → closed m → ∀ p r, m !! p = Some r ↔ granted owner records p r.
Proof.
  intros [Ho Hs] Hc p r. split; [apply Hs|].
  induction 1 as [|t g role rg Hin Ht _ IH Hadm]; [done|]. by eapply Hc.
Qed.

Lemma authorized_members_granted fuel :
  roles_agree owner records → length records < fuel →
  ∃ m, authorized_members fuel owner records = Some m ∧
    ∀ p r, m !! p = Some r ↔ granted owner records p r.
Proof.
  intros Ha Hf. unfold authorized_members.
  destruct (rounds_spec fuel {[owner := Owner]}) as (m & Hm & Hs & Hc); try done.
  - split; [by rewrite lookup_singleton_eq|].
    intros p r [<- <-]%lookup_singleton_Some. constructor.
  - intros p r [<- _]%lookup_singleton_Some. done.
  - rewrite map_size_singleton. lia.
  - exists m. split; [done|]. by apply closed_granted.
Qed.

Lemma granted_perm records' p r :
  records ≡ₚ records' → granted owner records p r → granted owner records' p r.
Proof.
  intros Hp. induction 1 as [|t g role rg Hin Ht _ IH Hadm]; [constructor|].
  eapply granted_record; [by rewrite <-Hp| |exact IH|]; done.
Qed.
End authorized.

(** Roles granted by agreeing records are unique. *)
Lemma granted_functional owner records p r r' :
  roles_agree owner records → granted owner records p r → granted owner records p r' → r = r'.
Proof.
  intros Ha H1 H2.
  destruct (authorized_members_granted owner records (S (length records))) as (m & _ & Hm); [done|lia|].
  apply Hm in H1, H2. congruence.
Qed.

(** C10: The authorized set is what the records grant. When no two records
    give one peer different roles, the loop ends within one round more than
    there are records, whatever order they come in, and the map it returns
    holds exactly the peers granted a role by a chain of administrators from
    the owner, with that role; the owner stays Owner whatever records say. *)
Theorem authorized_members_spec owner records records' fuel :
  roles_agree owner records → records ≡ₚ records' → length records < fuel →
  ∃ m, authorized_members fuel owner records = Some m ∧
    authorized_members fuel owner records' = Some m ∧ m !! owner = Some Owner ∧
    ∀ p r, m !! p = Some r ↔ granted owner records p r.
Proof.
  intros Ha Hp Hf.
  destruct (authorized_members_granted owner records fuel) as (m & Hm & Hg); [done..|].
  destruct (authorized_members_granted owner records' fuel) as (m' & Hm' & Hg').
  { intros t g g' r r'. rewrite <-Hp. apply Ha. }
  { by rewrite <-Hp. }
  assert (m' = m) as ->.
  { apply map_eq. intros p. apply option_eq. intros r. rewrite Hg, Hg'.
    split; by apply granted_perm. }
  exists m. split_and!; try done. apply Hg. constructor.
Qed.

(** ** Record ids, again *)

Lemma role_byte r : Role.from_byte (Role.as_byte r) = Some r.
Proof. by destruct r. Qed.

Lemma hex_pair b rest :
  match rest with c :: _ => is_cont c | [] => false end = false →
  parse_pairs (hex_digit (byte_val b / 16) :: hex_digit (byte_val b mod 16) :: rest) =
    r ← parse_pairs rest; Some (p ← r; Some (b :: p)).
Proof.
  intros Hr. cbn [parse_pairs]. rewrite Hr.
  assert (Hb : is_cont (hex_digit (byte_val b / 16)) = false ∧
    u8_from_hex (hex_digit (byte_val b / 16)) (hex_digit (byte_val b mod 16)) = Some b)
    by (by destruct b).
  destruct Hb as [-> ->]. done.
Qed.

Lemma parse_hex_bytes p : parse_pairs (hex_bytes p) = Some (Some p).
Proof.
  unfold hex_bytes. induction p as [|b p IH]; [done|]. rewrite bind_cons. cbn [app].
  rewrite hex_pair.
  - unfold hex_bytes. by rewrite IH.
  - destruct p as [|c p]; [done|]. rewrite bind_cons. by destruct c.
Qed.

Lemma length_hex_bytes p : length (hex_bytes p) = length p * 2.
Proof. unfold hex_bytes. induction p as [|b p IH]; [done|]. rewrite bind_cons, length_app, IH. simpl. lia. Qed.

Lemma as_bytes_record_id p : as_bytes (member_record_id p) = hex_bytes p.
Proof. apply as_bytes_of. Qed.

Lemma record_id_parse p : peer_ok p → peer_from_record_id (member_record_id p) = Some (Some p).
Proof.
  intros Hp. unfold peer_from_record_id, str_len. rewrite as_bytes_record_id, length_hex_bytes, Hp.
  rewrite bool_decide_eq_true_2 by done. apply parse_hex_bytes.
Qed.

Lemma record_id_inj p q : member_record_id p = member_record_id q → p = q.
Proof.
  intros H%(f_equal as_bytes). rewrite !as_bytes_record_id in H.
  apply (f_equal parse_pairs) in H. rewrite !parse_hex_bytes in H. by simplify_eq.
Qed.

(** Peer ids whose first byte has a letter digit have other spellings. *)
Definition upper_id (p : PeerId) : string :=
  String.string_of_list_byte ([x41; x30] ++ drop 2 (hex_bytes p)).

(** A 64-byte id whose second and third byte are one character. *)
Definition split_id : string :=
  String.string_of_list_byte ([x61; xc3; xa9] ++ replicate 61 x30).

(** Record ids name peers, with two defects. Printing a peer id and
    parsing it gives the peer back and distinct peers print differently; but
    the parser also accepts uppercase digits, so two records can name one
    peer, and an id of the right length whose characters straddle a pair of
    bytes makes it panic instead of refusing the id. *)
Theorem record_ids :
  (∀ p, peer_ok p → peer_from_record_id (member_record_id p) = Some (Some p)) ∧
  (∀ p q, member_record_id p = member_record_id q → p = q) ∧
  (let p := xa0 :: replicate 31 x00 in
   upper_id p ≠ member_record_id p ∧ str_ok (upper_id p) ∧
   peer_from_record_id (upper_id p) = Some (Some p)) ∧
  str_ok split_id ∧ peer_from_record_id split_id = None.
Proof.
  split; [apply record_id_parse|]. split; [apply record_id_inj|].
  split; [|split; vm_compute; reflexivity].
  split; [vm_compute; discriminate|]. split; vm_compute; reflexivity.
Qed.

Lemma contradictory_rounds owner t r1 r2 fuel : ∀ m,
  t ≠ owner → r1 ≠ r2 → m !! owner = Some Owner →
  rounds fuel owner [(t, owner, r1); (t, owner, r2)] m = None.
Proof.
  induction fuel as [|fuel IH]; intros m Ht Hr Hm; [done|].
  cbn [rounds]. unfold pass. cbn [foldl pass_step].
  rewrite bool_decide_eq_false_2, Hm by done. cbn [Role.can_admin andb].
  destruct (bool_decide_reflect (m !! t = Some r1)) as [Et|Et]; cbn [negb pass_step].
  - rewrite (bool_decide_eq_false_2 (t = owner)), Hm by done. cbn [Role.can_admin andb].
    rewrite (bool_decide_eq_false_2 (m !! t = Some r2)) by congruence. cbn [negb].
    cbn [fst snd]. apply IH; [done..|]. by rewrite lookup_insert_ne.
  - rewrite (bool_decide_eq_false_2 (t = owner)), lookup_insert_ne, Hm by done.
    cbn [Role.can_admin andb].
    rewrite lookup_insert_eq, (bool_decide_eq_false_2 (Some r1 = Some r2)) by congruence.
    cbn [negb fst snd]. apply IH; [done..|]. by rewrite !lookup_insert_ne.
Qed.

(** C29: Contradictory records never settle. Two records of the owner that
    give one peer different roles, which two spellings of its id allow, make
    every round of the loop change the map again: no number of rounds ends
    the computation. *)
Theorem contradictory_roles_loop owner t r1 r2 fuel :
  t ≠ owner → r1 ≠ r2 →
  authorized_members fuel owner [(t, owner, r1); (t, owner, r2)] = None.
Proof.
  intros Ht Hr. apply contradictory_rounds; [done..|]. by rewrite lookup_singleton_eq.
Qed.

(** ** Signatures *)

Class Ed25519 := {
  verifying_key : list byte → list byte;          (* of a seed *)
  key_sign : list byte → list byte → list byte;   (* seed, message *)
  key_valid : list byte → bool;                   (* VerifyingKey::from_bytes *)
  key_verify : list byte → list byte → list byte → bool;
}.

(** What the scheme promises an honest signer. *)
Class Ed25519Laws {ED : Ed25519} := {
  key_len : ∀ seed, length (verifying_key seed) = PEER_ID_LEN;
  sig_len : ∀ seed msg, length (key_sign seed msg) = SIGNATURE_LEN;
  key_valid_own : ∀ seed, key_valid (verifying_key seed) = true;
  key_verify_own : ∀ seed msg, key_verify (verifying_key seed) msg (key_sign seed msg) = true;
}.

Definition verify_frame {ED : Ed25519} (frame : WriteFrame) : bool :=
  match f_signature frame with
  | None => false
  | Some sig =>
    if negb (key_valid (peer (f_stamp frame))) then false else
    match WriteFrame.signing_bytes frame with
    | Err _ => false
    | Ok bytes => key_verify (peer (f_stamp frame)) bytes sig
    end
  end.

Record Identity := mkIdentity { seed : list byte; peer_id : PeerId }.

Module Identity.
Definition from_seed {ED : Ed25519} (seed : list byte) : Identity :=
  mkIdentity seed (verifying_key seed).
End Identity.

#[export] Instance identity_auth {ED : Ed25519} : FrameAuth Identity :=
  {| sign id bytes := key_sign (seed id) bytes; verify _ frame := verify_frame frame |}.

(** ** Membership over a node *)

Record Membership (P A : Type) := mkMembership { node : SyncNode P A; owner : PeerId }.
Arguments mkMembership {P A}.
Arguments node {P A}.
Arguments owner {P A}.

(** The closure of [authorized_with]'s [filter_map]. *)
Definition parse_record (e : string * list byte * PeerId) : option (option MemberRecord) :=
  let '(id, data, granter) := e in
  target ← peer_from_record_id id;
  Some (target ← target; b ← head data; role ← Role.from_byte b; Some (target, granter, role)).

Fixpoint parse_records (es : list (string * list byte * PeerId)) : option (list MemberRecord) :=
  match es with
  | [] => Some []
  | e :: es => r ← parse_record e; rs ← parse_records es; Some (option_list r ++ rs)
  end.

(** The newest frame of every record id. *)
Definition winners (frames : list WriteFrame) : gmap string WriteFrame :=
  foldl (λ w frame,
    match w !! f_id frame with
    | Some existing =>
      if bool_decide (f_stamp frame ≤ₒ f_stamp existing) then w else <[f_id frame := frame]> w
    | None => <[f_id frame := frame]> w
    end) ∅ frames.

(** The loop of [proof]: each turn visits a new id, so the number of winners
    bounds the turns; [None] marks the fuel running out. *)
Fixpoint chain_from (fuel : nat) (owner : PeerId) (w : gmap string WriteFrame)
    (visited : gset string) (cursor : string) : option (list WriteFrame) :=
  match fuel with
  | O => None
  | S fuel =>
    if bool_decide (cursor ∈ visited) then Some [] else
    match w !! cursor with
    | None => Some []
    | Some frame =>
      let granter := peer (f_stamp frame) in
      if bool_decide (granter = owner) then Some [frame] else
      rest ← chain_from fuel owner w ({[cursor]} ∪ visited) (member_record_id granter);
      Some (frame :: rest)
    end
  end.

Module Membership.
Section ops.
Context {P A : Type} {FP : FramePersister P} {FA : FrameAuth A} {HI : HashIter} {ED : Ed25519}.
Implicit Types m : Membership P A.

Definition authorized_with m (fuel : nat) (extra : list WriteFrame) : option (gmap PeerId Role) :=
  records ← parse_records (SyncNode.entries_with_authors_including (node m) MEMBERS_ENTITY extra);
  authorized_members fuel (owner m) records.

Definition authorized m (fuel : nat) : option (gmap PeerId Role) := authorized_with m fuel [].

Definition is_member m (fuel : nat) (p : PeerId) : option bool :=
  a ← authorized m fuel; Some (bool_decide (is_Some (a !! p))).

Definition proof m : option (list WriteFrame) :=
  let w := winners (SyncNode.frames_for_entity (node m) MEMBERS_ENTITY) in
  chain_from (S (size w)) (owner m) w ∅ (member_record_id (SyncNode.self_id (node m))).

Definition verify_proof m (now : result Z ()) (fuel : nat) (key : PeerId) (presented : list WriteFrame)
    : option (Membership P A * bool) :=
  let verified := filter (λ f, f_entity f = MEMBERS_ENTITY ∧ verify_frame f = true) presented in
  a ← authorized_with m fuel verified;
  let admits := bool_decide (is_Some (a !! key)) in
  if admits && negb (bool_decide (verified = []))
  then Some (mkMembership (SyncNode.ingest (node m) now verified).1 (owner m), admits)
  else Some (m, admits).
End ops.
End Membership.

(** [MembershipChanges::changed]: the events a receiver sees, [None] for a
    lagged receive; skips other entities, ends with the channel. *)
Fixpoint changed (events : list (option MutationEvent)) : list (option MutationEvent) * result () () :=
  match events with
  | [] => ([], Err ())
  | Some ev :: events =>
    if bool_decide (ev_entity ev = MEMBERS_ENTITY) then (events, Ok ()) else changed events
  | None :: events => (events, Ok ())
  end.

(** ** Signed writes verify everywhere *)

Section signed.
Context {P : Type} {FP : FramePersister P} {ED : Ed25519} {EL : Ed25519Laws}.

(** A signed write is accepted by every verifier. A local write of a
    state that signs with an identity carries a 64-byte signature of its
    bytes under its own peer id, so no receiver rejects it, whatever its
    state. *)
Theorem signed_write_verifies (s : SyncState P Identity) sd w op e i d s' f
    (t : SyncState P Identity) w' :
  auth s = Some (Identity.from_seed sd) → self_id s = peer_id (Identity.from_seed sd) →
  SyncState.local_write s w op e i d = (s', Ok f) →
  verify_frame f = true ∧ (∃ sig, f_signature f = Some sig ∧ length sig = SIGNATURE_LEN) ∧
  (SyncState.receive t f w').2 ≠ Rejected.
Proof using EL FP.
  intros Ha Hid. rewrite local_write_cases. destruct (check_lengths e i d) as [[]|] eqn:Hc; [|done].
  cbv zeta. destruct (SyncState.persist _ _).2 as [[]|]; [|done]. intros [_ [= <-]]%pair_inv.
  unfold built. rewrite Ha. set (f0 := mkFrame _ _ _ _ _ _ None).
  assert (Hsb : is_ok (WriteFrame.signing_bytes f0) = true) by (by apply signing_bytes_Ok).
  destruct (WriteFrame.signing_bytes f0) as [bs|] eqn:Eb; [|done].
  assert (Hv : verify_frame (with_signature f0 (Some (sign (Identity.from_seed sd) bs))) = true).
  { unfold verify_frame. cbn [f_signature with_signature].
    rewrite signing_bytes_with_signature, Eb. simpl. rewrite Hid. simpl.
    by rewrite key_valid_own, key_verify_own. }
  split; [done|]. split; [eexists; split; [done|apply sig_len]|].
  rewrite receive_cases. cbv zeta.
  replace (match auth t with Some a => _ | None => _ end) with false
    by (destruct (auth t) as [a|]; [change (verify a ?x) with (verify_frame x); by rewrite Hv|done]).
  unfold ReplLog.classify. destruct (negb _) eqn:En.
  - repeat case_bool_decide; done.
  - destruct (SyncState.persist _ _).2; simpl; [|done]. repeat case_bool_decide; done.
Qed.
End signed.

(** ** Membership proofs *)

(** What one membership frame says. *)
Definition frame_role (f : WriteFrame) : option Role :=
  if is_delete (f_op f) then None else b ← head (f_data f); Role.from_byte b.

(** The records the winning frames stand for. *)
Definition grants (w : gmap string WriteFrame) (t g : PeerId) (r : Role) : Prop :=
  ∃ f, w !! member_record_id t = Some f ∧ peer (f_stamp f) = g ∧ frame_role f = Some r.

(** The chain of winners from a peer up to the owner. *)
Inductive links (owner : PeerId) (w : gmap string WriteFrame) : PeerId → list WriteFrame → Prop :=
| links_last p f : w !! member_record_id p = Some f → peer (f_stamp f) = owner → links owner w p [f]
| links_more p f fs :
    w !! member_record_id p = Some f → peer (f_stamp f) ≠ owner →
    links owner w (peer (f_stamp f)) fs → links owner w p (f :: fs).

Section chain.
Context (owner : PeerId) (w : gmap string WriteFrame).

Lemma links_det p fs gs : links owner w p fs → links owner w p gs → fs = gs.
Proof.
  intros Hf. revert gs. induction Hf as [p f Hw Ho|p f fs Hw Ho Hl IH]; intros gs Hg;
    inversion Hg; simplify_eq; try done. f_equal. by apply IH.
Qed.

(** The ids a chain visits, in order. *)
Fixpoint chain_ids (p : PeerId) (fs : list WriteFrame) : list string :=
  match fs with
  | [] => []
  | f :: fs => member_record_id p :: chain_ids (peer (f_stamp f)) fs
  end.

Lemma links_suffix p fs id :
  links owner w p fs → id ∈ chain_ids p fs →
  ∃ q gs, id = member_record_id q ∧ links owner w q gs ∧ length gs ≤ length fs.
Proof.
  induction 1 as [p f Hw Ho|p f fs Hw Ho Hl IH]; simpl.
  - intros ->%list_elem_of_singleton. exists p, [f]. split_and!; [done|by constructor|done].
  - intros [->|Hin]%elem_of_cons.
    + exists p, (f :: fs). split_and!; [done|by constructor|done].
    + destruct (IH Hin) as (q & gs & ? & ? & ?). exists q, gs. split_and!; (done || lia).
Qed.

Lemma links_NoDup p fs : links owner w p fs → NoDup (chain_ids p fs).
Proof.
  induction 1 as [p f Hw Ho|p f fs Hw Ho Hl IH]; simpl; [apply NoDup_singleton|].
  apply NoDup_cons. split; [|done]. intros Hin.
  destruct (links_suffix _ _ _ Hl Hin) as (q & gs & Hid & Hgs & Hlen).
  apply record_id_inj in Hid as <-.
  pose proof (links_det p gs (f :: fs) Hgs ltac:(by constructor)) as ->. simpl in Hlen. lia.
Qed.

Lemma links_ids_dom p fs id : links owner w p fs → id ∈ chain_ids p fs → id ∈ dom w.
Proof.
  intros Hl Hin. destruct (links_suffix _ _ _ Hl Hin) as (q & gs & -> & Hq & _).
  apply elem_of_dom. inversion Hq; eauto.
Qed.

Lemma length_chain_ids p fs : length (chain_ids p fs) = length fs.
Proof. revert p. induction fs as [|f fs IH]; intros p; simpl; [done|]. by rewrite IH. Qed.

Lemma links_size p fs : links owner w p fs → length fs ≤ size w.
Proof.
  intros Hl. rewrite <-(length_chain_ids p fs), <-length_map_to_list, <-(length_fmap fst (map_to_list w)).
  apply submseteq_length, NoDup_submseteq; [by apply links_NoDup|].
  intros id Hin. apply (links_ids_dom p fs) in Hin as [f Hf]%elem_of_dom; [|done].
  apply list_elem_of_fmap. exists (id, f). split; [done|]. by apply elem_of_map_to_list.
Qed.

(** The loop follows the chain. *)
Lemma chain_from_links fuel : ∀ visited p fs,
  links owner w p fs → (∀ id, id ∈ chain_ids p fs → id ∉ visited) → length fs < fuel →
  chain_from fuel owner w visited (member_record_id p) = Some fs.
Proof.
  induction fuel as [|fuel IH]; intros visited p fs Hl Hv Hf; [lia|]. cbn [chain_from].
  pose proof (links_NoDup p fs Hl) as Hnd.
  inversion Hl as [q f Hw Ho|q f gs Hw Ho Hg]; subst; simpl in *.
  - rewrite bool_decide_eq_false_2 by (apply Hv; left). rewrite Hw.
    by rewrite bool_decide_eq_true_2.
  - rewrite bool_decide_eq_false_2 by (apply Hv; left). rewrite Hw.
    rewrite bool_decide_eq_false_2 by done. apply NoDup_cons in Hnd as [Hni Hnd].
    rewrite (IH _ _ gs); [done|done| |lia]. intros id Hin.
    rewrite elem_of_union, elem_of_singleton. intros [->|Hvis]; [done|].
    by apply (Hv id); [right|].
Qed.

(** A granted peer other than the owner has a chain to it, every record of
    which gives a role, an administering one above the first. *)
Lemma granted_links records p r :
  (∀ t g r, (t, g, r) ∈ records → grants w t g r) → granted owner records p r → p ≠ owner →
  ∃ fs, links owner w p fs ∧ ∃ f, head fs = Some f ∧ frame_role f = Some r ∧
    ∀ i f', fs !! S i = Some f' → ∃ r', frame_role f' = Some r' ∧ Role.can_admin r' = true.
Proof.
  intros Hrec. induction 1 as [|t g role rg Hin Ht Hg IH Hadm]; [done|]. intros _.
  destruct (Hrec _ _ _ Hin) as (f & Hf & <- & Hrole).
  destruct (decide (peer (f_stamp f) = owner)) as [Ho|Ho].
  - exists [f]. split; [by constructor|]. exists f. split_and!; try done.
  - destruct (IH Ho) as (fs & Hl & f1 & Hhd & Hr1 & Hall). exists (f :: fs).
    split; [by constructor|]. exists f. split_and!; try done.
    intros [|i] f' Hi; simpl in Hi; [|by eapply Hall].
    destruct fs; simpl in *; [done|]. simplify_eq. eauto.
Qed.
End chain.

(** ** Receiving a proof *)

Lemma winners_frames frames id f :
  winners frames !! id = Some f → f ∈ frames ∧ f_id f = id.
Proof.
  unfold winners. revert id f. induction frames as [|g frames IH] using rev_ind; intros id f; [done|].
  rewrite foldl_app. cbn [foldl]. set (w := foldl _ _ frames) in *.
  assert (Hkeep : w !! id = Some f → f ∈ frames ++ [g] ∧ f_id f = id).
  { intros [? ?]%IH. split; [|done]. apply elem_of_app. by left. }
  assert (Hnew : <[f_id g := g]> w !! id = Some f → f ∈ frames ++ [g] ∧ f_id f = id).
  { intros [[<- <-]|[_ ?]]%lookup_insert_Some; [|by auto]. split; [|done].
    apply elem_of_app. right. left. }
  destruct (w !! f_id g); [case_bool_decide|]; auto.
Qed.

Lemma winner_only D key w :
  w ∈ D → write_key w = key → (∀ v, v ∈ D → write_key v = key → v = w) → winner D key = Some w.
Proof.
  intros Hw Hk Hall. destruct (winner D key) as [v|] eqn:Ev.
  - apply winner_Some in Ev as (Hv & Hkv & _). f_equal. auto.
  - by apply (proj1 (winner_None D key) Ev) in Hw.
Qed.

Lemma merge_frames_models fs : ∀ a D,
  models a D →
  models (foldl (λ a f, (Applier.merge a (WriteFrame.into_stamped f)).1) a fs)
    (D ++ (WriteFrame.into_stamped <$> fs)).
Proof.
  induction fs as [|f fs IH]; intros a D Hm; [by rewrite app_nil_r|].
  rewrite fmap_cons. cbn [foldl]. rewrite cons_middle, app_assoc. apply IH. by apply merge_models.
Qed.

Lemma parse_records_spec es :
  (∀ e, e ∈ es → is_Some (parse_record e)) →
  ∃ rs, parse_records es = Some rs ∧
    ∀ x, x ∈ rs ↔ ∃ e, e ∈ es ∧ parse_record e = Some (Some x).
Proof.
  induction es as [|e es IH]; intros Hall.
  { exists []. split; [done|]. intros x. setoid_rewrite elem_of_nil. naive_solver. }
  destruct (Hall e ltac:(left)) as [r Hr].
  destruct IH as (rs & Hrs & Hx); [intros; apply Hall; by right|].
  exists (option_list r ++ rs). cbn [parse_records]. rewrite Hr, Hrs. split; [done|].
  intros x. rewrite elem_of_app, Hx. setoid_rewrite elem_of_cons.
  destruct r as [y|]; simpl; [rewrite list_elem_of_singleton|rewrite elem_of_nil]; naive_solver.
Qed.

Section verify.
Context {P A : Type} {FP : FramePersister P} {FA : FrameAuth A} {HI : HashIter} {ED : Ed25519}.

(** The entries a fresh receiver reads after merging a chain: its frames. *)
Lemma chain_entries (s : SyncState P A) D fs id d g :
  models (applier s) D → (∀ w, w ∈ D → sw_entity w ≠ MEMBERS_ENTITY) → fs ≠ [] →
  (∀ f, f ∈ fs → f_entity f = MEMBERS_ENTITY) → (∀ f f', f ∈ fs → f' ∈ fs → f_id f = f_id f' → f = f') →
  (id, d, g) ∈ SyncState.entries_with_authors_including s MEMBERS_ENTITY fs ↔
    ∃ f, f ∈ fs ∧ f_id f = id ∧ f_data f = d ∧ peer (f_stamp f) = g ∧ is_delete (f_op f) = false.
Proof.
  intros Hm HD Hne He Hu. unfold SyncState.entries_with_authors_including.
  destruct fs as [|f0 fs0]; [done|]. set (fs := f0 :: fs0) in *.
  rewrite elem_of_entries_with_authors.
  rewrite (visible_with_author_models _ _ _ _ (merge_frames_models fs _ D Hm)).
  assert (Hw : ∀ f, f ∈ fs → winner (D ++ (WriteFrame.into_stamped <$> fs)) (MEMBERS_ENTITY, f_id f)
    = Some (WriteFrame.into_stamped f)).
  { intros f Hf. apply winner_only.
    - apply elem_of_app. right. by apply list_elem_of_fmap_2.
    - unfold write_key. simpl. by rewrite (He f Hf).
    - intros v [Hv|(f' & -> & Hf')%list_elem_of_fmap]%elem_of_app Hk; unfold write_key in Hk; simplify_eq/=.
      + by destruct (HD v Hv).
      + f_equal. by apply Hu. }
  split.
  - destruct (winner _ _) as [v|] eqn:Ev; [|done].
    apply winner_Some in Ev as ([Hv|(f & -> & Hf)%list_elem_of_fmap]%elem_of_app & Hk & _);
      unfold write_key in Hk; simplify_eq/=; [by destruct (HD v Hv)|].
    intros Hs. exists f. destruct (is_delete (f_op f)) eqn:Ed; simplify_eq/=. done.
  - intros (f & Hf & <- & <- & <- & Hd). rewrite (Hw f Hf). simpl. by rewrite Hd.
Qed.

(** What a chain of winners makes of the records a receiver parses. *)
Lemma chain_records (s : SyncState P A) D fs :
  models (applier s) D → (∀ w, w ∈ D → sw_entity w ≠ MEMBERS_ENTITY) → fs ≠ [] →
  (∀ f, f ∈ fs → f_entity f = MEMBERS_ENTITY) → (∀ f f', f ∈ fs → f' ∈ fs → f_id f = f_id f' → f = f') →
  (∀ f, f ∈ fs → ∃ t, peer_ok t ∧ f_id f = member_record_id t) →
  ∃ rs, parse_records (SyncState.entries_with_authors_including s MEMBERS_ENTITY fs) = Some rs ∧
    ∀ t g r, (t, g, r) ∈ rs ↔
      ∃ f, f ∈ fs ∧ peer_ok t ∧ f_id f = member_record_id t ∧ peer (f_stamp f) = g ∧
           frame_role f = Some r.
Proof.
  intros Hm HD Hne He Hu Hid.
  pose proof (chain_entries s D fs) as Hce.
  assert (Hparse : ∀ t d g, peer_ok t → parse_record (member_record_id t, d, g) =
    Some (b ← head d; role ← Role.from_byte b; Some (t, g, role))).
  { intros t d g Ht. unfold parse_record. by rewrite record_id_parse. }
  destruct (parse_records_spec (SyncState.entries_with_authors_including s MEMBERS_ENTITY fs))
    as (rs & Hrs & Hx).
  { intros [[id d] g] (f & Hf & <- & _)%Hce; try done. destruct (Hid f Hf) as (t & Ht & ->).
    rewrite Hparse by done. eauto. }
  exists rs. split; [done|]. intros t g r. rewrite Hx. unfold frame_role. split.
  - intros ([[id d] g'] & (f & Hf & <- & <- & <- & Hd)%Hce & Hp); try done.
    destruct (Hid f Hf) as (t' & Ht' & Eid). rewrite Eid, Hparse in Hp by done.
    exists f. rewrite Hd. destruct (head (f_data f)); simplify_option_eq. done.
  - intros (f & Hf & Ht & Eid & <- & Hr). exists (f_id f, f_data f, peer (f_stamp f)). split.
    + apply Hce; try done. exists f. split_and!; try done. by destruct (is_delete (f_op f)).
    + rewrite Eid, Hparse by done. destruct (is_delete (f_op f)); [done|].
      destruct (head (f_data f)); by simplify_option_eq.
Qed.

(** Climbing a chain grants its foot the role of its first frame. *)
Lemma links_granted ow w rs p fs :
  links ow w p fs → p ≠ ow →
  (∀ i f, fs !! S i = Some f → ∃ r, frame_role f = Some r ∧ Role.can_admin r = true) →
  (∀ t f r, w !! member_record_id t = Some f → f ∈ fs → frame_role f = Some r →
     (t, peer (f_stamp f), r) ∈ rs) →
  ∀ f r, head fs = Some f → frame_role f = Some r → granted ow rs p r.
Proof.
  induction 1 as [p f Hw Ho|p f fs Hw Ho Hl IH]; intros Hp Hadm Hrs f' r [= <-] Hr.
  - eapply (granted_record _ _ _ _ _ Owner); [eapply (Hrs p); [done|left|done]|done| |done].
    rewrite Ho. constructor.
  - assert (∃ f1, head fs = Some f1) as [f1 Hf1] by (inversion Hl; subst; simpl; eauto).
    destruct fs as [|f1' fs]; simplify_eq/=.
    destruct (Hadm 0 f1 eq_refl) as (r1 & Hr1 & Ha1).
    eapply granted_record; [eapply (Hrs p); [done|left|done]|done| |exact Ha1].
    eapply (IH Ho); [|intros; eapply Hrs; [done|by right|done]|done|done].
    intros i g Hg. by apply (Hadm (S i)).
Qed.
End verify.

Lemma chain_elem owner w p fs f :
  links owner w p fs → f ∈ fs → ∃ q, w !! member_record_id q = Some f ∧
    (q = p ∨ ∃ g, g ∈ fs ∧ q = peer (f_stamp g)).
Proof.
  induction 1 as [p g Hw Ho|p g fs Hw Ho Hl IH].
  - intros ->%list_elem_of_singleton. eauto.
  - intros [->|Hin]%elem_of_cons; [eauto|]. destruct (IH Hin) as (q & Hq & [->|(g' & Hg' & ->)]).
    + eexists. split; [done|]. right. exists g. split; [left|done].
    + eexists. split; [done|]. right. exists g'. split; [by right|done].
Qed.

Lemma chain_frames owner frames p fs :
  (∀ f, f ∈ frames → peer_ok (peer (f_stamp f))) → peer_ok p → links owner (winners frames) p fs →
  ∀ f, f ∈ fs → f ∈ frames ∧ ∃ q, peer_ok q ∧ f_id f = member_record_id q ∧
    winners frames !! member_record_id q = Some f.
Proof.
  intros Hfr Hp Hl.
  assert (Hfs : ∀ f, f ∈ fs → f ∈ frames).
  { intros f Hf. destruct (chain_elem _ _ _ _ _ Hl Hf) as (q & Hq & _).
    by apply winners_frames in Hq as [? _]. }
  intros f Hf. split; [by apply Hfs|].
  destruct (chain_elem _ _ _ _ _ Hl Hf) as (q & Hq & Hor). apply winners_frames in Hq as Hid.
  exists q. split_and!; [|apply Hid|done].
  destruct Hor as [->|(g & Hg' & ->)]; [done|by apply Hfr, Hfs].
Qed.

Section bootstrap.
Context {P A : Type} {FP : FramePersister P} {FA : FrameAuth A} {HI : HashIter} {ED : Ed25519}.
Implicit Types m : Membership P A.

(** A membership proof breaks the bootstrap deadlock. If the membership
    frames a peer holds grant it a role, then the chain it presents makes a
    receiver that knows only the owner, and holds no membership record of its
    own, let it in: the chain is found, every frame of it passes the
    receiver's checks, and the receiver's own evaluation grants the role. *)
Theorem proof_admits m m' records r D now :
  let frames := SyncNode.frames_for_entity (node m) MEMBERS_ENTITY in
  let self := SyncNode.self_id (node m) in
  (∀ f, f ∈ frames → verify_frame f = true ∧ peer_ok (peer (f_stamp f))) →
  (∀ t g r, (t, g, r) ∈ records → grants (winners frames) t g r) →
  granted (owner m) records self r → self ≠ owner m → peer_ok self →
  owner m' = owner m → models (applier (state (node m'))) D →
  (∀ w, w ∈ D → sw_entity w ≠ MEMBERS_ENTITY) →
  ∃ chain n, Membership.proof m = Some chain ∧
    ∀ fuel, n ≤ fuel → ∃ m'', Membership.verify_proof m' now fuel self chain = Some (m'', true).
Proof.
  intros frames self Hfr Hrec Hg Hne Hself Ho HD HDm.
  destruct (granted_links (owner m) (winners frames) records self r) as (fs & Hl & f0 & Hf0 & Hr0 & Hadm);
    [done..|].
  assert (Hchain : Membership.proof m = Some fs).
  { unfold Membership.proof. fold frames self. apply chain_from_links; [done| |].
    - intros id _. apply not_elem_of_empty.
    - pose proof (links_size _ _ _ _ Hl). lia. }
  pose proof (chain_frames (owner m) frames self fs) as Hin.
  specialize (Hin ltac:(intros f Hf; by apply Hfr) Hself Hl).
  assert (Hent : ∀ f, f ∈ fs → f_entity f = MEMBERS_ENTITY).
  { intros f [Hf _]%Hin. by apply list_elem_of_filter in Hf as [? _]. }
  assert (Hids : ∀ f f', f ∈ fs → f' ∈ fs → f_id f = f_id f' → f = f').
  { intros f f' (_ & q & _ & E & Hq)%Hin (_ & q' & _ & E' & Hq')%Hin Heq. congruence. }
  assert (Hnil : fs ≠ []) by (by intros ->).
  destruct (chain_records (state (node m')) D fs) as (rs & Hrs & Hx); try done.
  { intros f (_ & q & ? & ? & _)%Hin. eauto. }
  assert (Hra : roles_agree (owner m) rs).
  { intros t g g' r1 r2 (f & Hf & _ & E & _ & R)%Hx (f' & Hf' & _ & E' & _ & R')%Hx _.
    rewrite (Hids f f') in R by congruence. congruence. }
  assert (Hgr : granted (owner m) rs self r).
  { eapply (links_granted _ (winners frames) rs self fs); try done.
    intros t f rr Hw Hf Hrr. apply Hx. exists f. split_and!; try done.
    - destruct (Hin f Hf) as (_ & q & Hq & E & _). apply winners_frames in Hw as [_ Hw].
      rewrite E in Hw. by apply record_id_inj in Hw as <-.
    - by apply winners_frames in Hw as [_ ?]. }
  exists fs, (S (length rs)). split; [done|]. intros fuel Hfuel.
  destruct (authorized_members_granted (owner m) rs fuel) as (am & Ham & Hamg); [done|lia|].
  unfold Membership.verify_proof. rewrite list_filter_all by (intros f Hf; split; [by apply Hent|by apply Hfr, Hin]).
  unfold Membership.authorized_with. unfold SyncNode.entries_with_authors_including.
  rewrite Hrs. cbn [mbind option_bind]. rewrite Ho, Ham. cbn [mbind option_bind].
  rewrite (bool_decide_eq_true_2 (is_Some _)) by (exists r; by apply Hamg).
  rewrite bool_decide_eq_false_2 by done. simpl. eauto.
Qed.
End bootstrap.

(** ** Examples *)

(** A scheme that meets the interface: the public key is the seed, and a
    signature is a prefix of key and message. *)
Definition toy_key (sd : list byte) : list byte := take 32 (sd ++ replicate 32 x00).
Definition toy_sig (pk msg : list byte) : list byte := take 64 ((pk ++ msg) ++ replicate 64 x00).

Lemma length_padded {B} n (l : list B) x : length (take n (l ++ replicate n x)) = n.
Proof. rewrite length_take, length_app, length_replicate. lia. Qed.

#[export] Instance toy_ed25519 : Ed25519 := {|
  verifying_key := toy_key;
  key_sign sd msg := toy_sig (toy_key sd) msg;
  key_valid pk := bool_decide (length pk = 32);
  key_verify pk msg sig := bool_decide (sig = toy_sig pk msg);
|}.

#[export] Instance toy_laws : Ed25519Laws.
Proof.
  split; intros.
  - apply length_padded.
  - apply length_padded.
  - apply bool_decide_eq_true_2, length_padded.
  - by apply bool_decide_eq_true_2.
Qed.

Definition ex_id (n : byte) : Identity := Identity.from_seed [n].

Definition ex_signer (n : byte) : SyncNode NoSink Identity :=
  SyncNode.from_state (SyncState.set_auth (SyncState.new (peer_id (ex_id n))) (ex_id n)).

Definition ex_invite (n : SyncNode NoSink Identity) (t : PeerId) (r : Role)
    : SyncNode NoSink Identity * list WriteFrame :=
  let w := SyncNode.local_write n (Ok 100%Z) Insert MEMBERS_ENTITY (member_record_id t) [Role.as_byte r] in
  (w.1, match w.2 with Ok f => [f] | Err _ => [] end).

Lemma authorized_members_spec_witness :
  let o := ex_peer x01 in let a := ex_peer x02 in let b := ex_peer x03 in
  let records := [(b, a, Member); (a, o, Admin); (ex_peer x04, b, Admin)] in
  ∃ m, authorized_members 4 o records = Some m ∧ m !! b = Some Member ∧ m !! ex_peer x04 = None.
Proof.
  intros o a b records.
  destruct (authorized_members_spec o records records 4) as (m & Hm & _ & _ & Hg).
  - intros t g g' r r'. unfold records. rewrite !elem_of_cons, !elem_of_nil.
    intros Hr Hr'. destruct_or?; simplify_eq; done.
  - done.
  - simpl. lia.
  - exists m. split; [exact Hm|]. split.
    + apply Hg. apply (granted_record o records b a Member Admin); [left|discriminate| |done].
      apply (granted_record o records a o Admin Owner); [right; left|discriminate|constructor|done].
    + assert (Hl : (authorized_members 4 o records ≫= λ m, m !! ex_peer x04) = None)
        by (vm_compute; reflexivity).
      rewrite Hm in Hl. exact Hl.
Defined.

Lemma contradictory_roles_loop_witness :
  let o := ex_peer x01 in let t := xa0 :: replicate 31 x00 in
  authorized_members 100 o [(t, o, Admin); (t, o, Member)] = None.
Proof. intros o t. apply contradictory_roles_loop; discriminate. Defined.

Lemma signed_write_verifies_witness :
  ∃ f, (SyncState.local_write (state (ex_signer x01)) 100 Insert "task" "t1" [x2a]).2 = Ok f ∧
    verify_frame f = true.
Proof.
  destruct (SyncState.local_write (state (ex_signer x01)) 100 Insert "task" "t1" [x2a]) as [s' [f|e]] eqn:E.
  - exists f. split; [done|].
    refine (proj1 (signed_write_verifies (state (ex_signer x01)) [x01] 100 Insert "task" "t1" [x2a] s' f
      (state (ex_signer x02)) 50 eq_refl eq_refl E)).
  - vm_compute in E. discriminate.
Defined.

(** Owner 1 makes 2 an admin, 2 invites 3; peer 3 holds both frames and
    presents them to peer 4, which knows only the owner. *)
Definition ex_owner := ex_invite (ex_signer x01) (peer_id (ex_id x02)) Admin.
Definition ex_admin := ex_invite (ex_signer x02) (peer_id (ex_id x03)) Member.
Definition ex_member : SyncNode NoSink Identity :=
  (SyncNode.ingest (ex_signer x03) (Ok 100%Z) (ex_owner.2 ++ ex_admin.2)).1.

Definition ex_presenter := mkMembership ex_member (peer_id (ex_id x01)).
Definition ex_gate := mkMembership (ex_signer x04) (peer_id (ex_id x01)).

Definition ex_grants : list MemberRecord :=
  [(peer_id (ex_id x02), peer_id (ex_id x01), Admin); (peer_id (ex_id x03), peer_id (ex_id x02), Member)].

Lemma ex_grants_hold t g r :
  (t, g, r) ∈ ex_grants →
  grants (winners (SyncNode.frames_for_entity ex_member MEMBERS_ENTITY)) t g r.
Proof.
  unfold ex_grants. rewrite !elem_of_cons, elem_of_nil. intros [Heq|[Heq|[]]]; simplify_eq.
  - eexists. split; [vm_compute; reflexivity|]. split; vm_compute; reflexivity.
  - eexists. split; [vm_compute; reflexivity|]. split; vm_compute; reflexivity.
Qed.

Lemma ex_member_self : SyncNode.self_id (node ex_presenter) = peer_id (ex_id x03).
Proof. vm_compute. reflexivity. Qed.

Lemma ex_granted : granted (peer_id (ex_id x01)) ex_grants (peer_id (ex_id x03)) Member.
Proof.
  apply (granted_record _ _ _ (peer_id (ex_id x02)) _ Admin); [right; left|discriminate| |done].
  apply (granted_record _ _ _ (peer_id (ex_id x01)) _ Owner); [left|discriminate|constructor|done].
Qed.

Lemma proof_admits_witness :
  ∃ chain n, Membership.proof ex_presenter = Some chain ∧ length chain = 2 ∧
    ∃ m'', Membership.verify_proof ex_gate (Ok 100%Z) n (peer_id (ex_id x03)) chain = Some (m'', true).
Proof.
  rewrite <-ex_member_self.
  destruct (proof_admits ex_presenter ex_gate ex_grants Member [] (Ok 100%Z)) as (chain & n & Hp & Hv).
  - intros f Hf. revert f Hf. apply Forall_forall. unfold peer_ok. decide_compute.
  - apply ex_grants_hold.
  - rewrite ex_member_self. apply ex_granted.
  - rewrite ex_member_self. discriminate.
  - vm_compute. reflexivity.
  - reflexivity.
  - apply models_new.
  - intros w Hw. by apply elem_of_nil in Hw.
  - exists chain, n. split; [exact Hp|]. split; [|by apply Hv].
    assert (Hl : length <$> Membership.proof ex_presenter = Some 2) by (vm_compute; reflexivity).
    rewrite Hp in Hl. by injection Hl.
Defined.

(** Records without authority are not ignored. A record written later by
    a peer of no standing replaces the owner's invitation, since records are
    resolved by stamp before authority is looked at, and the invited peer
    loses its membership; and a self-signed membership frame with an id that
    straddles characters makes evaluating a proof panic. *)
Theorem hostile_records :
  let invited := ex_owner.1 in
  let outsider := ex_invite (SyncNode.ingest (ex_signer x05) (Ok 100%Z) ex_owner.2).1
                    (peer_id (ex_id x02)) Admin in
  let attacked := (SyncNode.ingest invited (Ok 100%Z) outsider.2).1 in
  let member n := Membership.is_member (mkMembership n (peer_id (ex_id x01))) 10 (peer_id (ex_id x02)) in
  let bad := SyncNode.local_write (ex_signer x05) (Ok 100%Z) Insert MEMBERS_ENTITY split_id [x02] in
  member invited = Some true ∧ member attacked = Some false ∧
  match bad.2 with
  | Ok f => verify_frame f = true ∧ ∀ fuel key,
      Membership.verify_proof ex_gate (Ok 100%Z) fuel key [f] = None
  | Err _ => False
  end.
Proof.
  split; [vm_compute; reflexivity|]. split; [vm_compute; reflexivity|].
  assert (Hv : match (SyncNode.local_write (ex_signer x05) (Ok 100%Z) Insert MEMBERS_ENTITY split_id [x02]).2 with
    | Ok f => verify_frame f = true ∧ f_entity f = MEMBERS_ENTITY ∧
        parse_records (SyncNode.entries_with_authors_including (node ex_gate) MEMBERS_ENTITY [f]) = None
    | Err _ => False end) by (vm_compute; by split).
  destruct (SyncNode.local_write _ _ _ _ _ _).2 as [f|]; [|done].
  destruct Hv as (Hv & He & Hp). split; [done|]. intros fuel key.
  unfold Membership.verify_proof. rewrite list_filter_all by (by intros ? ->%list_elem_of_singleton).
  unfold Membership.authorized_with. by rewrite Hp.
Qed.
