(* ===== verification/Pairing.v ===== *)
(** * Device pairing

    [crates/stitch-p2p/src/pairing.rs]: a one-time six-digit code, SPAKE2 with
    the code as password, and confirmation tags over a transcript that pins
    both peers' transport keys. SPAKE2, HKDF and HMAC are interfaces; the
    random generator is the sequence of values it draws. *)
From S2P Require Import Prelude Hlc Wire SyncState Membership.

Definition DOMAIN : list byte := as_bytes "stitch-p2p/pairing/v1".
Definition CONFIRM_OWNER : list byte := as_bytes "confirm:owner".
Definition CONFIRM_DEVICE : list byte := as_bytes "confirm:device".
Definition CODE_DIGITS : nat := 6.
Definition CODE_MODULUS : Z := 1000000.
Definition CODE_REJECT_AT : Z := 4294000000.
Definition OFFER_TTL_MS : Z := 300000.
Definition CONFIRM_KEY_LEN : nat := 32.

Inductive PairingError := Expired | ConfirmationFailed | Malformed | InvalidCode | Internal.

#[global] Instance PairingError_eq_dec : EqDecision PairingError.
Proof. solve_decision. Defined.

(** ** The primitives *)

Class PairingCrypto := {
  Spake : Type;                                                   (* a party's state *)
  start_a : Z → list byte → list byte → list byte → Spake * list byte;  (* rng, password, ids *)
  start_b : Z → list byte → list byte → list byte → Spake * list byte;
  finish : Spake → list byte → option (list byte);
  hkdf_expand : list byte → list byte → list byte → option (list byte); (* salt, secret, info *)
  hmac : list byte → list byte → option (list byte);                    (* key, message *)
}.

(** ** Codes *)

(** [b.is_ascii_digit()]. *)
Definition is_ascii_digit (b : byte) : bool := byte_in 48 57 b.

(** [format!("{value:06}")] of a value below a million. *)
Definition digit (n : Z) : byte := byte_of (48 + n mod 10).
Definition format06 (v : Z) : string :=
  String.string_of_list_byte
    [digit (v / 100000); digit (v / 10000); digit (v / 1000); digit (v / 100); digit (v / 10); digit v].

Record PairingCode := mkCode { code : string }.

Module PairingCode.
(** The rejection loop over the values the generator draws; [None] while all
    of them are rejected. *)
Fixpoint generate (draws : list Z) : option PairingCode :=
  match draws with
  | [] => None
  | candidate :: draws =>
    if bool_decide (candidate < CODE_REJECT_AT)%Z
    then Some (mkCode (format06 (candidate mod CODE_MODULUS)))
    else generate draws
  end.

Definition parse (input : string) : result PairingCode PairingError :=
  if bool_decide (str_len input = CODE_DIGITS) && forallb is_ascii_digit (as_bytes input)
  then Ok (mkCode input) else Err InvalidCode.
End PairingCode.

(** ** Transcript and keys *)

(** [part.len() as u32] keeps the low 32 bits. *)
Definition length_prefixed (part : list byte) : list byte :=
  to_be_bytes 4 (u32_wrap (Z.of_nat (length part))) ++ part.

Definition transcript (owner_key device_key : PeerId) (message_a message_b : list byte) : list byte :=
  DOMAIN ++ ([owner_key; device_key; message_a; message_b] ≫= length_prefixed).

Section protocol.
Context {CR : PairingCrypto}.

Definition derive_confirm_keys (secret : list byte) : result (list byte * list byte) PairingError :=
  let? key_owner := ok_or (hkdf_expand DOMAIN secret CONFIRM_OWNER) Internal in
  let? key_device := ok_or (hkdf_expand DOMAIN secret CONFIRM_DEVICE) Internal in
  Ok (key_owner, key_device).

Definition compute_mac (key transcript : list byte) : result (list byte) PairingError :=
  ok_or (hmac key transcript) Internal.

Definition verify_mac (key transcript tag : list byte) : result () PairingError :=
  let? expected := ok_or (hmac key transcript) Internal in
  if bool_decide (tag = expected) then Ok () else Err ConfirmationFailed.

(** ** The owner *)

Record PairingOffer := mkOffer { offer_code : PairingCode; expires_at_ms : Z }.

Record OwnerConfirm := mkOwnerConfirm {
  oc_key_owner : list byte;
  oc_key_device : list byte;
  oc_transcript : list byte;
  oc_device_key : PeerId;
}.

Definition offer_new (now_ms : Z) (draws : list Z) : option (PairingOffer * PairingCode) :=
  c ← PairingCode.generate draws;
  Some (mkOffer c (Z.min (now_ms + OFFER_TTL_MS) u64_max), c).

Definition accept (offer : PairingOffer) (rng : Z) (owner : Identity) (device_key : PeerId)
    (device_hello : list byte) (now_ms : Z) : result (OwnerConfirm * list byte) PairingError :=
  if bool_decide (expires_at_ms offer < now_ms)%Z then Err Expired else
  let owner_key := peer_id owner in
  let '(state, message_a) := start_a rng (as_bytes (code (offer_code offer))) owner_key device_key in
  let? secret := ok_or (finish state device_hello) Malformed in
  let? keys := derive_confirm_keys secret in
  Ok (mkOwnerConfirm keys.1 keys.2 (transcript owner_key device_key message_a device_hello) device_key,
      message_a).

Definition confirm (oc : OwnerConfirm) (device_confirm : list byte)
    : result (PeerId * list byte) PairingError :=
  let? _ := verify_mac (oc_key_device oc) (oc_transcript oc) device_confirm in
  let? tag := compute_mac (oc_key_owner oc) (oc_transcript oc) in
  Ok (oc_device_key oc, tag).

(** ** The device *)

Record PairingDevice := mkDevice {
  pd_state : Spake;
  pd_owner_key : PeerId;
  pd_device_key : PeerId;
  pd_message_b : list byte;
}.

Record DeviceConfirm := mkDeviceConfirm {
  dc_key_owner : list byte;
  dc_transcript : list byte;
  dc_owner_key : PeerId;
}.

Definition begin (rng : Z) (device : Identity) (owner_key : PeerId) (c : PairingCode)
    : PairingDevice * list byte :=
  let device_key := peer_id device in
  let '(state, message_b) := start_b rng (as_bytes (code c)) owner_key device_key in
  (mkDevice state owner_key device_key message_b, message_b).

Definition receive (pd : PairingDevice) (owner_reply : list byte)
    : result (DeviceConfirm * list byte) PairingError :=
  let message_a := owner_reply in
  let? secret := ok_or (finish (pd_state pd) message_a) Malformed in
  let? keys := derive_confirm_keys secret in
  let t := transcript (pd_owner_key pd) (pd_device_key pd) message_a (pd_message_b pd) in
  let? tag := compute_mac keys.2 t in
  Ok (mkDeviceConfirm keys.1 t (pd_owner_key pd), tag).

Definition finish_pairing (dc : DeviceConfirm) (owner_confirm : list byte) : result PeerId PairingError :=
  let? _ := verify_mac (dc_key_owner dc) (dc_transcript dc) owner_confirm in
  Ok (dc_owner_key dc).
End protocol.

(** ** Codes are six digits, uniformly drawn *)

Lemma digit_is_digit n : is_ascii_digit (digit n) = true.
Proof.
  unfold is_ascii_digit, digit, byte_in. rewrite byte_val_of.
  pose proof (Z.mod_pos_bound n 10 ltac:(done)). rewrite (Z.mod_small (48 + _)) by lia.
  apply andb_true_iff. rewrite !Z.leb_le. lia.
Qed.

Lemma digit_inj_mod n m : digit n = digit m → (n mod 10 = m mod 10)%Z.
Proof.
  intros H%(f_equal byte_val). unfold digit in H. rewrite !byte_val_of in H.
  pose proof (Z.mod_pos_bound n 10 ltac:(done)). pose proof (Z.mod_pos_bound m 10 ltac:(done)).
  rewrite !(Z.mod_small (48 + _)) in H by lia. lia.
Qed.

Lemma generate_parse v : PairingCode.parse (format06 v) = Ok (mkCode (format06 v)).
Proof.
  unfold PairingCode.parse, str_len, format06. rewrite as_bytes_of. simpl.
  by rewrite !digit_is_digit.
Qed.

Lemma format06_inj v w :
  (0 ≤ v < 1000000)%Z → (0 ≤ w < 1000000)%Z → format06 v = format06 w → v = w.
Proof.
  intros Hv Hw H%(f_equal as_bytes). unfold format06 in H. rewrite !as_bytes_of in H.
  injection H as H5 H4 H3 H2 H1 H0.
  apply digit_inj_mod in H0, H1, H2, H3, H4, H5.
  repeat match goal with
  | H : (?a mod 10 = ?b mod 10)%Z |- _ =>
    pose proof (Z.div_mod a 10 ltac:(done)); pose proof (Z.div_mod b 10 ltac:(done)); revert H
  end.
  change 100000%Z with (10 * 10 * 10 * 10 * 10)%Z in *. change 10000%Z with (10 * 10 * 10 * 10)%Z in *.
  change 1000%Z with (10 * 10 * 10)%Z in *. change 100%Z with (10 * 10)%Z in *.
  rewrite <-!Z.div_div in * by done. lia.
Qed.

(** Codes are what a device accepts, and none is favoured. A generated
    code parses; and each of the million codes comes from exactly 4294 of the
    accepted 32-bit draws, spaced a million apart, because the rejection
    bound is a multiple of the modulus. *)
Theorem pairing_codes draws c :
  PairingCode.generate draws = Some c →
  PairingCode.parse (code c) = Ok c ∧
  ∀ v candidate, (0 ≤ v < CODE_MODULUS)%Z → is_u32 candidate →
    PairingCode.generate [candidate] = Some (mkCode (format06 v)) ↔
    ∃ k, (0 ≤ k < 4294)%Z ∧ candidate = (v + k * CODE_MODULUS)%Z.
Proof.
  intros Hg. split.
  { revert Hg. induction draws as [|d draws IH]; cbn [PairingCode.generate]; [done|].
    case_bool_decide; [|done]. intros <-%(inj Some). apply generate_parse. }
  clear. unfold CODE_MODULUS, is_u32, u32_max. intros v x Hv Hx.
  cbn [PairingCode.generate]. unfold CODE_MODULUS, CODE_REJECT_AT.
  pose proof (Z.div_mod x 1000000 ltac:(done)). pose proof (Z.mod_pos_bound x 1000000 ltac:(done)).
  case_bool_decide as Hr.
  - split.
    + intros Hf%(inj Some)%(f_equal code). cbn [code] in Hf.
      exists (x / 1000000)%Z. assert (x mod 1000000 = v)%Z; [|lia].
      apply format06_inj; [lia..|done].
    + intros (k & Hk & ->). do 2 f_equal.
      rewrite Z.mod_add, Z.mod_small by lia. done.
  - split; [done|]. intros (k & Hk & ->). lia.
Qed.

(** ** The transcript pins every part *)

Lemma length_prefixed_inj a b r r' :
  (Z.of_nat (length a) ≤ u32_max)%Z → (Z.of_nat (length b) ≤ u32_max)%Z →
  length_prefixed a ++ r = length_prefixed b ++ r' → a = b ∧ r = r'.
Proof.
  unfold length_prefixed. intros Ha Hb. rewrite <-!app_assoc.
  intros [Hl Hr]%app_inj_1; [|by rewrite !length_to_be_bytes].
  apply (f_equal from_be_bytes) in Hl. unfold u32_max in *.
  rewrite !u32_wrap_small in Hl by (unfold is_u32, u32_max; lia).
  rewrite !from_to_be_bytes in Hl by (simpl; lia).
  apply app_inj_1 in Hr; [done|lia].
Qed.

Lemma transcript_inj o d a b o' d' a' b' :
  Forall (λ p, Z.of_nat (length p) ≤ u32_max)%Z [o; d; a; b; o'; d'; a'; b'] →
  transcript o d a b = transcript o' d' a' b' → o = o' ∧ d = d' ∧ a = a' ∧ b = b'.
Proof.
  rewrite !Forall_cons. intros (Ho & Hd & Ha & Hb & Ho' & Hd' & Ha' & Hb' & _).
  unfold transcript. intros H%app_inv_head. rewrite !bind_cons in H.
  apply length_prefixed_inj in H as [-> H]; [|done..].
  apply length_prefixed_inj in H as [-> H]; [|done..].
  apply length_prefixed_inj in H as [-> H]; [|done..].
  apply length_prefixed_inj in H as [-> _]; done.
Qed.

Section theorems.
Context {CR : PairingCrypto}.

(** HMAC idealised: a tag belongs to one message. *)
Definition mac_binding : Prop :=
  ∀ k t k' t' tag, hmac k t = Some tag → hmac k' t' = Some tag → t = t'.

(** The primitives work: 32-byte keys expand and any key authenticates, and
    two SPAKE2 parties with one password and the same names agree. *)
Record crypto_works : Prop := {
  cw_hkdf : ∀ salt secret info, is_Some (hkdf_expand salt secret info);
  cw_hmac : ∀ key msg, is_Some (hmac key msg);
  cw_spake : ∀ r r' pw ida idb,
    ∃ k, finish (start_a r pw ida idb).1 (start_b r' pw ida idb).2 = Some k ∧
         finish (start_b r' pw ida idb).1 (start_a r pw ida idb).2 = Some k;
}.

(** A pairing over an honest channel completes. With the code the owner
    minted, and each side naming the other's transport key, the four flights
    succeed within the offer's lifetime; the owner learns exactly the
    device's key and the device exactly the owner's. *)
Theorem pairing_completes owner device offer c draws now now' r r' :
  crypto_works → offer_new now draws = Some (offer, c) → (now' ≤ expires_at_ms offer)%Z →
  let '(pd, hello) := begin r' device (peer_id owner) c in
  ∃ oc reply dc device_tag owner_tag,
    accept offer r owner (peer_id device) hello now' = Ok (oc, reply) ∧
    receive pd reply = Ok (dc, device_tag) ∧
    confirm oc device_tag = Ok (peer_id device, owner_tag) ∧
    finish_pairing dc owner_tag = Ok (peer_id owner).
Proof.
  intros [Hk Hm Hs] Ho Hexp. unfold offer_new in Ho.
  destruct (PairingCode.generate draws) as [c'|]; [|done]. simpl in Ho. simplify_eq.
  unfold begin, accept, receive. simpl in *.
  destruct (Hs r r' (as_bytes (code c)) (peer_id owner) (peer_id device)) as (k & Ha & Hb).
  destruct (start_a r _ _ _) as [sa ma]. destruct (start_b r' _ _ _) as [sb mb]. simpl in *.
  rewrite bool_decide_eq_false_2 by lia. unfold derive_confirm_keys, compute_mac. rewrite Ha. simpl.
  destruct (Hk DOMAIN k CONFIRM_OWNER) as [ko Eko]. destruct (Hk DOMAIN k CONFIRM_DEVICE) as [kd Ekd].
  rewrite Eko, Ekd. simpl. set (t := transcript _ _ _ _).
  destruct (Hm kd t) as [td Etd]. destruct (Hm ko t) as [to Eto].
  eexists _, ma, (mkDeviceConfirm ko t (peer_id owner)), td, to. split; [reflexivity|].
  rewrite Hb. simpl. rewrite Eko, Ekd. simpl. fold t. rewrite Etd. split; [done|].
  unfold confirm, finish_pairing, verify_mac, compute_mac. simpl. rewrite Etd, Eto. simpl.
  rewrite !bool_decide_eq_true_2 by done. done.
Qed.

(** C30: A relay cannot sit in between. If the owner accepts the tag an honest
    device computed, whatever was passed between them, then both saw the same
    four transcript parts: the device named the owner's own key, the owner
    named the device's own key, and neither SPAKE2 message was changed; the
    peer the owner then admits is that device. *)
Theorem pairing_binds owner device offer device_key owner_key hello reply pd oc dc tag tag' r r' c now hello' :
  mac_binding →
  begin r' device owner_key c = (pd, hello) →
  accept offer r owner device_key hello' now = Ok (oc, reply) →
  ∀ reply', receive pd reply' = Ok (dc, tag) → confirm oc tag = Ok tag' →
  Forall (λ p, Z.of_nat (length p) ≤ u32_max)%Z
    [peer_id owner; device_key; reply; hello'; owner_key; peer_id device; reply'; hello] →
  owner_key = peer_id owner ∧ device_key = peer_id device ∧ reply' = reply ∧ hello' = hello ∧
  tag'.1 = peer_id device.
Proof.
  intros Hmac Hb Ha reply' Hr Hc Hlen. unfold begin in Hb.
  destruct (start_b r' _ _ _) as [sb mb]. simplify_eq/=.
  unfold accept in Ha. case_bool_decide; [done|]. destruct (start_a r _ _ _) as [sa ma].
  apply rbind_Ok in Ha as (sec & _ & (keys & _ & [= <- <-])%rbind_Ok).
  unfold receive in Hr. simpl in Hr.
  apply rbind_Ok in Hr as (sec' & _ & (keys' & _ & (tg & Htag & [= <- <-])%rbind_Ok)%rbind_Ok).
  unfold confirm in Hc. simpl in Hc.
  apply rbind_Ok in Hc as ([] & Hv & (ot & _ & [= <-])%rbind_Ok).
  unfold verify_mac in Hv. apply rbind_Ok in Hv as (ex & Hex & Hv).
  case_bool_decide as Et; [subst tg|done].
  unfold compute_mac in Htag. apply ok_or_Ok in Htag, Hex.
  pose proof (Hmac _ _ _ _ _ Hex Htag) as Ht.
  apply transcript_inj in Ht as (<- & -> & -> & ->); [done|].
  exact Hlen.
Qed.
End theorems.

(** ** Examples *)

(** Primitives that meet the interface: the shared secret is the password
    and the names, a tag is the message it authenticates. *)
#[export] Instance toy_crypto : PairingCrypto := {|
  Spake := list byte;
  start_a r pw ida idb := (pw ++ ida ++ idb, [byte_of r]);
  start_b r pw ida idb := (pw ++ ida ++ idb, [byte_of r]);
  finish st msg := if bool_decide (length msg = 1) then Some st else None;
  hkdf_expand salt secret info := Some (info ++ secret);
  hmac key msg := Some msg;
|}.

Lemma toy_works : crypto_works.
Proof. split; simpl; eauto. Qed.

Lemma toy_binding : mac_binding.
Proof. intros k t k' t' tag. simpl. congruence. Qed.

Definition ex_offer : option (PairingOffer * PairingCode) := offer_new 1000 [4294000001; 123456]%Z.

Lemma pairing_codes_witness :
  PairingCode.parse "123456" = Ok (mkCode "123456") ∧
  (PairingCode.generate [7123456%Z] = Some (mkCode (format06 123456)) ↔
   ∃ k, (0 ≤ k < 4294)%Z ∧ 7123456%Z = (123456 + k * CODE_MODULUS)%Z).
Proof.
  destruct (pairing_codes [4294000001; 123456]%Z (mkCode "123456")) as [Hp Hu].
  - vm_compute. reflexivity.
  - split; [exact Hp|]. apply Hu; unfold CODE_MODULUS, is_u32, u32_max; lia.
Defined.

Lemma pairing_completes_witness :
  ∃ offer c, ex_offer = Some (offer, c) ∧
  let '(pd, hello) := begin 5 (ex_id x02) (peer_id (ex_id x01)) c in
  ∃ oc reply dc device_tag owner_tag,
    accept offer 6 (ex_id x01) (peer_id (ex_id x02)) hello 2000 = Ok (oc, reply) ∧
    receive pd reply = Ok (dc, device_tag) ∧
    confirm oc device_tag = Ok (peer_id (ex_id x02), owner_tag) ∧
    finish_pairing dc owner_tag = Ok (peer_id (ex_id x01)).
Proof.
  exists (mkOffer (mkCode "123456") 301000), (mkCode "123456"). split; [vm_compute; reflexivity|].
  apply (pairing_completes (ex_id x01) (ex_id x02) (mkOffer (mkCode "123456") 301000) (mkCode "123456")
    [4294000001; 123456]%Z 1000 2000 6 5 toy_works).
  - vm_compute. reflexivity.
  - simpl. lia.
Defined.

Lemma pairing_binds_witness :
  ∃ oc reply dc tag tag',
    accept (mkOffer (mkCode "123456") 301000) 6 (ex_id x01) (peer_id (ex_id x02)) [x05] 2000 = Ok (oc, reply) ∧
    receive (begin 5 (ex_id x02) (peer_id (ex_id x01)) (mkCode "123456")).1 reply = Ok (dc, tag) ∧
    confirm oc tag = Ok tag' ∧ tag'.1 = peer_id (ex_id x02).
Proof.
  destruct (accept (mkOffer (mkCode "123456") 301000) 6 (ex_id x01) (peer_id (ex_id x02)) [x05] 2000)
    as [[oc reply]|] eqn:Ea; [|vm_compute in Ea; discriminate].
  destruct (receive (begin 5 (ex_id x02) (peer_id (ex_id x01)) (mkCode "123456")).1 reply) as [[dc tag]|] eqn:Er;
    [|vm_compute in Ea; simplify_eq; vm_compute in Er; discriminate].
  destruct (confirm oc tag) as [tag'|] eqn:Ec;
    [|vm_compute in Ea; simplify_eq; vm_compute in Er; simplify_eq; vm_compute in Ec; discriminate].
  exists oc, reply, dc, tag, tag'. split; [done|]. split; [done|]. split; [done|].
  assert (Hreply : reply = [x06]) by (vm_compute in Ea; by simplify_eq).
  refine (proj2 (proj2 (proj2 (proj2 (pairing_binds (ex_id x01) (ex_id x02) (mkOffer (mkCode "123456") 301000)
    (peer_id (ex_id x02)) (peer_id (ex_id x01)) [x05] reply _ oc dc tag tag' 6 5 (mkCode "123456") 2000 [x05]
    toy_binding eq_refl Ea reply Er Ec _))))).
  subst reply. repeat constructor; vm_compute; discriminate.
Defined.
