(* ===== verification/Discovery.v ===== *)
(** * The swarm: admission and dialling

    [crates/stitch-p2p/src/discovery.rs]: the gate a connected peer passes,
    the request-driven exchange of membership proofs, the rule that decides
    which of two peers dials, and peer ids from certificate fingerprints
    (printed by [compute_fingerprint] of [crates/mqp2p/src/quic.rs]). A uni
    stream is the bytes written to it; a stream that does not open, or does
    not answer in time, is [None]. The outer [option] of a gate is a panic. *)
From S2P Require Import Prelude Hlc Lww Wire Replog SyncState Node Protocol Session Membership.

(** ** Admission *)

Class MemberGate (G : Type) := {
  admits : G → list byte → option bool;
  local_proof : G → option (list WriteFrame);
  admits_with_proof : G → list byte → list WriteFrame → option (G * bool);
}.

(** A gate without a proof model: the trait's default methods. *)
Definition default_local_proof {G} (g : G) : option (list WriteFrame) := Some [].
Definition default_admits_with_proof {G} (admits : G → list byte → option bool) (g : G)
    (key : list byte) (proof : list WriteFrame) : option (G * bool) :=
  r ← admits g key; Some (g, r).

(** [Membership] as a gate, for a bound on the rounds of its fixpoint. *)
Definition membership_gate {P A} {FP : FramePersister P} {FA : FrameAuth A} {HI : HashIter}
    {ED : Ed25519} (now : result Z ()) (fuel : nat) : MemberGate (Membership P A) := {|
  admits m key := Membership.is_member m fuel key;
  local_proof m := Membership.proof m;
  admits_with_proof m key proof := Membership.verify_proof m now fuel key proof;
|}.

Section gate.
Context {G : Type} {MG : MemberGate G} {HI : HashIter}.

Definition gate_admits (gate : option G) (key : option (list byte)) : option bool :=
  match gate with
  | None => Some true
  | Some gate => match key with Some key => admits gate key | None => Some false end
  end.

(** [u8::from(want)] on the wire, and any non-zero byte read as true. *)
Definition write_want {W} {AW : AsyncWrite W} (stream : W) (want : bool) : W * result () IoError :=
  write_all stream [if want then x01 else x00].

Definition read_want {R} {AR : AsyncRead R} (stream : R) : R * result bool IoError :=
  match read_exact stream 1 with
  | (r, Ok byte) => (r, Ok (negb (bool_decide (at_byte byte 0 = x00))))
  | (r, Err e) => (r, Err e)
  end.

(** [proof_exchange] on pipes: whether our stream opened, and the peer's
    stream as far as it came. Returns the gate, what was written, and whether
    a presented proof let the peer in. *)
Definition proof_exchange (opened : bool) (inbound : option (list byte)) (gate : G)
    (key : list byte) (local_ok : bool) : option (G * list byte * bool) :=
  if negb opened then Some (gate, [], false) else
  let out := (write_want ([] : list byte) (negb local_ok)).1 in
  match inbound with
  | None => Some (gate, out, false)
  | Some inbound =>
    match read_want inbound with
    | (_, Err _) => Some (gate, out, false)
    | (inbound, Ok peer_wants) =>
      '(out, sent) ← (if (peer_wants : bool) then
                        offered ← local_proof gate;
                        write_message out (Delta offered)
                      else Some (out, Ok ()));
      match sent with
      | Err _ => Some (gate, out, false)
      | Ok _ =>
        if (local_ok : bool) then Some (gate, out, false) else
        match read_message inbound with
        | (_, Ok (Delta frames)) =>
          '(gate, r) ← admits_with_proof gate key frames; Some (gate, out, r)
        | _ => Some (gate, out, false)
        end
      end
    end
  end.

(** [admitted]: whether the connection is kept. *)
Definition admitted (gate : option G) (key : option (list byte)) (opened : bool)
    (inbound : option (list byte)) : option (option G * list byte * bool) :=
  local_ok ← gate_admits gate key;
  match gate with
  | None => Some (None, [], true)
  | Some g =>
    match key with
    | None => Some (Some g, [], false)
    | Some key =>
      '(g, out, proof_ok) ← proof_exchange opened inbound g key local_ok;
      Some (Some g, out, local_ok || proof_ok)
    end
  end.
End gate.

(** ** Peer ids from fingerprints *)

(** [u8::from_str_radix(s, 16)]: one optional plus sign, then digits, with
    the overflow check at every step. *)
Fixpoint hex_value (acc : Z) (bs : list byte) : option Z :=
  match bs with
  | [] => Some acc
  | b :: bs =>
    d ← digit_val b;
    if bool_decide (acc * 16 + d ≤ u8_max)%Z then hex_value (acc * 16 + d) bs else None
  end.

Definition u8_from_str_radix (bs : list byte) : option byte :=
  match bs with
  | [] => None
  | [x2b] => None
  | x2b :: bs => byte_of <$> hex_value 0 bs
  | _ => byte_of <$> hex_value 0 bs
  end.

(** [str::split(':')]. *)
Fixpoint split_colon (bs : list byte) : list (list byte) :=
  match bs with
  | [] => [[]]
  | b :: bs =>
    if bool_decide (b = x3a) then [] :: split_colon bs
    else match split_colon bs with
         | [] => [[b]]
         | seg :: segs => (b :: seg) :: segs
         end
  end.

Definition strip_prefix (pre bs : list byte) : option (list byte) :=
  if bool_decide (take (length pre) bs = pre) then Some (drop (length pre) bs) else None.

Fixpoint parse_segments (count : nat) (segs : list (list byte)) : option (list byte) :=
  match segs with
  | [] => if bool_decide (count = PEER_ID_LEN) then Some [] else None
  | seg :: segs =>
    if bool_decide (PEER_ID_LEN ≤ count) then None else
    b ← u8_from_str_radix seg;
    rest ← parse_segments (S count) segs;
    Some (b :: rest)
  end.

Definition peer_id_from_fingerprint (fingerprint : string) : option PeerId :=
  hex ← strip_prefix (as_bytes "sha256:") (as_bytes fingerprint);
  parse_segments 0 (split_colon hex).

(** [compute_fingerprint], for a hash function: lowercase pairs joined by colons. *)
Fixpoint join_colon (segs : list (list byte)) : list byte :=
  match segs with
  | [] => []
  | [seg] => seg
  | seg :: segs => seg ++ x3a :: join_colon segs
  end.

Definition compute_fingerprint (sha256 : list byte → list byte) (cert_der : list byte) : string :=
  String.string_of_list_byte
    (as_bytes "sha256:" ++ join_colon ((λ b, hex_bytes [b]) <$> sha256 cert_der)).

(** ** Dialling *)

Inductive ConnRole := Initiator | Responder.

(** One sweep of [connect_loop] over discovered peers, in order: which are
    dialled, and the ids held as connected. [connects] says whether
    [connect_to] succeeds. *)
Definition dial_step (my_id : string) (connects : string → bool)
    (acc : gset string * list string) (target : string) : gset string * list string :=
  let '(connected, dialled) := acc in
  if bool_decide (as_bytes target ≤ₒ as_bytes my_id) then acc else
  if bool_decide (target ∈ connected) then acc else
  if connects target then ({[target]} ∪ connected, dialled ++ [target]) else
  (({[target]} ∪ connected) ∖ {[target]}, dialled).

Definition dial_sweep (my_id : string) (connects : string → bool) (connected : gset string)
    (targets : list string) : gset string * list string :=
  foldl (dial_step my_id connects) (connected, []) targets.

(** ** The proof exchange between two gated peers *)

Section pair.
Context {G : Type} {MG : MemberGate G} {HI : HashIter}.

Definition want_byte (local_ok : bool) : byte := if local_ok then x00 else x01.

(** What a side writes: its request, and its proof only if asked. *)
Definition stream_of (local_ok peer_ok : bool) (proof : list WriteFrame) : list byte :=
  [want_byte local_ok] ++ if peer_ok then [] else wire_of (Delta proof).

Lemma read_want_stream peer_ok rest :
  read_want (want_byte peer_ok :: rest) = (rest, Ok (negb peer_ok)).
Proof.
  unfold read_want. change (want_byte peer_ok :: rest) with ([want_byte peer_ok] ++ rest).
  rewrite pipe_read_app by done. by destruct peer_ok.
Qed.

Lemma write_want_pipe local_ok : (write_want ([] : list byte) (negb local_ok)).1 = [want_byte local_ok].
Proof. by destruct local_ok. Qed.

Lemma write_delta w proof :
  sendable (Delta proof) → write_message w (Delta proof) = Some (w ++ wire_of (Delta proof), Ok ()).
Proof.
  intros (kind & p & Hp & -> & _ & Hl)%sendable_wire. apply write_message_framed; [done|].
  unfold MAX_MESSAGE_LEN, u32_max in *. lia.
Qed.

(** One side, given the other side's stream. *)
Lemma proof_exchange_side g key local_ok remote_ok proof remote_proof :
  local_proof g = Some proof → sendable (Delta proof) → sendable (Delta remote_proof) →
  proof_exchange true (Some (stream_of remote_ok local_ok remote_proof)) g key local_ok =
    if local_ok then Some (g, stream_of local_ok remote_ok proof, false)
    else '(g, r) ← admits_with_proof g key remote_proof;
         Some (g, stream_of local_ok remote_ok proof, r).
Proof.
  intros Hp Hs Hr. unfold proof_exchange. cbn [negb]. rewrite write_want_pipe. unfold stream_of.
  cbn [app]. rewrite read_want_stream.
  assert (Hout : (if negb remote_ok then offered ← local_proof g;
      write_message [want_byte local_ok] (Delta offered) else Some ([want_byte local_ok], Ok ())) =
    Some (want_byte local_ok :: (if remote_ok then [] else wire_of (Delta proof)), Ok ())).
  { destruct remote_ok; [done|]. cbn [negb]. rewrite Hp. cbn [mbind option_bind].
    by rewrite write_delta. }
  rewrite Hout. cbn [mbind option_bind]. destruct local_ok; [done|].
  rewrite <-(app_nil_r (wire_of (Delta remote_proof))), read_wire_of by done. done.
Qed.

(** A gated pair settles in one exchange. Each side's stream is its
    request byte, followed by its proof exactly when the other asked; reading
    each other's streams, a side keeps the connection if it knows the peer or
    if the peer's own proof convinces its gate. A side the other already
    knows discloses nothing but one byte. *)
Theorem gated_pair ga gb ka kb la lb pa pb :
  admits ga kb = Some la → admits gb ka = Some lb →
  local_proof ga = Some pa → local_proof gb = Some pb →
  sendable (Delta pa) → sendable (Delta pb) →
  let out_a := stream_of la lb pa in
  let out_b := stream_of lb la pb in
  admitted (Some ga) (Some kb) true (Some out_b) =
    (if la then Some (Some ga, out_a, true)
     else '(g, r) ← admits_with_proof ga kb pb; Some (Some g, out_a, r)) ∧
  admitted (Some gb) (Some ka) true (Some out_a) =
    (if lb then Some (Some gb, out_b, true)
     else '(g, r) ← admits_with_proof gb ka pa; Some (Some g, out_b, r)) ∧
  (lb = true → out_a = [want_byte la]) ∧ (la = true → out_b = [want_byte lb]).
Proof.
  intros Ha Hb Hpa Hpb Hsa Hsb out_a out_b. unfold admitted, gate_admits. rewrite Ha, Hb.
  cbn [mbind option_bind]. unfold out_a, out_b.
  rewrite (proof_exchange_side ga kb la lb pa pb), (proof_exchange_side gb ka lb la pb pa) by done.
  split_and!.
  - destruct la; [done|]. by destruct (admits_with_proof ga kb pb) as [[g r]|].
  - destruct lb; [done|]. by destruct (admits_with_proof gb ka pa) as [[g r]|].
  - by intros ->.
  - by intros ->.
Qed.
End pair.

(** ** Exactly one side dials *)

Lemma dial_sweep_spec my_id connects connected targets :
  let r := dial_sweep my_id connects connected targets in
  connected ⊆ r.1 ∧ NoDup r.2 ∧
  (∀ t, t ∈ r.2 ↔ t ∈ r.1 ∧ t ∉ connected) ∧
  (∀ t, t ∈ r.2 → t ∈ targets ∧ as_bytes my_id <ₒ as_bytes t ∧ connects t = true) ∧
  (∀ t, t ∈ targets → as_bytes my_id <ₒ as_bytes t → connects t = true → t ∈ r.1).
Proof.
  unfold dial_sweep. induction targets as [|t targets IH] using rev_ind; simpl.
  { split_and!; try done; [constructor|set_solver..]. }
  rewrite foldl_app. simpl. destruct (foldl _ _ targets) as [c d]. simpl in IH.
  destruct IH as (Hsub & Hnd & Hdom & Hd & Hall). unfold dial_step.
  case_bool_decide as Hle; simpl.
  { split_and!; try done; [set_solver|]. intros t' [?| ->%list_elem_of_singleton]%elem_of_app Hlt; auto.
    by apply ord_le_not_lt in Hle. }
  apply ord_lt_not_le in Hle.
  case_bool_decide as Hin; simpl; [split_and!; try done; set_solver|].
  destruct (connects t) eqn:Ec; simpl.
  - split_and!; [set_solver| | | |].
    + apply NoDup_app. split_and!; [done|set_solver|apply NoDup_singleton].
    + intros t'. set_solver.
    + intros t' [Ht'| ->%list_elem_of_singleton]%elem_of_app; [|set_solver].
      apply Hd in Ht'. set_solver.
    + set_solver.
  - assert (E : ({[t]} ∪ c) ∖ {[t]} = c) by set_solver. rewrite E.
    split_and!; try done; [set_solver|]. intros t' [?| ->%list_elem_of_singleton]%elem_of_app ?; auto.
    congruence.
Qed.

(** Of two peers, the one with the smaller id dials, and only it. A sweep
    dials exactly the new, reachable peers with larger ids, each once, skips
    those already connected and forgets those that could not be reached; so
    two peers never dial each other, in whatever state and however often
    they sweep. *)
Theorem one_dialer a b (ca cb : string → bool) (sa sb : gset string) ta tb :
  let ra := dial_sweep a ca sa ta in
  let rb := dial_sweep b cb sb tb in
  (b ∈ ra.2 → as_bytes a <ₒ as_bytes b ∧ ¬ (a ∈ rb.2)) ∧
  (b ∈ ta → as_bytes a <ₒ as_bytes b → ca b = true → b ∈ ra.1) ∧
  NoDup ra.2 ∧ (∀ t, t ∈ ra.1 ↔ t ∈ sa ∨ t ∈ ra.2).
Proof.
  cbv zeta. destruct (dial_sweep_spec a ca sa ta) as (Hsub & Hnd & Hdom & Hd & Hall).
  destruct (dial_sweep_spec b cb sb tb) as (_ & _ & _ & Hd' & _).
  split_and!; try done.
  - intros (_ & Hlt & _)%Hd. split; [done|]. intros (_ & Hgt & _)%Hd'.
    apply (irreflexivity ord_lt (as_bytes a)). by etrans.
  - auto.
  - intros t. destruct (decide (t ∈ sa)); set_solver.
Qed.

(** ** Fingerprints *)

Lemma hex_segment b :
  u8_from_str_radix (hex_bytes [b]) = Some b ∧ Forall (λ c, c ≠ x3a) (hex_bytes [b]).
Proof. destruct b; (split; [reflexivity|]); repeat constructor; discriminate. Qed.

Lemma split_join segs :
  segs ≠ [] → Forall (Forall (λ c, c ≠ x3a)) segs → split_colon (join_colon segs) = segs.
Proof.
  assert (Hone : ∀ seg, Forall (λ c, c ≠ x3a) seg → split_colon seg = [seg]).
  { induction 1 as [|c seg Hc _ IH]; [done|]. simpl.
    by rewrite bool_decide_eq_false_2, IH by done. }
  assert (Hcat : ∀ seg rest, Forall (λ c, c ≠ x3a) seg →
    split_colon (seg ++ x3a :: rest) = seg :: split_colon rest).
  { induction 1 as [|c seg Hc _ IH]; [done|]. cbn [app split_colon].
    by rewrite bool_decide_eq_false_2, IH by done. }
  induction segs as [|seg [|seg' segs] IH]; intros Hne Hall; [done|..].
  - rewrite Forall_singleton in Hall. by apply Hone.
  - apply Forall_cons in Hall as [Hs Hall]. cbn [join_colon]. rewrite Hcat by done.
    f_equal. by apply IH.
Qed.

Lemma parse_hex_segments p n :
  n + length p = PEER_ID_LEN → parse_segments n ((λ b, hex_bytes [b]) <$> p) = Some p.
Proof.
  revert n. induction p as [|b p IH]; intros n Hn; cbn [fmap list_fmap parse_segments].
  - rewrite bool_decide_eq_true_2; [done|]. simpl in Hn. lia.
  - simpl in Hn. rewrite bool_decide_eq_false_2 by lia.
    destruct (hex_segment b) as [-> _]. cbn [mbind option_bind].
    change (list_fmap _ _ _ p) with ((λ b, hex_bytes [b]) <$> p). by rewrite IH by lia.
Qed.

(** The sync identity is the certificate's hash. Reading back the
    fingerprint the transport prints gives exactly the 32 bytes of the
    certificate's hash. *)
Theorem fingerprint_roundtrip sha256 cert :
  peer_ok (sha256 cert) →
  peer_id_from_fingerprint (compute_fingerprint sha256 cert) = Some (sha256 cert).
Proof.
  intros Hp. unfold peer_id_from_fingerprint, compute_fingerprint. rewrite as_bytes_of.
  unfold strip_prefix. rewrite take_app_length, drop_app_length, bool_decide_eq_true_2 by done.
  cbn [mbind option_bind]. rewrite split_join; [by apply parse_hex_segments| |].
  - destruct (sha256 cert); [|done]. by unfold peer_ok, PEER_ID_LEN in Hp.
  - apply Forall_fmap, Forall_forall. intros b _. apply hex_segment.
Qed.

(** ** Examples *)

Definition ex_hash (cert : list byte) : list byte := take 32 (cert ++ replicate 32 x5a).

Lemma fingerprint_roundtrip_witness :
  peer_id_from_fingerprint (compute_fingerprint ex_hash [x01; xff]) = Some (ex_hash [x01; xff]).
Proof. apply fingerprint_roundtrip. vm_compute. reflexivity. Defined.

(** Gates that know a list of keys: A knows B, B does not know A. *)
#[local] Instance ex_known_gate : MemberGate (list (list byte)) := {|
  admits g key := Some (bool_decide (key ∈ g));
  local_proof := default_local_proof;
  admits_with_proof := default_admits_with_proof (λ g key, Some (bool_decide (key ∈ g)));
|}.

Lemma ex_empty_sendable : sendable (Delta []).
Proof.
  eapply (sendable_intro _ MSG_DELTA (to_be_bytes 4 0)); [|reflexivity|done].
  split_and!; (constructor || done).
Qed.

Lemma gated_pair_witness :
  admitted (Some [[x02]]) (Some [x02]) true (Some (stream_of false true [])) =
    Some (Some [[x02]], stream_of true false [], true) ∧
  admitted (Some []) (Some [x01]) true (Some (stream_of true false [])) =
    Some (Some [], [want_byte false], false).
Proof.
  destruct (gated_pair (G := list (list byte)) [[x02]] [] [x01] [x02] true false [] [])
    as (Ha & Hb & _ & Hout); try reflexivity; try apply ex_empty_sendable.
  split; [exact Ha|]. rewrite Hb, Hout by done. reflexivity.
Defined.
