(* ===== verification/Swarm.v ===== *)
(** * The swarm: its loops and sessions

    The tasks of [Swarm] in [crates/stitch-p2p/src/discovery.rs]: the accept
    loop, the connect loop, one task per connection ([admit_and_bridge]), the
    shared set of connected ids, the list of task handles and [abort]. A task
    runs without interruption between two points at which it awaits; an event
    is one such stretch, and an execution is a list of events. What the
    transport answers (inbound connections, discovered peers, dial results,
    streams, messages) is carried by the events. *)
From S2P Require Import Prelude Hlc Lww Wire Replog SyncState Node Protocol Session Membership Discovery.

(** ** State *)

(** Where an [admit_and_bridge] task stands; [Running] holds the receiver of
    local writes, the id the remote announced, and the send stream. *)
Inductive Stage (W : Type) :=
| Admitting
| Opening
| Running (rx : nat) (remote : option PeerId) (w : W)
| Finished
| Panicked
| Cancelled.
Arguments Admitting {W}.
Arguments Opening {W}.
Arguments Running {W}.
Arguments Finished {W}.
Arguments Panicked {W}.
Arguments Cancelled {W}.

Record Task (W : Type) := mkTask { tk_role : ConnRole; tk_id : string; tk_stage : Stage W }.
Arguments mkTask {W}.
Arguments tk_role {W}.
Arguments tk_id {W}.
Arguments tk_stage {W}.

(** [JoinHandle::is_finished]. *)
Definition is_finished {W} (t : Task W) : bool :=
  match tk_stage t with Finished | Panicked | Cancelled => true | _ => false end.

(** Where the two loops stand: at an await, or between spawning a task and
    recording its handle. *)
Inductive AcceptAt := Accepting | Accepted (h : nat) | AcceptStopped.

Inductive ConnectAt :=
| Discovering
| Sweeping (targets : list string)
| Dialling (target : string) (rest : list string)
| Dialled (h : nat) (rest : list string)
| Sleeping
| ConnectStopped.

(** A handle is the position of its task in [sw_tasks]. *)
Record Swarm (W G P A : Type) := mkSwarm {
  sw_node : SyncNode P A;
  sw_gate : option G;
  sw_connected : gset string;
  sw_tasks : list (Task W);
  sw_bridges : list nat;
  sw_accept : AcceptAt;
  sw_connect : ConnectAt;
  sw_aborting : bool;
  sw_pull_interval : Z;
  sw_discovery_interval : Z;
}.
Arguments mkSwarm {W G P A}.
Arguments sw_node {W G P A}.
Arguments sw_gate {W G P A}.
Arguments sw_connected {W G P A}.
Arguments sw_tasks {W G P A}.
Arguments sw_bridges {W G P A}.
Arguments sw_accept {W G P A}.
Arguments sw_connect {W G P A}.
Arguments sw_aborting {W G P A}.
Arguments sw_pull_interval {W G P A}.
Arguments sw_discovery_interval {W G P A}.

(** What happens next. *)
Inductive SwarmEvent (W P A : Type) :=
| EAccept (remote : option string)
| EAcceptTrack
| EDiscover (targets : option (list string))
| ENext
| EConnected (ok : bool)
| EConnectTrack
| EWake
| EAdmit (h : nat) (key : option (list byte)) (opened : bool) (inbound : option (list byte))
| EStreams (h : nat) (send : option W)
| ESession (h : nat) (now : result Z ()) (inbound : result SyncMessage ProtocolError)
| ELocal (h : nat)
| ETick (h : nat)
| EPanic (h : nat) (left_behind : SyncState P A)
| EWrite (now : result Z ()) (op : Op) (entity id : string) (data : list byte)
| EIngest (now : result Z ()) (frames : list WriteFrame)
| EAbort
| EDrain
| EStopAccept
| EStopConnect.
Arguments EAccept {W P A}.
Arguments EAcceptTrack {W P A}.
Arguments EDiscover {W P A}.
Arguments ENext {W P A}.
Arguments EConnected {W P A}.
Arguments EConnectTrack {W P A}.
Arguments EWake {W P A}.
Arguments EAdmit {W P A}.
Arguments EStreams {W P A}.
Arguments ESession {W P A}.
Arguments ELocal {W P A}.
Arguments ETick {W P A}.
Arguments EPanic {W P A}.
Arguments EWrite {W P A}.
Arguments EIngest {W P A}.
Arguments EAbort {W P A}.
Arguments EDrain {W P A}.
Arguments EStopAccept {W P A}.
Arguments EStopConnect {W P A}.

Module Swarm.
Section ops.
Context {W G P A : Type} {AW : AsyncWrite W} {MG : MemberGate G} {FP : FramePersister P}
  {FA : FrameAuth A} {HI : HashIter}.
Abbreviation Self := (Swarm W G P A).
Implicit Types s : Self.

Definition set_node (n : SyncNode P A) s : Self :=
  mkSwarm n (sw_gate s) (sw_connected s) (sw_tasks s) (sw_bridges s) (sw_accept s) (sw_connect s)
    (sw_aborting s) (sw_pull_interval s) (sw_discovery_interval s).
Definition set_gate (g : option G) s : Self :=
  mkSwarm (sw_node s) g (sw_connected s) (sw_tasks s) (sw_bridges s) (sw_accept s) (sw_connect s)
    (sw_aborting s) (sw_pull_interval s) (sw_discovery_interval s).
Definition set_connected (c : gset string) s : Self :=
  mkSwarm (sw_node s) (sw_gate s) c (sw_tasks s) (sw_bridges s) (sw_accept s) (sw_connect s)
    (sw_aborting s) (sw_pull_interval s) (sw_discovery_interval s).
Definition set_tasks (ts : list (Task W)) s : Self :=
  mkSwarm (sw_node s) (sw_gate s) (sw_connected s) ts (sw_bridges s) (sw_accept s) (sw_connect s)
    (sw_aborting s) (sw_pull_interval s) (sw_discovery_interval s).
Definition set_bridges (b : list nat) s : Self :=
  mkSwarm (sw_node s) (sw_gate s) (sw_connected s) (sw_tasks s) b (sw_accept s) (sw_connect s)
    (sw_aborting s) (sw_pull_interval s) (sw_discovery_interval s).
Definition set_accept (a : AcceptAt) s : Self :=
  mkSwarm (sw_node s) (sw_gate s) (sw_connected s) (sw_tasks s) (sw_bridges s) a (sw_connect s)
    (sw_aborting s) (sw_pull_interval s) (sw_discovery_interval s).
Definition set_connect (c : ConnectAt) s : Self :=
  mkSwarm (sw_node s) (sw_gate s) (sw_connected s) (sw_tasks s) (sw_bridges s) (sw_accept s) c
    (sw_aborting s) (sw_pull_interval s) (sw_discovery_interval s).

(** ** Spawning *)

(** The connect loop returns at once when the peer has no id yet. *)
Definition spawn_inner (my_id : option string) (node : SyncNode P A) (pull_interval discovery_interval : Z)
    (gate : option G) : Self :=
  mkSwarm node gate ∅ [] [] Accepting (match my_id with Some _ => Discovering | None => ConnectStopped end)
    false pull_interval discovery_interval.

Definition spawn_with_discovery_interval my_id node pull_interval discovery_interval : Self :=
  spawn_inner my_id node pull_interval discovery_interval None.

Definition spawn my_id node pull_interval : Self :=
  spawn_with_discovery_interval my_id node pull_interval pull_interval.

Definition spawn_gated my_id node pull_interval (gate : G) : Self :=
  spawn_inner my_id node pull_interval pull_interval (Some gate).

(** [tokio::spawn(admit_and_bridge(..))]: the task starts at its first await. *)
Definition spawn_task (role : ConnRole) (id : string) s : Self * nat :=
  (set_tasks (sw_tasks s ++ [mkTask role id Admitting]) s, length (sw_tasks s)).

Definition unfinished s (h : nat) : bool :=
  match sw_tasks s !! h with Some t => negb (is_finished t) | None => false end.

Definition track (h : nat) s : Self :=
  set_bridges (filter (λ h, unfinished s h = true) (sw_bridges s) ++ [h]) s.

(** ** The accept loop *)

Definition accept_conn (id : string) s : Self :=
  let s := set_connected ({[id]} ∪ sw_connected s) s in
  let '(s, h) := spawn_task Responder id s in
  set_accept (Accepted h) s.

(** ** The connect loop *)

Definition connect_target (my_id target : string) (rest : list string) s : Self :=
  if bool_decide (as_bytes target ≤ₒ as_bytes my_id) then set_connect (Sweeping rest) s else
  if bool_decide (target ∈ sw_connected s) then set_connect (Sweeping rest) s else
  set_connect (Dialling target rest) (set_connected ({[target]} ∪ sw_connected s) s).

Definition connect_result (target : string) (rest : list string) (ok : bool) s : Self :=
  if ok then
    let '(s, h) := spawn_task Initiator target s in
    set_connect (Dialled h rest) s
  else set_connect (Sweeping rest) (set_connected (sw_connected s ∖ {[target]}) s).

(** ** One connection *)

Definition set_stage (h : nat) (st : Stage W) s : Self :=
  set_tasks (alter (λ t, mkTask (tk_role t) (tk_id t) st) h (sw_tasks s)) s.

(** The end of [admit_and_bridge]: the id may be dialled again. *)
Definition finish (h : nat) (id : string) s : Self :=
  set_stage h Finished (set_connected (sw_connected s ∖ {[id]}) s).

(** What a session leaves: its receiver goes with it. *)
Definition drop_rx (st : Stage W) (n : SyncNode P A) : SyncNode P A :=
  match st with Running rx _ _ => SyncNode.drop_receiver n rx | _ => n end.

Definition admit_peer (h : nat) (t : Task W) (key : option (list byte)) (opened : bool)
    (inbound : option (list byte)) s : option Self :=
  '(g, _, ok) ← admitted (sw_gate s) key opened inbound;
  let s := set_gate g s in
  Some (if (ok : bool) then set_stage h Opening s else finish h (tk_id t) s).

(** The session writes through [node.state()], which all sessions share. *)
Definition session_result (h : nat) (t : Task W) (rx : nat) (r : option (Session W P A * Control)) s : option Self :=
  '(se, c) ← r;
  let n := mkNode (shared se) (sessions (sw_node s)) (channels (sw_node s)) in
  Some match c with
       | Continue => set_stage h (Running rx (remote_id se) (writer se)) (set_node n s)
       | Return _ => finish h (tk_id t) (set_node (SyncNode.drop_receiver n rx) s)
       end.

Definition bridge (h : nat) (t : Task W) (send : option W) s : option Self :=
  match send with
  | None => Some (finish h (tk_id t) s)
  | Some w =>
    let '(n, rx) := SyncNode.register_session (sw_node s) in
    session_result h t rx (start (state n) w) (set_node n s)
  end.

Definition session_event (h : nat) (t : Task W) (rx : nat) (remote : option PeerId) (w : W) (ev : Session.Event) s
    : option Self :=
  session_result h t rx
    (run_loop (mkSession (state (sw_node s)) remote w) [ev]) s.

(** ** [abort] *)

(** The handles of both loops are aborted: a loop that awaits does not go on. *)
Definition abort_loops s : Self :=
  mkSwarm (sw_node s) (sw_gate s) (sw_connected s) (sw_tasks s) (sw_bridges s) (sw_accept s) (sw_connect s)
    true (sw_pull_interval s) (sw_discovery_interval s).

Definition cancel_task s (h : nat) : Self :=
  match sw_tasks s !! h with
  | Some t =>
    if is_finished t then s
    else set_stage h Cancelled (set_node (drop_rx (tk_stage t) (sw_node s)) s)
  | None => s
  end.

Definition drain s : Self := set_bridges [] (foldl cancel_task s (sw_bridges s)).

Definition abort s : Self := drain (abort_loops s).

(** ** Events *)

Definition at_task (h : nat) s (k : Task W → option Self) : option Self :=
  match sw_tasks s !! h with Some t => if is_finished t then None else k t | None => None end.

(** [None]: the event cannot happen here. *)
Definition step (my_id : string) (ev : SwarmEvent W P A) s : option Self :=
  match ev with
  | EAccept remote =>
    match sw_accept s, sw_aborting s with
    | Accepting, false => Some match remote with Some id => accept_conn id s | None => s end
    | _, _ => None
    end
  | EAcceptTrack =>
    match sw_accept s with Accepted h => Some (set_accept Accepting (track h s)) | _ => None end
  | EDiscover targets =>
    match sw_connect s, sw_aborting s with
    | Discovering, false =>
      Some (set_connect (match targets with Some ts => Sweeping ts | None => Sleeping end) s)
    | _, _ => None
    end
  | ENext =>
    match sw_connect s with
    | Sweeping (t :: rest) => Some (connect_target my_id t rest s)
    | Sweeping [] => Some (set_connect Sleeping s)
    | _ => None
    end
  | EConnected ok =>
    match sw_connect s, sw_aborting s with
    | Dialling t rest, false => Some (connect_result t rest ok s)
    | _, _ => None
    end
  | EConnectTrack =>
    match sw_connect s with Dialled h rest => Some (set_connect (Sweeping rest) (track h s)) | _ => None end
  | EWake =>
    match sw_connect s, sw_aborting s with Sleeping, false => Some (set_connect Discovering s) | _, _ => None end
  | EAdmit h key opened inbound =>
    at_task h s (λ t, match tk_stage t with Admitting => admit_peer h t key opened inbound s | _ => None end)
  | EStreams h send =>
    at_task h s (λ t, match tk_stage t with Opening => bridge h t send s | _ => None end)
  | ESession h now inbound =>
    at_task h s (λ t, match tk_stage t with
                      | Running rx remote w => session_event h t rx remote w (Inbound now inbound) s
                      | _ => None end)
  | ELocal h =>
    at_task h s (λ t, match tk_stage t with
                      | Running rx remote w =>
                        match SyncNode.recv (sw_node s) rx with
                        | (n, Some f) => session_event h t rx remote w (Local (Some f)) (set_node n s)
                        | (_, None) => None
                        end
                      | _ => None end)
  | ETick h =>
    at_task h s (λ t, match tk_stage t with
                      | Running rx remote w => session_event h t rx remote w Tick s
                      | _ => None end)
  | EPanic h left_behind =>
    at_task h s (λ t,
      let n := drop_rx (tk_stage t) (sw_node s) in
      Some (set_stage h Panicked (set_node (mkNode left_behind (sessions n) (channels n)) s)))
  | EWrite now op entity id data => Some (set_node (SyncNode.local_write (sw_node s) now op entity id data).1 s)
  | EIngest now frames => Some (set_node (SyncNode.ingest (sw_node s) now frames).1 s)
  | EAbort => Some (abort_loops s)
  | EDrain => if sw_aborting s then Some (drain s) else None
  | EStopAccept =>
    match sw_accept s, sw_aborting s with Accepting, true => Some (set_accept AcceptStopped s) | _, _ => None end
  | EStopConnect =>
    match sw_connect s, sw_aborting s with
    | (Discovering | Dialling _ _ | Sleeping), true => Some (set_connect ConnectStopped s)
    | _, _ => None
    end
  end.

Fixpoint run (my_id : string) (evs : list (SwarmEvent W P A)) s : option Self :=
  match evs with [] => Some s | ev :: evs => s ← step my_id ev s; run my_id evs s end.
End ops.
End Swarm.

#[global] Instance AcceptAt_eq_dec : EqDecision AcceptAt.
Proof. solve_decision. Defined.
#[global] Instance ConnectAt_eq_dec : EqDecision ConnectAt.
Proof. solve_decision. Defined.
#[global] Instance ConnRole_eq_dec : EqDecision ConnRole.
Proof. solve_decision. Defined.

(** ** One session per peer *)

(** A peer dials only ids larger than its own, so it accepts smaller ones. *)
Definition dial_rule {W P A} (my_id : string) (ev : SwarmEvent W P A) : Prop :=
  match ev with EAccept (Some id) => as_bytes id ≤ₒ as_bytes my_id | _ => True end.

#[global] Instance dial_rule_dec {W P A} my_id (ev : SwarmEvent W P A) : Decision (dial_rule my_id ev).
Proof. destruct ev; try (left; exact I). destruct remote; [unfold dial_rule; apply _|left; exact I]. Defined.

Section one.
Context {W : Type} (my_id : string).
Implicit Types (ts : list (Task W)) (c : gset string) (k : ConnectAt) (ab : bool).

Definition larger (id : string) : Prop := as_bytes my_id <ₒ as_bytes id.

Lemma larger_spec id : ¬ (as_bytes id ≤ₒ as_bytes my_id) ↔ larger id.
Proof. unfold larger. split; [apply ord_lt_not_le|]. intros Hl Hle. by apply ord_le_not_lt in Hle. Qed.

(** Of the handles, the set of ids and the place of the connect loop. *)
Record one_inv ts c k ab : Prop := {
  oi_role h t : ts !! h = Some t → match tk_role t with Initiator => larger (tk_id t) | Responder => ¬ larger (tk_id t) end;
  oi_dial t rest : k = Dialling t rest → larger t ∧ t ∈ c;
  oi_held h t : ts !! h = Some t → is_finished t = false → tk_role t = Initiator → tk_id t ∈ c;
  oi_unique h h' t t' : ts !! h = Some t → ts !! h' = Some t' → is_finished t = false → is_finished t' = false →
    tk_role t = Initiator → tk_role t' = Initiator → tk_id t = tk_id t' → h = h';
  oi_alone t rest h u : k = Dialling t rest → ts !! h = Some u → is_finished u = false → tk_role u = Initiator → tk_id u ≠ t;
  oi_conn id : id ∈ c → larger id → ab = true ∨ (∃ rest, k = Dialling id rest) ∨
    ∃ h t, ts !! h = Some t ∧ tk_role t = Initiator ∧ tk_id t = id ∧ tk_stage t ≠ Finished;
}.

Definition restage (st : Stage W) (t : Task W) : Task W := mkTask (tk_role t) (tk_id t) st.

Lemma restage_lookup st h ts h' u :
  alter (restage st) h ts !! h' = Some u ↔
    ∃ t, ts !! h' = Some t ∧ u = if decide (h = h') then restage st t else t.
Proof.
  destruct (decide (h = h')) as [<-|Hne].
  - rewrite list_lookup_alter_eq, fmap_Some. done.
  - rewrite list_lookup_alter_ne by done. naive_solver.
Qed.

Lemma restage_finished st t : is_finished (restage st t) = is_finished (mkTask Initiator "" st).
Proof. by destruct st. Qed.

(** A task that goes on, panics or is cancelled keeps its id in the set. *)
Lemma one_restage ts c k ab h t st :
  one_inv ts c k ab → ts !! h = Some t → is_finished t = false → st ≠ Finished → one_inv (alter (restage st) h ts) c k ab.
Proof.
  intros [Hr Hd Hh Hu Ha Hc] Ht Hf Hst.
  assert (Hlive : ∀ h' u u', ts !! h' = Some u → u' = (if decide (h = h') then restage st u else u) →
    is_finished u' = false → is_finished u = false).
  { intros h' u u' Hu' ->. case_decide; [subst|done]. simplify_eq. done. }
  assert (Hkeep : ∀ h' (u u' : Task W), u' = (if decide (h = h') then restage st u else u) →
    tk_role u' = tk_role u ∧ tk_id u' = tk_id u) by (intros h' u u' ->; by case_decide).
  split.
  - intros h' u' (u & Hu' & E)%restage_lookup. destruct (Hkeep _ _ _ E) as [-> ->]. by apply (Hr h').
  - done.
  - intros h' u' (u & Hu' & E)%restage_lookup Hfin. destruct (Hkeep _ _ _ E) as [-> ->]. eauto.
  - intros h1 h2 u1' u2' (u1 & H1 & E1)%restage_lookup (u2 & H2 & E2)%restage_lookup F1 F2.
    destruct (Hkeep _ _ _ E1) as [-> ->]. destruct (Hkeep _ _ _ E2) as [-> ->]. eauto.
  - intros t' rest h' u' Hk (u & Hu' & E)%restage_lookup Hfin. destruct (Hkeep _ _ _ E) as [-> ->]. eauto.
  - intros id Hid Hl. destruct (Hc id Hid Hl) as [?|[?|(h' & u & Hu' & Hro & Hi & Hs)]]; [by left|by right; left|].
    right; right. exists h'. eexists. split; [apply restage_lookup; eauto|].
    case_decide; [split_and!; done|done].
Qed.

(** A task that returns frees its id. *)
Lemma one_finish ts c k ab h t :
  one_inv ts c k ab → ts !! h = Some t → is_finished t = false →
  one_inv (alter (restage Finished) h ts) (c ∖ {[tk_id t]}) k ab.
Proof.
  intros [Hr Hd Hh Hu Ha Hc] Ht Hf.
  assert (Hother : ∀ h' u', alter (restage Finished) h ts !! h' = Some u' → is_finished u' = false →
    h' ≠ h ∧ ts !! h' = Some u').
  { intros h' u' (u & Hu' & ->)%restage_lookup Hfin. case_decide; [done|]. done. }
  split.
  - intros h' u' (u & Hu' & ->)%restage_lookup. specialize (Hr h' u Hu'). by case_decide.
  - intros t' rest Hk. destruct (Hd t' rest Hk) as [Hl Hin]. split; [done|].
    apply elem_of_difference. split; [done|]. intros ->%elem_of_singleton.
    destruct (tk_role t) eqn:Ero; [by apply (Ha _ _ h t Hk)|]. specialize (Hr h t Ht). by rewrite Ero in Hr.
  - intros h' u' Hu' Hfin Hro. destruct (Hother h' u' Hu' Hfin) as [Hne Hu1].
    apply elem_of_difference. split; [eauto|]. intros E%elem_of_singleton.
    pose proof (Hr h' u' Hu1) as Hl1. rewrite Hro, E in Hl1.
    pose proof (Hr h t Ht) as Hl. destruct (tk_role t) eqn:Ero; [|done].
    by apply Hne, (Hu h' h u' t).
  - intros h1 h2 u1 u2 H1 H2 F1 F2.
    destruct (Hother _ _ H1 F1) as [_ ?], (Hother _ _ H2 F2) as [_ ?]. eauto.
  - intros t' rest h' u' Hk Hu' Hfin. destruct (Hother _ _ Hu' Hfin) as [_ ?]. eauto.
  - intros id [Hid Hne]%elem_of_difference Hl.
    destruct (Hc id Hid Hl) as [?|[?|(h' & u & Hu' & Hro & Hi & Hs)]]; [by left|by right; left|].
    right; right. exists h', u. split_and!; try done. apply restage_lookup. exists u. split; [done|].
    case_decide; [|done]. subst. simplify_eq. set_solver.
Qed.

Lemma one_accept ts c k ab id :
  one_inv ts c k ab → ¬ larger id → one_inv (ts ++ [mkTask Responder id Admitting]) ({[id]} ∪ c) k ab.
Proof.
  intros [Hr Hd Hh Hu Ha Hc] Hid.
  assert (Hinv : ∀ h u, (ts ++ [mkTask Responder id Admitting]) !! h = Some u →
    ts !! h = Some u ∨ u = mkTask Responder id Admitting).
  { intros h u [?|[_ E]]%lookup_app_Some; [by left|right]. by apply list_lookup_singleton_Some in E as [_ <-]. }
  assert (Hini : ∀ h u, (ts ++ [mkTask Responder id Admitting]) !! h = Some u → tk_role u = Initiator → ts !! h = Some u).
  { intros h u [?| ->]%Hinv; done. }
  split.
  - intros h u [Hu'| ->]%Hinv; [by apply (Hr h)|done].
  - intros t rest Hk. destruct (Hd t rest Hk). set_solver.
  - intros h u Hu' Hf Hro. apply elem_of_union. right. eauto.
  - eauto 10.
  - eauto.
  - intros id' [->%elem_of_singleton|Hid']%elem_of_union Hl; [done|].
    destruct (Hc id' Hid' Hl) as [?|[?|(h & u & Hu' & Hrest)]]; [by left|by right; left|].
    right; right. exists h, u. split; [|done]. by apply lookup_app_l_Some.
Qed.

(** A target that is not connected is held by nobody, and is dialled. *)
Lemma one_dial ts c k ab t rest :
  one_inv ts c k ab → larger t → t ∉ c → (∀ t rest, k ≠ Dialling t rest) → one_inv ts ({[t]} ∪ c) (Dialling t rest) ab.
Proof.
  intros [Hr Hd Hh Hu Ha Hc] Hl Hni Hk. split; try done.
  - intros t' rest' [= <- <-]. set_solver.
  - intros h u Hu' Hf Hro. set_solver.
  - intros t' rest' h u [= <- <-] Hu' Hf Hro E. apply Hni. rewrite <-E. eauto.
  - intros id [->%elem_of_singleton|Hid]%elem_of_union Hlid; [right; left; eauto|].
    destruct (Hc id Hid Hlid) as [?|[[rest' ?]|?]]; [by left|by apply Hk in H|by right; right].
Qed.

Lemma one_dial_ok ts c ab t rest h rest' :
  one_inv ts c (Dialling t rest) ab → one_inv (ts ++ [mkTask Initiator t Admitting]) c (Dialled h rest') ab.
Proof.
  intros [Hr Hd Hh Hu Ha Hc]. destruct (Hd t rest eq_refl) as [Hl Hin].
  assert (Hinv : ∀ h u, (ts ++ [mkTask Initiator t Admitting]) !! h = Some u →
    ts !! h = Some u ∨ h = length ts ∧ u = mkTask Initiator t Admitting).
  { intros h' u [?|[Hlen E]]%lookup_app_Some; [by left|right].
    apply list_lookup_singleton_Some in E as [? <-]. split; [lia|done]. }
  split; try done.
  - intros h' u [Hu'|[_ ->]]%Hinv; [by apply (Hr h')|done].
  - intros h' u [Hu'|[_ ->]]%Hinv Hf Hro; [eauto|done].
  - intros h1 h2 u1 u2 [H1|[-> ->]]%Hinv [H2|[-> ->]]%Hinv F1 F2 R1 R2 E; [eauto| | |done].
    + exfalso. by apply (Ha t rest h1 u1).
    + exfalso. by apply (Ha t rest h2 u2).
  - intros id Hid Hlid. destruct (Hc id Hid Hlid) as [?|[[rest2 [= -> ->]]|(h' & u & Hu' & ?)]]; [by left| |].
    + right; right. exists (length ts), (mkTask Initiator id Admitting). split_and!; try done.
      rewrite lookup_app_r by done. by rewrite Nat.sub_diag.
    + right; right. exists h', u. split; [|done]. by apply lookup_app_l_Some.
Qed.

Lemma one_dial_err ts c ab t rest :
  one_inv ts c (Dialling t rest) ab → one_inv ts (c ∖ {[t]}) (Sweeping rest) ab.
Proof.
  intros [Hr Hd Hh Hu Ha Hc]. split; try done.
  - intros h u Hu' Hf Hro. pose proof (Ha t rest h u eq_refl Hu' Hf Hro). set_solver.
  - intros id [Hid Hne]%elem_of_difference Hl.
    destruct (Hc id Hid Hl) as [?|[[rest' [= -> ->]]|?]]; [by left|set_solver|by right; right].
Qed.

Lemma one_connect ts c k ab k' :
  one_inv ts c k ab → (∀ t rest, k' ≠ Dialling t rest) → (∀ t rest, k = Dialling t rest → ab = true) → one_inv ts c k' ab.
Proof.
  intros [Hr Hd Hh Hu Ha Hc] Hk' Hk. split; try done.
  - intros t rest E. by apply Hk' in E.
  - intros t rest h u E. by apply Hk' in E.
  - intros id Hid Hl. destruct (Hc id Hid Hl) as [?|[[rest E]|?]]; [by left|left; eauto|by right; right].
Qed.

Lemma one_abort ts c k ab : one_inv ts c k ab → one_inv ts c k true.
Proof. intros [Hr Hd Hh Hu Ha Hc]. split; try done. intros. by left. Qed.
End one.

Section swarm.
Context {W G P A : Type} {AW : AsyncWrite W} {MG : MemberGate G} {FP : FramePersister P}
  {FA : FrameAuth A} {HI : HashIter}.
Implicit Types (s : Swarm W G P A) (evs : list (SwarmEvent W P A)).

Lemma at_task_Some h s f s' :
  Swarm.at_task h s f = Some s' → ∃ t, sw_tasks s !! h = Some t ∧ is_finished t = false ∧ f t = Some s'.
Proof. unfold Swarm.at_task. destruct (sw_tasks s !! h) as [t|]; [|done]. destruct (is_finished t) eqn:E; naive_solver. Qed.

(** What an event does to one task: nothing else of the swarm but its node,
    its gate and, when the task returns, the set of ids changes. *)
Inductive task_moves (h : nat) s : Swarm W G P A → Prop :=
| moves_on t st s' : sw_tasks s !! h = Some t → is_finished t = false →
    sw_tasks s' = alter (restage st) h (sw_tasks s) → st ≠ Finished → sw_connected s' = sw_connected s →
    task_moves h s s'
| moves_out t s' : sw_tasks s !! h = Some t → is_finished t = false →
    sw_tasks s' = alter (restage Finished) h (sw_tasks s) → sw_connected s' = sw_connected s ∖ {[tk_id t]} →
    task_moves h s s'.

Definition same_loops s s' : Prop :=
  sw_accept s' = sw_accept s ∧ sw_connect s' = sw_connect s ∧ sw_aborting s' = sw_aborting s ∧ sw_bridges s' = sw_bridges s.

Lemma session_result_moves h t rx r s s' :
  sw_tasks s !! h = Some t → is_finished t = false → Swarm.session_result h t rx r s = Some s' →
  task_moves h s s' ∧ same_loops s s'.
Proof.
  intros Ht Hf. unfold Swarm.session_result. destruct r as [[se c]|]; [|done]. cbn [mbind option_bind].
  intros [= <-]. destruct c; (split; [|done]).
  - by eapply moves_on.
  - by eapply moves_out.
Qed.

(** The events of one task. *)
Definition task_event (ev : SwarmEvent W P A) : option nat :=
  match ev with
  | EAdmit h _ _ _ | EStreams h _ | ESession h _ _ | ELocal h | ETick h | EPanic h _ => Some h
  | _ => None
  end.

Lemma task_event_moves my_id ev h s s' :
  task_event ev = Some h → Swarm.step my_id ev s = Some s' → task_moves h s s' ∧ same_loops s s'.
Proof.
  destruct ev; try discriminate; intros [= ->]; cbn [Swarm.step]; intros (t & Ht & Hf & E)%at_task_Some.
  - destruct (tk_stage t); try done. unfold Swarm.admit_peer in E.
    destruct (admitted _ _ _ _) as [[[g out] ok]|]; [|done]. cbn [mbind option_bind] in E.
    injection E as <-. destruct ok; (split; [|done]); [by eapply moves_on|by eapply moves_out].
  - destruct (tk_stage t); try done. unfold Swarm.bridge in E. destruct send as [w|].
    + destruct (SyncNode.register_session _) as [n rx].
      destruct (session_result_moves h t rx _ (Swarm.set_node n s) s' Ht Hf E) as [Hm Hl]. split; [|done].
      destruct Hm; [by eapply moves_on|by eapply moves_out].
    + injection E as <-. split; [|done]. by eapply moves_out.
  - destruct (tk_stage t); try done. by eapply session_result_moves.
  - destruct (tk_stage t) as [| |rx remote w| | |]; try done.
    destruct (SyncNode.recv _ _) as [n [f|]]; [|done].
    destruct (session_result_moves h t rx _ (Swarm.set_node n s) s' Ht Hf E) as [Hm Hl]. split; [|done].
    destruct Hm; [by eapply moves_on|by eapply moves_out].
  - destruct (tk_stage t); try done. by eapply session_result_moves.
  - injection E as <-. split; [|done]. by eapply moves_on.
Qed.

Lemma cancel_moves s h : Swarm.cancel_task s h = s ∨ task_moves h s (Swarm.cancel_task s h) ∧ same_loops s (Swarm.cancel_task s h).
Proof.
  unfold Swarm.cancel_task. destruct (sw_tasks s !! h) as [t|] eqn:E; [|by left].
  destruct (is_finished t) eqn:F; [by left|]. right. split; [|done]. by eapply moves_on.
Qed.

Definition one_session my_id s : Prop :=
  one_inv my_id (sw_tasks s) (sw_connected s) (sw_connect s) (sw_aborting s).

Lemma task_moves_one my_id h s s' : one_session my_id s → task_moves h s s' → same_loops s s' → one_session my_id s'.
Proof.
  unfold one_session. intros H [t st ? Ht Hf Hts Hst Hc|t ? Ht Hf Hts Hc] (_ & Hk & Ha & _).
  - rewrite Hts, Hc, Hk, Ha. by eapply one_restage.
  - rewrite Hts, Hc, Hk, Ha. by apply one_finish.
Qed.

Lemma drain_ind (Q : Swarm W G P A → Prop) s :
  Q s → (∀ s h, Q s → Q (Swarm.cancel_task s h)) → (∀ s, Q s → Q (Swarm.set_bridges [] s)) → Q (Swarm.drain s).
Proof.
  intros H Hc Hb. unfold Swarm.drain. apply Hb. generalize (sw_bridges s) as hs. intros hs. revert s H.
  induction hs as [|h hs IH]; intros s H; simpl; [done|]. by apply IH, Hc.
Qed.

Lemma step_one my_id ev s s' :
  one_session my_id s → dial_rule my_id ev → Swarm.step my_id ev s = Some s' → one_session my_id s'.
Proof.
  intros H Hrule E. destruct (task_event ev) as [h|] eqn:Hev.
  { destruct (task_event_moves my_id ev h s s' Hev E). by eapply task_moves_one. }
  destruct ev; try discriminate; cbn [Swarm.step] in E.
  - destruct (sw_accept s), (sw_aborting s) eqn:Ea; try done. injection E as <-. destruct remote as [id|]; [|done].
    unfold one_session. simpl. apply one_accept; [done|]. intros Hl%larger_spec. by apply Hl.
  - destruct (sw_accept s); try done. by injection E as <-.
  - unfold one_session in *. destruct (sw_connect s) eqn:Ek, (sw_aborting s) eqn:Ea; try done. injection E as <-. simpl.
    rewrite Ea. eapply one_connect; [done|by destruct targets|done].
  - unfold one_session in *. destruct (sw_connect s) as [|[|t rest]| | | |] eqn:Ek; try done; injection E as <-.
    + simpl. by eapply one_connect.
    + unfold Swarm.connect_target. case_bool_decide as Hle; [by eapply one_connect|].
      case_bool_decide as Hin; [by eapply one_connect|]. simpl. by eapply one_dial; [|apply larger_spec| |].
  - unfold one_session in *. destruct (sw_connect s) as [| |t rest| | |] eqn:Ek, (sw_aborting s) eqn:Ea; try done. injection E as <-.
    unfold Swarm.connect_result. destruct ok; simpl; rewrite Ea; [by eapply one_dial_ok|by apply one_dial_err].
  - unfold one_session in *. destruct (sw_connect s) eqn:Ek; try done. injection E as <-. simpl. by eapply one_connect.
  - unfold one_session in *. destruct (sw_connect s) eqn:Ek, (sw_aborting s) eqn:Ea; try done. injection E as <-. simpl.
    rewrite Ea. by eapply one_connect.
  - by injection E as <-.
  - by injection E as <-.
  - injection E as <-. by eapply one_abort.
  - destruct (sw_aborting s); [|done]. injection E as <-. apply drain_ind; [done| |done].
    intros s1 h H1. destruct (cancel_moves s1 h) as [->|[Hm Hl]]; [done|]. by eapply task_moves_one.
  - destruct (sw_accept s), (sw_aborting s); try done. by injection E as <-.
  - unfold one_session in *. destruct (sw_connect s) eqn:Ek, (sw_aborting s) eqn:Ea; try done; injection E as <-; simpl;
      rewrite Ea; by eapply one_connect.
Qed.

(** An invariant of every execution. *)
Lemma run_inv (Q : Swarm W G P A → Prop) (ok : SwarmEvent W P A → Prop) my_id evs : ∀ s s',
  (∀ ev s s', Q s → ok ev → Swarm.step my_id ev s = Some s' → Q s') →
  Q s → Forall ok evs → Swarm.run my_id evs s = Some s' → Q s'.
Proof.
  induction evs as [|ev evs IH]; intros s s' Hstep H Hok; simpl; [by intros [= <-]|].
  apply Forall_cons in Hok as [Hev Hok]. destruct (Swarm.step my_id ev s) as [s1|] eqn:E; [|done]. simpl.
  apply IH; [done|by eapply Hstep|done].
Qed.

Lemma spawn_one my_id id node pull disc gate : one_session my_id (Swarm.spawn_inner id node pull disc gate).
Proof. unfold one_session. split; simpl; try set_solver; by destruct id. Qed.

(** Whoever holds a peer with a larger id: the dial in progress, or a task. *)
Inductive holds (id : string) s : option nat → Prop :=
| holds_dial rest : sw_connect s = Dialling id rest → holds id s None
| holds_task h t : sw_tasks s !! h = Some t → is_finished t = false → tk_role t = Initiator → tk_id t = id → holds id s (Some h).

(** C11: One session per peer. As long as the other peers dial by the rule
    too, a peer that this one is to dial is held by at most one dial or task at
    a time, whatever comes and goes; and once every task for it has returned,
    the next sweep that sees it dials it again. *)
Theorem swarm_one_session my_id node pull disc gate evs s id :
  Swarm.run my_id evs (Swarm.spawn_inner (Some my_id) node pull disc gate) = Some s →
  Forall (dial_rule my_id) evs → larger my_id id →
  (∀ a b, holds id s a → holds id s b → a = b) ∧
  (∀ rest, sw_connect s = Sweeping (id :: rest) → sw_aborting s = false →
     (∀ h t, sw_tasks s !! h = Some t → tk_role t = Initiator → tk_id t = id → tk_stage t = Finished) →
     ∃ s', Swarm.step my_id ENext s = Some s' ∧ sw_connect s' = Dialling id rest).
Proof.
  intros Hrun Hrule Hl.
  assert (one_session my_id s) as [Hr Hd Hh Hu Ha Hc]
    by (eapply run_inv; [apply step_one|apply spawn_one|done|done]).
  split.
  - intros a b [rest Hk|h t Ht Hf Hro Hi] [rest' Hk'|h' t' Ht' Hf' Hro' Hi']; [done|exfalso..|].
    + by eapply (Ha id rest h').
    + by eapply (Ha id rest' h).
    + f_equal. eapply (Hu h h' t t'); congruence.
  - intros rest Hk Hab Hdone. cbn [Swarm.step]. rewrite Hk. eexists. split; [done|].
    unfold Swarm.connect_target. rewrite !bool_decide_eq_false_2; [done| |by apply larger_spec].
    intros Hin. destruct (Hc id Hin Hl) as [?|[[rest' ?]|(h & t & Ht & Hro & Hi & Hs)]]; [congruence..|].
    by apply Hs, (Hdone h).
Qed.

(** ** Teardown *)

(** Every task still running is in the list of handles, or about to be. *)
Definition tracked s : Prop := ∀ h t, sw_tasks s !! h = Some t → is_finished t = false →
  h ∈ sw_bridges s ∨ sw_accept s = Accepted h ∨ ∃ rest, sw_connect s = Dialled h rest.

Lemma task_moves_live h s s' h' t' :
  task_moves h s s' → sw_tasks s' !! h' = Some t' → is_finished t' = false →
  ∃ t, sw_tasks s !! h' = Some t ∧ is_finished t = false.
Proof.
  intros [t st ? Ht Hf Hts _ _|t ? Ht Hf Hts _]; rewrite Hts; intros (u & Hu & ->)%restage_lookup;
    case_decide; subst; eauto.
Qed.

Lemma task_moves_tracked h s s' : tracked s → task_moves h s s' → same_loops s s' → tracked s'.
Proof.
  unfold tracked. intros H Hm (-> & -> & _ & ->) h' t' Ht' Hf'. destruct (task_moves_live h s s' h' t' Hm Ht' Hf') as (t & ? & ?). eauto.
Qed.

Lemma track_keeps h s h' t :
  sw_tasks s !! h' = Some t → is_finished t = false → h' ∈ sw_bridges s ∨ h' = h → h' ∈ sw_bridges (Swarm.track h s).
Proof.
  intros Ht Hf Hin. simpl. apply elem_of_app. destruct Hin as [Hin| ->]; [left|right; left].
  apply list_elem_of_filter. split; [|done]. unfold Swarm.unfinished. by rewrite Ht, Hf.
Qed.

Lemma spawned_live (ts : list (Task W)) t h u :
  (ts ++ [t]) !! h = Some u → is_finished u = false → (ts !! h = Some u) ∨ h = length ts.
Proof. intros [?|[Hl E]]%lookup_app_Some _; [by left|right]. apply list_lookup_singleton_Some in E as [? _]. lia. Qed.

(** After the handles are drained only untracked tasks go on. *)
Lemma cancel_live s h h' t' :
  sw_tasks (Swarm.cancel_task s h) !! h' = Some t' → is_finished t' = false → sw_tasks s !! h' = Some t' ∧ h' ≠ h.
Proof.
  unfold Swarm.cancel_task. destruct (sw_tasks s !! h) as [t|] eqn:E.
  - destruct (is_finished t) eqn:F.
    + intros Ht Hf. split; [done|]. intros ->. congruence.
    + simpl. intros (u & Hu & ->)%restage_lookup Hf. case_decide; [done|]. done.
  - intros Ht _. split; [done|]. intros ->. congruence.
Qed.

Lemma drain_live s h t :
  sw_tasks (Swarm.drain s) !! h = Some t → is_finished t = false → sw_tasks s !! h = Some t ∧ h ∉ sw_bridges s.
Proof.
  unfold Swarm.drain. cbn [Swarm.set_bridges sw_tasks]. generalize (sw_bridges s) as hs. intros hs. revert s.
  induction hs as [|x hs IH]; intros s Ht Hf; simpl in *; [split; [done|apply not_elem_of_nil]|].
  destruct (IH _ Ht Hf) as [H1 H2]. apply cancel_live in H1 as [H1 Hne]; [|done].
  split; [done|]. by apply not_elem_of_cons.
Qed.

Lemma drain_loops s :
  sw_accept (Swarm.drain s) = sw_accept s ∧ sw_connect (Swarm.drain s) = sw_connect s ∧ sw_aborting (Swarm.drain s) = sw_aborting s.
Proof.
  apply (drain_ind (λ s', sw_accept s' = sw_accept s ∧ sw_connect s' = sw_connect s ∧ sw_aborting s' = sw_aborting s)); [done| |done].
  intros s1 h (H1 & H2 & H3). destruct (cancel_moves s1 h) as [->|[_ (-> & -> & -> & _)]]; done.
Qed.

Lemma drain_tracked s : tracked s → tracked (Swarm.drain s).
Proof.
  intros H h t Ht Hf. destruct (drain_live s h t Ht Hf) as [Ht1 Hni].
  destruct (drain_loops s) as (-> & -> & _). destruct (H h t Ht1 Hf) as [?|?]; [done|by right].
Qed.

Lemma step_tracked my_id ev s s' : tracked s → Swarm.step my_id ev s = Some s' → tracked s'.
Proof.
  intros H E. destruct (task_event ev) as [h|] eqn:Hev.
  { destruct (task_event_moves my_id ev h s s' Hev E). by eapply task_moves_tracked. }
  destruct ev; try discriminate; cbn [Swarm.step] in E.
  - destruct (sw_accept s) eqn:Eac, (sw_aborting s); try done. injection E as <-. destruct remote as [id|]; [|done].
    intros h t Ht Hf. simpl in *. destruct (spawned_live _ _ _ _ Ht Hf) as [Ht1| ->]; [|right; by left].
    destruct (H h t Ht1 Hf) as [?|[?|?]]; [by left|congruence|by right; right].
  - destruct (sw_accept s) as [|h0|] eqn:Eac; try done. injection E as <-. intros h t Ht Hf. simpl in Ht.
    destruct (H h t Ht Hf) as [?|[Ea|?]]; [left|left|by right; right]; eapply track_keeps; eauto. right. congruence.
  - destruct (sw_connect s) eqn:Ek, (sw_aborting s); try done. injection E as <-. intros h t Ht Hf.
    destruct (H h t Ht Hf) as [?|[?|[? ?]]]; [by left|by right; left|congruence].
  - destruct (sw_connect s) as [|[|t0 rest]| | | |] eqn:Ek; try done; injection E as <-;
      [|unfold Swarm.connect_target; repeat case_bool_decide]; intros h t Ht Hf;
      (destruct (H h t Ht Hf) as [?|[?|[? ?]]]; [by left|by right; left|congruence]).
  - destruct (sw_connect s) as [| |t0 rest| | |] eqn:Ek, (sw_aborting s); try done. injection E as <-.
    unfold Swarm.connect_result. destruct ok; intros h t Ht Hf; simpl in *.
    + destruct (spawned_live _ _ _ _ Ht Hf) as [Ht1| ->]; [|right; right; eauto].
      destruct (H h t Ht1 Hf) as [?|[?|[? ?]]]; [by left|by right; left|congruence].
    + destruct (H h t Ht Hf) as [?|[?|[? ?]]]; [by left|by right; left|congruence].
  - destruct (sw_connect s) as [| | |h0 rest| |] eqn:Ek; try done. injection E as <-. intros h t Ht Hf. simpl in Ht.
    destruct (H h t Ht Hf) as [?|[?|[? ?]]]; [left|by right; left|left]; eapply track_keeps; eauto. right. congruence.
  - destruct (sw_connect s) eqn:Ek, (sw_aborting s); try done. injection E as <-. intros h t Ht Hf.
    destruct (H h t Ht Hf) as [?|[?|[? ?]]]; [by left|by right; left|congruence].
  - by injection E as <-.
  - by injection E as <-.
  - by injection E as <-.
  - destruct (sw_aborting s); [|done]. injection E as <-. by apply drain_tracked.
  - destruct (sw_accept s) eqn:Eac, (sw_aborting s); try done. injection E as <-. intros h t Ht Hf.
    destruct (H h t Ht Hf) as [?|[?|?]]; [by left|congruence|by right; right].
  - destruct (sw_connect s) eqn:Ek, (sw_aborting s); try done; injection E as <-; intros h t Ht Hf;
      (destruct (H h t Ht Hf) as [?|[?|[? ?]]]; [by left|by right; left|congruence]).
Qed.

(** No loop is between spawning a task and recording its handle. *)
Definition settled s : Prop := (∀ h, sw_accept s ≠ Accepted h) ∧ (∀ h rest, sw_connect s ≠ Dialled h rest).

Definition no_task s : Prop := ∀ h t, sw_tasks s !! h = Some t → is_finished t = true.

Definition quiet s : Prop := sw_aborting s = true ∧ settled s ∧ no_task s.

Lemma step_quiet my_id ev s s' : quiet s → Swarm.step my_id ev s = Some s' → quiet s'.
Proof.
  unfold quiet.
  intros (Ha & [Hac Hco] & Hno) E. destruct (task_event ev) as [h|] eqn:Hev.
  { destruct (task_event_moves my_id ev h s s' Hev E) as [[t ? ? Ht Hf|t ? Ht Hf] _]; apply Hno in Ht; congruence. }
  destruct ev; try discriminate; cbn [Swarm.step] in E; rewrite ?Ha in E.
  - by destruct (sw_accept s).
  - destruct (sw_accept s) eqn:?; try done. by exfalso; eapply Hac.
  - by destruct (sw_connect s).
  - destruct (sw_connect s) as [|[|t0 rest]| | | |] eqn:Ek; try done; injection E as <-;
      [done|unfold Swarm.connect_target; repeat case_bool_decide; done].
  - by destruct (sw_connect s).
  - destruct (sw_connect s) eqn:?; try done. by exfalso; eapply Hco.
  - by destruct (sw_connect s).
  - by injection E as <-.
  - by injection E as <-.
  - by injection E as <-.
  - injection E as <-. destruct (drain_loops s) as (E1 & E2 & E3). split_and!; [congruence| |].
    + split; [intros h|intros h rest]; rewrite ?E1, ?E2; [apply Hac|apply Hco].
    + intros h t Ht. destruct (is_finished t) eqn:Hf; [done|]. apply drain_live in Ht as [Ht _]; [|done].
      apply Hno in Ht. congruence.
  - destruct (sw_accept s); try done. by injection E as <-.
  - destruct (sw_connect s); try done; by injection E as <-.
Qed.

(** Teardown. [abort], called while neither loop is between spawning a
    task and recording its handle, ends every session, and none starts
    afterwards, whatever the other tasks go on to do. *)
Theorem abort_ends_sessions my_id id node pull disc gate evs s later s' :
  Swarm.run my_id evs (Swarm.spawn_inner id node pull disc gate) = Some s → settled s →
  Swarm.run my_id later (Swarm.abort s) = Some s' → no_task s'.
Proof.
  intros Hrun Hset Hlater.
  assert (Ht : tracked s).
  { refine (run_inv tracked (λ _, True) my_id evs _ s _ _ _ Hrun); [|intros h t Hh; by destruct h|by apply Forall_true].
    intros ev s1 s2 H1 _. by apply step_tracked. }
  assert (quiet s') as (_ & _ & H); [|done].
  refine (run_inv quiet (λ _, True) my_id later (Swarm.abort s) s' _ _ _ Hlater).
  - intros ev s1 s2 H1 _. by apply step_quiet.
  - unfold Swarm.abort. destruct (drain_loops (Swarm.abort_loops s)) as (E1 & E2 & E3).
    split_and!; [done| |].
    + destruct Hset as [Hac Hco]. split; [intros h|intros h rest]; rewrite ?E1, ?E2; [apply Hac|apply Hco].
    + intros h t Hh. destruct (is_finished t) eqn:Hf; [done|].
      apply drain_live in Hh as [Hh Hni]; [|done]. cbn [Swarm.abort_loops sw_tasks sw_bridges] in *.
      destruct (Ht h t Hh Hf) as [?|[?|[? ?]]]; [done|by apply Hset in H|by apply Hset in H].
  - by apply Forall_true.
Qed.
End swarm.

(** ** Sessions of the node *)

Section count.
Context {W G P A : Type} {AW : AsyncWrite W} {MG : MemberGate G} {FP : FramePersister P}
  {FA : FrameAuth A} {HI : HashIter}.
Implicit Types (s : Swarm W G P A) (n : SyncNode P A) (ts : list (Task W)).

Definition rx_of (st : Stage W) : option nat := match st with Running rx _ _ => Some rx | _ => None end.
Definition rxs ts : list nat := omap (λ t, rx_of (tk_stage t)) ts.

(** The receivers that exist are exactly those of the listed sessions. *)
Definition counted n (l : list nat) : Prop :=
  node_wf n ∧ NoDup l ∧ ∀ rx, rx ∈ l ↔ rx ∈ sessions n ∧ live (channels n) rx.

#[global] Instance counted_proper n : Proper ((≡ₚ) ==> iff) (counted n).
Proof. intros l l' E. unfold counted. setoid_rewrite E. done. Qed.

Lemma rxs_restage ts h t st :
  ts !! h = Some t → ∃ l, rxs ts ≡ₚ option_list (rx_of (tk_stage t)) ++ l ∧
    rxs (alter (restage st) h ts) ≡ₚ option_list (rx_of st) ++ l.
Proof.
  intros Ht. pose proof (take_drop_middle ts h t Ht) as E.
  assert (Hh : length (take h ts) = h) by (apply length_take_le; apply lookup_lt_Some in Ht; lia).
  revert E Hh. generalize (take h ts) as l1, (drop (S h) ts) as l2. intros l1 l2 <- <-.
  exists (rxs l1 ++ rxs l2). rewrite alter_app_r_alt, Nat.sub_diag by done. unfold rxs. rewrite !omap_app. simpl.
  destruct (rx_of (tk_stage t)), (rx_of st); simpl; split; try done; by rewrite <-Permutation_middle.
Qed.

Lemma counted_register n l : counted n l → counted (SyncNode.register_session n).1 ((SyncNode.register_session n).2 :: l).
Proof using FA FP HI.
  intros (Hwf & Hnd & Hl). pose proof (node_step_wf n NRegister Hwf) as Hwf'. split; [done|].
  unfold SyncNode.register_session. simpl. pose proof (is_fresh (dom (channels n))) as Hf%not_elem_of_dom.
  set (tx := fresh (dom (channels n))) in *.
  assert (Hni : tx ∉ l). { intros [_ Hx]%Hl. unfold live, is_closed in Hx. by rewrite Hf in Hx. }
  split; [by apply NoDup_cons|]. intros rx. rewrite elem_of_cons, elem_of_app, list_elem_of_singleton, Hl.
  unfold live, is_closed. rewrite lookup_insert. case_decide; [subst; naive_solver|naive_solver].
Qed.

Lemma counted_drop n l rx : counted n (rx :: l) → counted (SyncNode.drop_receiver n rx) l.
Proof using FA FP HI.
  intros (Hwf & Hnd & Hl). pose proof (node_step_wf n (NDrop rx) Hwf) as Hwf'. split; [done|].
  apply NoDup_cons in Hnd as [Hni Hnd]. split; [done|]. intros x. simpl.
  unfold live, is_closed. rewrite lookup_alter. case_decide as E.
  - subst x. destruct (channels n !! rx); simpl; naive_solver.
  - specialize (Hl x). rewrite elem_of_cons in Hl. unfold live, is_closed in Hl. naive_solver.
Qed.

Lemma counted_state n st l : counted n l → counted (mkNode st (sessions n) (channels n)) l.
Proof. done. Qed.

Lemma counted_recv n rx l : counted n l → counted (SyncNode.recv n rx).1 l.
Proof using FA FP HI.
  intros (Hwf & Hnd & Hl). pose proof (node_step_wf n (NRecv rx) Hwf) as Hwf'. split; [done|]. split; [done|].
  intros x. rewrite Hl. unfold SyncNode.recv. destruct (channels n !! rx) as [[b [|f q]]|] eqn:E; try done. simpl.
  unfold live, is_closed. rewrite lookup_insert. case_decide; [subst|done]. by rewrite E.
Qed.

Lemma counted_fans_out n n' fs l : counted n l → node_wf n' → fans_out n n' fs → counted n' l.
Proof.
  intros (Hwf & Hnd & Hl) Hwf' [[Hs Hc]|(_ & Hs & Hc)]; (split; [done|]; split; [done|]); intros rx; rewrite Hl, Hs.
  - rewrite list_elem_of_filter, (served_live _ _ _ _ rx Hc). naive_solver.
  - by rewrite Hc.
Qed.

Lemma counted_write n now op e i d l : counted n l → counted (SyncNode.local_write n now op e i d).1 l.
Proof using FA FP HI.
  intros H. eapply (counted_fans_out n (node_step n (NWrite now op e i d))); [done| |].
  - apply node_step_wf, H.
  - apply local_write_fans_out, H.
Qed.

Lemma counted_ingest n now fs l : counted n l → counted (SyncNode.ingest n now fs).1 l.
Proof using FA FP HI.
  intros H. eapply (counted_fans_out n (node_step n (NIngest now fs))); [done| |].
  - apply node_step_wf, H.
  - apply ingest_fans_out, H.
Qed.

Lemma counted_count n l : counted n l → (SyncNode.session_count n).2 = length l.
Proof.
  intros ((Hnd & _) & Hl & Hiff). simpl. apply Permutation_length, NoDup_Permutation; [by apply NoDup_filter|done|].
  intros rx. rewrite list_elem_of_filter, Hiff. unfold live. tauto.
Qed.

Definition counts s : Prop := counted (sw_node s) (rxs (sw_tasks s)).

(** A task at [h] moves to [st], and the node's channels follow. *)
Lemma counts_on s h t st n :
  sw_tasks s !! h = Some t → counts s → rx_of st = rx_of (tk_stage t) →
  (∀ l, counted (sw_node s) l → counted n l) → counted n (rxs (alter (restage st) h (sw_tasks s))).
Proof.
  intros Ht Hc E Hn. destruct (rxs_restage _ h t st Ht) as (l & H1 & H2). unfold counts in Hc.
  rewrite H2, E, <-H1. by apply Hn.
Qed.

Lemma counts_off s h t st n n0 :
  sw_tasks s !! h = Some t → counts s → rx_of st = None → (∀ l, counted (sw_node s) l → counted n0 l) →
  n = Swarm.drop_rx (tk_stage t) n0 → counted n (rxs (alter (restage st) h (sw_tasks s))).
Proof using FA FP HI.
  intros Ht Hc E Hn ->. destruct (rxs_restage _ h t st Ht) as (l & H1 & H2). unfold counts in Hc.
  rewrite H1 in Hc. apply Hn in Hc. rewrite H2, E. simpl. destruct (tk_stage t); simpl in *; try done.
  by apply counted_drop.
Qed.

Lemma session_result_counts h t rx remote w r s s' n0 :
  sw_tasks s !! h = Some t → tk_stage t = Running rx remote w → counts s → (∀ l, counted (sw_node s) l → counted n0 l) →
  Swarm.session_result h t rx r (Swarm.set_node n0 s) = Some s' → counts s'.
Proof using FA FP HI.
  intros Ht Est Hc Hn. unfold Swarm.session_result. destruct r as [[se c]|]; [|done]. cbn [mbind option_bind].
  intros [= <-]. unfold counts. destruct c; simpl.
  - eapply counts_on; [done|done|by rewrite Est|]. intros l Hl. by apply counted_state, Hn.
  - eapply (counts_off s h t Finished _ (mkNode (shared se) (sessions n0) (channels n0))); [done..| |by rewrite Est].
    intros l Hl. by apply counted_state, Hn.
Qed.

Lemma bridge_counts h t send s s' :
  sw_tasks s !! h = Some t → tk_stage t = Opening → counts s → Swarm.bridge h t send s = Some s' → counts s'.
Proof using AW FA FP HI.
  intros Ht Est Hc. unfold Swarm.bridge. destruct send as [w|].
  - destruct (SyncNode.register_session (sw_node s)) as [n rx] eqn:E.
    pose proof (counted_register _ _ Hc) as Hr. rewrite E in Hr. simpl in Hr.
    unfold Swarm.session_result. destruct (start (state n) w) as [[se c]|]; [|done]. cbn [mbind option_bind].
    intros [= <-]. unfold counts. destruct c; simpl.
    + destruct (rxs_restage _ h t (Running rx (remote_id se) (writer se)) Ht) as (l & H1 & H2).
      rewrite H2. rewrite Est in H1. simpl in *. rewrite <-H1. done.
    + destruct (rxs_restage _ h t Finished Ht) as (l & H1 & H2). rewrite H2, <-app_nil_l.
      rewrite Est in H1. simpl in *. rewrite <-H1. apply counted_drop. done.
  - intros [= <-]. unfold counts. simpl. eapply counts_on; [done..|by rewrite Est|done].
Qed.

Lemma cancel_counts s h : counts s → counts (Swarm.cancel_task s h).
Proof using FA FP HI.
  intros Hc. unfold Swarm.cancel_task. destruct (sw_tasks s !! h) as [t|] eqn:Ht; [|done].
  destruct (is_finished t); [done|]. unfold counts. simpl. by eapply counts_off.
Qed.

Lemma counts_spawn s role id : counts s → counted (sw_node s) (rxs (sw_tasks s ++ [mkTask role id Admitting])).
Proof. unfold counts, rxs. rewrite omap_app. simpl. by rewrite app_nil_r. Qed.

Lemma step_counts my_id ev s s' : counts s → Swarm.step my_id ev s = Some s' → counts s'.
Proof.
  intros Hc E. destruct ev; cbn [Swarm.step] in E.
  - destruct (sw_accept s), (sw_aborting s); try done. injection E as <-. destruct remote; [by apply (counts_spawn s)|done].
  - destruct (sw_accept s); try done. by injection E as <-.
  - destruct (sw_connect s), (sw_aborting s); try done. by injection E as <-.
  - destruct (sw_connect s) as [|[|]| | | |]; try done; injection E as <-; [done|].
    unfold Swarm.connect_target. by repeat case_bool_decide.
  - destruct (sw_connect s), (sw_aborting s); try done. injection E as <-. destruct ok; [by apply (counts_spawn s)|done].
  - destruct (sw_connect s); try done. by injection E as <-.
  - destruct (sw_connect s), (sw_aborting s); try done. by injection E as <-.
  - apply at_task_Some in E as (t & Ht & Hf & E). destruct (tk_stage t) eqn:Est; try done. unfold Swarm.admit_peer in E.
    destruct (admitted _ _ _ _) as [[[g out] ok]|]; [|done]. injection E as <-. unfold counts.
    destruct ok; simpl; (eapply counts_on; [done..|by rewrite Est|done]).
  - apply at_task_Some in E as (t & Ht & Hf & E). destruct (tk_stage t) eqn:Est; try done. by eapply bridge_counts.
  - apply at_task_Some in E as (t & Ht & Hf & E). destruct (tk_stage t) eqn:Est; try done.
    by eapply (session_result_counts h t _ _ _ _ s s' (sw_node s)).
  - apply at_task_Some in E as (t & Ht & Hf & E). destruct (tk_stage t) as [| |rx remote w| | |] eqn:Est; try done.
    destruct (SyncNode.recv _ _) as [n [f|]] eqn:En; [|done]. eapply session_result_counts; [done..| |done].
    intros l Hl. apply (counted_recv _ rx) in Hl. by rewrite En in Hl.
  - apply at_task_Some in E as (t & Ht & Hf & E). destruct (tk_stage t) eqn:Est; try done.
    by eapply (session_result_counts h t _ _ _ _ s s' (sw_node s)).
  - apply at_task_Some in E as (t & Ht & Hf & E). injection E as <-. unfold counts. simpl.
    apply (counted_state (Swarm.drop_rx (tk_stage t) (sw_node s))). by eapply counts_off.
  - injection E as <-. by apply counted_write.
  - injection E as <-. by apply counted_ingest.
  - by injection E as <-.
  - destruct (sw_aborting s); [|done]. injection E as <-. apply drain_ind; [done| |done]. intros. by apply cancel_counts.
  - destruct (sw_accept s), (sw_aborting s); try done. by injection E as <-.
  - destruct (sw_connect s), (sw_aborting s); try done; by injection E as <-.
Qed.

(** The node knows the swarm's sessions. On a node whose earlier sessions
    are gone, the count the node reports is at all times the number of sessions
    the swarm runs: a session that ends, panics or is aborted takes its
    channel with it, and none is counted twice. *)
Theorem session_count_exact my_id id node pull disc gate evs s :
  node_wf node → (∀ rx, rx ∈ sessions node → ¬ live (channels node) rx) →
  Swarm.run my_id evs (Swarm.spawn_inner id node pull disc gate) = Some s →
  (SyncNode.session_count (sw_node s)).2 = length (rxs (sw_tasks s)).
Proof.
  intros Hwf Hold Hrun. apply counted_count. change (counts s).
  refine (run_inv counts (λ _, True) my_id evs _ s _ _ _ Hrun); [| |by apply Forall_true].
  - intros ev s1 s2 H1 _. by apply step_counts.
  - split; [done|]. split; [constructor|]. intros rx. split; [by intros ?%not_elem_of_nil|]. intros [Hin Hl]. by apply Hold in Hl.
Qed.
End count.

(** ** Runs *)

Module SwarmRuns.

(** A gate that admits everybody and has no proof to offer. *)
#[local] Instance open_gate : MemberGate unit := {|
  admits _ _ := Some true;
  local_proof := default_local_proof;
  admits_with_proof := default_admits_with_proof (λ _ _, Some true);
|}.

Abbreviation ExSwarm := (Swarm (list byte) unit NoSink NoSink).
Abbreviation ExEvent := (SwarmEvent (list byte) NoSink NoSink).

Definition ex_swarm : ExSwarm := Swarm.spawn (Some "b") (SyncNode.new (ex_peer x01)) 300.

Definition connect_run : list ExEvent :=
  [EDiscover (Some ["a"; "c"; "b"]); ENext; ENext; EAccept (Some "a"); EConnected true; EAcceptTrack; EConnectTrack;
   EAdmit 1 None true None; EStreams 1 (Some []); EAdmit 0 None true None; EStreams 0 (Some []);
   EWrite (Ok 100%Z) Insert "task" "t1" [x2a]; ELocal 0].

(** The peer "b" dials "c" and is dialled by "a"; when the session with "c"
    breaks, the next sweep dials it again. *)
Definition redial_run : list ExEvent :=
  connect_run ++ [ESession 1 (Ok 100%Z) (Err (Io UnexpectedEof)); ENext; ENext; EWake; EDiscover (Some ["c"])].

Definition at_end (evs : list ExEvent) (f : ExSwarm → bool) : bool :=
  match Swarm.run "b" evs ex_swarm with Some s => f s | None => false end.

Lemma at_end_Some evs f : at_end evs f = true → ∃ s, Swarm.run "b" evs ex_swarm = Some s ∧ f s = true.
Proof. unfold at_end. destruct (Swarm.run "b" evs ex_swarm) as [s|]; [eauto|done]. Qed.

Lemma larger_c : larger "b" "c".
Proof. apply larger_spec. apply (bool_decide_unpack _). vm_compute. exact I. Qed.

Definition returned (t : Task (list byte)) : bool := match tk_stage t with Finished => true | _ => false end.

Definition dials_c (t : Task (list byte)) : bool := bool_decide (tk_role t = Initiator ∧ tk_id t = "c").

Lemma swarm_one_session_witness :
  ∃ s s', Swarm.run "b" redial_run ex_swarm = Some s ∧ length (filter (λ t, dials_c t = true) (sw_tasks s)) = 1 ∧
    (∀ a b, holds "c" s a → holds "c" s b → a = b) ∧
    Swarm.step "b" ENext s = Some s' ∧ sw_connect s' = Dialling "c" [].
Proof.
  destruct (at_end_Some redial_run (λ s, bool_decide (sw_connect s = Sweeping ["c"] ∧ sw_aborting s = false ∧
    Forall (λ t, dials_c t = true → returned t = true) (sw_tasks s) ∧
    length (filter (λ t, dials_c t = true) (sw_tasks s)) = 1))) as (s & Hrun & H); [vm_compute; reflexivity|].
  apply bool_decide_eq_true in H as (Hk & Ha & Hd & Hn).
  destruct (swarm_one_session "b" (SyncNode.new (ex_peer x01)) 300 300 None redial_run s "c" Hrun) as [Hone Hdial].
  - apply (bool_decide_unpack _). vm_compute. exact I.
  - apply larger_c.
  - destruct (Hdial [] Hk Ha) as (s' & Hs & Hs').
    + intros h t Ht Hro Hi. assert (dials_c t = true) as E by (apply bool_decide_eq_true; split; assumption).
      pose proof (Forall_lookup_1 _ _ h t Hd Ht E) as Hr. unfold returned in Hr. destruct (tk_stage t); congruence.
    + exists s, s'. split_and!; assumption.
Defined.

Lemma abort_ends_sessions_witness :
  ∃ s s', Swarm.run "b" connect_run ex_swarm = Some s ∧ length (rxs (sw_tasks s)) = 2 ∧ settled s ∧
    Swarm.run "b" [EStopAccept; EWrite (Ok 200%Z) Insert "task" "t2" [x2a]; ENext; ENext; EStopConnect] (Swarm.abort s) = Some s' ∧ no_task s'.
Proof.
  destruct (at_end_Some connect_run (λ s, bool_decide (sw_accept s = Accepting ∧ sw_connect s = Sweeping ["b"] ∧ length (rxs (sw_tasks s)) = 2 ∧
    is_Some (Swarm.run "b" [EStopAccept; EWrite (Ok 200%Z) Insert "task" "t2" [x2a]; ENext; ENext; EStopConnect] (Swarm.abort s))))) as (s & Hrun & H);
    [vm_compute; reflexivity|].
  apply bool_decide_eq_true in H as (Hac & Hco & Hn & [s' Hs']). exists s, s'.
  assert (Hset : settled s) by (split; intros; [rewrite Hac|rewrite Hco]; discriminate).
  split_and!; try assumption.
  exact (abort_ends_sessions "b" (Some "b") (SyncNode.new (ex_peer x01)) 300 300 None connect_run s _ s' Hrun Hset Hs').
Defined.

Lemma session_count_exact_witness :
  ∃ s, Swarm.run "b" redial_run ex_swarm = Some s ∧ (SyncNode.session_count (sw_node s)).2 = 1.
Proof.
  destruct (at_end_Some redial_run (λ s, bool_decide (length (rxs (sw_tasks s)) = 1))) as (s & Hrun & H); [vm_compute; reflexivity|].
  apply bool_decide_eq_true in H. exists s. split; [assumption|]. rewrite <-H.
  apply (session_count_exact "b" (Some "b") (SyncNode.new (ex_peer x01)) 300 300 None redial_run s); [| |assumption].
  - split; [constructor|]. intros tx Htx. destruct (not_elem_of_nil _ Htx).
  - intros rx Hrx. destruct (not_elem_of_nil _ Hrx).
Defined.

(** *** Where the promises end *)

(** [abort] from another thread, between the spawning of a task and the
    recording of its handle: the loops stop and the handles are drained, and
    the session still opens and runs. *)
Lemma abort_race :
  at_end [EAccept (Some "a"); EAbort; EDrain; EAcceptTrack; EStopAccept; EStopConnect; EAdmit 0 None true None; EStreams 0 (Some [])]
    (λ s, bool_decide (sw_accept s = AcceptStopped ∧ sw_connect s = ConnectStopped ∧ length (rxs (sw_tasks s)) = 1)) = true.
Proof. vm_compute. reflexivity. Qed.

(** A peer with a larger id that dials against the rule: when its connection
    ends, the id is free again while the first session still runs, and the next
    sweep dials a second one. *)
Lemma second_session :
  at_end [EDiscover (Some ["c"]); ENext; EConnected true; EConnectTrack; ENext; EAdmit 0 None true None; EStreams 0 (Some []);
          EAccept (Some "c"); EAcceptTrack; EAdmit 1 None true None; EStreams 1 None;
          EWake; EDiscover (Some ["c"]); ENext; EConnected true; EConnectTrack; EAdmit 2 None true None; EStreams 2 (Some [])]
    (λ s, bool_decide (length (filter (λ t, dials_c t = true) (sw_tasks s)) = 2 ∧ length (rxs (sw_tasks s)) = 2)) = true.
Proof. vm_compute. reflexivity. Qed.

(** A task that panics keeps its peer's id: no later sweep dials it. *)
Lemma panicked_never_redialled :
  at_end [EDiscover (Some ["c"]); ENext; EConnected true; EConnectTrack; ENext; EPanic 0 (SyncState.new (ex_peer x01));
          EWake; EDiscover (Some ["c"]); ENext; ENext; EWake; EDiscover (Some ["c"]); ENext; ENext]
    (λ s, bool_decide (sw_connect s = Sleeping ∧ length (sw_tasks s) = 1 ∧ rxs (sw_tasks s) = [] ∧ sw_connected s = {["c"]})) = true.
Proof. vm_compute. reflexivity. Qed.
End SwarmRuns.
