(* ===== verification/Json.v ===== *)
(** * Records as JSON objects

    [serde_json::Value] with the constructors the sources match on, the
    accessors they call and [Record = serde_json::Map<String, Value>]
    (types.rs). A map is extensional: every loop over one in the sources only
    inserts what it reads, so its order is not observed. The parser and
    printer of [serde_json] are not modelled here; components that use them
    take them as parameters. *)
From S2P Require Import Prelude.
#[global] Set Warnings "-register-all".

(** A JSON number: [u64], negative [i64], or the bits of an [f64]. *)
Inductive Number :=
| PosInt (n : Z)
| NegInt (n : Z)
| Float (bits : Z).

Inductive Value :=
| Null
| Bool (b : bool)
| Num (n : Number)
| Str (s : string)
| Array (l : list Value)
| Object (m : gmap string Value).

Abbreviation Record_ := (gmap string Value).

Definition is_null (v : Value) : bool := match v with Null => true | _ => false end.
Definition as_str (v : Value) : option string := match v with Str s => Some s | _ => None end.
Definition as_object (v : Value) : option Record_ := match v with Object m => Some m | _ => None end.
Definition as_u64 (v : Value) : option Z := match v with Num (PosInt n) => Some n | _ => None end.
Definition as_i64 (v : Value) : option Z :=
  match v with
  | Num (PosInt n) => if bool_decide (n ≤ i64_max)%Z then Some n else None
  | Num (NegInt n) => Some n
  | _ => None
  end.

(** [==] on numbers and values. A JSON number is no NaN; the two zeros of
    [f64] are equal. *)
Definition number_eqb (a b : Number) : bool :=
  match a, b with
  | PosInt a, PosInt b | NegInt a, NegInt b => bool_decide (a = b)
  | Float a, Float b => bool_decide (a = b) || bool_decide (a mod 2 ^ 63 = 0 ∧ b mod 2 ^ 63 = 0)%Z
  | _, _ => false
  end.

Fixpoint value_eqb (a b : Value) : bool :=
  match a, b with
  | Null, Null => true
  | Bool a, Bool b => bool_decide (a = b)
  | Num a, Num b => number_eqb a b
  | Str a, Str b => bool_decide (a = b)
  | Array l, Array k =>
    (fix go (l k : list Value) : bool :=
       match l, k with [], [] => true | a :: l, b :: k => value_eqb a b && go l k | _, _ => false end) l k
  | Object m, Object n =>
    bool_decide (size m = size n) &&
    map_fold (λ k a ok, ok && match n !! k with Some b => value_eqb a b | None => false end) true m
  | _, _ => false
  end.

Lemma value_eqb_str v s : value_eqb v (Str s) = bool_decide (as_str v = Some s).
Proof. destruct v; simpl; try done; apply bool_decide_ext; naive_solver. Qed.

(** [Value::from(i64)]. *)
Definition from_i64 (n : Z) : Value := Num (if bool_decide (0 ≤ n)%Z then PosInt n else NegInt n).

(** [r.get(k).and_then(Value::as_str)], and the like. *)
Definition get_str (r : Record_) (k : string) : option string := r !! k ≫= as_str.
Definition get_u64 (r : Record_) (k : string) : option Z := r !! k ≫= as_u64.

Definition contains_key (r : Record_) (k : string) : bool := bool_decide (is_Some (r !! k)).

(** [r.entry(k).or_insert_with(|| v)]. *)
Definition entry_or_insert (r : Record_) (k : string) (v : Value) : Record_ :=
  match r !! k with Some _ => r | None => <[k := v]> r end.

(** [for (k, v) in data { merged.insert(k, v) }]. *)
Definition extend (merged data : Record_) : Record_ := data ∪ merged.

Definition strip_nulls (r : Record_) : Record_ := filter (λ kv, is_null kv.2 = false) r.

Lemma strip_nulls_lookup r k v :
  strip_nulls r !! k = Some v ↔ r !! k = Some v ∧ is_null v = false.
Proof. unfold strip_nulls. apply map_lookup_filter_Some. Qed.

Lemma strip_nulls_id r : map_Forall (λ _ v, is_null v = false) r → strip_nulls r = r.
Proof. intros H. apply map_filter_id. intros k v Hk. by apply (H k v). Qed.

Lemma strip_nulls_idemp r : strip_nulls (strip_nulls r) = strip_nulls r.
Proof. apply strip_nulls_id. intros k v [_ H]%strip_nulls_lookup. done. Qed.

Lemma get_str_insert r k k' v :
  get_str (<[k := v]> r) k' = if decide (k = k') then as_str v else get_str r k'.
Proof. unfold get_str. rewrite lookup_insert. by case_decide. Qed.

Lemma get_str_strip r k : get_str (strip_nulls r) k = get_str r k.
Proof.
  unfold get_str. destruct (r !! k) as [v|] eqn:E.
  - destruct (is_null v) eqn:Hn.
    + destruct (strip_nulls r !! k) as [w|] eqn:E'.
      * apply strip_nulls_lookup in E' as [? ?]. congruence.
      * by destruct v.
    + replace (strip_nulls r !! k) with (Some v); [done|]. symmetry. by apply strip_nulls_lookup.
  - replace (strip_nulls r !! k) with (@None Value); [done|]. symmetry. apply eq_None_not_Some.
    intros [v [Hv _]%strip_nulls_lookup]. congruence.
Qed.

Lemma contains_key_false r k : contains_key r k = false ↔ r !! k = None.
Proof. unfold contains_key. rewrite bool_decide_eq_false, <-eq_None_not_Some. done. Qed.
