(* ===== verification/Float64.v ===== *)
(** * Numbers of JavaScript and of JSON as [f64]

    What the wasm build computes with [f64]: the conversions between [u64] and
    [f64] of the bindings (stitch-wasm/src/lib.rs) and [Number::as_f64] of a
    JSON number, with the rounding of IEEE 754 binary64. *)
From Corelib Require Import Floats.SpecFloat.
From S2P Require Import Prelude Json.

#[local] Open Scope Z_scope.

Abbreviation f64 := spec_float.

(** [n as f64], to the nearest, ties to even. *)
Definition i_as_f64 (n : Z) : f64 := binary_normalize 53 1024 n 0 false.

(** [f64::from_bits], without the payload of a NaN. *)
Definition f64_from_bits (bits : Z) : f64 :=
  let s := Z.testbit bits 63 in
  let e := Z.land (Z.shiftr bits 52) 2047 in
  let m := Z.land bits (2 ^ 52 - 1) in
  if bool_decide (e = 2047) then (if bool_decide (m = 0) then S754_infinity s else S754_nan) else
  match (if bool_decide (e = 0) then m else m + 2 ^ 52) with
  | Zpos p => S754_finite s p (if bool_decide (e = 0) then -1074 else e - 1075)
  | _ => S754_zero s
  end.

(** [Number::as_f64]. *)
Definition as_f64 (n : Number) : f64 :=
  match n with PosInt n | NegInt n => i_as_f64 n | Float bits => f64_from_bits bits end.

Definition is_finite (x : f64) : bool := match x with S754_zero _ | S754_finite _ _ _ => true | _ => false end.

(** [x >= 0.0]. *)
Definition ge_zero (x : f64) : bool := SFleb (S754_zero false) x.

(** [x.fract() == 0.0] of a finite number. *)
Definition is_integral (x : f64) : bool :=
  match x with
  | S754_zero _ => true
  | S754_finite _ m e => if bool_decide (0 ≤ e) then true else bool_decide (Zpos m mod 2 ^ (- e) = 0)
  | _ => false
  end.

(** [x as u64]: towards zero, and saturating. *)
Definition as_u64_sat (x : f64) : Z :=
  match x with
  | S754_zero _ | S754_nan => 0
  | S754_infinity s => if s then 0 else u64_max
  | S754_finite s m e =>
    if s then 0 else Z.min u64_max (if bool_decide (0 ≤ e) then Zpos m * 2 ^ e else Zpos m / 2 ^ (- e))
  end.

(** ** Small integers are exact *)

Lemma digits2_pos_bounds p : 2 ^ (Zpos (digits2_pos p) - 1) ≤ Zpos p < 2 ^ Zpos (digits2_pos p).
Proof.
  induction p as [p IH|p IH|]; cbn [digits2_pos]; [| |done];
    replace (2 ^ Zpos (Pos.succ (digits2_pos p))) with (2 * 2 ^ Zpos (digits2_pos p)) by (rewrite <-Z.pow_succ_r by lia; f_equal; lia);
    replace (2 ^ (Zpos (Pos.succ (digits2_pos p)) - 1)) with (2 * 2 ^ (Zpos (digits2_pos p) - 1))
      by (rewrite <-Z.pow_succ_r by lia; f_equal; lia); lia.
Qed.

Lemma iter_xO d : ∀ m, Zpos (Pos.iter xO m d) = Zpos m * 2 ^ Zpos d ∧ (digits2_pos (Pos.iter xO m d) = digits2_pos m + d)%positive.
Proof.
  induction d as [|d IH] using Pos.peano_ind; intros m.
  - split; [|simpl; lia]. simpl. lia.
  - rewrite Pos.iter_succ. destruct (IH m) as [Hv Hd]. split.
    + rewrite Pos2Z.inj_xO, Hv. replace (Zpos (Pos.succ d)) with (Z.succ (Zpos d)) by lia. rewrite Z.pow_succ_r by lia. lia.
    + cbn [digits2_pos]. rewrite Hd. lia.
Qed.

(** A mantissa of 53 bits is kept as it is. *)
Lemma round_exact m e :
  Zpos (digits2_pos m) = 53 → -1000 ≤ e ≤ 0 → binary_round_aux 53 1024 false (Zpos m) e loc_Exact = S754_finite false m e.
Proof.
  intros Hd He. unfold binary_round_aux, shr_fexp. cbn [Zdigits2]. unfold fexp, emin. rewrite Hd.
  replace (Z.max (53 + e - 53) (3 - 1024 - 53) - e) with 0 by lia. cbn [shr shr_record_of_loc shr_m loc_of_shr_record round_nearest_even Zdigits2].
  rewrite Hd. replace (Z.max (53 + e - 53) (3 - 1024 - 53) - e) with 0 by lia. cbn [shr shr_record_of_loc shr_m].
  replace (e <=? 1024 - 53) with true; [done|]. symmetry. apply Z.leb_le. lia.
Qed.

Lemma small_exact p : Zpos p < 2 ^ 53 → ∃ m e, i_as_f64 (Zpos p) = S754_finite false m e ∧ e ≤ 0 ∧ Zpos m = Zpos p * 2 ^ (- e).
Proof.
  intros Hp. unfold i_as_f64, binary_normalize, binary_round. pose proof (digits2_pos_bounds p) as [Hlo Hhi].
  assert (Hd : Zpos (digits2_pos p) ≤ 53).
  { destruct (Z.le_gt_cases (Zpos (digits2_pos p)) 53) as [|Hgt]; [done|].
    assert (2 ^ 53 ≤ 2 ^ (Zpos (digits2_pos p) - 1)) by (apply Z.pow_le_mono_r; lia). lia. }
  unfold fexp, emin, shl_align. replace (Z.max (Zpos (digits2_pos p) + 0 - 53) (3 - 1024 - 53) - 0) with (Zpos (digits2_pos p) - 53) by lia.
  replace (Z.max (Zpos (digits2_pos p) + 0 - 53) (3 - 1024 - 53)) with (Zpos (digits2_pos p) - 53) by lia.
  destruct (Zpos (digits2_pos p) - 53) as [|k|k] eqn:Ek; [|lia|].
  - exists p, 0. rewrite round_exact by lia. split_and!; [done|lia|]. rewrite Z.mul_1_r. done.
  - destruct (iter_xO k p) as [Hv Hdig]. exists (Pos.iter xO p k), (Z.neg k).
    rewrite round_exact by (rewrite ?Hdig; lia). split_and!; [done|lia|]. by rewrite Hv.
Qed.

(** What JavaScript is told it can send back. A [u64] up to [2 ^ 53] survives
    the way through [f64]; it is finite, not negative and has no fraction. *)
Lemma f64_roundtrip n :
  0 ≤ n ≤ 2 ^ 53 → is_finite (i_as_f64 n) = true ∧ ge_zero (i_as_f64 n) = true ∧ is_integral (i_as_f64 n) = true ∧ as_u64_sat (i_as_f64 n) = n.
Proof.
  intros Hn. destruct (decide (n = 2 ^ 53)) as [->|Hne]; [vm_compute; done|].
  destruct n as [|p|p]; [vm_compute; done| |lia].
  destruct (small_exact p) as (m & e & -> & He & Hm); [lia|].
  assert (Hpow : 0 < 2 ^ (- e)) by (apply Z.pow_pos_nonneg; lia).
  split_and!; [done|done| |].
  - unfold is_integral. case_bool_decide; [done|]. apply bool_decide_eq_true_2. rewrite Hm. apply Z.mod_mul. lia.
  - unfold as_u64_sat, u64_max. case_bool_decide as H0.
    + assert (e = 0) as -> by lia. rewrite Z.mul_1_r in Hm. rewrite Z.mul_1_r, Hm. lia.
    + rewrite Hm, Z.div_mul by lia. lia.
Qed.

(** The next one does not. *)
Lemma f64_loses : i_as_f64 (2 ^ 53 + 1) = i_as_f64 (2 ^ 53).
Proof. vm_compute. reflexivity. Qed.

(** ** The order of [f64] *)

(** [partial_cmp] compares these triples one part after the other. *)
Definition f64_key (x : f64) : Z * Z * Z :=
  match x with
  | S754_nan => (0, 0, 0)
  | S754_infinity s => ((if s then -2 else 2), 0, 0)
  | S754_zero _ => (0, 0, 0)
  | S754_finite s m e => if s then (-1, - e, - Zpos m) else (1, e, Zpos m)
  end.

Definition key_compare (a b : Z * Z * Z) : comparison :=
  match Z.compare a.1.1 b.1.1 with
  | Eq => match Z.compare a.1.2 b.1.2 with Eq => Z.compare a.2 b.2 | c => c end
  | c => c
  end.

Definition is_nan (x : f64) : bool := match x with S754_nan => true | _ => false end.

Lemma SFcompare_key x y : is_nan x = false → is_nan y = false → SFcompare x y = Some (key_compare (f64_key x) (f64_key y)).
Proof.
  destruct x as [s|s| |s m e], y as [s'|s'| |s' m' e']; try done; intros _ _; cbn [SFcompare f64_key];
    repeat match goal with b : bool |- _ => destruct b end; try done; unfold key_compare; cbn [fst snd]; rewrite Z.compare_refl.
  assert (H : ∀ a b, (- a ?= - b) = CompOpp (a ?= b)) by (intros a b; by rewrite Z.compare_opp, Z.compare_antisym).
  rewrite !H. by destruct (e ?= e').
Qed.
