(* ===== verification/P2pStore.v ===== *)
(** * The peer-to-peer document store

    [crates/stitch-p2p/src/store.rs]: JSON records over a [SyncNode], with
    reads filtered to authorized authors when the scope has an owner.
    [serde_json] is an interface. Evaluating the membership may panic or run
    for ever (Membership.v): such a read is [None], and the bound on its rounds
    is an argument. Opening the log file is outside; [open] takes its outcome.
    A call takes the node's lock once per step, and the steps of a call are run
    here without others in between. *)
From S2P Require Import Prelude Hlc Lww Wire Replog SyncState Node Membership Json.

(** [serde_json::to_vec] and [from_slice]; the error is opaque. *)
Class JsonText := {
  to_text : Value → result (list byte) ();
  of_text : list byte → option Value;
}.

(** What is printed is read back. *)
Class JsonTextLaws {JT : JsonText} := {
  of_to_text v bs : to_text v = Ok bs → of_text bs = Some v;
}.

Record Store (P A : Type) := mkStore { st_node : SyncNode P A; st_owner : option PeerId }.
Arguments mkStore {P A}.
Arguments st_node {P A}.
Arguments st_owner {P A}.

Inductive StoreError := Serialize | Write (e : WriteError).

Module Store.
Section ops.
Context {P A : Type} {FP : FramePersister P} {FA : FrameAuth A} {HI : HashIter} {ED : Ed25519} {JT : JsonText}.
Implicit Types s t : Store P A.

Definition new (self_id : PeerId) : Store P A := mkStore (SyncNode.new self_id) None.

Definition open (self_id : PeerId) (log : result P IoError) : result (Store P A) IoError :=
  let? log := log in
  let? node := SyncNode.with_persister self_id log in
  Ok (mkStore node None).

Definition membership s : option (Membership P A) := mkMembership (st_node s) <$> st_owner s.

(** The result is [None] when the evaluation panics or needs more rounds. *)
Definition authorized_authors s (fuel : nat) : option (option (gmap PeerId Role)) :=
  match membership s with
  | None => Some None
  | Some m => a ← Membership.authorized m fuel; Some (Some a)
  end.

Definition author_authorized s (fuel : nat) (author : PeerId) : option bool :=
  a ← authorized_authors s fuel;
  Some match a with Some set => bool_decide (is_Some (set !! author)) | None => true end.

(** [self.node.local_write(..).await?] *)
Definition write s (now : result Z ()) (op : Op) (entity id : string) (data : list byte)
    : Store P A * result () StoreError :=
  match SyncNode.local_write (st_node s) now op entity id data with
  | (n, Ok _) => (mkStore n (st_owner s), Ok ())
  | (n, Err e) => (mkStore n (st_owner s), Err (Write e))
  end.

Definition create s (now : result Z ()) (entity id : string) (record : Value) : Store P A * result () StoreError :=
  match to_text record with
  | Err _ => (s, Err Serialize)
  | Ok data => write s now Insert entity id data
  end.

Definition read s (fuel : nat) (entity id : string) : option (option Value) :=
  match SyncNode.visible_with_author (st_node s) entity id with
  | None => Some None
  | Some (bytes, author) =>
    allowed ← author_authorized s fuel author;
    Some (if (allowed : bool) then of_text bytes else None)
  end.

Definition update s (fuel : nat) (now : result Z ()) (entity id : string) (fields : Record_)
    : option (Store P A * result () StoreError) :=
  existing ← read s fuel entity id;
  let merged := match existing with Some (Object existing) => existing | _ => ∅ end in
  Some match to_text (Object (extend merged fields)) with
       | Err _ => (s, Err Serialize)
       | Ok data => write s now Update entity id data
       end.

Definition delete s (now : result Z ()) (entity id : string) : Store P A * result () StoreError :=
  write s now Delete entity id [].

Definition entries s (fuel : nat) (entity : string) : option (Datatypes.list (string * Value)) :=
  authorized ← authorized_authors s fuel;
  let allowed author := match authorized with
                        | Some set => bool_decide (is_Some (set !! author))
                        | None => true
                        end in
  Some (omap (λ '(id, bytes, _), v ← of_text bytes; Some (id, v))
    (filter (λ '(_, _, author), allowed author = true) (SyncNode.entries_with_authors (st_node s) entity))).

Definition list s (fuel : nat) (entity : string) : option (Datatypes.list Value) :=
  es ← entries s fuel entity; Some es.*2.

Definition invite s (now : result Z ()) (target : PeerId) (role : Role) : Store P A * result () StoreError :=
  write s now Insert MEMBERS_ENTITY (member_record_id target) [Role.as_byte role].

Definition revoke s (now : result Z ()) (target : PeerId) : Store P A * result () StoreError :=
  write s now Delete MEMBERS_ENTITY (member_record_id target) [].
End ops.

Section identity.
Context {P : Type} {FP : FramePersister P} {ED : Ed25519}.

(** A state that signs with [identity]. *)
Definition signing (identity : Identity) (s : SyncState P Identity) : SyncNode P Identity :=
  SyncNode.from_state (SyncState.set_auth s identity).

Definition with_identity (identity : Identity) : Store P Identity :=
  mkStore (signing identity (SyncState.new (peer_id identity))) None.

Definition with_owner (identity : Identity) : Store P Identity :=
  mkStore (signing identity (SyncState.new (peer_id identity))) (Some (peer_id identity)).

Definition join (identity : Identity) (owner : PeerId) : Store P Identity :=
  mkStore (signing identity (SyncState.new (peer_id identity))) (Some owner).

Definition open_with_identity (identity : Identity) (log : result P IoError) : result (Store P Identity) IoError :=
  let? log := log in
  let? frames := load log in
  let s := foldl SyncState.replay (SyncState.new (peer_id identity)) frames in
  Ok (mkStore (signing identity (SyncState.set_persister s log)) None).
End identity.
End Store.

Section laws.
Context {P A : Type} {FP : FramePersister P} {FA : FrameAuth A} {HI : HashIter} {ED : Ed25519}.
Context {JT : JsonText} {JL : JsonTextLaws}.
Implicit Types s t : Store P A.

(** ** Reading what was written *)

(** The record after an accepted write, with its author. *)
Lemma write_visible s H now op e i d s' :
  state_models (state (st_node s)) H → hlc_room (clock (state (st_node s))) → is_u64 (now_millis now) →
  Store.write s now op e i d = (s', Ok ()) →
  st_owner s' = st_owner s ∧
  SyncNode.visible_with_author (st_node s') e i =
    if is_delete op then None else Some (d, SyncNode.self_id (st_node s)).
Proof.
  intros Hm Hr Hw. unfold Store.write, SyncNode.local_write.
  destruct (SyncState.local_write (state (st_node s)) (now_millis now) op e i d) as [st [f|err]] eqn:El; [|done].
  intros [= <-]. split; [done|].
  pose proof (local_write_models _ H _ op e i d st (Ok f) Hm Hr Hw El) as (Hf & _ & Hlt & _).
  destruct (built_fields (state (st_node s)) (now_millis now) op e i d) as (Hst & _ & Hin & _).
  rewrite <-Hf in Hst, Hin. destruct (sm_applier _ _ Hm) as (D & HD & HDw). revert El. rewrite local_write_cases.
  destruct (check_lengths e i d) as [[]|]; [|done]. cbv zeta.
  destruct (SyncState.persist _ _).2 as [[]|]; [|done]. intros [<- _]%pair_inv. rewrite <-Hf.
  unfold SyncNode.visible_with_author, SyncState.visible_with_author, SyncState.emit; simpl.
  rewrite (visible_with_author_models _ _ _ _ (merge_models _ _ _ HD)), Hin.
  change (e, i) with (write_key (mkWrite (f_stamp f) op e i d)). rewrite <-Hst in Hin |- *.
  rewrite (fresh_write_wins D H (state (st_node s))) by done. simpl. by rewrite Hst.
Qed.

Lemma read_written s fuel e i v bs author :
  SyncNode.visible_with_author (st_node s) e i = Some (bs, author) → to_text v = Ok bs →
  ∀ ok, Store.author_authorized s fuel author = Some ok → Store.read s fuel e i = Some (if ok then Some v else None).
Proof using JL. intros Hv Ht ok Ha. unfold Store.read. rewrite Hv, Ha. simpl. f_equal. destruct ok; [by apply of_to_text|done]. Qed.

(** A document store shows its own writes. An accepted create is read back as
    it was given, an accepted update as the fields merged over what the store
    showed before, when the writer itself is an authorized author (which every
    writer of an open scope is), and not at all otherwise; a deleted record is
    gone. *)
Theorem document_writes s H fuel now e i :
  state_models (state (st_node s)) H → hlc_room (clock (state (st_node s))) → is_u64 (now_millis now) →
  (∀ v s' ok, Store.create s now e i v = (s', Ok ()) →
     Store.author_authorized s' fuel (SyncNode.self_id (st_node s)) = Some ok →
     Store.read s' fuel e i = Some (if ok then Some v else None)) ∧
  (∀ fields s' ok, Store.update s fuel now e i fields = Some (s', Ok ()) →
     Store.author_authorized s' fuel (SyncNode.self_id (st_node s)) = Some ok →
     ∃ old, Store.read s fuel e i = Some old ∧
       Store.read s' fuel e i = Some (if ok then Some (Object (extend (match old with Some (Object r) => r | _ => ∅ end) fields)) else None)) ∧
  (∀ s', Store.delete s now e i = (s', Ok ()) → Store.read s' fuel e i = Some None).
Proof using JL.
  intros Hm Hr Hw. split_and!.
  - unfold Store.create. intros v s' ok. destruct (to_text v) as [bs|] eqn:Et; [|done]. intros Hwr Ha.
    destruct (write_visible s H now Insert e i bs s' Hm Hr Hw Hwr) as [_ Hv]. simpl in Hv. by eapply read_written.
  - unfold Store.update. intros fields s' ok. destruct (Store.read s fuel e i) as [old|]; [|done]. simpl.
    set (merged := match old with Some (Object r) => r | _ => ∅ end).
    destruct (to_text (Object (extend merged fields))) as [bs|] eqn:Et; [|done]. intros [= Hwr] Ha. exists old. split; [done|].
    destruct (write_visible s H now Update e i bs s' Hm Hr Hw Hwr) as [_ Hv]. simpl in Hv. by eapply read_written.
  - intros s' Hwr. destruct (write_visible s H now Delete e i [] s' Hm Hr Hw Hwr) as [_ Hv].
    unfold Store.read. by rewrite Hv.
Qed.

(** ** Listing *)

(** A listing of an entity is the reads of its records: it names each shown
    record once, with the value a read of it gives, and nothing else. *)
Lemma entries_reads s fuel e es :
  Store.entries s fuel e = Some es →
  NoDup es.*1 ∧ ∀ i v, (i, v) ∈ es ↔ Store.read s fuel e i = Some (Some v).
Proof.
  clear JL. unfold Store.entries, Store.read, Store.author_authorized. destruct (Store.authorized_authors s fuel) as [a|]; [|done].
  simpl. intros [= <-]. set (allowed author := match a with Some set => bool_decide (is_Some (set !! author)) | None => true end).
  set (all := SyncNode.entries_with_authors (st_node s) e).
  assert (NoDup all.*1.*1) as Hnd by apply NoDup_entries_with_authors.
  assert (∀ i d p, (i, d, p) ∈ all ↔ SyncNode.visible_with_author (st_node s) e i = Some (d, p)) as Hall
    by (intros; apply elem_of_entries_with_authors).
  split.
  - clear Hall. induction all as [|[[i d] p] all IH]; [constructor|]. cbn [fmap list_fmap fst] in Hnd.
    apply NoDup_cons in Hnd as [Hni Hnd]. specialize (IH Hnd). rewrite filter_cons. case_decide as Hp; [|done]. simpl.
    destruct (of_text d) as [v|]; simpl; [|done]. constructor; [|done]. intros Hin. apply Hni.
    apply list_elem_of_fmap in Hin as ([i' v'] & -> & Hin). apply list_elem_of_omap in Hin as ([[i2 d2] p2] & Hin & Hv).
    apply list_elem_of_filter in Hin as [_ Hin]. destruct (of_text d2); simplify_eq/=.
    apply list_elem_of_fmap. eexists (_, d2). split; [done|]. apply list_elem_of_fmap. eexists (_, d2, p2). by split.
  - intros i v. rewrite list_elem_of_omap. split.
    + intros ([[i' d] p] & [Hal Hin]%list_elem_of_filter & Hv). apply Hall in Hin.
      destruct (of_text d) as [v'|] eqn:Ev; simplify_eq/=. rewrite Hin. simpl. rewrite Ev. unfold allowed in Hal.
      destruct a; [|done]. apply bool_decide_eq_true in Hal. by rewrite bool_decide_eq_true_2.
    + destruct (SyncNode.visible_with_author (st_node s) e i) as [[d p]|] eqn:Ev; [|done]. simpl.
      intros Hv. exists (i, d, p). unfold allowed. rewrite list_elem_of_filter, Hall.
      destruct a; [case_bool_decide as Hp; [|done]|]; injection Hv as ->; by split_and!.
Qed.

(** ** Stores that hold the same writes agree *)

Lemma granted_ext owner rs rs' p r : (∀ x, x ∈ rs ↔ x ∈ rs') → granted owner rs p r → granted owner rs' p r.
Proof.
  intros Hx. induction 1 as [|t g role rg Hin Ht _ IH Hadm]; [constructor|].
  eapply granted_record; [by apply Hx|done|exact IH|done].
Qed.

Lemma length_parse_records es rs : parse_records es = Some rs → length rs ≤ length es.
Proof.
  revert rs. induction es as [|e es IH]; intros rs; simpl; [by intros [= <-]|].
  destruct (parse_record e) as [r|]; [|done]. simpl. destruct (parse_records es) as [rs'|]; [|done]. simpl.
  intros [= <-]. specialize (IH rs' eq_refl). destruct r; simpl; lia.
Qed.

(** The membership records of a store. *)
Definition member_entries s : list (string * list byte * PeerId) :=
  SyncNode.entries_with_authors (st_node s) MEMBERS_ENTITY.

(** The stores hold the same records of the same authors. *)
Definition same_records s t : Prop :=
  ∀ e i, SyncNode.visible_with_author (st_node s) e i = SyncNode.visible_with_author (st_node t) e i.

Lemma same_member_entries s t x : same_records s t → x ∈ member_entries s ↔ x ∈ member_entries t.
Proof.
  intros H. destruct x as [[i d] p]. unfold member_entries, SyncNode.entries_with_authors, SyncState.entries_with_authors.
  rewrite !elem_of_entries_with_authors. specialize (H MEMBERS_ENTITY i).
  unfold SyncNode.visible_with_author, SyncState.visible_with_author in H. by rewrite H.
Qed.

(** Membership records that can be evaluated: every id parses without a
    panic, and no two records of one peer disagree on its role. *)
Definition sound_members s : Prop :=
  (∀ x, x ∈ member_entries s → is_Some (parse_record x)) ∧
  ∀ o rs, st_owner s = Some o → parse_records (member_entries s) = Some rs → roles_agree o rs.

Lemma authorized_spec s fuel o :
  st_owner s = Some o → sound_members s → length (member_entries s) < fuel →
  ∃ rs m, parse_records (member_entries s) = Some rs ∧ Store.authorized_authors s fuel = Some (Some m) ∧
    (∀ x, x ∈ rs ↔ ∃ e, e ∈ member_entries s ∧ parse_record e = Some (Some x)) ∧
    ∀ p r, m !! p = Some r ↔ granted o rs p r.
Proof.
  intros Ho [Hp Hr] Hf. destruct (parse_records_spec _ Hp) as (rs & Hrs & Hx).
  pose proof (length_parse_records _ _ Hrs) as Hlen.
  destruct (authorized_members_granted o rs fuel (Hr o rs Ho Hrs)) as (m & Hm & Hg); [lia|].
  exists rs, m. split; [done|]. split; [|done]. unfold Store.authorized_authors, Store.membership. rewrite Ho. simpl.
  unfold Membership.authorized, Membership.authorized_with, SyncNode.entries_with_authors_including,
    SyncState.entries_with_authors_including. simpl. unfold member_entries, SyncNode.entries_with_authors,
    SyncState.entries_with_authors in Hrs. rewrite Hrs. simpl. by rewrite Hm.
Qed.

Lemma authorized_agree s t fuel :
  same_records s t → st_owner s = st_owner t → sound_members s → sound_members t →
  length (member_entries s) < fuel → length (member_entries t) < fuel →
  is_Some (Store.authorized_authors s fuel) ∧ Store.authorized_authors s fuel = Store.authorized_authors t fuel.
Proof.
  intros Hsame Ho Hs Ht Hfs Hft. destruct (st_owner s) as [o|] eqn:Eo.
  2:{ unfold Store.authorized_authors, Store.membership. rewrite Eo, <-Ho. split; [by eexists|done]. }
  destruct (authorized_spec s fuel o Eo Hs Hfs) as (rs & m & _ & -> & Hx & Hg).
  destruct (authorized_spec t fuel o (eq_sym Ho) Ht Hft) as (rs' & m' & _ & -> & Hx' & Hg').
  split; [by eexists|]. do 2 f_equal. apply map_eq. intros p. apply option_eq. intros r. rewrite Hg, Hg'.
  assert (∀ x, x ∈ rs ↔ x ∈ rs') as Hrs.
  { intros x. rewrite Hx, Hx'. f_equiv. intros y. by rewrite (same_member_entries s t). }
  split; apply granted_ext; [done|]. intros x. by rewrite Hrs.
Qed.

(** C28: Two stores of a scope that hold the same winning writes show the same
    documents: every read ends and gives the same answer on both, and the
    listings hold the same records, in every hash-map order, whenever the
    membership records can be evaluated. *)
Theorem readers_agree s t fuel e :
  same_records s t → st_owner s = st_owner t → sound_members s → sound_members t →
  length (member_entries s) < fuel → length (member_entries t) < fuel →
  (∀ i, is_Some (Store.read s fuel e i) ∧ Store.read s fuel e i = Store.read t fuel e i) ∧
  ∃ es es', Store.entries s fuel e = Some es ∧ Store.entries t fuel e = Some es' ∧ es ≡ₚ es'.
Proof.
  clear JL. intros Hsame Ho Hs Ht Hfs Hft. destruct (authorized_agree s t fuel) as [[a Ha] Heq]; try done.
  assert (∀ i, is_Some (Store.read s fuel e i) ∧ Store.read s fuel e i = Store.read t fuel e i) as Hread.
  { intros i. unfold Store.read, Store.author_authorized. rewrite Hsame, <-Heq, Ha.
    destruct (SyncNode.visible_with_author _ _ _) as [[d p]|]; split; by eexists || done. }
  split; [done|].
  destruct (Store.entries s fuel e) as [es|] eqn:Es; [|unfold Store.entries in Es; by rewrite Ha in Es].
  destruct (Store.entries t fuel e) as [es'|] eqn:Et; [|unfold Store.entries in Et; by rewrite <-Heq, Ha in Et].
  exists es, es'. split; [done|]. split; [done|].
  destruct (entries_reads s fuel e es Es) as [Hnd Hin]. destruct (entries_reads t fuel e es' Et) as [Hnd' Hin'].
  apply NoDup_Permutation; [by eapply NoDup_fmap_1..|]. intros [i v]. by rewrite Hin, Hin', (proj2 (Hread i)).
Qed.
End laws.

(** ** Examples *)

(** A codec for objects with the one field [t], a string. *)
#[export] Instance field_json : JsonText := {|
  to_text v := match v with
               | Object m => match m !! "t" with
                             | Some (Str x) => if bool_decide (dom m = {["t"]}) then Ok (as_bytes x) else Err ()
                             | _ => Err ()
                             end
               | _ => Err ()
               end;
  of_text bs := Some (Object {[ "t" := Str (String.string_of_list_byte bs) ]});
|}.

#[export] Instance field_json_laws : JsonTextLaws.
Proof.
  constructor. intros v bs. simpl. destruct v as [| | | | |m]; try done.
  destruct (m !! "t") as [[| | |x| |]|] eqn:E; try done. case_bool_decide as Hd; [|done]. intros [= <-]. do 2 f_equal.
  unfold as_bytes. rewrite String.string_of_list_byte_of_string. apply map_eq. intros k.
  destruct (decide (k = "t")) as [->|Hk]; [by rewrite E, lookup_singleton_eq|].
  rewrite lookup_singleton_ne by done. symmetry. apply not_elem_of_dom. rewrite Hd. set_solver.
Qed.

Definition ex_doc (x : string) : Value := Object {[ "t" := Str x ]}.

(** The owner invites peer 2 and writes a task. *)
Definition ex_owned : Store NoSink Identity :=
  let s := Store.with_owner (ex_id x01) in
  let s := (Store.invite s (Ok 100%Z) (peer_id (ex_id x02)) Member).1 in
  (Store.create s (Ok 101%Z) "task" "t1" (ex_doc "mine")).1.

(** The frames a store wrote itself. *)
Definition ex_frames (s : Store NoSink Identity) : list WriteFrame :=
  SyncNode.frames_for_entity (st_node s) MEMBERS_ENTITY ++ SyncNode.frames_for_entity (st_node s) "task".

(** Peer 2 joins and receives them. *)
Definition ex_joined : Store NoSink Identity :=
  let s := Store.join (ex_id x02) (peer_id (ex_id x01)) in
  mkStore (SyncNode.ingest (st_node s) (Ok 200%Z) (ex_frames ex_owned)).1 (st_owner s).

Lemma document_writes_witness :
  let s := Store.new (ex_peer x01) : Store NoSink NoSink in
  ∃ s', Store.create s (Ok 100%Z) "task" "t1" (ex_doc "x") = (s', Ok ()) ∧
    Store.read s' 1 "task" "t1" = Some (Some (ex_doc "x")).
Proof.
  intros s. destruct (Store.create s (Ok 100%Z) "task" "t1" (ex_doc "x")) as [s' r] eqn:E.
  assert (r = Ok ()) as ->. { change r with (s', r).2. rewrite <-E. vm_compute. reflexivity. }
  exists s'. split; [done|].
  refine (proj1 (document_writes s empty_history 1 (Ok 100%Z) "task" "t1" _ _ _) (ex_doc "x") s' true E _).
  - apply state_models_new.
  - done.
  - split; vm_compute; discriminate.
  - change s' with (s', @Ok () StoreError ()).1. rewrite <-E. reflexivity.
Defined.

Lemma readers_agree_witness :
  (∀ i, is_Some (Store.read ex_owned 2 "task" i) ∧ Store.read ex_owned 2 "task" i = Store.read ex_joined 2 "task" i) ∧
  ∃ es es', Store.entries ex_owned 2 "task" = Some es ∧ Store.entries ex_joined 2 "task" = Some es' ∧ es ≡ₚ es'.
Proof.
  assert (applier (state (st_node ex_owned)) = applier (state (st_node ex_joined))) as Happ by (vm_compute; reflexivity).
  assert (∃ i, member_entries ex_owned = [(i, [Role.as_byte Member], peer_id (ex_id x01))] ∧
    peer_from_record_id i = Some (Some (peer_id (ex_id x02)))) as (i & Hme & Hi).
  { eexists. split; vm_compute; reflexivity. }
  assert (member_entries ex_joined = member_entries ex_owned) as Hme'.
  { unfold member_entries, SyncNode.entries_with_authors, SyncState.entries_with_authors. by rewrite Happ. }
  assert (∀ s : Store NoSink Identity, member_entries s = member_entries ex_owned → sound_members s) as Hsound.
  { intros s Hs. unfold sound_members. rewrite Hs, Hme. split.
    - intros x ->%list_elem_of_singleton. unfold parse_record. rewrite Hi. by eexists.
    - intros o rs _. simpl. rewrite Hi. simpl. intros [= <-] t g g' r r'. rewrite !list_elem_of_singleton. congruence. }
  apply (readers_agree ex_owned ex_joined 2 "task").
  - intros e j. unfold SyncNode.visible_with_author, SyncState.visible_with_author. by rewrite Happ.
  - reflexivity.
  - by apply Hsound.
  - by apply Hsound.
  - rewrite Hme. simpl. lia.
  - rewrite Hme', Hme. simpl. lia.
Defined.

(** A peer nobody invited signs a write of the same record, later. *)
Definition ex_stranger : list WriteFrame :=
  ex_frames (Store.create (Store.join (ex_id x09) (peer_id (ex_id x01)) : Store NoSink Identity)
    (Ok 300%Z) "task" "t1" (ex_doc "theirs")).1.

(** Authors are checked after the last writer has won. A signed write of a
    peer without any standing hides the owner's record from every reader,
    instead of being ignored. *)
Theorem stranger_hides_record :
  Store.read ex_owned 2 "task" "t1" = Some (Some (ex_doc "mine")) ∧
  let s' := mkStore (SyncNode.ingest (st_node ex_owned) (Ok 301%Z) ex_stranger).1 (st_owner ex_owned) in
  Store.read s' 2 "task" "t1" = Some None ∧ Store.entries s' 2 "task" = Some [].
Proof. split; [|intros s'; split]; vm_compute; reflexivity. Qed.
