(* ===== verification/Tasks.v ===== *)
(** * The task board and its cluster

    Models stitch-tasks: the typed board over the peer-to-peer store
    (src/lib.rs), the in-process cluster with its links, the random workload
    and its report (src/harness.rs), and of the demo and the soak runner what
    they read and decide (src/bin). A board is its store; the draws of the
    random generator and the work of the sessions between two steps are inputs.
    A read that panics or does not end (Membership.v) is [None]. *)
From stdpp Require Import pretty.
From S2P Require Import Prelude Hlc Lww Wire Replog SyncState Node Membership Json P2pStore.

Definition ENTITY : string := "task".

Record Task := mkTask { t_title : string; t_done : bool }.

#[export] Instance Task_eq_dec : EqDecision Task.
Proof. solve_decision. Defined.

(** The derived [Deserialize] of [Task]: the two fields by name, others
    ignored, or the two in order. *)
Definition task_from_value (v : Value) : option Task :=
  match v with
  | Object m =>
    match m !! "title", m !! "done" with Some (Str title), Some (Bool done) => Some (mkTask title done) | _, _ => None end
  | Array [Str title; Bool done] => Some (mkTask title done)
  | _ => None
  end.

Module TaskBoard.
Section board.
Context {P A : Type} {FP : FramePersister P} {FA : FrameAuth A} {HI : HashIter} {ED : Ed25519} {JT : JsonText}.
Implicit Types b : Store P A.

Definition add b (now : result Z ()) (id title : string) : Store P A * result () StoreError :=
  Store.create b now ENTITY id (Object (<["done" := Bool false]> {[ "title" := Str title ]})).

Definition rename b (fuel : nat) (now : result Z ()) (id title : string) : option (Store P A * result () StoreError) :=
  Store.update b fuel now ENTITY id {[ "title" := Str title ]}.

Definition set_done b (fuel : nat) (now : result Z ()) (id : string) (done : bool) : option (Store P A * result () StoreError) :=
  Store.update b fuel now ENTITY id {[ "done" := Bool done ]}.

Definition remove b (now : result Z ()) (id : string) : Store P A * result () StoreError := Store.delete b now ENTITY id.

Definition get b (fuel : nat) (id : string) : option (option Task) :=
  value ← Store.read b fuel ENTITY id; Some (value ≫= task_from_value).

(** A [BTreeMap]: later entries replace earlier ones of the same id. *)
Definition snapshot b (fuel : nat) : option (gmap string Task) :=
  es ← Store.entries b fuel ENTITY;
  Some (foldl (λ map '(id, value), match task_from_value value with Some t => <[id := t]> map | None => map end) ∅ es).

Definition len b (fuel : nat) : option nat := size <$> snapshot b fuel.
Definition is_empty b (fuel : nat) : option bool := (λ n, bool_decide (n = 0)) <$> len b fuel.
End board.
End TaskBoard.

(** ** What the board shows *)

Section laws.
Context {P A : Type} {FP : FramePersister P} {FA : FrameAuth A} {HI : HashIter} {ED : Ed25519} {JT : JsonText} {JL : JsonTextLaws}.
Implicit Types b : Store P A.

Lemma foldl_tasks (es : list (string * Value)) (acc : gmap string Task) id :
  NoDup es.*1 →
  foldl (λ map '(id, value), match task_from_value value with Some t => <[id := t]> map | None => map end) acc es !! id =
  match list_find (λ e, e.1 = id) es with
  | Some (_, (_, v)) => match task_from_value v with Some t => Some t | None => acc !! id end
  | None => acc !! id
  end.
Proof.
  clear. revert acc. induction es as [|[i v] es IH]; intros acc Hnd; [done|]. cbn [fmap list_fmap fst] in Hnd.
  apply NoDup_cons in Hnd as [Hni Hnd]. cbn [foldl list_find fst]. rewrite IH by done.
  destruct (decide (i = id)) as [->|Hne].
  - destruct (list_find (λ e, e.1 = id) es) as [[j [i' v']]|] eqn:E.
    + apply list_find_Some in E as (Hj & Hi & _). simpl in Hi. subst i'. destruct Hni.
      apply list_elem_of_fmap. exists (id, v'). split; [done|by eapply list_elem_of_lookup_2].
    + destruct (task_from_value v); [by rewrite lookup_insert_eq|done].
  - assert (Hacc : match task_from_value v with Some t => <[i := t]> acc | None => acc end !! id = acc !! id)
      by (destruct (task_from_value v); [by rewrite lookup_insert_ne|done]).
    rewrite Hacc. destruct (list_find (λ e, e.1 = id) es) as [[j [i' v']]|]; done.
Qed.

(** The snapshot is the reads of all tasks. *)
Lemma snapshot_get b fuel m : TaskBoard.snapshot b fuel = Some m → ∀ id, TaskBoard.get b fuel id = Some (m !! id).
Proof.
  clear JL. unfold TaskBoard.snapshot, TaskBoard.get. destruct (Store.entries b fuel ENTITY) as [es|] eqn:E; [|done]. simpl. intros [= <-] id.
  destruct (entries_reads b fuel ENTITY es E) as [Hnd Hin]. rewrite foldl_tasks by done. rewrite lookup_empty.
  destruct (list_find (λ e, e.1 = id) es) as [[j [i' v]]|] eqn:Ef.
  - apply list_find_Some in Ef as (Hj & Hi & _). simpl in Hi. subst i'.
    assert ((id, v) ∈ es) as Hv by by eapply list_elem_of_lookup_2. apply Hin in Hv. rewrite Hv. simpl. by destruct (task_from_value v).
  - apply list_find_None in Ef. rewrite Forall_forall in Ef.
    assert (is_Some (Store.read b fuel ENTITY id)) as [o Ho].
    { unfold Store.read. unfold Store.entries in E. unfold Store.author_authorized. destruct (Store.authorized_authors b fuel); [|done].
      destruct (SyncNode.visible_with_author _ _ _) as [[d p]|]; by eexists. }
    rewrite Ho. simpl. destruct o as [v|]; [|done]. exfalso. apply (Ef (id, v)); [by apply Hin|done].
Qed.

Lemma task_of_object (m : Record_) :
  task_from_value (Object m) = match m !! "title", m !! "done" with Some (Str title), Some (Bool done) => Some (mkTask title done) | _, _ => None end.
Proof. done. Qed.

(** The fields of a record as an update sees them. *)
Definition fields_of (v : option Value) : Record_ := match v with Some (Object r) => r | _ => ∅ end.

(** C40: What a board shows of its own writes, when the roles it holds settle
    whether its peer is an author after the write, and the clock has room. To
    an author, an accepted add shows the task as not done, and an accepted
    rename or toggle changes that field of the task and keeps the other; to a
    peer that is no author (a revoked one), its accepted writes show nothing.
    An accepted removal shows none either way, and the snapshot holds exactly
    the tasks that a read shows. *)
Theorem board_writes b H fuel now id :
  state_models (state (st_node b)) H → hlc_room (clock (state (st_node b))) → is_u64 (now_millis now) →
  (∀ title b' author, TaskBoard.add b now id title = (b', Ok ()) →
     Store.author_authorized b' fuel (SyncNode.self_id (st_node b)) = Some author →
     TaskBoard.get b' fuel id = Some (if author then Some (mkTask title false) else None)) ∧
  (∀ title b' author, TaskBoard.rename b fuel now id title = Some (b', Ok ()) →
     Store.author_authorized b' fuel (SyncNode.self_id (st_node b)) = Some author →
     ∃ v, Store.read b fuel ENTITY id = Some v ∧
       TaskBoard.get b' fuel id = Some (if author then
         match fields_of v !! "done" with Some (Bool done) => Some (mkTask title done) | _ => None end else None)) ∧
  (∀ done b' author, TaskBoard.set_done b fuel now id done = Some (b', Ok ()) →
     Store.author_authorized b' fuel (SyncNode.self_id (st_node b)) = Some author →
     ∃ v, Store.read b fuel ENTITY id = Some v ∧
       TaskBoard.get b' fuel id = Some (if author then
         match fields_of v !! "title" with Some (Str title) => Some (mkTask title done) | _ => None end else None)) ∧
  (∀ b', TaskBoard.remove b now id = (b', Ok ()) → TaskBoard.get b' fuel id = Some None) ∧
  (∀ m, TaskBoard.snapshot b fuel = Some m → ∀ i, TaskBoard.get b fuel i = Some (m !! i)).
Proof using FA FP HI JL JT.
  intros Hm Hr Hw. destruct (document_writes b H fuel now ENTITY id Hm Hr Hw) as (Hc & Hu & Hd).
  assert (Hext : ∀ (r : Record_) k v, extend r {[ k := v ]} = <[k := v]> r).
  { intros r k v. unfold extend. by rewrite insert_union_singleton_l. }
  split_and!.
  - intros title b' author E Ha. unfold TaskBoard.get. rewrite (Hc _ b' author E Ha). by destruct author.
  - intros title b' author E Ha. destruct (Hu _ b' author E Ha) as (old & Hold & Hnew). exists old. split; [done|].
    unfold TaskBoard.get. rewrite Hnew, Hext. destruct author; [|done]. simpl. rewrite lookup_insert_eq, lookup_insert_ne by done. done.
  - intros done b' author E Ha. destruct (Hu _ b' author E Ha) as (old & Hold & Hnew). exists old. split; [done|].
    unfold TaskBoard.get. rewrite Hnew, Hext. destruct author; [|done]. simpl. rewrite lookup_insert_eq, lookup_insert_ne by done.
    unfold fields_of. by destruct (_ !! "title") as [[]|].
  - intros b' E. unfold TaskBoard.get. by rewrite (Hd b' E).
  - intros m Hs. by apply snapshot_get.
Qed.
End laws.

(** ** The cluster *)

Definition link_key (a b : nat) : nat * nat := if a <? b then (a, b) else (b, a).

(** [1 + i as u8] of a release build. *)
Definition seed (i : nat) : list byte := byte_of (1 + Z.of_nat i mod 256) :: replicate 31 x00.

(** [cl_links]: the handles of the two session tasks of a link; [cl_running]:
    the session tasks that were not aborted. *)
Record Cluster (P : Type) := mkCluster {
  cl_boards : list (Store P Identity);
  cl_ids : list PeerId;
  cl_pull : Z;
  cl_links : gmap (nat * nat) (list nat);
  cl_running : gset nat;
  cl_next : nat;
}.
Arguments mkCluster {P}.
Arguments cl_boards {P}.
Arguments cl_ids {P}.
Arguments cl_pull {P}.
Arguments cl_links {P}.
Arguments cl_running {P}.
Arguments cl_next {P}.

Module Cluster.
Section cluster.
Context {P : Type} {FP : FramePersister P} {HI : HashIter} {ED : Ed25519} {JT : JsonText}.
Implicit Types c : Cluster P.

Definition set_boards (boards : list (Store P Identity)) c : Cluster P :=
  mkCluster boards (cl_ids c) (cl_pull c) (cl_links c) (cl_running c) (cl_next c).

Definition new (n : nat) (pull : Z) : Cluster P :=
  let owner := Identity.from_seed (seed 0) in
  let others := (λ i, Identity.from_seed (seed i)) <$> seq 1 (n - 1) in
  mkCluster (Store.with_owner owner :: ((λ identity, Store.join identity (peer_id owner)) <$> others))
    (peer_id owner :: (peer_id <$> others)) pull ∅ ∅ 0.

Definition len c : nat := length (cl_boards c).
Definition is_empty c : bool := bool_decide (cl_boards c = []).

(** Indexing panics beyond the end. *)
Definition board c (i : nat) : option (Store P Identity) := cl_boards c !! i.
Definition cluster_peer_id c (i : nat) : option PeerId := cl_ids c !! i.

(** The peers are invited in order, until one write is refused. *)
Fixpoint invite_from (targets : list PeerId) (owner : Store P Identity) (nows : nat → result Z ())
    : Store P Identity * result () StoreError :=
  match targets with
  | [] => (owner, Ok ())
  | t :: targets =>
    match Store.invite owner (nows (length targets)) t Member with
    | (owner, Ok _) => invite_from targets owner nows
    | (owner, Err e) => (owner, Err e)
    end
  end.

Definition invite_all c (nows : nat → result Z ()) : option (Cluster P * result () StoreError) :=
  owner ← board c 0;
  let '(owner, r) := invite_from (take (len c - 1) (drop 1 (cl_ids c))) owner nows in
  Some (set_boards (<[0 := owner]> (cl_boards c)) c, r).

Definition revoke c (now : result Z ()) (i : nat) : option (Cluster P * result () StoreError) :=
  owner ← board c 0;
  target ← cluster_peer_id c i;
  let '(owner, r) := Store.revoke owner now target in
  Some (set_boards (<[0 := owner]> (cl_boards c)) c, r).

(** A session of the board [i]: its receiver is registered and a task runs it. *)
Definition open_session (i : nat) c : option (Cluster P * nat) :=
  b ← board c i;
  let '(n, _) := SyncNode.register_session (st_node b) in
  Some (mkCluster (<[i := mkStore n (st_owner b)]> (cl_boards c)) (cl_ids c) (cl_pull c) (cl_links c)
          ({[ cl_next c ]} ∪ cl_running c) (S (cl_next c)), cl_next c).

Definition connect c (a b : nat) : option (Cluster P) :=
  let key := link_key a b in
  if bool_decide (a = b) || bool_decide (is_Some (cl_links c !! key)) then Some c else
  '(c, ha) ← open_session a c;
  '(c, hb) ← open_session b c;
  Some (mkCluster (cl_boards c) (cl_ids c) (cl_pull c) (<[key := [ha; hb]]> (cl_links c)) (cl_running c) (cl_next c)).

Definition partition c (a b : nat) : Cluster P :=
  match cl_links c !! link_key a b with
  | Some handles =>
    mkCluster (cl_boards c) (cl_ids c) (cl_pull c) (delete (link_key a b) (cl_links c)) (cl_running c ∖ list_to_set handles) (cl_next c)
  | None => c
  end.

(** The pairs of [full_mesh], in its order. *)
Definition pairs (n : nat) : list (nat * nat) := a ← seq 0 n; (λ b, (a, b)) <$> seq (S a) (n - S a).

Definition full_mesh c : option (Cluster P) := foldl (λ o '(a, b), c ← o; connect c a b) (Some c) (pairs (len c)).

Definition active_links c : nat := size (cl_links c).

Definition snapshots c (fuel : nat) : option (list (gmap string Task)) := mapM (λ b, TaskBoard.snapshot b fuel) (cl_boards c).

(** [windows(2).all(|w| w[0] == w[1])]. *)
Fixpoint agree_in_turn (snaps : list (gmap string Task)) : bool :=
  match snaps with
  | s :: ((t :: _) as rest) => bool_decide (s = t) && agree_in_turn rest
  | _ => true
  end.

Definition converged c (fuel : nat) : option bool := agree_in_turn <$> snapshots c fuel.

(** The cluster as it is at each poll, and whether the deadline has passed by
    then; the result comes with the cluster of the last poll. *)
Fixpoint await_convergence (fuel : nat) (polls : list (Cluster P * bool)) : option (Cluster P * bool) :=
  match polls with
  | [] => None
  | (c, late) :: polls =>
    done ← converged c fuel;
    if (done : bool) then Some (c, true) else if (late : bool) then Some (c, false) else await_convergence fuel polls
  end.

Definition shutdown c : Cluster P :=
  mkCluster (cl_boards c) (cl_ids c) (cl_pull c) ∅
    (cl_running c ∖ list_to_set (concat (map_to_list (cl_links c)).*2)) (cl_next c).
End cluster.
End Cluster.

(** ** The random workload *)

Record Chaos := mkChaos { ch_peers : nat; ch_rounds : nat; ch_id_pool : nat; ch_seed : Z; ch_pull : Z }.

Definition Chaos_default : Chaos := mkChaos 4 240 6 0 15.

Record ChaosReport := mkReport {
  cr_adds : nat; cr_renames : nat; cr_toggles : nat; cr_removes : nat;
  cr_partitions : nat; cr_heals : nat; cr_revokes : nat; cr_converged : bool; cr_final_tasks : nat;
}.

Definition ChaosReport_default : ChaosReport := mkReport 0 0 0 0 0 0 0 false 0.

(** What one round draws, and the clock of its writes. *)
Record Draws := mkDraws {
  dr_peer : nat; dr_id : nat; dr_op : Z; dr_number : Z; dr_done : bool;
  dr_churn : Z; dr_a : nat; dr_b : nat; dr_cut : bool; dr_revoke : Z; dr_target : nat;
  dr_now : result Z (); dr_now' : result Z ();
}.

Section chaos.
Context {P : Type} {FP : FramePersister P} {HI : HashIter} {ED : Ed25519} {JT : JsonText}.
Implicit Types (c : Cluster P) (r : ChaosReport).

Definition count_op (op : Z) r : ChaosReport :=
  let '(mkReport a rn t rm p h rv cv f) := r in
  if bool_decide (op = 0)%Z then mkReport (S a) rn t rm p h rv cv f else
  if bool_decide (op = 1)%Z then mkReport a (S rn) t rm p h rv cv f else
  if bool_decide (op = 2)%Z then mkReport a rn (S t) rm p h rv cv f else mkReport a rn t (S rm) p h rv cv f.

Definition workload (fuel : nat) (d : Draws) (b : Store P Identity) : option (Store P Identity * result () StoreError) :=
  let id := "t" +:+ pretty (dr_id d) in
  if bool_decide (dr_op d = 0)%Z then Some (TaskBoard.add b (dr_now d) id ("t-" +:+ pretty (dr_number d))) else
  if bool_decide (dr_op d = 1)%Z then TaskBoard.rename b fuel (dr_now d) id ("r-" +:+ pretty (dr_number d)) else
  if bool_decide (dr_op d = 2)%Z then TaskBoard.set_done b fuel (dr_now d) id (dr_done d)
  else Some (TaskBoard.remove b (dr_now d) id).

(** The links of a round. *)
Definition churn (d : Draws) (c : Cluster P) r : option (Cluster P * ChaosReport) :=
  if negb (bool_decide (dr_churn d = 0)%Z) || bool_decide (dr_a d = dr_b d) then Some (c, r) else
  let '(mkReport a rn t rm p h rv cv f) := r in
  if dr_cut d then Some (Cluster.partition c (dr_a d) (dr_b d), mkReport a rn t rm (S p) h rv cv f)
  else c ← Cluster.connect c (dr_a d) (dr_b d); Some (c, mkReport a rn t rm p (S h) rv cv f).

(** One round up to its sleep; the index of an id beyond the pool panics. *)
Definition round (cfg : Chaos) (fuel : nat) (d : Draws) (s : Cluster P * ChaosReport)
    : option (result (Cluster P * ChaosReport) StoreError) :=
  let '(c, r) := s in
  if ch_id_pool cfg <=? dr_id d then None else
  b ← Cluster.board c (dr_peer d);
  '(b, res) ← workload fuel d b;
  match res with
  | Err e => Some (Err e)
  | Ok _ =>
    let c := Cluster.set_boards (<[dr_peer d := b]> (cl_boards c)) c in
    '(c, r) ← churn d c (count_op (dr_op d) r);
    if (1 <? ch_peers cfg) && bool_decide (dr_revoke d = 0)%Z then
      '(c, res) ← Cluster.revoke c (dr_now' d) (dr_target d);
      match res with
      | Err e => Some (Err e)
      | Ok _ => let '(mkReport a rn t rm p h rv cv f) := r in Some (Ok (c, mkReport a rn t rm p h (S rv) cv f))
      end
    else Some (Ok (c, r))
  end.

(** [between] is what the sessions did to the cluster while a round slept. *)
Fixpoint rounds (cfg : Chaos) (fuel : nat) (ds : list (Draws * (Cluster P → Cluster P))) (s : Cluster P * ChaosReport)
    : option (result (Cluster P * ChaosReport) StoreError) :=
  match ds with
  | [] => Some (Ok s)
  | (d, between) :: ds =>
    res ← round cfg fuel d s;
    match res with Err e => Some (Err e) | Ok (c, r) => rounds cfg fuel ds (between c, r) end
  end.

(** [polls] as in [await_convergence]; [after] is what the sessions did until
    the tasks of the owner were counted. *)
Definition run_chaos (cfg : Chaos) (fuel : nat) (ds : list (Draws * (Cluster P → Cluster P))) (nows nows' : nat → result Z ())
    (polls : Cluster P → list (Cluster P * bool)) (after : Cluster P → Cluster P) : option (result (Chaos * ChaosReport) StoreError) :=
  let c := Cluster.new (ch_peers cfg) (ch_pull cfg) in
  c ← Cluster.full_mesh c;
  '(c, res) ← Cluster.invite_all c nows;
  match res with
  | Err e => Some (Err e)
  | Ok _ =>
    res ← rounds cfg fuel (take (ch_rounds cfg) ds) (c, ChaosReport_default);
    match res with
    | Err e => Some (Err e)
    | Ok (c, r) =>
      c ← Cluster.full_mesh c;
      '(c, res) ← Cluster.invite_all c nows';
      match res with
      | Err e => Some (Err e)
      | Ok _ =>
        '(c, converged) ← Cluster.await_convergence fuel (polls c);
        b ← Cluster.board (after c) 0;
        tasks ← TaskBoard.len b fuel;
        let '(mkReport a rn t rm p h rv _ _) := r in
        Some (Ok (cfg, mkReport a rn t rm p h rv converged tasks))
      end
    end
  end.
End chaos.

(** ** Links and convergence *)

Section links.
Context {P : Type} {FP : FramePersister P} {HI : HashIter} {ED : Ed25519} {JT : JsonText}.
Implicit Types c : Cluster P.

Inductive link_op := Connect (a b : nat) | Partition (a b : nat) | FullMesh | Shutdown.

Definition apply_op (op : link_op) c : option (Cluster P) :=
  match op with
  | Connect a b => Cluster.connect c a b
  | Partition a b => Some (Cluster.partition c a b)
  | FullMesh => Cluster.full_mesh c
  | Shutdown => Some (Cluster.shutdown c)
  end.

Fixpoint apply_ops (ops : list link_op) c : option (Cluster P) :=
  match ops with [] => Some c | op :: ops => c ← apply_op op c; apply_ops ops c end.

(** The tasks that run are those of the links, each link its own. *)
Record linked c : Prop := {
  lk_running t : t ∈ cl_running c ↔ ∃ k hs, cl_links c !! k = Some hs ∧ t ∈ hs;
  lk_next k hs t : cl_links c !! k = Some hs → t ∈ hs → t < cl_next c;
  lk_own k k' hs hs' t : cl_links c !! k = Some hs → cl_links c !! k' = Some hs' → t ∈ hs → t ∈ hs' → k = k';
  lk_order k hs : cl_links c !! k = Some hs → k.1 < k.2;
}.

Lemma new_linked n pull : linked (Cluster.new n pull).
Proof. split; simpl; [|by intros k hs; rewrite lookup_empty..]. intros t. split; [set_solver|]. by intros (k & hs & Hk & _); rewrite lookup_empty in Hk. Qed.

Lemma open_session_spec i c : i < Cluster.len c →
  ∃ boards, Cluster.open_session i c = Some (mkCluster boards (cl_ids c) (cl_pull c) (cl_links c) ({[ cl_next c ]} ∪ cl_running c) (S (cl_next c)), cl_next c) ∧
    length boards = Cluster.len c.
Proof.
  intros Hi. unfold Cluster.open_session, Cluster.board. destruct (lookup_lt_is_Some_2 _ _ Hi) as [b ->]. simpl.
  eexists. split; [done|]. by rewrite length_insert.
Qed.

Lemma link_key_order a b : a ≠ b → (link_key a b).1 < (link_key a b).2.
Proof. intros H. unfold link_key. destruct (a <? b) eqn:E; simpl; [apply Nat.ltb_lt in E|apply Nat.ltb_ge in E]; lia. Qed.

(** A connect within the cluster adds the link, keeps the others, and ends. *)
Lemma connect_spec c a b : a < Cluster.len c → b < Cluster.len c → linked c →
  ∃ c', Cluster.connect c a b = Some c' ∧ linked c' ∧ Cluster.len c' = Cluster.len c ∧
    (a ≠ b → is_Some (cl_links c' !! link_key a b)) ∧ (∀ k, is_Some (cl_links c !! k) → is_Some (cl_links c' !! k)).
Proof.
  intros Ha Hb Hl. unfold Cluster.connect. destruct (bool_decide (a = b) || _) eqn:E.
  { exists c. split_and!; try done. intros Hne. apply orb_prop in E as [E|E]; apply bool_decide_eq_true in E; done. }
  apply orb_false_iff in E as [E1 E2]. apply bool_decide_eq_false in E1, E2. rewrite <-eq_None_not_Some in E2.
  destruct (open_session_spec a c Ha) as (bs & -> & Hbs). simpl.
  destruct (open_session_spec b (mkCluster bs (cl_ids c) (cl_pull c) (cl_links c) ({[ cl_next c ]} ∪ cl_running c) (S (cl_next c))))
    as (bs' & -> & Hbs'); [unfold Cluster.len; simpl; lia|]. simpl.
  eexists. split; [done|]. destruct Hl as [Hr Hn Ho Hk]. split_and!.
  - split; simpl.
    + intros t. rewrite !elem_of_union, !elem_of_singleton, Hr. setoid_rewrite lookup_insert_Some. split.
      * intros [->|[->|(k & hs & Hk' & Ht)]]; [exists (link_key a b); eexists; split; [by left|set_solver]..|].
        exists k, hs. split; [|done]. right. split; [|done]. intros <-. congruence.
      * intros (k & hs & [[<- <-]|[_ Hk']] & Ht); [set_solver|]. right; right. by exists k, hs.
    + intros k hs t [[<- <-]|[_ Hk']]%lookup_insert_Some Ht; [set_unfold; lia|]. specialize (Hn k hs t Hk' Ht). lia.
    + intros k k' hs hs' t [[<- <-]|[_ H1]]%lookup_insert_Some [[<- <-]|[_ H2]]%lookup_insert_Some Ht Ht'; [done| | |by eapply Ho].
      * specialize (Hn _ _ _ H2 Ht'). set_unfold. lia.
      * specialize (Hn _ _ _ H1 Ht). set_unfold. lia.
    + intros k hs [[<- <-]|[_ H1]]%lookup_insert_Some; [by apply link_key_order|by eapply Hk].
  - unfold Cluster.len in *. simpl in *. lia.
  - intros _. simpl. by rewrite lookup_insert_eq.
  - intros k [hs Hh]. simpl. destruct (decide (link_key a b = k)) as [<-|]; [by rewrite lookup_insert_eq|]. rewrite lookup_insert_ne by done. by exists hs.
Qed.

Lemma connects_spec l c : (∀ a b, (a, b) ∈ l → a < Cluster.len c ∧ b < Cluster.len c) → linked c →
  ∃ c', foldl (λ o '(a, b), c ← o; Cluster.connect c a b) (Some c) l = Some c' ∧ linked c' ∧ Cluster.len c' = Cluster.len c ∧
    (∀ a b, (a, b) ∈ l → a ≠ b → is_Some (cl_links c' !! link_key a b)) ∧ (∀ k, is_Some (cl_links c !! k) → is_Some (cl_links c' !! k)).
Proof.
  revert c. induction l as [|[a b] l IH]; intros c Hl Hc.
  - exists c. split_and!; try done. by intros a b ?%elem_of_nil.
  - destruct (Hl a b) as [Ha Hb]; [by left|]. destruct (connect_spec c a b Ha Hb Hc) as (c1 & E1 & Hc1 & Hlen & Hk & Hkeep).
    destruct (IH c1) as (c2 & E2 & Hc2 & Hlen2 & Hk2 & Hkeep2); [intros x y Hxy; rewrite Hlen; apply Hl; by right|done|].
    exists c2. simpl. rewrite E1. split_and!; [done..|congruence| |by auto].
    intros x y [[= -> ->]|Hxy]%elem_of_cons Hne; [by apply Hkeep2, Hk|by apply Hk2].
Qed.

Lemma elem_of_pairs n a b : (a, b) ∈ Cluster.pairs n ↔ a < b < n.
Proof.
  unfold Cluster.pairs. rewrite list_elem_of_bind. split.
  - intros (a' & Hb & Ha). apply list_elem_of_fmap in Hb as (b' & [= -> ->] & Hb'). apply elem_of_seq in Ha, Hb'. lia.
  - intros H. exists a. rewrite elem_of_seq. split; [|lia]. apply list_elem_of_fmap. exists b. rewrite elem_of_seq. split; [done|lia].
Qed.

Lemma full_mesh_spec c : linked c →
  ∃ c', Cluster.full_mesh c = Some c' ∧ linked c' ∧ Cluster.len c' = Cluster.len c ∧ ∀ a b, a < b < Cluster.len c → is_Some (cl_links c' !! (a, b)).
Proof.
  intros Hc. destruct (connects_spec (Cluster.pairs (Cluster.len c)) c) as (c' & E & Hc' & Hlen & Hk & _).
  - intros a b ?%elem_of_pairs. lia.
  - done.
  - exists c'. split_and!; [done..|]. intros a b Hab. specialize (Hk a b). rewrite elem_of_pairs in Hk.
    unfold link_key in Hk. rewrite (proj2 (Nat.ltb_lt a b)) in Hk by lia. apply Hk; lia.
Qed.

Lemma partition_linked c a b : linked c → linked (Cluster.partition c a b).
Proof.
  intros [Hr Hn Ho Hk]. unfold Cluster.partition. destruct (cl_links c !! link_key a b) as [hs|] eqn:E; [|done]. split; simpl.
  - intros t. rewrite elem_of_difference, elem_of_list_to_set, Hr. setoid_rewrite lookup_delete_Some. split.
    + intros [(k & hs' & Hk' & Ht) Hni]. exists k, hs'. split; [|done]. split; [|done]. intros <-. congruence.
    + intros (k & hs' & [Hne Hk'] & Ht). split; [by exists k, hs'|]. intros Ht'. by apply Hne, (Ho _ k hs hs' t).
  - intros k hs' t [_ Hk']%lookup_delete_Some. by eapply Hn.
  - intros k k' hs1 hs2 t [_ H1]%lookup_delete_Some [_ H2]%lookup_delete_Some. by eapply Ho.
  - intros k hs' [_ Hk']%lookup_delete_Some. by eapply Hk.
Qed.

Lemma shutdown_running c : linked c → cl_running (Cluster.shutdown c) = ∅.
Proof.
  intros [Hr _ _ _]. simpl. apply leibniz_equiv, elem_of_equiv_empty. intros t.
  rewrite elem_of_difference, elem_of_list_to_set, Hr. intros [(k & hs & Hk & Ht) Hni]. apply Hni.
  apply list_elem_of_In, in_concat. exists hs. split; apply list_elem_of_In; [|done].
  apply list_elem_of_fmap. exists (k, hs). split; [done|]. by apply elem_of_map_to_list.
Qed.

Lemma apply_op_linked op c c' : apply_op op c = Some c' → linked c → linked c'.
Proof.
  intros H Hc. destruct op as [a b|a b| |]; simpl in H.
  - destruct (decide (a < Cluster.len c ∧ b < Cluster.len c)) as [[Ha Hb]|Hout].
    + destruct (connect_spec c a b Ha Hb Hc) as (c1 & E & Hc1 & _). congruence.
    + unfold Cluster.connect in H. destruct (_ || _); [by simplify_eq|].
      destruct (Cluster.open_session a c) as [[c1 ha]|] eqn:Ea; [|done]. simpl in H.
      destruct (Cluster.open_session b c1) as [[c2 hb]|] eqn:Eb; [|done]. exfalso. apply Hout.
      unfold Cluster.open_session, Cluster.board in Ea, Eb. destruct (cl_boards c !! a) as [x|] eqn:Hxa; [|done]. simpl in Ea. injection Ea as <- <-.
      simpl in Eb. destruct (<[a := _]> (cl_boards c) !! b) as [y|] eqn:Hyb; [|done].
      apply lookup_lt_Some in Hxa, Hyb. rewrite length_insert in Hyb. by split.
  - injection H as <-. by apply partition_linked.
  - destruct (full_mesh_spec c Hc) as (c1 & E & Hc1 & _). congruence.
  - injection H as <-. pose proof (shutdown_running c Hc) as Hs. split; [|by intros k hs; simpl; rewrite lookup_empty..].
    intros t. rewrite Hs. simpl. split; [set_solver|]. by intros (k & hs & Hk & _); rewrite lookup_empty in Hk.
Qed.

(** Links and sessions. Whatever links were made and cut, exactly the two
    sessions of each link run and none is left behind; full_mesh ends with a
    link between every two peers, a partition leaves neither link nor session,
    and a shutdown leaves no session at all. *)
Theorem sessions_follow_links ops n pull c :
  apply_ops ops (Cluster.new n pull) = Some c →
  (∀ t, t ∈ cl_running c ↔ ∃ k hs, cl_links c !! k = Some hs ∧ t ∈ hs) ∧
  (∃ c', Cluster.full_mesh c = Some c' ∧ ∀ a b, a < b < Cluster.len c → is_Some (cl_links c' !! (a, b))) ∧
  (∀ a b hs, cl_links c !! link_key a b = Some hs →
     cl_links (Cluster.partition c a b) !! link_key a b = None ∧ ∀ t, t ∈ hs → t ∉ cl_running (Cluster.partition c a b)) ∧
  cl_running (Cluster.shutdown c) = ∅.
Proof.
  intros H. assert (Hc : linked c).
  { revert H. generalize (new_linked n pull). generalize (Cluster.new (P := P) n pull). induction ops as [|op ops IH]; intros c0 H0; simpl; [by intros [= ->]|].
    destruct (apply_op op c0) as [c1|] eqn:E; [|done]. simpl. apply IH. by eapply apply_op_linked. }
  split_and!.
  - apply Hc.
  - destruct (full_mesh_spec c Hc) as (c' & E & _ & _ & Hk). by exists c'.
  - intros a b hs E. unfold Cluster.partition. rewrite E. simpl. split; [by rewrite lookup_delete_eq|]. set_solver.
  - by apply shutdown_running.
Qed.

(** The test of convergence: all snapshots are equal. *)
Lemma agree_in_turn_spec snaps : Cluster.agree_in_turn snaps = true ↔ ∀ s t, s ∈ snaps → t ∈ snaps → s = t.
Proof.
  induction snaps as [|s [|t rest] IH].
  - split; [|done]. intros _ s t ?%elem_of_nil. done.
  - split; [|done]. intros _ x y. set_solver.
  - change (Cluster.agree_in_turn (s :: t :: rest)) with (bool_decide (s = t) && Cluster.agree_in_turn (t :: rest)).
    rewrite andb_true_iff, bool_decide_eq_true, IH. split.
    + intros [-> H] x y Hx Hy. apply H; set_solver.
    + intros H. split; [apply H; set_solver|]. intros x y Hx Hy. apply H; set_solver.
Qed.

(** Identities of peers: 256 differ, the next is the owner again. *)
Lemma seeds_distinct i j : i < 256 → j < 256 → seed i = seed j → i = j.
Proof.
  intros Hi Hj [= H]. apply (f_equal byte_val) in H. rewrite !byte_val_of in H. rewrite !(Z.mod_small (Z.of_nat _) 256) in H by lia.
  destruct (decide (i = 255)) as [->|], (decide (j = 255)) as [->|]; [done|..];
    try change ((1 + Z.of_nat 255) mod 256)%Z with 0%Z in H; rewrite ?(Z.mod_small (1 + Z.of_nat _) 256) in H by lia; lia.
Qed.

Lemma seed_repeats : seed 256 = seed 0.
Proof. reflexivity. Qed.

(** ** Counting *)

Definition ops_of (r : ChaosReport) : nat := cr_adds r + cr_renames r + cr_toggles r + cr_removes r.

Lemma churn_ops d c r c' r' : churn d c r = Some (c', r') → ops_of r' = ops_of r.
Proof.
  unfold churn. destruct (_ || _); [by intros [= <- <-]|]. destruct r. destruct (dr_cut d); [by intros [= <- <-]|].
  destruct (Cluster.connect _ _ _); [|done]. by intros [= <- <-].
Qed.

Lemma round_counts cfg fuel d c r c' r' : round cfg fuel d (c, r) = Some (Ok (c', r')) → ops_of r' = S (ops_of r).
Proof.
  unfold round. destruct (_ <=? _); [done|]. destruct (Cluster.board c _) as [b|]; [|done]. simpl.
  destruct (workload fuel d b) as [[b' [[]|e]]|]; [|done|done]. simpl.
  destruct (churn d _ _) as [[c1 r1]|] eqn:E; [|done]. apply churn_ops in E. simpl.
  assert (Hc : ops_of (count_op (dr_op d) r) = S (ops_of r)).
  { destruct r. unfold count_op, ops_of. repeat case_bool_decide; simpl; lia. }
  destruct (_ && _).
  - destruct (Cluster.revoke _ _ _) as [[c2 [[]|e]]|]; [|done|done]. simpl. destruct r1. intros [= <- <-]. rewrite <-Hc, <-E. done.
  - intros [= <- <-]. congruence.
Qed.

(** A run of the workload counts one task operation a round. *)
Lemma rounds_count cfg fuel ds c r c' r' : rounds cfg fuel ds (c, r) = Some (Ok (c', r')) → ops_of r' = length ds + ops_of r.
Proof.
  revert c r. induction ds as [|[d f] ds IH]; intros c r; [by intros [= <- <-]|]. cbn [rounds].
  destruct (round cfg fuel d (c, r)) as [[[c1 r1]|e]|] eqn:E; [|done|done]. apply round_counts in E. simpl. intros H. apply IH in H. lia.
Qed.

Lemma await_converged fuel polls c b :
  Cluster.await_convergence fuel polls = Some (c, b) →
  ∃ snaps, Cluster.snapshots c fuel = Some snaps ∧ (b = true ↔ ∀ s t, s ∈ snaps → t ∈ snaps → s = t).
Proof.
  induction polls as [|[c' late] polls IH]; [done|]. cbn [Cluster.await_convergence]. unfold Cluster.converged.
  destruct (Cluster.snapshots c' fuel) as [snaps|] eqn:E; [|done]. simpl. pose proof (agree_in_turn_spec snaps) as Hs.
  destruct (Cluster.agree_in_turn snaps); [intros [= <- <-]; exists snaps; by split; [|rewrite <-Hs]|].
  destruct late; [intros [= <- <-]; exists snaps; by split; [|rewrite <-Hs]|exact IH].
Qed.

(** The report of a run. A run that ends without a refused write counts one
    task operation for every round; it reports convergence exactly when, at its
    last look, all boards showed the same tasks, and as final tasks the
    number the owner's board showed after it. *)
Theorem chaos_report cfg fuel ds nows nows' polls after cfg' r :
  ch_rounds cfg ≤ length ds →
  run_chaos (P := P) cfg fuel ds nows nows' polls after = Some (Ok (cfg', r)) →
  cfg' = cfg ∧ ops_of r = ch_rounds cfg ∧
  ∃ c b snaps board0, Cluster.await_convergence fuel (polls c) = Some b ∧ Cluster.snapshots b.1 fuel = Some snaps ∧
    (cr_converged r = true ↔ ∀ s t, s ∈ snaps → t ∈ snaps → s = t) ∧
    Cluster.board (after b.1) 0 = Some board0 ∧ TaskBoard.len board0 fuel = Some (cr_final_tasks r).
Proof.
  intros Hds. unfold run_chaos. destruct (Cluster.full_mesh _) as [c|]; [|done]. simpl.
  destruct (Cluster.invite_all c nows) as [[c1 [[]|e]]|]; [|done|done]. simpl.
  destruct (rounds cfg fuel _ _) as [[[c2 r2]|e]|] eqn:Er; [|done|done]. simpl. apply rounds_count in Er.
  destruct (Cluster.full_mesh c2) as [c3|]; [|done]. simpl.
  destruct (Cluster.invite_all c3 nows') as [[c4 [[]|e]]|]; [|done|done]. simpl.
  destruct (Cluster.await_convergence fuel (polls c4)) as [[c5 cv]|] eqn:Ea; [|done]. simpl.
  destruct (Cluster.board (after c5) 0) as [b0|] eqn:Eb; [|done]. simpl. destruct (TaskBoard.len b0 fuel) as [k|] eqn:Ek; [|done]. simpl.
  destruct r2 as [a rn t rm p h rv cv' f]. intros [= <- <-]. destruct (await_converged _ _ _ _ Ea) as (snaps & Hs & Hcv).
  rewrite length_take in Er. split_and!; [done| |].
  - unfold ops_of in *. simpl in *. lia.
  - exists c4, (c5, cv), snaps, b0. by split_and!.
Qed.
End links.

(** ** Examples *)

Module TaskRuns.

(** A codec for tasks, and for tasks without one of the two fields. *)
Definition flags (m : Record_) : option (byte * string) :=
  match m !! "title", m !! "done" with
  | Some (Str t), Some (Bool false) => Some (x00, t)
  | Some (Str t), Some (Bool true) => Some (x01, t)
  | Some (Str t), None => Some (x02, t)
  | _, _ => None
  end.

Definition unflag (f : byte) (t : string) : Record_ :=
  match f with
  | x00 => <["done" := Bool false]> {[ "title" := Str t ]}
  | x01 => <["done" := Bool true]> {[ "title" := Str t ]}
  | _ => {[ "title" := Str t ]}
  end.

Definition task_json : JsonText := {|
  to_text v := match v with
               | Object m => match flags m with
                             | Some (f, t) => if bool_decide (dom m = dom (unflag f t)) then Ok (f :: as_bytes t) else Err ()
                             | None => Err ()
                             end
               | _ => Err ()
               end;
  of_text bs := match bs with f :: t => Some (Object (unflag f (String.string_of_list_byte t))) | [] => None end;
|}.

Lemma task_json_laws : @JsonTextLaws task_json.
Proof.
  constructor. intros v bs. simpl. destruct v as [| | | | |m]; try done.
  destruct (flags m) as [[f t]|] eqn:Ef; [|done]. case_bool_decide as Hm; [|done]. intros [= <-].
  unfold as_bytes. rewrite String.string_of_list_byte_of_string. do 2 f_equal. apply map_eq. intros k.
  assert (Hin : k ∈ dom (unflag f t) → unflag f t !! k = m !! k).
  { unfold flags in Ef. destruct (m !! "title") as [[]|] eqn:Et, (m !! "done") as [[|[]| | | |]|] eqn:Ed; simplify_eq/=; set_unfold; intros Hk;
      destruct_or?; subst; rewrite ?lookup_insert_eq, ?lookup_insert_ne, ?lookup_singleton_eq by done; done. }
  destruct (decide (k ∈ dom (unflag f t))) as [Hk|Hk]; [by apply Hin|].
  assert (k ∉ dom m) as Hk' by by rewrite Hm. apply not_elem_of_dom in Hk, Hk'. congruence.
Qed.

Definition board0 : Store NoSink NoSink := Store.new (ex_peer x01).

Abbreviation badd := (TaskBoard.add (JT := task_json)).
Abbreviation brename := (TaskBoard.rename (JT := task_json)).
Abbreviation bdone := (TaskBoard.set_done (JT := task_json)).
Abbreviation bget := (TaskBoard.get (JT := task_json)).

Lemma board_writes_witness :
  ∃ b', badd board0 (Ok 100%Z) "t1" "ship" = (b', Ok ()) ∧ bget b' 1 "t1" = Some (Some (mkTask "ship" false)).
Proof.
  destruct (badd board0 (Ok 100%Z) "t1" "ship") as [b' r] eqn:E.
  assert (r = Ok ()) as ->. { change r with (b', r).2. rewrite <-E. vm_compute. reflexivity. }
  exists b'. split; [done|].
  refine (proj1 (board_writes (JT := task_json) (JL := task_json_laws) board0 empty_history 1 (Ok 100%Z) "t1" _ _ _) "ship" b' true E _).
  - apply state_models_new.
  - done.
  - split; vm_compute; discriminate.
  - change b' with (b', @Ok () StoreError ()).1. rewrite <-E. reflexivity.
Defined.

(** A rename of a task that is not there is accepted and writes a record
    that no board shows: neither a read nor the snapshot, though the store has
    it. A later toggle makes it a task. *)
Lemma rename_of_nothing :
  match brename board0 1 (Ok 100%Z) "t1" "ship" with
  | Some (b', Ok _) =>
    Some (Store.read (JT := task_json) b' 1 ENTITY "t1", bget b' 1 "t1", TaskBoard.snapshot (JT := task_json) b' 1,
          x ← bdone b' 1 (Ok 101%Z) "t1" true; bget x.1 1 "t1")
  | _ => None
  end = Some (Some (Some (Object {[ "title" := Str "ship" ]})), Some None, Some ∅, Some (Some (mkTask "ship" true))).
Proof. vm_compute. reflexivity. Qed.

(** Three peers, all linked, one link cut. *)
Lemma sessions_follow_links_witness :
  ∃ c : Cluster NoSink, apply_ops [FullMesh; Partition 0 2] (Cluster.new 3 15) = Some c ∧
    (∀ t, t ∈ cl_running c ↔ ∃ k hs, cl_links c !! k = Some hs ∧ t ∈ hs) ∧ cl_running (Cluster.shutdown c) = ∅.
Proof.
  destruct (apply_ops [FullMesh; Partition 0 2] (Cluster.new (P := NoSink) 3 15)) as [c|] eqn:E; [|by vm_compute in E].
  exists c. split; [done|].
  destruct (sessions_follow_links [FullMesh; Partition 0 2] 3 15 c E) as (H1 & _ & _ & H4). by split.
Defined.
End TaskRuns.
