(* ===== verification/Types.v ===== *)
(** * The vocabulary of the stitch crate

    Models types.rs, origin.rs, error.rs and the parts of config.rs and
    queue.rs the other components read. *)
From S2P Require Import Prelude Json.

(** ** Operations and origins *)

Inductive Operation := Insert | Update | Delete.

#[global] Instance Operation_eq_dec : EqDecision Operation.
Proof. solve_decision. Defined.

Definition priority (op : Operation) : Z :=
  match op with Insert => 0 | Update => 1 | Delete => 2 end.

Inductive Origin := Local | Remote | Load | Clear.

#[global] Instance Origin_eq_dec : EqDecision Origin.
Proof. solve_decision. Defined.

Definition skips_persistence (o : Origin) : bool :=
  match o with Remote | Load | Clear => true | Local => false end.

Definition skips_remote (o : Origin) : bool :=
  match o with Local => false | _ => true end.

Inductive ConnectionStatus := Offline | Connecting | Connected | ErrorStatus | Disconnected.

#[global] Instance ConnectionStatus_eq_dec : EqDecision ConnectionStatus.
Proof. solve_decision. Defined.

(** ** Errors

    The variants of [mqdb_core::error::Error] the sources name; every other
    variant is [MqOther]. *)
Inductive MqdbError :=
| MqNotFound (entity id : string)
| MqConflict (message : string)
| MqValidation (message : string)
| MqConstraintViolation (message : string)
| MqForeignKeyViolation
| MqForeignKeyRestrict
| MqNotNullViolation
| MqInvalidForeignKey
| MqCorruption
| MqStorage (message : string)
| MqOther (message : string).

Inductive Error :=
| NotInitialized
| AlreadyInitialized
| ScopeNotActive (scope : string)
| UnknownEntity (entity : string)
| NotFound (entity id : string)
| Ownership (entity id : string)
| Conflict (entity id : string)
| PreconditionFailed (entity id : string)
| Mqdb (method : string) (source : MqdbError)
| Mqtt (message : string)
| PublishRejected (reason_code : Z)
| Rejected (message : string)
| ConnectionClosed
| Timeout (ms : Z)
| Config (message : string)
| SessionInvalid
| Serde (message : string)
| Io (message : string).

Definition TERMINAL_PUBLISH_REASON_CODES : list Z := [135; 144; 153]%Z.

Definition publish_reason_is_terminal (reason_code : Z) : bool :=
  bool_decide (reason_code ∈ TERMINAL_PUBLISH_REASON_CODES).

Definition mqdb (method : string) (source : MqdbError) : Error :=
  match source with MqNotFound entity id => NotFound entity id | other => Mqdb method other end.

Definition is_transient (e : Error) : bool :=
  match e with
  | Timeout _ | ConnectionClosed | Mqtt _ => true
  | PublishRejected reason_code => negb (publish_reason_is_terminal reason_code)
  | _ => false
  end.

Definition is_terminal_publish_rejection (e : Error) : bool :=
  match e with PublishRejected reason_code => publish_reason_is_terminal reason_code | _ => false end.

Definition is_ownership (e : Error) : bool := match e with Ownership _ _ => true | _ => false end.
Definition is_not_found (e : Error) : bool := match e with NotFound _ _ => true | _ => false end.
Definition is_conflict (e : Error) : bool := match e with Conflict _ _ => true | _ => false end.
Definition is_precondition_failed (e : Error) : bool :=
  match e with PreconditionFailed _ _ => true | _ => false end.

Definition is_permanent_mutation (e : Error) : bool :=
  match e with
  | Rejected _ => true
  | Mqdb _ source =>
    match source with
    | MqValidation _ | MqConstraintViolation _ | MqForeignKeyViolation | MqForeignKeyRestrict
    | MqNotNullViolation | MqInvalidForeignKey => true
    | _ => false
    end
  | _ => false
  end.

(** On a native target. *)
Definition is_corruption (e : Error) : bool :=
  match e with Mqdb _ (MqCorruption | MqStorage _) => true | _ => false end.

(** At most one of the classes of which the queue and the store decide by
    order of their tests. *)
Lemma error_classes e :
  length (filter (λ b, b = true)
    [is_transient e; is_terminal_publish_rejection e; is_ownership e; is_not_found e;
     is_conflict e; is_precondition_failed e; is_permanent_mutation e; is_corruption e]) ≤ 1.
Proof.
  destruct e as [| | | | | | | |method source| |rc| | | | | | |]; try (vm_compute; lia).
  - destruct source; vm_compute; lia.
  - unfold is_transient, is_terminal_publish_rejection.
    destruct (publish_reason_is_terminal rc); vm_compute; lia.
Qed.

(** ** Events and records in flight *)

Record MutationEvent := mkEvent {
  ev_operation : Operation;
  ev_entity : string;
  ev_id : string;
  ev_scope_id : string;
  ev_data : option Record_;
  ev_origin : Origin;
}.

Inductive StoreEvent :=
| Mutation (event : MutationEvent)
| ScopeLoaded (scope_id : string) (entities : list string)
| ScopeCleared (scope_id : string) (entities : list string).

Record ScopeBundle := mkBundle {
  bundle_root : option Record_;
  bundle_children : list (string * list Record_);   (* a [BTreeMap]: sorted by entity *)
}.

Record SyncMutation := mkSync {
  sm_op : Operation;
  sm_entity : string;
  sm_id : string;
  sm_data : option Record_;
  sm_operation_id : option string;
}.

Record ScopeState := mkScopeState {
  ss_root : Record_;
  ss_children : list (string * list Record_);
  ss_version : Z;
  ss_buffered : list SyncMutation;
}.

Record PendingMutation := mkPending {
  pm_op : Operation;
  pm_entity : string;
  pm_id : string;
  pm_scope_id : string;
  pm_data : option Record_;
  pm_created_at : Z;
}.

(** ** Configuration *)

Record ScopeConfig := mkScopeConfig {
  root_entity : string;
  child_entities : list string;
  scope_field : string;
}.

Record TopLevelEntity := mkTopLevel {
  tl_entity : string;
  subscription_pattern : string;
}.

Record StoreConfig := mkConfig {
  scope : ScopeConfig;
  top_level_entities : list TopLevelEntity;
  sync_topic_prefix : string;
  response_topic_prefix : string;
  version_field : string;
  updated_at_field : string;
  user_scope_field : option string;
}.

(** [StoreConfig::new], on the fields above. *)
Definition StoreConfig_new (scope : ScopeConfig) : StoreConfig :=
  mkConfig scope [] "$DB" "$DB/clients" "version" "updatedAt" None.

(** The [top_level] set every layer builds from its configuration. *)
Definition top_level (c : StoreConfig) : gset string := list_to_set (tl_entity <$> top_level_entities c).

(** [resolve_scope] of memory_store.rs and persistence.rs, [scope_from_row]
    of store.rs: the scope a row belongs to. *)
Definition resolve_scope (c : StoreConfig) (entity : string) (data : Record_) : option string :=
  if bool_decide (entity = root_entity (scope c)) then get_str data "id" else
  if bool_decide (entity ∈ top_level c) then Some "" else
  get_str data (scope_field (scope c)).

(** ** Flushing

    [RejectedInsert] and [FlushSummary] of queue.rs. *)
Record RejectedInsert := mkRejected { rj_entity : string; rj_id : string; rj_scope_id : string }.

Record FlushSummary := mkSummary { retained : nat; rejected_inserts : list RejectedInsert }.

Definition FlushSummary_default : FlushSummary := mkSummary 0 [].

(** The interface of queue.rs to the remote. *)
Class MutationSender (S : Type) := {
  sync_create : string → string → Record_ → action S Error ();
  sync_update : string → string → string → Record_ → action S Error ();
  sync_delete : string → string → string → action S Error ();
  read_entity : string → string → action S Error (option Record_);
  delete_entity : string → string → action S Error ();
}.
