(* ===== verification/Backend.v ===== *)
(** * Record databases of the stitch crate

    backend/mod.rs: the trait [Db] every layer talks to. backend/native.rs:
    its implementation over [mqdb_agent::Database], which is not part of the
    repository and is the interface [Mqdb] here. [MqdbLaws] is what the code
    relies on from a healthy database; [native_laws] shows that the adapter
    turns it into the contract [DbLaws] the layers are proved against. *)
From S2P Require Import Prelude Json Types.

(** ** Queries *)

Inductive FilterOp := FilterEq.
Record Filter := mkFilter { filter_field : string; filter_op : FilterOp; filter_value : Value }.

Inductive SortDirection := Asc | Desc.
Record SortOrder := mkSort { sort_field : string; sort_direction : SortDirection }.

(** Schemas: the parts of [EntityDefinition] handed to the database. *)
Inductive FieldType := TString | TNumber | TBoolean | TObject | TArray.
Record SchemaField := mkField { sf_name : string; sf_type : FieldType; sf_required : bool; sf_default : option Value }.
Record EntityDefinition := mkEntityDef { ed_fields : list SchemaField; ed_indexes : list string }.

(** ** The trait [Db]. [pagination] is [None] at every call and is left out. *)
Class Db (D : Type) := {
  db_create : string → Value → action D Error Value;
  db_read : string → string → D → result (option Value) Error;
  db_update : string → string → Value → action D Error Value;
  db_delete : string → string → action D Error ();
  db_list : string → list Filter → list SortOrder → list string → D → result (list Value) Error;
  db_register_schema : string → EntityDefinition → action D Error ();
  open_memory_db : StoreConfig → result D Error;
}.

Definition value_to_record (v : Value) : result Record_ Error :=
  match v with
  | Object m => Ok m
  | _ => Err (Config "expected object record")
  end.

(** ** The native adapter *)

(** [mqdb_agent::Database], reduced to the arguments that vary. *)
Class Mqdb (M : Type) := {
  mq_create : string → Value → action M MqdbError Value;
  mq_read : string → string → M → result Value MqdbError;
  mq_update : string → string → Value → action M MqdbError Value;
  mq_delete : string → string → action M MqdbError ();
  mq_list : string → list Filter → list SortOrder → option (list string) → M → result (list Value) MqdbError;
  mq_add_schema : string → list SchemaField → action M MqdbError ();
  mq_add_index : string → string → action M MqdbError ();
  mq_open_memory : result M MqdbError;
  mq_entities : StoreConfig → list (string * EntityDefinition);
}.

Record NativeDb (M : Type) := mkNative { native_db : M }.
Arguments mkNative {M}.
Arguments native_db {M}.

Section native.
Context {M : Type} {MQ : Mqdb M}.

Definition on_db {A} (f : MqdbError → Error) (m : action M MqdbError A) : action (NativeDb M) Error A :=
  λ d, let '(db, r) := m (native_db d) in (mkNative db, map_err f r).

Definition native_create (entity : string) (data : Value) : action (NativeDb M) Error Value :=
  on_db (mqdb ("create:" +:+ entity)) (mq_create entity data).

Definition native_read (entity id : string) (d : NativeDb M) : result (option Value) Error :=
  match mq_read entity id (native_db d) with
  | Ok value => Ok (Some value)
  | Err (MqNotFound _ _) => Ok None
  | Err e => Err (mqdb ("read:" +:+ entity) e)
  end.

Definition conflict_or (method entity id : string) (e : MqdbError) : Error :=
  match e with
  | MqConflict _ => Conflict entity id
  | other => mqdb method other
  end.

Definition native_update (entity id : string) (fields : Value) : action (NativeDb M) Error Value :=
  on_db (conflict_or ("update:" +:+ entity) entity id) (mq_update entity id fields).

Definition native_delete (entity id : string) : action (NativeDb M) Error () :=
  on_db (conflict_or ("delete:" +:+ entity) entity id) (mq_delete entity id).

Definition native_list (entity : string) (filters : list Filter) (sort : list SortOrder)
    (projection : list string) (d : NativeDb M) : result (list Value) Error :=
  map_err (mqdb ("list:" +:+ entity))
    (mq_list entity filters sort (match projection with [] => None | _ => Some projection end)
       (native_db d)).

Definition register_entity_schema (name : string) (def : EntityDefinition) : action (NativeDb M) Error () :=
  on_db (mqdb ("add_schema:" +:+ name)) (mq_add_schema name (ed_fields def)) ;;
  afor (λ index_field,
    on_db (mqdb ("add_index:" +:+ name +:+ ":" +:+ index_field)) (mq_add_index name index_field))
    (ed_indexes def).

Definition register_schemas (c : StoreConfig) : action (NativeDb M) Error () :=
  afor (λ '(name, def), register_entity_schema name def) (mq_entities c).

Definition open_memory (c : StoreConfig) : result (NativeDb M) Error :=
  let? db := map_err (mqdb "open_memory_db") mq_open_memory in
  let '(d, r) := register_schemas c (mkNative db) in
  let? _ := r in Ok d.

#[export] Instance native_Db : Db (NativeDb M) := {|
  db_create := native_create;
  db_read := native_read;
  db_update := native_update;
  db_delete := native_delete;
  db_list := native_list;
  db_register_schema := register_entity_schema;
  open_memory_db := open_memory;
|}.
End native.

(** ** What a healthy database does

    A database is a table of records by entity and id. [defaults] is what the
    schema fills in when a record is created. *)

(** An [Eq] filter keeps a record whose field holds an equal value. *)
Definition filter_matches (r : Record_) (f : Filter) : bool :=
  match r !! filter_field f with Some v => value_eqb v (filter_value f) | None => false end.

Lemma filter_matches_str r f s : filter_value f = Str s → filter_matches r f = bool_decide (get_str r (filter_field f) = Some s).
Proof.
  intros Hf. unfold filter_matches, get_str. rewrite Hf. destruct (r !! filter_field f) as [v|]; simpl; [apply value_eqb_str|done].
Qed.

Definition rows_of (t : gmap (string * string) Record_) (entity : string) : list Record_ :=
  (filter (λ kv, kv.1.1 = entity) (map_to_list t)).*2.

(** Fields an update may carry for a record: no other id. *)
Definition keeps_id (id : string) (fields : Record_) : Prop :=
  ∀ v, fields !! "id" = Some v → v = Str id.

Class MqdbLaws (M : Type) {MQ : Mqdb M} := {
  mq_table : M → gmap (string * string) Record_;
  mq_defaults : string → Record_ → Record_;
  mq_defaults_incl e r : r ⊆ mq_defaults e r;
  mq_row m e id r : mq_table m !! (e, id) = Some r →
    get_str r "id" = Some id ∧ mq_defaults e r = r;
  mq_create_law m e r id : get_str r "id" = Some id →
    ∃ m', mq_create e (Object r) m = (m', Ok (Object (mq_defaults e r))) ∧
          mq_table m' = <[(e, id) := mq_defaults e r]> (mq_table m);
  mq_read_law m e id : mq_read e id m =
    match mq_table m !! (e, id) with
    | Some r => Ok (Object r)
    | None => Err (MqNotFound e id)
    end;
  mq_update_law m e id old fields : mq_table m !! (e, id) = Some old → keeps_id id fields →
    ∃ m', mq_update e id (Object fields) m = (m', Ok (Object (extend old fields))) ∧
          mq_table m' = <[(e, id) := extend old fields]> (mq_table m);
  mq_update_missing m e id fields : mq_table m !! (e, id) = None →
    ∃ m', mq_update e id (Object fields) m = (m', Err (MqNotFound e id)) ∧ mq_table m' = mq_table m;
  mq_delete_law m e id r : mq_table m !! (e, id) = Some r →
    ∃ m', mq_delete e id m = (m', Ok ()) ∧ mq_table m' = delete (e, id) (mq_table m);
  mq_delete_missing m e id : mq_table m !! (e, id) = None →
    ∃ m', mq_delete e id m = (m', Err (MqNotFound e id)) ∧ mq_table m' = mq_table m;
  mq_list_law m e filters : ∃ rows, mq_list e filters [] None m = Ok (Object <$> rows) ∧
    rows ≡ₚ filter (λ r, forallb (filter_matches r) filters = true) (rows_of (mq_table m) e);
  mq_schema_law m name fields :
    ∃ m', mq_add_schema name fields m = (m', Ok ()) ∧ mq_table m' = mq_table m;
  mq_index_law m name field :
    ∃ m', mq_add_index name field m = (m', Ok ()) ∧ mq_table m' = mq_table m;
  mq_open_law : ∃ m, mq_open_memory = Ok m ∧ mq_table m = ∅;
}.

(** The same contract at the level of [Db]. *)
Class DbLaws (D : Type) {DB : Db D} := {
  table : D → gmap (string * string) Record_;
  defaults : string → Record_ → Record_;
  defaults_incl e r : r ⊆ defaults e r;
  table_row d e id r : table d !! (e, id) = Some r → get_str r "id" = Some id ∧ defaults e r = r;
  db_create_law d e r id : get_str r "id" = Some id →
    ∃ d', db_create e (Object r) d = (d', Ok (Object (defaults e r))) ∧
          table d' = <[(e, id) := defaults e r]> (table d);
  db_read_law d e id : db_read e id d = Ok (Object <$> table d !! (e, id));
  db_update_law d e id old fields : table d !! (e, id) = Some old → keeps_id id fields →
    ∃ d', db_update e id (Object fields) d = (d', Ok (Object (extend old fields))) ∧
          table d' = <[(e, id) := extend old fields]> (table d);
  db_update_missing d e id fields : table d !! (e, id) = None →
    ∃ d', db_update e id (Object fields) d = (d', Err (NotFound e id)) ∧ table d' = table d;
  db_delete_law d e id r : table d !! (e, id) = Some r →
    ∃ d', db_delete e id d = (d', Ok ()) ∧ table d' = delete (e, id) (table d);
  db_delete_missing d e id : table d !! (e, id) = None →
    ∃ d', db_delete e id d = (d', Err (NotFound e id)) ∧ table d' = table d;
  db_list_law d e filters : ∃ rows, db_list e filters [] [] d = Ok (Object <$> rows) ∧
    rows ≡ₚ filter (λ r, forallb (filter_matches r) filters = true) (rows_of (table d) e);
  db_open_law c : ∃ d, open_memory_db c = Ok d ∧ table d = ∅;
}.

Section native_laws.
Context {M : Type} {MQ : Mqdb M} {ML : MqdbLaws M}.

Lemma register_entity_schema_table d name def :
  ∃ d', register_entity_schema name def d = (d', Ok ()) ∧
        mq_table (native_db d') = mq_table (native_db d).
Proof.
  unfold register_entity_schema, abind, on_db.
  destruct (mq_schema_law (native_db d) name (ed_fields def)) as (m & -> & <-). simpl.
  change m with (native_db (mkNative m)) at 2. generalize (mkNative m) as d1. clear d m.
  induction (ed_indexes def) as [|f l IH]; intros d; simpl; [by eexists|].
  unfold abind. destruct (mq_index_law (native_db d) name f) as (m & -> & <-). simpl.
  apply (IH (mkNative m)).
Qed.

Lemma register_schemas_table c d :
  ∃ d', register_schemas c d = (d', Ok ()) ∧ mq_table (native_db d') = mq_table (native_db d).
Proof using ML.
  unfold register_schemas. revert d. induction (mq_entities c) as [|[name def] l IH]; intros d; simpl.
  { by eexists. }
  unfold abind. destruct (register_entity_schema_table d name def) as (d1 & -> & <-). apply IH.
Qed.

#[export] Program Instance native_laws : DbLaws (NativeDb M) := {|
  table d := mq_table (native_db d);
  defaults := mq_defaults;
|}.
Next Obligation. apply mq_defaults_incl. Qed.
Next Obligation. intros d e id r. apply mq_row. Qed.
Next Obligation.
  intros d e r id Hid. destruct (mq_create_law (native_db d) e r id Hid) as (m & E & Ht).
  exists (mkNative m). simpl. unfold native_create, on_db. by rewrite E.
Qed.
Next Obligation.
  intros d e id. simpl. unfold native_read. rewrite mq_read_law. by destruct (mq_table _ !! _).
Qed.
Next Obligation.
  intros d e id old f Hold Hid. destruct (mq_update_law _ e id old f Hold Hid) as (m & E & Ht).
  exists (mkNative m). simpl. unfold native_update, on_db. by rewrite E.
Qed.
Next Obligation.
  intros d e id f Hno. destruct (mq_update_missing _ e id f Hno) as (m & E & Ht).
  exists (mkNative m). simpl. unfold native_update, on_db. by rewrite E.
Qed.
Next Obligation.
  intros d e id r Hr. destruct (mq_delete_law _ e id r Hr) as (m & E & Ht).
  exists (mkNative m). simpl. unfold native_delete, on_db. by rewrite E.
Qed.
Next Obligation.
  intros d e id Hno. destruct (mq_delete_missing _ e id Hno) as (m & E & Ht).
  exists (mkNative m). simpl. unfold native_delete, on_db. by rewrite E.
Qed.
Next Obligation.
  intros d e fs. destruct (mq_list_law (native_db d) e fs) as (rows & E & Hp).
  exists rows. simpl. unfold native_list. by rewrite E.
Qed.
Next Obligation.
  intros c. simpl. unfold open_memory. destruct mq_open_law as (m & -> & Ht). simpl.
  destruct (register_schemas_table c (mkNative m)) as (d & -> & Hd). simpl in *.
  exists d. split; [done|]. congruence.
Qed.
End native_laws.

(** ** A table as a database

    The smallest database with these laws: records by entity and id, each
    shown with its id. *)
Abbreviation TableDb := (gmap (string * string) Record_).

Definition shown (t : TableDb) : gmap (string * string) Record_ :=
  map_imap (λ k r, Some (<["id" := Str k.2]> r)) t.

Definition id_of (v : Value) : option string := as_object v ≫= λ r, get_str r "id".

Definition tdb_create (e : string) (v : Value) : action TableDb MqdbError Value := λ t,
  match as_object v, id_of v with
  | Some r, Some id => (<[(e, id) := r]> t, Ok v)
  | _, _ => (t, Err (MqValidation "record without id"))
  end.

Definition tdb_read (e id : string) (t : TableDb) : result Value MqdbError :=
  match shown t !! (e, id) with Some r => Ok (Object r) | None => Err (MqNotFound e id) end.

Definition tdb_update (e id : string) (v : Value) : action TableDb MqdbError Value := λ t,
  match shown t !! (e, id), as_object v with
  | None, _ => (t, Err (MqNotFound e id))
  | Some _, None => (t, Err (MqValidation "fields are not an object"))
  | Some old, Some fields => (<[(e, id) := extend old fields]> t, Ok (Object (extend old fields)))
  end.

Definition tdb_delete (e id : string) : action TableDb MqdbError () := λ t,
  match shown t !! (e, id) with
  | Some _ => (delete (e, id) t, Ok ())
  | None => (t, Err (MqNotFound e id))
  end.

#[export] Instance table_Mqdb : Mqdb TableDb := {|
  mq_create := tdb_create;
  mq_read := tdb_read;
  mq_update := tdb_update;
  mq_delete := tdb_delete;
  mq_list e filters _ _ t :=
    Ok (Object <$> filter (λ r, forallb (filter_matches r) filters = true) (rows_of (shown t) e));
  mq_add_schema _ _ := aret ();
  mq_add_index _ _ := aret ();
  mq_open_memory := Ok ∅;
  mq_entities _ := [];
|}.

Lemma get_str_Some r k s : get_str r k = Some s ↔ r !! k = Some (Str s).
Proof. unfold get_str. destruct (r !! k) as [v|]; simpl; [destruct v; naive_solver|naive_solver]. Qed.

Lemma shown_lookup (t : TableDb) e id : shown t !! (e, id) = <["id" := Str id]> <$> t !! (e, id).
Proof. unfold shown. rewrite map_lookup_imap. by destruct (t !! (e, id)). Qed.

Lemma insert_same_id r id : get_str r "id" = Some id → <["id" := Str id]> r = r.
Proof. intros H%get_str_Some. by apply insert_id. Qed.

Lemma shown_insert (t : TableDb) e id r :
  get_str r "id" = Some id → shown (<[(e, id) := r]> t) = <[(e, id) := r]> (shown t).
Proof.
  intros Hid. apply map_eq. intros [e' id']. rewrite shown_lookup, !lookup_insert.
  case_decide as E; simpl; [|by rewrite shown_lookup].
  injection E as <- <-. by rewrite insert_same_id.
Qed.

Lemma get_str_extend r f id :
  get_str r "id" = Some id → keeps_id id f → get_str (extend r f) "id" = Some id.
Proof.
  rewrite !get_str_Some. unfold extend. intros Hr Hf. rewrite lookup_union.
  destruct (f !! "id") as [v|] eqn:E; [|by rewrite Hr].
  rewrite (Hf v E). by rewrite Hr.
Qed.

#[export] Program Instance table_laws : MqdbLaws TableDb := {|
  mq_table := shown;
  mq_defaults _ r := r;
|}.
Next Obligation. done. Qed.
Next Obligation.
  intros t e id r. rewrite shown_lookup. intros (r0 & _ & ->)%fmap_Some. split; [|done].
  apply get_str_Some. by rewrite lookup_insert_eq.
Qed.
Next Obligation.
  intros t e r id Hid. exists (<[(e, id) := r]> t). split.
  - simpl. unfold tdb_create, id_of. simpl. by rewrite Hid.
  - by apply shown_insert.
Qed.
Next Obligation. done. Qed.
Next Obligation.
  intros t e id old f Hold Hf. exists (<[(e, id) := extend old f]> t). split.
  - simpl. unfold tdb_update. by rewrite Hold.
  - apply shown_insert. apply get_str_extend; [|done].
    rewrite shown_lookup in Hold. apply fmap_Some in Hold as (r0 & _ & ->).
    apply get_str_Some. by rewrite lookup_insert_eq.
Qed.
Next Obligation. intros t e id f Hno. exists t. simpl. unfold tdb_update. by rewrite Hno. Qed.
Next Obligation.
  intros t e id r Hr. exists (delete (e, id) t). simpl. unfold tdb_delete. rewrite Hr. split; [done|].
  apply map_eq. intros [e' id']. rewrite shown_lookup, !lookup_delete.
  case_decide; [done|]. by rewrite shown_lookup.
Qed.
Next Obligation. intros t e id Hno. exists t. simpl. unfold tdb_delete. by rewrite Hno. Qed.
Next Obligation. intros t e fs. by eexists. Qed.
Next Obligation. intros t n f. by exists t. Qed.
Next Obligation. intros t n f. by exists t. Qed.
Next Obligation. exists ∅. split; [done|]. apply map_eq. intros k. done. Qed.
