(* ===== verification/WasmBackend.v ===== *)
(** * The wasm database adapter

    Models backend/wasm.rs: the trait [Db] over [mqdb_wasm::WasmDatabase],
    whose calls take and give JavaScript values. The database, the JavaScript
    host and the text form of [serde_json] are interfaces. [WasmDatabaseLaws]
    is what the adapter relies on from a healthy database; the theorems show
    which part of the contract of the native adapter it gives the layers, and
    where it does not. *)
From S2P Require Import Prelude Json Types Backend.

(** ** JavaScript and JSON text *)

(** [J] is [JsValue]; [T] is the text of a JSON document, which the sources
    only carry from one side to the other. *)
Class JsHost (J T : Type) := {
  JSON_parse : T → result J J;
  JSON_stringify : J → result T J;
}.

(** [JsValue::as_string] and the [Debug] text of a value. *)
Class JsText (J : Type) := {
  js_as_string : J → option string;
  js_debug : J → string;
}.

(** [serde_json::to_string] and [from_str::<Value>], with their error text, and
    the [Debug] text of a value. *)
Class SerdeText (T : Type) := {
  serde_to_string : Value → result T string;
  serde_from_str : T → result Value string;
  serde_debug : Value → string;
}.

(** [str::contains]. *)
Fixpoint contains (pat s : string) : bool :=
  String.prefix pat s || match s with EmptyString => false | String _ s => contains pat s end.

(** [mqdb_wasm::WasmDatabase]. *)
Class WasmDatabase (M J : Type) := {
  wd_new : M;
  wd_open_persistent : string → result M J;
  wd_open_encrypted : string → string → result M J;
  wd_create : string → J → action M J J;
  wd_read : string → string → M → result J J;
  wd_update : string → string → J → action M J J;
  wd_delete : string → string → action M J ();
  wd_list : string → J → M → result J J;
  wd_is_memory_backend : M → bool;
  wd_add_schema : string → J → action M J ();
  wd_add_schema_async : string → J → action M J ();
  wd_add_index : string → list string → action M J ();
  wd_add_index_async : string → list string → action M J ();
  wd_read_sync : string → string → M → result J J;
  wd_list_sync : string → J → M → result J J;
  wd_count_sync : string → J → M → result nat J;
}.

(** The operators of [mqdb_core]; the layers only use the first. *)
Inductive CoreFilterOp := Eq_ | Neq | Lt_ | Lte | Gt_ | Gte | In_ | Like | IsNull | IsNotNull.

Definition core_op (op : FilterOp) : CoreFilterOp := match op with FilterEq => Eq_ end.

Definition field_type_str (ft : FieldType) : string :=
  match ft with
  | TString => "string" | TNumber => "number" | TBoolean => "boolean" | TObject => "object" | TArray => "array"
  end.

Definition filter_op_str (op : CoreFilterOp) : string :=
  match op with
  | Eq_ => "eq" | Neq => "neq" | Lt_ => "lt" | Lte => "lte" | Gt_ => "gt" | Gte => "gte"
  | In_ => "in" | Like => "like" | IsNull => "is_null" | IsNotNull => "is_not_null"
  end.

Definition sort_dir_str (dir : SortDirection) : string := match dir with Asc => "asc" | Desc => "desc" end.

(** [json!({..})]. *)
Definition object (fields : list (string * Value)) : Value := Object (list_to_map fields).

Definition filter_json (f : Filter) : Value :=
  object [("field", Str (filter_field f)); ("op", Str (filter_op_str (core_op (filter_op f)))); ("value", filter_value f)].

Definition sort_json (s : SortOrder) : Value :=
  object [("field", Str (sort_field s)); ("direction", Str (sort_dir_str (sort_direction s)))].

(** The object built by [list_options_js]; [pagination] is an offset and a limit. *)
Definition list_options (filters : list Filter) (sort : list SortOrder) (pagination : option (Z * Z))
    (projection : list string) : Record_ :=
  let options : Record_ := <["filters" := Array (filter_json <$> filters)]> ∅ in
  let options := match sort with [] => options | _ => <["sort" := Array (sort_json <$> sort)]> options end in
  let options := match pagination with
                 | Some (offset, limit) =>
                   <["pagination" := object [("offset", Num (PosInt offset)); ("limit", Num (PosInt limit))]]> options
                 | None => options
                 end in
  match projection with [] => options | _ => <["projection" := Array (Str <$> projection)]> options end.

Definition schema_js (fields : list SchemaField) : Value :=
  object [("fields", Array ((λ f, Object (
    let obj := list_to_map [("name", Str (sf_name f)); ("type", Str (field_type_str (sf_type f)));
                            ("required", Bool (sf_required f))] in
    match sf_default f with Some d => <["default" := d]> obj | None => obj end)) <$> fields))].

Record WasmDb (M : Type) := mkWasmDb { wasm_db : M }.
Arguments mkWasmDb {M}.
Arguments wasm_db {M}.

Module WasmDb.
Section adapter.
Context {M J T : Type} {JT : JsText J} {JH : JsHost J T} {ST : SerdeText T} {WD : WasmDatabase M J}.
Implicit Types d : WasmDb M.

Definition js_err (ctx : string) (js : J) : Error := Config ("wasm db " +:+ ctx +:+ ": " +:+ js_debug js).

Definition to_js (value : Value) : result J Error :=
  let? text := map_err Serde (serde_to_string value) in
  map_err (js_err "json parse") (JSON_parse text).

Definition from_js (js : J) : result Value Error :=
  let? text := map_err (js_err "json stringify") (JSON_stringify js) in
  map_err Serde (serde_from_str text).

Definition list_options_js (filters : list Filter) (sort : list SortOrder) (pagination : option (Z * Z))
    (projection : list string) : result J Error :=
  to_js (Object (list_options filters sort pagination projection)).

Definition list_array (out : J) : result (list Value) Error :=
  let? v := from_js out in
  match v with Array items => Ok items | other => Err (Config ("list returned non-array: " +:+ serde_debug other)) end.

Definition is_not_found (js : J) : bool :=
  match js_as_string js with Some s => contains "not found" s | None => false end.

(** A call of the database under the adapter. *)
Definition on_wasm {A} (ctx : string) (m : action M J A) : action (WasmDb M) Error A :=
  λ d, let '(db, r) := m (wasm_db d) in (mkWasmDb db, map_err (js_err ctx) r).

Definition create (entity : string) (data : Value) : action (WasmDb M) Error Value :=
  let! payload := alift (to_js data) in
  let! out := on_wasm "create" (wd_create entity payload) in
  alift (from_js out).

(** [read] and [read_sync] differ in the call and the text of the error. *)
Definition found (ctx : string) (r : result J J) : result (option Value) Error :=
  match r with
  | Ok js => let? v := from_js js in Ok (Some v)
  | Err e => if is_not_found e then Ok None else Err (js_err ctx e)
  end.

Definition read (entity id : string) d : result (option Value) Error := found "read" (wd_read entity id (wasm_db d)).

Definition update (entity id : string) (fields : Value) : action (WasmDb M) Error Value :=
  let! payload := alift (to_js fields) in
  let! out := on_wasm "update" (wd_update entity id payload) in
  alift (from_js out).

Definition delete (entity id : string) : action (WasmDb M) Error () := on_wasm "delete" (wd_delete entity id).

Definition list_ (entity : string) (filters : list Filter) (sort : list SortOrder) (pagination : option (Z * Z))
    (projection : list string) d : result (list Value) Error :=
  let? options := list_options_js filters sort pagination projection in
  let? out := map_err (js_err "list") (wd_list entity options (wasm_db d)) in
  list_array out.

Definition register_schema (name : string) (def : EntityDefinition) : action (WasmDb M) Error () :=
  let! schema := alift (to_js (schema_js (ed_fields def))) in
  let! memory := aget (λ d, wd_is_memory_backend (wasm_db d)) in
  if memory then
    on_wasm "add_schema" (wd_add_schema name schema) ;;
    afor (λ index_field, on_wasm "add_index" (wd_add_index name [index_field])) (ed_indexes def)
  else
    on_wasm "add_schema_async" (wd_add_schema_async name schema) ;;
    afor (λ index_field, on_wasm "add_index_async" (wd_add_index_async name [index_field])) (ed_indexes def).

Definition read_sync (entity id : string) d : result (option Value) Error :=
  found "read_sync" (wd_read_sync entity id (wasm_db d)).

Definition list_sync (entity : string) (filters : list Filter) (sort : list SortOrder) (pagination : option (Z * Z))
    (projection : list string) d : result (list Value) Error :=
  let? options := list_options_js filters sort pagination projection in
  let? out := map_err (js_err "list_sync") (wd_list_sync entity options (wasm_db d)) in
  list_array out.

Definition count_sync (entity : string) (filters : list Filter) d : result nat Error :=
  let? options := list_options_js filters [] None [] in
  map_err (js_err "count_sync") (wd_count_sync entity options (wasm_db d)).

(** [config.entities.iter().chain(config.local_only_entities.iter())]. *)
Context (entities : StoreConfig → list (string * EntityDefinition)).

Definition register_all (c : StoreConfig) : action (WasmDb M) Error () :=
  afor (λ '(name, def), register_schema name def) (entities c).

Definition opened (c : StoreConfig) (db : M) : result (WasmDb M) Error :=
  let '(d, r) := register_all c (mkWasmDb db) in
  let? _ := r in Ok d.

Definition open_memory (c : StoreConfig) : result (WasmDb M) Error := opened c wd_new.

Definition open_persistent (c : StoreConfig) (db_path : string) (passphrase : option string) : result (WasmDb M) Error :=
  let? inner := map_err (js_err "open_persistent")
    (match passphrase with Some pass => wd_open_encrypted db_path pass | None => wd_open_persistent db_path end) in
  opened c inner.

Definition wasm_Db : Db (WasmDb M) := {|
  db_create := create;
  db_read := read;
  db_update := update;
  db_delete := delete;
  db_list e filters sort projection := list_ e filters sort None projection;
  db_register_schema := register_schema;
  open_memory_db := open_memory;
|}.
End adapter.
End WasmDb.

(** ** What a healthy database does *)

(** Values that JavaScript holds without loss. *)
Definition MAX_SAFE_INTEGER : Z := 9007199254740991.

Inductive js_safe : Value → Prop :=
| safe_null : js_safe Null
| safe_bool b : js_safe (Bool b)
| safe_pos n : (0 ≤ n ≤ MAX_SAFE_INTEGER)%Z → js_safe (Num (PosInt n))
| safe_neg n : (- MAX_SAFE_INTEGER ≤ n < 0)%Z → js_safe (Num (NegInt n))
| safe_str s : js_safe (Str s)
| safe_array l : (∀ v, v ∈ l → js_safe v) → js_safe (Array l)
| safe_object m : (∀ k v, m !! k = Some v → js_safe v) → js_safe (Object m).

(** The options of an unsorted, unpaged query by equality. *)
Definition eq_options (filters : list Filter) : Value :=
  object [("filters", Array ((λ f, object [("field", Str (filter_field f)); ("op", Str "eq"); ("value", filter_value f)]) <$> filters))].

Section laws.
Context {M J T : Type} {JT : JsText J} {JH : JsHost J T} {ST : SerdeText T} {WD : WasmDatabase M J}.

(** The text "not found" is how the database reports a missing row. *)
Definition missing (e : J) : Prop := ∃ s, js_as_string e = Some s ∧ contains "not found" s = true.

(** [wl_document t v]: the text [t] is a JSON document of [v]; [wl_denotes j v]:
    the JavaScript value [j] is [v]. [serde_json] prints and parses documents,
    the host parses and prints them, without loss on what JavaScript can hold;
    the database reads its arguments as the values they are. *)
Class WasmDatabaseLaws := {
  wl_table : M → gmap (string * string) Record_;
  wl_defaults : string → Record_ → Record_;
  wl_document : T → Value → Prop;
  wl_denotes : J → Value → Prop;
  wl_serde_to_string v : ∃ t, serde_to_string v = Ok t ∧ wl_document t v;
  wl_serde_from_str t v : wl_document t v → serde_from_str t = Ok v;
  wl_JSON_parse t v : wl_document t v → js_safe v → ∃ j, JSON_parse t = Ok j ∧ wl_denotes j v;
  wl_JSON_stringify j v : wl_denotes j v → ∃ t, JSON_stringify j = Ok t ∧ wl_document t v;
  wl_create m e r id j : wl_denotes j (Object r) → get_str r "id" = Some id →
    ∃ m' out, wd_create e j m = (m', Ok out) ∧ wl_denotes out (Object (wl_defaults e r)) ∧
              wl_table m' = <[(e, id) := wl_defaults e r]> (wl_table m);
  wl_read m e id r : wl_table m !! (e, id) = Some r →
    ∃ out, wd_read e id m = Ok out ∧ wl_denotes out (Object r);
  wl_read_missing m e id : wl_table m !! (e, id) = None → ∃ err, wd_read e id m = Err err ∧ missing err;
  wl_read_sync m e id : wd_is_memory_backend m = true → wd_read_sync e id m = wd_read e id m;
  wl_update m e id old fields j : wl_denotes j (Object fields) → wl_table m !! (e, id) = Some old → keeps_id id fields →
    ∃ m' out, wd_update e id j m = (m', Ok out) ∧ wl_denotes out (Object (extend old fields)) ∧
              wl_table m' = <[(e, id) := extend old fields]> (wl_table m);
  wl_update_missing m e id j : wl_table m !! (e, id) = None →
    ∃ m' err, wd_update e id j m = (m', Err err) ∧ missing err ∧ wl_table m' = wl_table m;
  wl_delete m e id r : wl_table m !! (e, id) = Some r →
    ∃ m', wd_delete e id m = (m', Ok ()) ∧ wl_table m' = delete (e, id) (wl_table m);
  wl_delete_missing m e id : wl_table m !! (e, id) = None →
    ∃ m' err, wd_delete e id m = (m', Err err) ∧ missing err ∧ wl_table m' = wl_table m;
  wl_list m e filters j : wl_denotes j (eq_options filters) →
    ∃ out rows, wd_list e j m = Ok out ∧ wl_denotes out (Array (Object <$> rows)) ∧
      rows ≡ₚ filter (λ r, forallb (filter_matches r) filters = true) (rows_of (wl_table m) e);
  wl_schema m name j : ∃ m', wd_add_schema name j m = (m', Ok ()) ∧ wl_table m' = wl_table m;
  wl_schema_async m name j : ∃ m', wd_add_schema_async name j m = (m', Ok ()) ∧ wl_table m' = wl_table m;
  wl_index m name fs : ∃ m', wd_add_index name fs m = (m', Ok ()) ∧ wl_table m' = wl_table m;
  wl_index_async m name fs : ∃ m', wd_add_index_async name fs m = (m', Ok ()) ∧ wl_table m' = wl_table m;
  wl_new : wl_table wd_new = ∅;
  wl_memory m e j : wd_is_memory_backend (wd_create e j m).1 = wd_is_memory_backend m;
  wl_list_sync m e j : wd_is_memory_backend m = true → wd_list_sync e j m = wd_list e j m;
  wl_count_sync m e filters j : wd_is_memory_backend m = true → wl_denotes j (eq_options filters) →
    wd_count_sync e j m = Ok (length (filter (λ r, forallb (filter_matches r) filters = true) (rows_of (wl_table m) e)));
}.

Context {WL : WasmDatabaseLaws}.
Implicit Types d : WasmDb M.

Abbreviation tbl d := (wl_table (wasm_db d)).

(** The adapter's conversions: a value becomes the JavaScript value it is, and
    back. *)
Lemma to_js_denotes v : js_safe v → ∃ j, WasmDb.to_js v = Ok j ∧ wl_denotes j v.
Proof.
  intros Hv. destruct (wl_serde_to_string v) as (t & Ht & Hdoc). destruct (wl_JSON_parse t v Hdoc Hv) as (j & Hj & Hd).
  exists j. unfold WasmDb.to_js. rewrite Ht. simpl. by rewrite Hj.
Qed.

Lemma from_js_denotes j v : wl_denotes j v → WasmDb.from_js j = Ok v.
Proof.
  intros (t & Ht & Hdoc)%wl_JSON_stringify. unfold WasmDb.from_js. rewrite Ht. simpl. by rewrite (wl_serde_from_str t v Hdoc).
Qed.

Lemma missing_is_not_found e : missing e → WasmDb.is_not_found e = true.
Proof. intros (s & Hs & Hc). unfold WasmDb.is_not_found. by rewrite Hs. Qed.

Lemma list_options_eq filters : Object (list_options filters [] None []) = eq_options filters.
Proof.
  unfold list_options, eq_options, object. simpl. do 3 f_equal. apply list_fmap_ext. intros i [f op v] _. by destruct op.
Qed.

Lemma eq_options_safe filters : Forall (λ f, js_safe (filter_value f)) filters → js_safe (eq_options filters).
Proof.
  intros H. apply safe_object. intros k v Hk. apply elem_of_list_to_map_2, list_elem_of_singleton in Hk. injection Hk as -> ->.
  apply safe_array. intros v (f & -> & Hf)%list_elem_of_fmap. rewrite Forall_forall in H.
  apply safe_object. intros k' v' Hk'. apply elem_of_list_to_map_2 in Hk'.
  rewrite !elem_of_cons in Hk'. destruct Hk' as [[= -> ->]|[[= -> ->]|[[= -> ->]|[]%elem_of_nil]]]; [constructor..|].
  by apply H.
Qed.

(** ** The contract *)

Lemma wasm_create_stored d e r id :
  js_safe (Object r) → get_str r "id" = Some id →
  ∃ d', WasmDb.create e (Object r) d = (d', Ok (Object (wl_defaults e r))) ∧ tbl d' = <[(e, id) := wl_defaults e r]> (tbl d).
Proof.
  intros Hs Hid. destruct (to_js_denotes _ Hs) as (j & Hj & Hfrom).
  destruct (wl_create (wasm_db d) e r id j Hfrom Hid) as (m & out & E & Hout & Ht). exists (mkWasmDb m). split; [|done].
  unfold WasmDb.create, abind, alift, WasmDb.on_wasm. rewrite Hj, E. simpl. by rewrite (from_js_denotes _ _ Hout).
Qed.

Lemma read_row d e id : WasmDb.read e id d = Ok (Object <$> tbl d !! (e, id)).
Proof.
  unfold WasmDb.read, WasmDb.found. destruct (tbl d !! (e, id)) as [r|] eqn:E.
  - destruct (wl_read _ _ _ _ E) as (out & -> & Hout). by rewrite (from_js_denotes _ _ Hout).
  - destruct (wl_read_missing _ _ _ E) as (err & -> & Hm). by rewrite (missing_is_not_found _ Hm).
Qed.

Lemma update_stored d e id old fields :
  js_safe (Object fields) → tbl d !! (e, id) = Some old → keeps_id id fields →
  ∃ d', WasmDb.update e id (Object fields) d = (d', Ok (Object (extend old fields))) ∧
        tbl d' = <[(e, id) := extend old fields]> (tbl d).
Proof.
  intros Hs Hold Hk. destruct (to_js_denotes _ Hs) as (j & Hj & Hfrom).
  destruct (wl_update _ e id old fields j Hfrom Hold Hk) as (m & out & E & Hout & Ht). exists (mkWasmDb m). split; [|done].
  unfold WasmDb.update, abind, alift, WasmDb.on_wasm. rewrite Hj, E. simpl. by rewrite (from_js_denotes _ _ Hout).
Qed.

(** A missing row: the database says "not found", and the adapter answers
    with a configuration error. *)
Lemma update_absent d e id fields :
  js_safe (Object fields) → tbl d !! (e, id) = None →
  ∃ d' msg, WasmDb.update e id (Object fields) d = (d', Err (Config msg)) ∧ tbl d' = tbl d.
Proof.
  intros Hs Hno. destruct (to_js_denotes _ Hs) as (j & Hj & _).
  destruct (wl_update_missing _ e id j Hno) as (m & err & E & _ & Ht). exists (mkWasmDb m). eexists. split; [|done].
  unfold WasmDb.update, abind, alift, WasmDb.on_wasm. rewrite Hj, E. done.
Qed.

Lemma delete_stored d e id r :
  tbl d !! (e, id) = Some r → ∃ d', WasmDb.delete e id d = (d', Ok ()) ∧ tbl d' = delete (e, id) (tbl d).
Proof.
  intros Hr. destruct (wl_delete _ e id r Hr) as (m & E & Ht). exists (mkWasmDb m).
  unfold WasmDb.delete, WasmDb.on_wasm. by rewrite E.
Qed.

Lemma delete_absent d e id :
  tbl d !! (e, id) = None → ∃ d' msg, WasmDb.delete e id d = (d', Err (Config msg)) ∧ tbl d' = tbl d.
Proof.
  intros Hno. destruct (wl_delete_missing _ e id Hno) as (m & err & E & _ & Ht). exists (mkWasmDb m). eexists.
  unfold WasmDb.delete, WasmDb.on_wasm. by rewrite E.
Qed.

Lemma list_rows d e filters :
  Forall (λ f, js_safe (filter_value f)) filters →
  ∃ rows, WasmDb.list_ e filters [] None [] d = Ok (Object <$> rows) ∧
    rows ≡ₚ filter (λ r, forallb (filter_matches r) filters = true) (rows_of (tbl d) e).
Proof.
  intros Hs. destruct (to_js_denotes _ (eq_options_safe _ Hs)) as (j & Hj & Hfrom).
  destruct (wl_list (wasm_db d) e filters j Hfrom) as (out & rows & E & Hout & Hp). exists rows. split; [|done].
  unfold WasmDb.list_, WasmDb.list_options_js, WasmDb.list_array. rewrite list_options_eq, Hj. simpl. rewrite E. simpl. by rewrite (from_js_denotes _ _ Hout).
Qed.

(** Of the indexes, as [afor] runs them. *)
Lemma indexes_keep (ctx : string) (f : string → action M J ()) l d :
  (∀ m x, ∃ m', f x m = (m', Ok ()) ∧ wl_table m' = wl_table m) →
  ∃ d', afor (λ x, WasmDb.on_wasm ctx (f x)) l d = (d', Ok ()) ∧ tbl d' = tbl d.
Proof.
  intros Hf. revert d. induction l as [|x l IH]; intros d; simpl; [by eexists|]. unfold abind, WasmDb.on_wasm at 1.
  destruct (Hf (wasm_db d) x) as (m & -> & <-). simpl. apply (IH (mkWasmDb m)).
Qed.

Definition schema_safe (def : EntityDefinition) : Prop := js_safe (schema_js (ed_fields def)).

Lemma register_schema_keeps d name def :
  schema_safe def → ∃ d', WasmDb.register_schema name def d = (d', Ok ()) ∧ tbl d' = tbl d.
Proof.
  intros Hs. destruct (to_js_denotes _ Hs) as (j & Hj & _). unfold WasmDb.register_schema, abind, alift, aget. rewrite Hj. simpl.
  destruct (wd_is_memory_backend (wasm_db d)); unfold WasmDb.on_wasm at 1.
  - destruct (wl_schema (wasm_db d) name j) as (m & -> & <-). simpl.
    apply (indexes_keep "add_index" (λ x, wd_add_index name [x]) _ (mkWasmDb m)). intros. apply wl_index.
  - destruct (wl_schema_async (wasm_db d) name j) as (m & -> & <-). simpl.
    apply (indexes_keep "add_index_async" (λ x, wd_add_index_async name [x]) _ (mkWasmDb m)). intros. apply wl_index_async.
Qed.

Lemma open_memory_empty entities c :
  Forall (λ nd, schema_safe nd.2) (entities c) → ∃ d, WasmDb.open_memory entities c = Ok d ∧ tbl d = ∅.
Proof.
  intros Hall. unfold WasmDb.open_memory, WasmDb.opened, WasmDb.register_all. rewrite <-wl_new.
  change (@wd_new M J WD) with (wasm_db (mkWasmDb (@wd_new M J WD))). generalize (mkWasmDb (@wd_new M J WD)) as d.
  induction Hall as [|[name def] l Hs _ IH]; intros d; simpl; [eexists; split; [done|by destruct d]|].
  unfold abind at 1. replace (mkWasmDb (wasm_db d)) with d by (by destruct d).
  destruct (register_schema_keeps d name def Hs) as (d1 & -> & <-). specialize (IH d1).
  by replace (mkWasmDb (wasm_db d1)) with d1 in IH by (by destruct d1).
Qed.

(** The wasm adapter keeps the rows it is given. Over a healthy database
    and values JavaScript holds without loss, what is created or updated is
    read back, what is deleted is gone, and a query by equality lists exactly
    the matching rows; no other row changes. A row that is not there is [None]
    to a read, but a configuration error, not [NotFound], to an update or a
    delete, which then change nothing. *)
Theorem wasm_contract d e id r fields filters :
  js_safe (Object r) → get_str r "id" = Some id → js_safe (Object fields) → keeps_id id fields →
  Forall (λ f, js_safe (filter_value f)) filters →
  WasmDb.read e id d = Ok (Object <$> tbl d !! (e, id)) ∧
  (∃ d', WasmDb.create e (Object r) d = (d', Ok (Object (wl_defaults e r))) ∧ tbl d' = <[(e, id) := wl_defaults e r]> (tbl d)) ∧
  (∃ rows, WasmDb.list_ e filters [] None [] d = Ok (Object <$> rows) ∧
     rows ≡ₚ filter (λ r, forallb (filter_matches r) filters = true) (rows_of (tbl d) e)) ∧
  match tbl d !! (e, id) with
  | Some old =>
    (∃ d', WasmDb.update e id (Object fields) d = (d', Ok (Object (extend old fields))) ∧
       tbl d' = <[(e, id) := extend old fields]> (tbl d)) ∧
    (∃ d', WasmDb.delete e id d = (d', Ok ()) ∧ tbl d' = delete (e, id) (tbl d))
  | None =>
    (∃ d' msg, WasmDb.update e id (Object fields) d = (d', Err (Config msg)) ∧ tbl d' = tbl d) ∧
    (∃ d' msg, WasmDb.delete e id d = (d', Err (Config msg)) ∧ tbl d' = tbl d)
  end.
Proof.
  intros Hr Hid Hf Hk Hfs. split_and!; [apply read_row|by apply wasm_create_stored|by apply list_rows|].
  destruct (tbl d !! (e, id)) as [old|] eqn:E; split;
    [by apply update_stored|by eapply delete_stored|by apply update_absent|by apply delete_absent].
Qed.
End laws.

(** ** A table as a wasm database

    JavaScript values and JSON text are both the value they denote. *)
#[export] Instance value_host : JsHost Value Value := {|
  JSON_parse t := Ok t;
  JSON_stringify v := Ok v;
|}.

#[export] Instance value_js_text : JsText Value := {| js_as_string := as_str; js_debug _ := "JsValue" |}.

#[export] Instance value_text : SerdeText Value := {| serde_to_string v := Ok v; serde_from_str t := Ok t; serde_debug _ := "Value" |}.

Definition js_of_error (e : MqdbError) : Value :=
  match e with MqNotFound entity id => Str ("entity not found: " +:+ entity +:+ "/" +:+ id) | _ => Str "database error" end.

Definition as_js {A} (m : action TableDb MqdbError A) : action TableDb Value A :=
  λ t, let '(t, r) := m t in (t, map_err js_of_error r).

Definition parse_filter (v : Value) : option Filter :=
  m ← as_object v; field ← get_str m "field"; value ← m !! "value"; Some (mkFilter field FilterEq value).

Definition parse_options (v : Value) : list Filter :=
  match as_object v ≫= (λ m, m !! "filters") with Some (Array l) => omap parse_filter l | _ => [] end.

Definition table_list (e : string) (options : Value) (t : TableDb) : list Record_ :=
  filter (λ r, forallb (filter_matches r) (parse_options options) = true) (rows_of (shown t) e).

#[export] Instance table_wasm : WasmDatabase TableDb Value := {|
  wd_new := ∅;
  wd_open_persistent _ := Ok ∅;
  wd_open_encrypted _ _ := Ok ∅;
  wd_create e j := as_js (tdb_create e j);
  wd_read e id t := map_err js_of_error (tdb_read e id t);
  wd_update e id j := as_js (tdb_update e id j);
  wd_delete e id := as_js (tdb_delete e id);
  wd_list e options t := Ok (Array (Object <$> table_list e options t));
  wd_is_memory_backend _ := true;
  wd_add_schema _ _ := aret ();
  wd_add_schema_async _ _ := aret ();
  wd_add_index _ _ := aret ();
  wd_add_index_async _ _ := aret ();
  wd_read_sync e id t := map_err js_of_error (tdb_read e id t);
  wd_list_sync e options t := Ok (Array (Object <$> table_list e options t));
  wd_count_sync e options t := Ok (length (table_list e options t));
|}.

Lemma parse_eq_options filters : parse_options (eq_options filters) = filters.
Proof.
  unfold parse_options, eq_options, object. simpl. rewrite lookup_insert_eq.
  induction filters as [|[field op v] filters IH]; [done|]. simpl. unfold get_str. simplify_map_eq. simpl.
  destruct op. by f_equal.
Qed.

Lemma table_missing e id : missing (js_of_error (MqNotFound e id)).
Proof. eexists. split; [done|reflexivity]. Qed.

#[export] Program Instance table_wasm_laws : WasmDatabaseLaws (M := TableDb) (J := Value) (T := Value) := {|
  wl_table := shown;
  wl_defaults _ r := r;
  wl_document := eq;
  wl_denotes := eq;
|}.
Next Obligation. intros v. by exists v. Qed.
Next Obligation. by intros t v ->. Qed.
Next Obligation. intros t v -> _. by exists v. Qed.
Next Obligation. intros j v ->. by exists v. Qed.
Next Obligation.
  intros t e r id j -> Hid. destruct (@mq_create_law TableDb table_Mqdb table_laws t e r id Hid) as (t' & E & Ht). simpl in *.
  exists t', (Object r). unfold as_js. rewrite E. done.
Qed.
Next Obligation. intros t e id r Hr. exists (Object r). simpl. unfold tdb_read. rewrite Hr. done. Qed.
Next Obligation. intros t e id Hno. eexists. simpl. unfold tdb_read. rewrite Hno. split; [done|apply table_missing]. Qed.
Next Obligation. done. Qed.
Next Obligation.
  intros t e id old f j -> Hold Hk. destruct (@mq_update_law TableDb table_Mqdb table_laws t e id old f Hold Hk) as (t' & E & Ht). simpl in *.
  exists t', (Object (extend old f)). unfold as_js. rewrite E. done.
Qed.
Next Obligation.
  intros t e id j Hno. exists t. eexists. simpl. unfold as_js, tdb_update. rewrite Hno. split_and!; [done|apply table_missing|done].
Qed.
Next Obligation.
  intros t e id r Hr. destruct (@mq_delete_law TableDb table_Mqdb table_laws t e id r Hr) as (t' & E & Ht). simpl in *.
  exists t'. unfold as_js. rewrite E. done.
Qed.
Next Obligation.
  intros t e id Hno. exists t. eexists. simpl. unfold as_js, tdb_delete. rewrite Hno. split_and!; [done|apply table_missing|done].
Qed.
Next Obligation.
  intros t e fs j ->. eexists. exists (table_list e (eq_options fs) t). split_and!; [done|done|].
  unfold table_list. by rewrite parse_eq_options.
Qed.
Next Obligation. intros t n j. by exists t. Qed.
Next Obligation. intros t n j. by exists t. Qed.
Next Obligation. intros t n j. by exists t. Qed.
Next Obligation. intros t n j. by exists t. Qed.
Next Obligation. apply map_eq. intros k. done. Qed.
Next Obligation. done. Qed.
Next Obligation. done. Qed.
Next Obligation. intros t e fs j _ ->. simpl. unfold table_list. by rewrite parse_eq_options. Qed.

(** A row in the table and one that is not. *)
Lemma wasm_contract_witness :
  let d := mkWasmDb ({[ ("hold", "h1") := {[ "id" := Str "h1"; "eventId" := Str "e1" ]} ]} : TableDb) in
  (∃ rows, WasmDb.list_ "hold" [mkFilter "eventId" FilterEq (Str "e1")] [] None [] d = Ok (Object <$> rows) ∧ length rows = 1) ∧
  (∃ d' msg, WasmDb.update "hold" "h2" (Object {[ "title" := Str "x" ]}) d = (d', Err (Config msg))).
Proof.
  intros d.
  assert (Hsafe : ∀ k s, js_safe (Object {[ k := Str s ]})).
  { intros k s. apply safe_object. intros k' v [_ <-]%lookup_singleton_Some. constructor. }
  destruct (wasm_contract d "hold" "h2" {[ "id" := Str "h2" ]} {[ "title" := Str "x" ]} [mkFilter "eventId" FilterEq (Str "e1")])
    as (_ & _ & (rows & Hrows & Hp) & Habs); [done..| | |].
  - intros v Hv. discriminate Hv.
  - repeat constructor.
  - change (wl_table (wasm_db d) !! ("hold", "h2")) with (@None Record_) in Habs.
    destruct Habs as [(d' & msg & Hu & _) _]. split; [exists rows|by exists d', msg].
    split; [done|]. rewrite Hp. vm_compute. reflexivity.
Defined.
