(* ===== verification/OfflineQueue.v ===== *)
(** * The offline queue

    Models offline_queue.rs: consolidation of queued rows into one mutation
    per record, the flush against the remote with its outcome table, and the
    in-memory queue. Fresh row ids and the clock are inputs. *)
From S2P Require Import Prelude Json Types Backend.

Record ConsolidatedMutation := mkConsolidated {
  cm_op : Operation;
  cm_entity : string;
  cm_id : string;
  cm_scope_id : string;
  cm_data : option Record_;
  cm_record_ids : list string;
  cm_min_created_at : Z;
}.

Definition op_label (op : Operation) : string :=
  match op with Insert => "insert" | Update => "update" | Delete => "delete" end.

Definition parse_op (label : string) : option Operation :=
  if bool_decide (label = "insert") then Some Insert else
  if bool_decide (label = "update") then Some Update else
  if bool_decide (label = "delete") then Some Delete else None.

Record StoredRow := mkRow {
  record_id : string;
  row_op : Operation;
  row_entity : string;
  row_entity_id : string;
  row_scope_id : string;
  row_data : option Record_;
  row_created_at : Z;
}.

(** ** Consolidation *)

Definition row_key (r : StoredRow) : string * string := (row_entity r, row_entity_id r).

Definition group_rows (rows : list StoredRow) : gmap (string * string) (list StoredRow) :=
  foldl (λ groups row,
    <[row_key row := default [] (groups !! row_key row) ++ [row]]> groups) ∅ rows.

Definition created_le (a b : StoredRow) : bool := bool_decide (row_created_at a ≤ row_created_at b)%Z.

Definition has_op (op : Operation) (entries : list StoredRow) : bool :=
  existsb (λ e, bool_decide (row_op e = op)) entries.

(** [merged.insert(k, v)] for the data of every entry but the inserts. *)
Definition merge_updates (start : Record_) (entries : list StoredRow) : Record_ :=
  foldl (λ merged e,
    if bool_decide (row_op e = Insert) then merged
    else match row_data e with Some data => extend merged data | None => merged end) start entries.

Definition merge_all (entries : list StoredRow) : Record_ :=
  foldl (λ merged e, match row_data e with Some data => extend merged data | None => merged end)
    ∅ entries.

(** The body of the loop over the groups; [None] is the panic of
    [entries[0]] on an empty group. *)
Definition consolidate_group (entries : list StoredRow) : option ConsolidatedMutation :=
  let entries := sort_by created_le entries in
  match entries with
  | [] => None
  | first :: _ =>
    let mk op data := mkConsolidated op (row_entity first) (row_entity_id first)
                        (row_scope_id first) data (record_id <$> entries) (row_created_at first) in
    let has_insert := has_op Insert entries in
    let has_delete := has_op Delete entries in
    Some (
      if has_insert && has_delete then mk Delete None else
      if has_insert then
        let insert_data := list_find (λ e, row_op e = Insert) entries ≫= λ p, row_data p.2 in
        mk Insert (Some (merge_updates (default ∅ insert_data) entries)) else
      if has_delete then mk Delete None else
      let merged := merge_all entries in
      mk Update (if bool_decide (size merged = 0) then None else Some merged))
  end.

Definition consolidated_le (a b : ConsolidatedMutation) : bool :=
  match then_with (cmp (cm_min_created_at a) (cm_min_created_at b))
          (cmp (priority (cm_op a)) (priority (cm_op b))) with
  | Gt => false
  | _ => true
  end.

Definition consolidate {HI : HashIter} (rows : list StoredRow) : option (list ConsolidatedMutation) :=
  result ← mapM consolidate_group (hiter (group_rows rows)).*2;
  Some (sort_by consolidated_le result).

(** ** Flushing *)

Inductive FlushOutcome := Drop | DropRejected | Keep.

#[global] Instance FlushOutcome_eq_dec : EqDecision FlushOutcome.
Proof. solve_decision. Defined.

Section flush.
Context {S : Type} {MS : MutationSender S}.

Definition replay_or_reject_insert (m : ConsolidatedMutation) (s : S) : S * FlushOutcome :=
  let '(s, r) := read_entity (cm_entity m) (cm_id m) s in
  match r with
  | Ok (Some _) =>
    match cm_data m with
    | None => (s, Drop)
    | Some data =>
      let '(s, r) := sync_update (cm_entity m) (cm_scope_id m) (cm_id m) data s in
      (s, match r with
          | Ok _ => Drop
          | Err e => if is_transient e then Keep else Drop
          end)
    end
  | Ok None => (s, DropRejected)
  | Err e => (s, if is_transient e then Keep else DropRejected)
  end.

(** The update of a row the broker does not have, recreated from what
    [read_entity] returns. *)
Definition recreate (m : ConsolidatedMutation) (s : S) : S * FlushOutcome :=
  let '(s, r) := read_entity (cm_entity m) (cm_id m) s in
  match r with
  | Ok (Some full) =>
    let '(s, r) := sync_create (cm_entity m) (cm_scope_id m) full s in
    (s, match r with
        | Ok _ => Drop
        | Err e => if is_transient e then Keep else Drop
        end)
  | Ok None => (s, Drop)
  | Err e => (s, if is_transient e then Keep else Drop)
  end.

Definition attempt (m : ConsolidatedMutation) : action S Error () :=
  match cm_op m with
  | Insert =>
    match cm_data m with
    | Some data => sync_create (cm_entity m) (cm_scope_id m) data
    | None => aret ()
    end
  | Update =>
    match cm_data m with
    | Some data => sync_update (cm_entity m) (cm_scope_id m) (cm_id m) data
    | None => aret ()
    end
  | Delete => sync_delete (cm_entity m) (cm_scope_id m) (cm_id m)
  end.

Definition flush_outcome (root_entity : string) (m : ConsolidatedMutation) (s : S)
    : S * FlushOutcome :=
  let is_op op := bool_decide (cm_op m = op) in
  let '(s, r) := attempt m s in
  match r with
  | Ok _ => (s, Drop)
  | Err err =>
    if is_transient err then (s, Keep) else
    if is_conflict err && is_op Insert then replay_or_reject_insert m s else
    if is_ownership err && is_op Insert then (s, DropRejected) else
    if is_ownership err then (s, Drop) else
    if is_not_found err && is_op Delete then (s, Drop) else
    if is_not_found err && is_op Update && bool_decide (cm_entity m = root_entity)
    then ((delete_entity (cm_entity m) (cm_id m) s).1, Drop) else
    if is_not_found err && is_op Update then recreate m s else
    if is_not_found err && is_op Insert then (s, Keep) else
    if is_terminal_publish_rejection err && is_op Insert then (s, DropRejected) else
    (s, Drop)
  end.

(** The loop: [remove] is the closure that forgets rows, over its own state. *)
Fixpoint flush_consolidated {T} (remove : list string → T → T) (root_entity : string)
    (consolidated : list ConsolidatedMutation) (s : S) (t : T) (summary : FlushSummary)
    : S * T * FlushSummary :=
  match consolidated with
  | [] => (s, t, summary)
  | m :: ms =>
    let '(s, outcome) := flush_outcome root_entity m s in
    let '(t, summary) :=
      match outcome with
      | Drop => (remove (cm_record_ids m) t, summary)
      | DropRejected =>
        (remove (cm_record_ids m) t,
         mkSummary (retained summary)
           (rejected_inserts summary ++ [mkRejected (cm_entity m) (cm_id m) (cm_scope_id m)]))
      | Keep => (t, mkSummary (Datatypes.S (retained summary)) (rejected_inserts summary))
      end in
    flush_consolidated remove root_entity ms s t summary
  end.
End flush.

(** ** The in-memory queue *)

Record InMemoryOfflineQueue := mkMemQueue {
  mq_rows : list StoredRow;
  mq_root_entity : string;
  mq_flushing : bool;
}.

Definition pending_from_row (row : StoredRow) : PendingMutation :=
  mkPending (row_op row) (row_entity row) (row_entity_id row) (row_scope_id row)
    (row_data row) (row_created_at row).

Module InMemory.

Definition new (root_entity : string) : InMemoryOfflineQueue := mkMemQueue [] root_entity false.

Definition set_rows (q : InMemoryOfflineQueue) (rows : list StoredRow) : InMemoryOfflineQueue :=
  mkMemQueue rows (mq_root_entity q) (mq_flushing q).

Definition set_flushing (q : InMemoryOfflineQueue) (b : bool) : InMemoryOfflineQueue :=
  mkMemQueue (mq_rows q) (mq_root_entity q) b.

Definition queue (q : InMemoryOfflineQueue) (m : PendingMutation) (new_id : string) (now : Z)
    : InMemoryOfflineQueue :=
  set_rows q (mq_rows q ++
    [mkRow new_id (pm_op m) (pm_entity m) (pm_id m) (pm_scope_id m) (pm_data m)
       (if bool_decide (pm_created_at m = 0)%Z then now else pm_created_at m)]).

Definition remove (q : InMemoryOfflineQueue) (entity entity_id scope_id : string) (op : Operation)
    : InMemoryOfflineQueue :=
  set_rows q (filter (λ r, ¬ (row_entity r = entity ∧ row_entity_id r = entity_id ∧
                             row_scope_id r = scope_id ∧ row_op r = op)) (mq_rows q)).

Definition clear (q : InMemoryOfflineQueue) : InMemoryOfflineQueue := set_rows q [].

Definition pending_for_scope (q : InMemoryOfflineQueue) (scope_id : string) : list PendingMutation :=
  pending_from_row <$> filter (λ r, row_scope_id r = scope_id) (mq_rows q).

Definition has_pending_insert (q : InMemoryOfflineQueue) (entity entity_id : string) : bool :=
  existsb (λ r, bool_decide (row_entity r = entity) && bool_decide (row_entity_id r = entity_id)
             && bool_decide (row_op r = Insert)) (mq_rows q).

(** [FlushGuard::try_acquire], and its [Drop]. *)
Definition try_acquire (q : InMemoryOfflineQueue) : option InMemoryOfflineQueue :=
  if mq_flushing q then None else Some (set_flushing q true).

(** [flush] holds no lock while it sends, so other calls run between its
    snapshot and the final [retain]: [sending] is the part without the lock
    and [finish] the part after it, on the queue as it then is. *)
Definition sending {S} {MS : MutationSender S} {HI : HashIter} (root_entity : string)
    (snapshot : list StoredRow) (s : S) : option (S * list string * FlushSummary) :=
  consolidated ← consolidate snapshot;
  Some (flush_consolidated (λ ids t, t ++ ids) root_entity consolidated s [] FlushSummary_default).

Definition finish (q : InMemoryOfflineQueue) (flushed : list string) : InMemoryOfflineQueue :=
  set_flushing (set_rows q (filter (λ r, record_id r ∉ flushed) (mq_rows q))) false.

Definition flush {S} {MS : MutationSender S} {HI : HashIter} (q : InMemoryOfflineQueue) (s : S)
    : option (InMemoryOfflineQueue * S * FlushSummary) :=
  match try_acquire q with
  | None => Some (q, s, FlushSummary_default)
  | Some q =>
    match mq_rows q with
    | [] => Some (set_flushing q false, s, FlushSummary_default)
    | snapshot =>
      '(s, flushed, summary) ← sending (mq_root_entity q) snapshot s;
      Some (finish q flushed, s, summary)
    end
  end.
End InMemory.

(** ** Consolidation, by record *)

Definition cm_key (m : ConsolidatedMutation) : string * string := (cm_entity m, cm_id m).

Definition group_of (rows : list StoredRow) (k : string * string) : list StoredRow :=
  filter (λ r, row_key r = k) rows.

Lemma group_rows_lookup rows k :
  group_rows rows !! k = match group_of rows k with [] => None | l => Some l end.
Proof.
  unfold group_rows, group_of. induction rows as [|r rows IH] using rev_ind; [done|].
  rewrite foldl_app, filter_app. cbn [foldl]. rewrite lookup_insert.
  rewrite (filter_cons _ r), filter_nil. destruct (decide (row_key r = k)) as [<-|Hk].
  - rewrite IH. by destruct (filter _ rows).
  - by rewrite app_nil_r.
Qed.

Lemma created_le_total a b : created_le a b = true ∨ created_le b a = true.
Proof. unfold created_le. repeat case_bool_decide; auto; lia. Qed.

Lemma created_le_trans a b c : created_le a b = true → created_le b c = true → created_le a c = true.
Proof. unfold created_le. repeat case_bool_decide; auto; lia. Qed.

Lemma consolidate_group_some l : l ≠ [] → is_Some (consolidate_group l).
Proof.
  intros Hl. unfold consolidate_group. destruct (sort_by created_le l) as [|r l'] eqn:E; [|by eexists].
  pose proof (sort_by_perm created_le l) as Hp. rewrite E in Hp. by apply Permutation_nil_l in Hp.
Qed.

(** What a consolidated mutation keeps of its group. *)
Lemma consolidate_group_fields l m k :
  consolidate_group l = Some m → (∀ r, r ∈ l → row_key r = k) →
  cm_key m = k ∧ cm_record_ids m ≡ₚ record_id <$> l.
Proof.
  intros Hm Hk. unfold consolidate_group in Hm.
  destruct (sort_by created_le l) as [|r l'] eqn:E; [done|].
  pose proof (sort_by_perm created_le l) as Hp. rewrite E in Hp.
  assert (row_key r = k) as <-. { apply Hk. rewrite <-Hp. left. }
  apply (inj Some) in Hm. rewrite <-Hp. subst m. by repeat case_match.
Qed.

Section consolidate.
Context {HI : HashIter}.

Lemma mapM_groups (gs : list (string * string * list StoredRow)) :
  (∀ k l, (k, l) ∈ gs → l ≠ []) →
  ∃ ms, mapM consolidate_group gs.*2 = Some ms.
Proof.
  intros Hgs. assert (Forall (λ l, is_Some (consolidate_group l)) gs.*2) as H.
  { apply Forall_fmap, Forall_forall. intros [k l] Hkl. apply consolidate_group_some. by eapply Hgs. }
  apply mapM_is_Some in H as [ms Hms]. by exists ms.
Qed.

(** Every key with queued rows gets exactly one mutation, its group's. *)
Lemma consolidate_spec rows : ∃ ms, consolidate rows = Some ms ∧
  NoDup (cm_key <$> ms) ∧
  (∀ k, k ∈ cm_key <$> ms ↔ group_of rows k ≠ []) ∧
  (∀ m, m ∈ ms → consolidate_group (group_of rows (cm_key m)) = Some m).
Proof.
  unfold consolidate. set (gs := hiter (group_rows rows)).
  assert (∀ k l, (k, l) ∈ gs ↔ l ≠ [] ∧ l = group_of rows k) as Hgs.
  { intros k l. unfold gs. rewrite elem_of_hiter, group_rows_lookup.
    destruct (group_of rows k); naive_solver. }
  destruct (mapM_groups gs) as [ms Hms]; [intros k l H; by apply Hgs in H as []|].
  rewrite Hms. exists (sort_by consolidated_le ms). split; [done|].
  pose proof (sort_by_perm consolidated_le ms) as Hp.
  assert (Forall2 (λ kl m, kl.1 = cm_key m ∧ consolidate_group (group_of rows (cm_key m)) = Some m) gs ms) as Hf.
  { apply mapM_Some_1 in Hms. rewrite Forall2_fmap_l in Hms.
    apply Forall2_same_length_lookup. split; [by eapply Forall2_length|].
    intros i [k l] m Hi Hj. pose proof (Forall2_lookup_lr _ _ _ _ _ _ Hms Hi Hj) as Hm. simpl in *.
    apply list_elem_of_lookup_2, Hgs in Hi as [Hl ->].
    destruct (consolidate_group_fields _ _ k Hm) as [Hk _].
    { intros r Hr. by apply list_elem_of_filter in Hr as []. }
    rewrite Hk. done. }
  assert (gs.*1 = cm_key <$> ms) as Hkeys.
  { apply list_eq_Forall2, Forall2_fmap. eapply Forall2_impl; [exact Hf|]. naive_solver. }
  split_and!.
  - rewrite Hp, <-Hkeys. apply NoDup_hiter_fst.
  - intros k. rewrite Hp, <-Hkeys, list_elem_of_fmap. split.
    + intros ([k' l] & -> & Hkl). apply Hgs in Hkl as [? ->]. done.
    + intros Hne. exists (k, group_of rows k). split; [done|]. by apply Hgs.
  - intros m. rewrite Hp. intros Hm. apply list_elem_of_lookup in Hm as [i Hi].
    by destruct (Forall2_lookup_r _ _ _ _ _ Hf Hi) as (kl & _ & _ & ?).
Qed.
End consolidate.

(** ** Replaying the queue, row by row

    The reference: every queued row applied in the order it was made. *)
Definition apply_one (o : option Record_) (r : StoredRow) : option Record_ :=
  match row_op r, row_data r with
  | Insert, Some d => Some d
  | Update, Some d => (λ old, extend old d) <$> o
  | Delete, _ => None
  | _, None => o
  end.

Definition apply_row (t : gmap (string * string) Record_) (r : StoredRow)
    : gmap (string * string) Record_ :=
  partial_alter (λ o, apply_one o r) (row_key r) t.

Definition replay_rows (t : gmap (string * string) Record_) (rows : list StoredRow) :=
  foldl apply_row t (sort_by created_le rows).

Lemma foldl_apply_row_lookup rows t k :
  foldl apply_row t rows !! k = foldl apply_one (t !! k) (group_of rows k).
Proof.
  revert t. induction rows as [|r rows IH]; intros t; [done|].
  unfold group_of in *. cbn [foldl]. rewrite IH, filter_cons. unfold apply_row at 1.
  case_decide as E; subst; [by rewrite lookup_partial_alter_eq|by rewrite lookup_partial_alter_ne].
Qed.

Lemma replay_rows_lookup t rows k :
  replay_rows t rows !! k = foldl apply_one (t !! k) (sort_by created_le (group_of rows k)).
Proof.
  unfold replay_rows. rewrite foldl_apply_row_lookup. unfold group_of.
  by rewrite (sort_by_filter _ created_le_total created_le_trans).
Qed.

(** Histories a client makes of one record: it inserts a record that is not
    there or updates one that is, and deletes it at most once, last. *)
Definition is_update (id : string) (r : StoredRow) : Prop :=
  row_op r = Update ∧ ∃ d, row_data r = Some d ∧ keeps_id id d.
Definition is_insert (id : string) (r : StoredRow) : Prop :=
  row_op r = Insert ∧ ∃ d, row_data r = Some d ∧ get_str d "id" = Some id.

Inductive history (id : string) : option Record_ → list StoredRow → Prop :=
| history_updates old ups : Forall (is_update id) ups → history id (Some old) ups
| history_deleted old ups r : Forall (is_update id) ups → row_op r = Delete →
    history id (Some old) (ups ++ [r])
| history_inserted i ups : is_insert id i → Forall (is_update id) ups → history id None (i :: ups)
| history_dropped i ups r : is_insert id i → Forall (is_update id) ups → row_op r = Delete →
    history id None (i :: ups ++ [r]).

Lemma extend_assoc a b c : extend (extend a b) c = extend a (extend b c).
Proof. unfold extend. apply (assoc_L (∪)). Qed.

Lemma has_op_true op l : has_op op l = true ↔ ∃ r, r ∈ l ∧ row_op r = op.
Proof.
  unfold has_op. rewrite existsb_exists. setoid_rewrite <-list_elem_of_In.
  by setoid_rewrite bool_decide_eq_true.
Qed.

Lemma has_op_app op l k : has_op op (l ++ k) = has_op op l || has_op op k.
Proof. apply existsb_app. Qed.

Lemma has_op_updates op id ups : Forall (is_update id) ups → op ≠ Update → has_op op ups = false.
Proof.
  intros H Hop. apply not_true_iff_false. rewrite has_op_true. intros (r & Hr & E).
  rewrite Forall_forall in H. destruct (H r Hr) as [? _]. congruence.
Qed.

Lemma merge_all_updates id ups old :
  Forall (is_update id) ups →
  foldl apply_one (Some old) ups = Some (extend old (merge_all ups)) ∧
  keeps_id id (merge_all ups).
Proof.
  unfold merge_all. induction ups as [|r ups IH] using rev_ind; intros H.
  { split; [|done]. unfold extend. simpl. by rewrite (left_id_L ∅ (∪)). }
  apply Forall_app in H as [Hu [(Hop & d & Hd & Hid) _]%Forall_cons].
  rewrite !foldl_app. cbn [foldl]. destruct (IH Hu) as [-> Hm]. unfold apply_one.
  rewrite Hop, Hd. simpl. rewrite extend_assoc. split; [done|].
  intros v. unfold extend. rewrite lookup_union. intros E.
  apply union_Some in E as [E|[_ E]]; eauto.
Qed.

Lemma merge_updates_extend id ups start :
  Forall (is_update id) ups → merge_updates start ups = extend start (merge_all ups).
Proof.
  unfold merge_updates, merge_all. induction ups as [|r ups IH] using rev_ind; intros H.
  { unfold extend. simpl. by rewrite (left_id_L ∅ (∪)). }
  apply Forall_app in H as [Hu [(Hop & d & Hd & _) _]%Forall_cons].
  rewrite !foldl_app, IH by done. cbn [foldl]. rewrite Hop, Hd, bool_decide_eq_false_2 by done.
  by rewrite extend_assoc.
Qed.

(** ** A remote that is a table

    What the flush relies on from a reachable broker with no competing
    writers: creates, updates and deletes act on a table, and refer to
    records by id. *)
Class TableSender (S : Type) {MS : MutationSender S} := {
  remote_table : S → gmap (string * string) Record_;
  sender_create s e sc d id : get_str d "id" = Some id → remote_table s !! (e, id) = None →
    ∃ s', sync_create e sc d s = (s', Ok ()) ∧ remote_table s' = <[(e, id) := d]> (remote_table s);
  sender_update s e sc id d old : remote_table s !! (e, id) = Some old →
    ∃ s', sync_update e sc id d s = (s', Ok ()) ∧
          remote_table s' = <[(e, id) := extend old d]> (remote_table s);
  sender_delete s e sc id old : remote_table s !! (e, id) = Some old →
    ∃ s', sync_delete e sc id s = (s', Ok ()) ∧ remote_table s' = delete (e, id) (remote_table s);
  sender_delete_missing s e sc id : remote_table s !! (e, id) = None →
    ∃ s', sync_delete e sc id s = (s', Err (NotFound e id)) ∧ remote_table s' = remote_table s;
}.

(** The four shapes of a consolidated history. *)
Lemma consolidate_history id o g m :
  consolidate_group g = Some m → history id o (sort_by created_le g) →
  match o with
  | Some old =>
      (cm_op m = Delete ∧ foldl apply_one o (sort_by created_le g) = None) ∨
      (cm_op m = Update ∧ ∃ merged, cm_data m = (if bool_decide (size merged = 0) then None else Some merged) ∧
         foldl apply_one o (sort_by created_le g) = Some (extend old merged))
  | None =>
      (cm_op m = Delete ∧ foldl apply_one o (sort_by created_le g) = None) ∨
      (cm_op m = Insert ∧ ∃ d, cm_data m = Some d ∧ get_str d "id" = Some id ∧
         foldl apply_one o (sort_by created_le g) = Some d)
  end.
Proof.
  unfold consolidate_group. intros Hm Hh. revert Hm.
  destruct Hh as [old ups Hu|old ups r Hu Hr|i ups (Hi & d & Hd & Hid) Hu|i ups r (Hi & d & Hd & Hid) Hu Hr].
  - destruct (merge_all_updates id ups old Hu) as [Hf _].
    destruct ups as [|u ups]; [done|].
    rewrite (has_op_updates Insert id), (has_op_updates Delete id) by done.
    intros [= <-]. right. eauto.
  - intros Hm. left. rewrite foldl_app. cbn [foldl]. split.
    2:{ unfold apply_one. rewrite Hr. by destruct (row_data r). }
    revert Hm. destruct (ups ++ [r]) as [|u l] eqn:E; [by destruct ups|]. rewrite <-E, !has_op_app.
    rewrite (has_op_updates Insert id) by done. simpl. rewrite Hr, orb_true_r. simpl. by intros [= <-].
  - intros Hm. right. destruct (merge_all_updates id ups d Hu) as [Hf Hmid].
    revert Hm. simpl. rewrite Hi, (has_op_updates Delete id) by done. simpl.
    rewrite Hd. simpl. rewrite (merge_updates_extend id) by done. intros [= <-]. split; [done|].
    eexists. split_and!; [done| |].
    + by apply get_str_extend.
    + unfold apply_one at 2. rewrite Hi, Hd. done.
  - intros Hm. left. revert Hm. simpl. rewrite Hi, !has_op_app. simpl. rewrite Hr, orb_true_r. simpl.
    intros [= <-]. split; [done|]. rewrite foldl_app. simpl. unfold apply_one at 1. rewrite Hr.
    by destruct (row_data r).
Qed.

Lemma partial_alter_const {K V} `{Countable K} (t : gmap K V) k o :
  t !! k = o → partial_alter (λ _, o) k t = t.
Proof.
  intros Hk. apply map_eq. intros i. destruct (decide (i = k)) as [->|].
  - by rewrite lookup_partial_alter_eq.
  - by rewrite lookup_partial_alter_ne.
Qed.

Section replay.
Context {S : Type} {MS : MutationSender S} {TS : TableSender S} {HI : HashIter}.
Implicit Types s : S.

Definition replayed (rows : list StoredRow) s (k : string * string) : option Record_ :=
  foldl apply_one (remote_table s !! k) (sort_by created_le (group_of rows k)).

(** One consolidated mutation does to the remote what its rows would. *)
Lemma flush_outcome_replays rows root m s :
  consolidate_group (group_of rows (cm_key m)) = Some m →
  history (cm_id m) (remote_table s !! cm_key m) (sort_by created_le (group_of rows (cm_key m))) →
  ∃ s', flush_outcome root m s = (s', Drop) ∧
    remote_table s' = partial_alter (λ _, replayed rows s (cm_key m)) (cm_key m) (remote_table s).
Proof.
  intros Hm Hh. pose proof (consolidate_history _ _ _ _ Hm Hh) as Hc. unfold replayed.
  set (l := sort_by _ _) in *. destruct (remote_table s !! cm_key m) as [old|] eqn:E; unfold flush_outcome, attempt.
  - destruct Hc as [[Hop Hf]|(Hop & merged & Hd & Hf)]; rewrite Hop, Hf.
    + destruct (sender_delete s (cm_entity m) (cm_scope_id m) (cm_id m) old E) as (s' & -> & Ht). by exists s'.
    + rewrite Hd. case_bool_decide as Hz.
      * exists s. split; [done|]. apply map_size_empty_inv in Hz as ->.
        unfold extend. rewrite (left_id_L ∅ (∪)). symmetry. by apply partial_alter_const.
      * by destruct (sender_update s (cm_entity m) (cm_scope_id m) (cm_id m) merged old E) as (s' & -> & Ht); exists s'.
  - destruct Hc as [[Hop Hf]|(Hop & d & Hd & Hid & Hf)]; rewrite Hop, Hf.
    + destruct (sender_delete_missing s (cm_entity m) (cm_scope_id m) (cm_id m) E) as (s' & -> & Ht).
      exists s'. simpl. split; [done|]. rewrite Ht. symmetry.
      by apply partial_alter_const.
    + rewrite Hd. by destruct (sender_create s (cm_entity m) (cm_scope_id m) d (cm_id m) Hid E) as (s' & -> & Ht); exists s'.
Qed.

Lemma flush_consolidated_replays {T} (forget : list string → T → T) rows root ms s (t : T) :
  NoDup (cm_key <$> ms) →
  (∀ m, m ∈ ms → consolidate_group (group_of rows (cm_key m)) = Some m ∧
     history (cm_id m) (remote_table s !! cm_key m) (sort_by created_le (group_of rows (cm_key m)))) →
  ∃ s', flush_consolidated forget root ms s t FlushSummary_default =
          (s', foldl (λ t m, forget (cm_record_ids m) t) t ms, FlushSummary_default) ∧
    ∀ k, remote_table s' !! k =
      if decide (k ∈ cm_key <$> ms) then replayed rows s k else remote_table s !! k.
Proof.
  revert s t. induction ms as [|m ms IH]; intros s t Hnd Hms.
  { by exists s. }
  apply NoDup_cons in Hnd as [Hm Hnd]. destruct (Hms m) as [Hg Hh]; [left|].
  destruct (flush_outcome_replays rows root m s Hg Hh) as (s1 & E1 & T1).
  assert (∀ k, k ≠ cm_key m → remote_table s1 !! k = remote_table s !! k) as Hother.
  { intros k Hk. by rewrite T1, lookup_partial_alter_ne. }
  destruct (IH s1 (forget (cm_record_ids m) t) Hnd) as (s' & E' & T').
  { intros m' Hm'. destruct (Hms m') as [? Hh']; [by right|]. rewrite Hother; [done|].
    intros Heq. apply Hm. rewrite <-Heq. by apply list_elem_of_fmap_2. }
  exists s'. cbn [flush_consolidated]. rewrite E1, E'. split; [done|].
  intros k. rewrite T'. unfold replayed. destruct (decide (k = cm_key m)) as [->|Hk].
  - rewrite (decide_False (P := cm_key m ∈ cm_key <$> ms)) by done. rewrite decide_True by (rewrite fmap_cons; left).
    by rewrite T1, lookup_partial_alter_eq.
  - rewrite Hother by done. apply decide_ext. rewrite fmap_cons, elem_of_cons. naive_solver.
Qed.

Lemma consolidated_row_ids rows m id :
  consolidate_group (group_of rows (cm_key m)) = Some m →
  id ∈ cm_record_ids m ↔ ∃ r, r ∈ rows ∧ row_key r = cm_key m ∧ record_id r = id.
Proof.
  intros Hm. destruct (consolidate_group_fields _ _ (cm_key m) Hm) as [_ ->].
  { intros r Hr. by apply list_elem_of_filter in Hr as []. }
  rewrite list_elem_of_fmap. unfold group_of. setoid_rewrite list_elem_of_filter. naive_solver.
Qed.

Lemma elem_of_forgotten ms (t : list string) id :
  id ∈ foldl (λ t m, t ++ cm_record_ids m) t ms ↔ id ∈ t ∨ ∃ m, m ∈ ms ∧ id ∈ cm_record_ids m.
Proof.
  revert t. induction ms as [|m ms IH]; intros t; simpl; [set_solver|]. rewrite IH. set_solver.
Qed.

(** C33: Flushing the queue equals replaying it. Against a reachable broker
    that is a table nobody else writes meanwhile, when no flush is running and
    every queued history is sensible for the broker's row (it inserts what is
    absent or updates what is present, and deletes last), one flush sends one
    mutation per record, returns an empty summary, leaves the queue empty and
    the broker's table exactly as if every queued row had been applied one by
    one in the order of creation, whatever order the hash map yields the
    groups in. *)
Theorem flush_replays q s :
  mq_flushing q = false →
  (∀ k, group_of (mq_rows q) k ≠ [] →
     history k.2 (remote_table s !! k) (sort_by created_le (group_of (mq_rows q) k))) →
  ∃ q' s', InMemory.flush q s = Some (q', s', FlushSummary_default) ∧
    mq_rows q' = [] ∧ mq_flushing q' = false ∧
    remote_table s' = replay_rows (remote_table s) (mq_rows q).
Proof.
  intros Hf Hh. unfold InMemory.flush, InMemory.try_acquire. rewrite Hf. simpl.
  destruct (mq_rows q) as [|r0 rows0] eqn:Er; [by eexists _, s|]. rewrite <-Er in *. clear Er r0 rows0.
  destruct (consolidate_spec (mq_rows q)) as (ms & Hc & Hnd & Hkeys & Hms).
  destruct (flush_consolidated_replays (λ ids t, t ++ ids) (mq_rows q) (mq_root_entity q) ms s [] Hnd)
    as (s' & E & T).
  { intros m Hm. split; [by apply Hms|]. apply (Hh (cm_key m)), Hkeys. by apply list_elem_of_fmap_2. }
  unfold InMemory.sending. rewrite Hc. cbn [mbind option_bind]. rewrite E. cbn [mbind option_bind].
  eexists _, s'. split; [reflexivity|]. split_and!; [|done|].
  - simpl. apply list_filter_none. intros r Hr Hnot. apply Hnot.
    assert (row_key r ∈ cm_key <$> ms) as (m & Hk & Hm)%list_elem_of_fmap.
    { apply Hkeys. unfold group_of. intros Hnil. eapply not_elem_of_nil. rewrite <-Hnil.
      by apply list_elem_of_filter. }
    apply elem_of_forgotten. right. exists m. split; [done|].
    apply (consolidated_row_ids (mq_rows q)); [by apply Hms|]. eauto.
  - apply map_eq. intros k. rewrite T, replay_rows_lookup. case_decide as Hk; [done|].
    rewrite Hkeys in Hk. apply dec_stable in Hk. by rewrite Hk.
Qed.
End replay.

(** ** What a flush keeps *)

Section keeping.
Context {S : Type} {MS : MutationSender S} {HI : HashIter}.
Implicit Types s : S.

(** The reasons to keep a mutation for the next flush: the broker could not
    be reached, or an insert whose scope the broker does not know yet. *)
Definition held_back (m : ConsolidatedMutation) : Prop :=
  ∃ s s' err,
    (attempt m s = (s', Err err) ∧ (is_transient err = true ∨ (is_not_found err = true ∧ cm_op m = Insert))) ∨
    (read_entity (cm_entity m) (cm_id m) s = (s', Err err) ∧ is_transient err = true) ∨
    (∃ d, (sync_update (cm_entity m) (cm_scope_id m) (cm_id m) d s = (s', Err err) ∨
           sync_create (cm_entity m) (cm_scope_id m) d s = (s', Err err)) ∧ is_transient err = true).

Lemma flush_outcome_Keep root m s s' : flush_outcome root m s = (s', Keep) → held_back m.
Proof.
  unfold flush_outcome, replay_or_reject_insert, recreate, held_back.
  destruct (attempt m s) as [s1 [?|err]] eqn:Ea; [done|].
  destruct (is_transient err) eqn:Et; [naive_solver|]. intros H.
  repeat case_match; simplify_eq; try (eexists _, _, _; right; right; eexists; by eauto);
    try (eexists _, _, _; right; left; by eauto).
  eexists _, _, _. left. split; [done|]. right.
  rewrite !andb_true_iff, !bool_decide_eq_true in *. naive_solver.
Qed.

(** Each mutation with its outcome, in the order they are sent. *)
Fixpoint flush_outcomes (root : string) (ms : list ConsolidatedMutation) s
    : list (ConsolidatedMutation * FlushOutcome) :=
  match ms with
  | [] => []
  | m :: ms => let '(s, o) := flush_outcome root m s in (m, o) :: flush_outcomes root ms s
  end.

Definition rejection (mo : ConsolidatedMutation * FlushOutcome) : RejectedInsert :=
  mkRejected (cm_entity mo.1) (cm_id mo.1) (cm_scope_id mo.1).

Lemma flush_consolidated_outcomes root ms s t sm :
  let os := flush_outcomes root ms s in
  (flush_consolidated (λ ids t, t ++ ids) root ms s t sm).1.2 =
    t ++ (filter (λ mo, mo.2 ≠ Keep) os ≫= λ mo, cm_record_ids mo.1) ∧
  (flush_consolidated (λ ids t, t ++ ids) root ms s t sm).2 =
    mkSummary (retained sm + length (filter (λ mo, mo.2 = Keep) os))
      (rejected_inserts sm ++ (rejection <$> filter (λ mo, mo.2 = DropRejected) os)).
Proof.
  revert s t sm. induction ms as [|m ms IH]; intros s t sm; simpl.
  { rewrite !app_nil_r, Nat.add_0_r. by destruct sm. }
  destruct (flush_outcome root m s) as [s1 o]. rewrite !filter_cons. simpl.
  destruct o; simpl.
  - destruct (IH s1 (t ++ cm_record_ids m) sm) as [-> ->]. by rewrite <-app_assoc.
  - set (sm' := mkSummary _ _). destruct (IH s1 (t ++ cm_record_ids m) sm') as [-> ->].
    simpl. by rewrite <-!app_assoc.
  - set (sm' := mkSummary _ _). destruct (IH s1 t sm') as [-> ->]. simpl. split; [done|]. f_equal. lia.
Qed.

Lemma flush_outcomes_fst root ms s : (flush_outcomes root ms s).*1 = ms.
Proof.
  revert s. induction ms as [|m ms IH]; intros s; simpl; [done|].
  destruct (flush_outcome root m s) as [s1 o]. simpl. by rewrite IH.
Qed.

Lemma flush_outcomes_Keep root ms s m : (m, Keep) ∈ flush_outcomes root ms s → held_back m.
Proof.
  revert s. induction ms as [|m' ms IH]; intros s; simpl; [by intros ?%not_elem_of_nil|].
  destruct (flush_outcome root m' s) as [s1 o] eqn:E. rewrite elem_of_cons. intros [[= <- <-]|H].
  - by eapply flush_outcome_Keep.
  - by eapply IH.
Qed.

Lemma flush_outcomes_rejected root ms s m :
  (m, DropRejected) ∈ flush_outcomes root ms s → cm_op m = Insert.
Proof.
  revert s. induction ms as [|m' ms IH]; intros s; simpl; [by intros ?%not_elem_of_nil|].
  destruct (flush_outcome root m' s) as [s1 o] eqn:E. rewrite elem_of_cons. intros [[= <- <-]|H].
  - revert E. unfold flush_outcome, replay_or_reject_insert, recreate. intros E.
    repeat case_match; simplify_eq; rewrite ?andb_true_iff, ?bool_decide_eq_true in *; naive_solver.
  - by eapply IH.
Qed.

(** Where a queued row finds its outcome, and which ids a flush forgets. *)
Lemma outcome_of root rows ms s r :
  (∀ k, k ∈ cm_key <$> ms ↔ group_of rows k ≠ []) → r ∈ rows →
  ∃ m o, (m, o) ∈ flush_outcomes root ms s ∧ cm_key m = row_key r.
Proof.
  intros Hkeys Hr. assert (row_key r ∈ cm_key <$> (flush_outcomes root ms s).*1) as Hk.
  { rewrite flush_outcomes_fst. apply Hkeys. intros Hnil. eapply not_elem_of_nil. rewrite <-Hnil.
    by apply list_elem_of_filter. }
  apply list_elem_of_fmap in Hk as (m & Hk & ([m' o] & -> & Hmo)%list_elem_of_fmap). eauto.
Qed.

Lemma flushed_ids root rows ms s id :
  (∀ m, m ∈ ms → consolidate_group (group_of rows (cm_key m)) = Some m) →
  id ∈ (filter (λ mo, mo.2 ≠ Keep) (flush_outcomes root ms s) ≫= λ mo, cm_record_ids mo.1) ↔
  ∃ m o r, (m, o) ∈ flush_outcomes root ms s ∧ o ≠ Keep ∧ r ∈ rows ∧ row_key r = cm_key m ∧ record_id r = id.
Proof.
  intros Hms. rewrite list_elem_of_bind.
  assert (∀ m o, (m, o) ∈ flush_outcomes root ms s → consolidate_group (group_of rows (cm_key m)) = Some m) as Hg.
  { intros m o Ho. apply Hms. rewrite <-(flush_outcomes_fst root ms s).
    by apply (list_elem_of_fmap_2 fst _ (m, o)). }
  split.
  - intros ([m o] & Hid & [Ho Hmo]%list_elem_of_filter). simpl in *.
    apply (consolidated_row_ids rows) in Hid as (r & ? & ? & ?); [|by eapply Hg]. eauto 10.
  - intros (m & o & r & Hmo & Ho & Hr & Hk & Hid). exists (m, o). simpl. split.
    + apply (consolidated_row_ids rows); [by eapply Hg|]. eauto.
    + by apply list_elem_of_filter.
Qed.

(** What a flush forgets and what it keeps. For any remote, every record
    with queued rows is tried once and gets one outcome; a mutation is kept
    only when a call for it failed for a transient reason or an insert found
    no scope; the summary counts the kept records and lists the rejected
    inserts; and when the flush ends, on whatever the queue has become in the
    meantime, exactly the rows of the snapshot whose record was not kept are
    gone, so rows queued while it was sending are never lost. *)
Theorem flush_exact root snapshot s q :
  ∃ s' flushed summary os,
    InMemory.sending root snapshot s = Some (s', flushed, summary) ∧
    NoDup (cm_key <$> os.*1) ∧
    (∀ k, k ∈ cm_key <$> os.*1 ↔ group_of snapshot k ≠ []) ∧
    (∀ m, (m, Keep) ∈ os → held_back m) ∧
    (∀ m, (m, DropRejected) ∈ os → cm_op m = Insert) ∧
    retained summary = length (filter (λ mo, mo.2 = Keep) os) ∧
    rejected_inserts summary = rejection <$> filter (λ mo, mo.2 = DropRejected) os ∧
    ∀ r, r ∈ mq_rows (InMemory.finish q flushed) ↔
      r ∈ mq_rows q ∧ ∀ r0, r0 ∈ snapshot → record_id r0 = record_id r →
        ∃ m, (m, Keep) ∈ os ∧ cm_key m = row_key r0.
Proof.
  destruct (consolidate_spec snapshot) as (ms & Hc & Hnd & Hkeys & Hms).
  set (os := flush_outcomes root ms s).
  destruct (flush_consolidated_outcomes root ms s [] FlushSummary_default) as [Hfl Hsm].
  unfold InMemory.sending. rewrite Hc. cbn [mbind option_bind].
  destruct (flush_consolidated _ root ms s [] _) as [[s' flushed] summary]. simpl in Hfl, Hsm. subst.
  eexists s', _, _, os. unfold os. rewrite flush_outcomes_fst. split_and!; try done.
  - intros m. apply flush_outcomes_Keep.
  - intros m. apply flush_outcomes_rejected.
  - intros r. simpl. rewrite list_elem_of_filter. pose proof (flushed_ids root snapshot ms s (record_id r) Hms) as Hids.
    split; [intros [Hnot Hr]; split; [done|]|intros [Hr Hall]; split; [|done]]; rewrite Hids in *.
    + intros r0 Hr0 Hid. destruct (outcome_of root snapshot ms s r0) as (m & o & Hmo & Hk); [done..|].
      exists m. split; [|done]. destruct o; [exfalso; apply Hnot; by eauto 10..|done].
    + intros (m & o & r0 & Hmo & Ho & Hr0 & Hk & Hid). destruct (Hall r0 Hr0 Hid) as (m' & Hm' & Hk').
      apply Ho. assert ((m', Keep) = (m, o)) as [= <- <-]; [|done].
      eapply (NoDup_fmap_inj (cm_key ∘ fst)); [|exact Hm'|exact Hmo|simpl; congruence].
      by rewrite list_fmap_compose, flush_outcomes_fst.
Qed.
End keeping.

(** ** A table as a remote *)

Abbreviation RemoteTable := (gmap (string * string) Record_).

#[export] Instance table_remote : MutationSender RemoteTable := {|
  sync_create e _ d t :=
    match get_str d "id" with
    | Some id => match t !! (e, id) with
                 | Some _ => (t, Err (Conflict e id))
                 | None => (<[(e, id) := d]> t, Ok ())
                 end
    | None => (t, Err (Rejected "record without id"))
    end;
  sync_update e _ id d t :=
    match t !! (e, id) with
    | Some old => (<[(e, id) := extend old d]> t, Ok ())
    | None => (t, Err (NotFound e id))
    end;
  sync_delete e _ id t :=
    match t !! (e, id) with
    | Some _ => (delete (e, id) t, Ok ())
    | None => (t, Err (NotFound e id))
    end;
  read_entity e id t := (t, Ok (t !! (e, id)));
  delete_entity e id t := (delete (e, id) t, Ok ());
|}.

#[export] Program Instance table_remote_laws : TableSender RemoteTable := {| remote_table t := t |}.
Next Obligation. intros t e sc d id Hid Ht. eexists. simpl. by rewrite Hid, Ht. Qed.
Next Obligation. intros t e sc id d old Ht. eexists. simpl. by rewrite Ht. Qed.
Next Obligation. intros t e sc id old Ht. eexists. simpl. by rewrite Ht. Qed.
Next Obligation. intros t e sc id Ht. eexists. simpl. by rewrite Ht. Qed.

Definition ex_record (id status : string) : Record_ := {[ "id" := Str id; "status" := Str status ]}.

Definition ex_row (n : string) (op : Operation) (id : string) (data : option Record_) (at_ : Z) : StoredRow :=
  mkRow n op "task" id "s1" data at_.

Definition ex_queue (rows : list StoredRow) : InMemoryOfflineQueue := mkMemQueue rows "workspace" false.

(** Queued out of order: the update of a task made offline comes first. *)
Definition ex_rows : list StoredRow :=
  [ex_row "r2" Update "t1" (Some {[ "status" := Str "running" ]}) 2;
   ex_row "r1" Insert "t1" (Some (ex_record "t1" "pending")) 1;
   ex_row "r3" Delete "t2" None 3].

Definition ex_remote : RemoteTable := {[ ("task", "t2") := ex_record "t2" "done" ]}.

Lemma ex_history k : group_of ex_rows k ≠ [] →
  history k.2 (ex_remote !! k) (sort_by created_le (group_of ex_rows k)).
Proof.
  intros Hk. destruct (decide (k = ("task", "t1"))) as [->|H1]; [|destruct (decide (k = ("task", "t2"))) as [->|H2]].
  - refine (history_inserted "t1" (ex_row "r1" Insert "t1" _ 1) [ex_row "r2" Update "t1" _ 2] _ _).
    + split; [done|]. eexists. split; [done|]. by vm_compute.
    + constructor; [|constructor]. split; [done|]. eexists. split; [done|]. intros v Hv. by vm_compute in Hv.
  - refine (history_deleted "t2" (ex_record "t2" "done") [] (ex_row "r3" Delete "t2" None 3) _ _); [constructor|done].
  - destruct Hk. apply list_filter_none. unfold ex_rows. intros r Hr Ek. subst k.
    rewrite !elem_of_cons in Hr. destruct Hr as [->|[->|[->|[]%not_elem_of_nil]]]; [by apply H1..|by apply H2].
Qed.

Lemma flush_replays_witness :
  ∃ q' t', InMemory.flush (ex_queue ex_rows) ex_remote = Some (q', t', FlushSummary_default) ∧
    mq_rows q' = [] ∧ mq_flushing q' = false ∧
    t' = replay_rows ex_remote ex_rows ∧
    (t' !! ("task", "t1") ≫= λ r, get_str r "status") = Some "running" ∧
    t' !! ("task", "t2") = None.
Proof.
  destruct (flush_replays (ex_queue ex_rows) ex_remote) as (q' & t' & E & H1 & H2 & H3).
  - reflexivity.
  - exact ex_history.
  - exists q', t'. split; [exact E|]. split; [exact H1|]. split; [exact H2|]. split; [exact H3|].
    change (t' = replay_rows ex_remote ex_rows) in H3. rewrite H3. split; vm_compute; reflexivity.
Defined.

(** A record deleted and created again while offline is lost. The two
    rows consolidate to a delete, so the flush reports that everything was
    sent and the broker ends without the record, where the rows in order
    would leave the new one. *)
Theorem recreated_row_lost :
  let rows := [ex_row "r1" Delete "t2" None 1; ex_row "r2" Insert "t2" (Some (ex_record "t2" "new")) 2] in
  ∃ q' t', InMemory.flush (ex_queue rows) ex_remote = Some (q', t', FlushSummary_default) ∧
    mq_rows q' = [] ∧ t' !! ("task", "t2") = None ∧
    replay_rows ex_remote rows !! ("task", "t2") = Some (ex_record "t2" "new").
Proof. eexists _, _. split; [vm_compute; reflexivity|]. split_and!; vm_compute; reflexivity. Qed.
