(* ===== verification/StorePersistence.v ===== *)
(** * The durable layer of the stitch crate

    Models persistence.rs: records behind a [Db], the mutation bus and the
    switch that suppresses it. The bus is the list of events sent. *)
From S2P Require Import Prelude Json Types Backend.

Record PersistenceLayer (D : Type) := mkLayer {
  pl_db : D;
  pl_bus : list StoreEvent;
  pl_config : StoreConfig;
  pl_suppress : bool;
}.
Arguments mkLayer {D}.
Arguments pl_db {D}.
Arguments pl_bus {D}.
Arguments pl_config {D}.
Arguments pl_suppress {D}.

Module PersistenceLayer.
Section layer.
Context {D : Type} {DB : Db D}.
Implicit Types l : PersistenceLayer D.

Definition set_db l (db : D) : PersistenceLayer D := mkLayer db (pl_bus l) (pl_config l) (pl_suppress l).

Definition on_db {A} (m : action D Error A) : action (PersistenceLayer D) Error A :=
  azoom pl_db (λ db l, set_db l db) m.

Definition open (config : StoreConfig) (opened : result D Error) : result (PersistenceLayer D) Error :=
  let? db := opened in Ok (mkLayer db [] config false).

Definition set_suppress_notifications (b : bool) l : PersistenceLayer D :=
  mkLayer (pl_db l) (pl_bus l) (pl_config l) b.

Definition register_schema (name : string) (def : EntityDefinition) : action (PersistenceLayer D) Error () :=
  on_db (db_register_schema name def).

Definition emit_mutation (event : MutationEvent) : action (PersistenceLayer D) Error () :=
  amodify (λ l, if pl_suppress l then l
                else mkLayer (pl_db l) (pl_bus l ++ [Mutation event]) (pl_config l) (pl_suppress l)).

Definition create (entity : string) (data : Record_) (origin : Origin)
    : action (PersistenceLayer D) Error Record_ :=
  let data := strip_nulls data in
  let! value := on_db (db_create entity (Object data)) in
  let! record := alift (value_to_record value) in
  let id := default "" (get_str record "id") in
  let! config := aget pl_config in
  let scope_id := default "" (resolve_scope config entity record) in
  emit_mutation (mkEvent Insert entity id scope_id (Some record) origin) ;;
  aret record.

Definition read (entity id : string) l : result (option Record_) Error :=
  let? found := db_read entity id (pl_db l) in
  match found with
  | Some value => let? record := value_to_record value in Ok (Some record)
  | None => Ok None
  end.

Definition update (entity id : string) (fields : Record_) (origin : Origin)
    : action (PersistenceLayer D) Error Record_ :=
  let fields := strip_nulls fields in
  let! updated := on_db (db_update entity id (Object fields)) in
  let! record := alift (value_to_record updated) in
  let! config := aget pl_config in
  match resolve_scope config entity record with
  | None => aret record
  | Some scope_id =>
    let id_owned := default id (get_str record "id") in
    emit_mutation (mkEvent Update entity id_owned scope_id (Some record) origin) ;;
    aret record
  end.

Definition delete (entity id : string) (origin : Origin) : action (PersistenceLayer D) Error () :=
  let! existing := λ l, (l, read entity id l) in
  let! config := aget pl_config in
  let scope_id := default "" (existing ≫= resolve_scope config entity) in
  on_db (db_delete entity id) ;;
  emit_mutation (mkEvent Delete entity id scope_id None origin).

Definition list_with_projection (entity : string) (filters : list Filter) (sort : list SortOrder)
    (projection : list string) l : result (list Record_) Error :=
  let? values := db_list entity filters sort projection (pl_db l) in
  collect (value_to_record <$> values).

Definition list (entity : string) (filters : list Filter) (sort : list SortOrder) l
    : result (list Record_) Error :=
  list_with_projection entity filters sort [] l.

Definition list_by_scope (entity scope_id : string) l : result (Datatypes.list Record_) Error :=
  let c := pl_config l in
  let filters :=
    if bool_decide (entity = root_entity (scope c)) || bool_decide (entity ∈ top_level c) then []
    else [mkFilter (scope_field (scope c)) FilterEq (Str scope_id)] in
  list entity filters [] l.

Definition list_root l : result (Datatypes.list Record_) Error :=
  list (root_entity (scope (pl_config l))) [] [] l.

(** [recover]: swap in an empty memory database, then try to reopen ten
    times; [attempts] are the results of [open_persistent_db]. *)
Fixpoint reopen (attempt : nat) (attempts : Datatypes.list (result D Error))
    : option (result D Error) :=
  match attempts with
  | [] => None
  | Ok fresh :: _ => Some (Ok fresh)
  | Err err :: rest => if attempt <? 9 then reopen (Datatypes.S attempt) rest else Some (Err err)
  end.

Definition recover (attempts : Datatypes.list (result D Error)) l
    : option (PersistenceLayer D * result () Error) :=
  match open_memory_db (pl_config l) with
  | Err e => Some (l, Err e)
  | Ok placeholder =>
    let l := set_db l placeholder in
    match reopen 0 attempts with
    | None => None
    | Some (Ok fresh) => Some (set_db l fresh, Ok ())
    | Some (Err err) => Some (l, Err err)
    end
  end.
End layer.
End PersistenceLayer.

(** ** On a healthy database *)

Section laws.
Context {D : Type} {DB : Db D} {DL : DbLaws D}.
Implicit Types l : PersistenceLayer D.

Definition layer_table l : gmap (string * string) Record_ := table (pl_db l).

(** What a call leaves alone besides the table and the bus. *)
Definition same_layer l l' : Prop := pl_config l' = pl_config l ∧ pl_suppress l' = pl_suppress l.

#[export] Instance same_layer_preorder : PreOrder same_layer.
Proof. split; [by split|]. intros l1 l2 l3 [? ?] [? ?]. split; congruence. Qed.

(** The bus after an event. *)
Definition bus_after l (evs : list StoreEvent) : list StoreEvent :=
  pl_bus l ++ (if pl_suppress l then [] else evs).

Lemma emit_mutation_spec l ev :
  post (PersistenceLayer.emit_mutation ev) l (λ l' r, r = Ok () ∧ pl_db l' = pl_db l ∧ same_layer l l' ∧
    pl_bus l' = bus_after l [Mutation ev]).
Proof.
  unfold PersistenceLayer.emit_mutation, bus_after, same_layer. astep.
  destruct (pl_suppress l) eqn:E; simpl; by rewrite ?app_nil_r.
Qed.

Lemma get_id_defaults entity r id : get_str r "id" = Some id → get_str (defaults entity r) "id" = Some id.
Proof. rewrite !get_str_Some. intros H. eapply lookup_weaken; [done|]. apply defaults_incl. Qed.

(** [on_db] of an operation with a known outcome. *)
Lemma on_db_spec {A} (m : action D Error A) l d r Q :
  m (pl_db l) = (d, r) → Q (PersistenceLayer.set_db l d) r → post (PersistenceLayer.on_db m) l Q.
Proof. intros E HQ. apply post_zoom. by eapply post_eq. Qed.

Lemma layer_create l entity data origin id :
  get_str data "id" = Some id →
  let record := defaults entity (strip_nulls data) in
  post (PersistenceLayer.create entity data origin) l (λ l' r, r = Ok record ∧
    layer_table l' = <[(entity, id) := record]> (layer_table l) ∧ same_layer l l' ∧
    ∃ sid, pl_bus l' = bus_after l [Mutation (mkEvent Insert entity id sid (Some record) origin)]).
Proof.
  intros Hid record. rewrite <-get_str_strip in Hid. unfold PersistenceLayer.create. astep.
  destruct (db_create_law (pl_db l) entity (strip_nulls data) id Hid) as (d & E & Ht).
  eapply on_db_spec; [exact E|]. asteps. simpl. asteps. fold record.
  acall emit_mutation_spec. intros l' r (-> & Hdb & Hs & Hbus). asteps.
  split_and!; [done|unfold layer_table; rewrite Hdb; exact Ht|done|].
  assert (get_str record "id" = Some id) as Hrec by by apply get_id_defaults.
  eexists. rewrite Hbus, Hrec. done.
Qed.

Lemma layer_read l entity id : PersistenceLayer.read entity id l = Ok (layer_table l !! (entity, id)).
Proof.
  unfold PersistenceLayer.read, layer_table. rewrite db_read_law. simpl.
  by destruct (table (pl_db l) !! (entity, id)).
Qed.

(** A delete removes the row; deleting a row that is not there is an error
    and changes nothing. *)
Lemma layer_delete l entity id origin :
  post (PersistenceLayer.delete entity id origin) l (λ l' r,
    layer_table l' = delete (entity, id) (layer_table l) ∧ same_layer l l' ∧
    match layer_table l !! (entity, id) with
    | Some _ => r = Ok () ∧
        ∃ sid, pl_bus l' = bus_after l [Mutation (mkEvent Delete entity id sid None origin)]
    | None => r = Err (NotFound entity id) ∧ pl_bus l' = pl_bus l
    end).
Proof.
  unfold PersistenceLayer.delete. astep. eapply post_eq; [by rewrite layer_read|]. asteps.
  destruct (layer_table l !! (entity, id)) as [r0|] eqn:Hr.
  - destruct (db_delete_law (pl_db l) entity id r0 Hr) as (d & E & Ht).
    eapply on_db_spec; [exact E|]. cbv beta iota. acall emit_mutation_spec.
    intros l' r (-> & Hdb & Hs & Hbus).
    split_and!; [unfold layer_table; rewrite Hdb; exact Ht|done..|by eexists].
  - destruct (db_delete_missing (pl_db l) entity id Hr) as (d & E & Ht).
    eapply on_db_spec; [exact E|]. cbv beta iota. split_and!; try done.
    rewrite delete_id by done. done.
Qed.

(** An update merges its fields; of a row that is not there it is an error. *)
Lemma layer_update l entity id fields origin :
  (layer_table l !! (entity, id) = None ∨ keeps_id id fields) →
  post (PersistenceLayer.update entity id fields origin) l (λ l' r, same_layer l l' ∧
    match layer_table l !! (entity, id) with
    | Some old => let record := extend old (strip_nulls fields) in
        r = Ok record ∧ layer_table l' = <[(entity, id) := record]> (layer_table l)
    | None => r = Err (NotFound entity id) ∧ layer_table l' = layer_table l ∧ pl_bus l' = pl_bus l
    end).
Proof.
  intros Hid. unfold PersistenceLayer.update. astep.
  destruct (layer_table l !! (entity, id)) as [old|] eqn:Hr.
  - destruct Hid as [?|Hid]; [done|].
    destruct (db_update_law (pl_db l) entity id old (strip_nulls fields) Hr) as (d & E & Ht).
    { intros v [Hv _]%strip_nulls_lookup. by apply Hid. }
    eapply on_db_spec; [exact E|]. cbv beta iota. asteps. simpl. asteps.
    destruct (resolve_scope _ _ _) as [sid|]; asteps; [|by split_and!].
    acall emit_mutation_spec. intros l' r (-> & Hdb & Hs & _). asteps.
    split_and!; [done..|unfold layer_table; rewrite Hdb; exact Ht].
  - destruct (db_update_missing (pl_db l) entity id (strip_nulls fields) Hr) as (d & E & Ht).
    eapply on_db_spec; [exact E|]. cbv beta iota. by split_and!.
Qed.

Lemma collect_records (rows : list Record_) : collect (value_to_record <$> (Object <$> rows)) = Ok rows.
Proof. apply collect_Ok. by rewrite <-list_fmap_compose. Qed.

Lemma layer_list l entity filters :
  ∃ rows, PersistenceLayer.list entity filters [] l = Ok rows ∧
    rows ≡ₚ filter (λ r, forallb (filter_matches r) filters = true) (rows_of (layer_table l) entity).
Proof.
  unfold PersistenceLayer.list, PersistenceLayer.list_with_projection.
  destruct (db_list_law (pl_db l) entity filters) as (rows & -> & Hp). simpl.
  exists rows. by rewrite collect_records.
Qed.
End laws.
