(* ===== verification/PersistentQueue.v ===== *)
(** * The durable offline queue

    Models [PersistentOfflineQueue] of offline_queue.rs: one row of the
    entity [pending_sync] per queued mutation, tagged with the user that made
    it. Its refinement of the in-memory queue is the round trip through
    those rows. *)
From S2P Require Import Prelude Json Types Backend OfflineQueue StorePersistence.

Definition PENDING_ENTITY : string := "pending_sync".

Record PersistentOfflineQueue (D : Type) := mkPersistentQueue {
  pq_persistence : PersistenceLayer D;
  pq_root_entity : string;
  pq_user : option string;
  pq_flushing : bool;
}.
Arguments mkPersistentQueue {D}.
Arguments pq_persistence {D}.
Arguments pq_root_entity {D}.
Arguments pq_user {D}.
Arguments pq_flushing {D}.

Definition row_from_record (r : Record_) : option StoredRow :=
  record_id ← get_str r "id";
  op ← get_str r "op" ≫= parse_op;
  entity ← get_str r "entity";
  entity_id ← get_str r "entityId";
  scope_id ← get_str r "scopeId";
  let created_at := default 0%Z (get_u64 r "createdAt") in
  let data := r !! "data" ≫= as_object in
  Some (mkRow record_id op entity entity_id scope_id data created_at).

Definition string_field (required : bool) (name : string) : SchemaField := mkField name TString required None.

Definition pending_sync_definition : EntityDefinition :=
  mkEntityDef
    ((string_field true <$> ["id"; "op"; "entity"; "entityId"; "scopeId"; "userId"]) ++
     [mkField "data" TObject false None; mkField "createdAt" TNumber false None])
    ["scopeId"; "entity"].

Definition eq_filter (field value : string) : Filter := mkFilter field FilterEq (Str value).

Module Persistent.
Section queue.
Context {D : Type} {DB : Db D}.
Implicit Types q : PersistentOfflineQueue D.

Definition set_persistence q (l : PersistenceLayer D) : PersistentOfflineQueue D :=
  mkPersistentQueue l (pq_root_entity q) (pq_user q) (pq_flushing q).

Definition set_flushing q (b : bool) : PersistentOfflineQueue D :=
  mkPersistentQueue (pq_persistence q) (pq_root_entity q) (pq_user q) b.

Definition on_persistence {A} (m : action (PersistenceLayer D) Error A)
    : action (PersistentOfflineQueue D) Error A :=
  azoom pq_persistence (λ l q, set_persistence q l) m.

Definition new (persistence : PersistenceLayer D) (root_entity : string)
    : PersistenceLayer D * result (PersistentOfflineQueue D) Error :=
  let '(l, r) := PersistenceLayer.register_schema PENDING_ENTITY pending_sync_definition persistence in
  (l, let? _ := r in Ok (mkPersistentQueue l root_entity None false)).

Definition set_authenticated_user (user : option string) q : PersistentOfflineQueue D :=
  mkPersistentQueue (pq_persistence q) (pq_root_entity q) user (pq_flushing q).

Definition list_rows (filters : list Filter) q : result (list StoredRow) Error :=
  let? records := PersistenceLayer.list PENDING_ENTITY filters [] (pq_persistence q) in
  Ok (omap row_from_record records).

(** The record [queue] stores. *)
Definition pending_record (row_id user : string) (created_at : Z) (m : PendingMutation) : Record_ :=
  let record := <["id" := Str row_id]> ∅ in
  let record := <["op" := Str (op_label (pm_op m))]> record in
  let record := <["entity" := Str (pm_entity m)]> record in
  let record := <["entityId" := Str (pm_id m)]> record in
  let record := <["scopeId" := Str (pm_scope_id m)]> record in
  let record := <["userId" := Str user]> record in
  let record := <["createdAt" := Num (PosInt created_at)]> record in
  match pm_data m with
  | Some data => <["data" := Object data]> record
  | None => record
  end.

Definition queue (m : PendingMutation) (new_id : string) (now : Z)
    : action (PersistentOfflineQueue D) Error () :=
  let! current_user := aget pq_user in
  match current_user with
  | None => aret ()
  | Some user =>
    let created_at := if bool_decide (pm_created_at m = 0)%Z then now else pm_created_at m in
    on_persistence (PersistenceLayer.create PENDING_ENTITY (pending_record new_id user created_at m) Local) ;;
    aret ()
  end.

Definition user_filter q : list Filter :=
  match pq_user q with Some user => [eq_filter "userId" user] | None => [] end.

(** [for row in rows { let _ = self.persistence.delete(...).await; }]. *)
Definition delete_rows (ids : list string) : action (PersistentOfflineQueue D) Error () :=
  afor (λ id, aignore (on_persistence (PersistenceLayer.delete PENDING_ENTITY id Local))) ids.

Definition remove (entity entity_id scope_id : string) (op : Operation)
    : action (PersistentOfflineQueue D) Error () :=
  let! rows := λ q, (q, list_rows ([eq_filter "entity" entity; eq_filter "entityId" entity_id;
                                    eq_filter "scopeId" scope_id; eq_filter "op" (op_label op)] ++
                                   user_filter q) q) in
  delete_rows (record_id <$> rows).

Definition clear : action (PersistentOfflineQueue D) Error () :=
  let! current_user := aget pq_user in
  match current_user with
  | None => aret ()
  | Some user =>
    let! rows := λ q, (q, list_rows [eq_filter "userId" user] q) in
    delete_rows (record_id <$> rows)
  end.

Definition pending_for_scope (scope_id : string) q : result (list PendingMutation) Error :=
  let? rows := list_rows (eq_filter "scopeId" scope_id :: user_filter q) q in
  Ok (pending_from_row <$> rows).

Definition has_pending_insert (entity entity_id : string) q : result bool Error :=
  let? rows := list_rows [eq_filter "entity" entity; eq_filter "entityId" entity_id;
                          eq_filter "op" "insert"] q in
  Ok (negb (bool_decide (rows = []))).

(** The closure [do_flush] hands to the flush loop. *)
Definition forget (ids : list string) (l : PersistenceLayer D) : PersistenceLayer D :=
  foldl (λ l id, (PersistenceLayer.delete PENDING_ENTITY id Local l).1) l ids.

Definition do_flush {S} {MS : MutationSender S} {HI : HashIter} q (s : S)
    : option (PersistentOfflineQueue D * S * result FlushSummary Error) :=
  match pq_user q with
  | None => Some (q, s, Ok FlushSummary_default)
  | Some user =>
    match list_rows [eq_filter "userId" user] q with
    | Err e => Some (q, s, Err e)
    | Ok [] => Some (q, s, Ok FlushSummary_default)
    | Ok rows =>
      consolidated ← consolidate rows;
      let '(s, l, summary) := flush_consolidated forget (pq_root_entity q) consolidated s
                                (pq_persistence q) FlushSummary_default in
      Some (set_persistence q l, s, Ok summary)
    end
  end.

Definition flush {S} {MS : MutationSender S} {HI : HashIter} q (s : S)
    : option (PersistentOfflineQueue D * S * result FlushSummary Error) :=
  if pq_flushing q then Some (q, s, Ok FlushSummary_default) else
  '(q, s, r) ← do_flush (set_flushing q true) s;
  Some (set_flushing q false, s, r).
End queue.
End Persistent.

(** ** Rows of a table under inserts and deletes *)

Section rows.
Implicit Types t : gmap (string * string) Record_.

Lemma rows_of_fresh t e id r : t !! (e, id) = None → rows_of (<[(e, id) := r]> t) e ≡ₚ r :: rows_of t e.
Proof.
  intros Ht. unfold rows_of. rewrite map_to_list_insert by done. by rewrite filter_cons_True.
Qed.

Lemma rows_of_insert_ne t e e' id r : e ≠ e' → rows_of (<[(e, id) := r]> t) e' ≡ₚ rows_of (delete (e, id) t) e'.
Proof.
  intros He. unfold rows_of. rewrite <-insert_delete_eq, map_to_list_insert by apply lookup_delete_eq.
  by rewrite filter_cons_False.
Qed.

(** Every row carries its id, as [table_row] says of a database. *)
Definition rows_named t : Prop := ∀ e id r, t !! (e, id) = Some r → get_str r "id" = Some id.

Lemma elem_of_rows_of t e r : r ∈ rows_of t e ↔ ∃ id, t !! (e, id) = Some r.
Proof.
  unfold rows_of. rewrite list_elem_of_fmap. split.
  - intros ([[e' id] r'] & -> & [He H]%list_elem_of_filter). simpl in *. subst.
    exists id. by apply elem_of_map_to_list.
  - intros [id H]. exists ((e, id), r). split; [done|]. apply list_elem_of_filter.
    split; [done|]. by apply elem_of_map_to_list.
Qed.

Lemma rows_of_delete t e id : rows_named t →
  rows_of (delete (e, id) t) e ≡ₚ filter (λ r, get_str r "id" ≠ Some id) (rows_of t e).
Proof.
  intros Hn. assert (∀ t', t' ⊆ t → t' !! (e, id) = None →
    filter (λ r, get_str r "id" ≠ Some id) (rows_of t' e) = rows_of t' e) as Hall.
  { intros t' Hsub Hnone. apply list_filter_all. intros r [id' Hr]%elem_of_rows_of Heq.
    assert (t !! (e, id') = Some r) as Hr' by (by eapply lookup_weaken).
    rewrite (Hn _ _ _ Hr') in Heq. congruence. }
  destruct (t !! (e, id)) as [r|] eqn:E.
  - rewrite <-(insert_delete_id t (e, id) r) at 2 by done.
    rewrite rows_of_fresh by apply lookup_delete_eq.
    rewrite filter_cons_False; [|by rewrite (Hn _ _ _ E); intros ?].
    rewrite Hall; [done|apply delete_subseteq|apply lookup_delete_eq].
  - rewrite delete_id by done. by rewrite Hall.
Qed.

Lemma rows_named_delete t k : rows_named t → rows_named (delete k t).
Proof. intros Hn e id r [_ H]%lookup_delete_Some. by eapply Hn. Qed.

Lemma rows_of_deletes t e ids : rows_named t →
  rows_of (foldl (λ t id, delete (e, id) t) t ids) e ≡ₚ
  filter (λ r, default "" (get_str r "id") ∉ ids) (rows_of t e).
Proof.
  revert t. induction ids as [|id ids IH]; intros t Hn; simpl.
  { rewrite list_filter_all; [done|]. intros r _. apply not_elem_of_nil. }
  rewrite IH by by apply rows_named_delete. rewrite rows_of_delete by done.
  rewrite list_filter_filter. apply reflexive_eq, list_filter_ext_in.
  intros r Hr. apply elem_of_rows_of in Hr as [id' Hr]. rewrite (Hn _ _ _ Hr). simpl.
  rewrite not_elem_of_cons. naive_solver.
Qed.
End rows.

(** ** The rows of one user *)

Lemma omap_cons_app {A B} (f : A → option B) x l :
  omap f (x :: l) = match f x with Some y => [y] | None => [] end ++ omap f l.
Proof. simpl. by destruct (f x). Qed.

Lemma op_label_parse op : parse_op (op_label op) = Some op.
Proof. by destruct op. Qed.

Lemma parse_op_label label op : parse_op label = Some op → label = op_label op.
Proof. unfold parse_op. intros. split_tests; done. Qed.

(** Round trip: what [queue] stores, [row_from_record] reads back. *)
Lemma pending_roundtrip id user created_at m :
  row_from_record (Persistent.pending_record id user created_at m) =
    Some (mkRow id (pm_op m) (pm_entity m) (pm_id m) (pm_scope_id m) (pm_data m) created_at).
Proof.
  unfold row_from_record, Persistent.pending_record, get_str, get_u64.
  destruct (pm_data m) as [d|]; simplify_map_eq; by rewrite op_label_parse.
Qed.

Lemma pending_record_stored id user created_at m :
  let r := Persistent.pending_record id user created_at m in
  strip_nulls r = r ∧ get_str r "id" = Some id ∧ get_str r "userId" = Some user.
Proof.
  unfold Persistent.pending_record, get_str. split.
  - apply strip_nulls_id. destruct (pm_data m); repeat apply map_Forall_insert_2; try done.
  - destruct (pm_data m) as [d|]; by simplify_map_eq.
Qed.

(** The fields a filter can select on, through the parsed row. *)
Lemma row_filters r row e id sc op :
  row_from_record r = Some row →
  forallb (filter_matches r) [eq_filter "entity" e; eq_filter "entityId" id;
                              eq_filter "scopeId" sc; eq_filter "op" (op_label op)] = true ↔
  row_entity row = e ∧ row_entity_id row = id ∧ row_scope_id row = sc ∧ row_op row = op.
Proof.
  unfold row_from_record. intros Hr. cbn [forallb].
  repeat (rewrite (filter_matches_str r (eq_filter _ _) _ eq_refl)). cbn [filter_field eq_filter].
  destruct (get_str r "id"); [|done]. destruct (get_str r "op") as [label|]; [|done].
  cbn [mbind option_bind] in Hr. destruct (parse_op label) as [o|] eqn:Eo; [|done].
  apply parse_op_label in Eo as ->. cbn [mbind option_bind] in Hr.
  destruct (get_str r "entity"); [|done]. destruct (get_str r "entityId"); [|done].
  destruct (get_str r "scopeId"); [|done]. cbn [mbind option_bind] in Hr. injection Hr as <-. simpl.
  rewrite !andb_true_iff, !bool_decide_eq_true. destruct o, op; naive_solver.
Qed.

Section refine.
Context {D : Type} {DB : Db D} {DL : DbLaws D}.
Implicit Types q : PersistentOfflineQueue D.

(** The schema of the queue declares no default values. *)
Context (no_defaults : ∀ r, defaults (D := D) PENDING_ENTITY r = r).

Definition pending_table q : gmap (string * string) Record_ := layer_table (pq_persistence q).

Definition records_of q (user : string) : list Record_ :=
  filter (λ r, get_str r "userId" = Some user) (rows_of (pending_table q) PENDING_ENTITY).

Definition user_rows q (user : string) : list StoredRow := omap row_from_record (records_of q user).

Lemma pending_named q : rows_named (pending_table q).
Proof. intros e id r H. by apply table_row in H as []. Qed.

Lemma list_rows_spec filters q :
  ∃ rows, Persistent.list_rows filters q = Ok rows ∧
    rows ≡ₚ omap row_from_record (filter (λ r, forallb (filter_matches r) filters = true)
                                    (rows_of (pending_table q) PENDING_ENTITY)).
Proof.
  unfold Persistent.list_rows. destruct (layer_list (pq_persistence q) PENDING_ENTITY filters) as (rs & -> & Hp).
  simpl. eexists. split; [done|]. by rewrite Hp.
Qed.

(** What [delete_rows] does to the table: nothing else changes. *)
Definition same_queue q q' : Prop :=
  pq_root_entity q' = pq_root_entity q ∧ pq_user q' = pq_user q ∧ pq_flushing q' = pq_flushing q.

#[export] Instance same_queue_preorder : PreOrder same_queue.
Proof. split; [intros q; by split_and!|]. intros ? ? ? (? & ? & ?) (? & ? & ?). split_and!; congruence. Qed.

Lemma delete_rows_spec ids q :
  post (Persistent.delete_rows ids) q (λ q' r, r = Ok () ∧ same_queue q q' ∧
    pending_table q' = foldl (λ t id, delete (PENDING_ENTITY, id) t) (pending_table q) ids).
Proof.
  unfold Persistent.delete_rows. eapply post_mono.
  - apply (post_for _ (λ rest q', same_queue q q' ∧
      foldl (λ t id, delete (PENDING_ENTITY, id) t) (pending_table q') rest =
      foldl (λ t id, delete (PENDING_ENTITY, id) t) (pending_table q) ids)); [done|].
    intros id rest q1 [Hs Ht]. asteps. unfold Persistent.on_persistence. asteps.
    acall layer_delete. intros l' r (Hl & _ & _). split; [done|]. split; [done|].
    rewrite <-Ht. unfold pending_table. simpl. by rewrite Hl.
  - intros q' r (-> & Hs & Ht). by split_and!.
Qed.

Lemma user_rows_deletes q q' ids user :
  pending_table q' = foldl (λ t id, delete (PENDING_ENTITY, id) t) (pending_table q) ids →
  user_rows q' user ≡ₚ filter (λ row, record_id row ∉ ids) (user_rows q user).
Proof.
  intros Ht. unfold user_rows, records_of. rewrite Ht, rows_of_deletes by apply pending_named.
  rewrite list_filter_comm. generalize (filter (λ r, get_str r "userId" = Some user) (rows_of (pending_table q) PENDING_ENTITY)).
  intros rs. apply reflexive_eq. induction rs as [|r rs IH]; [done|].
  rewrite filter_cons, omap_cons_app, filter_app, <-IH. destruct (row_from_record r) as [row|] eqn:E.
  - assert (get_str r "id" = Some (record_id row)) as ->.
    { unfold row_from_record in E. destruct (get_str r "id"); [|done]. simpl in E.
      simplify_option_eq. done. }
    rewrite filter_cons, filter_nil. change (default "" (Some ?x)) with x.
    case_decide; [|done]. by rewrite omap_cons_app, E.
  - rewrite filter_nil. case_decide; [|done]. by rewrite omap_cons_app, E.
Qed.

Inductive QueueOp :=
| OpQueue (m : PendingMutation) (new_id : string) (now : Z)
| OpRemove (entity entity_id scope_id : string) (op : Operation)
| OpClear.

Definition persistent_step (o : QueueOp) : action (PersistentOfflineQueue D) Error () :=
  match o with
  | OpQueue m new_id now => Persistent.queue m new_id now
  | OpRemove e id sc op => Persistent.remove e id sc op
  | OpClear => Persistent.clear
  end.

Definition in_memory_step (q : InMemoryOfflineQueue) (o : QueueOp) : InMemoryOfflineQueue :=
  match o with
  | OpQueue m new_id now => InMemory.queue q m new_id now
  | OpRemove e id sc op => InMemory.remove q e id sc op
  | OpClear => InMemory.clear q
  end.

Definition new_ids (o : QueueOp) : list string := match o with OpQueue _ id _ => [id] | _ => [] end.

(** The durable queue of [user] holds the rows of the in-memory one; the
    database decides the order in which it lists them. *)
Definition represents (user : string) q (mq : InMemoryOfflineQueue) : Prop :=
  pq_user q = Some user ∧ user_rows q user ≡ₚ mq_rows mq.

(** What one operation may do beyond that: use the ids it was given, and
    leave the rows of other users and every other entity alone. *)
Definition framed (user : string) (ids : list string) q q' : Prop :=
  (∀ id, pending_table q !! (PENDING_ENTITY, id) = None → id ∉ ids →
         pending_table q' !! (PENDING_ENTITY, id) = None) ∧
  (∀ other, other ≠ user → user_rows q' other ≡ₚ user_rows q other) ∧
  (∀ k, k.1 ≠ PENDING_ENTITY → pending_table q' !! k = pending_table q !! k) ∧
  same_queue q q'.

Lemma queue_step user q mq m id now :
  represents user q mq → pending_table q !! (PENDING_ENTITY, id) = None →
  post (Persistent.queue m id now) q (λ q' r, r = Ok () ∧
    represents user q' (InMemory.queue mq m id now) ∧ framed user [id] q q').
Proof using no_defaults.
  intros [Hu Hrows] Hfresh. unfold Persistent.queue. asteps. rewrite Hu. asteps.
  set (created := if bool_decide _ then _ else _). unfold Persistent.on_persistence. asteps.
  destruct (pending_record_stored id user created m) as (Hs & Hid & Huser).
  acall layer_create; [exact Hid|]. rewrite no_defaults, Hs. intros l' r (-> & Ht & _ & _). asteps.
  set (q' := Persistent.set_persistence q l').
  assert (∀ u, records_of q' u ≡ₚ
    (if decide (user = u) then [Persistent.pending_record id user created m] else []) ++ records_of q u) as Hrec.
  { intros u. unfold records_of, pending_table. simpl. rewrite Ht, rows_of_fresh by done.
    rewrite filter_cons, Huser. destruct (decide (user = u)) as [->|Hne].
    - by rewrite decide_True.
    - rewrite decide_False by congruence. done. }
  split; [done|]. split; [split; [done|]|split; [|split; [|split; [|done]]]].
  - unfold user_rows. rewrite Hrec, decide_True by done. rewrite omap_app. simpl.
    rewrite pending_roundtrip, Permutation_app_comm. fold (user_rows q user). by rewrite Hrows.
  - intros id' Hn Hne. unfold pending_table in *. simpl. rewrite Ht, lookup_insert_ne; [done|]. set_solver.
  - intros u Hne. unfold user_rows. by rewrite Hrec, decide_False by done.
  - intros k Hk. unfold pending_table. simpl. rewrite Ht, lookup_insert_ne; [done|by intros <-].
Qed.

(** A queued row is the record stored under its id. *)
Lemma row_from_record_id r row : row_from_record r = Some row → get_str r "id" = Some (record_id row).
Proof.
  unfold row_from_record. destruct (get_str r "id"); [|done]. simpl. intros. by simplify_option_eq.
Qed.

Lemma user_row q user row :
  row ∈ user_rows q user ↔ ∃ r, pending_table q !! (PENDING_ENTITY, record_id row) = Some r ∧
    row_from_record r = Some row ∧ get_str r "userId" = Some user.
Proof.
  unfold user_rows, records_of. rewrite list_elem_of_omap. split.
  - intros (r & [Hu [id Hr]%elem_of_rows_of]%list_elem_of_filter & Hrow).
    pose proof (row_from_record_id _ _ Hrow) as Hid. rewrite (pending_named q _ _ _ Hr) in Hid.
    simplify_eq. eauto.
  - intros (r & Hr & Hrow & Hu). exists r. split; [|done]. apply list_elem_of_filter. split; [done|].
    apply elem_of_rows_of. eauto.
Qed.

Lemma foldl_delete_None (t : gmap (string * string) Record_) e ids k :
  t !! k = None → foldl (λ t id, delete (e, id) t) t ids !! k = None.
Proof.
  revert t. induction ids as [|id ids IH]; intros t Ht; [done|]. simpl. apply IH.
  by rewrite lookup_delete_None; right.
Qed.

Lemma foldl_delete_other (t : gmap (string * string) Record_) e ids k :
  k.1 ≠ e → foldl (λ t id, delete (e, id) t) t ids !! k = t !! k.
Proof.
  intros Hk. revert t. induction ids as [|id ids IH]; intros t; [done|]. simpl. rewrite IH.
  by rewrite lookup_delete_ne by (by intros <-).
Qed.

(** Deleting rows listed for the user. *)
Lemma listed_delete user q mq rows (P : StoredRow → Prop) `{∀ r, Decision (P r)} :
  represents user q mq →
  (∀ row, row ∈ rows ↔ row ∈ user_rows q user ∧ P row) →
  post (Persistent.delete_rows (record_id <$> rows)) q (λ q' r, r = Ok () ∧
    represents user q' (InMemory.set_rows mq (filter (λ row, ¬ P row) (mq_rows mq))) ∧ framed user [] q q').
Proof.
  intros [Hu Hrows] Hlist. acall delete_rows_spec. intros q' r (-> & (Hr & Hu' & Hfl) & Ht).
  assert (∀ u row, row ∈ user_rows q u → record_id row ∈ record_id <$> rows ↔ u = user ∧ P row) as Hids.
  { intros u row (rec & Hrec & Hparse & Huser)%user_row. rewrite list_elem_of_fmap. split.
    - intros (row' & Hid & [(rec' & Hrec' & Hparse' & Huser')%user_row HP]%Hlist).
      rewrite <-Hid in Hrec'. simplify_eq. done.
    - intros [-> HP]. exists row. split; [done|]. apply Hlist. split; [|done]. apply user_row. eauto. }
  split; [done|]. split; [split; [congruence|]|split; [|split; [|split; [|by split_and!]]]].
  - simpl. rewrite (user_rows_deletes q q' _ user Ht), <-Hrows.
    apply reflexive_eq, list_filter_ext_in. intros row Hrow. rewrite Hids by done. naive_solver.
  - intros id Hid _. rewrite Ht. by apply foldl_delete_None.
  - intros other Hne. rewrite (user_rows_deletes q q' _ other Ht), list_filter_all; [done|].
    intros row Hrow. rewrite Hids by done. naive_solver.
  - intros k Hk. rewrite Ht. by apply foldl_delete_other.
Qed.

(** [list_rows] with filters that include the user's own. *)
Lemma list_rows_user user q filters :
  ∃ rows, Persistent.list_rows (filters ++ [eq_filter "userId" user]) q = Ok rows ∧
    rows ≡ₚ omap row_from_record
      (filter (λ r, forallb (filter_matches r) filters = true) (records_of q user)).
Proof.
  destruct (list_rows_spec (filters ++ [eq_filter "userId" user]) q) as (rows & E & Hp).
  exists rows. split; [done|]. rewrite Hp. unfold records_of. rewrite list_filter_filter.
  apply reflexive_eq. f_equal. apply list_filter_iff. intros r. rewrite forallb_app, andb_true_iff.
  simpl. rewrite andb_true_r. rewrite (filter_matches_str r (eq_filter _ _) _ eq_refl). simpl. by rewrite bool_decide_eq_true.
Qed.

Lemma elem_of_listed user q filters rows row :
  rows ≡ₚ omap row_from_record (filter (λ r, forallb (filter_matches r) filters = true) (records_of q user)) →
  row ∈ rows ↔ ∃ r, pending_table q !! (PENDING_ENTITY, record_id row) = Some r ∧
    row_from_record r = Some row ∧ get_str r "userId" = Some user ∧ forallb (filter_matches r) filters = true.
Proof.
  intros ->. rewrite list_elem_of_omap. split.
  - intros (r & [Hf Hr]%list_elem_of_filter & Hrow).
    assert (row ∈ user_rows q user) as (r' & Hr' & Hrow' & Hu)%user_row by (apply list_elem_of_omap; eauto).
    unfold records_of in Hr. apply list_elem_of_filter in Hr as [_ [id Hid]%elem_of_rows_of].
    pose proof (row_from_record_id _ _ Hrow) as E. rewrite (pending_named q _ _ _ Hid) in E.
    simplify_eq. eauto.
  - intros (r & Hr & Hrow & Hu & Hf). exists r. split; [|done]. apply list_elem_of_filter. split; [done|].
    apply list_elem_of_filter. split; [done|]. apply elem_of_rows_of. eauto.
Qed.

Lemma remove_step user q mq e id sc op :
  represents user q mq →
  post (Persistent.remove e id sc op) q (λ q' r, r = Ok () ∧
    represents user q' (InMemory.remove mq e id sc op) ∧ framed user [] q q').
Proof.
  clear no_defaults. intros Hrep. pose proof Hrep as [Hu _]. unfold Persistent.remove. astep.
  edestruct (list_rows_user user q) as (rows & E & Hp).
  eapply post_eq; [cbv beta; unfold Persistent.user_filter; rewrite Hu, E; reflexivity|]. cbv beta iota.
  eapply listed_delete; [done|]. intros row. rewrite (elem_of_listed user q _ rows row Hp), user_row.
  split.
  - intros (r & Hr & Hrow & Huser & Hf). apply (row_filters r row) in Hf; [|done]. eauto 10.
  - intros [(r & Hr & Hrow & Huser) HP]. exists r. split_and!; [done..|]. by apply (row_filters r row).
Qed.

Lemma clear_step user q mq :
  represents user q mq →
  post (Persistent.clear) q (λ q' r, r = Ok () ∧
    represents user q' (InMemory.clear mq) ∧ framed user [] q q').
Proof.
  clear no_defaults. intros Hrep. pose proof Hrep as [Hu _]. unfold Persistent.clear. asteps. rewrite Hu. astep.
  destruct (list_rows_user user q []) as (rows & E & Hp). cbn [app] in E.
  eapply post_eq; [cbv beta; rewrite E; reflexivity|]. cbv beta iota.
  eapply post_mono; [eapply (listed_delete user q mq rows (λ _, True)); [done|]|].
  - intros row. rewrite (elem_of_listed user q _ rows row Hp), user_row. naive_solver.
  - intros q' r (-> & Hr & Hf). split_and!; try done. unfold InMemory.clear.
    rewrite list_filter_none in Hr by naive_solver. done.
Qed.

Fixpoint persistent_run (ops : list QueueOp) : action (PersistentOfflineQueue D) Error () :=
  match ops with
  | [] => aret ()
  | o :: ops => persistent_step o ;; persistent_run ops
  end.

Lemma framed_trans user ids1 ids2 q1 q2 q3 :
  framed user ids1 q1 q2 → framed user ids2 q2 q3 → framed user (ids1 ++ ids2) q1 q3.
Proof.
  clear no_defaults. intros (H1 & H1' & K1 & S1) (H2 & H2' & K2 & S2). split_and!.
  - intros id Hn Hid. apply H2; [apply H1|]; set_solver.
  - intros u Hu. by rewrite H2', H1'.
  - intros k Hk. by rewrite K2, K1.
  - by etrans.
Qed.

Lemma step_refines user q mq o :
  represents user q mq → (∀ id, id ∈ new_ids o → pending_table q !! (PENDING_ENTITY, id) = None) →
  post (persistent_step o) q (λ q' r, r = Ok () ∧
    represents user q' (in_memory_step mq o) ∧ framed user (new_ids o) q q').
Proof using no_defaults.
  intros Hrep Hfresh. destruct o as [m id now|e id sc op|]; simpl.
  - apply queue_step; [done|]. apply Hfresh. simpl. left.
  - by apply remove_step.
  - by apply clear_step.
Qed.

Lemma pending_for_scope_agrees user q mq sc :
  represents user q mq →
  ∃ pending, Persistent.pending_for_scope sc q = Ok pending ∧ pending ≡ₚ InMemory.pending_for_scope mq sc.
Proof.
  clear no_defaults. intros [Hu Hrows]. unfold Persistent.pending_for_scope, Persistent.user_filter, InMemory.pending_for_scope.
  rewrite Hu. destruct (list_rows_user user q [eq_filter "scopeId" sc]) as (rows & E & Hp).
  cbn [app] in E. rewrite E. simpl. eexists. split; [done|]. rewrite Hp, <-Hrows. unfold user_rows.
  generalize (records_of q user) as rs. intros rs. apply reflexive_eq. f_equal.
  induction rs as [|r rs IH]; [done|]. rewrite filter_cons, omap_cons_app, filter_app, <-IH.
  destruct (row_from_record r) as [row|] eqn:E'.
  - rewrite filter_cons, filter_nil. assert (get_str r "scopeId" = Some (row_scope_id row)) as Hs.
    { unfold row_from_record in E'. destruct (get_str r "scopeId"); simplify_option_eq; done. }
    assert (forallb (filter_matches r) [eq_filter "scopeId" sc] = true ↔ row_scope_id row = sc) as Hiff.
    { simpl. rewrite (filter_matches_str r (eq_filter _ _) _ eq_refl). simpl. rewrite Hs, andb_true_r, bool_decide_eq_true. naive_solver. }
    destruct (decide (forallb _ _ = true)), (decide (row_scope_id row = sc));
      rewrite ?omap_cons_app, ?E'; try done; exfalso; tauto.
  - rewrite filter_nil. case_decide; [|done]. by rewrite omap_cons_app, E'.
Qed.

(** C34: The durable queue is the in-memory queue, kept per user. On a healthy
    database, any sequence of queue, remove and clear calls under one user
    succeeds and leaves that user exactly the rows the in-memory queue would
    hold, every row read back from its stored record; what is pending in a
    scope is listed alike; and no row of another user is touched. *)
Theorem persistent_queue_refines user q mq ops :
  represents user q mq → NoDup (ops ≫= new_ids) →
  (∀ id, id ∈ ops ≫= new_ids → pending_table q !! (PENDING_ENTITY, id) = None) →
  post (persistent_run ops) q (λ q' r, r = Ok () ∧
    represents user q' (foldl in_memory_step mq ops) ∧
    framed user (ops ≫= new_ids) q q' ∧
    ∀ scope_id, ∃ pending, Persistent.pending_for_scope scope_id q' = Ok pending ∧
      pending ≡ₚ InMemory.pending_for_scope (foldl in_memory_step mq ops) scope_id).
Proof using no_defaults.
  intros Hrep Hnd Hfresh.
  cut (post (persistent_run ops) q (λ q' r, r = Ok () ∧
    represents user q' (foldl in_memory_step mq ops) ∧ framed user (ops ≫= new_ids) q q')).
  { intros H. eapply post_mono; [exact H|]. intros q' r (-> & Hr & Hf). split_and!; [done..|].
    intros sc. by apply (pending_for_scope_agrees user). }
  revert q mq Hrep Hnd Hfresh. induction ops as [|o ops IH]; intros q mq Hrep Hnd Hfresh.
  { apply post_ret. by split_and!. }
  cbn [mbind list_bind] in Hnd, Hfresh |- *. apply NoDup_app in Hnd as (_ & Hdisj & Hnd).
  cbn [persistent_run]. astep. eapply post_mono; [apply (step_refines user q mq o Hrep)|].
  { intros id Hid. apply Hfresh. set_solver. }
  intros q1 r (-> & Hrep1 & Hf1). eapply post_mono; [apply (IH q1 (in_memory_step mq o)); [done..|]|].
  - intros id Hid. apply Hf1; [apply Hfresh; set_solver|]. intros Hin. by apply (Hdisj id).
  - intros q2 r (-> & Hrep2 & Hf2). split_and!; [done..|]. by eapply framed_trans.
Qed.
End refine.

(** ** Flushing the durable queue *)

Section flush.
Context {D : Type} {DB : Db D} {DL : DbLaws D}.
Context {S : Type} {MS : MutationSender S} {TS : TableSender S} {HI : HashIter}.
Implicit Types q : PersistentOfflineQueue D.

Lemma forget_table ids (l : PersistenceLayer D) :
  layer_table (Persistent.forget ids l) = foldl (λ t id, delete (PENDING_ENTITY, id) t) (layer_table l) ids.
Proof.
  unfold Persistent.forget. revert l. induction ids as [|id ids IH]; intros l; [done|].
  cbn [foldl]. rewrite IH. destruct (PersistenceLayer.delete PENDING_ENTITY id Local l) as [l' r] eqn:E.
  cbn [fst]. by destruct (post_elim _ _ _ _ _ E (layer_delete l PENDING_ENTITY id Local)) as [-> _].
Qed.

Lemma forget_all_table ms (l : PersistenceLayer D) :
  layer_table (foldl (λ l m, Persistent.forget (cm_record_ids m) l) l ms) =
  foldl (λ t id, delete (PENDING_ENTITY, id) t) (layer_table l) (foldl (λ t m, t ++ cm_record_ids m) [] ms).
Proof.
  cut (∀ acc l, foldl (λ t id, delete (PENDING_ENTITY, id) t) (layer_table l)
      (foldl (λ t m, t ++ cm_record_ids m) acc ms) =
    layer_table (foldl (λ l m, Persistent.forget (cm_record_ids m) l) (Persistent.forget acc l) ms)).
  { intros H. by rewrite (H [] l). }
  induction ms as [|m ms IH]; intros acc l'; simpl; [by rewrite forget_table|]. rewrite IH. f_equal.
  unfold Persistent.forget. by rewrite foldl_app.
Qed.

(** Flushing the durable queue sends the user's own rows. Against a
    reachable broker that is a table and for sensible histories, one flush
    leaves the broker as if the user's queued rows had been applied in order,
    none of them queued any more, and the rows of every other user as they
    were. *)
Theorem persistent_flush_replays q (s : S) user :
  pq_flushing q = false → pq_user q = Some user →
  (∀ rows k, rows ≡ₚ user_rows q user → group_of rows k ≠ [] →
     history k.2 (remote_table s !! k) (sort_by created_le (group_of rows k))) →
  ∃ q' s' rows, Persistent.flush q s = Some (q', s', Ok FlushSummary_default) ∧
    rows ≡ₚ user_rows q user ∧ remote_table s' = replay_rows (remote_table s) rows ∧
    user_rows q' user = [] ∧
    ∀ other, other ≠ user → user_rows q' other ≡ₚ user_rows q other.
Proof.
  intros Hf Hu Hh. unfold Persistent.flush, Persistent.do_flush. rewrite Hf. simpl. rewrite Hu.
  destruct (list_rows_user user (Persistent.set_flushing q true) []) as (rows & E & Hp).
  cbn [app] in E. rewrite E. rewrite list_filter_all in Hp by done.
  change (rows ≡ₚ user_rows q user) in Hp.
  destruct rows as [|r0 rows0] eqn:Er.
  { exists q, s, []. symmetry in Hp. apply Permutation_nil_r in Hp. rewrite Hp. by destruct q; simpl in *; subst. }
  rewrite <-Er in *. clear Er r0 rows0.
  destruct (consolidate_spec rows) as (ms & -> & Hnd & Hkeys & Hms). cbn [mbind option_bind].
  destruct (flush_consolidated_replays Persistent.forget rows (pq_root_entity q) ms s (pq_persistence q) Hnd)
    as (s' & E' & T).
  { intros m Hm. split; [by apply Hms|]. apply (Hh rows (cm_key m) Hp), Hkeys. by apply list_elem_of_fmap_2. }
  simpl. rewrite E'. eexists _, s', rows. split; [reflexivity|]. split; [done|]. split.
  { apply map_eq. intros k. rewrite T, replay_rows_lookup. case_decide as Hk; [done|].
    rewrite Hkeys in Hk. apply dec_stable in Hk. by rewrite Hk. }
  set (q' := Persistent.set_flushing _ false).
  assert (pending_table q' = foldl (λ t id, delete (PENDING_ENTITY, id) t) (pending_table q)
            (foldl (λ t m, t ++ cm_record_ids m) [] ms)) as Ht by apply forget_all_table.
  assert (∀ id, id ∈ foldl (λ t m, t ++ cm_record_ids m) [] ms ↔ ∃ r, r ∈ rows ∧ record_id r = id) as Hids.
  { intros id. rewrite elem_of_forgotten. split.
    - intros [[]%not_elem_of_nil|(m & Hm & (r & ? & _ & ?)%(consolidated_row_ids rows))]; [|by apply Hms]. eauto.
    - intros (r & Hr & <-). right.
      assert (row_key r ∈ cm_key <$> ms) as (m & Hk & Hm)%list_elem_of_fmap.
      { apply Hkeys. intros Hnil. eapply not_elem_of_nil. rewrite <-Hnil. by apply list_elem_of_filter. }
      exists m. split; [done|]. apply (consolidated_row_ids rows); [by apply Hms|]. eauto. }
  split; [|intros other Hne].
  - apply Permutation_nil_r. rewrite (user_rows_deletes q q' _ user Ht), list_filter_none; [done|].
    intros r Hr Hnot. apply Hnot, Hids. exists r. by rewrite Hp.
  - rewrite (user_rows_deletes q q' _ other Ht), list_filter_all; [done|].
    intros r Hr (r' & Hr' & Hid)%Hids. rewrite Hp in Hr'.
    apply user_row in Hr as (x & Hx & _ & ?), Hr' as (x' & Hx' & _ & ?). rewrite Hid in Hx'. congruence.
Qed.
End flush.

(** ** Examples *)

Definition ex_config : StoreConfig := StoreConfig_new (mkScopeConfig "workspace" ["task"] "workspaceId").

Definition ex_pq : PersistentOfflineQueue (NativeDb TableDb) :=
  mkPersistentQueue (mkLayer (mkNative ∅) [] ex_config false) "workspace" (Some "ana") false.

Definition ex_insert : PendingMutation := mkPending Insert "task" "t1" "s1" (Some (ex_record "t1" "pending")) 0.
Definition ex_update : PendingMutation := mkPending Update "task" "t1" "s1" (Some {[ "status" := Str "done" ]}) 0.

Definition ex_ops : list QueueOp :=
  [OpQueue ex_insert "r1" 10; OpQueue ex_update "r2" 11; OpRemove "task" "t1" "s1" Insert].

Lemma persistent_queue_refines_witness :
  (foldl in_memory_step (InMemory.new "workspace") ex_ops).(mq_rows) =
    [ex_row "r2" Update "t1" (Some {[ "status" := Str "done" ]}) 11] ∧
  post (persistent_run ex_ops) ex_pq (λ q' r, r = Ok () ∧
    represents "ana" q' (foldl in_memory_step (InMemory.new "workspace") ex_ops) ∧
    framed "ana" ["r1"; "r2"] ex_pq q' ∧
    ∀ scope_id, ∃ pending, Persistent.pending_for_scope scope_id q' = Ok pending ∧
      pending ≡ₚ InMemory.pending_for_scope (foldl in_memory_step (InMemory.new "workspace") ex_ops) scope_id).
Proof.
  split; [vm_compute; reflexivity|].
  assert (∀ r, defaults (D := NativeDb TableDb) PENDING_ENTITY r = r) as Hdef by reflexivity.
  apply (persistent_queue_refines Hdef "ana" ex_pq (InMemory.new "workspace") ex_ops).
  - split; [reflexivity|]. apply reflexive_eq. vm_compute. reflexivity.
  - simpl. repeat constructor; set_solver.
  - intros id _. reflexivity.
Defined.

Definition ex_pq1 : PersistentOfflineQueue (NativeDb TableDb) := (Persistent.queue ex_insert "r1" 10 ex_pq).1.

Definition ex_empty : RemoteTable := ∅.

Lemma persistent_flush_replays_witness :
  ∃ q' s' rows, Persistent.flush ex_pq1 ex_empty = Some (q', s', Ok FlushSummary_default) ∧
    rows ≡ₚ user_rows ex_pq1 "ana" ∧ remote_table s' = replay_rows (remote_table ex_empty) rows ∧ user_rows q' "ana" = [] ∧
    ∀ other, other ≠ "ana" → user_rows q' other ≡ₚ user_rows ex_pq1 other.
Proof.
  apply (persistent_flush_replays ex_pq1 ex_empty "ana"); [reflexivity..|].
  assert (user_rows ex_pq1 "ana" = [ex_row "r1" Insert "t1" (Some (ex_record "t1" "pending")) 10]) as ->
    by (vm_compute; reflexivity).
  intros rows k ->%Permutation_singleton_r. unfold group_of. rewrite filter_cons, filter_nil.
  case_decide as Hk; [|done]. intros _. rewrite <-Hk.
  refine (history_inserted "t1" (ex_row "r1" Insert "t1" _ 10) [] _ _); [|constructor].
  split; [reflexivity|]. eexists. split; [reflexivity|]. vm_compute. reflexivity.
Defined.
