(* ===== verification/MemoryStore.v ===== *)
(** * The in-memory store

    Models memory_store.rs: records of the loaded scope behind a [Db], the
    event bus with batching, and the version counters callers poll. The bus
    is the list of events sent. *)
From S2P Require Import Prelude Json Types Backend.

Record MemoryStore (D : Type) := mkMemory {
  ms_db : D;
  ms_current_scope : option string;
  ms_bus : list StoreEvent;
  ms_config : StoreConfig;
  ms_depth : Z;
  ms_buffered : gmap (string * string) MutationEvent;
  ms_versions : gmap (string * string) Z;
}.
Arguments mkMemory {D}.
Arguments ms_db {D}.
Arguments ms_current_scope {D}.
Arguments ms_bus {D}.
Arguments ms_config {D}.
Arguments ms_depth {D}.
Arguments ms_buffered {D}.
Arguments ms_versions {D}.

Module MemoryStore.
Section store.
Context {D : Type} {DB : Db D} {HI : HashIter}.
Implicit Types m : MemoryStore D.

Definition set_db m (db : D) : MemoryStore D :=
  mkMemory db (ms_current_scope m) (ms_bus m) (ms_config m) (ms_depth m) (ms_buffered m) (ms_versions m).
Definition set_batch m (depth : Z) (buffered : gmap (string * string) MutationEvent) : MemoryStore D :=
  mkMemory (ms_db m) (ms_current_scope m) (ms_bus m) (ms_config m) depth buffered (ms_versions m).
Definition set_versions m (v : gmap (string * string) Z) : MemoryStore D :=
  mkMemory (ms_db m) (ms_current_scope m) (ms_bus m) (ms_config m) (ms_depth m) (ms_buffered m) v.
Definition send (ev : StoreEvent) m : MemoryStore D :=
  mkMemory (ms_db m) (ms_current_scope m) (ms_bus m ++ [ev]) (ms_config m) (ms_depth m)
    (ms_buffered m) (ms_versions m).
Definition set_scope m (db : D) (s : option string) : MemoryStore D :=
  mkMemory db s (ms_bus m) (ms_config m) (ms_depth m) (ms_buffered m) (ms_versions m).

Definition on_db {A} (a : action D Error A) : action (MemoryStore D) Error A :=
  azoom ms_db (λ db m, set_db m db) a.

Definition new (config : StoreConfig) : result (MemoryStore D) Error :=
  let? db := open_memory_db config in
  Ok (mkMemory db None [] config 0 ∅ ∅).

(** ** Versions *)

Definition version_scope (c : StoreConfig) (entity scope_id : string) : string :=
  if bool_decide (entity ∈ top_level c) then "" else scope_id.

Definition get_version m (scope_id entity : string) : Z :=
  default 0%Z (ms_versions m !! (version_scope (ms_config m) entity scope_id, entity)).

Definition bump_version (scope_id entity : string) m : MemoryStore D :=
  let counter := default 0%Z (ms_versions m !! (scope_id, entity)) in
  set_versions m (<[(scope_id, entity) := u64_wrap (counter + 1)]> (ms_versions m)).

Definition all_scoped_entities (c : StoreConfig) : list string :=
  root_entity (scope c) :: child_entities (scope c) ++ hset_iter (top_level c).

Definition bump_scope_versions (scope_id : string) m : MemoryStore D :=
  foldl (λ m entity, bump_version (version_scope (ms_config m) entity scope_id) entity m) m
    (all_scoped_entities (ms_config m)).

Definition remove_scope_versions (scope_id : string) m : MemoryStore D :=
  set_versions m (filter (λ kv, kv.1.1 ≠ scope_id) (ms_versions m)).

(** ** The bus *)

Definition begin_batch m : MemoryStore D :=
  set_batch m (Z.min (ms_depth m + 1) u32_max) (ms_buffered m).

(** The body of both the drain loop and an unbatched emit. *)
Definition announce (event : MutationEvent) m : MemoryStore D :=
  send (Mutation event)
    (bump_version (version_scope (ms_config m) (ev_entity event) (ev_scope_id event)) (ev_entity event) m).

Definition end_batch m : MemoryStore D :=
  if bool_decide (ms_depth m = 0)%Z then m else
  let m := set_batch m (ms_depth m - 1) (ms_buffered m) in
  if bool_decide (0 < ms_depth m)%Z then m else
  let drained := (hiter (ms_buffered m)).*2 in
  foldl (λ m event, announce event m) (set_batch m (ms_depth m) ∅) drained.

Definition emit_mutation (event : MutationEvent) m : MemoryStore D :=
  if bool_decide (0 < ms_depth m)%Z
  then set_batch m (ms_depth m) (<[(ev_scope_id event, ev_entity event) := event]> (ms_buffered m))
  else announce event m.

(** ** Records *)

Definition list_filters (c : StoreConfig) (entity scope_id : string) : list Filter :=
  if bool_decide (entity = root_entity (scope c)) || bool_decide (entity ∈ top_level c) then []
  else [mkFilter (scope_field (scope c)) FilterEq (Str scope_id)].

(** The scope field a child record is given when it has none. *)
Definition stamp_scope (c : StoreConfig) (entity scope_id : string) (data : Record_) : Record_ :=
  let is_root := bool_decide (entity = root_entity (scope c)) in
  let is_top_level := bool_decide (entity ∈ top_level c) in
  if negb is_root && negb is_top_level && negb (contains_key data (scope_field (scope c)))
  then <[scope_field (scope c) := Str scope_id]> data else data.

Definition create (entity scope_id : string) (data : Record_) (origin : Origin)
    : action (MemoryStore D) Error Record_ :=
  let! c := aget ms_config in
  let data := stamp_scope c entity scope_id (strip_nulls data) in
  let! value := on_db (db_create entity (Object data)) in
  let! record := alift (value_to_record value) in
  let id := default "" (get_str record "id") in
  let resolved_scope := default scope_id (resolve_scope c entity record) in
  amodify (emit_mutation (mkEvent Insert entity id resolved_scope (Some record) origin)) ;;
  aret record.

Definition read (entity id : string) m : result (option Record_) Error :=
  let? found := db_read entity id (ms_db m) in
  match found with
  | Some value => let? record := value_to_record value in Ok (Some record)
  | None => Ok None
  end.

Definition list (entity scope_id : string) m : result (list Record_) Error :=
  let? values := db_list entity (list_filters (ms_config m) entity scope_id) [] [] (ms_db m) in
  collect (value_to_record <$> values).

Definition update (entity id : string) (fields : Record_) (origin : Origin)
    : action (MemoryStore D) Error Record_ :=
  let fields := strip_nulls fields in
  let! updated := on_db (db_update entity id (Object fields)) in
  let! record := alift (value_to_record updated) in
  let! c := aget ms_config in
  match resolve_scope c entity record with
  | None => aret record
  | Some scope_id =>
    let id_owned := default id (get_str record "id") in
    amodify (emit_mutation (mkEvent Update entity id_owned scope_id (Some record) origin)) ;;
    aret record
  end.

Definition delete (entity id : string) (origin : Origin) : action (MemoryStore D) Error () :=
  let! existing := λ m, (m, read entity id m) in
  let! c := aget ms_config in
  let scope_id := default "" (existing ≫= resolve_scope c entity) in
  on_db (db_delete entity id) ;;
  amodify (emit_mutation (mkEvent Delete entity id scope_id None origin)).

(** ** Scopes *)

Definition fill (bundle : ScopeBundle) (root : string) : action D Error () :=
  match bundle_root bundle with
  | Some r => let! _ := db_create root (Object r) in aret ()
  | None => aret ()
  end ;;
  afor (λ '(entity, records),
    afor (λ record, let! _ := db_create entity (Object record) in aret ()) records)
    (bundle_children bundle).

Definition load_scope (scope_id : string) (bundle : ScopeBundle) : action (MemoryStore D) Error () := λ m,
  let c := ms_config m in
  match open_memory_db c with
  | Err e => (m, Err e)
  | Ok fresh =>
    match fill bundle (root_entity (scope c)) fresh with
    | (_, Err e) => (m, Err e)
    | (fresh, Ok _) =>
      let prev := ms_current_scope m in
      let m := set_scope m fresh (Some scope_id) in
      let m := match prev with
               | Some prev =>
                 if bool_decide (prev ≠ scope_id)
                 then send (ScopeCleared prev (all_scoped_entities c)) (remove_scope_versions prev m)
                 else m
               | None => m
               end in
      let m := bump_scope_versions scope_id m in
      (send (ScopeLoaded scope_id (all_scoped_entities c)) m, Ok ())
    end
  end.

Definition clear_scope (scope_id : string) : action (MemoryStore D) Error () := λ m,
  let c := ms_config m in
  match open_memory_db c with
  | Err e => (m, Err e)
  | Ok fresh =>
    let current := if bool_decide (ms_current_scope m = Some scope_id) then None else ms_current_scope m in
    let m := set_scope m fresh current in
    let m := remove_scope_versions scope_id m in
    (send (ScopeCleared scope_id (all_scoped_entities c)) m, Ok ())
  end.
End store.
End MemoryStore.

(** ** Versions count the events sent *)

Inductive MemOp :=
| MCreate (entity scope_id : string) (data : Record_) (origin : Origin)
| MUpdate (entity id : string) (fields : Record_) (origin : Origin)
| MDelete (entity id : string) (origin : Origin)
| MBegin
| MEnd.

Section versions.
Context {D : Type} {DB : Db D} {HI : HashIter}.
Implicit Types m : MemoryStore D.

Definition mem_step m (o : MemOp) : MemoryStore D :=
  match o with
  | MCreate e s d o => (MemoryStore.create e s d o m).1
  | MUpdate e id f o => (MemoryStore.update e id f o m).1
  | MDelete e id o => (MemoryStore.delete e id o m).1
  | MBegin => MemoryStore.begin_batch m
  | MEnd => MemoryStore.end_batch m
  end.

(** The counter an event belongs to. *)
Definition counts_for (c : StoreConfig) (key : string * string) (e : StoreEvent) : bool :=
  match e with
  | Mutation ev => bool_decide ((MemoryStore.version_scope c (ev_entity ev) (ev_scope_id ev), ev_entity ev) = key)
  | _ => false
  end.

Definition count (c : StoreConfig) (key : string * string) (evs : list StoreEvent) : Z :=
  Z.of_nat (length (filter (λ e, counts_for c key e = true) evs)).

Definition version_at m (key : string * string) : Z := default 0%Z (ms_versions m !! key).

(** From [m] to [m'] only events were appended, and each counter moved by
    the number of its events. *)
Definition counted m m' : Prop :=
  ms_config m' = ms_config m ∧ ∃ evs, ms_bus m' = ms_bus m ++ evs ∧
  ∀ key, is_u64 (version_at m key) → is_u64 (version_at m' key) ∧
    version_at m' key = u64_wrap (version_at m key + count (ms_config m) key evs).

Lemma u64_wrap_id z : is_u64 z → u64_wrap z = z.
Proof. unfold is_u64, u64_wrap, u64_max. intros. apply Z.mod_small. lia. Qed.

Lemma u64_wrap_range z : is_u64 (u64_wrap z).
Proof. unfold is_u64, u64_wrap, u64_max. pose proof (Z.mod_pos_bound z (2 ^ 64) ltac:(lia)). lia. Qed.

#[export] Instance counted_preorder : PreOrder counted.
Proof.
  split.
  - intros m. split; [done|]. exists []. rewrite app_nil_r. split; [done|]. intros key Hk.
    split; [done|]. unfold count. simpl. rewrite Z.add_0_r, u64_wrap_id; done.
  - intros m1 m2 m3 [C1 (e1 & B1 & V1)] [C2 (e2 & B2 & V2)]. split; [congruence|].
    exists (e1 ++ e2). rewrite B2, B1, app_assoc. split; [done|]. intros key Hk.
    destruct (V1 key Hk) as [Hk1 E1]. destruct (V2 key Hk1) as [Hk2 E2]. split; [done|].
    rewrite E2, E1, C1. unfold count. rewrite filter_app, length_app, Nat2Z.inj_add.
    unfold u64_wrap. rewrite Z.add_mod_idemp_l by lia. f_equal. lia.
Qed.

(** Moves that touch neither the bus nor the counters. *)
Lemma counted_silent m m' :
  ms_config m' = ms_config m → ms_bus m' = ms_bus m → ms_versions m' = ms_versions m → counted m m'.
Proof.
  intros C B V. split; [done|]. exists []. rewrite app_nil_r. split; [done|]. intros key Hk.
  unfold version_at, count in *. rewrite V. simpl. split; [done|]. by rewrite Z.add_0_r, u64_wrap_id.
Qed.

Lemma counted_announce ev m : counted m (MemoryStore.announce ev m).
Proof.
  split; [done|]. exists [Mutation ev]. split; [done|]. intros key Hk.
  unfold version_at, count, MemoryStore.announce, MemoryStore.bump_version in *. simpl.
  rewrite lookup_insert, filter_cons, filter_nil. unfold counts_for at 1.
  repeat case_decide; repeat case_bool_decide; try done; simpl; subst; try tauto.
  - split; [apply u64_wrap_range|]. done.
  - rewrite Z.add_0_r, u64_wrap_id; done.
Qed.

Lemma counted_emit ev m : counted m (MemoryStore.emit_mutation ev m).
Proof.
  unfold MemoryStore.emit_mutation. case_bool_decide; [by apply counted_silent|apply counted_announce].
Qed.

Lemma counted_announce_all evs m : counted m (foldl (λ m event, MemoryStore.announce event m) m evs).
Proof.
  revert m. induction evs as [|ev evs IH]; intros m; [done|]. simpl. etrans; [apply counted_announce|apply IH].
Qed.

Lemma counted_end m : counted m (MemoryStore.end_batch m).
Proof.
  unfold MemoryStore.end_batch. case_bool_decide; [done|]. case_bool_decide; [by apply counted_silent|].
  etrans; [|apply counted_announce_all]. by apply counted_silent.
Qed.

Lemma counted_on_db {A} (a : action D Error A) m Q :
  (∀ d r, counted m (MemoryStore.set_db m d) → Q (MemoryStore.set_db m d) r) →
  post (MemoryStore.on_db a) m Q.
Proof.
  intros HQ. apply post_zoom. unfold post. destruct (a (ms_db m)) as [d r]. apply HQ. by apply counted_silent.
Qed.

Lemma counted_step m o : counted m (mem_step m o).
Proof.
  assert (∀ m1, counted m m1 → ∀ ev, counted m (MemoryStore.emit_mutation ev m1)) as Hemit.
  { intros m1 H1 ev. etrans; [exact H1|apply counted_emit]. }
  destruct o as [e s d o|e id f o|e id o| |]; simpl; [| | |by apply counted_silent|apply counted_end].
  - change (post (MemoryStore.create e s d o) m (λ m' _, counted m m')).
    unfold MemoryStore.create. asteps. apply counted_on_db. intros db [v|err] Hc; [|done]. asteps.
    destruct (value_to_record v); [|done]. asteps. by apply Hemit.
  - change (post (MemoryStore.update e id f o) m (λ m' _, counted m m')).
    unfold MemoryStore.update. asteps. apply counted_on_db. intros db [v|err] Hc; [|done]. asteps.
    destruct (value_to_record v); [|done]. asteps. destruct (resolve_scope _ _ _); asteps; [|done]. by apply Hemit.
  - change (post (MemoryStore.delete e id o) m (λ m' _, counted m m')).
    unfold MemoryStore.delete. astep. eapply post_eq; [done|]. cbv beta iota.
    destruct (MemoryStore.read e id m) as [x|err]; [|done]. asteps.
    apply counted_on_db. intros db [v|err] Hc; [|done]. asteps. by apply Hemit.
Qed.

Lemma counted_run m ops : counted m (foldl mem_step m ops).
Proof. revert m. induction ops as [|o ops IH]; intros m; [done|]. simpl. etrans; [apply counted_step|apply IH]. Qed.

(** The version of an entity counts its events. Under any writes,
    failing ones included, and any batching, a counter moves by exactly the
    number of events sent for it; so a reader that finds the version it saw
    before has missed no event, short of 2^64 of them. *)
Theorem version_counts_events m ops scope_id entity :
  is_u64 (MemoryStore.get_version m scope_id entity) →
  let m' := foldl mem_step m ops in
  let key := (MemoryStore.version_scope (ms_config m) entity scope_id, entity) in
  ∃ evs, ms_bus m' = ms_bus m ++ evs ∧
    MemoryStore.get_version m' scope_id entity =
      u64_wrap (MemoryStore.get_version m scope_id entity + count (ms_config m) key evs) ∧
    (MemoryStore.get_version m' scope_id entity = MemoryStore.get_version m scope_id entity →
     (count (ms_config m) key evs < 2 ^ 64)%Z → count (ms_config m) key evs = 0%Z).
Proof.
  intros Hv m' key. destruct (counted_run m ops) as [Hc (evs & Hb & Hcount)]. fold m' in Hc, Hb, Hcount.
  exists evs. unfold MemoryStore.get_version in *. rewrite Hc.
  destruct (Hcount key Hv) as [_ E]. split; [done|]. split; [exact E|]. fold key.
  change (default 0%Z (ms_versions m' !! key)) with (version_at m' key). rewrite E.
  change (default 0%Z (ms_versions m !! key)) with (version_at m key).
  change (is_u64 (version_at m key)) in Hv.
  intros Heq Hlt. unfold u64_wrap, is_u64, u64_max, count in *.
  set (n := Z.of_nat _) in *. assert (0 ≤ n)%Z by (unfold n; lia).
  destruct (Z.lt_ge_cases (version_at m key + n) (2 ^ 64)) as [Hs|Hs].
  - rewrite Z.mod_small in Heq by lia. lia.
  - rewrite <-(Z.mod_add _ (-1)) in Heq by lia. rewrite Z.mod_small in Heq by lia. lia.
Qed.
End versions.

(** ** Batching *)

Section batch.
Context {D : Type} {DB : Db D} {HI : HashIter}.
Implicit Types m : MemoryStore D.

Definition is_write (o : MemOp) : bool := match o with MBegin | MEnd => false | _ => true end.

Definition event_key (ev : MutationEvent) : string * string := (ev_scope_id ev, ev_entity ev).

(** The last event of every scope and entity. *)
Definition last_events (evs : list MutationEvent) : gmap (string * string) MutationEvent :=
  foldl (λ b ev, <[event_key ev := ev]> b) ∅ evs.

(** A write changes the database and emits at most one event, both decided
    by the configuration and the database alone. *)
Lemma write_effect c d o : is_write o = true →
  ∃ d' oev, ∀ m, ms_config m = c → ms_db m = d →
    mem_step m o =
      match oev with
      | Some ev => MemoryStore.emit_mutation ev (MemoryStore.set_db m d')
      | None => MemoryStore.set_db m d'
      end.
Proof.
  destruct o as [e s data o|e id f o|e id o| |]; intros Hw; try done; cbn [mem_step];
    unfold MemoryStore.create, MemoryStore.update, MemoryStore.delete, MemoryStore.read,
      MemoryStore.on_db, azoom, abind, aget, alift, amodify, aret.
  - set (data' := MemoryStore.stamp_scope c e s (strip_nulls data)).
    destruct (db_create e (Object data') d) as [d' [v|err]] eqn:E.
    + destruct (value_to_record v) as [r|err] eqn:Ev.
      * eexists d', (Some _). intros m Hc Hd. rewrite Hc, Hd. fold data'. rewrite E, Ev. reflexivity.
      * exists d', None. intros m Hc Hd. rewrite Hc, Hd. fold data'. by rewrite E, Ev.
    + exists d', None. intros m Hc Hd. rewrite Hc, Hd. fold data'. by rewrite E.
  - destruct (db_update e id (Object (strip_nulls f)) d) as [d' [v|err]] eqn:E.
    + destruct (value_to_record v) as [r|err] eqn:Ev.
      * destruct (resolve_scope c e r) as [sc|] eqn:Es.
        -- eexists d', (Some _). intros m Hc Hd. rewrite Hd, E, Ev. simpl. rewrite Hc, Es. reflexivity.
        -- exists d', None. intros m Hc Hd. rewrite Hd, E, Ev. simpl. by rewrite Hc, Es.
      * exists d', None. intros m Hc Hd. by rewrite Hd, E, Ev.
    + exists d', None. intros m Hc Hd. by rewrite Hd, E.
  - destruct (db_read e id d) as [found|err] eqn:Er.
    2:{ exists d, None. intros m Hc Hd. rewrite Hd, Er. simpl. by destruct m; simpl in *; subst. }
    simpl. destruct (match found with Some v => let? record := value_to_record v in Ok (Some record) | None => Ok None end)
      as [x|err] eqn:Ex.
    2:{ exists d, None. intros m Hc Hd. rewrite Hd, Er. simpl. rewrite Ex. by destruct m; simpl in *; subst. }
    destruct (db_delete e id d) as [d' [v|err]] eqn:E.
    + eexists d', (Some _). intros m Hc Hd. rewrite Hd, Er. simpl. rewrite Ex, Hc, E. reflexivity.
    + exists d', None. intros m Hc Hd. rewrite Hd, Er. simpl. by rewrite Ex, E.
Qed.

(** A store outside a batch, and the same store inside one: [evs] were sent
    by the first and are held back by the second. *)
Record shadows m0 (evs : list MutationEvent) m1 m2 : Prop := {
  sh_db : ms_db m2 = ms_db m1;
  sh_config : ms_config m1 = ms_config m0 ∧ ms_config m2 = ms_config m0;
  sh_depth : ms_depth m1 = 0%Z ∧ ms_depth m2 = 1%Z;
  sh_bus : ms_bus m1 = ms_bus m0 ++ (Mutation <$> evs) ∧ ms_bus m2 = ms_bus m0;
  sh_buffered : ms_buffered m2 = last_events evs;
}.

Lemma shadows_step m0 evs m1 m2 o :
  shadows m0 evs m1 m2 → is_write o = true →
  ∃ evs', shadows m0 evs' (mem_step m1 o) (mem_step m2 o).
Proof.
  intros [Hdb [Hc1 Hc2] [Hd1 Hd2] [Hb1 Hb2] Hbuf] Hw.
  destruct (write_effect (ms_config m0) (ms_db m1) o Hw) as (d' & oev & He).
  rewrite !He by done. destruct oev as [ev|].
  - exists (evs ++ [ev]). unfold MemoryStore.emit_mutation. simpl. rewrite Hd1, Hd2. simpl.
    split; simpl; try done; rewrite ?Hd2, ?Hb1, ?Hb2, ?Hbuf.
    + by rewrite fmap_app, app_assoc.
    + unfold last_events. by rewrite foldl_app.
  - exists evs. by split.
Qed.

Lemma announce_all evs m :
  let m' := foldl (λ m event, MemoryStore.announce event m) m evs in
  ms_db m' = ms_db m ∧ ms_depth m' = ms_depth m ∧ ms_buffered m' = ms_buffered m ∧
  ms_bus m' = ms_bus m ++ (Mutation <$> evs).
Proof.
  revert m. induction evs as [|ev evs IH]; intros m; simpl; [by rewrite app_nil_r|].
  destruct (IH (MemoryStore.announce ev m)) as (-> & -> & -> & ->). simpl.
  rewrite <-app_assoc. done.
Qed.

(** A batch is the same writes with the events collapsed. Running any
    writes between the outermost begin and end gives the same records as
    running them directly; nothing is sent before the end, and then, for
    each scope and entity that sent anything, exactly the last of its events,
    in an unspecified order. *)
Theorem batch_collapses m ops :
  ms_depth m = 0%Z → ms_buffered m = ∅ → Forall (λ o, is_write o = true) ops →
  let direct := foldl mem_step m ops in
  let inside := foldl mem_step (MemoryStore.begin_batch m) ops in
  let batched := MemoryStore.end_batch inside in
  ∃ evs sent, ms_bus direct = ms_bus m ++ (Mutation <$> evs) ∧
    ms_bus inside = ms_bus m ∧
    ms_bus batched = ms_bus m ++ (Mutation <$> sent) ∧
    sent ≡ₚ (map_to_list (last_events evs)).*2 ∧
    ms_db batched = ms_db direct ∧ ms_depth batched = 0%Z ∧ ms_buffered batched = ∅.
Proof.
  intros Hd Hbuf Hw direct inside batched.
  assert (∃ evs, shadows m evs direct inside) as [evs [Hdb _ [_ Hd2] [Hb1 Hb2] Hbuf']].
  { unfold direct, inside. assert (shadows m [] m (MemoryStore.begin_batch m)) as H0.
    { split; simpl; rewrite ?Hd, ?app_nil_r; done. }
    revert H0. generalize (@nil MutationEvent) as evs. generalize (MemoryStore.begin_batch m) as m2.
    generalize m at 2 4 as m1. induction Hw as [|o ops Ho Hw IH]; intros m1 m2 evs H0; [by exists evs|].
    simpl. destruct (shadows_step _ _ _ _ o H0 Ho) as [evs' H1]. by apply (IH _ _ evs'). }
  exists evs, (hiter (last_events evs)).*2. split; [done|]. split; [done|].
  unfold batched, MemoryStore.end_batch. rewrite bool_decide_eq_false_2 by lia.
  cbn zeta. simpl. rewrite bool_decide_eq_false_2 by lia.
  match goal with |- context [foldl ?f ?m0 ?l] => destruct (announce_all l m0) as (-> & -> & -> & ->) end.
  simpl. rewrite Hb2, Hbuf', Hd2, Hdb. split_and!; [done| |done..]. by rewrite hiter_perm.
Qed.
End batch.

(** ** On a healthy database *)

Section laws.
Context {D : Type} {DB : Db D} {DL : DbLaws D} {HI : HashIter}.
Implicit Types m : MemoryStore D.

Definition mem_table m : gmap (string * string) Record_ := table (ms_db m).

(** What a write leaves alone besides the table, the bus and the versions. *)
Definition same_memory m m' : Prop :=
  ms_config m' = ms_config m ∧ ms_current_scope m' = ms_current_scope m ∧ ms_depth m' = ms_depth m.

#[export] Instance same_memory_preorder : PreOrder same_memory.
Proof. split; [intros m; by split_and!|]. intros ? ? ? (? & ? & ?) (? & ? & ?). split_and!; congruence. Qed.

Lemma emit_memory ev m :
  ms_db (MemoryStore.emit_mutation ev m) = ms_db m ∧ same_memory m (MemoryStore.emit_mutation ev m).
Proof. unfold MemoryStore.emit_mutation. by case_bool_decide. Qed.

Lemma on_db_memory {A} (a : action D Error A) m d r Q :
  a (ms_db m) = (d, r) → Q (MemoryStore.set_db m d) r → post (MemoryStore.on_db a) m Q.
Proof. intros E HQ. apply post_zoom. by eapply post_eq. Qed.

Lemma get_id_stamped c e sc data id :
  get_str data "id" = Some id → get_str (MemoryStore.stamp_scope c e sc data) "id" = Some id.
Proof.
  intros Hid. unfold MemoryStore.stamp_scope. destruct (contains_key data _) eqn:E.
  - by rewrite andb_false_r.
  - destruct (_ && _); [|done]. rewrite get_str_insert. case_decide as Hk; [|done].
    apply contains_key_false in E. rewrite Hk in E. unfold get_str in Hid. by rewrite E in Hid.
Qed.

Lemma memory_create m e sc data o id :
  get_str data "id" = Some id →
  let record := defaults e (MemoryStore.stamp_scope (ms_config m) e sc (strip_nulls data)) in
  post (MemoryStore.create e sc data o) m (λ m' r, r = Ok record ∧
    mem_table m' = <[(e, id) := record]> (mem_table m) ∧ same_memory m m').
Proof.
  intros Hid record. unfold MemoryStore.create. asteps.
  destruct (db_create_law (ms_db m) e (MemoryStore.stamp_scope (ms_config m) e sc (strip_nulls data)) id)
    as (d & E & Ht); [apply get_id_stamped; by rewrite get_str_strip|].
  eapply on_db_memory; [exact E|]. asteps. cbn [value_to_record]. asteps. fold record.
  match goal with |- context [MemoryStore.emit_mutation ?ev ?m0] =>
    destruct (emit_memory ev m0) as [Hdb Hs] end.
  split_and!; [done| |by etrans; [|exact Hs]]. unfold mem_table. rewrite Hdb. exact Ht.
Qed.

Lemma memory_read m e id : MemoryStore.read e id m = Ok (mem_table m !! (e, id)).
Proof.
  unfold MemoryStore.read, mem_table. rewrite db_read_law. simpl. by destruct (table (ms_db m) !! (e, id)).
Qed.

Lemma memory_update m e id fields o :
  (mem_table m !! (e, id) = None ∨ keeps_id id fields) →
  post (MemoryStore.update e id fields o) m (λ m' r, same_memory m m' ∧
    match mem_table m !! (e, id) with
    | Some old => let record := extend old (strip_nulls fields) in
        r = Ok record ∧ mem_table m' = <[(e, id) := record]> (mem_table m)
    | None => r = Err (NotFound e id) ∧ mem_table m' = mem_table m
    end).
Proof.
  intros Hid. unfold MemoryStore.update. astep. destruct (mem_table m !! (e, id)) as [old|] eqn:Hr.
  - destruct Hid as [?|Hid]; [done|].
    destruct (db_update_law (ms_db m) e id old (strip_nulls fields) Hr) as (d & E & Ht).
    { intros v [Hv _]%strip_nulls_lookup. by apply Hid. }
    eapply on_db_memory; [exact E|]. asteps. cbn [value_to_record]. asteps.
    destruct (resolve_scope _ _ _) as [sid|]; asteps; [|by split_and!].
    match goal with |- context [MemoryStore.emit_mutation ?ev ?m0] =>
      destruct (emit_memory ev m0) as [Hdb Hs] end.
    split_and!; [by etrans; [|exact Hs]|done|]. unfold mem_table. rewrite Hdb. exact Ht.
  - destruct (db_update_missing (ms_db m) e id (strip_nulls fields) Hr) as (d & E & Ht).
    eapply on_db_memory; [exact E|]. cbv beta iota. by split_and!.
Qed.

Lemma memory_delete m e id o :
  post (MemoryStore.delete e id o) m (λ m' r,
    mem_table m' = delete (e, id) (mem_table m) ∧ same_memory m m' ∧
    r = match mem_table m !! (e, id) with Some _ => Ok () | None => Err (NotFound e id) end).
Proof.
  unfold MemoryStore.delete. astep. eapply post_eq; [by rewrite memory_read|]. asteps.
  destruct (mem_table m !! (e, id)) as [r0|] eqn:Hr.
  - destruct (db_delete_law (ms_db m) e id r0 Hr) as (d & E & Ht).
    eapply on_db_memory; [exact E|]. asteps.
    match goal with |- context [MemoryStore.emit_mutation ?ev ?m0] =>
      destruct (emit_memory ev m0) as [Hdb Hs] end.
    split_and!; [unfold mem_table; rewrite Hdb; exact Ht|by etrans; [|exact Hs]|done].
  - destruct (db_delete_missing (ms_db m) e id Hr) as (d & E & Ht).
    eapply on_db_memory; [exact E|]. cbv beta iota. rewrite delete_id by done. by split_and!.
Qed.
End laws.

(** ** Examples *)

Definition ex_scope_config : StoreConfig :=
  StoreConfig_new (mkScopeConfig "workspace" ["task"] "workspaceId").

Definition ex_task (id status : string) : Record_ :=
  {[ "id" := Str id; "workspaceId" := Str "w1"; "status" := Str status ]}.

Definition ex_memory : MemoryStore (NativeDb TableDb) :=
  mkMemory (mkNative ∅) None [] ex_scope_config 0 ∅ ∅.

Definition ex_bundle (status : string) : ScopeBundle := mkBundle None [("task", [ex_task "t1" status])].

Definition ex_writes : list MemOp :=
  [MCreate "task" "w1" (ex_task "t1" "new") Local; MUpdate "task" "t1" {[ "status" := Str "done" ]} Local;
   MUpdate "task" "t9" ∅ Local].

Lemma version_counts_events_witness :
  is_u64 (MemoryStore.get_version ex_memory "w1" "task") ∧
  MemoryStore.get_version (foldl mem_step ex_memory ex_writes) "w1" "task" = 2%Z ∧
  ∃ evs, ms_bus (foldl mem_step ex_memory ex_writes) = ms_bus ex_memory ++ evs ∧
    MemoryStore.get_version (foldl mem_step ex_memory ex_writes) "w1" "task" =
      u64_wrap (0 + count ex_scope_config ("w1", "task") evs) ∧
    (MemoryStore.get_version (foldl mem_step ex_memory ex_writes) "w1" "task" = 0%Z →
     (count ex_scope_config ("w1", "task") evs < 2 ^ 64)%Z → count ex_scope_config ("w1", "task") evs = 0%Z).
Proof.
  assert (is_u64 (MemoryStore.get_version ex_memory "w1" "task")) as H by (split; vm_compute; discriminate).
  split; [exact H|]. split; [vm_compute; reflexivity|].
  exact (version_counts_events ex_memory ex_writes "w1" "task" H).
Defined.

Lemma batch_collapses_witness :
  let direct := foldl mem_step ex_memory ex_writes in
  let inside := foldl mem_step (MemoryStore.begin_batch ex_memory) ex_writes in
  let batched := MemoryStore.end_batch inside in
  length (ms_bus direct) = 2 ∧ length (ms_bus batched) = 1 ∧
  ∃ evs sent, ms_bus direct = ms_bus ex_memory ++ (Mutation <$> evs) ∧
    ms_bus inside = ms_bus ex_memory ∧
    ms_bus batched = ms_bus ex_memory ++ (Mutation <$> sent) ∧
    sent ≡ₚ (map_to_list (last_events evs)).*2 ∧
    ms_db batched = ms_db direct ∧ ms_depth batched = 0%Z ∧ ms_buffered batched = ∅.
Proof.
  intros direct inside batched. split; [vm_compute; reflexivity|]. split; [vm_compute; reflexivity|].
  apply (batch_collapses ex_memory ex_writes); [reflexivity|reflexivity|].
  repeat constructor.
Defined.

(** The statuses of the listed tasks of a scope. *)
Definition statuses (m : MemoryStore (NativeDb TableDb)) : option (list (option string)) :=
  match MemoryStore.list "task" "w1" m with
  | Ok rows => Some ((λ r, get_str r "status") <$> rows)
  | Err _ => None
  end.

(** Versions restart when a scope is left, so they do not name contents.
    Loading a scope, then another, then the first again with different
    records gives the version the first load gave: a caller that refetches
    when the version differs keeps showing the old records. *)
Theorem version_reused :
  let m1 := (MemoryStore.load_scope "w1" (ex_bundle "old") ex_memory).1 in
  let m2 := (MemoryStore.load_scope "w2" (mkBundle None []) m1).1 in
  let m3 := (MemoryStore.load_scope "w1" (ex_bundle "new") m2).1 in
  MemoryStore.get_version m1 "w1" "task" = 1%Z ∧ MemoryStore.get_version m3 "w1" "task" = 1%Z ∧
  ms_current_scope m1 = Some "w1" ∧ ms_current_scope m3 = Some "w1" ∧
  statuses m1 = Some [Some "old"] ∧ statuses m3 = Some [Some "new"].
Proof. vm_compute. done. Qed.
