(* ===== verification/SyncEngine.v ===== *)
(** * The sync engine

    Models sync_engine.rs: request and response over MQTT, the subscriptions
    and their handlers, opening and closing scopes, and the sync and fetch
    calls built on requests. The MQTT client (mqtt_client/mod.rs) and
    [serde_json] are interfaces. Whatever happens while a call awaits is the
    list of [event]s the client reports for it: messages handed to the
    handlers, connection events, and what other tasks that share the engine do
    to its state in the meantime. *)
From Stdlib Require Import Strings.Ascii.
From S2P Require Import Prelude Json Types.

(** ** Strings of topics *)

(** [str::split('/')]. *)
Fixpoint split_slash (s : string) : list string :=
  match s with
  | EmptyString => [""]
  | String a s =>
    if bool_decide (a = "/"%char) then "" :: split_slash s else
    match split_slash s with
    | [] => [String a ""]
    | w :: ws => String a w :: ws
    end
  end.

Fixpoint has_char (c : Ascii.ascii) (s : string) : bool :=
  match s with
  | EmptyString => false
  | String a s => bool_decide (a = c) || has_char c s
  end.

(** [format!("{}/{}", ..)] over a list of parts. *)
Fixpoint join_slash (ws : list string) : string :=
  match ws with
  | [] => ""
  | [w] => w
  | w :: ws => w +:+ "/" +:+ join_slash ws
  end.

(** ** Messages and the MQTT client *)

Record PublishArgs := mkPublish {
  pa_response_topic : string;
  pa_correlation_data : list byte;
  pa_user_properties : list (string * string);
}.

Record IncomingMessage := mkMessage {
  msg_topic : string;
  msg_payload : list byte;
  msg_user_properties : list (string * string);
}.

(** The credentials of [ConnectArgs]; its other fields are copied from the
    configuration. *)
Record ConnectArgs := mkConnect {
  jwt_ticket : option string;
  username : option string;
  password : option string;
}.

(** The closures handed to [subscribe]. *)
Inductive MessageHandler :=
| OnResponse
| OnScope
| OnRootWildcard
| OnTopLevel (entity : string).

(** The steps of another call of [open_scope]: it starts, is subscribed, takes
    its buffer, or fails. *)
Inductive opening := Begun | Subscribed | Taken | Failed.

(** What can happen while a call awaits: a message or a change of the
    connection, and what other tasks do to the engine. *)
Inductive event :=
| Received (h : MessageHandler) (msg : IncomingMessage)
| StatusChanged (status : ConnectionStatus) (auth_failure : bool)
| CleanedUp
| ScopeClosed (scope_id : string)
| ScopeOpening (phase : opening) (scope_id : string).

(** An awaited call of the client: the client after it, what happened
    meanwhile, and its result. *)
Definition awaited (C A : Type) : Type := C → C * list event * result A Error.

(** The trait [MqttClientApi], with the wait for a response, fresh request
    ids and the clock. *)
Class MqttClientApi (C : Type) := {
  mqtt_connect : string → ConnectArgs → awaited C bool;
  mqtt_disconnect : awaited C ();
  mqtt_disconnect_abnormally : awaited C ();
  mqtt_on_connection_event : awaited C ();
  mqtt_publish : string → list byte → PublishArgs → awaited C ();
  mqtt_subscribe : string → MessageHandler → awaited C ();
  mqtt_unsubscribe : string → awaited C ();
  mqtt_wait : Z → awaited C ();
  now_v7 : C → string * C;
  now_millis : C → Z;
}.

(** [serde_json::to_vec] and [from_slice::<Value>]. *)
Class SerdeJson := {
  to_vec : Value → result (list byte) Error;
  from_slice : list byte → result Value Error;
}.

(** ** State *)

Record MutationDelivery := mkDelivery { md_scope_id : string; md_mutation : SyncMutation }.

Record TopLevelPattern := mkPattern { tp_entity : string; tp_pattern : string }.

(** [es_answers] holds what was sent on a oneshot channel whose receiver has
    not taken it yet; [es_invalid_calls] counts the calls of the handler. *)
Record EngineState := mkState {
  es_pending_requests : gset string;
  es_answers : gmap string (result Value Error);
  es_subscribed_scopes : gset string;
  es_awaiting_state : gset string;
  es_buffered : gmap string (list SyncMutation);
  es_applied_version : gmap string Z;
  es_mutation_bus : list MutationDelivery;
  es_connection_status : list ConnectionStatus;
  es_session_invalid : bool;
  es_invalid_calls : nat;
  es_client_id : string;
  es_prefix : string;
  es_response_prefix : string;
  es_root_entity : string;
  es_top_level_patterns : list TopLevelPattern;
}.

Definition set_requests (p : gset string) (a : gmap string (result Value Error)) (s : EngineState) : EngineState :=
  mkState p a (es_subscribed_scopes s) (es_awaiting_state s) (es_buffered s) (es_applied_version s)
    (es_mutation_bus s) (es_connection_status s) (es_session_invalid s) (es_invalid_calls s)
    (es_client_id s) (es_prefix s) (es_response_prefix s) (es_root_entity s) (es_top_level_patterns s).
Definition set_scopes (sub aw : gset string) (b : gmap string (list SyncMutation)) (s : EngineState) : EngineState :=
  mkState (es_pending_requests s) (es_answers s) sub aw b (es_applied_version s)
    (es_mutation_bus s) (es_connection_status s) (es_session_invalid s) (es_invalid_calls s)
    (es_client_id s) (es_prefix s) (es_response_prefix s) (es_root_entity s) (es_top_level_patterns s).
Definition set_applied (v : gmap string Z) (s : EngineState) : EngineState :=
  mkState (es_pending_requests s) (es_answers s) (es_subscribed_scopes s) (es_awaiting_state s)
    (es_buffered s) v (es_mutation_bus s) (es_connection_status s) (es_session_invalid s) (es_invalid_calls s)
    (es_client_id s) (es_prefix s) (es_response_prefix s) (es_root_entity s) (es_top_level_patterns s).
Definition set_bus (b : list MutationDelivery) (s : EngineState) : EngineState :=
  mkState (es_pending_requests s) (es_answers s) (es_subscribed_scopes s) (es_awaiting_state s)
    (es_buffered s) (es_applied_version s) b (es_connection_status s) (es_session_invalid s) (es_invalid_calls s)
    (es_client_id s) (es_prefix s) (es_response_prefix s) (es_root_entity s) (es_top_level_patterns s).
Definition set_status (st : list ConnectionStatus) (invalid : bool) (calls : nat) (s : EngineState) : EngineState :=
  mkState (es_pending_requests s) (es_answers s) (es_subscribed_scopes s) (es_awaiting_state s)
    (es_buffered s) (es_applied_version s) (es_mutation_bus s) st invalid calls
    (es_client_id s) (es_prefix s) (es_response_prefix s) (es_root_entity s) (es_top_level_patterns s).

(** ** Reading messages and responses *)

Definition ORIGIN_USER_PROPERTY : string := "x-origin-client-id".
Definition DEFAULT_REQUEST_TIMEOUT : Z := 10000.

(** [payload.get(k)], which is [None] unless the payload is an object. *)
Definition value_get (v : Value) (k : string) : option Value := as_object v ≫= λ m, m !! k.

Definition own_user_property (s : EngineState) (msg : IncomingMessage) : bool :=
  existsb (λ '(k, v), bool_decide (k = ORIGIN_USER_PROPERTY) && bool_decide (v = es_client_id s))
    (msg_user_properties msg).

Definition sender_is_self (client_id : string) (payload : Value) : bool :=
  bool_decide (value_get payload "sender" ≫= as_str = Some client_id) ||
  bool_decide (value_get payload "client_id" ≫= as_str = Some client_id).

Record ScopedTopic := mkTopic { st_scope_id : string; st_entity : string; st_event_type : string }.

Definition parse_scoped_topic (prefix root_entity topic : string) : option ScopedTopic :=
  let head := prefix +:+ "/" +:+ root_entity +:+ "/" in
  rest ← strip_prefix head topic;
  match split_slash rest with
  | [scope_id; events; event_type] =>
    if bool_decide (events = "events") then Some (mkTopic scope_id root_entity event_type) else None
  | [scope_id; entity; events; event_type] =>
    if bool_decide (events = "events") then Some (mkTopic scope_id entity event_type) else None
  | _ => None
  end.

Definition build_mutation (entity : string) (op : Operation) (payload : Value) : option SyncMutation :=
  obj ← as_object payload;
  id ← get_str obj "id";
  let data := obj !! "data" ≫= as_object in
  Some (mkSync op entity id data (get_str obj "operation_id")).

Definition topic_op (event_type : string) : option Operation :=
  if bool_decide (event_type = "created") then Some Insert else
  if bool_decide (event_type = "updated") then Some Update else
  if bool_decide (event_type = "deleted") then Some Delete else None.

Definition payload_op (s : string) : option Operation :=
  if bool_decide (s = "Create") then Some Insert else
  if bool_decide (s = "Update") then Some Update else
  if bool_decide (s = "Delete") then Some Delete else None.

Definition non_empty (o : option string) : option string :=
  s ← o; if bool_decide (s = "") then None else Some s.

Definition check_response (response : Record_) (entity id : string) : result () Error :=
  if negb (bool_decide (get_str response "status" = Some "error")) then Ok () else
  let code := default 0%Z (response !! "code" ≫= as_i64) in
  let message := default "operation failed" (get_str response "message") in
  let entity := default entity (non_empty (get_str response "entity")) in
  let id := default id (non_empty (get_str response "id")) in
  Err (
    if bool_decide (code = 400)%Z then Rejected message else
    if bool_decide (code = 401)%Z then SessionInvalid else
    if bool_decide (code = 403)%Z then Ownership entity id else
    if bool_decide (code = 404)%Z then NotFound entity id else
    if bool_decide (code = 409)%Z then Conflict entity id else
    if bool_decide (code = 412)%Z then PreconditionFailed entity id else
    Mqtt message).

Definition extract_id (response : Record_) : result string Error :=
  match response !! "data" with
  | Some (Object obj) => ok_or (get_str obj "id") (Mqtt "response missing data.id")
  | _ => Err (Mqtt "response missing data object")
  end.

Definition extract_version (response : Record_) : result Z Error :=
  ok_or ((response !! "data" ≫= as_object) ≫= λ obj, get_u64 obj "_version")
    (Mqtt "response missing data._version").

Section handlers.
Context {SJ : SerdeJson}.

(** ** The handlers *)

Definition handle_response (msg : IncomingMessage) (s : EngineState) : EngineState :=
  let expected := es_response_prefix s +:+ "/" +:+ es_client_id s +:+ "/" in
  match strip_prefix expected (msg_topic msg) with
  | None => s
  | Some request_id =>
    if bool_decide (request_id ∈ es_pending_requests s) then
      set_requests (es_pending_requests s ∖ {[request_id]})
        (<[request_id := from_slice (msg_payload msg)]> (es_answers s)) s
    else s
  end.

Definition send_mutation (d : MutationDelivery) (s : EngineState) : EngineState :=
  set_bus (es_mutation_bus s ++ [d]) s.

Definition handle_scope_message (msg : IncomingMessage) (s : EngineState) : EngineState :=
  let is_own_origin := own_user_property s msg in
  match parse_scoped_topic (es_prefix s) (es_root_entity s) (msg_topic msg) with
  | None => s
  | Some parsed =>
    match topic_op (st_event_type parsed) with
    | None => s
    | Some event_op =>
      match from_slice (msg_payload msg) with
      | Err _ => s
      | Ok payload =>
        let is_own := is_own_origin || sender_is_self (es_client_id s) payload in
        match build_mutation (st_entity parsed) event_op payload with
        | None => s
        | Some mutation =>
          let scope_id := st_scope_id parsed in
          let awaiting := bool_decide (scope_id ∈ es_awaiting_state s) in
          match awaiting, es_buffered s !! scope_id with
          | true, Some list =>
            set_scopes (es_subscribed_scopes s) (es_awaiting_state s)
              (<[scope_id := list ++ [mutation]]> (es_buffered s)) s
          | _, _ => if is_own then s else send_mutation (mkDelivery scope_id mutation) s
          end
        end
      end
    end
  end.

Definition handle_root_wildcard_message (msg : IncomingMessage) (s : EngineState) : EngineState :=
  if own_user_property s msg then s else
  match parse_scoped_topic (es_prefix s) (es_root_entity s) (msg_topic msg) with
  | None => s
  | Some parsed =>
    if negb (bool_decide (st_entity parsed = es_root_entity s)) then s else
    if bool_decide (st_scope_id parsed ∈ es_subscribed_scopes s) then s else
    match topic_op (st_event_type parsed) with
    | None => s
    | Some event_op =>
      match from_slice (msg_payload msg) with
      | Err _ => s
      | Ok payload =>
        if sender_is_self (es_client_id s) payload then s else
        match build_mutation (st_entity parsed) event_op payload with
        | None => s
        | Some mutation => send_mutation (mkDelivery (st_scope_id parsed) mutation) s
        end
      end
    end
  end.

Definition handle_top_level_message (entity : string) (msg : IncomingMessage) (s : EngineState) : EngineState :=
  if own_user_property s msg then s else
  match from_slice (msg_payload msg) with
  | Err _ => s
  | Ok payload =>
    if sender_is_self (es_client_id s) payload then s else
    match (value_get payload "operation" ≫= as_str) ≫= payload_op with
    | None => s
    | Some event_op =>
      match build_mutation entity event_op payload with
      | None => s
      | Some mutation => send_mutation (mkDelivery "" mutation) s
      end
    end
  end.

Definition run_handler (h : MessageHandler) (msg : IncomingMessage) : EngineState → EngineState :=
  match h with
  | OnResponse => handle_response msg
  | OnScope => handle_scope_message msg
  | OnRootWildcard => handle_root_wildcard_message msg
  | OnTopLevel entity => handle_top_level_message entity msg
  end.

(** The closure of [wire_connection_events]. *)
Definition connection_event (status : ConnectionStatus) (auth_failure : bool) (s : EngineState) : EngineState :=
  set_status (es_connection_status s ++ [status]) (es_session_invalid s)
    (if auth_failure && es_session_invalid s then S (es_invalid_calls s) else es_invalid_calls s) s.

Definition cleanup_on_disconnect (s : EngineState) : EngineState :=
  let s := set_applied ∅ (set_scopes ∅ ∅ ∅ s) in
  set_requests ∅ (gset_to_gmap (Err ConnectionClosed) (es_pending_requests s) ∪ es_answers s) s.

(** What [close_scope] does to the state, before it unsubscribes. *)
Definition forget_scope (scope_id : string) (s : EngineState) : EngineState :=
  set_applied (delete scope_id (es_applied_version s))
    (set_scopes (es_subscribed_scopes s ∖ {[scope_id]}) (es_awaiting_state s ∖ {[scope_id]})
       (delete scope_id (es_buffered s)) s).

(** What a step of another [open_scope] changes. *)
Definition opening_step (phase : opening) (scope_id : string) (s : EngineState) : EngineState :=
  match phase with
  | Begun => set_scopes (es_subscribed_scopes s) (es_awaiting_state s ∪ {[scope_id]}) (<[scope_id := []]> (es_buffered s)) s
  | Subscribed => set_scopes (es_subscribed_scopes s ∪ {[scope_id]}) (es_awaiting_state s) (es_buffered s) s
  | Taken => set_scopes (es_subscribed_scopes s) (es_awaiting_state s ∖ {[scope_id]}) (delete scope_id (es_buffered s)) s
  | Failed => set_scopes (es_subscribed_scopes s ∖ {[scope_id]}) (es_awaiting_state s ∖ {[scope_id]}) (delete scope_id (es_buffered s)) s
  end.

Definition on_event (s : EngineState) (ev : event) : EngineState :=
  match ev with
  | Received h msg => run_handler h msg s
  | StatusChanged status auth_failure => connection_event status auth_failure s
  | CleanedUp => cleanup_on_disconnect s
  | ScopeClosed scope_id => forget_scope scope_id s
  | ScopeOpening phase scope_id => opening_step phase scope_id s
  end.

Definition set_session_invalid_handler (s : EngineState) : EngineState :=
  set_status (es_connection_status s) true (es_invalid_calls s) s.
Definition clear_session_invalid_handler (s : EngineState) : EngineState :=
  set_status (es_connection_status s) false (es_invalid_calls s) s.
End handlers.

(** ** The engine *)

Record SyncEngine (C : Type) := mkEngine {
  se_client_id : string;
  se_config : StoreConfig;
  se_prefix : string;
  se_response_prefix : string;
  se_client : C;
  se_state : EngineState;
  se_request_timeout : Z;
}.
Arguments mkEngine {C}.
Arguments se_client_id {C}.
Arguments se_config {C}.
Arguments se_prefix {C}.
Arguments se_response_prefix {C}.
Arguments se_client {C}.
Arguments se_state {C}.
Arguments se_request_timeout {C}.

Module SyncEngine.
Section engine.
Context {C : Type} {MC : MqttClientApi C} {SJ : SerdeJson} {HI : HashIter}.
Implicit Types e : SyncEngine C.

Definition set_client (c : C) (s : EngineState) e : SyncEngine C :=
  mkEngine (se_client_id e) (se_config e) (se_prefix e) (se_response_prefix e) c s (se_request_timeout e).

Definition on_state (f : EngineState → EngineState) e : SyncEngine C := set_client (se_client e) (f (se_state e)) e.

(** Awaiting the client: the handlers run on the state as messages come in. *)
Definition call {A} (m : awaited C A) : action (SyncEngine C) Error A := λ e,
  let '(c, evs, r) := m (se_client e) in
  (set_client c (foldl on_event (se_state e) evs) e, r).

Definition fresh_id : action (SyncEngine C) Error string := λ e,
  let '(id, c) := now_v7 (se_client e) in (set_client c (se_state e) e, Ok id).

Definition new (client_id : string) (config : StoreConfig) (client : C) : result (SyncEngine C) Error :=
  if has_char "+" client_id || has_char "#" client_id || has_char "/" client_id then
    Err (Config ("clientId must not contain MQTT special characters (+, #, /): " +:+ client_id))
  else
    let top_level_patterns :=
      (λ t, mkPattern (tl_entity t) (subscription_pattern t)) <$> top_level_entities config in
    let state := mkState ∅ ∅ ∅ ∅ ∅ ∅ [] [] false 0 client_id (sync_topic_prefix config)
      (response_topic_prefix config) (root_entity (scope config)) top_level_patterns in
    let '(client, evs, wired) := mqtt_on_connection_event client in
    let? _ := wired in
    Ok (mkEngine client_id config (sync_topic_prefix config) (response_topic_prefix config) client
          (foldl on_event state evs) DEFAULT_REQUEST_TIMEOUT).

Definition with_request_timeout (timeout : Z) e : SyncEngine C :=
  mkEngine (se_client_id e) (se_config e) (se_prefix e) (se_response_prefix e) (se_client e) (se_state e) timeout.

(** *** Requests *)

Definition insert_request (request_id : string) (s : EngineState) : EngineState :=
  set_requests (es_pending_requests s ∪ {[request_id]}) (es_answers s) s.

(** Removes the sender; the receiver goes out of scope with the call. *)
Definition remove_request (request_id : string) (s : EngineState) : EngineState :=
  set_requests (es_pending_requests s ∖ {[request_id]}) (delete request_id (es_answers s)) s.

Definition take_answer (request_id : string) (s : EngineState) : EngineState :=
  set_requests (es_pending_requests s) (delete request_id (es_answers s)) s.

Definition publish_args e (request_id : string) : PublishArgs :=
  mkPublish (se_response_prefix e +:+ "/" +:+ se_client_id e +:+ "/" +:+ request_id) (as_bytes request_id)
    [(ORIGIN_USER_PROPERTY, se_client_id e)].

Definition request (topic : string) (payload : Value) : action (SyncEngine C) Error Record_ :=
  let! request_id := fresh_id in
  let! args := aget (λ e, publish_args e request_id) in
  amodify (on_state (insert_request request_id)) ;;
  let! body := alift (to_vec payload) in
  try! publish := call (mqtt_publish topic body args) in
  match publish with
  | Err err => amodify (on_state (remove_request request_id)) ;; athrow err
  | Ok _ =>
    let! timeout := aget se_request_timeout in
    aignore (call (mqtt_wait timeout)) ;;
    let! s := aget se_state in
    amodify (on_state (take_answer request_id)) ;;
    match es_answers s !! request_id with
    | Some (Ok (Object m)) => aret m
    | Some (Ok _) => athrow (Mqtt "response was not an object")
    | Some (Err err) => athrow err
    | None =>
      if bool_decide (request_id ∈ es_pending_requests s) then
        amodify (on_state (remove_request request_id)) ;;
        athrow (Timeout (Z.min timeout u64_max))
      else athrow ConnectionClosed
    end
  end.

(** *** Subscriptions and the connection *)

Definition subscribe_to_response_topic : action (SyncEngine C) Error () :=
  let! pattern := aget (λ e, se_response_prefix e +:+ "/" +:+ se_client_id e +:+ "/#") in
  call (mqtt_subscribe pattern OnResponse).

Definition subscribe_to_top_level : action (SyncEngine C) Error () :=
  let! root_wildcard := aget (λ e, se_prefix e +:+ "/" +:+ root_entity (scope (se_config e)) +:+ "/+/events/#") in
  call (mqtt_subscribe root_wildcard OnRootWildcard) ;;
  let! patterns := aget (λ e, es_top_level_patterns (se_state e)) in
  afor (λ tl, call (mqtt_subscribe (tp_pattern tl) (OnTopLevel (tp_entity tl)))) patterns.

Definition scope_pattern e (scope_id : string) : string :=
  se_prefix e +:+ "/" +:+ root_entity (scope (se_config e)) +:+ "/" +:+ scope_id +:+ "/#".

Definition subscribe_to_scope (scope_id : string) : action (SyncEngine C) Error () :=
  let! pattern := aget (λ e, scope_pattern e scope_id) in
  call (mqtt_subscribe pattern OnScope).

Definition snapshot_subscribed_scopes e : list string := hset_iter (es_subscribed_scopes (se_state e)).

Definition connect (server_url : string) (ticket username password : option string)
    : action (SyncEngine C) Error () :=
  amodify (on_state (λ s, set_status (es_connection_status s ++ [Connecting]) (es_session_invalid s)
    (es_invalid_calls s) s)) ;;
  let! session_present := call (mqtt_connect server_url (mkConnect ticket username password)) in
  if negb session_present then
    subscribe_to_response_topic ;;
    subscribe_to_top_level ;;
    let! scopes := aget snapshot_subscribed_scopes in
    afor (λ scope_id, aignore (subscribe_to_scope scope_id)) scopes
  else aret ().

Definition disconnect : action (SyncEngine C) Error () :=
  call mqtt_disconnect ;;
  amodify (on_state cleanup_on_disconnect).

Definition disconnect_abnormally : action (SyncEngine C) Error () := call mqtt_disconnect_abnormally.

Definition reconnect (server_url : string) (ticket username password : option string)
    : action (SyncEngine C) Error () :=
  aignore (call mqtt_disconnect) ;;
  connect server_url ticket username password.

(** *** Outbound mutations *)

Definition is_child (c : StoreConfig) (entity : string) : bool :=
  bool_decide (entity ∈ child_entities (scope c)).

Definition bump_scope_version (scope_id : string) : action (SyncEngine C) Error () :=
  let! now := aget (λ e, let now := now_millis (se_client e) in
                         if bool_decide (now ≤ i64_max)%Z then now else i64_max) in
  let! c := aget se_config in
  let! prefix := aget se_prefix in
  let payload := <[updated_at_field c := from_i64 now]> (<[version_field c := from_i64 now]> ∅) in
  let topic := join_slash [prefix; root_entity (scope c); scope_id; "update"] in
  let! response := request topic (Object payload) in
  alift (check_response response (root_entity (scope c)) scope_id) ;;
  amodify (on_state (λ s, set_applied (<[scope_id := now]> (es_applied_version s)) s)).

(** The end of every outbound call. *)
Definition bump_if_child (entity scope_id : string) : action (SyncEngine C) Error () :=
  let! c := aget se_config in
  if is_child c entity && negb (bool_decide (scope_id = "")) then bump_scope_version scope_id else aret ().

Definition sync_create (entity scope_id : string) (data : Record_) : action (SyncEngine C) Error string :=
  let! c := aget se_config in
  let! prefix := aget se_prefix in
  let data := if is_child c entity then entry_or_insert data (scope_field (scope c)) (Str scope_id) else data in
  let topic := join_slash [prefix; entity; "create"] in
  let create_id := default "" (get_str data "id") in
  let! response := request topic (Object data) in
  alift (check_response response entity create_id) ;;
  let! id := alift (extract_id response) in
  bump_if_child entity scope_id ;;
  aret id.

Definition sync_update (entity scope_id id : string) (data : Record_) : action (SyncEngine C) Error () :=
  let! prefix := aget se_prefix in
  let! response := request (join_slash [prefix; entity; id; "update"]) (Object data) in
  alift (check_response response entity id) ;;
  bump_if_child entity scope_id.

Definition sync_delete (entity scope_id id : string) : action (SyncEngine C) Error () :=
  let! prefix := aget se_prefix in
  let! response := request (join_slash [prefix; entity; id; "delete"]) (Object ∅) in
  alift (check_response response entity id) ;;
  bump_if_child entity scope_id.

Definition sync_update_checked (entity scope_id id : string) (data : Record_) (expected_version : Z)
    : action (SyncEngine C) Error Z :=
  let! prefix := aget se_prefix in
  let data := <["_expected_version" := Num (PosInt expected_version)]> data in
  let! response := request (join_slash [prefix; entity; id; "update"]) (Object data) in
  alift (check_response response entity id) ;;
  bump_if_child entity scope_id ;;
  alift (extract_version response).

Definition sync_delete_checked (entity scope_id id : string) (expected_version : Z)
    : action (SyncEngine C) Error () :=
  let! prefix := aget se_prefix in
  let payload := <["_expected_version" := Num (PosInt expected_version)]> ∅ in
  let! response := request (join_slash [prefix; entity; id; "delete"]) (Object payload) in
  alift (check_response response entity id) ;;
  bump_if_child entity scope_id.

(** *** Fetching *)

Definition applied_version e (scope_id : string) : option Z := es_applied_version (se_state e) !! scope_id.

Definition fetch_one (entity id : string) : action (SyncEngine C) Error (option Record_) :=
  let! prefix := aget se_prefix in
  try! r := request (join_slash [prefix; entity; id]) (Object ∅) in
  match r with
  | Ok response =>
    match check_response response entity id with
    | Err err => if is_not_found err then aret None else athrow err
    | Ok _ => aret (response !! "data" ≫= as_object)
    end
  | Err err => if is_not_found err then aret None else athrow err
  end.

Definition list_payload (scope_field : string) (scope_id : option string) : Record_ :=
  match scope_id with
  | Some sid =>
    <["filters" := Array [Object (<["value" := Str sid]> (<["op" := Str "eq"]> (<["field" := Str scope_field]> ∅)))]]> ∅
  | None => ∅
  end.

Definition fetch_list (entity : string) (scope_id : option string) : action (SyncEngine C) Error (list Record_) :=
  let! c := aget se_config in
  let! prefix := aget se_prefix in
  let payload := list_payload (scope_field (scope c)) scope_id in
  let! response := request (join_slash [prefix; entity; "list"]) (Object payload) in
  alift (check_response response entity "") ;;
  aret match default Null (response !! "data") with
       | Array arr => omap as_object arr
       | _ => []
       end.

(** *** Scopes *)

(** [BTreeMap::insert]. *)
Fixpoint btree_insert {A} (k : string) (a : A) (m : list (string * A)) : list (string * A) :=
  match m with
  | [] => [(k, a)]
  | (k', a') :: rest =>
    match cmp (as_bytes k) (as_bytes k') with
    | Lt => (k, a) :: m
    | Eq => (k, a) :: rest
    | Gt => (k', a') :: btree_insert k a rest
    end
  end.

(** [try_join_all] over the child entities, one after another. *)
Fixpoint fetch_children (scope_id : string) (entities : list string)
    : action (SyncEngine C) Error (list (string * list Record_)) :=
  match entities with
  | [] => aret []
  | entity :: entities =>
    let! records := fetch_list entity (Some scope_id) in
    let! rest := fetch_children scope_id entities in
    aret ((entity, records) :: rest)
  end.

Definition do_open_scope (scope_id : string) : action (SyncEngine C) Error ScopeState :=
  subscribe_to_scope scope_id ;;
  amodify (on_state (λ s, set_scopes (es_subscribed_scopes s ∪ {[scope_id]}) (es_awaiting_state s) (es_buffered s) s)) ;;
  let! c := aget se_config in
  try! root_record := fetch_one (root_entity (scope c)) scope_id in
  try! child_results := fetch_children scope_id (child_entities (scope c)) in
  let! root_record := alift root_record in
  let! child_results := alift child_results in
  let children := foldl (λ m '(entity, list), btree_insert entity list m) [] child_results in
  let root := default ∅ root_record in
  let version := default 0%Z (get_u64 root (version_field c)) in
  (if bool_decide (0 < version)%Z && bool_decide (version ≤ i64_max)%Z
   then amodify (on_state (λ s, set_applied (<[scope_id := version]> (es_applied_version s)) s))
   else aret ()) ;;
  let! s := aget se_state in
  let buffered := default [] (es_buffered s !! scope_id) in
  amodify (on_state (λ s, set_scopes (es_subscribed_scopes s) (es_awaiting_state s) (delete scope_id (es_buffered s)) s)) ;;
  amodify (on_state (λ s, set_scopes (es_subscribed_scopes s) (es_awaiting_state s ∖ {[scope_id]}) (es_buffered s) s)) ;;
  aret (mkScopeState root children version buffered).

Definition open_scope (scope_id : string) : action (SyncEngine C) Error ScopeState :=
  amodify (on_state (λ s, set_scopes (es_subscribed_scopes s) (es_awaiting_state s ∪ {[scope_id]}) (es_buffered s) s)) ;;
  amodify (on_state (λ s, set_scopes (es_subscribed_scopes s) (es_awaiting_state s) (<[scope_id := []]> (es_buffered s)) s)) ;;
  try! opened := do_open_scope scope_id in
  match opened with
  | Ok state => aret state
  | Err err =>
    amodify (on_state (λ s, set_scopes (es_subscribed_scopes s ∖ {[scope_id]}) (es_awaiting_state s ∖ {[scope_id]})
      (delete scope_id (es_buffered s)) s)) ;;
    athrow err
  end.

Definition close_scope (scope_id : string) : action (SyncEngine C) Error () :=
  amodify (on_state (forget_scope scope_id)) ;;
  let! topic := aget (λ e, scope_pattern e scope_id) in
  aignore (call (mqtt_unsubscribe topic)).
End engine.
End SyncEngine.

(** ** Topics read back *)

Lemma split_slash_cons s : ∃ w ws, split_slash s = w :: ws.
Proof.
  destruct s as [|a s]; simpl; [by eexists _, _|]. case_bool_decide; [by eexists _, _|].
  destruct (split_slash s); by eexists _, _.
Qed.

(** A separator splits, whatever stands on either side. *)
Lemma split_slash_app s t : split_slash (s +:+ "/" +:+ t) = split_slash s ++ split_slash t.
Proof.
  induction s as [|a s IH]; [done|]. simpl. rewrite IH. case_bool_decide; [done|].
  by destruct (split_slash_cons s) as (w & ws & ->).
Qed.

Lemma split_slash_none s : has_char "/" s = false → split_slash s = [s].
Proof.
  induction s as [|a s IH]; [done|]. simpl. intros [Ha Hs]%orb_false_iff.
  rewrite Ha. by rewrite IH.
Qed.

Lemma split_slash_join ws :
  ws ≠ [] → Forall (λ w, has_char "/" w = false) ws → split_slash (join_slash ws) = ws.
Proof.
  intros Hne Hf. induction Hf as [|w ws Hw Hf IH]; [done|].
  destruct ws as [|w' ws]; [by apply split_slash_none|].
  change (join_slash (w :: w' :: ws)) with (w +:+ "/" +:+ join_slash (w' :: ws)).
  rewrite split_slash_app, split_slash_none, IH by done. done.
Qed.

Lemma string_app_assoc (a b c : string) : (a +:+ b) +:+ c = a +:+ b +:+ c.
Proof. induction a as [|x a IH]; [done|]. exact (f_equal (String x) IH). Qed.

(** ** What the handlers do

    A scope message reads as a scope, a mutation and whether it is our own;
    [scope_message] is the parsing half of [handle_scope_message]. *)
Section handling.
Context {SJ : SerdeJson}.
Implicit Types s : EngineState.

Definition scope_message s (msg : IncomingMessage) : option (string * SyncMutation * bool) :=
  parsed ← parse_scoped_topic (es_prefix s) (es_root_entity s) (msg_topic msg);
  op ← topic_op (st_event_type parsed);
  match from_slice (msg_payload msg) with
  | Ok payload =>
    m ← build_mutation (st_entity parsed) op payload;
    Some (st_scope_id parsed, m, own_user_property s msg || sender_is_self (es_client_id s) payload)
  | Err _ => None
  end.

Lemma handle_scope_message_eq msg s :
  handle_scope_message msg s =
  match scope_message s msg with
  | None => s
  | Some (scope_id, m, own) =>
    match bool_decide (scope_id ∈ es_awaiting_state s), es_buffered s !! scope_id with
    | true, Some l =>
      set_scopes (es_subscribed_scopes s) (es_awaiting_state s) (<[scope_id := l ++ [m]]> (es_buffered s)) s
    | _, _ => if own then s else send_mutation (mkDelivery scope_id m) s
    end
  end.
Proof.
  unfold handle_scope_message, scope_message.
  destruct (parse_scoped_topic _ _ _) as [parsed|]; [|done]. simpl.
  destruct (topic_op _); [|done]. simpl. destruct (from_slice _) as [payload|]; [|done].
  by destruct (build_mutation _ _ _).
Qed.

Lemma handle_root_wildcard_message_eq msg s :
  handle_root_wildcard_message msg s =
  match scope_message s msg with
  | None => s
  | Some (scope_id, m, own) =>
    if own || negb (bool_decide (sm_entity m = es_root_entity s)) ||
       bool_decide (scope_id ∈ es_subscribed_scopes s) then s
    else send_mutation (mkDelivery scope_id m) s
  end.
Proof.
  unfold handle_root_wildcard_message, scope_message.
  destruct (parse_scoped_topic _ _ _) as [parsed|]; simpl; [|by case_match].
  destruct (topic_op _) as [op|]; simpl; [|by repeat case_match].
  destruct (from_slice _) as [payload|]; [|by repeat case_match].
  destruct (build_mutation _ _ _) as [m|] eqn:Em; simpl; [|by repeat case_match].
  assert (sm_entity m = st_entity parsed) as ->.
  { revert Em. unfold build_mutation. intros (o & _ & (i & _ & [= <-])%bind_Some)%bind_Some. done. }
  destruct (own_user_property s msg); [done|]. simpl.
  destruct (bool_decide (st_entity parsed = _)); simpl; [|by rewrite orb_true_r].
  rewrite orb_false_r. destruct (bool_decide _); simpl; [by rewrite orb_true_r|].
  rewrite orb_false_r. done.
Qed.

(** The names the state was built with, which nothing changes. *)
Definition names s : string * string * string * string :=
  (es_client_id s, es_prefix s, es_response_prefix s, es_root_entity s).

Lemma scope_message_names s s' msg : names s' = names s → scope_message s' msg = scope_message s msg.
Proof. intros [= E1 E2 E3 E4]. unfold scope_message, own_user_property. by rewrite E1, E2, E4. Qed.

(** ** Requests and their answers *)

(** The answer an event brings to a request. *)
Definition resolves s (id : string) (ev : event) : option (result Value Error) :=
  match ev with
  | Received OnResponse msg =>
    if bool_decide (strip_prefix (es_response_prefix s +:+ "/" +:+ es_client_id s +:+ "/") (msg_topic msg) = Some id)
    then Some (from_slice (msg_payload msg)) else None
  | CleanedUp => Some (Err ConnectionClosed)
  | _ => None
  end.

Lemma on_event_names s ev : names (on_event s ev) = names s.
Proof.
  destruct ev as [h msg|st af| |sid|[] sid]; [|done..]. destruct h as [| | |entity]; simpl.
  - unfold handle_response. by repeat case_match.
  - rewrite handle_scope_message_eq. by repeat case_match.
  - rewrite handle_root_wildcard_message_eq. by repeat case_match.
  - unfold handle_top_level_message. by repeat case_match.
Qed.

(** The requests a handler other than [handle_response] leaves alone. *)
Definition requests s : gset string * gmap string (result Value Error) := (es_pending_requests s, es_answers s).

Lemma on_event_answer s id ev :
  id ∈ es_pending_requests s → es_answers s !! id = None →
  match resolves s id ev with
  | None => id ∈ es_pending_requests (on_event s ev) ∧ es_answers (on_event s ev) !! id = None
  | Some r => (id ∉ es_pending_requests (on_event s ev)) ∧ es_answers (on_event s ev) !! id = Some r
  end.
Proof.
  intros Hp Ha. destruct ev as [h msg|st af| |sid|[] sid]; [|done| |done..].
  - destruct h as [| | |entity]; simpl.
    + unfold handle_response. destruct (strip_prefix _ _) as [id'|]; [|by rewrite bool_decide_eq_false_2].
      destruct (decide (id' = id)) as [->|Hne].
      * rewrite !bool_decide_eq_true_2 by done. simpl. split; [set_solver|]. by rewrite lookup_insert_eq.
      * rewrite (bool_decide_eq_false_2 (Some id' = Some id)) by congruence.
        case_bool_decide; simpl; [|done]. split; [set_solver|]. by rewrite lookup_insert_ne.
    + rewrite handle_scope_message_eq. by repeat case_match.
    + rewrite handle_root_wildcard_message_eq. by repeat case_match.
    + unfold handle_top_level_message. by repeat case_match.
  - simpl. split; [set_solver|]. apply lookup_union_Some_l. by apply lookup_gset_to_gmap_Some.
Qed.

Lemma on_event_answered s id ev r :
  id ∉ es_pending_requests s → es_answers s !! id = Some r →
  (id ∉ es_pending_requests (on_event s ev)) ∧ es_answers (on_event s ev) !! id = Some r.
Proof.
  intros Hp Ha. destruct ev as [h msg|st af| |sid|[] sid]; [|done| |done..].
  - destruct h as [| | |entity]; simpl.
    + unfold handle_response. destruct (strip_prefix _ _) as [id'|]; [|done].
      case_bool_decide; [|done]. simpl. split; [set_solver|]. rewrite lookup_insert_ne; set_solver.
    + rewrite handle_scope_message_eq. by repeat case_match.
    + rewrite handle_root_wildcard_message_eq. by repeat case_match.
    + unfold handle_top_level_message. by repeat case_match.
  - simpl. split; [set_solver|]. rewrite lookup_union_r; [done|]. by apply lookup_gset_to_gmap_None.
Qed.

(** Of all that happens, the first event that concerns a request answers it. *)
Lemma events_answer s id evs :
  id ∈ es_pending_requests s → es_answers s !! id = None →
  let s' := foldl on_event s evs in
  match head (omap (resolves s id) evs) with
  | None => id ∈ es_pending_requests s' ∧ es_answers s' !! id = None
  | Some r => (id ∉ es_pending_requests s') ∧ es_answers s' !! id = Some r
  end.
Proof.
  revert s. induction evs as [|ev evs IH]; intros s Hp Ha; [done|]. simpl.
  pose proof (on_event_answer s id ev Hp Ha) as H1.
  assert (∀ ev', resolves (on_event s ev) id ev' = resolves s id ev') as Hr.
  { intros ev'. pose proof (on_event_names s ev) as [= E1 E2 E3 E4]. unfold resolves. by rewrite E1, E3. }
  destruct (resolves s id ev) as [r|] eqn:E.
  - destruct H1 as [H1 H2]. change (match head (r :: _) with Some x => _ | None => _ end) with
      ((id ∉ es_pending_requests (foldl on_event (on_event s ev) evs)) ∧
       es_answers (foldl on_event (on_event s ev) evs) !! id = Some r).
    clear -H1 H2. revert H1 H2. generalize (on_event s ev). induction evs as [|ev' evs IH]; intros s' H1 H2; [done|].
    simpl. destruct (on_event_answered s' id ev' r H1 H2). by apply IH.
  - destruct H1 as [H1 H2]. specialize (IH _ H1 H2).
    rewrite (list_omap_ext (resolves (on_event s ev) id) (resolves s id) evs evs) in IH; [exact IH|].
    clear -Hr. induction evs; constructor; auto.
Qed.
End handling.

Section requests.
Context {C : Type} {MC : MqttClientApi C} {SJ : SerdeJson}.
Implicit Types e : SyncEngine C.

Lemma call_eq {A} (m : awaited C A) e c evs r :
  m (se_client e) = (c, evs, r) →
  SyncEngine.call m e = (SyncEngine.set_client c (foldl on_event (se_state e) evs) e, r).
Proof. unfold SyncEngine.call. by intros ->. Qed.

(** A request returns the first answer to it. Whatever the client
    delivers while the call publishes and waits, the result is the publish
    error, or the first response addressed to this request (an error when it
    is no JSON or no object), or a closed connection when the engine was cleaned
    up first, or else a timeout; and no trace of the request is left behind,
    every other effect on the state being that of the events. *)
Theorem request_answered topic payload e id c0 body c1 evs1 published c2 evs2 waited :
  now_v7 (se_client e) = (id, c0) → (id ∉ es_pending_requests (se_state e)) →
  es_answers (se_state e) !! id = None →
  to_vec payload = Ok body →
  mqtt_publish topic body (SyncEngine.publish_args e id) c0 = (c1, evs1, published) →
  mqtt_wait (se_request_timeout e) c1 = (c2, evs2, waited) →
  let evs := match published with Ok _ => evs1 ++ evs2 | Err _ => evs1 end in
  ∃ e', SyncEngine.request topic payload e =
    (e', match published with
         | Err err => Err err
         | Ok _ =>
           match head (omap (resolves (se_state e) id) evs) with
           | Some (Ok (Object m)) => Ok m
           | Some (Ok _) => Err (Mqtt "response was not an object")
           | Some (Err err) => Err err
           | None => Err (Timeout (Z.min (se_request_timeout e) u64_max))
           end
         end) ∧
    (id ∉ es_pending_requests (se_state e')) ∧ es_answers (se_state e') !! id = None ∧
    se_state e' = SyncEngine.remove_request id
      (foldl on_event (SyncEngine.insert_request id (se_state e)) evs).
Proof.
  intros Hid Hp Ha Hb Hpub Hwait evs.
  set (s1 := SyncEngine.insert_request id (se_state e)).
  assert (id ∈ es_pending_requests s1) as Hp1 by (simpl; set_solver).
  pose proof (events_answer s1 id evs Hp1 Ha) as Hev. cbv zeta in Hev.
  change (resolves s1 id) with (resolves (se_state e) id) in Hev.
  apply post_exists. unfold SyncEngine.request. asteps.
  eapply post_eq; [unfold SyncEngine.fresh_id; by rewrite Hid|]. asteps. rewrite Hb. asteps.
  eapply post_eq; [by apply call_eq|]. destruct published as [[]|err]; asteps.
  2:{ split; [done|]. simpl. split_and!; [set_solver|by rewrite lookup_delete_eq|done]. }
  eapply post_eq; [by apply call_eq|]. asteps. cbn [se_state SyncEngine.set_client SyncEngine.on_state].
  rewrite <-foldl_app. fold s1 evs.
  destruct (head _) as [r|]; destruct Hev as [Hev1 Hev2]; rewrite Hev2.
  - assert (SyncEngine.take_answer id (foldl on_event s1 evs) =
            SyncEngine.remove_request id (foldl on_event s1 evs)) as Et.
    { unfold SyncEngine.take_answer, SyncEngine.remove_request. f_equal. set_solver. }
    destruct r as [[]|err]; asteps; (split; [done|]); simpl;
      (split_and!; [set_solver|by rewrite lookup_delete_eq|exact Et]).
  - rewrite bool_decide_eq_true_2 by done. asteps. split; [done|]. simpl. split_and!; [set_solver|by rewrite !lookup_delete_eq|].
    unfold SyncEngine.remove_request, SyncEngine.take_answer. simpl. by rewrite delete_delete_eq.
Qed.
End requests.

(** ** Opening a scope

    A client that keeps the list of everything that happened on it. *)
Section logged.
Context {C : Type} {MC : MqttClientApi C}.

Definition logging {A} (m : awaited C A) : awaited (C * list event) A := λ '(c, log),
  let '(c, evs, r) := m c in ((c, log ++ evs), evs, r).

#[export] Instance logged_api : MqttClientApi (C * list event) := {|
  mqtt_connect url args := logging (mqtt_connect url args);
  mqtt_disconnect := logging mqtt_disconnect;
  mqtt_disconnect_abnormally := logging mqtt_disconnect_abnormally;
  mqtt_on_connection_event := logging mqtt_on_connection_event;
  mqtt_publish topic body args := logging (mqtt_publish topic body args);
  mqtt_subscribe pattern h := logging (mqtt_subscribe pattern h);
  mqtt_unsubscribe topic := logging (mqtt_unsubscribe topic);
  mqtt_wait timeout := logging (mqtt_wait timeout);
  now_v7 '(c, log) := let '(id, c) := now_v7 c in (id, (c, log));
  now_millis '(c, _) := now_millis c;
|}.
End logged.

Section window.
Context {C : Type} {MC : MqttClientApi C} {SJ : SerdeJson} {HI : HashIter}.
Implicit Types (e : SyncEngine (C * list event)) (s : EngineState).

Definition log e : list event := (se_client e).2.

(** The mutation an event carries for a scope. *)
Definition scope_mutation s (sid : string) (ev : event) : option SyncMutation :=
  match ev with
  | Received OnScope msg =>
    '(sid', m, _) ← scope_message s msg;
    if bool_decide (sid' = sid) then Some m else None
  | _ => None
  end.

(** Someone else cleaned up, or closed or opened the scope. *)
Definition interrupts (sid : string) (ev : event) : bool :=
  match ev with
  | CleanedUp => true
  | ScopeClosed sid' => bool_decide (sid' = sid)
  | ScopeOpening _ sid' => bool_decide (sid' = sid)
  | _ => false
  end.

(** The state as one scope sees it: awaited, its buffer, subscribed. *)
Definition view s (sid : string) : bool * option (list SyncMutation) * bool :=
  (bool_decide (sid ∈ es_awaiting_state s), es_buffered s !! sid, bool_decide (sid ∈ es_subscribed_scopes s)).

Definition view_step s (sid : string) (v : bool * option (list SyncMutation) * bool) (ev : event) :=
  if interrupts sid ev then
    match ev with
    | ScopeOpening Begun _ => (true, Some [], v.2)
    | ScopeOpening Subscribed _ => (v.1, true)
    | ScopeOpening Taken _ => (false, None, v.2)
    | _ => (false, None, false)
    end
  else
  match scope_mutation s sid ev, v with
  | Some m, (true, Some l, sub) => (true, Some (l ++ [m]), sub)
  | _, _ => v
  end.

Lemma view_on_event s sid ev : view (on_event s ev) sid = view_step s sid (view s sid) ev.
Proof.
  unfold view_step. destruct ev as [h msg|st af| |sid'|phase sid']; simpl; [|done..| |].
  - destruct h as [| | |entity]; simpl.
    + unfold handle_response. by repeat case_match.
    + rewrite handle_scope_message_eq. destruct (scope_message s msg) as [[[sid' m] own]|]; simpl; [|done].
      unfold view. destruct (decide (sid' = sid)) as [->|Hne].
      * rewrite (bool_decide_eq_true_2 (sid = sid)) by done.
        destruct (bool_decide (sid ∈ es_awaiting_state s)) eqn:Ea, (es_buffered s !! sid) eqn:Eb; simpl;
          try (by destruct own; simpl; rewrite ?Ea, ?Eb).
        by rewrite Ea, lookup_insert_eq.
      * rewrite (bool_decide_eq_false_2 (sid' = sid)) by done.
        destruct (bool_decide (sid' ∈ _)), (es_buffered s !! sid'); simpl; try by destruct own.
        by rewrite lookup_insert_ne.
    + rewrite handle_root_wildcard_message_eq. by repeat case_match.
    + unfold handle_top_level_message. by repeat case_match.
  - unfold view. simpl. destruct (decide (sid' = sid)) as [E|E].
    + subst. rewrite (bool_decide_eq_true_2 (sid = sid)) by done. rewrite !bool_decide_eq_false_2 by set_solver. by rewrite lookup_delete_eq.
    + rewrite (bool_decide_eq_false_2 (sid' = sid)), lookup_delete_ne by done.
      f_equal; [f_equal|]; apply bool_decide_ext; set_solver.
  - unfold view. destruct (decide (sid' = sid)) as [->|E].
    + rewrite (bool_decide_eq_true_2 (sid = sid)) by done.
      destruct phase; simpl; rewrite ?lookup_insert_eq, ?lookup_delete_eq; repeat f_equal;
        (apply bool_decide_eq_true_2 || apply bool_decide_eq_false_2); set_solver.
    + rewrite (bool_decide_eq_false_2 (sid' = sid)) by done.
      destruct phase; simpl; rewrite ?lookup_insert_ne, ?lookup_delete_ne by done; repeat f_equal; apply bool_decide_ext; set_solver.
Qed.

Lemma view_step_names s s' sid v ev : names s' = names s → view_step s' sid v ev = view_step s sid v ev.
Proof. intros E. unfold view_step, scope_mutation. case_match; [done|]. destruct ev as [[]| | | |]; try done.
  by rewrite (scope_message_names s s').
Qed.

Lemma view_events s sid evs :
  view (foldl on_event s evs) sid = foldl (view_step s sid) (view s sid) evs ∧ names (foldl on_event s evs) = names s.
Proof.
  induction evs as [|ev evs [IH1 IH2]] using rev_ind; [done|]. rewrite !foldl_app. simpl.
  rewrite on_event_names, view_on_event, IH1. split; [|done]. by apply view_step_names.
Qed.

(** Undisturbed, the buffer collects the mutations of the scope in order. *)
Lemma view_collects s sid evs l sub :
  Forall (λ ev, interrupts sid ev = false) evs →
  foldl (view_step s sid) (true, Some l, sub) evs = (true, Some (l ++ omap (scope_mutation s sid) evs), sub).
Proof.
  intros Hf. revert l. induction Hf as [|ev evs Hev _ IH]; intros l; simpl; [by rewrite app_nil_r|].
  unfold view_step at 2. rewrite Hev. destruct (scope_mutation s sid ev) as [m|]; rewrite IH; [|done].
  by rewrite <-app_assoc.
Qed.

(** What a call that opens and closes no scope does to one of them. *)
Definition follows (sid : string) e e' : Prop :=
  se_config e' = se_config e ∧ names (se_state e') = names (se_state e) ∧
  ∃ evs, log e' = log e ++ evs ∧
    view (se_state e') sid = foldl (view_step (se_state e) sid) (view (se_state e) sid) evs.

#[local] Instance follows_preorder sid : PreOrder (follows sid).
Proof.
  split.
  - intros e. split_and!; [done..|]. exists []. by rewrite app_nil_r.
  - intros e1 e2 e3 (Hc1 & Hn1 & evs1 & Hl1 & Hv1) (Hc2 & Hn2 & evs2 & Hl2 & Hv2).
    split_and!; [congruence..|]. exists (evs1 ++ evs2). rewrite Hl2, Hl1, Hv2, Hv1, foldl_app, app_assoc.
    split; [done|]. clear -Hn1. generalize (foldl (view_step (se_state e1) sid) (view (se_state e1) sid) evs1).
    induction evs2 as [|ev evs IH]; intros v; [done|]. simpl. rewrite IH. by rewrite (view_step_names (se_state e1)).
Qed.

Definition quiet {A} (sid : string) (m : action (SyncEngine (C * list event)) Error A) : Prop :=
  ∀ e, post m e (λ e' _, follows sid e e').

Lemma quiet_bind {A B} sid m (k : A → action _ Error B) :
  quiet sid m → (∀ a, quiet sid (k a)) → quiet sid (abind m k).
Proof.
  intros Hm Hk e. astep. acall (Hm e). intros e1 [a|err] H1; [|done].
  acall (Hk a e1). intros e2 r H2. by etrans.
Qed.

Lemma quiet_try {A B} sid m (k : result A Error → action _ Error B) :
  quiet sid m → (∀ r, quiet sid (k r)) → quiet sid (atry m k).
Proof.
  intros Hm Hk e. astep. acall (Hm e). intros e1 r H1. acall (Hk r e1). intros e2 r2 H2. by etrans.
Qed.

Lemma quiet_pure {A} sid (m : action _ Error A) : (∀ e, (m e).1 = e) → quiet sid m.
Proof. intros H e. unfold post. by rewrite H. Qed.

Lemma quiet_ignore {A} sid (m : action _ Error A) : quiet sid m → quiet sid (aignore m).
Proof. intros Hm e. astep. apply Hm. Qed.

(** An update that leaves every scope as it is. *)
Lemma quiet_modify sid f :
  (∀ s, view (f s) sid = view s sid ∧ names (f s) = names s) → quiet sid (amodify (SyncEngine.on_state f)).
Proof.
  intros Hf e. astep. destruct (Hf (se_state e)) as [Hv Hn]. split_and!; [done..|].
  exists []. rewrite app_nil_r. done.
Qed.

Lemma quiet_call {A} sid (m : awaited C A) : quiet sid (SyncEngine.call (logging m)).
Proof.
  intros e. unfold post, SyncEngine.call, logging. destruct (se_client e) as [c l] eqn:El.
  destruct (m c) as [[c' evs] r]. simpl. destruct (view_events (se_state e) sid evs) as [Hv Hn].
  split_and!; [done..|]. exists evs. unfold log. rewrite El. done.
Qed.

Create HintDb quiet.
#[local] Hint Extern 1 (quiet _ (SyncEngine.call _)) => apply quiet_call : quiet.
#[local] Hint Extern 1 (quiet _ (amodify _)) => apply quiet_modify; by intros : quiet.
#[local] Hint Extern 1 (quiet _ (aret _)) => apply quiet_pure; done : quiet.
#[local] Hint Extern 1 (quiet _ (athrow _)) => apply quiet_pure; done : quiet.
#[local] Hint Extern 1 (quiet _ (aget _)) => apply quiet_pure; done : quiet.
#[local] Hint Extern 1 (quiet _ (alift _)) => apply quiet_pure; done : quiet.

Lemma quiet_fresh sid : quiet sid SyncEngine.fresh_id.
Proof.
  intros e. unfold post, SyncEngine.fresh_id. simpl. destruct (se_client e) as [c l] eqn:El.
  destruct (now_v7 c) as [id c']. simpl. split_and!; [done..|]. exists []. rewrite app_nil_r. unfold log. by rewrite El.
Qed.
#[local] Hint Resolve quiet_fresh : quiet.

(** Walks through binds and case distinctions of a body. *)
Ltac quieten :=
  repeat lazymatch goal with
  | |- quiet _ (abind _ _) => apply quiet_bind; [|intros ?]
  | |- quiet _ (atry _ _) => apply quiet_try; [|intros ?]
  | |- quiet _ (aignore _) => apply quiet_ignore
  | |- quiet _ (match _ with _ => _ end) => case_match
  | |- _ => solve [auto 2 with quiet]
  end.

Lemma quiet_request sid topic payload : quiet sid (SyncEngine.request topic payload).
Proof. unfold SyncEngine.request. quieten. Qed.
#[local] Hint Resolve quiet_request : quiet.

Lemma quiet_fetch_one sid entity id : quiet sid (SyncEngine.fetch_one entity id).
Proof. unfold SyncEngine.fetch_one. quieten. Qed.
#[local] Hint Resolve quiet_fetch_one : quiet.

Lemma quiet_fetch_list sid entity scope_id : quiet sid (SyncEngine.fetch_list entity scope_id).
Proof. unfold SyncEngine.fetch_list. quieten. Qed.
#[local] Hint Resolve quiet_fetch_list : quiet.

Lemma quiet_fetch_children sid scope_id entities : quiet sid (SyncEngine.fetch_children scope_id entities).
Proof. induction entities as [|entity l IH]; simpl; quieten. Qed.
#[local] Hint Resolve quiet_fetch_children : quiet.

Lemma quiet_subscribe sid scope_id : quiet sid (SyncEngine.subscribe_to_scope scope_id).
Proof. unfold SyncEngine.subscribe_to_scope. quieten. Qed.

(** From a state in which the scope is awaited, the rest of the opening
    returns what the buffer collects. *)
Lemma do_open_scope_window sid e :
  view (se_state e) sid = (true, Some [], bool_decide (sid ∈ es_subscribed_scopes (se_state e))) →
  post (SyncEngine.do_open_scope sid) e (λ e' r, ∃ evs, log e' = log e ++ evs ∧
    match r with
    | Ok st => (sid ∉ es_awaiting_state (se_state e')) ∧ es_buffered (se_state e') !! sid = None ∧
        (Forall (λ ev, interrupts sid ev = false) evs →
         ss_buffered st = omap (scope_mutation (se_state e) sid) evs ∧ sid ∈ es_subscribed_scopes (se_state e'))
    | Err _ => True
    end).
Proof.
  intros Hv. unfold SyncEngine.do_open_scope. asteps.
  acall (quiet_subscribe sid sid e). intros e1 [[]|err] (Hc1 & Hn1 & evs1 & Hl1 & Hv1).
  2:{ by exists evs1. }
  asteps. set (e2 := SyncEngine.on_state _ e1).
  acall (quiet_fetch_one sid _ sid e2). intros e3 root H3. asteps.
  acall (quiet_fetch_children sid sid _ e3). intros e4 kids H4. asteps.
  assert (follows sid e2 e4) as (Hc4 & Hn4 & evs2 & Hl4 & Hv4) by (by etrans). clear H3 H4.
  assert (log e4 = log e ++ (evs1 ++ evs2)) as Hl.
  { rewrite Hl4. change (log e2) with (log e1). by rewrite Hl1, app_assoc. }
  destruct root as [root|err]; asteps; [|by exists (evs1 ++ evs2)].
  destruct kids as [kids|err]; asteps; [|by exists (evs1 ++ evs2)].
  match goal with |- post (if ?b then _ else _) _ _ => assert (∀ Q : SyncEngine (C * list event) → result () Error → Prop,
    (∀ e5, log e5 = log e4 → view (se_state e5) sid = view (se_state e4) sid → Q e5 (Ok ())) →
    post (if b then amodify (SyncEngine.on_state (λ s, set_applied
       (<[sid := default 0%Z (get_u64 (default ∅ root) (version_field (se_config e2)))]> (es_applied_version s)) s))
     else aret ()) e4 Q) as Happ by (intros Q HQ; case_match; asteps; by apply HQ) end.
  apply Happ. intros e5 Hl5 Hv5. asteps. exists (evs1 ++ evs2). split; [by rewrite <-Hl, <-Hl5|].
  simpl. split; [set_solver|]. split; [by rewrite lookup_delete_eq|]. intros [Hf1 Hf2]%Forall_app.
  rewrite Hv, view_collects in Hv1 by done.
  assert (view (se_state e2) sid = (true, Some (omap (scope_mutation (se_state e) sid) evs1), true)) as Hv2.
  { revert Hv1. unfold view. simpl. intros [= -> -> _]. f_equal. apply bool_decide_eq_true_2. set_solver. }
  rewrite Hv2, view_collects in Hv4 by done. rewrite Hv4 in Hv5. injection Hv5 as Ha5 Hb5 Hs5.
  rewrite Hb5. split; [|by apply bool_decide_eq_true_1 in Hs5]. simpl. rewrite omap_app. f_equal.
  apply list_omap_ext. clear -Hn1 e2. induction evs2 as [|ev evs IH]; constructor; [|done].
  unfold scope_mutation. destruct ev as [[]| | | |]; try done. by rewrite (scope_message_names (se_state e) (se_state e2)).
Qed.

End window.

(** ** Who gets a broker event

    A topic filter selects topics level by level ([+] one level, [#] the
    rest), and the client hands a message to the handler of every filter that
    matches. *)
Fixpoint topic_matches (filter topic : list string) : bool :=
  match filter, topic with
  | [], [] => true
  | [f], _ => if bool_decide (f = "#") then true else
      match topic with [t] => bool_decide (f = "+") || bool_decide (f = t) | _ => false end
  | f :: filter, t :: topic => (bool_decide (f = "+") || bool_decide (f = t)) && topic_matches filter topic
  | _, _ => false
  end.

Section dispatch.
Context {SJ : SerdeJson} {HI : HashIter}.
Implicit Types s : EngineState.

Definition base s : string := es_prefix s +:+ "/" +:+ es_root_entity s.

(** The subscriptions for scoped events: the wildcard of
    [subscribe_to_top_level] and one per subscribed scope. *)
Definition engine_subscriptions s : list (string * MessageHandler) :=
  (base s +:+ "/+/events/#", OnRootWildcard) ::
  ((λ sid, (base s +:+ "/" +:+ sid +:+ "/#", OnScope)) <$> hset_iter (es_subscribed_scopes s)).

Definition dispatch (subs : list (string * MessageHandler)) (msg : IncomingMessage) : list event :=
  (λ sub, Received sub.2 msg) <$>
    filter (λ sub, topic_matches (split_slash sub.1) (split_slash (msg_topic msg)) = true) subs.

(** The topic the broker publishes an event of a scope on. *)
Definition event_topic s (sid entity ty : string) : string :=
  if bool_decide (entity = es_root_entity s) then base s +:+ "/" +:+ join_slash [sid; "events"; ty]
  else base s +:+ "/" +:+ join_slash [sid; entity; "events"; ty].

(** A name usable as a topic level. *)
Definition level_ok (w : string) : Prop := has_char "/" w = false ∧ w ≠ "+" ∧ w ≠ "#".

Lemma strip_base s t :
  strip_prefix (es_prefix s +:+ "/" +:+ es_root_entity s +:+ "/") (base s +:+ "/" +:+ t) = Some t.
Proof.
  unfold base. replace ((es_prefix s +:+ "/" +:+ es_root_entity s) +:+ "/" +:+ t)
    with ((es_prefix s +:+ "/" +:+ es_root_entity s +:+ "/") +:+ t) by (by rewrite !string_app_assoc).
  apply strip_prefix_app.
Qed.

Lemma split_base s t :
  split_slash (base s +:+ "/" +:+ t) = split_slash (base s) ++ split_slash t.
Proof. apply split_slash_app. Qed.

Lemma parse_event_topic s sid entity ty :
  level_ok sid → level_ok entity → has_char "/" ty = false →
  parse_scoped_topic (es_prefix s) (es_root_entity s) (event_topic s sid entity ty) = Some (mkTopic sid entity ty).
Proof.
  intros [Hs _] [He _] Ht. unfold parse_scoped_topic, event_topic.
  case_bool_decide as E; rewrite strip_base; cbn [mbind option_bind];
    rewrite split_slash_join by (repeat constructor; done); [by rewrite E|done].
Qed.

Definition wild_free (ws : list string) : Prop := Forall (λ w, w ≠ "+" ∧ w ≠ "#") ws.

(** Literal levels in front of a filter that goes on. *)
Lemma topic_matches_app p f1 f2 t1 t2 :
  wild_free p → topic_matches (p ++ f1 :: f2) (p ++ t1 :: t2) = topic_matches (f1 :: f2) (t1 :: t2).
Proof.
  induction 1 as [|w p [Hp Hh] _ IH]; [done|]. simpl app.
  assert (∃ a l, p ++ f1 :: f2 = a :: l) as (a & l & E) by (destruct p; by eexists _, _).
  rewrite E in *. cbn [topic_matches]. rewrite (bool_decide_eq_true_2 (w = w)) by done. by rewrite orb_true_r.
Qed.

Lemma topic_matches_scope sid sid' w ws : level_ok sid →
  topic_matches [sid; "#"] (sid' :: w :: ws) = bool_decide (sid = sid').
Proof.
  intros (_ & Hp & Hh). cbn [topic_matches]. rewrite (bool_decide_eq_false_2 (sid = "+")) by done.
  rewrite (bool_decide_eq_true_2 ("#" = "#")) by done. by rewrite andb_true_r.
Qed.

(** Which subscriptions an event of a scope reaches. *)
Lemma dispatch_event s sid entity ty payload props :
  wild_free (split_slash (base s)) → (∀ sid', sid' ∈ es_subscribed_scopes s → level_ok sid') →
  level_ok sid → level_ok entity → has_char "/" ty = false →
  let msg := mkMessage (event_topic s sid entity ty) payload props in
  ∃ wild, (entity = es_root_entity s → wild = true) ∧
    dispatch (engine_subscriptions s) msg =
      (if (wild : bool) then [Received OnRootWildcard msg] else []) ++
      (if bool_decide (sid ∈ es_subscribed_scopes s) then [Received OnScope msg] else []).
Proof.
  intros Hb Hsub Hs He Ht msg.
  assert (∃ w ws, split_slash (msg_topic msg) = split_slash (base s) ++ sid :: w :: ws ∧
            (entity = es_root_entity s → w = "events")) as (w & ws & Etopic & Hw).
  { simpl. unfold event_topic. destruct Hs as [Hs _], He as [He _].
    case_bool_decide; rewrite split_base, split_slash_join by (repeat constructor; done); by eexists _, _. }
  exists (topic_matches ["+"; "events"; "#"] (sid :: w :: ws)). split.
  { intros ->%Hw. cbn [topic_matches]. rewrite !bool_decide_eq_true_2 by done. done. }
  unfold dispatch, engine_subscriptions. rewrite filter_cons.
  change (base s +:+ "/+/events/#", OnRootWildcard).1 with (base s +:+ "/" +:+ "+/events/#").
  rewrite split_base, Etopic.
  change (split_slash "+/events/#") with ["+"; "events"; "#"]. rewrite topic_matches_app by done.
  assert (filter (λ sub, topic_matches (split_slash sub.1) (split_slash (base s) ++ sid :: w :: ws) = true)
    ((λ sid, (base s +:+ "/" +:+ sid +:+ "/#", OnScope)) <$> hset_iter (es_subscribed_scopes s)) =
    (λ sid, (base s +:+ "/" +:+ sid +:+ "/#", OnScope)) <$> filter (λ sid', sid' = sid) (hset_iter (es_subscribed_scopes s)))
    as ->.
  { rewrite list_filter_fmap. f_equal. apply list_filter_ext_in. intros sid' Hin. simpl.
    apply elem_of_hset_iter in Hin. specialize (Hsub _ Hin). rewrite split_base.
    change (sid' +:+ "/#") with (sid' +:+ "/" +:+ "#").
    rewrite split_slash_app, (split_slash_none sid') by apply Hsub. cbn [app].
    change (split_slash "#") with ["#"]. rewrite topic_matches_app, topic_matches_scope by done.
    rewrite bool_decide_eq_true. done. }
  assert (filter (λ sid', sid' = sid) (hset_iter (es_subscribed_scopes s)) =
          if bool_decide (sid ∈ es_subscribed_scopes s) then [sid] else []) as ->.
  { rewrite <-(bool_decide_ext _ _ (elem_of_hset_iter (es_subscribed_scopes s) sid)).
    apply list_filter_eq, NoDup_hset_iter. }
  destruct (topic_matches _ _); by case_bool_decide.
Qed.
Lemma topic_op_level ty op : topic_op ty = Some op → has_char "/" ty = false.
Proof. unfold topic_op. intros H. repeat case_bool_decide; by subst. Qed.

(** An event of a scope reaches the store exactly once. Of the wildcard
    subscription and the subscriptions of the open scopes, one of which may
    overlap it, together they buffer the mutation once while its scope is
    being opened, send it once otherwise, and never send an event of this
    client; an event of the root entity arrives whether or not its scope is
    open. *)
Theorem event_delivered_once s sid entity ty op payload props v m :
  wild_free (split_slash (base s)) → (∀ sid', sid' ∈ es_subscribed_scopes s → level_ok sid') →
  level_ok sid → level_ok entity → topic_op ty = Some op →
  from_slice payload = Ok v → build_mutation entity op v = Some m →
  (entity = es_root_entity s ∨ sid ∈ es_subscribed_scopes s) →
  let msg := mkMessage (event_topic s sid entity ty) payload props in
  let own := own_user_property s msg || sender_is_self (es_client_id s) v in
  foldl on_event s (dispatch (engine_subscriptions s) msg) =
    match bool_decide (sid ∈ es_subscribed_scopes s) && bool_decide (sid ∈ es_awaiting_state s),
          es_buffered s !! sid with
    | true, Some l =>
      set_scopes (es_subscribed_scopes s) (es_awaiting_state s) (<[sid := l ++ [m]]> (es_buffered s)) s
    | _, _ => if own then s else send_mutation (mkDelivery sid m) s
    end.
Proof.
  intros Hb Hsub Hs He Hop Hv Hm Hreach msg own. pose proof (topic_op_level _ _ Hop) as Hty.
  assert (scope_message s msg = Some (sid, m, own)) as Hmsg.
  { unfold scope_message. simpl. rewrite parse_event_topic by done. simpl. by rewrite Hop, Hv; simpl; rewrite Hm. }
  assert (sm_entity m = entity) as Hent.
  { revert Hm. unfold build_mutation. intros (o & _ & (i & _ & [= <-])%bind_Some)%bind_Some. done. }
  destruct (dispatch_event s sid entity ty payload props) as (wild & Hwild & Hd); [done..|].
  fold msg in Hd. rewrite Hd. clear Hd.
  destruct (bool_decide (sid ∈ es_subscribed_scopes s)) eqn:Esub.
  - assert (∀ s0, s0 = s → foldl on_event s0 (if wild then [Received OnRootWildcard msg] else []) = s) as Hskip.
    { intros s0 ->. destruct wild; [|done]. simpl. rewrite handle_root_wildcard_message_eq, Hmsg, Esub.
      by rewrite orb_true_r. }
    rewrite foldl_app, Hskip by done. simpl. by rewrite handle_scope_message_eq, Hmsg.
  - apply bool_decide_eq_false_1 in Esub. destruct Hreach as [Hroot|]; [|done].
    rewrite (Hwild Hroot). simpl. rewrite handle_root_wildcard_message_eq, Hmsg.
    rewrite Hent, Hroot, !(bool_decide_eq_true_2 (es_root_entity s = _)), bool_decide_eq_false_2 by done.
    simpl. by rewrite !orb_false_r.
Qed.
End dispatch.

(** ** A scripted client

    Each awaited call takes the next list of events; request ids count up.
    Documents are named by single letters. *)
Record Scripted := mkScript { sc_next : nat; sc_steps : list (list event) }.

Definition scripted {A} (a : A) : awaited Scripted A := λ c,
  match sc_steps c with
  | [] => (c, [], Ok a)
  | evs :: rest => (mkScript (sc_next c) rest, evs, Ok a)
  end.

#[export] Instance scripted_api : MqttClientApi Scripted := {|
  mqtt_connect _ _ := scripted true;
  mqtt_disconnect := scripted ();
  mqtt_disconnect_abnormally := scripted ();
  mqtt_on_connection_event := scripted ();
  mqtt_publish _ _ _ := scripted ();
  mqtt_subscribe _ _ := scripted ();
  mqtt_unsubscribe _ := scripted ();
  mqtt_wait _ := scripted ();
  now_v7 c := (String (ascii_of_nat (65 + sc_next c)) "", mkScript (S (sc_next c)) (sc_steps c));
  now_millis _ := 1000%Z;
|}.

Definition ex_docs : list (string * Value) :=
  [("o", Object (<["data" := Object (<["id" := Str "e1"]> (<["version" := Num (PosInt 7)]> ∅))]> ∅));
   ("l", Object (<["data" := Array [Object (<["id" := Str "h0"]> ∅)]]> ∅));
   ("m", Object (<["id" := Str "h1"]> (<["sender" := Str "c2"]> ∅)));
   ("x", Str "text")].

#[export] Instance doc_json : SerdeJson := {|
  to_vec _ := Ok [];
  from_slice bs :=
    match list_find (λ d, as_bytes d.1 = bs) ex_docs with
    | Some (_, (_, v)) => Ok v
    | None => Err (Serde "unknown document")
    end;
|}.

Definition ex_config : StoreConfig := StoreConfig_new (mkScopeConfig "event" ["hold"] "eventId").

Definition ex_engine {C} (client : C) : SyncEngine C :=
  mkEngine "c1" ex_config "$DB" "$DB/clients" client
    (mkState ∅ ∅ ∅ ∅ ∅ ∅ [] [] false 0 "c1" "$DB" "$DB/clients" "event" []) 10000.

Definition ex_reply (id doc : string) : event :=
  Received OnResponse (mkMessage ("$DB/clients/c1/" +:+ id) (as_bytes doc) []).
Definition ex_hold (doc : string) : event :=
  Received OnScope (mkMessage "$DB/event/e1/hold/events/created" (as_bytes doc) []).

Definition ex_waits : list event := [ex_reply "B" "l"; ex_reply "A" "l"; ex_reply "A" "x"].

Lemma request_answered_witness :
  ∃ e', SyncEngine.request "$DB/hold/list" (Object ∅) (ex_engine (mkScript 0 [[ex_hold "m"]; ex_waits])) =
    (e', Ok (<["data" := Array [Object (<["id" := Str "h0"]> ∅)]]> ∅)) ∧
    es_pending_requests (se_state e') = ∅ ∧
    es_mutation_bus (se_state e') = [mkDelivery "e1" (mkSync Insert "hold" "h1" None None)].
Proof.
  destruct (request_answered "$DB/hold/list" (Object ∅) (ex_engine (mkScript 0 [[ex_hold "m"]; ex_waits]))
      "A" (mkScript 1 [[ex_hold "m"]; ex_waits]) [] (mkScript 1 [ex_waits]) [ex_hold "m"] (Ok ())
      (mkScript 1 []) ex_waits (Ok ()))
    as (e' & E & Hp & Ha & Hs); [reflexivity|set_solver|reflexivity..|].
  exists e'. split; [etrans; [exact E|]; vm_compute; reflexivity|].
  rewrite Hs. split; vm_compute; reflexivity.
Defined.


Lemma event_delivered_once_witness :
  foldl on_event (se_state (ex_engine tt))
    (dispatch (engine_subscriptions (se_state (ex_engine tt)))
       (mkMessage (event_topic (se_state (ex_engine tt)) "e1" "event" "updated") (as_bytes "m") [])) =
  send_mutation (mkDelivery "e1" (mkSync Update "event" "h1" None None)) (se_state (ex_engine tt)).
Proof.
  rewrite (event_delivered_once (se_state (ex_engine tt)) "e1" "event" "updated" Update (as_bytes "m") []
    (Object (<["id" := Str "h1"]> (<["sender" := Str "c2"]> ∅))) (mkSync Update "event" "h1" None None));
    [reflexivity|by repeat constructor|set_solver|done|done|reflexivity|reflexivity|reflexivity|by left].
Defined.
