(* ===== verification/MqttAdapters.v ===== *)
(** * The MQTT clients of the sync engine

    Models the two implementations of the trait [MqttClientApi]:
    mqtt_client/native.rs over [mqtt5::MqttClient] and mqtt_client/wasm.rs over
    [mqtt5_wasm::WasmMqttClient], and the reading of a publish reason code out
    of an error text (mqtt_client/mod.rs). Both clients are interfaces; option
    builders are records of what was set. What happens during a call is the
    list of events the client reports. *)
From Stdlib Require Import Strings.Ascii.
From stdpp Require Import pretty.
From S2P Require Import Prelude Json Types Backend WasmBackend SyncEngine.

(** ** Reason codes in error texts *)

(** The text after the first occurrence of a pattern, and before it. *)
Fixpoint after (pat s : string) : option string :=
  match strip_prefix pat s with
  | Some rest => Some rest
  | None => match s with EmptyString => None | String _ s => after pat s end
  end.

Fixpoint before (pat s : string) : string :=
  match strip_prefix pat s with
  | Some _ => ""
  | None => match s with EmptyString => "" | String c s => String c (before pat s) end
  end.

(** [s.split(pat).nth(1)]. *)
Definition split_second (pat s : string) : option string := before pat <$> after pat s.

Definition is_ascii_digit (c : ascii) : bool := (48 <=? N_of_ascii c)%N && (N_of_ascii c <=? 57)%N.

(** [trim_start_matches(|c| !c.is_ascii_digit())]. *)
Fixpoint skip_to_digit (s : string) : string :=
  match s with String c s' => if is_ascii_digit c then s else skip_to_digit s' | EmptyString => "" end.

Fixpoint take_digits (s : string) : string :=
  match s with String c s => if is_ascii_digit c then String c (take_digits s) else "" | EmptyString => "" end.

(** [str::parse::<u8>] on digits, with the overflow check at every step. *)
Fixpoint parse_u8_from (acc : Z) (s : string) : option Z :=
  match s with
  | EmptyString => Some acc
  | String c s =>
    let acc := (acc * 10 + (Z.of_N (N_of_ascii c) - 48))%Z in
    if bool_decide (acc ≤ u8_max)%Z then parse_u8_from acc s else None
  end.

Definition parse_u8 (s : string) : option Z := match s with EmptyString => None | _ => parse_u8_from 0 s end.

Definition parse_publish_reason_code (message : string) : option Z :=
  tail ← split_second "reason code" message;
  parse_u8 (take_digits (skip_to_digit tail)).

(** ** Arguments of [connect] *)

Record WillConfig := mkWill {
  will_topic : string;
  will_payload : list byte;
  will_qos : Z;
  will_retain : bool;
  will_delay_interval_secs : option Z;
  will_content_type : option string;
}.

Definition WillConfig_new (topic : string) (payload : list byte) : WillConfig := mkWill topic payload 0 false None None.

(** The fields of [ConnectArgs] the engine copies from its configuration. *)
Record ConnectSettings := mkSettings {
  cs_clean_start : bool;
  cs_keep_alive_secs : Z;
  cs_session_expiry_secs : Z;
  cs_will : option WillConfig;
}.

Inductive QoS := AtMostOnce | AtLeastOnce | ExactlyOnce.

Definition QoS_as_u8 (q : QoS) : Z := match q with AtMostOnce => 0 | AtLeastOnce => 1 | ExactlyOnce => 2 end.

(** ** The native client *)

Record WillMessage := mkWillMessage {
  wm_topic : string;
  wm_payload : list byte;
  wm_qos : QoS;
  wm_retain : bool;
  wm_will_delay_interval : option Z;
  wm_content_type : option string;
}.

Record ConnectOptions := mkOptions {
  co_client_id : string;
  co_clean_start : bool;
  co_resume_existing_session : bool;
  co_keep_alive : Z;
  co_session_expiry_interval : Z;
  co_will : option WillMessage;
  co_authentication_method : option string;
  co_credentials : option (string * string);
}.

Record PublishOptions := mkPublishOptions {
  po_qos : QoS;
  po_retain : bool;
  po_response_topic : option string;
  po_correlation_data : option (list byte);
  po_user_properties : list (string * string);
}.

(** The reason codes the sources name. *)
Inductive ReasonCode := NotAuthorized | BadUsernameOrPassword | BadAuthenticationMethod | OtherCode (code : Z).

Inductive DisconnectReason := AuthFailure | ServerDisconnect (code : ReasonCode) | OtherReason.

Inductive ConnectionEvent :=
| EvConnecting
| EvConnected
| EvDisconnected (reason : DisconnectReason)
| EvReconnecting
| EvReconnectFailed
| EvOther.

Inductive MqttError := PublishFailed (code : ReasonCode) | OtherMqttError (text : string).

Record Message := mkNativeMessage { nm_topic : string; nm_payload : list byte; nm_user_properties : list (string * string) }.

(** What a client reports during a call: a message for a handler, a change of
    the connection [E], or what other tasks do to the engine meanwhile: clean
    up after a disconnect, or close or open a scope. *)
Inductive ClientEvent (E : Type) :=
| ForHandler (h : MessageHandler) (msg : Message)
| Connection (e : E)
| ElseCleanedUp
| ElseScopeClosed (scope_id : string)
| ElseScopeOpening (phase : opening) (scope_id : string).
Arguments ForHandler {E}.
Arguments Connection {E}.
Arguments ElseCleanedUp {E}.
Arguments ElseScopeClosed {E}.
Arguments ElseScopeOpening {E}.

Definition client_call (C E X A : Type) : Type := C → C * list (ClientEvent E) * result A X.

Class Mqtt5Client (C : Type) := {
  m5_new : string → C;
  m5_set_auth_handler : string → C → C;
  m5_set_queue_on_disconnect : bool → C → C;
  m5_connect_with_options : string → ConnectOptions → client_call C ConnectionEvent MqttError bool;
  m5_disconnect : client_call C ConnectionEvent MqttError ();
  m5_disconnect_abnormally : client_call C ConnectionEvent MqttError ();
  m5_is_connected : C → bool;
  m5_publish_with_options : string → list byte → PublishOptions → client_call C ConnectionEvent MqttError ();
  m5_subscribe_with_options : string → QoS → MessageHandler → client_call C ConnectionEvent MqttError ();
  m5_unsubscribe : string → client_call C ConnectionEvent MqttError ();
  m5_on_connection_event : client_call C ConnectionEvent MqttError ();
  m5_wait : Z → client_call C ConnectionEvent MqttError ();
  m5_text : MqttError → string;
  m5_code : ReasonCode → Z;
  m5_new_id : C → string * C;
  m5_now : C → Z;
}.

(** [nc_handled]: the handler of connection events is installed. *)
Record NativeMqttClient (C : Type) := mkNativeClient { nc_client : C; nc_client_id : string; nc_handled : bool }.
Arguments mkNativeClient {C}.
Arguments nc_client {C}.
Arguments nc_client_id {C}.
Arguments nc_handled {C}.

Module NativeMqttClient.
Section adapter.
Context {C : Type} {M5 : Mqtt5Client C}.
Abbreviation Self := (NativeMqttClient C).

Definition new (client_id : string) : Self := mkNativeClient (m5_new client_id) client_id false.

(** The closure given to [on_connection_event]. *)
Definition status_of (e : ConnectionEvent) : ConnectionStatus * bool :=
  match e with
  | EvConnecting => (Connecting, false)
  | EvConnected => (Connected, false)
  | EvDisconnected (AuthFailure | ServerDisconnect (NotAuthorized | BadUsernameOrPassword | BadAuthenticationMethod)) =>
    (ErrorStatus, true)
  | EvReconnecting => (Connecting, false)
  | EvReconnectFailed => (ErrorStatus, false)
  | _ => (Disconnected, false)
  end.

Definition engine_event (handled : bool) (e : ClientEvent ConnectionEvent) : list event :=
  match e with
  | ForHandler h msg => [Received h (mkMessage (nm_topic msg) (nm_payload msg) (nm_user_properties msg))]
  | Connection e => if handled then [StatusChanged (status_of e).1 (status_of e).2] else []
  | ElseCleanedUp => [CleanedUp]
  | ElseScopeClosed scope_id => [ScopeClosed scope_id]
  | ElseScopeOpening phase scope_id => [ScopeOpening phase scope_id]
  end.

Definition on_client {A} (f : MqttError → Error) (m : client_call C ConnectionEvent MqttError A) : awaited Self A := λ n,
  let '(c, evs, r) := m (nc_client n) in
  (mkNativeClient c (nc_client_id n) (nc_handled n), evs ≫= engine_event (nc_handled n), map_err f r).

Definition qos_of (qos : Z) : QoS :=
  if bool_decide (qos = 1)%Z then AtLeastOnce else if bool_decide (qos = 2)%Z then ExactlyOnce else AtMostOnce.

Definition will_message (will : WillConfig) : WillMessage :=
  mkWillMessage (will_topic will) (will_payload will) (qos_of (will_qos will)) (will_retain will)
    (will_delay_interval_secs will) (will_content_type will).

Definition options (cs : ConnectSettings) (args : ConnectArgs) (client_id : string) : ConnectOptions :=
  mkOptions client_id (cs_clean_start cs) (negb (cs_clean_start cs)) (cs_keep_alive_secs cs) (cs_session_expiry_secs cs)
    (will_message <$> cs_will cs)
    (match jwt_ticket args with Some _ => Some "JWT" | None => None end)
    (match jwt_ticket args, username args, password args with None, Some user, Some pass => Some (user, pass) | _, _, _ => None end).

Definition connect (cs : ConnectSettings) (url : string) (args : ConnectArgs) : awaited Self bool := λ n,
  let c := match jwt_ticket args with Some ticket => m5_set_auth_handler ticket (nc_client n) | None => nc_client n end in
  let c := m5_set_queue_on_disconnect false c in
  on_client (λ e, Mqtt ("connect:" +:+ url +:+ ": " +:+ m5_text e))
    (m5_connect_with_options url (options cs args (nc_client_id n))) (mkNativeClient c (nc_client_id n) (nc_handled n)).

Definition disconnect : awaited Self () := on_client (λ e, Mqtt ("disconnect: " +:+ m5_text e)) m5_disconnect.

Definition disconnect_abnormally : awaited Self () :=
  on_client (λ e, Mqtt ("disconnect_abnormally: " +:+ m5_text e)) m5_disconnect_abnormally.

Definition is_connected (n : Self) : bool := m5_is_connected (nc_client n).

Definition publish_error (topic : string) (e : MqttError) : Error :=
  match e with
  | PublishFailed reason_code => PublishRejected (m5_code reason_code)
  | other => Mqtt ("publish:" +:+ topic +:+ ": " +:+ m5_text other)
  end.

Definition publish (topic : string) (payload : list byte) (args : PublishArgs) : awaited Self () :=
  on_client (publish_error topic)
    (m5_publish_with_options topic payload
       (mkPublishOptions AtLeastOnce false (Some (pa_response_topic args)) (Some (pa_correlation_data args))
          (pa_user_properties args))).

Definition subscribe (topic : string) (on_message : MessageHandler) : awaited Self () :=
  on_client (λ e, Mqtt ("subscribe:" +:+ topic +:+ ": " +:+ m5_text e))
    (m5_subscribe_with_options topic AtLeastOnce on_message).

Definition unsubscribe (topic : string) : awaited Self () :=
  on_client (λ e, Mqtt ("unsubscribe:" +:+ topic +:+ ": " +:+ m5_text e)) (m5_unsubscribe topic).

Definition on_connection_event : awaited Self () := λ n,
  let '(n, evs, r) := on_client (λ e, Mqtt ("on_connection_event: " +:+ m5_text e)) m5_on_connection_event n in
  (mkNativeClient (nc_client n) (nc_client_id n) (is_ok r || nc_handled n), evs, r).

Definition api (cs : ConnectSettings) : MqttClientApi Self := {|
  mqtt_connect := connect cs;
  mqtt_disconnect := disconnect;
  mqtt_disconnect_abnormally := disconnect_abnormally;
  mqtt_on_connection_event := on_connection_event;
  mqtt_publish := publish;
  mqtt_subscribe := subscribe;
  mqtt_unsubscribe := unsubscribe;
  mqtt_wait ms := on_client (λ e, Mqtt (m5_text e)) (m5_wait ms);
  now_v7 n := let '(id, c) := m5_new_id (nc_client n) in (id, mkNativeClient c (nc_client_id n) (nc_handled n));
  SyncEngine.now_millis n := m5_now (nc_client n);
|}.
End adapter.
End NativeMqttClient.

(** ** The wasm client *)

Record WasmWillMessage := mkWasmWill {
  ww_topic : string;
  ww_payload : list byte;
  ww_qos : Z;
  ww_retain : bool;
  ww_will_delay_interval : option Z;
  ww_content_type : option string;
}.

Record WasmConnectOptions := mkWasmOptions {
  wo_clean_start : bool;
  wo_resume_existing_session : bool;
  wo_keep_alive : Z;
  wo_session_expiry_interval : option Z;
  wo_will : option WasmWillMessage;
  wo_authentication_method : option string;
  wo_authentication_data : option (list byte);
  wo_username : option string;
  wo_password : option (list byte);
}.

Record WasmPublishOptions := mkWasmPublish {
  wp_qos : Z;
  wp_response_topic : option string;
  wp_correlation_data : list byte;
  wp_user_properties : list (string * string);
}.

Inductive WasmCallback := OnConnect | OnDisconnect.

Class WasmMqttClient (C J : Type) := {
  wm_new : string → C;
  wm_on_auth_challenge : C → C;
  wm_connect_with_options : string → WasmConnectOptions → client_call C WasmCallback J ();
  wm_disconnect : client_call C WasmCallback J ();
  wm_is_connected : C → bool;
  wm_publish_with_options : string → list byte → WasmPublishOptions → client_call C WasmCallback J ();
  wm_subscribe : string → QoS → bool → MessageHandler → client_call C WasmCallback J ();
  wm_unsubscribe : string → client_call C WasmCallback J ();
  wm_wait : Z → client_call C WasmCallback J ();
  wm_new_id : C → string * C;
  wm_now : C → Z;
}.

(** [wa_callbacks] counts the closures kept alive; the handlers of connects
    and disconnects are installed once [wa_handled]. *)
Record WasmMqttClientAdapter (C : Type) := mkAdapter { wa_client : C; wa_callbacks : nat; wa_handled : bool }.
Arguments mkAdapter {C}.
Arguments wa_client {C}.
Arguments wa_callbacks {C}.
Arguments wa_handled {C}.

Definition u16_max : Z := 65535.

Module WasmMqttClientAdapter.
Section adapter.
Context {C J : Type} {JT : JsText J} {WM : WasmMqttClient C J}.
Abbreviation Self := (WasmMqttClientAdapter C).

Definition new (client_id : string) : Self := mkAdapter (wm_new client_id) 0 false.

Definition js_err (ctx : string) (e : J) : Error := Mqtt (ctx +:+ ": " +:+ js_debug e).

Definition publish_rejection_code (e : J) : option Z := s ← js_as_string e; parse_publish_reason_code s.

(** The two closures of [on_connection_event]. *)
Definition status_of (cb : WasmCallback) : ConnectionStatus * bool :=
  match cb with OnConnect => (Connected, false) | OnDisconnect => (Disconnected, false) end.

Definition engine_event (handled : bool) (e : ClientEvent WasmCallback) : list event :=
  match e with
  | ForHandler h msg => [Received h (mkMessage (nm_topic msg) (nm_payload msg) (nm_user_properties msg))]
  | Connection cb => if handled then [StatusChanged (status_of cb).1 (status_of cb).2] else []
  | ElseCleanedUp => [CleanedUp]
  | ElseScopeClosed scope_id => [ScopeClosed scope_id]
  | ElseScopeOpening phase scope_id => [ScopeOpening phase scope_id]
  end.

Definition on_client {A} (f : J → Error) (m : client_call C WasmCallback J A) : awaited Self A := λ w,
  let '(c, evs, r) := m (wa_client w) in
  (mkAdapter c (wa_callbacks w) (wa_handled w), evs ≫= engine_event (wa_handled w), map_err f r).

Definition will_message (will : WillConfig) : WasmWillMessage :=
  mkWasmWill (will_topic will) (will_payload will) (will_qos will) (will_retain will)
    (will_delay_interval_secs will) (will_content_type will).

Definition options (cs : ConnectSettings) (args : ConnectArgs) : WasmConnectOptions :=
  let creds := match jwt_ticket args, username args, password args with None, Some user, Some pass => Some (user, pass) | _, _, _ => None end in
  mkWasmOptions (cs_clean_start cs) (negb (cs_clean_start cs))
    (if bool_decide (cs_keep_alive_secs cs ≤ u16_max)%Z then cs_keep_alive_secs cs else u16_max)
    (Some (cs_session_expiry_secs cs)) (will_message <$> cs_will cs)
    (match jwt_ticket args with Some _ => Some "JWT" | None => None end)
    (as_bytes <$> jwt_ticket args)
    (fst <$> creds) ((λ c, as_bytes c.2) <$> creds).

Definition connect (cs : ConnectSettings) (url : string) (args : ConnectArgs) : awaited Self bool := λ w,
  let w := match jwt_ticket args with
           | Some _ => mkAdapter (wm_on_auth_challenge (wa_client w)) (S (wa_callbacks w)) (wa_handled w)
           | None => w
           end in
  let '(w, evs, r) := on_client (js_err "connect") (wm_connect_with_options url (options cs args)) w in
  (w, evs, let? _ := r in Ok false).

Definition disconnect : awaited Self () := on_client (js_err "disconnect") wm_disconnect.

Definition disconnect_abnormally : awaited Self () := λ w,
  (w, [], Err (Mqtt "disconnect_abnormally is only supported on native targets")).

Definition is_connected (w : Self) : bool := wm_is_connected (wa_client w).

Definition publish_error (e : J) : Error :=
  match publish_rejection_code e with
  | Some reason_code => PublishRejected reason_code
  | None => js_err "publish" e
  end.

Definition publish (topic : string) (payload : list byte) (args : PublishArgs) : awaited Self () :=
  on_client publish_error
    (wm_publish_with_options topic payload
       (mkWasmPublish (QoS_as_u8 AtLeastOnce) (Some (pa_response_topic args)) (pa_correlation_data args)
          (pa_user_properties args))).

Definition subscribe (topic : string) (on_message : MessageHandler) : awaited Self () :=
  on_client (js_err "subscribe") (wm_subscribe topic AtLeastOnce false on_message).

Definition unsubscribe (topic : string) : awaited Self () := on_client (js_err "unsubscribe") (wm_unsubscribe topic).

Definition on_connection_event : awaited Self () := λ w,
  (mkAdapter (wa_client w) (S (S (wa_callbacks w))) true, [], Ok ()).

Definition api (cs : ConnectSettings) : MqttClientApi Self := {|
  mqtt_connect := connect cs;
  mqtt_disconnect := disconnect;
  mqtt_disconnect_abnormally := disconnect_abnormally;
  mqtt_on_connection_event := on_connection_event;
  mqtt_publish := publish;
  mqtt_subscribe := subscribe;
  mqtt_unsubscribe := unsubscribe;
  mqtt_wait ms := on_client (js_err "wait") (wm_wait ms);
  now_v7 w := let '(id, c) := wm_new_id (wa_client w) in (id, mkAdapter c (wa_callbacks w) (wa_handled w));
  SyncEngine.now_millis w := wm_now (wa_client w);
|}.
End adapter.
End WasmMqttClientAdapter.

(** ** The code in the text *)

Fixpoint all_digits (s : string) : bool :=
  match s with String c s => is_ascii_digit c && all_digits s | EmptyString => true end.

Definition starts_with_digit (s : string) : bool := match s with String c _ => is_ascii_digit c | EmptyString => false end.

Fixpoint no_digit (s : string) : bool :=
  match s with String c s => negb (is_ascii_digit c) && no_digit s | EmptyString => true end.

(** The number digits stand for. *)
Fixpoint dec_value (acc : Z) (s : string) : Z :=
  match s with String c s => dec_value (acc * 10 + (Z.of_N (N_of_ascii c) - 48)) s | EmptyString => acc end.

Lemma app_cons c s t : String c s +:+ t = String c (s +:+ t).
Proof. done. Qed.

(** Whether a text starts with a pattern is decided by as many characters as
    the pattern has. *)
Lemma strip_prefix_decided p : ∀ s t t',
  String.length p ≤ String.length s → is_Some (strip_prefix p (s +:+ t)) ↔ is_Some (strip_prefix p (s +:+ t')).
Proof.
  induction p as [|c p IH]; intros [|c' s] t t' Hl; simpl in Hl; try lia; [by split; eauto..|].
  rewrite !app_cons. simpl. case_bool_decide; [|by split; intros [? ?]]. apply IH. lia.
Qed.

Lemma length_app_string s t : String.length (s +:+ t) = String.length s + String.length t.
Proof. induction s as [|c s IH]; [done|]. rewrite app_cons. simpl. by rewrite IH. Qed.

Lemma app_assoc_string s t u : (s +:+ t) +:+ u = s +:+ t +:+ u.
Proof. induction s as [|c s IH]; [done|]. rewrite !app_cons. by rewrite IH. Qed.

Lemma app_empty s : s +:+ "" = s.
Proof. induction s as [|c s IH]; [done|]. rewrite app_cons. by rewrite IH. Qed.

(** The first occurrence of a phrase, when its head does not complete an
    earlier one. *)
Lemma after_first p c pre rest :
  let pat := p +:+ String c "" in
  after pat (pre +:+ p) = None → after pat (pre +:+ pat +:+ rest) = Some rest.
Proof.
  intros pat. induction pre as [|a pre IH]; intros H.
  - assert (Hs := strip_prefix_app pat rest). change ("" +:+ pat +:+ rest) with (pat +:+ rest).
    destruct (pat +:+ rest); cbn [after]; by rewrite Hs.
  - rewrite !app_cons in *. cbn [after] in *.
    destruct (strip_prefix pat (String a (pre +:+ p))) as [x|] eqn:E; [done|].
    destruct (strip_prefix pat (String a (pre +:+ pat +:+ rest))) as [y|] eqn:E'; [|by apply IH].
    exfalso. assert (is_Some (strip_prefix pat (String a (pre +:+ p) +:+ ""))) as [z Hz]; [|by rewrite app_empty, E in Hz].
    apply (strip_prefix_decided _ _ _ (String c "" +:+ rest)).
    + unfold pat. simpl. rewrite !length_app_string. simpl. lia.
    + rewrite app_cons, app_assoc_string. unfold pat in *. rewrite app_assoc_string in E'. rewrite E'. eauto.
Qed.

Lemma skip_to_digits sep s : no_digit sep = true → starts_with_digit s = true → skip_to_digit (sep +:+ s) = s.
Proof.
  induction sep as [|c sep IH]; simpl.
  - intros _. change ("" +:+ s) with s. destruct s as [|c s]; [done|]. simpl. by intros ->.
  - intros [Hc Hs]%andb_true_iff. apply negb_true_iff in Hc. rewrite Hc. auto.
Qed.

Lemma take_all_digits ds rest : all_digits ds = true → starts_with_digit rest = false → take_digits (ds +:+ rest) = ds.
Proof.
  induction ds as [|c ds IH]; simpl.
  - intros _. change ("" +:+ rest) with rest. destruct rest as [|c rest]; [done|]. simpl. by intros ->.
  - intros [Hc Hs]%andb_true_iff Hr. rewrite Hc. f_equal. auto.
Qed.

Lemma digit_range c : is_ascii_digit c = true → (0 ≤ Z.of_N (N_of_ascii c) - 48 ≤ 9)%Z.
Proof. unfold is_ascii_digit. intros [H1%N.leb_le H2%N.leb_le]%andb_true_iff. lia. Qed.

Lemma dec_value_ge s : ∀ acc, all_digits s = true → (0 ≤ acc)%Z → (acc ≤ dec_value acc s)%Z.
Proof.
  induction s as [|c s IH]; intros acc; simpl; [lia|]. intros [Hc Hs]%andb_true_iff Ha.
  pose proof (digit_range c Hc). specialize (IH (acc * 10 + (Z.of_N (N_of_ascii c) - 48))%Z Hs). lia.
Qed.

Lemma parse_u8_from_spec s : ∀ acc, all_digits s = true → (0 ≤ acc ≤ u8_max)%Z →
  parse_u8_from acc s = if bool_decide (dec_value acc s ≤ u8_max)%Z then Some (dec_value acc s) else None.
Proof.
  induction s as [|c s IH]; intros acc; simpl.
  - intros _ Ha. by rewrite bool_decide_eq_true_2 by lia.
  - intros [Hc Hs]%andb_true_iff Ha. pose proof (digit_range c Hc) as Hd. case_bool_decide as Hle; [apply IH; [done|lia]|].
    rewrite bool_decide_eq_false_2; [done|].
    pose proof (dec_value_ge s (acc * 10 + (Z.of_N (N_of_ascii c) - 48)) Hs). lia.
Qed.

(** Text after the phrase that does not repeat it. *)
Lemma before_none pat s : after pat s = None → before pat s = s.
Proof.
  induction s as [|c s IH]; simpl; destruct (strip_prefix pat _); try done. intros H. by rewrite IH.
Qed.

(** The reason code of a refused publish. Whatever precedes the phrase and
    whatever follows the number, the first number after the first "reason code"
    is read, exactly when it fits a byte; a larger number gives nothing, so it
    is never taken for another code. *)
Theorem reason_code_read pre sep ds rest :
  after "reason code" (pre +:+ "reason cod") = None →
  after "reason code" (sep +:+ ds +:+ rest) = None →
  no_digit sep = true → all_digits ds = true → starts_with_digit ds = true → starts_with_digit rest = false →
  parse_publish_reason_code (pre +:+ "reason code" +:+ sep +:+ ds +:+ rest) =
    if bool_decide (dec_value 0 ds ≤ u8_max)%Z then Some (dec_value 0 ds) else None.
Proof.
  intros Hpre Hpost Hsep Hds Hne Hrest. unfold parse_publish_reason_code, split_second.
  rewrite (after_first "reason cod" "e" pre _ Hpre). cbn [fmap option_fmap option_map mbind option_bind].
  rewrite before_none by done. rewrite skip_to_digits; [|done|by destruct ds].
  rewrite take_all_digits by done. unfold parse_u8. destruct ds; [done|]. by apply parse_u8_from_spec.
Qed.

Lemma pretty_codes : Forall (λ n, all_digits (pretty n) = true ∧ starts_with_digit (pretty n) = true ∧ dec_value 0 (pretty n) = Z.of_N n ∧
  after "reason code" (": " +:+ pretty n +:+ "") = None) (N.of_nat <$> seq 0 256).
Proof. apply (bool_decide_unpack _). vm_compute. exact I. Qed.

Lemma reason_code_read_witness :
  parse_publish_reason_code "Publish rejected with reason code: 135 for sale/42" = Some 135%Z ∧
  parse_publish_reason_code "reason code: 999" = None.
Proof.
  split.
  - apply (reason_code_read "Publish rejected with " ": " "135" " for sale/42"); reflexivity.
  - apply (reason_code_read "" ": " "999" ""); reflexivity.
Defined.

(** ** Both platforms class a refused publish alike *)

Section classes.
Context {C : Type} {M5 : Mqtt5Client C} {D J : Type} {JT : JsText J} {WM : WasmMqttClient D J}.

(** The wasm client reports a refusal by its text. *)
Definition rejection_text (code : N) : string := "Publish rejected with reason code: " +:+ pretty code.

Lemma rejection_text_read code : (code < 256)%N → parse_publish_reason_code (rejection_text code) = Some (Z.of_N code).
Proof.
  intros Hc. pose proof pretty_codes as H. rewrite Forall_forall in H.
  destruct (H code) as (Hd & Hs & Hv & Ha).
  { apply list_elem_of_fmap. exists (N.to_nat code). split; [by rewrite N2Nat.id|]. apply elem_of_seq. lia. }
  unfold rejection_text.
  change "Publish rejected with reason code: " with ("Publish rejected with " +:+ "reason code" +:+ ": ").
  rewrite !app_assoc_string, <-(app_empty (pretty code)).
  rewrite (reason_code_read "Publish rejected with " ": " (pretty code) ""); [|done..].
  rewrite Hv. rewrite bool_decide_eq_true_2; [done|]. unfold u8_max. lia.
Qed.

(** A refused publish has the same outcome on both platforms. When the
    native client names a reason code and the wasm client reports the same code
    by its text, both adapters answer with the same error, so the store rolls
    back, and the queue drops, the same writes. *)
Theorem refusal_classes_agree topic payload args (n : NativeMqttClient C) (w : WasmMqttClientAdapter D) rc (code : N) e c d evs evs' :
  m5_code rc = Z.of_N code → (code < 256)%N → js_as_string e = Some (rejection_text code) →
  (∀ opts, m5_publish_with_options topic payload opts (nc_client n) = (c, evs, Err (PublishFailed rc))) →
  (∀ opts, wm_publish_with_options topic payload opts (wa_client w) = (d, evs', Err e)) →
  (NativeMqttClient.publish topic payload args n).2 = Err (PublishRejected (Z.of_N code)) ∧
  (WasmMqttClientAdapter.publish topic payload args w).2 = Err (PublishRejected (Z.of_N code)).
Proof.
  intros Hrc Hc He Hn Hw. split.
  - unfold NativeMqttClient.publish, NativeMqttClient.on_client. rewrite Hn. simpl. by rewrite Hrc.
  - unfold WasmMqttClientAdapter.publish, WasmMqttClientAdapter.on_client. rewrite Hw. simpl.
    unfold WasmMqttClientAdapter.publish_error, WasmMqttClientAdapter.publish_rejection_code. rewrite He.
    cbn [mbind option_bind]. by rewrite rejection_text_read.
Qed.
End classes.

(** ** Rejected sessions *)

Section invalid.
Context {SJ : SerdeJson}.

Lemma on_event_invalid s ev :
  es_session_invalid (on_event s ev) = es_session_invalid s ∧
  es_invalid_calls (on_event s ev) =
    match ev with StatusChanged _ true => if es_session_invalid s then S (es_invalid_calls s) else es_invalid_calls s | _ => es_invalid_calls s end.
Proof.
  destruct ev as [h msg|st [|]| |sid|[] sid]; [|done..]. destruct h as [| | |entity]; simpl.
  - unfold handle_response. repeat case_match; done.
  - rewrite handle_scope_message_eq. repeat case_match; done.
  - rewrite handle_root_wildcard_message_eq. repeat case_match; done.
  - unfold handle_top_level_message. repeat case_match; done.
Qed.

Definition auth_failures (evs : list event) : nat :=
  length (filter (λ ev, match ev with StatusChanged _ true => true | _ => false end = true) evs).

(** The handler is called once for every rejected session reported. *)
Lemma on_events_invalid evs : ∀ s,
  es_session_invalid (foldl on_event s evs) = es_session_invalid s ∧
  es_invalid_calls (foldl on_event s evs) =
    if es_session_invalid s then es_invalid_calls s + auth_failures evs else es_invalid_calls s.
Proof.
  induction evs as [|ev evs IH]; intros s; simpl. { case_match; split; (done || unfold auth_failures; simpl; lia). }
  destruct (on_event_invalid s ev) as [Hs Hc]. destruct (IH (on_event s ev)) as [-> ->]. rewrite Hs, Hc. split; [done|].
  unfold auth_failures. rewrite filter_cons. destruct ev as [|st [|]| | |], (es_session_invalid s); simpl; try done; lia.
Qed.
End invalid.

Section native.
Context {C : Type} {M5 : Mqtt5Client C} {SJ : SerdeJson}.

Definition rejects_session (e : ClientEvent ConnectionEvent) : bool :=
  match e with
  | Connection (EvDisconnected (AuthFailure | ServerDisconnect (NotAuthorized | BadUsernameOrPassword | BadAuthenticationMethod))) => true
  | _ => false
  end.

(** A rejected session reaches the application. With the connection events
    wired and a handler installed, every call of the native client runs the
    handler exactly once for each session the broker rejected meanwhile. *)
Theorem native_rejections_reported {A} f (m : client_call C ConnectionEvent MqttError A) (e : SyncEngine (NativeMqttClient C)) c evs r :
  nc_handled (se_client e) = true → es_session_invalid (se_state e) = true →
  m (nc_client (se_client e)) = (c, evs, r) →
  es_invalid_calls (se_state (SyncEngine.call (NativeMqttClient.on_client f m) e).1) =
    es_invalid_calls (se_state e) + length (filter (λ ev, rejects_session ev = true) evs).
Proof.
  intros Hh Hi Hm. unfold SyncEngine.call, NativeMqttClient.on_client. rewrite Hm. simpl.
  destruct (on_events_invalid (evs ≫= NativeMqttClient.engine_event (nc_handled (se_client e))) (se_state e)) as [_ ->].
  rewrite Hi, Hh. f_equal. unfold auth_failures. clear Hm. induction evs as [|ev evs IH]; [done|].
  rewrite bind_cons, filter_app, length_app, IH, filter_cons.
  destruct ev as [h msg|[| |[|[| | |code]|]| | |]| | |]; done.
Qed.
End native.

Section wasm.
Context {C J : Type} {JT : JsText J} {WM : WasmMqttClient C J} {SJ : SerdeJson} {HI : HashIter} (cs : ConnectSettings).
#[local] Instance wasm_api : MqttClientApi (WasmMqttClientAdapter C) := WasmMqttClientAdapter.api cs.
Abbreviation Engine := (SyncEngine (WasmMqttClientAdapter C)).

(** An action of the engine that does not run the handler. *)
Definition unreported {A} (m : action Engine Error A) : Prop :=
  ∀ e, es_invalid_calls (se_state (m e).1) = es_invalid_calls (se_state e).

Lemma unreported_bind {A B} (m : action Engine Error A) (k : A → action Engine Error B) :
  unreported m → (∀ a, unreported (k a)) → unreported (abind m k).
Proof. intros Hm Hk e. unfold abind. specialize (Hm e). destruct (m e) as [e' [a|err]]; simpl in *; [by rewrite Hk|done]. Qed.

Lemma unreported_try {A B} (m : action Engine Error A) (k : result A Error → action Engine Error B) :
  unreported m → (∀ a, unreported (k a)) → unreported (atry m k).
Proof. intros Hm Hk e. unfold atry. specialize (Hm e). destruct (m e) as [e' r]; simpl in *. by rewrite Hk. Qed.

Lemma unreported_ignore {A} (m : action Engine Error A) : unreported m → unreported (aignore m).
Proof. intros Hm e. apply (Hm e). Qed.

Lemma unreported_for {A} (body : A → action Engine Error ()) l : (∀ a, unreported (body a)) → unreported (afor body l).
Proof. intros Hb. induction l as [|a l IH]; [done|]. simpl. by apply unreported_bind. Qed.

Lemma unreported_modify f : (∀ s, es_invalid_calls (f s) = es_invalid_calls s) → unreported (amodify (SyncEngine.on_state f)).
Proof. intros Hf e. apply Hf. Qed.

(** None of the adapter's calls reports a rejected session. *)
Lemma wasm_events_silent handled evs : auth_failures (evs ≫= WasmMqttClientAdapter.engine_event handled) = 0.
Proof.
  unfold auth_failures. induction evs as [|ev evs IH]; [done|]. rewrite bind_cons, filter_app, length_app, IH.
  destruct ev as [h msg|[|]| | |], handled; done.
Qed.

Lemma unreported_call {A} (m : awaited (WasmMqttClientAdapter C) A) : (∀ w, auth_failures (m w).1.2 = 0) → unreported (SyncEngine.call m).
Proof.
  intros Hm e. unfold SyncEngine.call. specialize (Hm (se_client e)). destruct (m (se_client e)) as [[c evs] r]. simpl in *.
  destruct (on_events_invalid evs (se_state e)) as [_ ->]. rewrite Hm. case_match; lia.
Qed.

Lemma silent_client {A} f (m : client_call C WasmCallback J A) w : auth_failures (WasmMqttClientAdapter.on_client f m w).1.2 = 0.
Proof. unfold WasmMqttClientAdapter.on_client. destruct (m (wa_client w)) as [[c evs] r]. simpl. apply wasm_events_silent. Qed.

Lemma silent_connect url args w : auth_failures (WasmMqttClientAdapter.connect cs url args w).1.2 = 0.
Proof.
  unfold WasmMqttClientAdapter.connect. destruct (jwt_ticket args);
    (destruct (WasmMqttClientAdapter.on_client _ _ _) as [[w' evs] r] eqn:E; simpl;
     change evs with ((w', evs, r).1.2); rewrite <-E; apply silent_client).
Qed.

Lemma unreported_fresh_id : unreported SyncEngine.fresh_id.
Proof. intros e. unfold SyncEngine.fresh_id. by destruct (now_v7 (se_client e)) as [id c]. Qed.

(** Runs through an action of the engine, call by call. *)
Ltac unreported_step :=
  lazymatch goal with
  | |- unreported (abind _ _) => apply unreported_bind; [|intros ?]
  | |- unreported (atry _ _) => apply unreported_try; [|intros ?]
  | |- unreported (aignore _) => apply unreported_ignore
  | |- unreported (afor _ _) => apply unreported_for; intros ?
  | |- unreported (amodify (SyncEngine.on_state _)) => apply unreported_modify; intros ?; reflexivity
  | |- unreported (SyncEngine.call (mqtt_connect _ _)) => apply unreported_call; intros ?; apply silent_connect
  | |- unreported (SyncEngine.call _) => apply unreported_call; intros ?; apply silent_client
  | |- unreported SyncEngine.fresh_id => apply unreported_fresh_id
  | |- unreported (match ?x with _ => _ end) => destruct x
  | |- unreported (if ?x then _ else _) => destruct x
  | |- unreported _ => intros ?; reflexivity
  end.

Lemma subscribe_unreported scope_id :
  unreported SyncEngine.subscribe_to_response_topic ∧ unreported SyncEngine.subscribe_to_top_level ∧ unreported (SyncEngine.subscribe_to_scope scope_id).
Proof.
  unfold SyncEngine.subscribe_to_response_topic, SyncEngine.subscribe_to_top_level, SyncEngine.subscribe_to_scope.
  split_and!; repeat unreported_step.
Qed.

Lemma connect_unreported url ticket user pass : unreported (SyncEngine.connect url ticket user pass).
Proof.
  unfold SyncEngine.connect. unreported_step; [repeat unreported_step|]. unreported_step; [repeat unreported_step|].
  match goal with |- unreported (if ?x then _ else _) => destruct x end; [|repeat unreported_step].
  unreported_step; [apply (subscribe_unreported "")|]. unreported_step; [apply (subscribe_unreported "")|].
  unreported_step; [repeat unreported_step|]. do 2 unreported_step. apply subscribe_unreported.
Qed.

(** In a browser a rejected session is never reported. Whatever the broker
    does, connecting, reconnecting, disconnecting and requests over the wasm
    client never run the handler the application installed for it. *)
Theorem wasm_rejections_unreported url ticket user pass topic payload :
  unreported (SyncEngine.connect url ticket user pass) ∧ unreported (SyncEngine.reconnect url ticket user pass) ∧
  unreported SyncEngine.disconnect ∧ unreported (SyncEngine.request topic payload).
Proof.
  split_and!.
  - apply connect_unreported.
  - unfold SyncEngine.reconnect. unreported_step; [repeat unreported_step|apply connect_unreported].
  - unfold SyncEngine.disconnect. repeat unreported_step.
  - unfold SyncEngine.request. repeat unreported_step.
Qed.
End wasm.

(** ** Runs *)

Module AdapterRuns.

(** A broker that refuses every publish as not authorized. *)
#[local] Instance refusing_native : Mqtt5Client unit := {|
  m5_new _ := ();
  m5_set_auth_handler _ c := c;
  m5_set_queue_on_disconnect _ c := c;
  m5_connect_with_options _ _ c := (c, [Connection (EvDisconnected (ServerDisconnect NotAuthorized))], Ok false);
  m5_disconnect c := (c, [], Ok ());
  m5_disconnect_abnormally c := (c, [], Ok ());
  m5_is_connected _ := true;
  m5_publish_with_options _ _ _ c := (c, [], Err (PublishFailed NotAuthorized));
  m5_subscribe_with_options _ _ _ c := (c, [], Ok ());
  m5_unsubscribe _ c := (c, [], Ok ());
  m5_on_connection_event c := (c, [], Ok ());
  m5_wait _ c := (c, [], Ok ());
  m5_text _ := "refused";
  m5_code rc := match rc with NotAuthorized => 135 | BadUsernameOrPassword => 134 | BadAuthenticationMethod => 140 | OtherCode n => n end%Z;
  m5_new_id c := ("r1", c);
  m5_now _ := 0%Z;
|}.

#[local] Instance refusing_wasm : WasmMqttClient unit Value := {|
  wm_new _ := ();
  wm_on_auth_challenge c := c;
  wm_connect_with_options _ _ c := (c, [Connection OnDisconnect], Ok ());
  wm_disconnect c := (c, [], Ok ());
  wm_is_connected _ := true;
  wm_publish_with_options _ _ _ c := (c, [], Err (Str "Publish rejected with reason code: 135"));
  wm_subscribe _ _ _ _ c := (c, [], Ok ());
  wm_unsubscribe _ c := (c, [], Ok ());
  wm_wait _ c := (c, [], Ok ());
  wm_new_id c := ("r1", c);
  wm_now _ := 0%Z;
|}.

Lemma refusal_classes_agree_witness :
  (NativeMqttClient.publish "$DB/note/n1/update" [] (mkPublish "r" [] []) (NativeMqttClient.new "c1")).2 = Err (PublishRejected 135) ∧
  (WasmMqttClientAdapter.publish "$DB/note/n1/update" [] (mkPublish "r" [] []) (WasmMqttClientAdapter.new "c1")).2 = Err (PublishRejected 135) ∧
  is_terminal_publish_rejection (PublishRejected 135) = true.
Proof.
  destruct (refusal_classes_agree "$DB/note/n1/update" [] (mkPublish "r" [] []) (NativeMqttClient.new "c1") (WasmMqttClientAdapter.new "c1")
    NotAuthorized 135 (Str "Publish rejected with reason code: 135") () () [] []) as [Hn Hw]; [reflexivity..|].
  split_and!; [exact Hn|exact Hw|reflexivity].
Defined.

(** The same rejection of a session, on both platforms. *)
Definition ex_settings : ConnectSettings := mkSettings false 60 3600 None.

Definition watching {C} (client : C) : SyncEngine C := SyncEngine.on_state set_session_invalid_handler (ex_engine client).

Lemma rejected_session_runs :
  es_invalid_calls (se_state (SyncEngine.connect (MC := NativeMqttClient.api ex_settings) "mqtt://b" (Some "jwt") None None
    (watching (mkNativeClient () "c1" true))).1) = 1 ∧
  es_invalid_calls (se_state (SyncEngine.connect (MC := WasmMqttClientAdapter.api ex_settings) "ws://b" (Some "jwt") None None
    (watching (mkAdapter () 2 true))).1) = 0.
Proof. vm_compute. split; reflexivity. Qed.

Lemma native_rejections_reported_witness :
  es_invalid_calls (se_state (SyncEngine.call (NativeMqttClient.on_client (λ e, Mqtt (m5_text e))
    (m5_connect_with_options "mqtt://b" (NativeMqttClient.options ex_settings (mkConnect None None None) "c1")))
    (watching (mkNativeClient () "c1" true))).1) = 1.
Proof.
  apply (native_rejections_reported (λ e, Mqtt (m5_text e))
    (m5_connect_with_options "mqtt://b" (NativeMqttClient.options ex_settings (mkConnect None None None) "c1"))
    (watching (mkNativeClient () "c1" true)) () [Connection (EvDisconnected (ServerDisconnect NotAuthorized))] (Ok false)); reflexivity.
Defined.
End AdapterRuns.
