(* ===== verification/RemoteSync.v ===== *)
(** * The remote sync layer

    Models remote_sync.rs: the outbound calls that choose a scope by the role
    of an entity, the application of inbound mutations to the local rows, and
    the reconciliation of a scope with the records the broker lists. Local
    rows are reached through the trait [LocalAccessor]; the store implements it
    over its durable or its memory layer. *)
From S2P Require Import Prelude Json Types Backend SyncEngine.

(** The trait [LocalAccessor]. *)
Class LocalAccessor (W : Type) := {
  acc_read : string → string → action W Error (option Record_);
  acc_list : string → option string → action W Error (list Record_);
  acc_create : string → Record_ → action W Error ();
  acc_update : string → string → Record_ → action W Error ();
  acc_delete : string → string → action W Error ();
}.

(** What this layer asks of an offline queue kept in a state [W]. *)
Record QueueReads (W : Type) := mkReads {
  qr_pending_for_scope : string → W → result (list PendingMutation) Error;
  qr_has_pending_insert : string → string → W → result bool Error;
}.
Arguments mkReads {W}.
Arguments qr_pending_for_scope {W}.
Arguments qr_has_pending_insert {W}.

Inductive EntityRole := RoleRoot | RoleChild | RoleTopLevel | RoleUnknown.

Definition entity_role (c : StoreConfig) (entity : string) : EntityRole :=
  if bool_decide (entity = root_entity (scope c)) then RoleRoot else
  if bool_decide (entity ∈ top_level c) then RoleTopLevel else
  if bool_decide (entity ∈ child_entities (scope c)) then RoleChild else RoleUnknown.

(** The scope every outbound call passes on. *)
Definition outbound_scope (c : StoreConfig) (entity scope_id : string) : string :=
  match entity_role c entity with
  | RoleChild => scope_id
  | RoleRoot | RoleTopLevel | RoleUnknown => ""
  end.

(** ** The layer over the engine *)

Record RemoteSyncLayer (C : Type) := mkRemote { rl_config : StoreConfig; rl_sync : SyncEngine C }.
Arguments mkRemote {C}.
Arguments rl_config {C}.
Arguments rl_sync {C}.

Module RemoteSyncLayer.
Section layer.
Context {C : Type} {MC : MqttClientApi C} {SJ : SerdeJson} {HI : HashIter}.
Implicit Types l : RemoteSyncLayer C.

Definition on_sync {A} (m : action (SyncEngine C) Error A) : action (RemoteSyncLayer C) Error A :=
  azoom rl_sync (λ e l, mkRemote (rl_config l) e) m.

Definition new (client_id : string) (config : StoreConfig) (client : C) : result (RemoteSyncLayer C) Error :=
  let? sync := SyncEngine.new client_id config client in Ok (mkRemote config sync).

Definition connect (server_url : string) (ticket username password : option string)
    : action (RemoteSyncLayer C) Error () :=
  on_sync (SyncEngine.connect server_url ticket username password).
Definition disconnect : action (RemoteSyncLayer C) Error () := on_sync SyncEngine.disconnect.
Definition disconnect_abnormally : action (RemoteSyncLayer C) Error () := on_sync SyncEngine.disconnect_abnormally.
Definition reconnect (server_url : string) (ticket username password : option string)
    : action (RemoteSyncLayer C) Error () :=
  on_sync (SyncEngine.reconnect server_url ticket username password).
Definition request (topic : string) (payload : Value) : action (RemoteSyncLayer C) Error Record_ :=
  on_sync (SyncEngine.request topic payload).
Definition applied_version l (scope_id : string) : option Z := SyncEngine.applied_version (rl_sync l) scope_id.
Definition open_scope (scope_id : string) : action (RemoteSyncLayer C) Error ScopeState :=
  on_sync (SyncEngine.open_scope scope_id).
Definition close_scope (scope_id : string) : action (RemoteSyncLayer C) Error () :=
  on_sync (SyncEngine.close_scope scope_id).
Definition fetch_list (entity : string) (scope_id : option string)
    : action (RemoteSyncLayer C) Error (list Record_) :=
  on_sync (SyncEngine.fetch_list entity scope_id).
Definition fetch_one (entity id : string) : action (RemoteSyncLayer C) Error (option Record_) :=
  on_sync (SyncEngine.fetch_one entity id).

Definition sync_create (entity scope_id : string) (data : Record_) : action (RemoteSyncLayer C) Error string :=
  let! c := aget rl_config in
  on_sync (SyncEngine.sync_create entity (outbound_scope c entity scope_id) data).

Definition sync_update (entity scope_id id : string) (data : Record_) : action (RemoteSyncLayer C) Error () :=
  let! c := aget rl_config in
  on_sync (SyncEngine.sync_update entity (outbound_scope c entity scope_id) id data).

Definition sync_delete (entity scope_id id : string) : action (RemoteSyncLayer C) Error () :=
  let! c := aget rl_config in
  on_sync (SyncEngine.sync_delete entity (outbound_scope c entity scope_id) id).

Definition sync_update_checked (entity scope_id id : string) (data : Record_) (expected_version : Z)
    : action (RemoteSyncLayer C) Error Z :=
  let! c := aget rl_config in
  on_sync (SyncEngine.sync_update_checked entity (outbound_scope c entity scope_id) id data expected_version).

Definition sync_delete_checked (entity scope_id id : string) (expected_version : Z)
    : action (RemoteSyncLayer C) Error () :=
  let! c := aget rl_config in
  on_sync (SyncEngine.sync_delete_checked entity (outbound_scope c entity scope_id) id expected_version).

Definition delete_entity (entity id : string) : action (RemoteSyncLayer C) Error () :=
  try! r := on_sync (SyncEngine.sync_delete entity "" id) in
  match r with
  | Ok _ => aret ()
  | Err err => if is_not_found err then aret () else athrow err
  end.

(** [impl MutationSender for RemoteSyncLayer]. *)
#[export] Instance mutation_sender : MutationSender (RemoteSyncLayer C) := {|
  Types.sync_create entity scope_id data := let! _ := sync_create entity scope_id data in aret ();
  Types.sync_update := sync_update;
  Types.sync_delete := sync_delete;
  Types.read_entity := fetch_one;
  Types.delete_entity := delete_entity;
|}.
End layer.
End RemoteSyncLayer.

(** ** Inbound *)

Section inbound.
Context {W : Type} {LA : LocalAccessor W} {HI : HashIter}.

(** [(Some(remote), Some(local)) && remote < local]. *)
Definition older (data existing : Record_) (field : string) : bool :=
  match get_u64 data field, get_u64 existing field with
  | Some remote, Some local => bool_decide (remote < local)%Z
  | _, _ => false
  end.

Definition apply_mutation_to_db (c : StoreConfig) (mutation : SyncMutation) : action W Error bool :=
  match sm_op mutation with
  | Insert =>
    match sm_data mutation with
    | None => aret false
    | Some data =>
      let! known :=
        match get_str data (scope_field (scope c)) with
        | Some ref_scope =>
          let! root := acc_read (root_entity (scope c)) ref_scope in
          aret (bool_decide (is_Some root))
        | None => aret true
        end in
      if negb known then aret false else
      acc_create (sm_entity mutation) (<["id" := Str (sm_id mutation)]> data) ;;
      aret true
    end
  | Update =>
    match sm_data mutation with
    | None => aret false
    | Some data =>
      let! existing := acc_read (sm_entity mutation) (sm_id mutation) in
      match existing with
      | None => aret false
      | Some existing =>
        if older data existing (version_field c) then aret false else
        if older data existing (updated_at_field c) then aret false else
        acc_update (sm_entity mutation) (sm_id mutation) data ;;
        aret true
      end
    end
  | Delete =>
    try! r := acc_delete (sm_entity mutation) (sm_id mutation) in
    match r with
    | Ok _ => aret true
    | Err err => if is_not_found err then aret false else athrow err
    end
  end.

(** [for p in &pending { map.entry(p.id).or_default().push(p.op) }]. *)
Definition pending_by_id (pending : list PendingMutation) : gmap string (list Operation) :=
  foldl (λ m p, <[pm_id p := default [] (m !! pm_id p) ++ [pm_op p]]> m) ∅ pending.

Definition ids_of (records : list Record_) : gset string := list_to_set (omap (λ r, get_str r "id") records).

Definition ops_contain (ops : option (list Operation)) (op : Operation) : bool :=
  match ops with Some ops => bool_decide (op ∈ ops) | None => false end.

Definition clean_record (scope_field scope_id : string) (record : Record_) : Record_ :=
  let cleaned := strip_nulls record in
  if negb (contains_key cleaned scope_field) then <[scope_field := Str scope_id]> cleaned else cleaned.

(** The body of the loop over the server's records. *)
Definition reconcile_server (scope_field scope_id entity : string) (by_id : gmap string (list Operation))
    (local_ids : gset string) (record : Record_) : action W Error () :=
  match get_str record "id" with
  | None => aret ()
  | Some id =>
    let pending_ops := by_id !! id in
    if ops_contain pending_ops Delete || ops_contain pending_ops Update then aret () else
    let cleaned := clean_record scope_field scope_id record in
    if bool_decide (id ∈ local_ids) then acc_update entity id cleaned else acc_create entity cleaned
  end.

(** The body of the loop over the pending mutations. *)
Definition reconcile_pending (entity : string) (server_ids local_ids : gset string) (p : PendingMutation)
    : action W Error () :=
  if bool_decide (pm_op p = Delete) then aret () else
  if bool_decide (pm_id p ∈ server_ids) || bool_decide (pm_id p ∈ local_ids) then aret () else
  match pm_data p with
  | None => aret ()
  | Some data => aignore (acc_create entity data)
  end.

(** The body of the loop over the local ids. *)
Definition reconcile_local (entity : string) (by_id : gmap string (list Operation)) (server_ids : gset string)
    (id : string) : action W Error () :=
  if bool_decide (id ∈ server_ids) then aret () else
  if bool_decide (is_Some (by_id !! id)) then aret () else
  aignore (acc_delete entity id).

Definition reconcile_children (c : StoreConfig) (scope_id entity : string) (server_records : list Record_)
    (queue : option (QueueReads W)) : action W Error () :=
  let scope_field := scope_field (scope c) in
  let! local_records := acc_list entity (Some scope_id) in
  let! pending := match queue with
                  | Some q => λ w, (w, qr_pending_for_scope q scope_id w)
                  | None => aret []
                  end in
  let pending := filter (λ p, pm_entity p = entity) pending in
  let by_id := pending_by_id pending in
  let server_ids := ids_of server_records in
  let local_ids := ids_of local_records in
  afor (reconcile_server scope_field scope_id entity by_id local_ids) server_records ;;
  afor (reconcile_pending entity server_ids local_ids) pending ;;
  afor (reconcile_local entity by_id server_ids) (hset_iter local_ids).

(** [sync_root_entity_list]; [fetch] is [SyncEngine::fetch_list] on the
    engine the state holds. *)
Section root_list.
Context (fetch : string → option string → action W Error (list Record_)).

Definition drop_unlisted (c : StoreConfig) (scoped : list Record_) (queue : option (QueueReads W))
    (authenticated_user : option string) (local : Record_) : action W Error () :=
  match get_str local "id" with
  | None => aret ()
  | Some id =>
    if bool_decide (authenticated_user = None) then aret () else
    let in_server := existsb (λ r, bool_decide (get_str r "id" = Some id)) scoped in
    if in_server then aret () else
    let! pending := match queue with
                    | Some q => λ w, (w, qr_has_pending_insert q (root_entity (scope c)) id w)
                    | None => aret false
                    end in
    if pending then aret () else aignore (acc_delete (root_entity (scope c)) id)
  end.

Definition adopt_root (c : StoreConfig) (queue : option (QueueReads W)) (entity : Record_) : action W Error () :=
  match get_str entity "id" with
  | None => aret ()
  | Some id =>
    let root := root_entity (scope c) in
    let! pending := match queue with
                    | Some q => λ w, (w, qr_pending_for_scope q id w)
                    | None => aret []
                    end in
    let has_pending_root_delete :=
      existsb (λ p, bool_decide (pm_op p = Delete) && bool_decide (pm_entity p = root)) pending in
    if has_pending_root_delete then aret () else
    let! existing := acc_read root id in
    (if bool_decide (is_Some existing) then acc_update root id entity else acc_create root entity) ;;
    afor (λ child,
      let! records := fetch child (Some id) in
      reconcile_children c id child records queue) (child_entities (scope c))
  end.

Definition sync_root_entity_list (c : StoreConfig) (queue : option (QueueReads W))
    (authenticated_user : option string) : action W Error () :=
  let root := root_entity (scope c) in
  let! server_entities := fetch root None in
  let scoped :=
    match authenticated_user, user_scope_field c with
    | Some user, Some field => filter (λ r, get_str r field = Some user) server_entities
    | _, _ => server_entities
    end in
  let! local_entities := acc_list root None in
  afor (drop_unlisted c scoped queue authenticated_user) local_entities ;;
  afor (adopt_root c queue) scoped.
End root_list.
End inbound.

(** ** Local rows as a table

    What the layer relies on from an accessor over a healthy database: reads
    and lists show the rows, a create overwrites, an update merges and a
    delete removes. [ok] are the states it does so in, which no call leaves;
    [acc_defaults] is what the schema fills in. *)
Class TableAccessor (W : Type) {LA : LocalAccessor W} (ok : W → Prop) := {
  acc_config : StoreConfig;
  acc_table : W → gmap (string * string) Record_;
  acc_defaults : string → Record_ → Record_;
  acc_defaults_incl e r : r ⊆ acc_defaults e r;
  acc_row w e id r : ok w → acc_table w !! (e, id) = Some r → get_str r "id" = Some id;
  acc_read_law w e id : ok w → acc_read e id w = (w, Ok (acc_table w !! (e, id)));
  acc_list_law w e sid : ok w → e ≠ root_entity (scope acc_config) → e ∉ top_level acc_config →
    ∃ rows, acc_list e (Some sid) w = (w, Ok rows) ∧
      rows ≡ₚ filter (λ r, get_str r (scope_field (scope acc_config)) = Some sid) (rows_of (acc_table w) e);
  acc_create_law w e d id : ok w → get_str d "id" = Some id →
    ∃ w', acc_create e d w = (w', Ok ()) ∧ ok w' ∧
      acc_table w' = <[(e, id) := acc_defaults e (strip_nulls d)]> (acc_table w);
  acc_update_law w e id old fields : ok w → acc_table w !! (e, id) = Some old → keeps_id id fields →
    ∃ w', acc_update e id fields w = (w', Ok ()) ∧ ok w' ∧
      acc_table w' = <[(e, id) := extend old (strip_nulls fields)]> (acc_table w);
  acc_delete_law w e id : ok w → ∃ w' r, acc_delete e id w = (w', r) ∧ ok w' ∧
    acc_table w' = delete (e, id) (acc_table w) ∧ (is_Some (acc_table w !! (e, id)) → r = Ok ());
}.

Section accessor.
Context {W : Type} {LA : LocalAccessor W} {ok : W → Prop} {TA : TableAccessor W ok} {HI : HashIter}.
Implicit Types (w : W) (c : StoreConfig).

(** *** Stale updates *)

(** A field holds an unsigned number, or the record does not mention it. *)
Definition numeric (data : Record_) (field : string) : Prop :=
  ∀ v, data !! field = Some v → is_Some (as_u64 v) ∨ v = Null.

Lemma get_u64_extend old fields field :
  numeric fields field →
  get_u64 (extend old (strip_nulls fields)) field =
    match get_u64 fields field with Some n => Some n | None => get_u64 old field end.
Proof.
  intros Hn. unfold get_u64, extend. rewrite lookup_union.
  destruct (strip_nulls fields !! field) as [v|] eqn:E.
  - apply strip_nulls_lookup in E as [E Hnull]. rewrite E. simpl. destruct (Hn v E) as [[n Hv]| ->]; [|done].
    rewrite Hv. by destruct (old !! field); simpl; rewrite ?Hv.
  - destruct (fields !! field) as [v|] eqn:Ef; simpl.
    + destruct (Hn v Ef) as [[n Hv]| ->]; [|by destruct (old !! field)].
      assert (strip_nulls fields !! field = Some v) as E'; [|congruence].
      apply strip_nulls_lookup. split; [done|]. by destruct v.
    + by destruct (old !! field).
Qed.

(** Applying an update: what happens to the row. *)
Lemma apply_update c w m data old :
  ok w → sm_op m = Update → sm_data m = Some data → acc_table w !! (sm_entity m, sm_id m) = Some old →
  keeps_id (sm_id m) data →
  post (apply_mutation_to_db c m) w (λ w' r,
    if older data old (version_field c) || older data old (updated_at_field c)
    then r = Ok false ∧ w' = w
    else r = Ok true ∧ ok w' ∧
      acc_table w' = <[(sm_entity m, sm_id m) := extend old (strip_nulls data)]> (acc_table w)).
Proof.
  intros Hok Hop Hd Hold Hid. unfold apply_mutation_to_db. rewrite Hop, Hd. astep.
  eapply post_eq; [by apply acc_read_law|]. cbv beta iota. rewrite Hold.
  destruct (older data old (version_field c)); asteps; [done|].
  destruct (older data old (updated_at_field c)); asteps; [done|].
  destruct (acc_update_law w _ _ old data Hok Hold Hid) as (w' & E & Hok' & Ht).
  eapply post_eq; [exact E|]. asteps. done.
Qed.

(** An update merges into a row it is not older than, or does nothing. *)
Lemma update_step c w m :
  ok w → sm_op m = Update → (∀ data, sm_data m = Some data → keeps_id (sm_id m) data) →
  let w1 := (apply_mutation_to_db c m w).1 in
  ok w1 ∧ ((∃ old data, acc_table w !! (sm_entity m, sm_id m) = Some old ∧ sm_data m = Some data ∧
     older data old (version_field c) = false ∧ older data old (updated_at_field c) = false ∧
     acc_table w1 = <[(sm_entity m, sm_id m) := extend old (strip_nulls data)]> (acc_table w)) ∨
  acc_table w1 = acc_table w).
Proof.
  intros Hok Hop Hm w1. assert (∀ P : Prop, w1 = w → ok w1 ∧ (P ∨ acc_table w1 = acc_table w)) as Hsame
    by (intros P ->; auto).
  destruct (sm_data m) as [data|] eqn:Hd.
  2:{ apply Hsame. unfold w1, apply_mutation_to_db. by rewrite Hop, Hd. }
  destruct (acc_table w !! (sm_entity m, sm_id m)) as [old|] eqn:Hold.
  2:{ apply Hsame. unfold w1, apply_mutation_to_db. rewrite Hop, Hd. unfold abind. by rewrite acc_read_law, Hold. }
  pose proof (apply_update c w m data old Hok Hop Hd Hold (Hm data eq_refl)) as Hp. unfold post in Hp. fold w1 in Hp.
  destruct (older data old (version_field c)) eqn:E1; simpl in Hp; [apply Hsame; by destruct Hp|].
  destruct (older data old (updated_at_field c)) eqn:E2; simpl in Hp; [apply Hsame; by destruct Hp|].
  destruct Hp as (_ & Hok' & Hp). split; [done|]. left. exists old, data. by split_and!.
Qed.

(** Applying inbound updates one after another. *)
Fixpoint apply_all c (ms : list SyncMutation) w : W :=
  match ms with
  | [] => w
  | m :: ms => apply_all c ms (apply_mutation_to_db c m w).1
  end.

Definition row_number (field : string) w (k : string * string) : option Z :=
  acc_table w !! k ≫= λ r, get_u64 r field.

(** C18: An inbound update never takes a row back. Whatever updates arrive, in
    whatever order and however often, the version and the time stamp of a row
    only grow, no row appears or disappears and every update leaves the other
    rows alone, provided the broker sends numbers in these two fields. *)
Theorem updates_monotone c ms w k :
  ok w →
  Forall (λ m, sm_op m = Update ∧ ∀ data, sm_data m = Some data →
     keeps_id (sm_id m) data ∧ numeric data (version_field c) ∧ numeric data (updated_at_field c)) ms →
  let w' := apply_all c ms w in
  (is_Some (acc_table w' !! k) ↔ is_Some (acc_table w !! k)) ∧
  (∀ field n, field = version_field c ∨ field = updated_at_field c → row_number field w k = Some n →
     ∃ n', row_number field w' k = Some n' ∧ (n ≤ n')%Z) ∧
  (Forall (λ m, (sm_entity m, sm_id m) ≠ k) ms → acc_table w' !! k = acc_table w !! k).
Proof.
  intros Hok Hms. revert w Hok. induction Hms as [|m ms [Hop Hm] _ IH]; intros w Hok; simpl.
  { split; [done|]. split; [|done]. intros field n _ H. exists n. split; [done|lia]. }
  destruct (update_step c w m Hok Hop) as [Hok1 Hstep]; [naive_solver|].
  set (w1 := (apply_mutation_to_db c m w).1) in *. destruct (IH w1 Hok1) as (IH1 & IH2 & IH3). clear IH.
  destruct Hstep as [(old & data & Hold & Hd & Hv & Hts & Ht)|Ht].
  2:{ rewrite Ht in IH1, IH3. split; [done|]. split.
      - intros field n Hf Hn. apply (IH2 field n Hf). unfold row_number in *. by rewrite Ht.
      - intros [_ Hne]%Forall_cons. by apply IH3. }
  destruct (Hm data Hd) as (_ & Hnv & Hnt). split; [|split].
  - rewrite IH1, Ht, lookup_insert. case_decide as E; [|done]. subst k. rewrite Hold. split; by eexists.
  - intros field n Hf Hn.
    assert (∃ n1, row_number field w1 k = Some n1 ∧ (n ≤ n1)%Z) as (n1 & Hn1 & Hle).
    { unfold row_number in *. rewrite Ht, lookup_insert. case_decide as E; [|by exists n].
      subst k. rewrite Hold in Hn. simpl in *.
      assert (numeric data field ∧ older data old field = false) as [Hnum Ho]
        by (destruct Hf as [->| ->]; done).
      rewrite get_u64_extend by done. unfold older in Ho. rewrite Hn in Ho.
      destruct (get_u64 data field) as [n2|]; [|by exists n].
      exists n2. split; [done|]. apply bool_decide_eq_false_1 in Ho. lia. }
    destruct (IH2 field n1 Hf Hn1) as (n' & Hn' & Hle'). exists n'. split; [done|lia].
  - intros [Hne Hrest]%Forall_cons. rewrite IH3, Ht by done. by rewrite lookup_insert_ne.
Qed.
(** *** Reconciliation, row by row *)

Definition listed (server : list Record_) (id : string) : option Record_ :=
  head (filter (λ r, get_str r "id" = Some id) server).

Definition in_scope c (sid e : string) w (id : string) : option Record_ :=
  r ← acc_table w !! (e, id);
  if bool_decide (get_str r (scope_field (scope c)) = Some sid) then Some r else None.

Definition ops_of (pending : list PendingMutation) (e id : string) : list Operation :=
  pm_op <$> filter (λ p, pm_entity p = e ∧ pm_id p = id) pending.

(** The record an offline mutation would create. *)
Definition offline_record (pending : list PendingMutation) (e id : string) : option Record_ :=
  last (omap pm_data (filter (λ p, (pm_entity p = e ∧ pm_id p = id) ∧ pm_op p ≠ Delete) pending)).

(** The row reconciliation leaves under an id. *)
Definition reconciled c (sid e : string) (server : list Record_) (pending : list PendingMutation) w (id : string)
    : option Record_ :=
  match listed server id, in_scope c sid e w id with
  | Some r, local =>
    if bool_decide (Delete ∈ ops_of pending e id) || bool_decide (Update ∈ ops_of pending e id)
    then acc_table w !! (e, id)
    else let cleaned := clean_record (scope_field (scope c)) sid r in
         Some match local with Some old => extend old cleaned | None => acc_defaults e cleaned end
  | None, Some old => if bool_decide (ops_of pending e id = []) then None else Some old
  | None, None =>
    match offline_record pending e id with
    | Some d => Some (acc_defaults e (strip_nulls d))
    | None => acc_table w !! (e, id)
    end
  end.

Lemma pending_by_id_lookup (ps : list PendingMutation) id :
  pending_by_id ps !! id =
    let ops := pm_op <$> filter (λ p, pm_id p = id) ps in if bool_decide (ops = []) then None else Some ops.
Proof.
  unfold pending_by_id. induction ps as [|p ps IH] using rev_ind; [done|].
  rewrite foldl_app, filter_app, fmap_app. cbn [foldl].
  rewrite lookup_insert, filter_cons, filter_nil. case_decide as E.
  - subst. cbn zeta in *. rewrite IH.
    rewrite (bool_decide_eq_false_2 (_ ++ _ = [])) by (by intros [_ ?]%app_nil).
    by case_bool_decide as E'; [rewrite E'|].
  - cbn zeta in *. cbn [fmap list_fmap]. by rewrite app_nil_r, IH.
Qed.

Lemma ops_contain_pending (ps : list PendingMutation) e id op :
  ops_contain (pending_by_id (filter (λ p, pm_entity p = e) ps) !! id) op = bool_decide (op ∈ ops_of ps e id).
Proof.
  rewrite pending_by_id_lookup. unfold ops_of. cbn zeta. rewrite list_filter_filter.
  rewrite (list_filter_iff (λ p, pm_id p = id ∧ pm_entity p = e) (λ p, pm_entity p = e ∧ pm_id p = id)) by naive_solver.
  case_bool_decide as E; [|done]. rewrite E. symmetry. apply bool_decide_eq_false_2, not_elem_of_nil.
Qed.

Lemma pending_by_id_some (ps : list PendingMutation) e id :
  bool_decide (is_Some (pending_by_id (filter (λ p, pm_entity p = e) ps) !! id)) =
    negb (bool_decide (ops_of ps e id = [])).
Proof.
  rewrite pending_by_id_lookup. unfold ops_of. cbn zeta. rewrite list_filter_filter.
  rewrite (list_filter_iff (λ p, pm_id p = id ∧ pm_entity p = e) (λ p, pm_entity p = e ∧ pm_id p = id)) by naive_solver.
  by destruct (bool_decide (_ <$> _ = [])).
Qed.

Lemma elem_of_ids_of (rs : list Record_) id : id ∈ ids_of rs ↔ is_Some (listed rs id).
Proof.
  unfold ids_of, listed. rewrite elem_of_list_to_set, list_elem_of_omap. split.
  - intros (r & Hr & Hid). destruct (filter _ rs) as [|r' l] eqn:E; [|by eexists].
    assert (r ∈ filter (λ r, get_str r "id" = Some id) rs) as Hin by (by apply list_elem_of_filter).
    rewrite E in Hin. by apply not_elem_of_nil in Hin.
  - intros [r Hr]. assert (r ∈ filter (λ r, get_str r "id" = Some id) rs) as [? ?]%list_elem_of_filter; [|by exists r].
    destruct (filter _ rs); simplify_eq/=. left.
Qed.
Lemma get_id_clean f sid r id :
  get_str r "id" = Some id → get_str (clean_record f sid r) "id" = Some id.
Proof.
  intros Hid. unfold clean_record. rewrite <-get_str_strip in Hid.
  destruct (contains_key (strip_nulls r) f) eqn:E; simpl; [done|].
  rewrite get_str_insert. case_decide as Hk; [|done]. subst. apply contains_key_false in E.
  unfold get_str in Hid. by rewrite E in Hid.
Qed.

Lemma strip_clean f sid r : strip_nulls (clean_record f sid r) = clean_record f sid r.
Proof.
  apply strip_nulls_id. intros k v. unfold clean_record.
  destruct (negb _); [rewrite lookup_insert; case_decide; [by intros [= <-]|]|];
    intros Hk; by apply strip_nulls_lookup in Hk as [_ ?].
Qed.

Lemma listed_cons r rs id :
  listed (r :: rs) id = if decide (get_str r "id" = Some id) then Some r else listed rs id.
Proof. unfold listed. rewrite filter_cons. by case_decide. Qed.

(** The three loops. *)
Section loops.
Context (c : StoreConfig) (sid e : string).

(** What one server record does to the rows. *)
Definition server_effect (by_id : gmap string (list Operation)) (local_ids : gset string) w (r : Record_)
    (id : string) : option Record_ :=
  if ops_contain (by_id !! id) Delete || ops_contain (by_id !! id) Update then acc_table w !! (e, id)
  else let cleaned := clean_record (scope_field (scope c)) sid r in
       Some (if bool_decide (id ∈ local_ids) then extend (default ∅ (acc_table w !! (e, id))) cleaned
             else acc_defaults e cleaned).

Lemma server_body by_id local_ids r w :
  ok w → (∀ id, id ∈ local_ids → is_Some (acc_table w !! (e, id))) →
  post (reconcile_server (scope_field (scope c)) sid e by_id local_ids r) w (λ w1 res, res = Ok () ∧ ok w1 ∧
    ∀ k, acc_table w1 !! k =
      match get_str r "id" with
      | Some id => if decide (k = (e, id)) then server_effect by_id local_ids w r id else acc_table w !! k
      | None => acc_table w !! k
      end).
Proof.
  intros Hok Hloc. unfold reconcile_server, server_effect.
  destruct (get_str r "id") as [id|] eqn:Hid; [|by apply post_ret].
  destruct (ops_contain _ Delete || ops_contain _ Update).
  { apply post_ret. split_and!; [done..|]. intros k. by case_decide; [subst|]. }
  pose proof (get_id_clean (scope_field (scope c)) sid r id Hid) as Hcid. case_bool_decide as Hl.
  - destruct (Hloc id Hl) as [old Hold].
    destruct (acc_update_law w e id old (clean_record (scope_field (scope c)) sid r) Hok Hold) as (w1 & E & Hok1 & Ht).
    { intros v Hv. apply get_str_Some in Hcid. congruence. }
    eapply post_eq; [exact E|]. split_and!; [done..|]. intros k. rewrite Ht, strip_clean, lookup_insert, Hold.
    destruct (decide ((e, id) = k)) as [<-|Hk]; [by rewrite decide_True|by rewrite decide_False].
  - destruct (acc_create_law w e (clean_record (scope_field (scope c)) sid r) id Hok Hcid) as (w1 & E & Hok1 & Ht).
    eapply post_eq; [exact E|]. split_and!; [done..|]. intros k. rewrite Ht, strip_clean, lookup_insert.
    destruct (decide ((e, id) = k)) as [<-|Hk]; [by rewrite decide_True|by rewrite decide_False].
Qed.

Lemma listed_none rs id : (id ∉ omap (λ r, get_str r "id") rs) → listed rs id = None.
Proof.
  intros Hni. apply eq_None_not_Some. intros Hs%elem_of_ids_of. apply Hni.
  unfold ids_of in Hs. by rewrite elem_of_list_to_set in Hs.
Qed.

Lemma server_loop by_id local_ids rs w :
  ok w → NoDup (omap (λ r, get_str r "id") rs) →
  (∀ id, id ∈ local_ids → is_Some (acc_table w !! (e, id))) →
  post (afor (reconcile_server (scope_field (scope c)) sid e by_id local_ids) rs) w (λ w' r, r = Ok () ∧ ok w' ∧
    (∀ k, k.1 ≠ e → acc_table w' !! k = acc_table w !! k) ∧
    ∀ id, acc_table w' !! (e, id) =
      match listed rs id with Some r => server_effect by_id local_ids w r id | None => acc_table w !! (e, id) end).
Proof.
  revert w. induction rs as [|r rs IH]; intros w Hok Hnd Hloc; [by apply post_ret|]. simpl afor. astep.
  acall (server_body by_id local_ids r w Hok Hloc). intros w1 res (-> & Hok1 & Ht1). cbv beta iota.
  assert (NoDup (omap (λ r, get_str r "id") rs) ∧
          ∀ id, get_str r "id" = Some id → listed rs id = None) as [Hnd' Hfresh].
  { cbn [omap list_omap] in Hnd. destruct (get_str r "id") as [id|]; [|by split].
    apply NoDup_cons in Hnd as [Hni Hnd']. split; [done|]. intros ? [= <-]. by apply listed_none. }
  assert (∀ id, get_str r "id" ≠ Some id → acc_table w1 !! (e, id) = acc_table w !! (e, id)) as Hother.
  { intros id Hne. rewrite Ht1. destruct (get_str r "id"); [|done]. rewrite decide_False by congruence. done. }
  acall (IH w1 Hok1 Hnd').
  { intros id Hid. destruct (decide (get_str r "id" = Some id)) as [E|E]; [|rewrite Hother by done; auto].
    rewrite Ht1, E, decide_True by done. unfold server_effect. destruct (_ || _); [auto|by eexists]. }
  intros w2 res (-> & Hok2 & Hk2 & Ht2). split; [done|]. split; [done|]. split.
  - intros k Hk. rewrite Hk2 by done. rewrite Ht1. destruct (get_str r "id"); [|done].
    rewrite decide_False by (by intros ->). done.
  - intros id. rewrite Ht2, listed_cons. case_decide as E.
    + rewrite (Hfresh id E), Ht1, E, decide_True by done. done.
    + unfold server_effect. by rewrite !Hother by done.
Qed.

Definition created_by (ps : list PendingMutation) (id : string) : option Record_ :=
  last (omap pm_data (filter (λ p, pm_id p = id ∧ pm_op p ≠ Delete) ps)).

Lemma created_by_snoc ps p id :
  created_by (ps ++ [p]) id =
    if decide (pm_id p = id ∧ pm_op p ≠ Delete)
    then match pm_data p with Some d => Some d | None => created_by ps id end else created_by ps id.
Proof.
  unfold created_by. rewrite filter_app, omap_app, last_app, filter_cons, filter_nil.
  case_decide; [|done]. cbn. by destruct (pm_data p).
Qed.

Lemma pending_loop server_ids local_ids ps w :
  ok w → (∀ p d, p ∈ ps → pm_op p ≠ Delete → (pm_id p ∉ server_ids) → (pm_id p ∉ local_ids) → pm_data p = Some d →
     get_str d "id" = Some (pm_id p)) →
  post (afor (reconcile_pending e server_ids local_ids) ps) w (λ w' r, r = Ok () ∧ ok w' ∧
    (∀ k, k.1 ≠ e → acc_table w' !! k = acc_table w !! k) ∧
    ∀ id, acc_table w' !! (e, id) =
      match created_by ps id with
      | Some d => if bool_decide (id ∈ server_ids) || bool_decide (id ∈ local_ids) then acc_table w !! (e, id)
                  else Some (acc_defaults e (strip_nulls d))
      | None => acc_table w !! (e, id)
      end).
Proof.
  intros Hok. induction ps as [|p ps IH] using rev_ind; intros Hd; [by apply post_ret|].
  apply post_for_app. acall IH; [intros p' d Hin; apply Hd; set_solver|].
  intros w1 r (-> & Hok1 & Hk1 & Ht1). cbv beta iota. simpl afor. astep. unfold reconcile_pending.
  destruct (decide (pm_op p = Delete)) as [Hop|Hop].
  { rewrite bool_decide_eq_true_2 by done. asteps. split_and!; [done..|]. intros id.
    rewrite created_by_snoc, decide_False by tauto. apply Ht1. }
  rewrite bool_decide_eq_false_2 by done.
  destruct (bool_decide (pm_id p ∈ server_ids) || bool_decide (pm_id p ∈ local_ids)) eqn:Hknown.
  { asteps. split_and!; [done..|]. intros id. rewrite Ht1, created_by_snoc.
    destruct (decide (pm_id p = id ∧ pm_op p ≠ Delete)) as [[<- _]|E]; [|done].
    rewrite Hknown. by destruct (pm_data p), (created_by ps _). }
  apply orb_false_iff in Hknown as [Hns%bool_decide_eq_false_1 Hnl%bool_decide_eq_false_1].
  destruct (pm_data p) as [d|] eqn:Hpd.
  2:{ asteps. split_and!; [done..|]. intros id. rewrite Ht1, created_by_snoc, Hpd.
      by destruct (decide (pm_id p = id ∧ _)). }
  asteps. destruct (acc_create_law w1 e d (pm_id p) Hok1) as (w2 & E & Hok2 & Ht2).
  { apply Hd; [set_solver|done..]. }
  eapply post_eq; [exact E|]. asteps. split; [done|]. split; [done|]. split.
  - intros k Hk. rewrite Ht2, lookup_insert_ne by (by intros <-). by apply Hk1.
  - intros id. rewrite Ht2, lookup_insert, created_by_snoc, Hpd. destruct (decide (pm_id p = id)) as [<-|Hne].
    + rewrite !decide_True by done. by rewrite !bool_decide_eq_false_2.
    + rewrite !decide_False by (intros ?; simplify_eq; tauto). apply Ht1.
Qed.

Lemma local_loop by_id server_ids ids w :
  ok w →
  post (afor (reconcile_local e by_id server_ids) ids) w (λ w' r, r = Ok () ∧ ok w' ∧
    (∀ k, k.1 ≠ e → acc_table w' !! k = acc_table w !! k) ∧
    ∀ id, acc_table w' !! (e, id) =
      if bool_decide (id ∈ ids) && negb (bool_decide (id ∈ server_ids)) && negb (bool_decide (is_Some (by_id !! id)))
      then None else acc_table w !! (e, id)).
Proof.
  revert w. induction ids as [|id ids IH]; intros w Hok; [by apply post_ret|]. simpl afor. astep.
  assert (post (reconcile_local e by_id server_ids id) w (λ w1 r, r = Ok () ∧ ok w1 ∧
    ∀ k, acc_table w1 !! k = if decide (k = (e, id)) then
        if negb (bool_decide (id ∈ server_ids)) && negb (bool_decide (is_Some (by_id !! id))) then None
        else acc_table w !! k else acc_table w !! k)) as Hbody.
  { unfold reconcile_local. destruct (bool_decide (id ∈ server_ids)); simpl; [apply post_ret; split_and!; [done..|]; intros k; by case_decide|].
    destruct (bool_decide (is_Some _)); simpl; [apply post_ret; split_and!; [done..|]; intros k; by case_decide|].
    asteps. destruct (acc_delete_law w e id Hok) as (w1 & r & E & Hok1 & Ht & _). eapply post_eq; [exact E|]. split_and!; [done..|].
    intros k. rewrite Ht, lookup_delete. destruct (decide ((e, id) = k)) as [<-|Hk];
      [by rewrite decide_True|by rewrite decide_False]. }
  acall Hbody. intros w1 r (-> & Hok1 & Ht1). cbv beta iota. acall (IH w1 Hok1). intros w2 r (-> & Hok2 & Hk2 & Ht2).
  split; [done|]. split; [done|]. split.
  - intros k Hk. rewrite Hk2, Ht1 by done. by rewrite decide_False by (by intros ->).
  - intros id'. rewrite Ht2, Ht1. destruct (decide ((e, id') = (e, id))) as [[= ->]|Hne].
    + rewrite (bool_decide_eq_true_2 (id ∈ id :: ids)) by (by left). 
      by destruct (bool_decide (id ∈ ids)), (bool_decide (id ∈ server_ids)), (bool_decide (is_Some _)).
    + assert (bool_decide (id' ∈ id :: ids) = bool_decide (id' ∈ ids)) as ->; [|done].
      apply bool_decide_ext. rewrite elem_of_cons. naive_solver.
Qed.
End loops.

Lemma listed_in_scope c sid e rows w id :
  ok w → rows ≡ₚ filter (λ r, get_str r (scope_field (scope c)) = Some sid) (rows_of (acc_table w) e) →
  bool_decide (id ∈ ids_of rows) = bool_decide (is_Some (in_scope c sid e w id)).
Proof.
  intros Hok Hp. apply bool_decide_ext. unfold ids_of, in_scope, rows_of in *.
  rewrite elem_of_list_to_set, list_elem_of_omap. setoid_rewrite Hp. split.
  - intros (r & [Hsc Hr]%list_elem_of_filter & Hid).
    apply list_elem_of_fmap in Hr as ([[e' id'] r'] & -> & [He Hin]%list_elem_of_filter). simpl in *. subst e'.
    apply elem_of_map_to_list in Hin. rewrite (acc_row _ _ _ _ Hok Hin) in Hid. injection Hid as ->.
    rewrite Hin. simpl. by rewrite bool_decide_eq_true_2.
  - intros [r (r' & Hr & Hsc)%bind_Some]. case_bool_decide; simplify_eq. exists r.
    split; [|by eapply acc_row]. apply list_elem_of_filter. split; [done|].
    apply list_elem_of_fmap. exists ((e, id), r). split; [done|]. apply list_elem_of_filter.
    split; [done|]. by apply elem_of_map_to_list.
Qed.

Lemma offline_record_eq pending e id :
  created_by (filter (λ p, pm_entity p = e) pending) id = offline_record pending e id.
Proof.
  unfold created_by, offline_record. rewrite list_filter_filter. do 2 f_equal.
  apply list_filter_iff. naive_solver.
Qed.

(** The outcome of the three loops for one record. *)
Lemma reconciled_cases sid e server pending w by_id local_ids id :
  ops_contain (by_id !! id) Delete = bool_decide (Delete ∈ ops_of pending e id) →
  ops_contain (by_id !! id) Update = bool_decide (Update ∈ ops_of pending e id) →
  bool_decide (id ∈ local_ids) = bool_decide (is_Some (in_scope acc_config sid e w id)) →
  (if bool_decide (is_Some (in_scope acc_config sid e w id)) && negb (bool_decide (is_Some (listed server id))) &&
      negb (negb (bool_decide (ops_of pending e id = [])))
   then None
   else
     let t1 := match listed server id with
               | Some r => server_effect acc_config sid e by_id local_ids w r id
               | None => acc_table w !! (e, id)
               end in
     match offline_record pending e id with
     | Some d =>
       if bool_decide (is_Some (listed server id)) || bool_decide (is_Some (in_scope acc_config sid e w id))
       then t1 else Some (acc_defaults e (strip_nulls d))
     | None => t1
     end) = reconciled acc_config sid e server pending w id.
Proof.
  intros Hdel Hupd Hloc. unfold server_effect, reconciled. rewrite Hdel, Hupd, Hloc. clear Hdel Hupd Hloc.
  assert (∀ old, in_scope acc_config sid e w id = Some old → acc_table w !! (e, id) = Some old) as Hin.
  { unfold in_scope. intros old (r & Hr & H)%bind_Some. by case_bool_decide; simplify_eq. }
  destruct (listed server id) as [r|], (in_scope acc_config sid e w id) as [old|]; cbn;
    rewrite ?(Hin old) by done; destruct (offline_record pending e id), (bool_decide (ops_of pending e id = [])); done.
Qed.

(** Reconciling a scope, record by record. On a healthy database the call
    succeeds, leaves every other entity alone, and every record of the entity
    ends up as [reconciled] says: rows with an unsent local update or delete
    keep their local contents, other rows the broker lists are merged or
    created, rows it does not list are dropped unless something is pending for
    them, and records known only to the queue are created. *)
Lemma reconcile_rows sid e server (queue : option (QueueReads W)) pending w :
  ok w → e ≠ root_entity (scope acc_config) → (e ∉ top_level acc_config) →
  NoDup (omap (λ r, get_str r "id") server) →
  match queue with Some q => qr_pending_for_scope q sid w = Ok pending | None => pending = [] end →
  (∀ p d, p ∈ pending → pm_entity p = e → pm_data p = Some d → pm_op p ≠ Delete →
     listed server (pm_id p) = None → in_scope acc_config sid e w (pm_id p) = None →
     get_str d "id" = Some (pm_id p)) →
  post (reconcile_children acc_config sid e server queue) w (λ w' r, r = Ok () ∧ ok w' ∧
    (∀ k, k.1 ≠ e → acc_table w' !! k = acc_table w !! k) ∧
    ∀ id, acc_table w' !! (e, id) = reconciled acc_config sid e server pending w id).
Proof.
  intros Hok Hroot Htop Hnd Hq Hd. unfold reconcile_children. astep.
  destruct (acc_list_law w e sid Hok Hroot Htop) as (rows & E & Hrows).
  eapply post_eq; [exact E|]. asteps.
  assert (post match queue with Some q => λ w, (w, qr_pending_for_scope q sid w) | None => aret [] end w
            (λ w' r, w' = w ∧ r = Ok pending)) as Hp.
  { destruct queue as [q|]; [|by subst]. unfold post. simpl. by rewrite Hq. }
  acall Hp. intros w0 r [-> ->]. asteps.
  pose proof (λ id, listed_in_scope acc_config sid e rows w id Hok Hrows) as Hloc.
  assert (∀ id, bool_decide (id ∈ ids_of server) = bool_decide (is_Some (listed server id))) as Hsrv.
  { intros id. apply bool_decide_ext, elem_of_ids_of. }
  acall (server_loop acc_config sid e _ (ids_of rows) server w Hok Hnd).
  { intros id Hid. specialize (Hloc id). rewrite bool_decide_eq_true_2 in Hloc by done.
    symmetry in Hloc. apply bool_decide_eq_true_1 in Hloc as [x (r & Hr & _)%bind_Some]. by eexists. }
  intros w1 r (-> & Hok1 & Hk1 & Ht1). asteps.
  acall (pending_loop e (ids_of server) (ids_of rows) (filter (λ p, pm_entity p = e) pending) w1 Hok1).
  { intros p d [He Hin]%list_elem_of_filter Hop Hns Hnl Hpd. apply (Hd p d); try done.
    - apply eq_None_not_Some. by rewrite <-elem_of_ids_of.
    - apply eq_None_not_Some. apply (bool_decide_eq_false_1 _). rewrite <-Hloc. by apply bool_decide_eq_false_2. }
  intros w2 r (-> & Hok2 & Hk2 & Ht2). asteps.
  acall (local_loop e _ (ids_of server) (hset_iter (ids_of rows)) w2 Hok2).
  intros w3 r (-> & Hok3 & Hk3 & Ht3). split; [done|]. split; [done|]. split; [intros k Hk; by rewrite Hk3, Hk2, Hk1|].
  intros id. rewrite Ht3, Ht2, Ht1, pending_by_id_some, offline_record_eq.
  rewrite (bool_decide_ext _ _ (elem_of_hset_iter (ids_of rows) id)), Hloc, Hsrv.
  apply reconciled_cases; [by rewrite ops_contain_pending..|done].
Qed.
(** Reconciling a scope makes the local copy the broker's. With nothing
    pending, afterwards the scope holds exactly the ids the broker listed,
    every row has all the broker's fields, and reconciling with the same
    listing again changes nothing. *)
Theorem reconcile_converges sid e server w :
  ok w → e ≠ root_entity (scope acc_config) → (e ∉ top_level acc_config) →
  NoDup (omap (λ r, get_str r "id") server) →
  (∀ r, r ∈ server → get_str (clean_record (scope_field (scope acc_config)) sid r) (scope_field (scope acc_config)) = Some sid) →
  post (reconcile_children acc_config sid e server None) w (λ w' res, res = Ok () ∧
    (∀ id, is_Some (in_scope acc_config sid e w' id) ↔ is_Some (listed server id)) ∧
    (∀ id r, listed server id = Some r → ∃ row, acc_table w' !! (e, id) = Some row ∧
       clean_record (scope_field (scope acc_config)) sid r ⊆ row) ∧
    post (reconcile_children acc_config sid e server None) w' (λ w'' res, res = Ok () ∧ acc_table w'' = acc_table w')).
Proof.
  intros Hok Hroot Htop Hnd Hsc. set (f := scope_field (scope acc_config)) in *.
  assert (∀ w0, ok w0 → post (reconcile_children acc_config sid e server None) w0 (λ w' r, r = Ok () ∧ ok w' ∧
    (∀ k, k.1 ≠ e → acc_table w' !! k = acc_table w0 !! k) ∧
    ∀ id, acc_table w' !! (e, id) = reconciled acc_config sid e server [] w0 id)) as Hrun.
  { intros w0 Hok0. apply reconcile_rows; try done. intros p d Hp. by apply not_elem_of_nil in Hp. }
  acall (Hrun w Hok). intros w' r (-> & Hok' & Hk & Ht).
  assert (∀ id r, listed server id = Some r → ∃ row, acc_table w' !! (e, id) = Some row ∧ clean_record f sid r ⊆ row)
    as Hrows.
  { intros id r Hr. rewrite Ht. unfold reconciled. rewrite Hr. cbn. eexists. split; [done|].
    destruct (in_scope _ _ _ _ _); [apply map_union_subseteq_l|apply acc_defaults_incl]. }
  assert (∀ id, match listed server id with
                | Some r => ∃ row, in_scope acc_config sid e w' id = Some row ∧ clean_record f sid r ⊆ row
                | None => in_scope acc_config sid e w' id = None
                end) as Hin.
  { intros id. destruct (listed server id) as [r|] eqn:Hr.
    - destruct (Hrows id r Hr) as (row & Hrow & Hincl). exists row. split; [|done]. unfold in_scope. rewrite Hrow.
      cbn. rewrite bool_decide_eq_true_2; [done|]. apply get_str_Some. eapply lookup_weaken; [|done].
      apply get_str_Some, Hsc. unfold listed in Hr. apply (list_elem_of_filter (λ r, get_str r "id" = Some id) server r).
      destruct (filter _ server); simplify_eq/=. left.
    - unfold in_scope. rewrite Ht. unfold reconciled. rewrite Hr.
      destruct (in_scope acc_config sid e w id) eqn:Hi; [done|exact Hi]. }
  split; [done|]. split; [|split; [done|]].
  - intros id. specialize (Hin id). destruct (listed server id); [destruct Hin as (row & -> & _)|rewrite Hin]; by split.
  - acall (Hrun w' Hok'). intros w'' r (-> & _ & Hk' & Ht'). split; [done|]. apply map_eq. intros [e' id].
    destruct (decide (e' = e)) as [->|Hne]; [|by apply Hk']. rewrite Ht'. unfold reconciled. specialize (Hin id).
    destruct (listed server id) as [r|] eqn:Hr; [|by rewrite Hin].
    destruct Hin as (row & Hi & Hincl). rewrite Hi. cbn. destruct (Hrows id r Hr) as (row' & Hrow' & _).
    unfold in_scope in Hi. rewrite Hrow' in *. cbn in Hi. case_bool_decide; simplify_eq.
    f_equal. unfold extend. by apply map_subseteq_union.
Qed.
End accessor.
