(* ===== verification/Store.v ===== *)
(** * The document store

    Models store.rs: the facade that writes through the memory cache, the
    durable layer, the offline queue and the remote, and the background steps
    that apply what the remote sends. The durable queue keeps its rows in the
    durable layer, so the store holds one copy of that layer and the queue is
    put together with it for each call. The remote is the interface
    [RemoteOps], which the sync layer implements. Fresh ids and the clock are
    inputs of the calls that use them; writes to the log are left out. *)
From S2P Require Import Prelude Json Types Backend OfflineQueue StorePersistence PersistentQueue MemoryStore SyncEngine RemoteSync.

(** What the store asks of the remote layer. *)
Class RemoteOps (R : Type) := {
  ro_sender : MutationSender R;
  ro_create : string → string → Record_ → action R Error string;
  ro_update : string → string → string → Record_ → action R Error ();
  ro_delete : string → string → string → action R Error ();
  ro_update_checked : string → string → string → Record_ → Z → action R Error Z;
  ro_delete_checked : string → string → string → Z → action R Error ();
  ro_open_scope : string → action R Error ScopeState;
  ro_close_scope : string → action R Error ();
  ro_fetch_list : string → option string → action R Error (list Record_);
  ro_disconnect : action R Error ();
  ro_disconnect_abnormally : action R Error ();
  ro_reconnect : string → option string → option string → option string → action R Error ();
  ro_request : string → Value → action R Error Record_;
  ro_applied_version : R → string → option Z;
  ro_set_session_invalid_handler : R → R;
  ro_clear_session_invalid_handler : R → R;
}.
#[export] Existing Instance ro_sender.

#[export] Instance layer_remote {C} {MC : MqttClientApi C} {SJ : SerdeJson} {HI : HashIter}
    : RemoteOps (RemoteSyncLayer C) := {|
  ro_sender := RemoteSyncLayer.mutation_sender;
  ro_create := RemoteSyncLayer.sync_create;
  ro_update := RemoteSyncLayer.sync_update;
  ro_delete := RemoteSyncLayer.sync_delete;
  ro_update_checked := RemoteSyncLayer.sync_update_checked;
  ro_delete_checked := RemoteSyncLayer.sync_delete_checked;
  ro_open_scope := RemoteSyncLayer.open_scope;
  ro_close_scope := RemoteSyncLayer.close_scope;
  ro_fetch_list := RemoteSyncLayer.fetch_list;
  ro_disconnect := RemoteSyncLayer.disconnect;
  ro_disconnect_abnormally := RemoteSyncLayer.disconnect_abnormally;
  ro_reconnect := RemoteSyncLayer.reconnect;
  ro_request := RemoteSyncLayer.request;
  ro_applied_version := RemoteSyncLayer.applied_version;
  ro_set_session_invalid_handler l :=
    mkRemote (rl_config l) (SyncEngine.on_state set_session_invalid_handler (rl_sync l));
  ro_clear_session_invalid_handler l :=
    mkRemote (rl_config l) (SyncEngine.on_state clear_session_invalid_handler (rl_sync l));
|}.

Record StoreState := mkStoreState {
  current_scope : option string;
  current_scope_server_synced : bool;
  initial_sync_done : bool;
  authenticated_user : option string;
  last_connection_status : ConnectionStatus;
  has_been_connected : bool;
}.

(** [Shared<dyn OfflineQueue>]; the durable queue's rows are in the layer. *)
Inductive StoreQueue :=
| MemoryQueue (q : InMemoryOfflineQueue)
| DurableQueue (root : string) (user : option string) (flushing : bool).

(** [si_validator]: a reconnect validator is installed; [si_flush]: the flush
    task was notified. *)
Record StoreInner (D R : Type) := mkInner {
  si_config : StoreConfig;
  si_memory : MemoryStore D;
  si_persistence : option (PersistenceLayer D);
  si_remote : option R;
  si_queue : option StoreQueue;
  si_state : StoreState;
  si_validator : bool;
  si_flush : bool;
}.
Arguments mkInner {D R}.
Arguments si_config {D R}.
Arguments si_memory {D R}.
Arguments si_persistence {D R}.
Arguments si_remote {D R}.
Arguments si_queue {D R}.
Arguments si_state {D R}.
Arguments si_validator {D R}.
Arguments si_flush {D R}.

(** A fresh record id, a fresh row id for the queue, and the time. *)
Record Inputs := mkInputs { in_id : string; in_row_id : string; in_now : Z }.

Module Store.
Section store.
Context {D R : Type} {DB : Db D} {RO : RemoteOps R} {HI : HashIter}.
Abbreviation Inner := (StoreInner D R).
Implicit Types s : Inner.

Definition set_memory (m : MemoryStore D) s : Inner :=
  mkInner (si_config s) m (si_persistence s) (si_remote s) (si_queue s) (si_state s) (si_validator s) (si_flush s).
Definition set_persistence (p : option (PersistenceLayer D)) s : Inner :=
  mkInner (si_config s) (si_memory s) p (si_remote s) (si_queue s) (si_state s) (si_validator s) (si_flush s).
Definition set_remote (r : option R) s : Inner :=
  mkInner (si_config s) (si_memory s) (si_persistence s) r (si_queue s) (si_state s) (si_validator s) (si_flush s).
Definition set_queue (q : option StoreQueue) s : Inner :=
  mkInner (si_config s) (si_memory s) (si_persistence s) (si_remote s) q (si_state s) (si_validator s) (si_flush s).
Definition set_state (st : StoreState) s : Inner :=
  mkInner (si_config s) (si_memory s) (si_persistence s) (si_remote s) (si_queue s) st (si_validator s) (si_flush s).
Definition set_tasks (validator flush : bool) s : Inner :=
  mkInner (si_config s) (si_memory s) (si_persistence s) (si_remote s) (si_queue s) (si_state s) validator flush.

Definition set_current_scope (scope : option string) s : Inner :=
  let st := si_state s in
  set_state (mkStoreState scope (current_scope_server_synced st) (initial_sync_done st) (authenticated_user st)
    (last_connection_status st) (has_been_connected st)) s.
Definition set_server_synced (b : bool) s : Inner :=
  let st := si_state s in
  set_state (mkStoreState (current_scope st) b (initial_sync_done st) (authenticated_user st)
    (last_connection_status st) (has_been_connected st)) s.
Definition set_sync_done (b : bool) s : Inner :=
  let st := si_state s in
  set_state (mkStoreState (current_scope st) (current_scope_server_synced st) b (authenticated_user st)
    (last_connection_status st) (has_been_connected st)) s.

Definition on_memory {A} (m : action (MemoryStore D) Error A) : action Inner Error A := azoom si_memory set_memory m.

(** Runs on the durable layer when there is one. *)
Definition on_layer {A} (m : action (PersistenceLayer D) Error A) : action Inner Error (option A) := λ s,
  match si_persistence s with
  | Some l => let '(l, r) := m l in (set_persistence (Some l) s, let? a := r in Ok (Some a))
  | None => (s, Ok None)
  end.

Definition read_layer {A} (f : PersistenceLayer D → result A Error) : action Inner Error (option A) := λ s,
  (s, match si_persistence s with Some l => let? a := f l in Ok (Some a) | None => Ok None end).

(** Runs on the remote, which the callers have checked for. *)
Definition on_remote {A} (m : action R Error A) : action Inner Error A := λ s,
  match si_remote s with
  | Some r => let '(r, res) := m r in (set_remote (Some r) s, res)
  | None => (s, Err (Config "no remote"))
  end.

Definition notify : action Inner Error () := amodify (λ s, set_tasks (si_validator s) true s).

(** ** The offline queue of a store *)

Definition on_queue {A} (mem : InMemoryOfflineQueue → InMemoryOfflineQueue * result A Error)
    (durable : action (PersistentOfflineQueue D) Error A) (a : A) : action Inner Error A := λ s,
  match si_queue s, si_persistence s with
  | Some (MemoryQueue q), _ => let '(q, r) := mem q in (set_queue (Some (MemoryQueue q)) s, r)
  | Some (DurableQueue root user flushing), Some l =>
    let '(q, r) := durable (mkPersistentQueue l root user flushing) in
    (set_queue (Some (DurableQueue (pq_root_entity q) (pq_user q) (pq_flushing q)))
       (set_persistence (Some (pq_persistence q)) s), r)
  | _, _ => (s, Ok a)
  end.

Definition queue_push (io : Inputs) (p : PendingMutation) : action Inner Error () :=
  on_queue (λ q, (InMemory.queue q p (in_row_id io) (in_now io), Ok ()))
    (Persistent.queue p (in_row_id io) (in_now io)) ().

Definition queue_remove (entity id scope_id : string) (op : Operation) : action Inner Error () :=
  on_queue (λ q, (InMemory.remove q entity id scope_id op, Ok ())) (Persistent.remove entity id scope_id op) ().

Definition queue_pending (scope_id : string) : action Inner Error (list PendingMutation) :=
  on_queue (λ q, (q, Ok (InMemory.pending_for_scope q scope_id)))
    (λ q, (q, Persistent.pending_for_scope scope_id q)) [].

Definition queue_has_insert (entity id : string) : action Inner Error bool :=
  on_queue (λ q, (q, Ok (InMemory.has_pending_insert q entity id)))
    (λ q, (q, Persistent.has_pending_insert entity id q)) false.

(** The queue as the sync layer reads it. *)
Definition queue_reads : QueueReads Inner :=
  mkReads (λ scope_id s, (queue_pending scope_id s).2) (λ entity id s, (queue_has_insert entity id s).2).

Definition queue_ref s : option (QueueReads Inner) := match si_queue s with Some _ => Some queue_reads | None => None end.

(** [queue.flush(sender)]; consolidation never fails on the rows of a queue. *)
Definition queue_flush : action Inner Error FlushSummary := λ s,
  match si_remote s, si_queue s, si_persistence s with
  | Some r, Some (MemoryQueue q), _ =>
    match InMemory.flush q r with
    | Some (q, r, summary) => (set_queue (Some (MemoryQueue q)) (set_remote (Some r) s), Ok summary)
    | None => (s, Ok FlushSummary_default)
    end
  | Some r, Some (DurableQueue root user flushing), Some l =>
    match Persistent.flush (mkPersistentQueue l root user flushing) r with
    | Some (q, r, res) =>
      (set_queue (Some (DurableQueue (pq_root_entity q) (pq_user q) (pq_flushing q)))
         (set_persistence (Some (pq_persistence q)) (set_remote (Some r) s)), res)
    | None => (s, Ok FlushSummary_default)
    end
  | _, _, _ => (s, Ok FlushSummary_default)
  end.

(** ** Rolling back *)

Definition rollback_local_row (entity id : string) (origin : Origin) : action Inner Error () :=
  aignore (on_memory (MemoryStore.delete entity id origin)) ;;
  if skips_persistence origin then aret () else aignore (on_layer (PersistenceLayer.delete entity id origin)).

Definition pending_insert_exists (entity id : string) : action Inner Error bool :=
  try! r := queue_has_insert entity id in
  aret match r with Ok exists_ => exists_ | Err _ => false end.

Definition restore_local_row (entity id scope_id : string) (pre_image : option Record_) (origin : Origin)
    : action Inner Error () :=
  match pre_image with
  | None => rollback_local_row entity id origin
  | Some row =>
    aignore (on_memory (MemoryStore.delete entity id origin)) ;;
    aignore (on_memory (MemoryStore.create entity scope_id row origin)) ;;
    if skips_persistence origin then aret () else
      aignore (on_layer (PersistenceLayer.delete entity id origin)) ;;
      aignore (on_layer (PersistenceLayer.create entity row origin))
  end.

Definition rollback_local_create (entity id scope_id : string) (origin : Origin) : action Inner Error () :=
  rollback_local_row entity id origin ;;
  aignore (queue_remove entity id scope_id Insert).

Definition rollback_rejected_inserts (rejected : list RejectedInsert) : action Inner Error () :=
  afor (λ insert, rollback_local_row (rj_entity insert) (rj_id insert) Local) rejected.

(** ** Writing *)

Definition is_top_level (c : StoreConfig) (entity : string) : bool := bool_decide (entity ∈ top_level c).

(** A remote is configured, the origin reaches it, and it is connected. *)
Definition live (origin : Origin) s : bool :=
  match si_remote s with Some _ => true | None => false end && negb (skips_remote origin) &&
  bool_decide (last_connection_status (si_state s) = Connected).

Definition queue_and (cond : bool) (io : Inputs) (origin : Origin) (p : PendingMutation) : action Inner Error () :=
  if cond && negb (skips_remote origin) then queue_push io p else aret ().

Definition create (io : Inputs) (entity scope_id : string) (data : Record_) (origin : Origin)
    : action Inner Error string :=
  let! c := aget si_config in
  let root := root_entity (scope c) in
  let top := is_top_level c entity in
  let id := default (in_id io) (get_str data "id") in
  let data := <["id" := Str id]> data in
  let effective_scope := if bool_decide (entity = root) then id else scope_id in
  let data := if negb (bool_decide (entity = root)) && negb top
              then entry_or_insert data (scope_field (scope c)) (Str effective_scope) else data in
  let has_sync_target := negb (bool_decide (effective_scope = "")) || top in
  let! existing := if bool_decide (origin = Local)
                   then on_memory (λ m, (m, MemoryStore.read entity id m)) else aret None in
  if bool_decide (is_Some existing) then athrow (Conflict entity id) else
  let! _ := on_memory (MemoryStore.create entity effective_scope data origin) in
  (if skips_persistence origin then aret () else aignore (on_layer (PersistenceLayer.create entity data origin))) ;;
  queue_and has_sync_target io origin (mkPending Insert entity id effective_scope (Some data) 0) ;;
  let! connected := aget (live origin) in
  if connected && has_sync_target then
    try! r := on_remote (ro_create entity effective_scope data) in
    match r with
    | Ok _ => aignore (queue_remove entity id effective_scope Insert) ;; aret id
    | Err err =>
      if is_transient err then notify ;; aret id else
      if is_conflict err || is_ownership err then
        rollback_local_create entity id effective_scope origin ;; athrow err else
      if is_terminal_publish_rejection err then
        rollback_local_create entity id effective_scope origin ;; athrow err else
      aret id
    end
  else aret id.

Definition scope_from_row (row : Record_) (entity root_entity : string) (is_top_level : bool) (scope_field : string)
    : option string :=
  if bool_decide (entity = root_entity) then get_str row "id" else
  if is_top_level then Some "" else get_str row scope_field.

(** How [update] and [delete] answer a failed remote call. *)
Definition refused (entity id scope_id : string) (op : Operation) (pre_image : option Record_) (origin : Origin)
    (err : Error) : action Inner Error () :=
  if is_ownership err || is_terminal_publish_rejection err then
    aignore (queue_remove entity id scope_id op) ;;
    restore_local_row entity id scope_id pre_image origin ;;
    athrow err
  else if is_not_found err then
    let! pending := pending_insert_exists entity id in
    if pending then notify else
      rollback_local_row entity id origin ;;
      aignore (queue_remove entity id scope_id op) ;;
      athrow err
  else if is_transient err then notify
  else aret ().

Definition update (io : Inputs) (entity id : string) (fields : Record_) (origin : Origin) : action Inner Error () :=
  let! c := aget si_config in
  let scope_of row := scope_from_row row entity (root_entity (scope c)) (is_top_level c entity) (scope_field (scope c)) in
  let! existing := on_memory (λ m, (m, MemoryStore.read entity id m)) in
  let pre_image := existing in
  let scope_id := existing ≫= scope_of in
  (if bool_decide (is_Some existing) && bool_decide (is_Some scope_id)
   then let! _ := on_memory (MemoryStore.update entity id fields origin) in aret () else aret ()) ;;
  let! has_persistence := aget (λ s, match si_persistence s with Some _ => true | None => false end) in
  let! found :=
    if has_persistence && negb (skips_persistence origin) then
      let! found :=
        match scope_id with
        | Some _ => aret (scope_id, pre_image)
        | None =>
          let! p := read_layer (PersistenceLayer.read entity id) in
          match p ≫= (λ o, o) with
          | None => aret (None, pre_image)
          | Some p_existing =>
            let scope_id := scope_of p_existing in
            if bool_decide (is_Some scope_id) && bool_decide (existing = None) then
              aignore (on_memory (MemoryStore.update entity id fields origin)) ;;
              aret (scope_id, Some p_existing)
            else aret (scope_id, pre_image)
          end
        end in
      (if bool_decide (is_Some found.1) then aignore (on_layer (PersistenceLayer.update entity id fields origin))
       else aret ()) ;;
      aret (Some found)
    else if bool_decide (existing = None) then aret None else aret (Some (scope_id, pre_image)) in
  match found with
  | None | Some (None, _) => aret ()
  | Some (Some scope_id, pre_image) =>
    queue_and true io origin (mkPending Update entity id scope_id (Some fields) 0) ;;
    let! connected := aget (live origin) in
    if connected then
      try! r := on_remote (ro_update entity scope_id id fields) in
      match r with
      | Ok _ => aignore (queue_remove entity id scope_id Update)
      | Err err => refused entity id scope_id Update pre_image origin err
      end
    else aret ()
  end.

Definition delete (io : Inputs) (entity id : string) (origin : Origin) : action Inner Error () :=
  let! c := aget si_config in
  let scope_of row := scope_from_row row entity (root_entity (scope c)) (is_top_level c entity) (scope_field (scope c)) in
  let! existing := on_memory (λ m, (m, MemoryStore.read entity id m)) in
  let pre_image := existing in
  let scope_id := existing ≫= scope_of in
  (if bool_decide (is_Some existing) && bool_decide (is_Some scope_id)
   then aignore (on_memory (MemoryStore.delete entity id origin)) else aret ()) ;;
  let! has_persistence := aget (λ s, match si_persistence s with Some _ => true | None => false end) in
  let! found :=
    if has_persistence && negb (skips_persistence origin) then
      let! found :=
        match scope_id with
        | Some _ => aret (scope_id, pre_image)
        | None =>
          let! p := read_layer (PersistenceLayer.read entity id) in
          match p ≫= (λ o, o) with
          | None => aret (None, pre_image)
          | Some p_existing =>
            let scope_id := scope_of p_existing in
            if bool_decide (is_Some scope_id) && bool_decide (existing = None) then
              aignore (on_memory (MemoryStore.delete entity id origin)) ;;
              aret (scope_id, Some p_existing)
            else aret (scope_id, pre_image)
          end
        end in
      (if bool_decide (is_Some found.1) then aignore (on_layer (PersistenceLayer.delete entity id origin))
       else aret ()) ;;
      aret (Some found)
    else if bool_decide (existing = None) then aret None else aret (Some (scope_id, pre_image)) in
  match found with
  | None | Some (None, _) => aret ()
  | Some (Some scope_id, pre_image) =>
    queue_and true io origin (mkPending Delete entity id scope_id None 0) ;;
    let! connected := aget (live origin) in
    if connected then
      try! r := on_remote (ro_delete entity scope_id id) in
      match r with
      | Ok _ => aignore (queue_remove entity id scope_id Delete)
      | Err err => refused entity id scope_id Delete pre_image origin err
      end
    else aret ()
  end.

(** ** Compare and set *)

Definition resolve_scope_for_cas (entity id : string) : action Inner Error string :=
  let! c := aget si_config in
  let! in_memory := on_memory (λ m, (m, MemoryStore.read entity id m)) in
  let! existing := match in_memory with
                   | Some row => aret (Some row)
                   | None => let! p := read_layer (PersistenceLayer.read entity id) in aret (p ≫= λ o, o)
                   end in
  match existing with
  | None => athrow (NotFound entity id)
  | Some existing =>
    alift (ok_or (scope_from_row existing entity (root_entity (scope c)) (is_top_level c entity)
                    (scope_field (scope c))) (NotFound entity id))
  end.

Definition row_version (record : Record_) : option Z := get_u64 record "_version".

(** The guards the two calls share. *)
Definition cas_ready (name : string) : action Inner Error () := λ s,
  match si_remote s with
  | None => (s, Err (Config (name +:+ " requires a configured remote")))
  | Some _ =>
    if bool_decide (last_connection_status (si_state s) = Connected) then (s, Ok ()) else (s, Err ConnectionClosed)
  end.

Definition cas_failed {A} (entity id : string) (err : Error) : action Inner Error A :=
  let! gone := if is_not_found err then (let! p := pending_insert_exists entity id in aret (negb p)) else aret false in
  (if gone then rollback_local_row entity id Local else aret ()) ;;
  athrow err.

Definition update_if (entity id : string) (fields : Record_) (expected_version : Z) : action Inner Error Z :=
  cas_ready "update_if" ;;
  let! scope_id := resolve_scope_for_cas entity id in
  try! r := on_remote (ro_update_checked entity scope_id id fields expected_version) in
  match r with
  | Err err => cas_failed entity id err
  | Ok new_version =>
    let local := <["_version" := Num (PosInt new_version)]> fields in
    aignore (on_memory (MemoryStore.update entity id local Local)) ;;
    aignore (on_layer (PersistenceLayer.update entity id local Local)) ;;
    aret new_version
  end.

Definition delete_if (entity id : string) (expected_version : Z) : action Inner Error () :=
  cas_ready "delete_if" ;;
  let! scope_id := resolve_scope_for_cas entity id in
  try! r := on_remote (ro_delete_checked entity scope_id id expected_version) in
  match r with
  | Err err => cas_failed entity id err
  | Ok _ =>
    aignore (on_memory (MemoryStore.delete entity id Local)) ;;
    aignore (on_layer (PersistenceLayer.delete entity id Local))
  end.

(** ** Reading *)

Definition read (entity id : string) s : result (option Record_) Error := MemoryStore.read entity id (si_memory s).

Record SortField := mkSortField { sfd_field : string; sfd_direction : SortDirection }.
Record ListFilter := mkListFilter {
  lf_scope_id : option string; lf_sort : Datatypes.list SortField; lf_projection : Datatypes.list string }.

Definition sort_fields_to_orders (sort : Datatypes.list SortField) : Datatypes.list SortOrder :=
  (λ f, mkSort (sfd_field f) (sfd_direction f)) <$> sort.

Definition list (entity : string) (filter : option ListFilter) s : result (Datatypes.list Record_) Error :=
  match si_persistence s with
  | Some persistence =>
    let filters := match filter ≫= lf_scope_id with
                   | Some scope_id => [mkFilter (scope_field (scope (si_config s))) FilterEq (Str scope_id)]
                   | None => []
                   end in
    let sort := match filter with Some f => sort_fields_to_orders (lf_sort f) | None => [] end in
    let projection := match filter with Some f => lf_projection f | None => [] end in
    PersistenceLayer.list_with_projection entity filters sort projection persistence
  | None => MemoryStore.list entity (default "" (filter ≫= lf_scope_id)) (si_memory s)
  end.

(** On a native target. *)
Definition list_root_entities (sort : Datatypes.list SortField) s : result (Datatypes.list Record_) Error :=
  let root := root_entity (scope (si_config s)) in
  if match si_remote s with Some _ => true | None => false end && negb (initial_sync_done (si_state s)) then Ok [] else
  match si_persistence s with
  | Some persistence => PersistenceLayer.list root [] (sort_fields_to_orders sort) persistence
  | None => MemoryStore.list root "" (si_memory s)
  end.

Definition snapshot (entity scope_id : string) s : result (Datatypes.list Record_) Error :=
  MemoryStore.list entity scope_id (si_memory s).

Definition pending_count (scope_id : string) s : result nat Error :=
  let? pending := (queue_pending scope_id s).2 in Ok (length pending).

Definition child_count (entity scope_id : string) s : result nat Error :=
  match si_persistence s with
  | Some persistence =>
    let filters := [mkFilter (scope_field (scope (si_config s))) FilterEq (Str scope_id)] in
    let? rows := PersistenceLayer.list entity filters [] persistence in Ok (length rows)
  | None => let? rows := MemoryStore.list entity scope_id (si_memory s) in Ok (length rows)
  end.

Definition version (scope_id entity : string) s : Z := MemoryStore.get_version (si_memory s) scope_id entity.

Definition is_reconnecting s : bool :=
  has_been_connected (si_state s) &&
  match last_connection_status (si_state s) with Connecting | Disconnected => true | _ => false end.

(** ** The local accessor *)

Definition accessor_read (entity id : string) : action Inner Error (option Record_) := λ s,
  (s, match si_persistence s with
      | Some p => PersistenceLayer.read entity id p
      | None => MemoryStore.read entity id (si_memory s)
      end).

Definition accessor_list (entity : string) (scope_id : option string) : action Inner Error (Datatypes.list Record_) := λ s,
  (s, match si_persistence s with
      | Some p => match scope_id with
                  | Some sid => PersistenceLayer.list_by_scope entity sid p
                  | None => PersistenceLayer.list entity [] [] p
                  end
      | None => MemoryStore.list entity (default "" scope_id) (si_memory s)
      end).

Definition accessor_create (entity : string) (data : Record_) : action Inner Error () := λ s,
  match si_persistence s with
  | Some _ => (on_layer (PersistenceLayer.create entity data Remote) ;; aret ()) s
  | None =>
    let scope_id := default "" (get_str data (scope_field (scope (si_config s)))) in
    (on_memory (MemoryStore.create entity scope_id data Remote) ;; aret ()) s
  end.

Definition accessor_update (entity id : string) (fields : Record_) : action Inner Error () := λ s,
  match si_persistence s with
  | Some _ => (on_layer (PersistenceLayer.update entity id fields Remote) ;; aret ()) s
  | None => (on_memory (MemoryStore.update entity id fields Remote) ;; aret ()) s
  end.

Definition accessor_delete (entity id : string) : action Inner Error () := λ s,
  match si_persistence s with
  | Some _ => aignore (on_layer (PersistenceLayer.delete entity id Remote)) s
  | None => aignore (on_memory (MemoryStore.delete entity id Remote)) s
  end.

#[export] Instance inner_accessor : LocalAccessor Inner := {|
  acc_read := accessor_read;
  acc_list := accessor_list;
  acc_create := accessor_create;
  acc_update := accessor_update;
  acc_delete := accessor_delete;
|}.

(** ** Scopes *)

Definition load_bundle_from_persistence (scope_id : string) s : result ScopeBundle Error :=
  match si_persistence s with
  | None => Ok (mkBundle None [])
  | Some persistence =>
    let c := si_config s in
    let? root := PersistenceLayer.read (root_entity (scope c)) scope_id persistence in
    let? lists := collect ((λ child, let? rows := PersistenceLayer.list_by_scope child scope_id persistence in
                                     Ok (child, rows)) <$> child_entities (scope c)) in
    Ok (mkBundle root (foldl (λ m '(child, rows), SyncEngine.btree_insert child rows m) [] lists))
  end.

Definition open_scope_with_server (scope_id : string) : action Inner Error () :=
  let! c := aget si_config in
  let root := root_entity (scope c) in
  let! state := on_remote (ro_open_scope scope_id) in
  let! queue := aget queue_ref in
  (if negb (bool_decide (ss_root state = ∅)) then
     let! existing := acc_read root scope_id in
     if bool_decide (is_Some existing) then aignore (acc_update root scope_id (ss_root state))
     else aignore (acc_create root (ss_root state))
   else aret ()) ;;
  afor (λ '(child_entity, records), reconcile_children c scope_id child_entity records queue) (ss_children state) ;;
  afor (λ mutation, aignore (apply_mutation_to_db c mutation)) (ss_buffered state) ;;
  let! bundle := λ s, (s, load_bundle_from_persistence scope_id s) in
  on_memory (MemoryStore.load_scope scope_id bundle).

(** [suppress_notifications] around an action; the guard drops at its end. *)
Definition suppressed {A} (m : action Inner Error A) : action Inner Error A := λ s,
  let on b s := match si_persistence s with
                | Some l => set_persistence (Some (PersistenceLayer.set_suppress_notifications b l)) s
                | None => s
                end in
  let '(s, r) := m (on true s) in (on false s, r).

Definition replace_scope (scope_id : string) : action Inner Error () :=
  let! st := aget si_state in
  if bool_decide (current_scope st = Some scope_id) then aret () else
  let previous := current_scope st in
  amodify (set_current_scope (Some scope_id)) ;;
  let! has_remote := aget (λ s, match si_remote s with Some _ => true | None => false end) in
  (match previous with
   | Some prev => if (has_remote : bool) then aignore (on_remote (ro_close_scope prev)) else aret ()
   | None => aret ()
   end) ;;
  let! connected := aget (λ s, bool_decide (last_connection_status (si_state s) = Connected)) in
  if has_remote && connected then
    try! outcome := suppressed (open_scope_with_server scope_id) in
    amodify (set_server_synced (is_ok outcome)) ;;
    alift outcome
  else
    let! has_persistence := aget (λ s, match si_persistence s with Some _ => true | None => false end) in
    (if (has_persistence : bool) then
       let! bundle := λ s, (s, load_bundle_from_persistence scope_id s) in
       on_memory (MemoryStore.load_scope scope_id bundle)
     else aret ()) ;;
    amodify (set_server_synced false).

(** The loop of [load_scope] over the caller's map. *)
Definition bundle_entry (c : StoreConfig) (scope_id : string)
    (acc : option Record_ * Datatypes.list (string * Datatypes.list Record_))
    (e : string * Datatypes.list Record_) : option Record_ * Datatypes.list (string * Datatypes.list Record_) :=
  let '(entity, records) := e in
  if bool_decide (entity = root_entity (scope c)) then (head records, acc.2) else
  let records := if bool_decide (entity ∈ top_level c) then records
                 else (λ r, <[scope_field (scope c) := Str scope_id]> r) <$> records in
  (acc.1, SyncEngine.btree_insert entity records acc.2).

Definition load_scope (scope_id : string) (data : gmap string (Datatypes.list Record_)) : action Inner Error () :=
  let! c := aget si_config in
  let '(root, children) := foldl (bundle_entry c scope_id) (None, []) (hiter data) in
  on_memory (MemoryStore.load_scope scope_id (mkBundle root children)).

Definition clear_scope (scope_id : string) : action Inner Error () := on_memory (MemoryStore.clear_scope scope_id).

Definition close_scope (scope_id : string) : action Inner Error () :=
  aignore (on_remote (ro_close_scope scope_id)) ;;
  amodify (λ s, if bool_decide (current_scope (si_state s) = Some scope_id) then set_current_scope None s else s).

(** ** Connection, identity and local state *)

Definition disconnect : action Inner Error () := aignore (on_remote ro_disconnect).

Definition disconnect_abnormally : action Inner Error () := λ s,
  match si_remote s with Some _ => on_remote ro_disconnect_abnormally s | None => (s, Ok ()) end.

Definition set_session_invalid_handler s : Inner :=
  match si_remote s with Some r => set_remote (Some (ro_set_session_invalid_handler r)) s | None => s end.

Definition set_reconnect_validator s : Inner := set_tasks true (si_flush s) s.

Definition begin_batch s : Inner := set_memory (MemoryStore.begin_batch (si_memory s)) s.
Definition end_batch s : Inner := set_memory (MemoryStore.end_batch (si_memory s)) s.

Definition reconnect (server_url : string) (ticket username password : option string) : action Inner Error () := λ s,
  match si_remote s with
  | None => (s, Err (Config "reconnect requires remote configuration"))
  | Some _ => on_remote (ro_reconnect server_url ticket username password) s
  end.

Definition request (topic : string) (payload : Value) : action Inner Error Record_ := λ s,
  match si_remote s with
  | None => (s, Err (Config "request requires remote configuration"))
  | Some _ => on_remote (ro_request topic payload) s
  end.

Definition applied_version s (scope_id : string) : option Z := si_remote s ≫= λ r, ro_applied_version r scope_id.

Definition queue_set_user (user : option string) s : Inner :=
  match si_queue s with
  | Some (DurableQueue root _ flushing) => set_queue (Some (DurableQueue root user flushing)) s
  | _ => s
  end.

Definition set_authenticated_user (user : option string) s : Inner :=
  let st := si_state s in
  queue_set_user user (set_state (mkStoreState (current_scope st) (current_scope_server_synced st)
    (initial_sync_done st) user (last_connection_status st) (has_been_connected st)) s).

Definition reset_for_logout : action Inner Error () :=
  amodify (λ s, match si_remote s with
                | Some r => set_remote (Some (ro_clear_session_invalid_handler r)) s
                | None => s
                end) ;;
  aignore (on_remote ro_disconnect) ;;
  amodify (λ s, set_tasks false (si_flush s) s) ;;
  amodify (λ s, set_state (mkStoreState None (current_scope_server_synced (si_state s)) false None Offline false) s) ;;
  amodify (queue_set_user None).

Definition read_local_state (entity id : string) s : result (option Record_) Error :=
  match si_persistence s with
  | Some persistence => PersistenceLayer.read entity id persistence
  | None => MemoryStore.read entity id (si_memory s)
  end.

Definition update_local_state (entity id : string) (fields : Record_) : action Inner Error () := λ s,
  match si_persistence s with
  | Some _ =>
    (try! r := on_layer (PersistenceLayer.update entity id fields Load) in
     match r with
     | Ok _ => aret ()
     | Err _ => on_layer (PersistenceLayer.create entity (<["id" := Str id]> fields) Load) ;; aret ()
     end) s
  | None =>
    (let! existing := on_memory (λ m, (m, MemoryStore.read entity id m)) in
     if bool_decide (is_Some existing) then on_memory (MemoryStore.update entity id fields Load) ;; aret ()
     else on_memory (MemoryStore.create entity "" (<["id" := Str id]> fields) Load) ;; aret ()) s
  end.

Definition recover_persistence (attempts : Datatypes.list (result D Error)) s : option (Inner * result () Error) :=
  match si_persistence s with
  | None => Some (s, Err (Config "recover_persistence requires persistence configuration"))
  | Some l =>
    '(l, r) ← PersistenceLayer.recover attempts l;
    Some (set_persistence (Some l) s, r)
  end.

(** ** What the remote sends *)

Definition mirror_remote_to_memory (mutation : SyncMutation) (top : bool) : action Inner Error () :=
  let! c := aget si_config in
  let root := root_entity (scope c) in
  let entity := sm_entity mutation in
  let id := sm_id mutation in
  match sm_op mutation with
  | Insert =>
    match sm_data mutation with
    | None => aret ()
    | Some data =>
      let sid := if (top : bool) then Some "" else
                 match get_str data (scope_field (scope c)) with
                 | Some sid => Some sid
                 | None => if bool_decide (entity = root) then get_str data "id" else None
                 end in
      match sid with
      | Some sid => aignore (on_memory (MemoryStore.create entity sid (<["id" := Str id]> data) Remote))
      | None => aret ()
      end
    end
  | Update =>
    match sm_data mutation with
    | None => aret ()
    | Some data =>
      try! r := on_memory (MemoryStore.update entity id data Remote) in
      match r with
      | Ok _ => aret ()
      | Err err =>
        if is_not_found err then
          let sid := if (top : bool) then Some "" else
                     match get_str data (scope_field (scope c)) with
                     | Some sid => Some sid
                     | None => if bool_decide (entity = root) then Some id else None
                     end in
          match sid with
          | Some sid => aignore (on_memory (MemoryStore.create entity sid (<["id" := Str id]> data) Remote))
          | None => aret ()
          end
        else aret ()
      end
    end
  | Delete => aignore (on_memory (MemoryStore.delete entity id Remote))
  end.

(** Whether a mutation belongs to what the memory cache holds. *)
Definition should_apply_to_memory (c : StoreConfig) (mutation : SyncMutation) s : bool :=
  let current := current_scope (si_state s) in
  let root := root_entity (scope c) in
  if is_top_level c (sm_entity mutation) then true else
  match sm_data mutation, sm_op mutation with
  | Some data, _ =>
    if bool_decide (sm_entity mutation = root) then bool_decide (Some (sm_id mutation) = current)
    else bool_decide (get_str data (scope_field (scope c)) = current)
  | None, Delete =>
    match MemoryStore.read (sm_entity mutation) (sm_id mutation) (si_memory s) with
    | Ok (Some existing) =>
      if bool_decide (sm_entity mutation = root) then bool_decide (Some (sm_id mutation) = current)
      else bool_decide (get_str existing (scope_field (scope c)) = current)
    | _ => false
    end
  | None, _ => false
  end.

Definition handle_remote_mutation (mutation : SyncMutation) : action Inner Error () :=
  let! c := aget si_config in
  try! applied := apply_mutation_to_db c mutation in
  let persisted := match applied with Ok b => b | Err _ => false end in
  let! has_persistence := aget (λ s, match si_persistence s with Some _ => true | None => false end) in
  if negb persisted || negb has_persistence then aret () else
  let! wanted := aget (should_apply_to_memory c mutation) in
  if negb wanted then aret () else
  mirror_remote_to_memory mutation (is_top_level c (sm_entity mutation)).

Definition fetch_root_list : action Inner Error () :=
  let! c := aget si_config in
  let! user := aget (λ s, authenticated_user (si_state s)) in
  let! queue := aget queue_ref in
  sync_root_entity_list (λ entity scope_id, on_remote (ro_fetch_list entity scope_id)) c queue user.

Definition resync_after_lag : action Inner Error () :=
  let! status := aget (λ s, last_connection_status (si_state s)) in
  if negb (bool_decide (status = Connected)) then aret () else aignore fetch_root_list.

(** One turn of [mutation_loop]: a delivery, or the report of a lag. *)
Inductive Incoming := Delivered (d : MutationDelivery) | Lagged.

Definition mutation_step (i : Incoming) : action Inner Error () :=
  match i with
  | Delivered d => handle_remote_mutation (md_mutation d)
  | Lagged => resync_after_lag
  end.

(** ** Connection changes *)

(** The body of the inner loop of [flush_loop]; the result tells whether the
    loop goes round again. *)
Definition flush_turn : action Inner Error bool :=
  let! connected := aget (λ s, bool_decide (last_connection_status (si_state s) = Connected)) in
  let! ready := aget (λ s, match si_queue s, si_remote s with Some _, Some _ => true | _, _ => false end) in
  if negb connected || negb ready then aret false else
  try! r := queue_flush in
  match r with
  | Err _ => aret false
  | Ok summary =>
    rollback_rejected_inserts (rejected_inserts summary) ;;
    aret (negb (bool_decide (retained summary = 0)))
  end.

Definition backfill_current_scope : action Inner Error () := λ s,
  match si_persistence s, current_scope_server_synced (si_state s), current_scope (si_state s) with
  | Some _, false, Some scope_id =>
    (try! outcome := suppressed (open_scope_with_server scope_id) in
     match outcome with
     | Ok _ => amodify (set_server_synced true)
     | Err _ => aret ()
     end) s
  | _, _, _ => (s, Ok ())
  end.

Definition on_connected : action Inner Error () :=
  let! has_remote := aget (λ s, match si_remote s with Some _ => true | None => false end) in
  let! has_queue := aget (λ s, match si_queue s with Some _ => true | None => false end) in
  (if (has_queue : bool) && has_remote then
     try! r := queue_flush in
     match r with
     | Ok summary =>
       rollback_rejected_inserts (rejected_inserts summary) ;;
       if bool_decide (0 < retained summary) then notify else aret ()
     | Err _ => aret ()
     end
   else aret ()) ;;
  if (has_remote : bool) then
    aignore fetch_root_list ;;
    amodify (set_sync_done true) ;;
    backfill_current_scope
  else aret ().

(** The locked part of [status_loop]: the status is recorded unless it reports
    the loss of a connection nobody wanted. *)
Definition record_status (status : ConnectionStatus) s : Inner * bool :=
  let st := si_state s in
  let deliberately_offline := bool_decide (last_connection_status st = Offline) in
  let connection_loss := match status with Disconnected | ErrorStatus => true | _ => false end in
  if deliberately_offline && connection_loss then (s, false)
  else (set_state (mkStoreState (current_scope st) (current_scope_server_synced st) (initial_sync_done st)
          (authenticated_user st) status (bool_decide (status = Connected) || has_been_connected st)) s, true).

Definition status_step (status : ConnectionStatus) : action Inner Error () := λ s,
  let '(s, applied) := record_status status s in
  if applied && bool_decide (status = Connected) then on_connected s else (s, Ok ()).

(** ** Subscriptions *)

Definition scope_signal (entity : string) (scope_filter : option string) (sid : string)
    (entities : Datatypes.list string) (origin : Origin) : option MutationEvent :=
  if negb (bool_decide (entity ∈ entities)) then None else
  if match scope_filter with Some filter => negb (bool_decide (filter = sid)) | None => false end then None else
  Some (mkEvent Update entity "" sid None origin).

(** What [spawn_filtered_forwarder] sends on for one event of a bus. *)
Definition forward (entity : string) (scope_id : option string) (accept : MutationEvent → bool) (ev : StoreEvent)
    : option MutationEvent :=
  event ← match ev with
          | Mutation event =>
            if negb (bool_decide (ev_entity event = entity)) then None else
            if match scope_id with Some scope => negb (bool_decide (ev_scope_id event = scope)) | None => false end
            then None else Some event
          | ScopeLoaded sid entities => scope_signal entity scope_id sid entities Load
          | ScopeCleared sid entities => scope_signal entity scope_id sid entities Clear
          end;
  if accept event then Some event else None.

(** [subscribe_entity] on the memory bus, which stays quiet about writes the
    durable layer announces itself. *)
Definition entity_feed (has_persistence : bool) (entity : string) (evs : Datatypes.list StoreEvent)
    : Datatypes.list MutationEvent :=
  omap (forward entity None (λ event, if has_persistence
    then match ev_origin event with Load | Clear => true | _ => false end else true)) evs.

Definition durable_feed (entity : string) (evs : Datatypes.list StoreEvent) : Datatypes.list MutationEvent :=
  omap (forward entity None (λ _, true)) evs.

Definition scope_feed (scope_id entity : string) (evs : Datatypes.list StoreEvent) : Datatypes.list MutationEvent :=
  omap (forward entity (Some scope_id) (λ _, true)) evs.

(** ** Opening a store

    [persisted] and [remote] are the outcomes of opening the configured
    layers; the initial connect is [reconnect] of the layer, whose error is
    ignored. *)
Definition open (c : StoreConfig) (persisted : option (result (PersistenceLayer D) Error))
    (remote : option (result R Error)) : result Inner Error :=
  let? memory := MemoryStore.new c in
  let? persistence := match persisted with Some r => let? l := r in Ok (Some l) | None => Ok None end in
  let? remote := match remote with Some r => let? l := r in Ok (Some l) | None => Ok None end in
  let root := root_entity (scope c) in
  let? '(persistence, queue) :=
    match persistence, remote with
    | Some p, Some _ =>
      let '(p, r) := Persistent.new p root in
      let? q := r in Ok (Some p, Some (DurableQueue (pq_root_entity q) (pq_user q) (pq_flushing q)))
    | None, Some _ => Ok (None, Some (MemoryQueue (InMemory.new root)))
    | _, None => Ok (persistence, None)
    end in
  let state := mkStoreState None false (match remote with Some _ => false | None => true end) None Offline false in
  Ok (mkInner c memory persistence remote queue state false false).
End store.
End Store.

(** ** Writes of other origins *)

Section frames.
Context {D R : Type} {DB : Db D} {RO : RemoteOps R} {HI : HashIter}.
Abbreviation Inner := (StoreInner D R).
Implicit Types s : Inner.

(** An action that changes nothing but the memory cache. *)
Definition memory_only {A} (m : action Inner Error A) : Prop :=
  ∀ s, post m s (λ s' _, s' = Store.set_memory (si_memory s') s).

Lemma memory_only_bind {A B} (m : action Inner Error A) (k : A → action Inner Error B) :
  memory_only m → (∀ a, memory_only (k a)) → memory_only (abind m k).
Proof.
  intros Hm Hk s. astep. acall (Hm s). intros s1 [a|err] H1; [|done].
  acall (Hk a s1). intros s2 r H2. rewrite H2. by rewrite H1.
Qed.

Lemma memory_only_try {A B} (m : action Inner Error A) (k : result A Error → action Inner Error B) :
  memory_only m → (∀ r, memory_only (k r)) → memory_only (atry m k).
Proof.
  intros Hm Hk s. astep. acall (Hm s). intros s1 r H1. acall (Hk r s1). intros s2 r2 H2. rewrite H2. by rewrite H1.
Qed.

Lemma memory_only_pure {A} (m : action Inner Error A) : (∀ s, (m s).1 = s) → memory_only m.
Proof. intros H s. unfold post. rewrite H. by destruct s. Qed.

Lemma memory_only_ignore {A} (m : action Inner Error A) : memory_only m → memory_only (aignore m).
Proof. intros Hm s. astep. apply Hm. Qed.

Lemma memory_only_on_memory {A} (m : action (MemoryStore D) Error A) : memory_only (Store.on_memory m).
Proof. intros s. unfold Store.on_memory. astep. unfold post. done. Qed.

Create HintDb frames.
#[local] Hint Resolve memory_only_on_memory : frames.
#[local] Hint Extern 1 (memory_only (aret _)) => apply memory_only_pure; done : frames.
#[local] Hint Extern 1 (memory_only (athrow _)) => apply memory_only_pure; done : frames.
#[local] Hint Extern 1 (memory_only (aget _)) => apply memory_only_pure; done : frames.
#[local] Hint Extern 1 (memory_only (Store.read_layer _)) => apply memory_only_pure; done : frames.

Lemma not_live origin s : origin ≠ Local → Store.live origin s = false.
Proof. unfold Store.live. destruct origin; try done; by destruct (si_remote s). Qed.

Lemma not_queued cond io origin (p : PendingMutation) :
  origin ≠ Local → Store.queue_and (D := D) (R := R) cond io origin p = aret ().
Proof. unfold Store.queue_and. by destruct origin, cond. Qed.

(** After asking whether a remote is live, for an origin for which none is. *)
Lemma memory_only_dead {A} origin (k : bool → action Inner Error A) :
  origin ≠ Local → memory_only (k false) → memory_only (abind (aget (Store.live origin)) k).
Proof. intros Ho Hk s. astep. astep. rewrite not_live by done. apply Hk. Qed.

Lemma memory_only_unqueued cond io origin p : origin ≠ Local → memory_only (Store.queue_and cond io origin p).
Proof. intros Ho. rewrite not_queued by done. by apply memory_only_pure. Qed.
#[local] Hint Resolve memory_only_unqueued : frames.

(** Walks through a body; a branch guarded by [skips_persistence] is closed by
    the hypothesis about it. *)
Ltac framing :=
  repeat lazymatch goal with
  | |- memory_only (abind (aget (Store.live _)) _) => apply memory_only_dead; [done|cbn [andb]]
  | |- memory_only (abind _ _) => apply memory_only_bind; [|intros ?]
  | |- memory_only (atry _ _) => apply memory_only_try; [|intros ?]
  | |- memory_only (aignore _) => apply memory_only_ignore
  | H : skips_persistence ?o = true |- memory_only (if ?b && negb (skips_persistence ?o) then _ else _) =>
      rewrite H, andb_false_r
  | H : skips_persistence ?o = true |- memory_only (if skips_persistence ?o then _ else _) => rewrite H
  | |- memory_only (match _ with _ => _ end) => case_match
  | |- memory_only _ => solve [auto with frames]
  end.

(** Writes that come from the broker or from loading go no further. A
    create, update or delete whose origin is not the application changes the
    memory cache and nothing else: neither the durable layer, nor the offline
    queue, nor the remote, nor the connection state, whatever it returns. *)
Theorem foreign_writes_stay_local io origin entity scope_id id data s :
  origin ≠ Local →
  post (Store.create io entity scope_id data origin) s (λ s' _, s' = Store.set_memory (si_memory s') s) ∧
  post (Store.update io entity id data origin) s (λ s' _, s' = Store.set_memory (si_memory s') s) ∧
  post (Store.delete io entity id origin) s (λ s' _, s' = Store.set_memory (si_memory s') s).
Proof.
  intros Ho. assert (skips_persistence origin = true) as Hp by by destruct origin.
  split_and!.
  - revert s. change (memory_only (Store.create io entity scope_id data origin)). unfold Store.create. framing.
  - revert s. change (memory_only (Store.update io entity id data origin)). unfold Store.update. framing.
  - revert s. change (memory_only (Store.delete io entity id origin)). unfold Store.delete. framing.
Qed.
End frames.
