(* ===== verification/SortRecords.v ===== *)
(** * Sorting rows in a browser

    Models [sort_records] of store.rs (wasm): rows are sorted by the fields
    the caller names, over the [f64] value of numbers, strings and booleans.
    [slice::sort_by] is stable, and promises a result only for a comparison
    that is a total order on the elements; otherwise it may panic or leave any
    order, which is [None] here. *)
From Corelib Require Import Floats.SpecFloat.
From S2P Require Import Prelude Json Types Backend OfflineQueue StorePersistence PersistentQueue MemoryStore SyncEngine RemoteSync Store Float64.

(** ** [slice::sort_by] *)

Section sort_by.
Context {A : Type} (cmp_ : A → A → comparison).

Definition le_ (a b : A) : bool := match cmp_ a b with Gt => false | _ => true end.

Definition total_order_on (l : list A) : bool :=
  forallb (λ a, forallb (λ b, bool_decide (cmp_ b a = CompOpp (cmp_ a b)) &&
    forallb (λ c, implb (le_ a b && le_ b c) (le_ a c)) l) l) l.

(** Before the first element it is not greater than. *)
Fixpoint insert_sorted (x : A) (l : list A) : list A :=
  match l with
  | [] => [x]
  | y :: l' => match cmp_ x y with Gt => y :: insert_sorted x l' | _ => x :: l end
  end.

Definition stable_sort (l : list A) : list A := foldr insert_sorted [] l.

Definition sort_by (l : list A) : option (list A) := if total_order_on l then Some (stable_sort l) else None.
End sort_by.

(** ** [sort_records] *)

Definition bool_compare (a b : bool) : comparison :=
  match a, b with true, false => Gt | false, true => Lt | _, _ => Eq end.

Definition compare (a b : option Value) : comparison :=
  match a, b with
  | Some (Num a), Some (Num b) => default Eq (SFcompare (as_f64 a) (as_f64 b))
  | Some (Str a), Some (Str b) => cmp (as_bytes a) (as_bytes b)
  | Some (Bool a), Some (Bool b) => bool_compare a b
  | Some _, None => Gt
  | None, Some _ => Lt
  | _, _ => Eq
  end.

Definition directed (d : SortDirection) (o : comparison) : comparison := match d with Asc => o | Desc => CompOpp o end.

Fixpoint compare_rows (sort : list Store.SortField) (a b : Record_) : comparison :=
  match sort with
  | [] => Eq
  | field :: sort =>
    match directed (Store.sfd_direction field) (compare (a !! Store.sfd_field field) (b !! Store.sfd_field field)) with
    | Eq => compare_rows sort a b
    | ord => ord
    end
  end.

Definition sort_records (rows : list Record_) (sort : list Store.SortField) : option (list Record_) :=
  sort_by (compare_rows sort) rows.

(** ** Stable sorting *)

Section orders.
Context {A : Type}.
Implicit Types (c : A → A → comparison) (P : A → Prop).

(** A total order, up to ties, on the elements of [P]. *)
Record ordered c P : Prop := {
  ord_flip a b : P a → P b → c b a = CompOpp (c a b);
  ord_trans a b d : P a → P b → P d → c a b ≠ Gt → c b d ≠ Gt → c a d ≠ Gt;
}.

Lemma ordered_lt c P a b d : ordered c P → P a → P b → P d → c a b = Lt → c b d ≠ Gt → c a d = Lt.
Proof.
  intros [Hf Ht] Ha Hb Hd E Hle. destruct (c a d) eqn:Ead; [| done|].
  - exfalso. apply (Ht b d a); try done; [rewrite (Hf a d), Ead by done; done|]. by rewrite (Hf a b), E.
  - exfalso. apply (Ht b d a); try done; [rewrite (Hf a d), Ead by done; done|]. by rewrite (Hf a b), E.
Qed.

Lemma ordered_lt' c P a b d : ordered c P → P a → P b → P d → c a b ≠ Gt → c b d = Lt → c a d = Lt.
Proof.
  intros [Hf Ht] Ha Hb Hd Hle E. destruct (c a d) eqn:Ead; [| done|].
  - exfalso. apply (Ht d a b); try done; [rewrite (Hf a d), Ead by done; done|]. by rewrite (Hf b d), E.
  - exfalso. apply (Ht d a b); try done; [rewrite (Hf a d), Ead by done; done|]. by rewrite (Hf b d), E.
Qed.

Lemma ordered_key {K} `{RustOrd K} c P (key : A → K) : (∀ a b, P a → P b → c a b = cmp (key a) (key b)) → ordered c P.
Proof.
  intros Hc. split.
  - intros a b Ha Hb. rewrite !Hc by done. apply cmp_flip.
  - intros a b d Ha Hb Hd. rewrite !Hc by done. apply (transitivity (R := ord_le)).
Qed.

Lemma ordered_reverse c P : ordered c P → ordered (λ a b, CompOpp (c a b)) P.
Proof.
  intros [Hf Ht]. split.
  - intros a b Ha Hb. by rewrite (Hf a b).
  - intros a b d Ha Hb Hd H1 H2. rewrite <-(Hf a d) by done.
    apply (Ht d b a); try done; [by rewrite (Hf b d)|by rewrite (Hf a b)].
Qed.

Lemma ordered_then c c' P :
  ordered c P → ordered c' P → ordered (λ a b, match c a b with Eq => c' a b | o => o end) P.
Proof.
  intros Hc Hc'. pose proof Hc as [Hf Ht]. pose proof Hc' as [Hf' Ht']. split.
  - intros a b Ha Hb. rewrite (Hf a b), (Hf' a b) by done. by destruct (c a b).
  - intros a b d Ha Hb Hd. destruct (c a b) eqn:E1; [| |done]; intros H1.
    + destruct (c b d) eqn:E2; [| |done]; intros H2.
      * assert (c a d ≠ Gt) by (apply (Ht a b d); congruence).
        assert (c d a ≠ Gt) by (apply (Ht d b a); try done; [by rewrite (Hf b d), E2|by rewrite (Hf a b), E1]).
        rewrite (Hf a d) in * by done. destruct (c a d); try done. by apply (Ht' a b d).
      * rewrite (ordered_lt' c P a b d) by (done || congruence). done.
    + intros H2. rewrite (ordered_lt c P a b d); try done. by destruct (c b d).
Qed.

Lemma ordered_nil P : ordered (λ _ _, Eq) P.
Proof. split; done. Qed.

Lemma total_order_on_spec c l : ordered c (.∈ l) → total_order_on c l = true.
Proof.
  intros [Hf Ht]. unfold total_order_on. apply forallb_forall. intros a Ha%list_elem_of_In.
  apply forallb_forall. intros b Hb%list_elem_of_In. apply andb_true_iff. split; [by apply bool_decide_eq_true_2, Hf|].
  apply forallb_forall. intros d Hd%list_elem_of_In. specialize (Ht a b d Ha Hb Hd). unfold le_.
  destruct (c a b), (c b d), (c a d); naive_solver.
Qed.

Definition sorted c (l : list A) : Prop := StronglySorted (λ a b, c a b ≠ Gt) l.

Lemma insert_perm c x l : insert_sorted c x l ≡ₚ x :: l.
Proof.
  induction l as [|y l IH]; [done|]. simpl. destruct (c x y); [done|done|]. rewrite IH. apply Permutation_swap.
Qed.

Lemma stable_sort_perm c l : stable_sort c l ≡ₚ l.
Proof. induction l as [|x l IH]; [done|]. simpl. rewrite insert_perm. by f_equiv. Qed.

Lemma insert_sorted_sorted c P x l : ordered c P → P x → Forall P l → sorted c l → sorted c (insert_sorted c x l).
Proof.
  intros Ho Hx Hl Hs. pose proof Ho as [Hf Ht]. induction Hs as [|y l Hs IH Hy]; simpl; [repeat constructor|].
  apply Forall_cons in Hl as [HPy Hl]. destruct (c x y) eqn:E.
  - constructor; [by constructor|]. constructor; [congruence|]. rewrite Forall_forall in *.
    intros z Hz. apply (Ht x y z); auto. congruence.
  - constructor; [by constructor|]. constructor; [congruence|]. rewrite Forall_forall in *.
    intros z Hz. apply (Ht x y z); auto. congruence.
  - constructor; [by apply IH|]. rewrite insert_perm. constructor; [|done]. by rewrite (Hf x y), E.
Qed.

Lemma stable_sort_sorted c l : ordered c (.∈ l) → sorted c (stable_sort c l).
Proof.
  intros Ho. assert (H : ∀ k, (∀ x, x ∈ k → x ∈ l) → sorted c (stable_sort c k)).
  { induction k as [|x k IH]; intros Hk; [constructor|]. simpl. apply (insert_sorted_sorted c (.∈ l)); [done|set_solver| |].
    - rewrite stable_sort_perm. apply Forall_forall. set_solver.
    - apply IH. set_solver. }
  by apply H.
Qed.

(** Ties keep their order. *)
Lemma insert_ties c P r x l :
  ordered c P → P r → P x → Forall P l →
  filter (λ y, c y r = Eq) (insert_sorted c x l) = filter (λ y, c y r = Eq) (x :: l).
Proof.
  intros Ho Hr Hx Hl. pose proof Ho as [Hf Ht]. induction l as [|y l IH]; [done|]. apply Forall_cons in Hl as [Hy Hl]. simpl.
  destruct (c x y) eqn:E; [done|done|]. rewrite filter_cons, IH, !filter_cons by done.
  destruct (decide (c x r = Eq)) as [Ex|]; [|done]. assert (c y r ≠ Eq) as Hn; [|by rewrite !decide_False by exact Hn].
  intros Ey. apply (Ht x r y); try done; [by rewrite Ex|]. by rewrite (Hf y r), Ey.
Qed.

Lemma stable_sort_ties c l r : ordered c (.∈ l) → r ∈ l → filter (λ y, c y r = Eq) (stable_sort c l) = filter (λ y, c y r = Eq) l.
Proof.
  intros Ho Hr. assert (H : ∀ k, (∀ x, x ∈ k → x ∈ l) → filter (λ y, c y r = Eq) (stable_sort c k) = filter (λ y, c y r = Eq) k).
  { induction k as [|x k IH]; intros Hk; [done|]. simpl. rewrite (insert_ties c (.∈ l)); [|done|done|set_solver|].
    - rewrite !filter_cons, IH by set_solver. done.
    - rewrite stable_sort_perm. apply Forall_forall. set_solver. }
  by apply H.
Qed.
End orders.

(** ** Columns of one kind *)

Inductive Kind := KNum | KStr | KBool.

(** Missing, or a value of the kind; a JSON number is never a NaN. *)
Definition of_kind (k : Kind) (v : option Value) : Prop :=
  match v with
  | None => True
  | Some (Num n) => k = KNum ∧ is_nan (as_f64 n) = false
  | Some (Str _) => k = KStr
  | Some (Bool _) => k = KBool
  | Some _ => False
  end.

Definition value_key (v : option Value) : Z * ((Z * Z * Z) * list byte) :=
  match v with
  | Some (Num n) => (1%Z, (f64_key (as_f64 n), []))
  | Some (Str s) => (1%Z, ((0, 0, 0)%Z, as_bytes s))
  | Some (Bool b) => (1%Z, ((if b then 1 else 0, 0, 0)%Z, []))
  | _ => (0%Z, ((0, 0, 0)%Z, []))
  end.

Lemma compare_key k a b : of_kind k a → of_kind k b → compare a b = cmp (value_key a) (value_key b).
Proof.
  destruct a as [[| | n| | |]|], b as [[| | n'| | |]|]; simpl; try done; intros Ha Hb; try (exfalso; naive_solver congruence).
  - by destruct b0, b.
  - destruct Ha as [_ Ha], Hb as [_ Hb]. rewrite SFcompare_key by done. simpl. unfold key_compare.
    destruct (f64_key (as_f64 n)) as [[x y] z], (f64_key (as_f64 n')) as [[x' y'] z']. simpl.
    destruct (x ?= x')%Z, (y ?= y')%Z, (z ?= z')%Z; done.
Qed.

(** Every field sorted by holds values of one kind in all rows. *)
Definition typed_columns (sort : list Store.SortField) (rows : list Record_) : Prop :=
  Forall (λ f, ∃ k, Forall (λ r, of_kind k (r !! Store.sfd_field f)) rows) sort.

Lemma compare_rows_ordered sort rows : typed_columns sort rows → ordered (compare_rows sort) (.∈ rows).
Proof.
  induction 1 as [|f sort [k Hk] _ IH]; [apply ordered_nil|]. rewrite Forall_forall in Hk.
  assert (Hc : ordered (λ a b : Record_, compare (a !! Store.sfd_field f) (b !! Store.sfd_field f)) (.∈ rows)).
  { apply (ordered_key _ _ (λ r : Record_, value_key (r !! Store.sfd_field f))). intros a b Ha Hb. by apply (compare_key k); apply Hk. }
  apply (ordered_then (λ a b : Record_, directed (Store.sfd_direction f) (compare (a !! Store.sfd_field f) (b !! Store.sfd_field f)))); [|done].
  unfold directed. destruct (Store.sfd_direction f); [done|by apply ordered_reverse].
Qed.

(** ** The order a caller asks for *)

(** Dictionary order of byte strings. *)
Inductive bytes_lt : list byte → list byte → Prop :=
  | bytes_lt_end b l : bytes_lt [] (b :: l)
  | bytes_lt_here b c l k : (byte_val b < byte_val c)%Z → bytes_lt (b :: l) (c :: k)
  | bytes_lt_later b l k : bytes_lt l k → bytes_lt (b :: l) (b :: k).

(** One field: a missing value is least; numbers are ordered by the double
    they denote, strings by their bytes, and [false] is below [true]. *)
Inductive key_lt : option Value → option Value → Prop :=
  | key_lt_missing v : key_lt None (Some v)
  | key_lt_num m n : SFltb (as_f64 m) (as_f64 n) = true → key_lt (Some (Num m)) (Some (Num n))
  | key_lt_str s t : bytes_lt (as_bytes s) (as_bytes t) → key_lt (Some (Str s)) (Some (Str t))
  | key_lt_bool : key_lt (Some (Bool false)) (Some (Bool true)).

(** The row [a] belongs before [b] by one field, in its direction. *)
Definition field_lt (f : Store.SortField) (a b : Record_) : Prop :=
  let key (r : Record_) := r !! Store.sfd_field f in
  match Store.sfd_direction f with Asc => key_lt (key a) (key b) | Desc => key_lt (key b) (key a) end.

(** By a list of fields: the first that tells the rows apart decides. *)
Inductive row_lt : list Store.SortField → Record_ → Record_ → Prop :=
  | row_lt_first f sort a b : field_lt f a b → row_lt (f :: sort) a b
  | row_lt_later f sort a b : ¬ field_lt f a b → ¬ field_lt f b a → row_lt sort a b → row_lt (f :: sort) a b.

Lemma bytes_lt_cmp l k : bytes_lt l k ↔ cmp l k = Lt.
Proof.
  revert k. induction l as [|b l IH]; intros [|c k].
  - split; [inversion 1|done].
  - split; [done|constructor].
  - split; [inversion 1|done].
  - change (cmp (b :: l) (c :: k)) with (then_with (cmp b c) (cmp l k)).
    specialize (IH k). pose proof (cmp_eq_iff b c) as Heq. pose proof (Z.compare_lt_iff (byte_val b) (byte_val c)) as Hlt. change (byte_val b ?= byte_val c)%Z with (cmp b c) in Hlt.
    split.
    + inversion 1 as [|? ? ? ? Hb|]; subst; [by apply Hlt in Hb as ->|]. rewrite (proj2 Heq eq_refl). by apply IH.
    + destruct (cmp b c); simpl; [|intros _; apply bytes_lt_here; by apply Hlt|done].
      pose proof (proj1 Heq eq_refl) as ->. intros Hl. apply bytes_lt_later. by apply IH.
Qed.

Lemma key_lt_compare k a b : of_kind k a → of_kind k b → key_lt a b ↔ compare a b = Lt.
Proof.
  intros Ha Hb. split.
  - destruct 1 as [v|m n H|s t H|]; simpl in *; [done| |by apply bytes_lt_cmp|done].
    unfold SFltb in H. by destruct (SFcompare _ _) as [[]|].
  - destruct a as [[| x|m| s| |]|], b as [[| y|n| t| |]|]; simpl; try done.
    + destruct x, y; try done. constructor.
    + intros H. constructor. unfold SFltb. by destruct (SFcompare _ _) as [[]|].
    + intros H. constructor. by apply bytes_lt_cmp.
    + constructor.
    + constructor.
    + constructor.
Qed.

Lemma compare_flip k a b : of_kind k a → of_kind k b → compare b a = CompOpp (compare a b).
Proof. intros Ha Hb. rewrite !(compare_key k) by done. apply cmp_flip. Qed.

Lemma field_lt_directed k f (a b : Record_) : of_kind k (a !! Store.sfd_field f) → of_kind k (b !! Store.sfd_field f) →
  field_lt f a b ↔ directed (Store.sfd_direction f) (compare (a !! Store.sfd_field f) (b !! Store.sfd_field f)) = Lt.
Proof.
  intros Ha Hb. unfold field_lt. destruct (Store.sfd_direction f); simpl; rewrite (key_lt_compare k) by done; [done|].
  by rewrite (compare_flip k (a !! _)) by done.
Qed.

Lemma row_lt_compare sort rows a b : typed_columns sort rows → a ∈ rows → b ∈ rows → row_lt sort a b ↔ compare_rows sort a b = Lt.
Proof.
  intros Ht Ha Hb. induction Ht as [|f sort [k Hk] _ IH]; simpl; [split; [inversion 1|done]|]. rewrite Forall_forall in Hk.
  pose proof (field_lt_directed k f a b (Hk a Ha) (Hk b Hb)) as Hab. pose proof (field_lt_directed k f b a (Hk b Hb) (Hk a Ha)) as Hba.
  rewrite (compare_flip k (a !! _)) in Hba by auto.
  assert (Hd : ∀ o, directed (Store.sfd_direction f) (CompOpp o) = CompOpp (directed (Store.sfd_direction f) o)) by (by destruct (Store.sfd_direction f)).
  rewrite Hd in Hba. destruct (directed _ _); simpl in *.
  - rewrite <-IH. split; [inversion 1; naive_solver|]. intros H. by apply row_lt_later; rewrite ?Hab, ?Hba.
  - split; [done|]. intros _. apply row_lt_first. by apply Hab.
  - split; [|done]. inversion 1; naive_solver.
Qed.

Lemma sorted_rows sort rows out :
  typed_columns sort rows → out ≡ₚ rows → sorted (compare_rows sort) out → StronglySorted (λ a b, ¬ row_lt sort b a) out.
Proof.
  intros Ht Hperm Hs. assert (Hin : ∀ x, x ∈ out → x ∈ rows) by (intros x; by rewrite Hperm). clear Hperm.
  induction Hs as [|x l Hs IH Hx]; [constructor|]. constructor; [apply IH; set_solver|].
  rewrite Forall_forall in *. intros y Hy Hlt. apply (row_lt_compare sort rows) in Hlt; [|done|set_solver..].
  destruct (compare_rows_ordered sort rows Ht) as [Hf _]. apply (Hx y Hy). rewrite (Hf y x) by set_solver. by rewrite Hlt.
Qed.

(** Rows none of which belongs before another keep their order. *)
Lemma ties_kept sort rows out (p : Record_ → bool) :
  typed_columns sort rows → out ≡ₚ rows →
  (∀ r, r ∈ rows → filter (λ y, compare_rows sort y r = Eq) out = filter (λ y, compare_rows sort y r = Eq) rows) →
  (∀ a b, a ∈ rows → b ∈ rows → p a = true → p b = true → ¬ row_lt sort a b) →
  filter (λ r, p r = true) out = filter (λ r, p r = true) rows.
Proof.
  intros Ht Hperm Hties Hp. destruct (filter (λ r, p r = true) rows) as [|r l] eqn:E.
  - apply Permutation_nil_r. rewrite <-E. by rewrite Hperm.
  - assert (Hr : p r = true ∧ r ∈ rows) by (apply (list_elem_of_filter (λ r, p r = true)); rewrite E; left). destruct Hr as [Hpr Hr]. rewrite <-E.
    assert (Hin : ∀ k, k ≡ₚ rows → filter (λ r, p r = true) k = filter (λ r, p r = true) (filter (λ y, compare_rows sort y r = Eq) k)).
    { intros k Hk. rewrite list_filter_filter. apply list_filter_ext_in. intros y Hy. rewrite Hk in Hy.
      split; [intros Hpy|by intros [? ?]]. split; [done|].
      pose proof (Hp y r Hy Hr Hpy Hpr) as H1. pose proof (Hp r y Hr Hy Hpr Hpy) as H2.
      rewrite (row_lt_compare sort rows) in H1, H2 by done.
      destruct (compare_rows_ordered sort rows Ht) as [Hf _]. rewrite (Hf y r) in H2 by done. by destruct (compare_rows sort y r). }
    by rewrite (Hin out), (Hin rows), Hties.
Qed.

(** C24: Sorting by columns of one kind. When every field sorted by holds
    numbers, or strings, or booleans in all rows that have it, sorting ends,
    with the same rows: no row comes after one it belongs before by the fields
    in turn, each in its direction (a row without the field first when
    ascending, last when descending), and rows that no field tells apart keep
    the order they had. *)
Theorem sort_records_sorts rows sort :
  typed_columns sort rows →
  ∃ out, sort_records rows sort = Some out ∧ out ≡ₚ rows ∧ StronglySorted (λ a b, ¬ row_lt sort b a) out ∧
    ∀ p : Record_ → bool, (∀ a b, a ∈ rows → b ∈ rows → p a = true → p b = true → ¬ row_lt sort a b) →
      filter (λ r, p r = true) out = filter (λ r, p r = true) rows.
Proof.
  intros Ht. pose proof (compare_rows_ordered sort rows Ht) as Ho. unfold sort_records, sort_by.
  rewrite total_order_on_spec by done. eexists. split_and!; [done|apply stable_sort_perm| |].
  - apply (sorted_rows sort rows); [done|apply stable_sort_perm|by apply stable_sort_sorted].
  - intros p. apply ties_kept; [done|apply stable_sort_perm|]. intros r Hr. by apply stable_sort_ties.
Qed.

Definition ex_rows : list Record_ :=
  [{[ "id" := Str "a"; "n" := Num (PosInt 2) ]}; {[ "id" := Str "b" ]}; {[ "id" := Str "c"; "n" := Num (NegInt (-5)) ]};
   {[ "id" := Str "d"; "n" := Num (PosInt 2) ]}; {[ "id" := Str "e"; "n" := Num (Float 4602678819172646912) ]}].

Lemma sort_records_sorts_witness :
  ∃ out, sort_records ex_rows [Store.mkSortField "n" Desc] = Some out ∧ (λ r, get_str r "id") <$> out = Some <$> ["a"; "d"; "e"; "c"; "b"] ∧
    StronglySorted (λ a b, ¬ row_lt [Store.mkSortField "n" Desc] b a) out.
Proof.
  destruct (sort_records_sorts ex_rows [Store.mkSortField "n" Desc]) as (out & Hout & _ & Hs & _).
  - constructor; [|constructor]. exists KNum. repeat (constructor; [vm_compute; (exact I || (split; reflexivity))|]). constructor.
  - exists out. split; [exact Hout|]. split; [|exact Hs].
    assert (sort_records ex_rows [Store.mkSortField "n" Desc] = Some (stable_sort (compare_rows [Store.mkSortField "n" Desc]) ex_rows))
      as E by (vm_compute; reflexivity).
    rewrite E in Hout. injection Hout as <-. vm_compute. reflexivity.
Defined.

(** A column that mixes numbers with another kind: the comparison is not an
    order, and the sort may panic. *)
Lemma mixed_column_unsorted :
  sort_records [{[ "n" := Num (PosInt 2) ]}; {[ "n" := Str "x" ]}; {[ "n" := Num (PosInt 1) ]}] [Store.mkSortField "n" Asc] = None.
Proof. vm_compute. reflexivity. Qed.
