(* ===== verification/StoreLaws.v ===== *)
(** * What the writes of the store do

    The functional behaviour of [create], [update], [delete] and the
    compare-and-set calls of store.rs (modelled in Store.v) on healthy
    databases, for every answer of the broker, and the states they leave
    behind in memory, in the durable layer and in the offline queue. *)
From S2P Require Import Prelude Json Types Backend OfflineQueue StorePersistence PersistentQueue MemoryStore SyncEngine RemoteSync Store.

#[export] Existing Instance Store.inner_accessor.

(** ** A store on healthy databases *)

Section laws.
Context {D R : Type} {DB : Db D} {DL : DbLaws D} {RO : RemoteOps R} {HI : HashIter}.
Abbreviation Inner := (StoreInner D R).
Implicit Types (s : Inner) (mq : InMemoryOfflineQueue).

(** The schema of the queue declares no default values. *)
Context (no_defaults : ∀ r, defaults (D := D) PENDING_ENTITY r = r).

Definition durable s (k : string * string) : option Record_ := si_persistence s ≫= λ l, layer_table l !! k.

(** The offline queue of the store holds the rows of [mq]. *)
Definition queue_is s mq : Prop :=
  match si_queue s, si_persistence s with
  | Some (MemoryQueue q), _ => mq_rows q ≡ₚ mq_rows mq
  | Some (DurableQueue root (Some user) flushing), Some l =>
    represents user (mkPersistentQueue l root (Some user) flushing) mq
  | _, _ => False
  end.

(** What the application can see of a store: the rows in memory, the durable
    rows and the queue. *)
Definition looks s (mem : gmap (string * string) Record_) (dur : string * string → option Record_) mq : Prop :=
  mem_table (si_memory s) = mem ∧ (∀ k, k.1 ≠ PENDING_ENTITY → durable s k = dur k) ∧ queue_is s mq.

(** What a step leaves alone. *)
Definition kept s s' : Prop :=
  si_config s' = si_config s ∧ si_state s' = si_state s ∧ si_remote s' = si_remote s ∧
  ms_config (si_memory s') = ms_config (si_memory s) ∧
  (is_Some (si_persistence s') ↔ is_Some (si_persistence s)).

#[export] Instance kept_preorder : PreOrder kept.
Proof.
  split; [intros s; by split_and!|]. intros s1 s2 s3 (? & ? & ? & ? & Hp1) (? & ? & ? & ? & Hp2).
  split_and!; [congruence..|]. by rewrite Hp2, Hp1.
Qed.

Lemma rows_of_ext (t t' : gmap (string * string) Record_) e :
  (∀ id, t' !! (e, id) = t !! (e, id)) → rows_of t' e ≡ₚ rows_of t e.
Proof.
  intros H. unfold rows_of. apply fmap_Permutation. apply NoDup_Permutation.
  - apply NoDup_filter, NoDup_map_to_list.
  - apply NoDup_filter, NoDup_map_to_list.
  - intros [[e' id] r]. rewrite !list_elem_of_filter, !elem_of_map_to_list. simpl.
    split; intros [-> Hr]; (split; [done|]); [by rewrite <-H|by rewrite H].
Qed.

(** The queue does not notice changes to other entities. *)
Lemma queue_is_layer s l l' mq :
  si_persistence s = Some l → (∀ id, layer_table l' !! (PENDING_ENTITY, id) = layer_table l !! (PENDING_ENTITY, id)) →
  queue_is s mq → queue_is (Store.set_persistence (Some l') s) mq.
Proof.
  intros Hl Hsame. unfold queue_is. simpl. rewrite Hl.
  destruct (si_queue s) as [[q|root [user|] fl]|]; try done. intros [Hu Hrows]. split; [done|].
  rewrite <-Hrows. unfold user_rows, records_of, pending_table. simpl. by rewrite (rows_of_ext _ _ _ Hsame).
Qed.

Lemma looks_memory s m mem mem' dur mq :
  looks s mem dur mq → mem_table m = mem' → looks (Store.set_memory m s) mem' dur mq.
Proof. intros (? & ? & ?) ?. by split_and!. Qed.

Lemma looks_layer s l l' mem dur mq :
  looks s mem dur mq → si_persistence s = Some l →
  (∀ id, layer_table l' !! (PENDING_ENTITY, id) = layer_table l !! (PENDING_ENTITY, id)) →
  looks (Store.set_persistence (Some l') s) mem (λ k, layer_table l' !! k) mq.
Proof. intros (Hm & Hd & Hq) Hl Hsame. split_and!; [done|done|by eapply queue_is_layer]. Qed.

Lemma looks_ext s mem dur dur' mq mq' :
  (∀ k, k.1 ≠ PENDING_ENTITY → dur k = dur' k) → mq_rows mq = mq_rows mq' →
  looks s mem dur mq → looks s mem dur' mq'.
Proof.
  intros Hd Hm (H1 & H2 & H3). split_and!; [done|intros k Hk; by rewrite <-Hd, <-H2|].
  unfold queue_is in *. destruct (si_queue s) as [[q|root [user|] fl]|]; try done; [by rewrite <-Hm|].
  destruct (si_persistence s); [|done]. destruct H3 as [? ?]. split; [done|]. by rewrite <-Hm.
Qed.

(** *** Queueing *)

Definition row_fresh s (io : Inputs) : Prop := durable s (PENDING_ENTITY, in_row_id io) = None.

(** The rows of the queue's entity are the same. *)
Definition same_pending s s' : Prop := ∀ id, durable s' (PENDING_ENTITY, id) = durable s (PENDING_ENTITY, id).

Lemma push_spec io p s mem dur mq :
  looks s mem dur mq → row_fresh s io →
  post (Store.queue_push io p) s (λ s' r, r = Ok () ∧ kept s s' ∧
    looks s' mem dur (InMemory.queue mq p (in_row_id io) (in_now io))).
Proof using no_defaults.
  intros (Hm & Hd & Hq) Hfresh. unfold Store.queue_push, Store.on_queue, post, queue_is in *.
  destruct (si_queue s) as [[q|root [user|] fl]|] eqn:Eq; try done.
  - simpl. split; [done|]. split; [by split_and!|]. split_and!; [done..|]. unfold queue_is. simpl.
    by rewrite Hq.
  - destruct (si_persistence s) as [l|] eqn:El; [|done].
    unfold row_fresh, durable in Hfresh. rewrite El in Hfresh. simpl in Hfresh.
    pose proof (queue_step no_defaults user _ mq p (in_row_id io) (in_now io) Hq Hfresh) as Hp.
    unfold post in Hp. destruct (Persistent.queue _ _ _ _) as [q' r]. simpl in *.
    destruct Hp as (-> & [Hu Hrows] & (_ & _ & Hk & Hs)). split; [done|]. split.
    { by split_and!; simpl; rewrite ?El. }
    split; [done|]. split.
    + intros k Hk'. rewrite <-Hd by done. unfold durable. simpl. rewrite El. simpl. by apply Hk.
    + unfold queue_is. simpl. destruct Hs as (_ & Hu' & _). rewrite Hu. by split.
Qed.

Lemma remove_spec e id sc op s mem dur mq :
  looks s mem dur mq →
  post (Store.queue_remove e id sc op) s (λ s' r, r = Ok () ∧ kept s s' ∧
    looks s' mem dur (InMemory.remove mq e id sc op)).
Proof.
  clear no_defaults. intros (Hm & Hd & Hq). unfold Store.queue_remove, Store.on_queue, post, queue_is in *.
  destruct (si_queue s) as [[q|root [user|] fl]|] eqn:Eq; try done.
  - simpl. split; [done|]. split; [by split_and!|]. split_and!; [done..|]. unfold queue_is. simpl.
    by rewrite Hq.
  - destruct (si_persistence s) as [l|] eqn:El; [|done].
    pose proof (remove_step user _ mq e id sc op Hq) as Hp.
    unfold post in Hp. destruct (Persistent.remove _ _ _ _ _) as [q' r]. simpl in *.
    destruct Hp as (-> & [Hu Hrows] & (_ & _ & Hk & Hs)). split; [done|]. split.
    { by split_and!; simpl; rewrite ?El. }
    split; [done|]. split.
    + intros k Hk'. rewrite <-Hd by done. unfold durable. simpl. rewrite El. simpl. by apply Hk.
    + unfold queue_is. simpl. destruct Hs as (_ & Hu' & _). rewrite Hu. by split.
Qed.

(** *** Rows *)

(** Reading the cache is an identity on the store. *)
Lemma memory_read_spec e id s mem dur mq (Q : Inner → result (option Record_) Error → Prop) :
  looks s mem dur mq → Q s (Ok (mem !! (e, id))) →
  post (Store.on_memory (λ m, (m, MemoryStore.read e id m))) s Q.
Proof.
  clear no_defaults. intros (Hm & _) HQ. unfold Store.on_memory, post, azoom. cbv beta. rewrite memory_read, Hm.
  cbn [fst snd]. by destruct s.
Qed.

Lemma memory_create_spec e sc data o id s mem dur mq :
  looks s mem dur mq → get_str data "id" = Some id →
  let record := defaults e (MemoryStore.stamp_scope (ms_config (si_memory s)) e sc (strip_nulls data)) in
  post (Store.on_memory (MemoryStore.create e sc data o)) s (λ s' r, r = Ok record ∧ kept s s' ∧ same_pending s s' ∧
    looks s' (<[(e, id) := record]> mem) dur mq).
Proof.
  clear no_defaults. intros Hl Hid record. unfold Store.on_memory. astep.
  acall (memory_create (si_memory s) e sc data o id Hid). intros m' r (-> & Ht & (Hc & _)).
  split; [done|]. split; [by split_and!|]. split; [done|]. eapply looks_memory; [done|]. by rewrite Ht, (proj1 Hl).
Qed.

Lemma memory_delete_spec e id o s mem dur mq :
  looks s mem dur mq →
  post (Store.on_memory (MemoryStore.delete e id o)) s (λ s' _, kept s s' ∧ same_pending s s' ∧
    looks s' (delete (e, id) mem) dur mq).
Proof.
  clear no_defaults. intros Hl. unfold Store.on_memory. astep.
  acall (memory_delete (si_memory s) e id o). intros m' r (Ht & (Hc & _) & _).
  split; [by split_and!|]. split; [done|]. eapply looks_memory; [done|]. by rewrite Ht, (proj1 Hl).
Qed.

(** The durable rows after one of them is set, if there is a durable layer. *)
Definition dur_set s (dur : string * string → option Record_) (k : string * string) (o : option Record_)
    (k' : string * string) : option Record_ :=
  if bool_decide (is_Some (si_persistence s)) && bool_decide (k' = k) then o else dur k'.

Lemma layer_create_spec e data o id s mem dur mq :
  looks s mem dur mq → get_str data "id" = Some id → e ≠ PENDING_ENTITY →
  post (Store.on_layer (PersistenceLayer.create e data o)) s (λ s' r, is_ok r = true ∧ kept s s' ∧ same_pending s s' ∧
    looks s' mem (dur_set s dur (e, id) (Some (defaults e (strip_nulls data)))) mq).
Proof.
  clear no_defaults. intros Hl Hid He. unfold Store.on_layer, post, dur_set.
  destruct (si_persistence s) as [l|] eqn:El; simpl.
  2:{ by split_and!. }
  pose proof (layer_create l e data o id Hid) as Hp. unfold post in Hp.
  destruct (PersistenceLayer.create e data o l) as [l' r]. simpl in *. destruct Hp as (-> & Ht & _ & _). split; [done|].
  split; [by split_and!; simpl; rewrite ?El|]. split.
  { intros id'. unfold durable. simpl. rewrite El. simpl. by rewrite Ht, lookup_insert_ne by congruence. }
  eapply looks_ext; [|done|eapply (looks_layer s l l'); [exact Hl|done|]].
  - intros k Hk. rewrite Ht, lookup_insert. destruct Hl as (_ & Hd & _). rewrite <-Hd by done.
    unfold durable. rewrite El. simpl. destruct (decide ((e, id) = k)) as [<-|Hne];
      [by rewrite bool_decide_eq_true_2|by rewrite bool_decide_eq_false_2].
  - intros id'. by rewrite Ht, lookup_insert_ne by congruence.
Qed.

Lemma layer_delete_spec e id o s mem dur mq :
  looks s mem dur mq → e ≠ PENDING_ENTITY →
  post (Store.on_layer (PersistenceLayer.delete e id o)) s (λ s' _, kept s s' ∧ same_pending s s' ∧
    looks s' mem (dur_set s dur (e, id) None) mq).
Proof.
  clear no_defaults. intros Hl He. unfold Store.on_layer, post, dur_set.
  destruct (si_persistence s) as [l|] eqn:El; simpl.
  2:{ by split_and!. }
  pose proof (layer_delete l e id o) as Hp. unfold post in Hp.
  destruct (PersistenceLayer.delete e id o l) as [l' r]. simpl in *. destruct Hp as (Ht & _ & _).
  split; [by split_and!; simpl; rewrite ?El|]. split.
  { intros id'. unfold durable. simpl. rewrite El. simpl. by rewrite Ht, lookup_delete_ne by congruence. }
  eapply looks_ext; [|done|eapply (looks_layer s l l'); [exact Hl|done|]].
  - intros k Hk. rewrite Ht, lookup_delete. destruct Hl as (_ & Hd & _). rewrite <-Hd by done.
    unfold durable. rewrite El. simpl. destruct (decide ((e, id) = k)) as [<-|Hne];
      [by rewrite bool_decide_eq_true_2|by rewrite bool_decide_eq_false_2].
  - intros id'. by rewrite Ht, lookup_delete_ne by congruence.
Qed.

(** *** Creating *)

Definition no_row mq (e id sc : string) (op : Operation) : Prop :=
  ∀ row, row ∈ mq_rows mq →
    ¬ (row_entity row = e ∧ row_entity_id row = id ∧ row_scope_id row = sc ∧ row_op row = op).

(** Removing the row just queued. *)
Lemma queue_remove_cancel mq p row_id now :
  no_row mq (pm_entity p) (pm_id p) (pm_scope_id p) (pm_op p) →
  mq_rows (InMemory.remove (InMemory.queue mq p row_id now) (pm_entity p) (pm_id p) (pm_scope_id p) (pm_op p)) = mq_rows mq.
Proof.
  intros Hno. simpl. rewrite filter_app, filter_cons, decide_False, filter_nil, app_nil_r by (simpl; tauto).
  apply list_filter_all. intros row Hrow. by apply Hno.
Qed.

Lemma looks_remote s r mem dur mq : looks s mem dur mq → looks (Store.set_remote r s) mem dur mq.
Proof. done. Qed.

Lemma on_remote_spec {A} (m : action R Error A) s r0 mem dur mq :
  si_remote s = Some r0 → looks s mem dur mq →
  post (Store.on_remote m) s (λ s' r, r = (m r0).2 ∧ looks s' mem dur mq ∧ si_config s' = si_config s ∧
    si_state s' = si_state s ∧ (is_Some (si_persistence s') ↔ is_Some (si_persistence s)) ∧
    ms_config (si_memory s') = ms_config (si_memory s)).
Proof.
  clear no_defaults. intros Hr Hl. unfold Store.on_remote, post. rewrite Hr. destruct (m r0) as [r1 res]. simpl.
  by split_and!.
Qed.

Lemma dur_set_undo s s' dur k o :
  dur k = None → (is_Some (si_persistence s') ↔ is_Some (si_persistence s)) →
  ∀ k', dur_set s' (dur_set s dur k o) k None k' = dur k'.
Proof.
  clear no_defaults. intros Hk Hs k'. unfold dur_set. rewrite (bool_decide_ext _ _ Hs).
  destruct (bool_decide _); simpl; [|done]. case_bool_decide; by subst.
Qed.

Lemma rollback_create_spec e id sc s s0 mem dur mq o data row_id now v :
  e ≠ PENDING_ENTITY → mem !! (e, id) = None → dur (e, id) = None → no_row mq e id sc Insert →
  (is_Some (si_persistence s) ↔ is_Some (si_persistence s0)) →
  looks s (<[(e, id) := v]> mem) (dur_set s0 dur (e, id) o)
    (InMemory.queue mq (mkPending Insert e id sc data 0) row_id now) →
  post (Store.rollback_local_create e id sc Local) s (λ s' r, r = Ok () ∧ looks s' mem dur mq).
Proof.
  clear no_defaults. intros He Hm Hd Hno Hp Hl. unfold Store.rollback_local_create, Store.rollback_local_row. asteps.
  acall (memory_delete_spec e id Local s _ _ _ Hl). intros s1 r1 (Hk1 & _ & Hl1). cbn [skips_persistence]. asteps.
  acall (layer_delete_spec e id Local s1 _ _ _ Hl1 He). intros s2 r2 (Hk2 & _ & Hl2). asteps.
  acall (remove_spec e id sc Insert s2 _ _ _ Hl2). intros s3 r3 (-> & Hk3 & Hl3). split; [done|].
  rewrite delete_insert_id in Hl3 by done.
  eapply looks_ext; [| |exact Hl3].
  - intros k Hk. apply dur_set_undo; [done|]. destruct Hk1 as (_ & _ & _ & _ & ->). done.
  - by apply (queue_remove_cancel mq (mkPending Insert e id sc data 0)).
Qed.

(** The record, the scope and the id a create works with. *)
Definition target_id (io : Inputs) (data : Record_) : string := default (in_id io) (get_str data "id").
Definition target_scope (c : StoreConfig) (e scope_id id : string) : string :=
  if bool_decide (e = root_entity (scope c)) then id else scope_id.
Definition target_data (c : StoreConfig) (e scope_id id : string) (data : Record_) : Record_ :=
  if negb (bool_decide (e = root_entity (scope c))) && negb (Store.is_top_level c e)
  then entry_or_insert (<["id" := Str id]> data) (scope_field (scope c)) (Str (target_scope c e scope_id id))
  else <["id" := Str id]> data.

Lemma get_id_target c e scope_id id data : get_str (target_data c e scope_id id data) "id" = Some id.
Proof.
  clear no_defaults.
  assert (get_str (<["id" := Str id]> data) "id" = Some id) as H by (by rewrite get_str_insert, decide_True).
  unfold target_data. destruct (_ && _); [|done]. unfold entry_or_insert. case_match eqn:E; [done|].
  rewrite get_str_insert. case_decide as Hk; [|done]. rewrite Hk in E. by rewrite lookup_insert_eq in E.
Qed.

Definition refusal (err : Error) : bool := is_conflict err || is_ownership err || is_terminal_publish_rejection err.

Lemma refusal_not_transient err : is_transient err = true → refusal err = false.
Proof. unfold refusal. destruct err; try done. simpl. by destruct (publish_reason_is_terminal _). Qed.

Lemma live_local s r0 :
  si_remote s = Some r0 → Store.live Local s = bool_decide (last_connection_status (si_state s) = Connected).
Proof. unfold Store.live. by intros ->. Qed.

Lemma looks_notify s mem dur mq v : looks s mem dur mq → looks (Store.set_tasks v true s) mem dur mq.
Proof. done. Qed.

(** The remote half of a create, on a store that holds and has queued the record. *)
Lemma create_remote e id sc data' s mem dur mq r0 v o row_id now :
  e ≠ PENDING_ENTITY → mem !! (e, id) = None → dur (e, id) = None → no_row mq e id sc Insert →
  si_remote s = Some r0 →
  let mem1 := <[(e, id) := v]> mem in
  let dur1 := dur_set s dur (e, id) o in
  let mq1 := InMemory.queue mq (mkPending Insert e id sc (Some data') 0) row_id now in
  looks s mem1 dur1 mq1 →
  post (try! r := Store.on_remote (ro_create e sc data') in
    match r with
    | Ok _ => aignore (Store.queue_remove e id sc Insert) ;; aret id
    | Err err =>
      if is_transient err then Store.notify ;; aret id else
      if is_conflict err || is_ownership err then
        Store.rollback_local_create e id sc Local ;; athrow err else
      if is_terminal_publish_rejection err then
        Store.rollback_local_create e id sc Local ;; athrow err else
      aret id
    end) s (λ s' r,
    match (ro_create e sc data' r0).2 with
    | Ok _ => r = Ok id ∧ looks s' mem1 dur1 mq
    | Err err =>
      if refusal err then r = Err err ∧ looks s' mem dur mq
      else r = Ok id ∧ looks s' mem1 dur1 mq1 ∧ (is_transient err = true → si_flush s' = true)
    end).
Proof.
  clear no_defaults. intros He Hm Hd Hno Hr mem1 dur1 mq1 Hl. asteps.
  acall (on_remote_spec (ro_create e sc data') s r0 _ _ _ Hr Hl).
  intros s1 r1 (-> & Hl1 & _ & _ & Hp & _). destruct ((ro_create e sc data' r0).2) as [a|err].
  - asteps. acall (remove_spec e id sc Insert s1 _ _ _ Hl1). intros s2 r2 (-> & _ & Hl2). asteps.
    split; [done|]. eapply looks_ext; [done| |exact Hl2].
    by apply (queue_remove_cancel mq (mkPending Insert e id sc (Some data') 0)).
  - assert (∀ err', post (Store.rollback_local_create e id sc Local ;; athrow (A := string) err') s1
      (λ s' r, r = Err err' ∧ looks s' mem dur mq)) as Hroll.
    { intros err'. asteps. acall (rollback_create_spec e id sc s1 s mem dur mq o (Some data') row_id now v He Hm Hd Hno Hp Hl1).
      intros s2 r2 (-> & Hl2). by asteps. }
    destruct (is_transient err) eqn:Et.
    { rewrite refusal_not_transient by done. unfold Store.notify. asteps. by split_and!. }
    unfold refusal. destruct (is_conflict err || is_ownership err); [apply Hroll|].
    destruct (is_terminal_publish_rejection err); [apply Hroll|]. asteps. by split_and!.
Qed.

(** C20: What a create does, for every answer of the broker. A new record is
    written to memory and to the durable layer and queued; the queued row goes
    when the broker accepts it; it stays, and the call still succeeds, when the
    store is not connected or the broker could not be reached or answered with
    an error it may get over; and when the broker refuses the record (a
    conflict, another owner, a rejected publish) the call fails with that error
    and memory, durable rows and queue are as they were before it. *)
Theorem create_outcomes io e scope_id data s mem dur mq r0 :
  let c := si_config s in
  let id := target_id io data in
  let sc := target_scope c e scope_id id in
  let data' := target_data c e scope_id id data in
  let mem1 := <[(e, id) := defaults e (MemoryStore.stamp_scope c e sc (strip_nulls data'))]> mem in
  let dur1 := dur_set s dur (e, id) (Some (defaults e (strip_nulls data'))) in
  let mq1 := InMemory.queue mq (mkPending Insert e id sc (Some data') 0) (in_row_id io) (in_now io) in
  looks s mem dur mq → row_fresh s io → ms_config (si_memory s) = c → si_remote s = Some r0 →
  e ≠ PENDING_ENTITY → (sc ≠ "" ∨ e ∈ top_level c) →
  mem !! (e, id) = None → dur (e, id) = None → no_row mq e id sc Insert →
  post (Store.create io e scope_id data Local) s (λ s' r,
    if bool_decide (last_connection_status (si_state s) = Connected) then
      match (ro_create e sc data' r0).2 with
      | Ok _ => r = Ok id ∧ looks s' mem1 dur1 mq
      | Err err =>
        if refusal err then r = Err err ∧ looks s' mem dur mq
        else r = Ok id ∧ looks s' mem1 dur1 mq1 ∧ (is_transient err = true → si_flush s' = true)
      end
    else r = Ok id ∧ looks s' mem1 dur1 mq1).
Proof using no_defaults.
  intros c id sc data' mem1 dur1 mq1 Hl Hfresh Hmc Hr He Hsync Hmem Hdur Hno.
  assert (get_str data' "id" = Some id) as Hid by apply get_id_target.
  unfold Store.create. asteps. fold c. change (default (in_id io) (get_str data "id")) with id.
  change (if bool_decide (e = root_entity (scope c)) then id else scope_id) with sc.
  change (if negb (bool_decide (e = root_entity (scope c))) && negb (Store.is_top_level c e)
    then entry_or_insert (<["id" := Str id]> data) (scope_field (scope c)) (Str sc)
    else <["id" := Str id]> data) with data'.
  assert (negb (bool_decide (sc = "")) || Store.is_top_level c e = true) as ->.
  { unfold Store.is_top_level. destruct Hsync; [by rewrite bool_decide_eq_false_2|].
    rewrite (bool_decide_eq_true_2 (e ∈ _)) by done. by rewrite orb_true_r. }
  rewrite (bool_decide_eq_true_2 (Local = Local)) by done. asteps. eapply memory_read_spec; [exact Hl|].
  cbv beta iota. rewrite Hmem, bool_decide_eq_false_2 by (by intros [? ?]). asteps.
  acall (memory_create_spec e sc data' Local id s mem dur mq Hl Hid). rewrite Hmc.
  intros s1 r1 (-> & Hk1 & Hp1 & Hl1). fold mem1 in Hl1. asteps. cbn [skips_persistence]. asteps.
  acall (layer_create_spec e data' Local id s1 _ _ _ Hl1 Hid He). intros s2 r2 (_ & Hk2 & Hp2 & Hl2). asteps.
  unfold Store.queue_and. cbn [andb negb skips_remote].
  acall (push_spec io (mkPending Insert e id sc (Some data') 0) s2 _ _ _ Hl2); [unfold row_fresh; by rewrite Hp2, Hp1|].
  intros s3 r3 (-> & Hk3 & Hl3). fold mq1 in Hl3. asteps.
  assert (kept s s3) as (_ & Hst & Hre & _ & Hpe) by (by rewrite Hk1, Hk2).
  assert (looks s3 mem1 dur1 mq1) as Hl4.
  { eapply looks_ext; [|done|exact Hl3]. intros k _. unfold dur1, dur_set.
    destruct Hk1 as (_ & _ & _ & _ & Hp). by rewrite (bool_decide_ext _ _ Hp). }
  rewrite andb_true_r, (live_local s3 r0), Hst by congruence.
  destruct (bool_decide (last_connection_status _ = _)); [|by asteps].
  assert (dur1 = dur_set s3 dur (e, id) (Some (defaults e (strip_nulls data')))) as ->.
  { unfold dur1, dur_set. by rewrite (bool_decide_ext _ _ Hpe). }
  apply create_remote; try done; congruence.
Qed.
(** *** Updating and deleting *)

Lemma memory_update_spec e id fields o row s mem dur mq :
  looks s mem dur mq → mem !! (e, id) = Some row → keeps_id id fields →
  post (Store.on_memory (MemoryStore.update e id fields o)) s (λ s' r, is_ok r = true ∧ kept s s' ∧ same_pending s s' ∧
    looks s' (<[(e, id) := extend row (strip_nulls fields)]> mem) dur mq).
Proof.
  clear no_defaults. intros Hl Hrow Hid. unfold Store.on_memory. astep.
  acall (memory_update (si_memory s) e id fields o (or_intror Hid)). rewrite (proj1 Hl), Hrow.
  intros m' r ((Hc & _) & -> & Ht). split; [done|]. split; [by split_and!|]. split; [done|].
  by eapply looks_memory.
Qed.

Lemma layer_update_spec e id fields o s mem dur mq :
  looks s mem dur mq → keeps_id id fields → e ≠ PENDING_ENTITY →
  post (Store.on_layer (PersistenceLayer.update e id fields o)) s (λ s' r, (is_Some (dur (e, id)) → is_ok r = true) ∧
    kept s s' ∧ same_pending s s' ∧
    looks s' mem (dur_set s dur (e, id) ((λ old, extend old (strip_nulls fields)) <$> dur (e, id))) mq).
Proof.
  clear no_defaults. intros Hl Hid He. unfold Store.on_layer, post, dur_set.
  destruct (si_persistence s) as [l|] eqn:El; simpl; [|by split_and!].
  pose proof (layer_update l e id fields o (or_intror Hid)) as Hp. unfold post in Hp.
  destruct (PersistenceLayer.update e id fields o l) as [l' r]. simpl in *.
  pose proof Hl as (_ & Hd & _).
  assert (layer_table l !! (e, id) = dur (e, id)) as Hrow by (rewrite <-Hd by done; unfold durable; by rewrite El).
  rewrite Hrow in Hp.
  assert (∀ k, layer_table l' !! k =
    if bool_decide (k = (e, id)) then (λ old, extend old (strip_nulls fields)) <$> dur (e, id) else layer_table l !! k)
    as Ht.
  { intros k. destruct Hp as [_ Hp]. destruct (dur (e, id)) as [old|] eqn:Eo.
    - destruct Hp as [_ ->]. rewrite lookup_insert. case_bool_decide as E; subst;
        [by rewrite decide_True|by rewrite decide_False].
    - destruct Hp as (_ & -> & _). case_bool_decide as E; subst; done. }
  split; [intros [old Ho]; rewrite Ho in Hp; by destruct Hp as (_ & -> & _)|].
  split; [by split_and!; simpl; rewrite ?El|]. split.
  { intros id'. unfold durable. simpl. rewrite El. simpl. rewrite Ht, bool_decide_eq_false_2; congruence. }
  eapply looks_ext; [|done|eapply (looks_layer s l l'); [exact Hl|done|]].
  - intros k Hk. cbv beta. rewrite Ht. case_bool_decide; [done|]. rewrite <-Hd by done. unfold durable. by rewrite El.
  - intros id'. rewrite Ht, bool_decide_eq_false_2; congruence.
Qed.

(** Asking the queue for an insert changes nothing, and finds the user's own. *)
Lemma pending_insert_spec e id s mem dur mq :
  looks s mem dur mq →
  post (Store.pending_insert_exists e id) s (λ s' r, s' = s ∧ ∃ b, r = Ok b ∧
    (InMemory.has_pending_insert mq e id = true → b = true)).
Proof.
  clear no_defaults. intros (Hm & Hd & Hq). unfold Store.pending_insert_exists, Store.queue_has_insert, Store.on_queue.
  unfold post, queue_is, atry in *. destruct s as [c m p r q st v f]. cbn [si_queue si_persistence] in *.
  destruct q as [[q|root [user|] fl]|]; try done.
  - simpl. split; [done|]. eexists. split; [done|]. unfold InMemory.has_pending_insert. rewrite !existsb_exists.
    intros (x & Hx & ?). exists x. split; [|done]. rewrite <-list_elem_of_In in *. by rewrite Hq.
  - destruct p as [l|]; [|done].
    set (q := mkPersistentQueue l root (Some user) fl) in *.
    destruct (list_rows_spec [eq_filter "entity" e; eq_filter "entityId" id; eq_filter "op" "insert"] q)
      as (rows & E & Hrows).
    unfold Persistent.has_pending_insert. rewrite E. simpl. split; [done|]. eexists. split; [done|].
    unfold InMemory.has_pending_insert. rewrite existsb_exists.
    intros (x & Hx%list_elem_of_In & Hx'). destruct Hq as [_ Hq]. rewrite <-Hq, user_row in Hx. destruct Hx as (rec & Hrec & Hrow & _).
    rewrite !andb_true_iff, !bool_decide_eq_true in Hx'. destruct Hx' as [[He Hi] Ho].
    rewrite negb_true_iff, bool_decide_eq_false. intros ->. apply Permutation_nil in Hrows.
    assert (x ∈ @nil StoredRow) as []%not_elem_of_nil. rewrite <-Hrows. apply list_elem_of_omap. exists rec. split; [|done].
    apply list_elem_of_filter. split; [|apply elem_of_rows_of; eauto].
    pose proof (proj2 (row_filters rec x e id (row_scope_id x) Insert Hrow)) as Hf. simpl in Hf |- *.
    rewrite !andb_true_iff in Hf |- *. rewrite andb_true_r in Hf.
    destruct Hf as (? & ? & _ & ?); [by split_and!|]. by split_and!.
Qed.

(** A row as the store keeps it: named, in its scope, with nothing the
    databases would change when it is written back. *)
Definition settled (c : StoreConfig) (e id sc : string) (row : Record_) : Prop :=
  get_str row "id" = Some id ∧
  Store.scope_from_row row e (root_entity (scope c)) (Store.is_top_level c e) (scope_field (scope c)) = Some sc ∧
  strip_nulls row = row ∧ defaults (D := D) e row = row.

Lemma settled_stamp c e id sc row : settled c e id sc row → MemoryStore.stamp_scope c e sc row = row.
Proof.
  clear no_defaults. intros (_ & Hs & _). unfold MemoryStore.stamp_scope, Store.scope_from_row, Store.is_top_level in *.
  destruct (bool_decide (e = _)); [done|]. destruct (bool_decide (e ∈ _)); [done|]. simpl.
  apply get_str_Some in Hs. unfold contains_key. by rewrite Hs, bool_decide_eq_true_2.
Qed.

Lemma dur_set_kept s s' dur k o k' : kept s s' → dur_set s' dur k o k' = dur_set s dur k o k'.
Proof. clear no_defaults. intros (_ & _ & _ & _ & Hp). unfold dur_set. by rewrite (bool_decide_ext _ _ Hp). Qed.

Lemma dur_set_set s s' dur k o o' k' :
  (is_Some (si_persistence s') ↔ is_Some (si_persistence s)) →
  dur_set s' (dur_set s dur k o) k o' k' = dur_set s dur k o' k'.
Proof.
  clear no_defaults. intros Hp. unfold dur_set. rewrite (bool_decide_ext _ _ Hp).
  destruct (bool_decide _); simpl; [|done]. by case_bool_decide.
Qed.

Lemma dur_set_same s dur k o k' : (is_Some (si_persistence s) → dur k = o) → dur_set s dur k o k' = dur k'.
Proof.
  clear no_defaults. intros H. unfold dur_set. case_bool_decide as Hp; [|done]. simpl.
  case_bool_decide; [|done]. subst. symmetry. by apply H.
Qed.

Lemma restore_spec e id sc row s mem dur mq :
  looks s mem dur mq → e ≠ PENDING_ENTITY → settled (ms_config (si_memory s)) e id sc row →
  post (Store.restore_local_row e id sc (Some row) Local) s (λ s' r, r = Ok () ∧
    looks s' (<[(e, id) := row]> mem) (dur_set s dur (e, id) (Some row)) mq).
Proof.
  clear no_defaults. intros Hl He Hset. pose proof (settled_stamp _ _ _ _ _ Hset) as Hst.
  destruct Hset as (Hid & _ & Hnull & Hdef). unfold Store.restore_local_row. asteps.
  acall (memory_delete_spec e id Local s _ _ _ Hl). intros s1 r1 (Hk1 & _ & Hl1). asteps.
  acall (memory_create_spec e sc row Local id s1 _ _ _ Hl1 Hid).
  rewrite Hnull. replace (ms_config (si_memory s1)) with (ms_config (si_memory s)) by (symmetry; apply Hk1).
  rewrite Hst, Hdef, insert_delete_eq. intros s2 r2 (-> & Hk2 & _ & Hl2). cbn [skips_persistence]. asteps.
  acall (layer_delete_spec e id Local s2 _ _ _ Hl2 He). intros s3 r3 (Hk3 & _ & Hl3). asteps.
  acall (layer_create_spec e row Local id s3 _ _ _ Hl3 Hid He). rewrite Hnull, Hdef. intros s4 r4 (_ & _ & _ & Hl4).
  split; [done|]. eapply looks_ext; [|done|exact Hl4]. intros k _.
  assert (kept s s2) as Hk by (by rewrite Hk1). rewrite dur_set_set by apply Hk3.
  by apply dur_set_kept.
Qed.

(** How a failed remote call ends, for a row [row] that was there before. *)
Lemma refused_spec e id sc op row err s mem dur mq :
  looks s mem dur mq → e ≠ PENDING_ENTITY → settled (ms_config (si_memory s)) e id sc row →
  post (Store.refused e id sc op (Some row) Local err) s (λ s' r,
    if is_ownership err || is_terminal_publish_rejection err then
      r = Err err ∧ looks s' (<[(e, id) := row]> mem) (dur_set s dur (e, id) (Some row)) (InMemory.remove mq e id sc op)
    else if is_not_found err then
      ∃ pending : bool, (InMemory.has_pending_insert mq e id = true → pending = true) ∧
        if pending then r = Ok () ∧ looks s' mem dur mq ∧ si_flush s' = true
        else r = Err err ∧ looks s' (delete (e, id) mem) (dur_set s dur (e, id) None) (InMemory.remove mq e id sc op)
    else r = Ok () ∧ looks s' mem dur mq ∧ (is_transient err = true → si_flush s' = true)).
Proof.
  clear no_defaults. intros Hl He Hset. unfold Store.refused.
  destruct (is_ownership err || is_terminal_publish_rejection err).
  { asteps. acall (remove_spec e id sc op s _ _ _ Hl). intros s1 r1 (-> & Hk1 & Hl1). asteps.
    acall (restore_spec e id sc row s1 _ _ _ Hl1 He).
    { by replace (ms_config (si_memory s1)) with (ms_config (si_memory s)) by (symmetry; apply Hk1). }
    intros s2 r2 (-> & Hl2). asteps. split; [done|]. eapply looks_ext; [|done|exact Hl2].
    intros k _. by apply dur_set_kept. }
  destruct (is_not_found err).
  { asteps. acall (pending_insert_spec e id s _ _ _ Hl). intros s1 r1 (-> & b & -> & Hb). cbv beta iota.
    destruct b.
    - unfold Store.notify. astep. exists true. by split_and!.
    - unfold Store.rollback_local_row. asteps. acall (memory_delete_spec e id Local s _ _ _ Hl). intros s1 r1 (Hk1 & _ & Hl1).
      cbn [skips_persistence]. asteps. acall (layer_delete_spec e id Local s1 _ _ _ Hl1 He).
      intros s2 r2 (Hk2 & _ & Hl2). asteps. acall (remove_spec e id sc op s2 _ _ _ Hl2). intros s3 r3 (-> & Hk3 & Hl3). asteps.
      exists false. split; [done|]. split; [done|]. eapply looks_ext; [|done|exact Hl3].
      intros k _. by apply dur_set_kept. }
  destruct (is_transient err); [unfold Store.notify; astep|asteps]; by split_and!.
Qed.

(** The rows of a queue after a row is queued and its kind removed. *)
Lemma queue_remove_queued mq p row_id now :
  mq_rows (InMemory.remove (InMemory.queue mq p row_id now) (pm_entity p) (pm_id p) (pm_scope_id p) (pm_op p)) =
  mq_rows (InMemory.remove mq (pm_entity p) (pm_id p) (pm_scope_id p) (pm_op p)).
Proof.
  simpl. by rewrite filter_app, filter_cons, decide_False, filter_nil, app_nil_r by (simpl; tauto).
Qed.

(** What is left after the remote half of an update or a delete of [row]:
    [mem1], [dur1] and [mq1] hold the optimistic write and its queued row. *)
Definition settled_write {A} (e id sc : string) (op : Operation) (answer : result A Error)
    (mem : gmap (string * string) Record_) (dur : string * string → option Record_) mq
    (mem1 : gmap (string * string) Record_) (dur1 : string * string → option Record_) mq1
    (s s' : Inner) (r : result () Error) : Prop :=
  match answer with
  | Ok _ => r = Ok () ∧ looks s' mem1 dur1 (InMemory.remove mq e id sc op)
  | Err err =>
    if is_ownership err || is_terminal_publish_rejection err then
      r = Err err ∧ looks s' mem dur (InMemory.remove mq e id sc op)
    else if is_not_found err then
      ∃ pending : bool, (InMemory.has_pending_insert mq e id = true → pending = true) ∧
        if pending then r = Ok () ∧ looks s' mem1 dur1 mq1 ∧ si_flush s' = true
        else r = Err err ∧
          looks s' (delete (e, id) mem) (dur_set s dur (e, id) None) (InMemory.remove mq e id sc op)
    else r = Ok () ∧ looks s' mem1 dur1 mq1 ∧ (is_transient err = true → si_flush s' = true)
  end.

Lemma has_pending_queued mq p row_id now e id :
  InMemory.has_pending_insert mq e id = true → InMemory.has_pending_insert (InMemory.queue mq p row_id now) e id = true.
Proof. unfold InMemory.has_pending_insert. simpl. rewrite existsb_app. by intros ->. Qed.

(** The remote half itself. *)
Lemma write_remote {A} (m : action R Error A) e id sc op row fields s s0 mem dur mq mem1 o row_id now r0 :
  let mq1 := InMemory.queue mq (mkPending op e id sc fields 0) row_id now in
  let dur1 := dur_set s0 dur (e, id) o in
  kept s0 s → looks s mem1 dur1 mq1 → e ≠ PENDING_ENTITY → settled (ms_config (si_memory s0)) e id sc row →
  si_remote s = Some r0 → (is_Some (si_persistence s0) → dur (e, id) = Some row) →
  <[(e, id) := row]> mem1 = mem → delete (e, id) mem1 = delete (e, id) mem →
  post (try! r := Store.on_remote m in
    match r with
    | Ok _ => aignore (Store.queue_remove e id sc op)
    | Err err => Store.refused e id sc op (Some row) Local err
    end) s (settled_write e id sc op (m r0).2 mem dur mq mem1 dur1 mq1 s0).
Proof.
  clear no_defaults. intros mq1 dur1 Hk Hl He Hset Hr Hdur Hmem Hdel. asteps.
  acall (on_remote_spec m s r0 _ _ _ Hr Hl). intros s1 r1 (-> & Hl1 & _ & _ & Hp & Hm).
  assert (mq_rows (InMemory.remove mq1 e id sc op) = mq_rows (InMemory.remove mq e id sc op)) as Hq.
  { apply (queue_remove_queued mq (mkPending op e id sc fields 0)). }
  assert (is_Some (si_persistence s1) ↔ is_Some (si_persistence s0)) as Hp' by (rewrite Hp; apply Hk).
  unfold settled_write. destruct ((m r0).2) as [a|err].
  - astep. acall (remove_spec e id sc op s1 _ _ _ Hl1). intros s2 r2 (-> & _ & Hl2). split; [done|].
    by eapply looks_ext; [|exact Hq|exact Hl2].
  - assert (settled (ms_config (si_memory s1)) e id sc row) as Hset'.
    { rewrite Hm. by replace (ms_config (si_memory s)) with (ms_config (si_memory s0)) by (symmetry; apply Hk). }
    acall (refused_spec e id sc op row err s1 _ _ _ Hl1 He Hset'). intros s2 r2.
    destruct (is_ownership err || is_terminal_publish_rejection err).
    { intros [-> Hl2]. split; [done|]. rewrite Hmem in Hl2. eapply looks_ext; [|exact Hq|exact Hl2].
      intros k _. unfold dur1. rewrite dur_set_set by done. by apply dur_set_same. }
    destruct (is_not_found err); [|done]. intros (b & Hb & H2). exists b. split.
    { intros ?. apply Hb. by apply has_pending_queued. }
    destruct b; [done|]. destruct H2 as [-> Hl2]. split; [done|]. rewrite Hdel in Hl2.
    eapply looks_ext; [|exact Hq|exact Hl2]. intros k _. unfold dur1. by apply dur_set_set.
Qed.

(** The durable half of an update or a delete of a row that memory holds. *)
Lemma durable_half {A} (m : action (PersistenceLayer D) Error A) sc row s (Q : Inner → Prop) :
  post (Store.on_layer m) s (λ s' _, Q s') →
  post (if match si_persistence s with Some _ => true | None => false end then
      let! found := aret (Some sc, Some row) in
      (if bool_decide (is_Some found.1) then aignore (Store.on_layer m) else aret ()) ;;
      aret (Some found)
    else if bool_decide (Some row = None) then aret None else aret (Some (Some sc, Some row))) s
    (λ s' r, r = Ok (Some (Some (sc : string), Some (row : Record_))) ∧ Q s').
Proof.
  clear no_defaults. intros Hm. destruct (si_persistence s) as [l|] eqn:El.
  - asteps. cbn [fst]. rewrite bool_decide_eq_true_2 by done. asteps. acall Hm. intros s' r HQ. by asteps.
  - rewrite bool_decide_eq_false_2 by done. asteps. split; [done|]. unfold post, Store.on_layer in Hm.
    by rewrite El in Hm.
Qed.

(** Queueing the write, and sending it when the store is connected. *)
Lemma write_tail {A} (m : action R Error A) io e id sc op row fields s s0 mem dur mq mem1 o r0 :
  let mq1 := InMemory.queue mq (mkPending op e id sc fields 0) (in_row_id io) (in_now io) in
  let dur1 := dur_set s0 dur (e, id) o in
  kept s0 s → row_fresh s io → looks s mem1 dur1 mq → e ≠ PENDING_ENTITY → settled (ms_config (si_memory s0)) e id sc row →
  si_remote s0 = Some r0 → (is_Some (si_persistence s0) → dur (e, id) = Some row) →
  <[(e, id) := row]> mem1 = mem → delete (e, id) mem1 = delete (e, id) mem →
  post (Store.queue_and true io Local (mkPending op e id sc fields 0) ;;
    let! connected := aget (Store.live Local) in
    if (connected : bool) then
      try! r := Store.on_remote m in
      match r with
      | Ok _ => aignore (Store.queue_remove e id sc op)
      | Err err => Store.refused e id sc op (Some row) Local err
      end
    else aret ()) s (λ s' r,
    if bool_decide (last_connection_status (si_state s0) = Connected)
    then settled_write e id sc op (m r0).2 mem dur mq mem1 dur1 mq1 s0 s' r
    else r = Ok () ∧ looks s' mem1 dur1 mq1).
Proof using no_defaults.
  intros mq1 dur1 Hk Hfresh Hl He Hset Hr Hdur Hmem Hdel. unfold Store.queue_and. cbn [andb negb skips_remote]. asteps.
  acall (push_spec io (mkPending op e id sc fields 0) s _ _ _ Hl Hfresh). intros s1 r1 (-> & Hk1 & Hl1).
  assert (kept s0 s1) as Hk' by (by rewrite Hk). pose proof Hk' as (_ & Hst & Hre & _). asteps.
  rewrite (live_local s1 r0), Hst by congruence.
  destruct (bool_decide (last_connection_status _ = _)); [|by asteps].
  eapply write_remote; try done. congruence.
Qed.

(** What an update does, for every answer of the broker, to a row the memory
    cache holds. The merged row is written to memory and to the durable layer
    and the update is queued; accepted, its queued row goes. An ownership
    denial or a terminally rejected publish fails the call and puts the row
    back as it was in both places; a row the broker does not have is dropped
    locally and the call fails, unless its insert is still queued; any other
    error keeps the edit and its queued row, and a transient one wakes the
    flush task. *)
Theorem update_outcomes io e id fields row sc s mem dur mq r0 :
  let mem1 := <[(e, id) := extend row (strip_nulls fields)]> mem in
  let dur1 := dur_set s dur (e, id) ((λ old, extend old (strip_nulls fields)) <$> dur (e, id)) in
  let mq1 := InMemory.queue mq (mkPending Update e id sc (Some fields) 0) (in_row_id io) (in_now io) in
  looks s mem dur mq → row_fresh s io → ms_config (si_memory s) = si_config s → si_remote s = Some r0 →
  e ≠ PENDING_ENTITY → keeps_id id fields → mem !! (e, id) = Some row → settled (si_config s) e id sc row →
  (is_Some (si_persistence s) → dur (e, id) = Some row) →
  post (Store.update io e id fields Local) s (λ s' r,
    if bool_decide (last_connection_status (si_state s) = Connected)
    then settled_write e id sc Update (ro_update e sc id fields r0).2 mem dur mq mem1 dur1 mq1 s s' r
    else r = Ok () ∧ looks s' mem1 dur1 mq1).
Proof using no_defaults.
  intros mem1 dur1 mq1 Hl Hfresh Hmc Hr He Hid Hrow Hset Hdur. pose proof Hset as (_ & Hsc & _).
  unfold Store.update. asteps. eapply memory_read_spec; [exact Hl|]. cbv beta iota. rewrite Hrow.
  cbn [mbind option_bind]. rewrite Hsc. rewrite !bool_decide_eq_true_2 by done. cbn [andb]. asteps.
  acall (memory_update_spec e id fields Local row s _ _ _ Hl Hrow Hid). intros s1 [a|?] (? & Hk1 & Hp1 & Hl1); [|done].
  fold mem1 in Hl1. asteps. cbn [skips_persistence negb]. rewrite andb_true_r.
  acall (durable_half _ sc row s1 (λ s', kept s1 s' ∧ same_pending s1 s' ∧ looks s' mem1 (dur_set s1 dur (e, id) _) mq)).
  { acall (layer_update_spec e id fields Local s1 _ _ _ Hl1 Hid He). by intros s2 r2 (_ & ?). }
  intros s2 r2 (-> & Hk2 & Hp2 & Hl2). cbv beta iota.
  eapply write_tail; try done.
  - by rewrite Hk1.
  - unfold row_fresh. by rewrite Hp2, Hp1.
  - eapply looks_ext; [|done|exact Hl2]. intros k _. by apply dur_set_kept.
  - by rewrite Hmc.
  - unfold mem1. by rewrite insert_insert_eq, insert_id.
  - unfold mem1. by rewrite delete_insert_eq.
Qed.

(** What a delete does, in the same way: the row goes from memory and from the
    durable layer and the delete is queued; a refused one puts the row back. *)
Theorem delete_outcomes io e id row sc s mem dur mq r0 :
  let mem1 := delete (e, id) mem in
  let dur1 := dur_set s dur (e, id) None in
  let mq1 := InMemory.queue mq (mkPending Delete e id sc None 0) (in_row_id io) (in_now io) in
  looks s mem dur mq → row_fresh s io → ms_config (si_memory s) = si_config s → si_remote s = Some r0 →
  e ≠ PENDING_ENTITY → mem !! (e, id) = Some row → settled (si_config s) e id sc row →
  (is_Some (si_persistence s) → dur (e, id) = Some row) →
  post (Store.delete io e id Local) s (λ s' r,
    if bool_decide (last_connection_status (si_state s) = Connected)
    then settled_write e id sc Delete (ro_delete e sc id r0).2 mem dur mq mem1 dur1 mq1 s s' r
    else r = Ok () ∧ looks s' mem1 dur1 mq1).
Proof using no_defaults.
  intros mem1 dur1 mq1 Hl Hfresh Hmc Hr He Hrow Hset Hdur. pose proof Hset as (_ & Hsc & _).
  unfold Store.delete. asteps. eapply memory_read_spec; [exact Hl|]. cbv beta iota. rewrite Hrow.
  cbn [mbind option_bind]. rewrite Hsc. rewrite !bool_decide_eq_true_2 by done. cbn [andb]. asteps.
  acall (memory_delete_spec e id Local s _ _ _ Hl). intros s1 r1 (Hk1 & Hp1 & Hl1).
  fold mem1 in Hl1. asteps. cbn [skips_persistence negb]. rewrite andb_true_r.
  eapply post_mono; [apply durable_half, (layer_delete_spec e id Local s1 _ _ _ Hl1 He)|].
  intros s2 r2 (-> & Hk2 & Hp2 & Hl2). cbv beta iota.
  eapply write_tail; try done.
  - by rewrite Hk1.
  - unfold row_fresh. by rewrite Hp2, Hp1.
  - eapply looks_ext; [|done|exact Hl2]. intros k _. by apply dur_set_kept.
  - by rewrite Hmc.
  - unfold mem1. by rewrite insert_delete_eq, insert_id.
  - unfold mem1. by rewrite delete_delete_eq.
Qed.

(** *** Compare and set *)

Lemma resolve_scope_spec e id sc row s mem dur mq :
  looks s mem dur mq → mem !! (e, id) = Some row → settled (si_config s) e id sc row →
  post (Store.resolve_scope_for_cas e id) s (λ s' r, s' = s ∧ r = Ok sc).
Proof.
  clear no_defaults. intros Hl Hrow (_ & Hsc & _). unfold Store.resolve_scope_for_cas. asteps.
  eapply memory_read_spec; [exact Hl|]. cbv beta iota. rewrite Hrow. asteps. rewrite Hsc. done.
Qed.

(** What a checked write leaves behind: nothing is queued; an error leaves
    everything as it was, except that a row the broker no longer has is
    dropped locally when no insert of it is queued. *)
Definition checked_write {A} (e id : string) (answer : result A Error)
    (mem : gmap (string * string) Record_) (dur : string * string → option Record_) mq
    (applied : A → gmap (string * string) Record_ * (string * string → option Record_))
    (s s' : Inner) (r : result A Error) : Prop :=
  match answer with
  | Ok v => r = Ok v ∧ looks s' (applied v).1 (applied v).2 mq
  | Err err => r = Err err ∧
    if is_not_found err then
      ∃ pending : bool, (InMemory.has_pending_insert mq e id = true → pending = true) ∧
        if pending then looks s' mem dur mq else looks s' (delete (e, id) mem) (dur_set s dur (e, id) None) mq
    else looks s' mem dur mq
  end.

Lemma cas_failed_spec {A} e id err s s0 mem dur mq applied :
  looks s mem dur mq → e ≠ PENDING_ENTITY → (is_Some (si_persistence s) ↔ is_Some (si_persistence s0)) →
  post (Store.cas_failed (A := A) e id err) s (checked_write e id (Err err) mem dur mq applied s0).
Proof.
  clear no_defaults. intros Hl He Hp. unfold Store.cas_failed, checked_write. destruct (is_not_found err).
  2:{ by asteps. }
  asteps. acall (pending_insert_spec e id s _ _ _ Hl). intros s1 r1 (-> & b & -> & Hb). asteps. destruct b; cbn [negb].
  { asteps. split; [done|]. by exists true. }
  unfold Store.rollback_local_row. cbn [skips_persistence]. asteps.
  acall (memory_delete_spec e id Local s _ _ _ Hl). intros s1 r1 (Hk1 & _ & Hl1). asteps.
  acall (layer_delete_spec e id Local s1 _ _ _ Hl1 He). intros s2 r2 (Hk2 & _ & Hl2). asteps.
  split; [done|]. exists false. split; [done|]. eapply looks_ext; [|done|exact Hl2]. intros k _.
  rewrite (dur_set_kept _ _ _ _ _ _ Hk1). unfold dur_set. by rewrite (bool_decide_ext _ _ Hp).
Qed.

Lemma cas_ready_spec name s r0 :
  si_remote s = Some r0 →
  post (Store.cas_ready name) s (λ s' r, s' = s ∧
    r = if bool_decide (last_connection_status (si_state s) = Connected) then Ok () else Err ConnectionClosed).
Proof. clear no_defaults. intros Hr. unfold Store.cas_ready, post. rewrite Hr. by destruct (bool_decide _). Qed.


(** The checked delete, in the same way. *)
Theorem delete_if_outcomes e id expected row sc s mem dur mq r0 :
  looks s mem dur mq → si_remote s = Some r0 → e ≠ PENDING_ENTITY →
  mem !! (e, id) = Some row → settled (si_config s) e id sc row →
  post (Store.delete_if e id expected) s (λ s' r,
    if bool_decide (last_connection_status (si_state s) = Connected)
    then checked_write e id (ro_delete_checked e sc id expected r0).2 mem dur mq
      (λ _, (delete (e, id) mem, dur_set s dur (e, id) None)) s s' r
    else r = Err ConnectionClosed ∧ s' = s).
Proof.
  clear no_defaults. intros Hl Hr He Hrow Hset. unfold Store.delete_if. asteps.
  acall (cas_ready_spec "delete_if" s r0 Hr). intros s1 r1 [-> ->].
  destruct (bool_decide (last_connection_status _ = _)); [|by asteps]. cbv beta iota. asteps.
  acall (resolve_scope_spec e id sc row s _ _ _ Hl Hrow Hset). intros s1 r1 [-> ->]. asteps.
  acall (on_remote_spec (ro_delete_checked e sc id expected) s r0 _ _ _ Hr Hl).
  intros s1 r1 (-> & Hl1 & _ & _ & Hp & _). destruct ((ro_delete_checked e sc id expected r0).2) as [[]|err].
  2:{ by apply cas_failed_spec. }
  asteps. acall (memory_delete_spec e id Local s1 _ _ _ Hl1). intros s2 r2 (Hk2 & _ & Hl2). asteps.
  acall (layer_delete_spec e id Local s2 _ _ _ Hl2 He). intros s3 r3 (Hk3 & _ & Hl3).
  split; [done|]. eapply looks_ext; [|done|exact Hl3]. intros k _. rewrite (dur_set_kept _ _ _ _ _ _ Hk2).
  unfold dur_set. by rewrite (bool_decide_ext _ _ Hp).
Qed.

(** *** What the remote sends *)

(** What an applied mutation does to a row. *)
Definition row_after (m : SyncMutation) (old : option Record_) : option Record_ :=
  match sm_op m, sm_data m with
  | Insert, Some data => Some (defaults (D := D) (sm_entity m) (strip_nulls (<["id" := Str (sm_id m)]> data)))
  | Update, Some data => (λ old, extend old (strip_nulls data)) <$> old
  | Delete, _ => None
  | _, None => old
  end.

Lemma accessor_read_spec e id s mem dur mq (Q : Inner → result (option Record_) Error → Prop) :
  looks s mem dur mq → is_Some (si_persistence s) → e ≠ PENDING_ENTITY → Q s (Ok (dur (e, id))) →
  post (acc_read e id) s Q.
Proof.
  clear no_defaults. intros (_ & Hd & _) [l Hp] He HQ. simpl. unfold Store.accessor_read, post. simpl.
  specialize (Hd (e, id) He). unfold durable in Hd. rewrite Hp in *. simpl in Hd. by rewrite layer_read, Hd.
Qed.

Lemma accessor_create_spec e data id s mem dur mq :
  looks s mem dur mq → is_Some (si_persistence s) → get_str data "id" = Some id → e ≠ PENDING_ENTITY →
  post (acc_create e data) s (λ s' r, r = Ok () ∧ kept s s' ∧
    looks s' mem (dur_set s dur (e, id) (Some (defaults e (strip_nulls data)))) mq).
Proof.
  clear no_defaults. intros Hl [l Hp] Hid He.
  eapply (post_ext _ (Store.on_layer (PersistenceLayer.create e data Remote) ;; aret ())).
  { simpl. unfold Store.accessor_create. by rewrite Hp. }
  asteps. acall (layer_create_spec e data Remote id s _ _ _ Hl Hid He). intros s1 [a|?] (? & Hk & _ & Hl1); [|done]. by asteps.
Qed.

Lemma accessor_update_spec e fields id s mem dur mq :
  looks s mem dur mq → is_Some (si_persistence s) → keeps_id id fields → e ≠ PENDING_ENTITY → is_Some (dur (e, id)) →
  post (acc_update e id fields) s (λ s' r, r = Ok () ∧ kept s s' ∧
    looks s' mem (dur_set s dur (e, id) ((λ old, extend old (strip_nulls fields)) <$> dur (e, id))) mq).
Proof.
  clear no_defaults. intros Hl [l Hp] Hid He Hrow.
  eapply (post_ext _ (Store.on_layer (PersistenceLayer.update e id fields Remote) ;; aret ())).
  { simpl. unfold Store.accessor_update. by rewrite Hp. }
  asteps. acall (layer_update_spec e id fields Remote s _ _ _ Hl Hid He). intros s1 r1 (Hok & Hk & _ & Hl1).
  destruct r1 as [a|err]; [by asteps|]. by specialize (Hok Hrow).
Qed.

Lemma accessor_delete_spec e id s mem dur mq :
  looks s mem dur mq → is_Some (si_persistence s) → e ≠ PENDING_ENTITY →
  post (acc_delete e id) s (λ s' r, r = Ok () ∧ kept s s' ∧ looks s' mem (dur_set s dur (e, id) None) mq).
Proof.
  clear no_defaults. intros Hl [l Hp] He.
  eapply (post_ext _ (aignore (Store.on_layer (PersistenceLayer.delete e id Remote)))).
  { simpl. unfold Store.accessor_delete. by rewrite Hp. }
  asteps. acall (layer_delete_spec e id Remote s _ _ _ Hl He). by intros s1 r1 (Hk & _ & Hl1).
Qed.

(** Which mutations of the broker the durable layer takes: an insert with data
    whose scope, if it names one, is known; an update of a row that is there and
    not newer, by version and by time stamp; every delete. *)
Definition not_newer (f : string) (old data : Record_) : Prop :=
  ∀ remote loc, get_u64 data f = Some remote → get_u64 old f = Some loc → (loc ≤ remote)%Z.

Definition accepts (c : StoreConfig) (m : SyncMutation) (dur : string * string → option Record_) : Prop :=
  match sm_op m with
  | Insert => ∃ data, sm_data m = Some data ∧
      ∀ sid, get_str data (scope_field (scope c)) = Some sid → is_Some (dur (root_entity (scope c), sid))
  | Update => ∃ data old, sm_data m = Some data ∧ dur (sm_entity m, sm_id m) = Some old ∧
      not_newer (version_field c) old data ∧ not_newer (updated_at_field c) old data
  | Delete => True
  end.

Lemma older_spec data old f : older data old f = false ↔ not_newer f old data.
Proof.
  clear no_defaults. unfold older, not_newer. destruct (get_u64 data f) as [x|], (get_u64 old f) as [y|]; try (split; [|done]; naive_solver).
  rewrite bool_decide_eq_false. split; [intros H ? ? [= <-] [= <-]; lia|intros H; specialize (H x y eq_refl eq_refl); lia].
Qed.

Lemma accepts_data c m dur : accepts c m dur →
  (is_Some (sm_data m) ∨ sm_op m = Delete) ∧ (sm_op m = Update → is_Some (dur (sm_entity m, sm_id m))).
Proof. clear no_defaults. unfold accepts. destruct (sm_op m); naive_solver eauto using mk_is_Some. Qed.

Lemma apply_mutation_spec c m s mem dur mq :
  let k := (sm_entity m, sm_id m) in
  looks s mem dur mq → is_Some (si_persistence s) → sm_entity m ≠ PENDING_ENTITY → root_entity (scope c) ≠ PENDING_ENTITY →
  (∀ data, sm_data m = Some data → keeps_id (sm_id m) data) →
  post (apply_mutation_to_db c m) s (λ s' r, kept s s' ∧ ∃ b : bool, r = Ok b ∧
    (b = true ↔ accepts c m dur) ∧
    looks s' mem (if b then dur_set s dur k (row_after m (dur k)) else dur) mq).
Proof.
  clear no_defaults. intros k Hl Hp He Hroot Hid. unfold apply_mutation_to_db, row_after, accepts.
  destruct (sm_op m) eqn:Eop, (sm_data m) as [data|] eqn:Edata.
  2, 4: asteps; split; [done|exists false; split_and!; [done|naive_solver|done]].
  - assert (∀ known : bool, post (if negb known then aret false else
        acc_create (sm_entity m) (<["id" := Str (sm_id m)]> data) ;; aret true) s (λ s' r, kept s s' ∧ ∃ b : bool, r = Ok b ∧
      (b = true ↔ known = true) ∧ looks s' mem (if b then dur_set s dur k
        (Some (defaults (D := D) (sm_entity m) (strip_nulls (<["id" := Str (sm_id m)]> data)))) else dur) mq)) as Hc.
    { intros [|]; simpl; [|asteps; split; [done|by exists false]]. asteps.
      acall (accessor_create_spec (sm_entity m) _ (sm_id m) s _ _ _ Hl Hp); [by rewrite get_str_insert, decide_True|done|].
      intros s1 r1 (-> & Hk & Hl1). asteps. split; [done|]. by exists true. }
    asteps. destruct (get_str data _) as [ref|] eqn:Eref; asteps.
    2:{ acall (Hc true). intros s1 r1 (Hk & b & -> & Hb & Hl1). split; [done|]. exists b. split_and!; [done| |done].
        rewrite Hb. split; [|done]. intros _. exists data. split; [done|]. by rewrite Eref. }
    eapply accessor_read_spec; [done..|]. cbv beta iota. asteps.
    acall (Hc (bool_decide (is_Some (dur (root_entity (scope c), ref))))). intros s1 r1 (Hk & b & -> & Hb & Hl1).
    split; [done|]. exists b. split_and!; [done| |done]. rewrite Hb, bool_decide_eq_true. split.
    + intros H. exists data. split; [done|]. rewrite Eref. by intros sid [= <-].
    + intros (d & [= <-] & H). by apply H.
  - asteps. eapply accessor_read_spec; [done..|]. cbv beta iota. destruct (dur k) as [old|] eqn:Eo; unfold k in Eo; rewrite Eo.
    2:{ asteps. split; [done|]. exists false. split_and!; [done|naive_solver|done]. }
    destruct (older data old (version_field c)) eqn:Ev.
    { asteps. split; [done|]. exists false. split_and!; [done| |done]. split; [done|].
      intros (d & o & [= <-] & [= <-] & H%older_spec & _). congruence. }
    destruct (older data old (updated_at_field c)) eqn:Eu.
    { asteps. split; [done|]. exists false. split_and!; [done| |done]. split; [done|].
      intros (d & o & [= <-] & [= <-] & _ & H%older_spec). congruence. }
    asteps.
    acall (accessor_update_spec (sm_entity m) data (sm_id m) s _ _ _ Hl Hp); [by apply Hid|done|by rewrite Eo|].
    rewrite Eo. intros s1 r1 (-> & Hk & Hl1). asteps. split; [done|]. exists true. split_and!; [done| |done]. split; [|done].
    intros _. exists data, old. split_and!; [done..|by apply older_spec|by apply older_spec].
  - asteps. acall (accessor_delete_spec (sm_entity m) (sm_id m) s _ _ _ Hl Hp He).
    intros s1 r1 (-> & Hk & Hl1). asteps. split; [done|]. by exists true.
  - asteps. acall (accessor_delete_spec (sm_entity m) (sm_id m) s _ _ _ Hl Hp He).
    intros s1 r1 (-> & Hk & Hl1). asteps. split; [done|]. by exists true.
Qed.

(** The cache shows nothing but durable rows. *)
Definition coherent (mem : gmap (string * string) Record_) (dur : string * string → option Record_) : Prop :=
  ∀ k row, k.1 ≠ PENDING_ENTITY → mem !! k = Some row → dur k = Some row.

(** The mutation carries the whole record as the broker stores it: named, in
    its scope, with every field the durable row has. *)
Definition full_image (c : StoreConfig) (m : SyncMutation) (old : option Record_) : Prop :=
  ∀ data, sm_data m = Some data →
    data !! "id" = Some (Str (sm_id m)) ∧ strip_nulls data = data ∧ defaults (D := D) (sm_entity m) data = data ∧
    (sm_entity m ≠ root_entity (scope c) → sm_entity m ∉ top_level c → is_Some (get_str data (scope_field (scope c)))) ∧
    (∀ row, old = Some row → dom row ⊆ dom data).

Lemma full_image_extend (old data : Record_) : dom old ⊆ dom data → extend old data = data.
Proof.
  clear no_defaults. intros Hd. unfold extend. apply map_eq. intros f. rewrite lookup_union.
  destruct (data !! f) as [v|] eqn:E; [by destruct (old !! f)|].
  rewrite (proj1 (not_elem_of_dom old f)); [done|]. intros Hf. apply Hd in Hf. by apply not_elem_of_dom in E.
Qed.

(** The scope a mirrored record is filed under; it already carries it. *)
Lemma mirror_scope c m data old :
  full_image c m old → sm_data m = Some data →
  ∃ sid, (if Store.is_top_level c (sm_entity m) then Some "" else
          match get_str data (scope_field (scope c)) with
          | Some sid => Some sid
          | None => if bool_decide (sm_entity m = root_entity (scope c)) then Some (sm_id m) else None
          end) = Some sid ∧
    MemoryStore.stamp_scope c (sm_entity m) sid data = data.
Proof.
  clear no_defaults. intros Hfull Hdata. destruct (Hfull data Hdata) as (_ & _ & _ & Hsc & _).
  unfold Store.is_top_level, MemoryStore.stamp_scope.
  destruct (decide (sm_entity m ∈ top_level c)) as [Ht|Ht].
  { rewrite (bool_decide_eq_true_2 _ Ht). exists "". by rewrite andb_false_r. }
  rewrite (bool_decide_eq_false_2 _ Ht). destruct (decide (sm_entity m = root_entity (scope c))) as [Hr|Hr].
  { rewrite (bool_decide_eq_true_2 _ Hr). destruct (get_str _ _); eauto. }
  destruct (Hsc Hr Ht) as [sid Hsid]. rewrite Hsid. exists sid. split; [done|]. apply get_str_Some in Hsid.
  unfold contains_key. by rewrite Hsid, (bool_decide_eq_true_2 (is_Some (Some _))), andb_false_r by done.
Qed.

(** The cached row once the mutation is mirrored. *)
Definition cache_after (m : SyncMutation) (mem : gmap (string * string) Record_) : gmap (string * string) Record_ :=
  match sm_op m, sm_data m with
  | Delete, _ => delete (sm_entity m, sm_id m) mem
  | _, Some data => <[(sm_entity m, sm_id m) := data]> mem
  | _, None => mem
  end.

Lemma cache_after_other m mem k' : k' ≠ (sm_entity m, sm_id m) → cache_after m mem !! k' = mem !! k'.
Proof.
  clear no_defaults. intros Hne. unfold cache_after.
  by destruct (sm_op m), (sm_data m); rewrite ?lookup_insert_ne, ?lookup_delete_ne by done.
Qed.

Lemma mirror_spec c m s mem dur mq :
  si_config s = c → ms_config (si_memory s) = c → looks s mem dur mq →
  full_image c m (mem !! (sm_entity m, sm_id m)) → (is_Some (sm_data m) ∨ sm_op m = Delete) →
  post (Store.mirror_remote_to_memory m (Store.is_top_level c (sm_entity m))) s (λ s' _, looks s' (cache_after m mem) dur mq).
Proof.
  clear no_defaults. intros <- Hmc Hl Hfull Hsome. unfold Store.mirror_remote_to_memory, cache_after. asteps.
  destruct (sm_op m) eqn:Eop.
  3:{ asteps. acall (memory_delete_spec (sm_entity m) (sm_id m) Remote s _ _ _ Hl). by intros s1 r1 (_ & _ & ?). }
  all: destruct Hsome as [[data Hdata]|?]; [|done]; rewrite Hdata;
    destruct (mirror_scope _ m data _ Hfull Hdata) as (sid & Hsid & Hst);
    destruct (Hfull data Hdata) as (Hid & Hnull & Hdef & _ & Hdom);
    assert (get_str data "id" = Some (sm_id m)) as Hgid by (by apply get_str_Some);
    rewrite (insert_id data) by done.
  - rewrite Hgid, Hsid. asteps. acall (memory_create_spec (sm_entity m) sid data Remote (sm_id m) s _ _ _ Hl Hgid).
    rewrite Hmc, Hnull, Hst, Hdef. by intros s1 r1 (_ & _ & _ & Hl1).
  - rewrite Hsid. asteps. unfold Store.on_memory at 1. asteps.
    acall (memory_update (si_memory s) (sm_entity m) (sm_id m) data Remote).
    { right. intros v. by rewrite Hid; intros [= <-]. }
    intros m' r [(Hc & _) Hr]. rewrite (proj1 Hl), Hnull in Hr.
    destruct (mem !! (sm_entity m, sm_id m)) as [old|] eqn:Eold.
    + destruct Hr as [-> Ht]. asteps. eapply looks_memory; [done|]. rewrite Ht, full_image_extend; [done|]. by apply Hdom.
    + destruct Hr as [-> Ht]. cbn [is_not_found]. asteps.
      assert (looks (Store.set_memory m' s) mem dur mq) as Hl1 by (by eapply looks_memory).
      acall (memory_create_spec (sm_entity m) sid data Remote (sm_id m) (Store.set_memory m' s) _ _ _ Hl1 Hgid).
      cbn [si_memory Store.set_memory]. rewrite Hc, Hmc, Hnull, Hst, Hdef. by intros s1 r1 (_ & _ & _ & Hl2).
Qed.

Lemma should_apply_ext c m s s' mem dur dur' mq mq' :
  looks s mem dur mq → looks s' mem dur' mq' → si_state s' = si_state s →
  Store.should_apply_to_memory c m s' = Store.should_apply_to_memory c m s.
Proof.
  clear no_defaults. intros (Hm & _) (Hm' & _) Hst. unfold Store.should_apply_to_memory. by rewrite Hst, !memory_read, Hm, Hm'.
Qed.

(** A mirrored row is the row the durable layer holds. *)
Lemma cache_row m mem dur :
  let k := (sm_entity m, sm_id m) in
  (∃ c, full_image c m (dur k)) → (is_Some (sm_data m) ∨ sm_op m = Delete) → (sm_op m = Update → is_Some (dur k)) →
  cache_after m mem !! k = row_after m (dur k).
Proof.
  clear no_defaults. intros k [c Hfull] Hsome Hup. unfold cache_after, row_after. fold k.
  destruct (sm_op m); [| |apply lookup_delete_eq];
    (destruct Hsome as [[data Hd]|?]; [|done]); rewrite Hd, lookup_insert_eq;
    destruct (Hfull data Hd) as (Hid & Hnull & Hdef & _ & Hdom).
  - by rewrite insert_id, Hnull, Hdef.
  - destruct (Hup eq_refl) as [old Hold]. rewrite Hold. simpl. rewrite Hnull, full_image_extend; [done|by apply Hdom].
Qed.

(** Which mutations concern the cache, whose open scope is [current] and which
    holds [cached] under the id: those of top-level entities; those of the open
    scope's root; those of a child in the open scope, going by the record that
    was sent, or for a bare delete by the cached row. *)
Definition belongs (c : StoreConfig) (current : option string) (m : SyncMutation) (cached : option Record_) : Prop :=
  sm_entity m ∈ top_level c ∨
  (sm_entity m = root_entity (scope c) ∧ current = Some (sm_id m) ∧
   (is_Some (sm_data m) ∨ sm_op m = Delete ∧ is_Some cached)) ∨
  (sm_entity m ≠ root_entity (scope c) ∧
   ((∃ data, sm_data m = Some data ∧ get_str data (scope_field (scope c)) = current) ∨
    (sm_data m = None ∧ sm_op m = Delete ∧ ∃ row, cached = Some row ∧ get_str row (scope_field (scope c)) = current))).

Lemma should_apply_belongs c m s mem dur mq :
  looks s mem dur mq →
  Store.should_apply_to_memory c m s = true ↔ belongs c (current_scope (si_state s)) m (mem !! (sm_entity m, sm_id m)).
Proof.
  clear no_defaults. intros (Hm & _). unfold Store.should_apply_to_memory, Store.is_top_level, belongs. rewrite memory_read, Hm.
  destruct (decide (sm_entity m ∈ top_level c)) as [Ht|Ht]; [rewrite bool_decide_eq_true_2 by done; naive_solver|].
  rewrite (bool_decide_eq_false_2 (sm_entity m ∈ _)) by done.
  destruct (decide (sm_entity m = root_entity (scope c))) as [Hr|Hr];
    [rewrite (bool_decide_eq_true_2 (_ = root_entity _)) by done|rewrite (bool_decide_eq_false_2 (_ = root_entity _)) by done];
    destruct (sm_data m) as [data|]; [|destruct (sm_op m), (mem !! _) as [row|]| |destruct (sm_op m), (mem !! _) as [row|]];
    rewrite ?bool_decide_eq_true; naive_solver eauto using mk_is_Some.
Qed.


(** *** The durable layer as the sync layer sees it *)

(** The accessor works on a store with a durable layer, and changes nothing else. *)
Definition durable_ok (c : StoreConfig) (s0 s : Inner) : Prop :=
  ∃ l, pl_config l = c ∧ s = Store.set_persistence (Some l) s0.

Lemma set_persistence_twice p p' s : Store.set_persistence p (Store.set_persistence p' s) = Store.set_persistence p s.
Proof. done. Qed.

#[export] Program Instance inner_table c s0 : TableAccessor Inner (durable_ok c s0) := {|
  acc_config := c;
  acc_table s := match si_persistence s with Some l => layer_table l | None => ∅ end;
  acc_defaults := defaults (D := D);
  acc_defaults_incl := defaults_incl;
|}.
Next Obligation. intros c s0 s e id r (l & _ & ->) Hr. simpl in Hr. by apply table_row in Hr as []. Qed.
Next Obligation. intros c s0 s e id (l & _ & ->). simpl. unfold Store.accessor_read. simpl. by rewrite layer_read. Qed.
Next Obligation.
  intros c s0 s e sid (l & <- & ->) Hroot Htop. simpl. unfold Store.accessor_list. simpl.
  unfold PersistenceLayer.list_by_scope. rewrite bool_decide_eq_false_2, bool_decide_eq_false_2 by done. simpl.
  destruct (layer_list l e [mkFilter (scope_field (scope (pl_config l))) FilterEq (Str sid)]) as (rows & -> & Hp).
  exists rows. split; [done|]. rewrite Hp. apply reflexive_eq, list_filter_iff. intros r. simpl.
  rewrite andb_true_r, (filter_matches_str r (mkFilter _ _ _) _ eq_refl). simpl. by rewrite bool_decide_eq_true.
Qed.
Next Obligation.
  intros c s0 s e d id (l & Hc & ->) Hid. simpl. unfold Store.accessor_create. simpl. unfold abind, Store.on_layer. simpl.
  pose proof (layer_create l e d Remote id Hid) as Hp. unfold post in Hp.
  destruct (PersistenceLayer.create e d Remote l) as [l' r]. simpl in *. destruct Hp as (-> & Ht & (Hc' & _) & _). simpl.
  eexists. split; [done|]. simpl. split; [|done]. exists l'. split; [congruence|done].
Qed.
Next Obligation.
  intros c s0 s e id old fields (l & Hc & ->) Hold Hid. simpl in *. unfold Store.accessor_update. simpl.
  unfold abind, Store.on_layer. simpl.
  pose proof (layer_update l e id fields Remote (or_intror Hid)) as Hp. rewrite Hold in Hp. unfold post in Hp.
  destruct (PersistenceLayer.update e id fields Remote l) as [l' r]. simpl in *. destruct Hp as ((Hc' & _) & -> & Ht). simpl.
  eexists. split; [done|]. simpl. split; [|done]. exists l'. split; [congruence|done].
Qed.
Next Obligation.
  intros c s0 s e id (l & Hc & ->). simpl. unfold Store.accessor_delete. simpl. unfold aignore, Store.on_layer. simpl.
  pose proof (layer_delete l e id Remote) as Hp. unfold post in Hp.
  destruct (PersistenceLayer.delete e id Remote l) as [l' r]. simpl in *. destruct Hp as (Ht & (Hc' & _) & _).
  do 2 eexists. split; [done|]. simpl. split; [|done]. exists l'. split; [congruence|done].
Qed.

Lemma acc_durable c s0 s k : acc_table (TableAccessor := inner_table c s0) s !! k = durable s k.
Proof. clear no_defaults. unfold durable. simpl. by destruct (si_persistence s). Qed.
End laws.
