(* ===== verification/ScopeLaws.v ===== *)
(** * What a scope switch shows

    Loading a scope from the durable layer into the memory cache
    (load_bundle_from_persistence and replace_scope of store.rs, load_scope of
    memory_store.rs): the cache holds exactly the durable rows of the scope. *)
From S2P Require Import Prelude Json Types Backend OfflineQueue StorePersistence PersistentQueue MemoryStore SyncEngine RemoteSync Store StoreLaws.

(** ** Bundles *)

#[export] Instance as_bytes_inj : Inj (=) (=) as_bytes.
Proof.
  intros a b H. rewrite <-(String.string_of_list_byte_of_string a), <-(String.string_of_list_byte_of_string b).
  unfold as_bytes in H. by rewrite H.
Qed.

(** Filling an ordered map from a function of its keys. *)
Lemma elem_of_btree_insert {A} (f : string → A) k (m : list (string * A)) x :
  (∀ y, y ∈ m → y.2 = f y.1) →
  x ∈ SyncEngine.btree_insert k (f k) m ↔ x = (k, f k) ∨ x ∈ m.
Proof.
  induction m as [|[k' a'] m IH]; intros Hm; cbn [SyncEngine.btree_insert]; [by rewrite list_elem_of_singleton, elem_of_nil; tauto|].
  assert (∀ y, y ∈ m → y.2 = f y.1) as Hm' by (intros y Hy; apply Hm; by right).
  destruct (cmp (as_bytes k) (as_bytes k')) eqn:E.
  - apply cmp_eq_iff, (inj as_bytes) in E as <-. rewrite !elem_of_cons.
    assert (a' = f k) as -> by (apply (Hm (k, a')); by left). tauto.
  - by rewrite !elem_of_cons.
  - rewrite !elem_of_cons, IH by done. tauto.
Qed.

Lemma elem_of_btree {A} (f : string → A) ks x :
  x ∈ foldl (λ m '(k, a), SyncEngine.btree_insert k a m) [] ((λ k, (k, f k)) <$> ks) ↔ x.1 ∈ ks ∧ x.2 = f x.1.
Proof.
  assert (∀ m, (∀ y, y ∈ m → y.2 = f y.1) →
    x ∈ foldl (λ m '(k, a), SyncEngine.btree_insert k a m) m ((λ k, (k, f k)) <$> ks) ↔ x ∈ m ∨ x.1 ∈ ks ∧ x.2 = f x.1) as H.
  { induction ks as [|k ks IH]; intros m Hm; simpl; [by rewrite elem_of_nil; tauto|].
    rewrite IH.
    - rewrite elem_of_btree_insert, elem_of_cons by done. destruct x as [k1 a1]. simpl. naive_solver.
    - intros y. rewrite elem_of_btree_insert by done. intros [-> |Hy]; [done|by apply Hm]. }
  rewrite H by (intros y Hy; by apply not_elem_of_nil in Hy). rewrite elem_of_nil. tauto.
Qed.

(** The row [row] of the bundle, filed under [k]. *)
Definition bundled (root : string) (b : ScopeBundle) (k : string * string) (row : Record_) : Prop :=
  get_str row "id" = Some k.2 ∧
  ((k.1 = root ∧ bundle_root b = Some row) ∨ ∃ records, (k.1, records) ∈ bundle_children b ∧ row ∈ records).

Section laws.
Context {D R : Type} {DB : Db D} {DL : DbLaws D} {RO : RemoteOps R} {HI : HashIter}.
Abbreviation Inner := (StoreInner D R).
Implicit Types (s : Inner) (mq : InMemoryOfflineQueue).

(** A row as a database keeps it. *)
Definition stored (P : string * string → option Record_) (e : string) (row : Record_) : Prop :=
  ∃ id, get_str row "id" = Some id ∧ P (e, id) = Some row ∧ defaults (D := D) e row = row.

Lemma create_stored P e row (d : D) :
  stored P e row → (∀ k r, table d !! k = Some r → P k = Some r) →
  post (let! _ := db_create e (Object row) in aret ()) d (λ d' r, r = Ok () ∧
    (∀ k r, table d' !! k = Some r → P k = Some r) ∧
    ∀ y : (string * string) * Record_, table d' !! y.1 = Some y.2 ↔
      table d !! y.1 = Some y.2 ∨ (y.1.1 = e ∧ y.2 = row ∧ get_str row "id" = Some y.1.2)).
Proof.
  intros (id & Hid & HP & Hdef) Hd. destruct (db_create_law d e row id Hid) as (d' & E & Ht). rewrite Hdef in Ht. asteps.
  eapply post_eq; [exact E|]. cbv beta iota. asteps. split; [done|]. split.
  { intros k r. rewrite Ht, lookup_insert_Some. intros [[<- <-]|[_ ?]]; [done|by apply Hd]. }
  intros [[e' id'] r']. rewrite Ht, lookup_insert_Some. simpl. split.
  - intros [[[= <- <-] <-]|[Hne Hr']]; [by right|by left].
  - intros [Hr'|(-> & -> & Hid')]; [|left; split; [congruence|done]].
    destruct (decide ((e, id) = (e', id'))) as [[= <- <-]|Hne]; [left|by right]. split; [done|].
    pose proof (Hd _ _ Hr') as H. congruence.
Qed.

(** Filling a fresh database with rows of one table. *)
Lemma fill_spec P b root (d : D) :
  table d = ∅ → (∀ row, bundle_root b = Some row → stored P root row) →
  (∀ e rows row, (e, rows) ∈ bundle_children b → row ∈ rows → stored P e row) →
  post (MemoryStore.fill b root) d (λ d' r, r = Ok () ∧ ∀ k row, table d' !! k = Some row ↔ bundled root b k row).
Proof.
  intros Hd Hroot Hch. unfold MemoryStore.fill. asteps.
  set (inv (d : D) := ∀ k r, table d !! k = Some r → P k = Some r).
  set (F (d : D) (y : (string * string) * Record_) := table d !! y.1 = Some y.2).
  assert (∀ y, ¬ F d y) as Hempty by (intros y; unfold F; by rewrite Hd, lookup_empty).
  assert (inv d) as Hinv by (intros k r; by rewrite Hd, lookup_empty).
  assert (post match bundle_root b with Some r => let! _ := db_create root (Object r) in aret () | None => aret () end d
    (λ d' r, r = Ok () ∧ inv d' ∧ ∀ y, F d' y ↔ y.1.1 = root ∧ bundle_root b = Some y.2 ∧ get_str y.2 "id" = Some y.1.2)) as H1.
  { destruct (bundle_root b) as [row|]; [|asteps; split_and!; [done..|]; naive_solver].
    eapply post_mono; [apply (create_stored P); [by apply Hroot|done]|].
    cbv beta. intros d' r (-> & H & HF). split_and!; [done..|]. intros y. unfold F. rewrite HF.
    specialize (Hempty y). unfold F in Hempty. naive_solver. }
  eapply post_mono; [exact H1|]. cbv beta. intros d1 r1 (-> & Hinv1 & Ht1). clear H1.
  eapply post_mono; [apply (post_for_collect _ inv F
    (λ '(e, rows) y, ∃ row, row ∈ rows ∧ y.1.1 = e ∧ y.2 = row ∧ get_str row "id" = Some y.1.2)); [done|]|].
  - intros [e rows] d2 Hin Hinv2. apply post_for_collect; [done|].
    intros row d3 Hrow Hinv3. apply (create_stored P); [by eapply Hch|done].
  - cbv beta. intros d2 r (-> & _ & HF). split; [done|]. intros k row. specialize (HF (k, row)). unfold F in HF. simpl in HF.
    rewrite HF. specialize (Ht1 (k, row)). unfold F in Ht1. simpl in Ht1. rewrite Ht1. unfold bundled. split.
    + intros [(? & ? & ?)|([e rows] & Hin & row' & Hrow & <- & <- & ?)]; eauto 10.
    + intros [Hid [[? ?]|(rows & Hin & Hrow)]]; [by left|]. right. exists (k.1, rows). eauto 10.
Qed.

Lemma bump_scope_versions_db sid (m : MemoryStore D) :
  ms_db (MemoryStore.bump_scope_versions sid m) = ms_db m ∧
  ms_config (MemoryStore.bump_scope_versions sid m) = ms_config m.
Proof.
  unfold MemoryStore.bump_scope_versions. generalize (MemoryStore.all_scoped_entities (ms_config m)) as es.
  intros es. revert m. induction es as [|e es IH]; intros m; [done|]. cbn [foldl].
  destruct (IH (MemoryStore.bump_version (MemoryStore.version_scope (ms_config m) e sid) e m)) as [-> ->]. done.
Qed.

Lemma load_scope_spec P sid b s mem dur mq :
  looks s mem dur mq → (∀ row, bundle_root b = Some row → stored P (root_entity (scope (ms_config (si_memory s)))) row) →
  (∀ e rows row, (e, rows) ∈ bundle_children b → row ∈ rows → stored P e row) →
  post (Store.on_memory (MemoryStore.load_scope sid b)) s (λ s' r, r = Ok () ∧ kept s s' ∧ ∃ mem',
    looks s' mem' dur mq ∧
    ∀ k row, mem' !! k = Some row ↔ bundled (root_entity (scope (ms_config (si_memory s)))) b k row).
Proof.
  intros Hl Hroot Hch. unfold Store.on_memory. astep. unfold MemoryStore.load_scope, post.
  destruct (db_open_law (D := D) (ms_config (si_memory s))) as (fresh & -> & Hf).
  pose proof (fill_spec P b _ fresh Hf Hroot Hch) as Hfill. unfold post in Hfill.
  destruct (MemoryStore.fill b _ fresh) as [d r]. simpl in Hfill. destruct Hfill as [-> Ht].
  cbn [fst snd]. set (m0 := match ms_current_scope _ with Some _ => _ | None => _ end).
  assert (ms_db m0 = d ∧ ms_config m0 = ms_config (si_memory s)) as [Hdb Hc].
  { unfold m0. destruct (ms_current_scope (si_memory s)) as [prev|]; [|done]. by destruct (bool_decide _). }
  destruct (bump_scope_versions_db sid m0) as [Hdb' Hc'].
  split; [done|]. split; [split_and!; try done; simpl; congruence|].
  exists (table d). split; [|done]. eapply looks_memory; [exact Hl|]. unfold mem_table. simpl. congruence.
Qed.

(** ** Loading a scope from the durable layer *)

(** The durable row [row] at [k] belongs to the scope [sid]. *)
Definition of_scope (c : StoreConfig) (sid : string) (k : string * string) (row : Record_) : Prop :=
  k = (root_entity (scope c), sid) ∨
  (k.1 ∈ child_entities (scope c) ∧ get_str row (scope_field (scope c)) = Some sid).

(** The child entities are neither the root nor top-level ones. *)
Definition plain_children (c : StoreConfig) : Prop :=
  ∀ e, e ∈ child_entities (scope c) → e ≠ root_entity (scope c) ∧ (e ∉ top_level c) ∧ e ≠ PENDING_ENTITY.

Lemma list_by_scope_spec l e sid :
  e ≠ root_entity (scope (pl_config l)) → (e ∉ top_level (pl_config l)) →
  ∃ rows, PersistenceLayer.list_by_scope e sid l = Ok rows ∧
    ∀ row, row ∈ rows ↔ ∃ id, layer_table l !! (e, id) = Some row ∧
      get_str row (scope_field (scope (pl_config l))) = Some sid.
Proof.
  intros Hroot Htop. unfold PersistenceLayer.list_by_scope.
  rewrite bool_decide_eq_false_2, bool_decide_eq_false_2 by done. simpl.
  destruct (layer_list l e [mkFilter (scope_field (scope (pl_config l))) FilterEq (Str sid)]) as (rows & -> & Hp).
  exists rows. split; [done|]. intros row. rewrite Hp, list_elem_of_filter, elem_of_rows_of. simpl.
  rewrite andb_true_r, (filter_matches_str row (mkFilter _ _ _) _ eq_refl). simpl. rewrite bool_decide_eq_true. naive_solver.
Qed.

Lemma load_bundle_spec sid s l mem dur mq :
  si_persistence s = Some l → pl_config l = si_config s → looks s mem dur mq → plain_children (si_config s) →
  root_entity (scope (si_config s)) ≠ PENDING_ENTITY →
  ∃ b, Store.load_bundle_from_persistence sid s = Ok b ∧
    bundle_root b = dur (root_entity (scope (si_config s)), sid) ∧
    (∀ e, e ∈ child_entities (scope (si_config s)) → ∃ rows, (e, rows) ∈ bundle_children b) ∧
    (∀ e rows, (e, rows) ∈ bundle_children b → e ∈ child_entities (scope (si_config s)) ∧
       ∀ row, row ∈ rows ↔ ∃ id, dur (e, id) = Some row ∧ get_str row (scope_field (scope (si_config s))) = Some sid).
Proof.
  intros Hp Hc (_ & Hd & _) Hplain Hroot. unfold durable in Hd. rewrite Hp in Hd. simpl in Hd.
  set (c := si_config s) in *. unfold Store.load_bundle_from_persistence. rewrite Hp, layer_read. fold c. simpl.
  set (f e := match PersistenceLayer.list_by_scope e sid l with Ok rows => rows | Err _ => [] end).
  assert (∀ e, e ∈ child_entities (scope c) → PersistenceLayer.list_by_scope e sid l = Ok (f e) ∧
    ∀ row, row ∈ f e ↔ ∃ id, dur (e, id) = Some row ∧ get_str row (scope_field (scope c)) = Some sid) as Hf.
  { intros e He. destruct (Hplain e He) as (H1 & H2 & H3). unfold f. rewrite <-Hc in *.
    destruct (list_by_scope_spec l e sid H1 H2) as (rows & -> & Hrows). split; [done|]. intros row.
    rewrite Hrows. f_equiv. intros id. by rewrite <-Hd. }
  assert (collect ((λ child, let? rows := PersistenceLayer.list_by_scope child sid l in Ok (child, rows)) <$>
    child_entities (scope c)) = Ok ((λ e, (e, f e)) <$> child_entities (scope c))) as ->.
  { apply collect_Ok. rewrite <-list_fmap_compose. apply list_fmap_ext. intros i e He. simpl.
    destruct (Hf e) as [-> _]; [by eapply list_elem_of_lookup_2|done]. }
  simpl. eexists. split; [done|]. simpl. split; [by apply Hd|]. split.
  - intros e He. exists (f e). by apply elem_of_btree.
  - intros e rows H%elem_of_btree. simpl in H. destruct H as [He ->]. split; [done|]. by apply Hf.
Qed.

(** The two together: the cache is the durable scope. *)
Lemma load_durable_scope sid s mem dur mq :
  is_Some (si_persistence s) → (∀ l, si_persistence s = Some l → pl_config l = si_config s) → looks s mem dur mq →
  plain_children (si_config s) → root_entity (scope (si_config s)) ≠ PENDING_ENTITY → ms_config (si_memory s) = si_config s →
  post (let! bundle := λ s, (s, Store.load_bundle_from_persistence sid s) in
        Store.on_memory (MemoryStore.load_scope sid bundle)) s (λ s' r, r = Ok () ∧ kept s s' ∧ ∃ mem',
    looks s' mem' dur mq ∧ ∀ k row, mem' !! k = Some row ↔ dur k = Some row ∧ of_scope (si_config s) sid k row).
Proof.
  intros [l Hp] Hlc Hl Hplain Hroot Hmc.
  destruct (load_bundle_spec sid s l mem dur mq Hp (Hlc l Hp) Hl Hplain Hroot) as (b & E & Hbr & Hb1 & Hb2).
  asteps. eapply post_eq; [cbv beta; by rewrite E|]. cbv beta iota.
  assert (∀ e id row, e ≠ PENDING_ENTITY → dur (e, id) = Some row → stored dur e row ∧ get_str row "id" = Some id) as Hst.
  { intros e id row He Hrow. pose proof Hrow as Hrow'. destruct Hl as (_ & Hd & _). rewrite <-Hd in Hrow' by done.
    unfold durable in Hrow'. rewrite Hp in Hrow'. simpl in Hrow'. apply table_row in Hrow' as [Hid Hdef].
    split; [by exists id|done]. }
  acall (load_scope_spec dur sid b s mem dur mq Hl).
  - rewrite Hmc, Hbr. intros row Hrow. by eapply Hst.
  - intros e rows row Hin Hrow. destruct (Hb2 e rows Hin) as [He Hrows]. apply Hrows in Hrow as (id & Hrow & _).
    by eapply Hst; [apply Hplain|].
  - rewrite Hmc. intros s' r (-> & Hk & mem' & Hl' & Hmem). split; [done|]. split; [done|]. exists mem'. split; [done|].
    intros [e id] row. rewrite Hmem. unfold bundled, of_scope. simpl. split.
    + intros [Hid [[-> Hrow]|(rows & Hin & Hrow)]].
      * rewrite Hbr in Hrow. destruct (Hst _ _ _ Hroot Hrow) as [_ Hid']. rewrite Hid in Hid'. injection Hid' as ->. auto.
      * destruct (Hb2 e rows Hin) as [He Hrows]. apply Hrows in Hrow as (id' & Hrow & Hsc).
        destruct (Hst e id' row) as [_ Hid']; [by apply Hplain|done|]. rewrite Hid in Hid'. injection Hid' as ->. auto.
    + intros [Hrow [[= -> ->]|[He Hsc]]].
      * split; [by eapply Hst|]. left. by rewrite Hbr.
      * split; [by eapply Hst; [apply Hplain|]|]. right. destruct (Hb1 e He) as [rows Hin]. exists rows. split; [done|].
        apply (Hb2 e rows Hin). eauto.
Qed.

(** C23: Switching scopes while offline shows the scope as the durable layer holds
    it: the switch succeeds, the cache afterwards holds exactly the scope's
    root row and the rows of its child entities that carry the scope, nothing
    durable or queued changes, and the scope is marked for a backfill. *)
Theorem offline_scope_shows_durable sid s mem dur mq :
  current_scope (si_state s) ≠ Some sid → last_connection_status (si_state s) ≠ Connected →
  is_Some (si_persistence s) → (∀ l, si_persistence s = Some l → pl_config l = si_config s) → looks s mem dur mq →
  plain_children (si_config s) → root_entity (scope (si_config s)) ≠ PENDING_ENTITY → ms_config (si_memory s) = si_config s →
  post (Store.replace_scope sid) s (λ s' r, r = Ok () ∧ current_scope (si_state s') = Some sid ∧
    current_scope_server_synced (si_state s') = false ∧ ∃ mem', looks s' mem' dur mq ∧
    ∀ k row, mem' !! k = Some row ↔ dur k = Some row ∧ of_scope (si_config s) sid k row).
Proof.
  intros Hcur Hst Hp Hlc Hl Hplain Hroot Hmc. unfold Store.replace_scope. asteps.
  rewrite bool_decide_eq_false_2 by done. asteps. set (s1 := Store.set_current_scope (Some sid) s).
  set (Q (s2 : Inner) := si_persistence s2 = si_persistence s ∧ si_config s2 = si_config s ∧ si_memory s2 = si_memory s ∧
    si_queue s2 = si_queue s ∧ si_state s2 = si_state s1).
  assert (post (match current_scope (si_state s) with
    | Some prev => if (match si_remote s1 with Some _ => true | None => false end : bool)
                   then aignore (Store.on_remote (ro_close_scope prev)) else aret ()
    | None => aret ()
    end) s1 (λ s2 r, r = Ok () ∧ Q s2)) as Hclose.
  { destruct (current_scope (si_state s)) as [prev|]; [|by asteps]. destruct (si_remote s1) as [r0|] eqn:Er; [|by asteps].
    asteps. unfold Store.on_remote, post. rewrite Er. by destruct (ro_close_scope prev r0). }
  acall Hclose. intros s2 r (-> & Hp2 & Hc2 & Hm2 & Hq2 & Hs2). asteps. rewrite Hs2.
  rewrite (bool_decide_eq_false_2 (last_connection_status (si_state s1) = Connected)) by done. rewrite andb_false_r. asteps.
  destruct Hp as [l Hl0]. rewrite Hp2, Hl0.
  assert (looks s2 mem dur mq) as Hl2.
  { destruct Hl as (H1 & H2 & H3). split; [by rewrite Hm2|]. unfold durable, queue_is in *. by rewrite Hp2, Hq2. }
  acall (load_durable_scope sid s2 mem dur mq); rewrite ?Hp2, ?Hc2, ?Hm2; try done.
  intros s3 r (-> & Hk & mem' & Hl3 & Hmem). destruct Hk as (_ & Hs3 & _). asteps. simpl. rewrite Hs3, Hs2.
  split_and!; [done..|]. exists mem'. by split.
Qed.
End laws.
