(* ===== verification/StoreExamples.v ===== *)
(** * The store at work

    A broker kept as a table, stores on it with and without a durable layer,
    runs of the theorems of Store.v, StoreLaws.v and RemoteSync.v at these,
    and the two ways in which the store loses records. *)
From S2P Require Import Prelude Json Types Backend OfflineQueue StorePersistence PersistentQueue MemoryStore SyncEngine RemoteSync Store StoreLaws ScopeLaws.

(** ** A table as a broker *)

(** A checked write compares the version of the row, and stores the next one. *)
Definition checked {A} (e id : string) (expected : Z) (k : Record_ → Z → RemoteTable * result A Error)
    (t : RemoteTable) : RemoteTable * result A Error :=
  match t !! (e, id) with
  | None => (t, Err (NotFound e id))
  | Some row =>
    if bool_decide (get_u64 row "_version" = Some expected) then k row (expected + 1)%Z
    else (t, Err (PreconditionFailed e id))
  end.

#[export] Instance table_broker : RemoteOps RemoteTable := {|
  ro_sender := table_remote;
  ro_create e sc d t := let '(t, r) := sync_create e sc d t in (t, let? _ := r in Ok (default "" (get_str d "id")));
  ro_update e sc id d := sync_update e sc id d;
  ro_delete e sc id := sync_delete e sc id;
  ro_update_checked e _ id d expected t := checked e id expected
    (λ row v, (<[(e, id) := extend row (<["_version" := Num (PosInt v)]> d)]> t, Ok v)) t;
  ro_delete_checked e _ id expected t := checked e id expected (λ _ _, (delete (e, id) t, Ok ())) t;
  ro_open_scope sid t := (t, Ok (mkScopeState (default ∅ (t !! ("workspace", sid)))
    [("task", filter (λ r, get_str r "workspaceId" = Some sid) (rows_of t "task"))] 0 []));
  ro_close_scope _ t := (t, Ok ());
  ro_fetch_list e _ t := (t, Ok (rows_of t e));
  ro_disconnect t := (t, Ok ());
  ro_disconnect_abnormally t := (t, Ok ());
  ro_reconnect _ _ _ _ t := (t, Ok ());
  ro_request _ _ t := (t, Ok ∅);
  ro_applied_version _ _ := None;
  ro_set_session_invalid_handler t := t;
  ro_clear_session_invalid_handler t := t;
|}.

(** ** A connected store with a durable layer *)

Definition ex_rows : TableDb := {[ ("task", "t1") := ex_task "t1" "new" ]}.

Definition ex_state : StoreState := mkStoreState (Some "w1") true true (Some "ana") Connected true.

Definition ex_io : Inputs := mkInputs "fresh" "row-1" 10.

Definition ex_store (broker : RemoteTable) : StoreInner (NativeDb TableDb) RemoteTable :=
  mkInner ex_scope_config (mkMemory (mkNative ex_rows) (Some "w1") [] ex_scope_config 0 ∅ ∅)
    (Some (mkLayer (mkNative ex_rows) [] ex_scope_config false)) (Some broker)
    (Some (DurableQueue "workspace" (Some "ana") false)) ex_state false false.

Definition ex_broker : RemoteTable := {[ ("task", "t1") := ex_task "t1" "new"; ("task", "t9") := ex_task "t9" "taken" ]}.

Definition ex_mem : gmap (string * string) Record_ := mem_table (si_memory (ex_store ex_broker)).
Definition ex_dur : string * string → option Record_ := durable (ex_store ex_broker).
Definition ex_mq : InMemoryOfflineQueue := InMemory.new "workspace".

Lemma ex_looks : looks (ex_store ex_broker) ex_mem ex_dur ex_mq.
Proof. split; [reflexivity|]. split; [done|]. split; [reflexivity|]. apply reflexive_eq. vm_compute. reflexivity. Qed.

Lemma ex_settled : settled (D := NativeDb TableDb) ex_scope_config "task" "t1" "w1" (ex_task "t1" "new").
Proof. split_and!; reflexivity. Qed.

Lemma ex_no_defaults (r : Record_) : defaults (D := NativeDb TableDb) PENDING_ENTITY r = r.
Proof. reflexivity. Qed.

Lemma create_outcomes_witness :
  let data := ex_task "t9" "mine" in
  post (Store.create ex_io "task" "w1" data Local) (ex_store ex_broker) (λ s' r,
    r = Err (Conflict "task" "t9") ∧ looks s' ex_mem ex_dur ex_mq).
Proof.
  intros data.
  pose proof (create_outcomes ex_no_defaults ex_io "task" "w1" data (ex_store ex_broker) ex_mem ex_dur ex_mq ex_broker
    ex_looks) as H. cbv zeta in H.
  set (a := (ro_create _ _ _ _).2) in H. assert (a = Err (Conflict "task" "t9")) as Ha by reflexivity.
  eapply post_mono; [apply H|]; clear H.
  - reflexivity.
  - reflexivity.
  - reflexivity.
  - done.
  - left. decide_compute.
  - reflexivity.
  - reflexivity.
  - intros row Hrow. by apply not_elem_of_nil in Hrow.
  - intros s' r. cbv beta. rewrite bool_decide_eq_true_2 by reflexivity. rewrite Ha. by intros ?.
Defined.

Lemma update_outcomes_witness :
  let fields := {[ "status" := Str "done" ]} in
  post (Store.update ex_io "task" "t1" fields Local) (ex_store ex_broker) (λ s' r, r = Ok () ∧
    looks s' (<[("task", "t1") := extend (ex_task "t1" "new") (strip_nulls fields)]> ex_mem)
      (dur_set (ex_store ex_broker) ex_dur ("task", "t1")
         ((λ old, extend old (strip_nulls fields)) <$> ex_dur ("task", "t1"))) (InMemory.remove ex_mq "task" "t1" "w1" Update)).
Proof.
  intros fields.
  pose proof (update_outcomes ex_no_defaults ex_io "task" "t1" fields (ex_task "t1" "new") "w1" (ex_store ex_broker)
    ex_mem ex_dur ex_mq ex_broker ex_looks) as H. cbv zeta in H.
  set (a := (ro_update _ _ _ _ _).2) in H. assert (a = Ok ()) as Ha by reflexivity.
  eapply post_mono; [apply H; clear H|clear H].
  - reflexivity.
  - reflexivity.
  - reflexivity.
  - done.
  - intros v Hv. discriminate.
  - reflexivity.
  - exact ex_settled.
  - intros _. reflexivity.
  - intros s' r. cbv beta. rewrite bool_decide_eq_true_2 by reflexivity. rewrite Ha. by intros ?.
Defined.

Definition ex_denied : RemoteTable := ∅.

(** A delete the broker does not know: the row is dropped on both sides. *)
Lemma delete_outcomes_witness :
  let s := ex_store ex_denied in
  post (Store.delete ex_io "task" "t1" Local) s (λ s' r,
    ∃ pending : bool, (InMemory.has_pending_insert ex_mq "task" "t1" = true → pending = true) ∧
      if pending then r = Ok () ∧ looks s' (delete ("task", "t1") ex_mem) (dur_set s ex_dur ("task", "t1") None)
          (InMemory.queue ex_mq (mkPending Delete "task" "t1" "w1" None 0) "row-1" 10) ∧ si_flush s' = true
      else r = Err (NotFound "task" "t1") ∧ looks s' (delete ("task", "t1") ex_mem)
          (dur_set s ex_dur ("task", "t1") None) (InMemory.remove ex_mq "task" "t1" "w1" Delete)).
Proof.
  intros s.
  pose proof (delete_outcomes ex_no_defaults ex_io "task" "t1" (ex_task "t1" "new") "w1" s
    ex_mem ex_dur ex_mq ex_denied) as H. cbv zeta in H.
  set (a := (ro_delete _ _ _ _).2) in H. assert (a = Err (NotFound "task" "t1")) as Ha by reflexivity.
  eapply post_mono; [apply H; clear H|clear H].
  - exact ex_looks.
  - reflexivity.
  - reflexivity.
  - reflexivity.
  - done.
  - reflexivity.
  - exact ex_settled.
  - intros _. reflexivity.
  - intros s' r. cbv beta. rewrite bool_decide_eq_true_2 by reflexivity. rewrite Ha. by intros ?.
Defined.


Lemma foreign_writes_stay_local_witness :
  let s := ex_store ex_broker in
  post (Store.create ex_io "task" "w1" (ex_task "t2" "new") Load) s (λ s' _, s' = Store.set_memory (si_memory s') s) ∧
  post (Store.update ex_io "task" "t2" (ex_task "t2" "new") Load) s (λ s' _, s' = Store.set_memory (si_memory s') s) ∧
  post (Store.delete ex_io "task" "t2" Load) s (λ s' _, s' = Store.set_memory (si_memory s') s).
Proof. intros s. by apply (foreign_writes_stay_local ex_io Load "task" "w1" "t2" (ex_task "t2" "new") s). Defined.

(** The broker reports that the task is done. *)
Definition ex_done : SyncMutation := mkSync Update "task" "t1" (Some (ex_task "t1" "done")) None.


(** The same store offline, in another scope. *)
Definition ex_offline : StoreInner (NativeDb TableDb) RemoteTable :=
  Store.set_state (mkStoreState (Some "w2") true true (Some "ana") Offline true) (ex_store ex_broker).

Lemma offline_scope_shows_durable_witness :
  post (Store.replace_scope "w1") ex_offline (λ s' r, r = Ok () ∧ current_scope (si_state s') = Some "w1" ∧
    current_scope_server_synced (si_state s') = false ∧ ∃ mem', looks s' mem' ex_dur ex_mq ∧
    ∀ k row, mem' !! k = Some row ↔ ex_dur k = Some row ∧ of_scope ex_scope_config "w1" k row).
Proof.
  apply (offline_scope_shows_durable "w1" ex_offline ex_mem ex_dur ex_mq).
  - decide_compute.
  - decide_compute.
  - by eexists.
  - intros l [= <-]. reflexivity.
  - exact ex_looks.
  - intros e He. change (e ∈ ["task"]) in He. apply list_elem_of_singleton in He as ->. split_and!; decide_compute.
  - decide_compute.
  - reflexivity.
Defined.

(** ** The sync layer on the durable rows of a store *)

Abbreviation ex_ok := (durable_ok ex_scope_config (ex_store ex_broker)).

Lemma ex_store_ok : ex_ok (ex_store ex_broker).
Proof. exists (mkLayer (mkNative ex_rows) [] ex_scope_config false). by split. Qed.

Definition ex_versioned (v : Z) : SyncMutation :=
  mkSync Update "task" "t1" (Some {[ "version" := Num (PosInt v); "status" := Str "done" ]}) None.

Lemma updates_monotone_witness :
  let w := ex_store ex_broker in
  let w' := apply_all ex_scope_config [ex_versioned 3; ex_versioned 2] w in
  (is_Some (durable w' ("task", "t1")) ↔ is_Some (durable w ("task", "t1"))) ∧
  (durable w' ("task", "t1") ≫= λ r, get_u64 r "version") = Some 3%Z.
Proof.
  intros w w'. split; [|reflexivity].
  rewrite <-!(acc_durable ex_scope_config w).
  apply (updates_monotone (TA := inner_table ex_scope_config w) ex_scope_config _ w ("task", "t1") ex_store_ok).
  apply Forall_forall. intros m Hm. rewrite !elem_of_cons, elem_of_nil in Hm.
  destruct Hm as [-> |[-> |[]]]; (split; [reflexivity|]); intros data [= <-];
    (split; [intros v Hv; discriminate|]); (split; intros v Hv); try discriminate; injection Hv as <-; left; by eexists.
Defined.

Definition ex_listing : list Record_ := [ex_task "t1" "done"; ex_task "t2" "new"].

Lemma reconcile_converges_witness :
  let w := ex_store ex_broker in
  post (reconcile_children ex_scope_config "w1" "task" ex_listing None) w (λ w' res, res = Ok () ∧
    (∀ id, is_Some (in_scope (TA := inner_table ex_scope_config w) ex_scope_config "w1" "task" w' id) ↔
           is_Some (listed ex_listing id)) ∧
    (∀ id r, listed ex_listing id = Some r → ∃ row, durable w' ("task", id) = Some row ∧
       clean_record "workspaceId" "w1" r ⊆ row)).
Proof.
  intros w. eapply post_mono.
  { apply (reconcile_converges (TA := inner_table ex_scope_config w) "w1" "task" ex_listing w ex_store_ok).
    - done.
    - by apply not_elem_of_empty.
    - decide_compute.
    - intros r Hr. unfold ex_listing in Hr. rewrite !elem_of_cons, elem_of_nil in Hr.
      destruct Hr as [-> |[-> |[]]]; reflexivity. }
  cbv beta. intros w' res (-> & Hids & Hrows & _). split; [done|]. split; [exact Hids|].
  intros id r Hr. destruct (Hrows id r Hr) as (row & Hrow & Hsub). exists row. split; [|exact Hsub].
  by rewrite <-(acc_durable ex_scope_config w).
Defined.

(** The user edited t1 and created t3 offline; the broker lists an older t1. *)
Definition ex_unsent : list PendingMutation :=
  [mkPending Update "task" "t1" "w1" (Some {[ "status" := Str "mine" ]}) 0;
   mkPending Insert "task" "t3" "w1" (Some (ex_task "t3" "offline")) 0].

Definition ex_reads : QueueReads (StoreInner (NativeDb TableDb) RemoteTable) :=
  mkReads (λ _ _, Ok ex_unsent) (λ _ _ _, Ok false).


(** ** Lost records *)

Definition field_of (o : option Record_) (f : string) : option Value := o ≫= λ r, r !! f.

(** A connected store whose queue still holds an edit of the title of t1 that
    could not be sent. *)
Definition ex_title : Record_ := {[ "title" := Str "new title" ]}.

Definition ex_retained : StoreInner (NativeDb TableDb) RemoteTable :=
  mkInner ex_scope_config
    (mkMemory (mkNative {[ ("task", "t1") := extend (ex_task "t1" "new") ex_title ]}) (Some "w1") [] ex_scope_config 0 ∅ ∅)
    None (Some ex_broker)
    (Some (MemoryQueue (mkMemQueue [mkRow "r0" Update "task" "t1" "w1" (Some ex_title) 5] "workspace" false)))
    ex_state false false.

(** The next update of the same row that the broker accepts sends its own
    fields only, but takes every queued update of the row with it: the edit of
    the title is neither on the broker nor queued any more, and the local row
    still shows it. *)
Theorem queued_edit_lost :
  let s' := (Store.update ex_io "task" "t1" {[ "status" := Str "done" ]} Local ex_retained).1 in
  let r := (Store.update ex_io "task" "t1" {[ "status" := Str "done" ]} Local ex_retained).2 in
  r = Ok () ∧
  match si_queue s' with Some (MemoryQueue q) => mq_rows q = [] | _ => False end ∧
  field_of (si_remote s' ≫= λ t, t !! ("task", "t1")) "title" = None ∧
  field_of (mem_table (si_memory s') !! ("task", "t1")) "title" = Some (Str "new title") ∧
  field_of (mem_table (si_memory s') !! ("task", "t1")) "status" = Some (Str "done").
Proof. intros s' r. split_and!; vm_compute; reflexivity. Qed.

(** A connected store without a durable layer, with no scope open yet. *)
Definition ex_volatile : StoreInner (NativeDb TableDb) RemoteTable :=
  mkInner ex_scope_config (mkMemory (mkNative ∅) None [] ex_scope_config 0 ∅ ∅)
    None (Some ex_broker) (Some (MemoryQueue (InMemory.new "workspace")))
    (mkStoreState None false true (Some "ana") Connected true) false false.

(** Without a durable layer, switching to a scope fetches it, reconciles it
    into memory and then swaps in an empty bundle: the broker has a task in the
    scope, the switch succeeds and the scope counts as synced, and memory shows
    nothing of it. *)
Theorem volatile_scope_lost :
  let s' := (Store.replace_scope "w1" ex_volatile).1 in
  let r := (Store.replace_scope "w1" ex_volatile).2 in
  r = Ok () ∧ current_scope (si_state s') = Some "w1" ∧ current_scope_server_synced (si_state s') = true ∧
  is_Some (ex_broker !! ("task", "t1")) ∧ Store.snapshot "task" "w1" s' = Ok [].
Proof. intros s' r. split_and!; [..|by eexists|]; vm_compute; reflexivity. Qed.

(** The broker moves t1 to another scope. *)
Definition ex_moved : SyncMutation :=
  mkSync Update "task" "t1" (Some (<["workspaceId" := Str "w2"]> (ex_task "t1" "new"))) None.

(** A row moved to another scope is moved in the durable layer but stays in
    the cache of the scope it left. *)
Theorem moved_row_stays :
  let s' := (Store.handle_remote_mutation ex_moved (ex_store ex_broker)).1 in
  field_of (durable s' ("task", "t1")) "workspaceId" = Some (Str "w2") ∧
  Store.snapshot "task" "w1" s' = Ok [ex_task "t1" "new"].
Proof. intros s'. split; vm_compute; reflexivity. Qed.

(** The connection drops, another client adds t2 to the open scope, and the
    connection comes back. *)
Definition ex_reconnected : StoreInner (NativeDb TableDb) RemoteTable :=
  let s := (Store.status_step Disconnected (ex_store ex_broker)).1 in
  let s := Store.set_remote (Some {[ ("workspace", "w1") := {[ "id" := Str "w1" ]};
    ("task", "t1") := ex_task "t1" "new"; ("task", "t2") := ex_task "t2" "new" ]}) s in
  (Store.status_step Connected s).1.

(** After a reconnect the durable layer catches up with the broker, but the
    cache of the open scope does not: the scope still counts as synced, so it is
    not loaded again, and reads of it miss what changed in between. *)
Theorem reconnect_leaves_cache_stale :
  let s' := ex_reconnected in
  durable s' ("task", "t2") = Some (ex_task "t2" "new") ∧
  Store.snapshot "task" "w1" s' = Ok [ex_task "t1" "new"] ∧ Store.read "task" "t2" s' = Ok None.
Proof. intros s'. split_and!; vm_compute; reflexivity. Qed.
