(* ===== verification/Facade.v ===== *)
(** * The store handle

    Models the part of store.rs around [StoreInner]: the cell that
    [initialize] fills, the background tasks and the references they hold,
    [shutdown] and [Drop], with the configuration types of config.rs and the
    calls that differ between a native target and a browser. A store handle
    owns its inner through the cell; so does every running loop, so the inners
    and tasks live in a table of their own. An abort takes effect at once: the
    steps of this model are the stretches between two points where a task can
    be stopped. *)
From S2P Require Import Prelude Json Types Backend WasmBackend OfflineQueue StorePersistence PersistentQueue MemoryStore SyncEngine MqttAdapters RemoteSync Store SortRecords StoreLaws ScopeLaws StoreExamples.

(** ** Configuration *)

(** [StoreConfig] with the fields the layers do not read. *)
Record FullConfig := mkFullConfig {
  fc_core : StoreConfig;
  fc_entities : gmap string EntityDefinition;
  fc_local_only_entities : gmap string EntityDefinition;
  fc_event_channel_capacity : Z;
  fc_session_expiry_secs : Z;
  fc_keep_alive_secs : Z;
  fc_clean_start : bool;
  fc_will : option WillConfig;
}.

Definition FullConfig_new (entities : gmap string EntityDefinition) (scope : ScopeConfig) : FullConfig :=
  mkFullConfig (StoreConfig_new scope) entities ∅ 4096 3600 60 false None.

(** [Vec::dedup]. *)
Fixpoint dedup (l : list string) : list string :=
  match l with
  | [] => []
  | x :: l' => match dedup l' with
               | y :: k => if bool_decide (x = y) then y :: k else x :: y :: k
               | [] => [x]
               end
  end.

Definition all_entity_names {HI : HashIter} (c : FullConfig) : list string :=
  dedup (Prelude.sort_by string_le
    (hset_iter (dom (fc_entities c)) ++ hset_iter (dom (fc_local_only_entities c)))).

Record PersistenceConfig := mkPersistenceConfig { pc_db_path : string; pc_passphrase : option string }.

(** [rc_get_ticket]: a ticket provider is configured; what it answers is an
    input of the call that asks it. *)
Record RemoteConfig := mkRemoteConfig {
  rc_server_url : string;
  rc_client_id : option string;
  rc_get_ticket : bool;
  rc_ticket : option string;
  rc_username : option string;
  rc_password : option string;
  rc_request_timeout : Z;
  rc_auto_connect : bool;
}.

Definition RemoteConfig_new (server_url : string) : RemoteConfig :=
  mkRemoteConfig server_url None false None None None 30000 true.

Record StoreOptions := mkOptions { so_persistence : option PersistenceConfig; so_remote : option RemoteConfig }.

Definition StoreOptions_default : StoreOptions := mkOptions None None.

(** ** The target *)

Inductive Target := Native | Wasm32.

#[export] Instance Target_eq_dec : EqDecision Target.
Proof. solve_decision. Defined.

(** The rest of the trait [Db]: [close], and the calls of the browser that do
    not wait. *)
Class DbClose (D : Type) := db_close : D → D.

Class DbSync (D : Type) := {
  db_read_sync : string → string → D → result (option Value) Error;
  db_list_sync : string → list Filter → list SortOrder → list string → D → result (list Value) Error;
  db_count_sync : string → list Filter → D → result nat Error;
}.

(** [mqdb_agent::Database::shutdown]. *)
Class MqShutdown (M : Type) := mq_shutdown : M → M.

#[export] Instance native_close {M} {MS : MqShutdown M} : DbClose (NativeDb M) := λ d, mkNative (mq_shutdown (native_db d)).

#[export] Instance wasm_close {M} : DbClose (WasmDb M) := λ d, d.

#[export] Instance wasm_sync {M J T} {JT : JsText J} {JH : JsHost J T} {ST : SerdeText T} {WD : WasmDatabase M J} : DbSync (WasmDb M) := {|
  db_read_sync := WasmDb.read_sync;
  db_list_sync e filters sort projection := WasmDb.list_sync e filters sort None projection;
  db_count_sync := WasmDb.count_sync;
|}.

(** What the outside answers while a store opens: the database on disk, the
    remote layer, and the ticket provider. [env_connect] is
    [RemoteSyncLayer::connect]. *)
Record Env (D R : Type) := mkEnv {
  env_persistence : PersistenceConfig → StoreConfig → result (PersistenceLayer D) Error;
  env_remote : string → StoreConfig → result R Error;
  env_ticket : result string Error;
  env_connect : string → option string → option string → option string → action R Error ();
}.
Arguments mkEnv {D R}.
Arguments env_persistence {D R}.
Arguments env_remote {D R}.
Arguments env_ticket {D R}.
Arguments env_connect {D R}.

(** ** Inners and tasks *)

(** A forwarder feeds one receiver; the loops hold the inner. *)
Inductive TaskKind := MutationLoop | StatusLoop | FlushLoop | Forwarder.

#[export] Instance TaskKind_eq_dec : EqDecision TaskKind.
Proof. solve_decision. Defined.

Definition holds_inner (k : TaskKind) : bool := match k with Forwarder => false | _ => true end.

(** [rn_tasks]: the handles kept in [StoreInner::tasks], by task id;
    [rn_running]: the tasks that were spawned for it and have not ended. *)
Record Running (D R : Type) := mkRunning {
  rn_inner : StoreInner D R;
  rn_tasks : list nat;
  rn_running : gmap nat TaskKind;
}.
Arguments mkRunning {D R}.
Arguments rn_inner {D R}.
Arguments rn_tasks {D R}.
Arguments rn_running {D R}.

Record Facade (D R : Type) := mkFacade {
  fa_config : FullConfig;
  fa_options : StoreOptions;
  fa_client_id : string;
  fa_cell : option nat;
  fa_dropped : bool;
  fa_inners : gmap nat (Running D R);
  fa_next : nat;
}.
Arguments mkFacade {D R}.
Arguments fa_config {D R}.
Arguments fa_options {D R}.
Arguments fa_client_id {D R}.
Arguments fa_cell {D R}.
Arguments fa_dropped {D R}.
Arguments fa_inners {D R}.
Arguments fa_next {D R}.

Module Handle.
Section handle.
Context {D R : Type} {DB : Db D} {DC : DbClose D} {DS : DbSync D} {RO : RemoteOps R} {HI : HashIter} (target : Target).
Abbreviation Inner := (StoreInner D R).
Implicit Types (w : Facade D R) (n : Running D R).

Definition set_inners (m : gmap nat (Running D R)) w : Facade D R :=
  mkFacade (fa_config w) (fa_options w) (fa_client_id w) (fa_cell w) (fa_dropped w) m (fa_next w).
Definition put i n w : Facade D R := set_inners (<[i := n]> (fa_inners w)) w.
Definition set_cell (cell : option nat) w : Facade D R :=
  mkFacade (fa_config w) (fa_options w) (fa_client_id w) cell (fa_dropped w) (fa_inners w) (fa_next w).
Definition set_next (next : nat) w : Facade D R :=
  mkFacade (fa_config w) (fa_options w) (fa_client_id w) (fa_cell w) (fa_dropped w) (fa_inners w) next.

Definition with_client_id (config : FullConfig) (options : StoreOptions) (client_id : string) : Facade D R :=
  mkFacade config options client_id None false ∅ 0.

(** [id] is the fresh id. *)
Definition new (config : FullConfig) (options : StoreOptions) (id : string) : Facade D R :=
  with_client_id config options id.

Definition inner w : result nat Error := ok_or (fa_cell w) NotInitialized.

(** A call on the opened inner. *)
Definition call {A} (m : action Inner Error A) : action (Facade D R) Error A := λ w,
  match fa_cell w ≫= λ i, n ← fa_inners w !! i; Some (i, n) with
  | None => (w, Err NotInitialized)
  | Some (i, n) => let '(s, r) := m (rn_inner n) in (put i (mkRunning s (rn_tasks n) (rn_running n)) w, r)
  end.

Definition ask {A} (f : Inner → result A Error) w : result A Error :=
  match fa_cell w ≫= (fa_inners w !!.) with None => Err NotInitialized | Some n => f (rn_inner n) end.

(** ** Opening *)

Definition ticket_of (cfg : RemoteConfig) (answer : result string Error) : result (option string) Error :=
  match target with
  | Native => if rc_get_ticket cfg then let? t := answer in Ok (Some t) else Ok (rc_ticket cfg)
  | Wasm32 => Ok (rc_ticket cfg)
  end.

(** The loops of a store with a remote. *)
Definition loops (next : nat) : list (nat * TaskKind) :=
  [(next, MutationLoop); (S next, StatusLoop); (S (S next), FlushLoop)].

(** [broadcast::channel] panics on a capacity of zero, or of more than half of
    the address range. *)
Definition channel_ok (capacity : Z) : bool :=
  (0 <? capacity)%Z && (capacity <=? Z.shiftr (match target with Native => u64_max | Wasm32 => u32_max end) 1)%Z.

(** [StoreInner::open]; no answer when the channel of the memory store cannot
    be built. The last result is that of the call, with the place of the inner. *)
Definition open (env : Env D R) w : option (Facade D R * result nat Error) :=
  let config := fa_config w in
  if is_ok (MemoryStore.new (D := D) (fc_core config)) && negb (channel_ok (fc_event_channel_capacity config)) then None else
  match Store.open (fc_core config)
          ((λ pcfg, env_persistence env pcfg (fc_core config)) <$> so_persistence (fa_options w))
          ((λ _, env_remote env (fa_client_id w) (fc_core config)) <$> so_remote (fa_options w)) with
  | Err e => Some (w, Err e)
  | Ok s =>
    let i := fa_next w in
    match si_remote s, so_remote (fa_options w) with
    | Some _, Some remote_cfg =>
      let spawned := loops (S i) in
      let started s := set_next (i + 4) (put i (mkRunning s (spawned.*1) (list_to_map spawned)) w) in
      if rc_auto_connect remote_cfg then
        match ticket_of remote_cfg (env_ticket env) with
        | Err e => Some (started s, Err e)
        | Ok ticket =>
          let '(s, _) := Store.on_remote (env_connect env (rc_server_url remote_cfg) ticket
            (rc_username remote_cfg) (rc_password remote_cfg)) s in
          Some (started s, Ok i)
        end
      else Some (started s, Ok i)
    | _, _ => Some (set_next (S i) (put i (mkRunning s [] ∅) w), Ok i)
    end
  end.

(** [get_or_try_init]: opens only when the cell is empty, and fills it only
    when that succeeds. *)
Definition initialize (env : Env D R) w : option (Facade D R * result () Error) :=
  match fa_cell w with
  | Some _ => Some (w, Ok ())
  | None =>
    '(w, r) ← open env w;
    match r with
    | Ok i => Some (set_cell (Some i) w, Ok ())
    | Err e => Some (w, Err e)
    end
  end.

Definition ready w : bool := bool_decide (is_Some (fa_cell w)).

(** ** What the calls answer *)

Definition has_persistence : Facade D R → result bool Error :=
  ask (λ s, Ok (match si_persistence s with Some _ => true | None => false end)).
Definition has_remote : Facade D R → result bool Error :=
  ask (λ s, Ok (match si_remote s with Some _ => true | None => false end)).
Definition connection_status : Facade D R → result ConnectionStatus Error :=
  ask (λ s, Ok (last_connection_status (si_state s))).
Definition current_scope : Facade D R → result (option string) Error := ask (λ s, Ok (Store.current_scope (si_state s))).
Definition initial_sync_done : Facade D R → result bool Error := ask (λ s, Ok (Store.initial_sync_done (si_state s))).
Definition is_reconnecting : Facade D R → result bool Error := ask (λ s, Ok (Store.is_reconnecting s)).

(** [read_sync], [list_sync] and [count_sync] of memory_store.rs. *)
Definition memory_read_sync (entity id : string) (m : MemoryStore D) : result (option Record_) Error :=
  let? found := db_read_sync entity id (ms_db m) in
  match found with
  | Some value => let? record := value_to_record value in Ok (Some record)
  | None => Ok None
  end.

Definition memory_list_sync (entity scope_id : string) (m : MemoryStore D) : result (list Record_) Error :=
  let? values := db_list_sync entity (MemoryStore.list_filters (ms_config m) entity scope_id) [] [] (ms_db m) in
  collect (value_to_record <$> values).

Definition memory_count_sync (entity scope_id : string) (m : MemoryStore D) : result nat Error :=
  db_count_sync entity (MemoryStore.list_filters (ms_config m) entity scope_id) (ms_db m).

Definition read_sync (entity id : string) : Facade D R → result (option Record_) Error :=
  ask (λ s, memory_read_sync entity id (si_memory s)).
Definition snapshot_sync (entity scope_id : string) : Facade D R → result (list Record_) Error :=
  ask (λ s, memory_list_sync entity scope_id (si_memory s)).
Definition child_count_sync (entity scope_id : string) : Facade D R → result nat Error :=
  ask (λ s, memory_count_sync entity scope_id (si_memory s)).

(** No answer when sorting the rows panics. *)
Definition list_root_entities (sort : list Store.SortField) w : option (result (list Record_) Error) :=
  match target with
  | Native => Some (ask (Store.list_root_entities sort) w)
  | Wasm32 =>
    match fa_cell w ≫= (fa_inners w !!.) with
    | None => Some (Err NotInitialized)
    | Some n =>
      let s := rn_inner n in
      let root := root_entity (scope (si_config s)) in
      match si_persistence s with
      | Some persistence => Some (PersistenceLayer.list root [] (Store.sort_fields_to_orders sort) persistence)
      | None =>
        match MemoryStore.list root "" (si_memory s) with
        | Err e => Some (Err e)
        | Ok rows => rows ← sort_records rows sort; Some (Ok rows)
        end
      end
    end
  end.

Definition close_scope (scope_id : string) : action (Facade D R) Error () :=
  call (match target with
        | Native => Store.close_scope scope_id
        | Wasm32 => amodify (λ s, if bool_decide (Store.current_scope (si_state s) = Some scope_id)
                                  then Store.set_current_scope None s else s)
        end).

Definition reset_for_logout : action (Facade D R) Error () :=
  call (match target with
        | Native => Store.reset_for_logout
        | Wasm32 =>
          amodify (λ s, Store.set_state
            (mkStoreState None (current_scope_server_synced (si_state s)) false None Offline false) s) ;;
          amodify (Store.queue_set_user None)
        end).

(** ** Tasks *)

(** [JoinHandle::is_finished] and [abort] of rt.rs. *)
Definition is_finished n (h : nat) : bool :=
  match target with Native => bool_decide (rn_running n !! h = None) | Wasm32 => false end.

Definition abort (running : gmap nat TaskKind) (h : nat) : gmap nat TaskKind :=
  match target with Native => delete h running | Wasm32 => running end.

Definition abort_all (handles : list nat) (running : gmap nat TaskKind) : gmap nat TaskKind :=
  foldl abort running handles.

(** [spawn_filtered_forwarder]: the task, and its handle. *)
Definition spawn_forwarder : action (Facade D R) Error nat := λ w,
  match fa_cell w ≫= λ i, n ← fa_inners w !! i; Some (i, n) with
  | None => (w, Err NotInitialized)
  | Some (i, n) =>
    let t := fa_next w in
    let n := mkRunning (rn_inner n) (rn_tasks n) (<[t := Forwarder]> (rn_running n)) in
    let tasks := filter (λ h, is_finished n h = false) (rn_tasks n) ++ [t] in
    (set_next (S t) (put i (mkRunning (rn_inner n) tasks (rn_running n)) w), Ok t)
  end.

(** A forwarder per bus. *)
Definition subscribe_entity (_entity : string) : action (Facade D R) Error (list nat) :=
  let! persistent := λ w, (w, has_persistence w) in
  let! t := spawn_forwarder in
  if persistent then let! t' := spawn_forwarder in aret [t; t'] else aret [t].

Definition subscribe_scope_entity (_scope_id _entity : string) : action (Facade D R) Error (list nat) :=
  let! t := spawn_forwarder in aret [t].

(** ** The end *)

Definition close_persistence (s : Inner) : Inner :=
  match si_persistence s with
  | Some p => Store.set_persistence (Some (PersistenceLayer.set_db p (db_close (pl_db p)))) s
  | None => s
  end.

Definition shutdown : action (Facade D R) Error () := λ w,
  match fa_cell w ≫= λ i, n ← fa_inners w !! i; Some (i, n) with
  | None => (w, Ok ())
  | Some (i, n) =>
    let s := match target with Native => (Store.disconnect (rn_inner n)).1 | Wasm32 => rn_inner n end in
    let s := close_persistence s in
    (put i (mkRunning s [] (abort_all (rn_tasks n) (rn_running n))) w, Ok ())
  end.

(** The handle goes; its inner stays while a loop holds it. *)
Definition drop_store w : Facade D R :=
  mkFacade (fa_config w) (fa_options w) (fa_client_id w) None true (fa_inners w) (fa_next w).

Definition referenced w (i : nat) n : bool :=
  bool_decide (fa_cell w = Some i) || existsb (λ t, holds_inner t.2) (map_to_list (rn_running n)).

(** The last reference goes: [Drop for StoreInner] aborts the tasks, and the
    buses close, which ends the forwarders. *)
Definition reclaim (i : nat) w : Facade D R :=
  match fa_inners w !! i with
  | Some n => if referenced w i n then w else set_inners (delete i (fa_inners w)) w
  | None => w
  end.

(** ** Steps of the system *)

(** [Call]: some call of the store on its inner. [Turn]: a loop that runs
    takes a step; on a native target a forwarder ends once its receiver is
    gone, in a browser as well. *)
Inductive event :=
| Initialize (env : Env D R)
| Call (m : action Inner Error ())
| Subscribe
| ReceiverGone (i t : nat)
| Turn (i t : nat) (m : action Inner Error ())
| Shutdown
| DropStore
| Reclaim (i : nat).

Definition turn (i t : nat) (m : action Inner Error ()) w : option (Facade D R) :=
  n ← fa_inners w !! i;
  k ← rn_running n !! t;
  if holds_inner k then Some (put i (mkRunning (m (rn_inner n)).1 (rn_tasks n) (rn_running n)) w) else None.

Definition receiver_gone (i t : nat) w : option (Facade D R) :=
  n ← fa_inners w !! i;
  k ← rn_running n !! t;
  if holds_inner k then None else Some (put i (mkRunning (rn_inner n) (rn_tasks n) (delete t (rn_running n))) w).

(** No call reaches a store that was dropped. *)
Definition step (e : event) w : option (Facade D R) :=
  match e with
  | Initialize env => if fa_dropped w then None else '(w, _) ← initialize env w; Some w
  | Call m => if fa_dropped w then None else Some (call m w).1
  | Subscribe => if fa_dropped w then None else Some (spawn_forwarder w).1
  | ReceiverGone i t => receiver_gone i t w
  | Turn i t m => turn i t m w
  | Shutdown => if fa_dropped w then None else Some (shutdown w).1
  | DropStore => if fa_dropped w then None else Some (drop_store w)
  | Reclaim i => Some (reclaim i w)
  end.

Fixpoint run (es : list event) w : option (Facade D R) :=
  match es with [] => Some w | e :: es => w ← step e w; run es w end.
End handle.
End Handle.

(** ** Who keeps a store alive *)

(** The inner in the cell. *)
Abbreviation opened w := (fa_cell w ≫= λ i, n ← fa_inners w !! i; Some (i, n)).

Section lifetimes.
Context {D R : Type} {DB : Db D} {DC : DbClose D} {RO : RemoteOps R} {HI : HashIter} (target : Target).
Implicit Types (w : Facade D R) (n : Running D R).

(** Ids are handed out in order; on a native target every running task is
    within reach of a handle. *)
Record wf w : Prop := {
  wf_cell i : fa_cell w = Some i → is_Some (fa_inners w !! i);
  wf_inner i n : fa_inners w !! i = Some n → i < fa_next w;
  wf_task i n t : fa_inners w !! i = Some n → is_Some (rn_running n !! t) → t < fa_next w;
  wf_covered i n t : target = Native → fa_inners w !! i = Some n → is_Some (rn_running n !! t) → t ∈ rn_tasks n;
}.

Lemma new_wf config options id : wf (Handle.new config options id).
Proof. split; simpl; intros; simplify_map_eq. Qed.

(** The cases of [open]. *)
Lemma open_cases env w w' r :
  Handle.open target env w = Some (w', r) →
  (w' = w ∧ ∃ e, r = Err e) ∨
  ∃ s tasks running k, w' = Handle.set_next k (Handle.put (fa_next w) (mkRunning s tasks running) w) ∧
    fa_next w < k ∧ (∀ t, is_Some (running !! t) → t ∈ tasks) ∧ (∀ t, t ∈ tasks → fa_next w < t < k) ∧
    (r = Ok (fa_next w) ∨ ∃ e, r = Err e).
Proof.
  unfold Handle.open. destruct (is_ok _ && _); [done|]. destruct (Store.open _ _ _) as [s|e].
  2:{ intros [= <- <-]. left. eauto. }
  set (i := fa_next w).
  assert (Hloops : ∀ t, is_Some ((list_to_map (Handle.loops (S i)) : gmap nat TaskKind) !! t) → t ∈ (Handle.loops (S i)).*1).
  { intros t [k Hk]. apply elem_of_list_to_map_2 in Hk. apply list_elem_of_fmap. by exists (t, k). }
  assert (Hrange : ∀ t, t ∈ (Handle.loops (S i)).*1 → i < t < i + 4).
  { intros t. simpl. rewrite !elem_of_cons. intros [->|[->|[->|[]%elem_of_nil]]]; lia. }
  assert (Hnone : Some (Handle.set_next (S i) (Handle.put i (mkRunning s [] ∅) w), Ok i) = Some (w', r) →
    ∃ s tasks running k, w' = Handle.set_next k (Handle.put i (mkRunning s tasks running) w) ∧
    i < k ∧ (∀ t, is_Some (running !! t) → t ∈ tasks) ∧ (∀ t, t ∈ tasks → i < t < k) ∧ (r = Ok i ∨ ∃ e, r = Err e)).
  { intros [= <- <-]. exists s, [], ∅, (S i). split_and!; [done|lia| | |by left].
    - intros t [k Hk]. by rewrite lookup_empty in Hk.
    - by intros t ?%elem_of_nil. }
  intros H. right. destruct (si_remote s) as [rem|]; [|by apply Hnone].
  destruct (so_remote (fa_options w)) as [cfg|]; [|by apply Hnone]. clear Hnone.
  assert (Hres : ∃ s r', (w', r) = (Handle.set_next (i + 4) (Handle.put i
    (mkRunning s (Handle.loops (S i)).*1 (list_to_map (Handle.loops (S i)))) w), r') ∧ (r' = Ok i ∨ ∃ e, r' = Err e)).
  { destruct (rc_auto_connect cfg); [|injection H as <- <-; eauto 6].
    destruct (Handle.ticket_of _ _ _) as [ticket|e]; [|injection H as <- <-; eauto 6].
    destruct (Store.on_remote _ s) as [s' ?]. injection H as <- <-. eauto 6. }
  destruct Hres as (s' & r' & [= -> ->] & Hr). exists s', (Handle.loops (S i)).*1, (list_to_map (Handle.loops (S i))), (i + 4).
  split_and!; [done|lia|done|done|done].
Qed.

Lemma opened_Some w i n : opened w = Some (i, n) ↔ fa_cell w = Some i ∧ fa_inners w !! i = Some n.
Proof.
  destruct (fa_cell w) as [j|]; simpl; [|naive_solver]. destruct (fa_inners w !! j) as [m|] eqn:E; simpl; naive_solver.
Qed.

Lemma abort_native handles (running : gmap nat TaskKind) t k :
  Handle.abort_all Native handles running !! t = Some k ↔ running !! t = Some k ∧ t ∉ handles.
Proof.
  unfold Handle.abort_all. revert running. induction handles as [|h handles IH]; intros running; simpl.
  - set_solver.
  - rewrite IH. simpl. rewrite lookup_delete_Some, elem_of_cons. naive_solver.
Qed.

Lemma abort_wasm handles (running : gmap nat TaskKind) : Handle.abort_all Wasm32 handles running = running.
Proof. unfold Handle.abort_all. by induction handles. Qed.

Lemma abort_sub handles (running : gmap nat TaskKind) t : is_Some (Handle.abort_all target handles running !! t) → is_Some (running !! t).
Proof. intros [k Hk]. destruct target; [apply abort_native in Hk as [Hk _]|rewrite abort_wasm in Hk]; by exists k. Qed.

(** ** What a step does to the table of inners *)

(** The same loops run. *)
Definition same_loops (ts ts' : gmap nat TaskKind) : Prop :=
  ∀ t k, holds_inner k = true → ts !! t = Some k ↔ ts' !! t = Some k.

Definition covered n : Prop := ∀ t, is_Some (rn_running n !! t) → t ∈ rn_tasks n.

Inductive effect (e : Handle.event (D := D) (R := R)) w w' : Prop :=
| eff_none :
    fa_inners w' = fa_inners w → fa_next w' = fa_next w → (fa_cell w' = fa_cell w ∨ fa_cell w' = None) → effect e w w'
| eff_fresh n :
    fa_inners w' = <[fa_next w := n]> (fa_inners w) → fa_next w < fa_next w' →
    (fa_cell w' = fa_cell w ∨ fa_cell w' = Some (fa_next w)) →
    covered n → (∀ t, t ∈ rn_tasks n → t < fa_next w') → effect e w w'
| eff_put j n n' :
    fa_inners w !! j = Some n → fa_inners w' = <[j := n']> (fa_inners w) → fa_cell w' = fa_cell w → fa_next w ≤ fa_next w' →
    (∀ t, is_Some (rn_running n' !! t) → is_Some (rn_running n !! t) ∨ fa_next w = t ∧ t < fa_next w') →
    (target = Native → covered n → covered n') →
    ((∀ t, is_Some (rn_running n !! t) → t < fa_next w) → same_loops (rn_running n) (rn_running n') ∨
      target = Native ∧ fa_cell w = Some j ∧ e = Handle.Shutdown ∧ ∀ t k, rn_running n' !! t = Some k → rn_running n !! t = Some k) →
    effect e w w'
| eff_gone j n :
    fa_inners w !! j = Some n → Handle.referenced w j n = false → fa_inners w' = delete j (fa_inners w) →
    fa_cell w' = fa_cell w → fa_next w' = fa_next w → effect e w w'.

Lemma effect_refl e w : effect e w w.
Proof. apply eff_none; auto. Qed.

(** A call or a turn changes the state of an inner only. *)
Lemma effect_state e w j n s :
  fa_inners w !! j = Some n → effect e w (Handle.put j (mkRunning s (rn_tasks n) (rn_running n)) w).
Proof. intros Hn. eapply eff_put; [exact Hn|done|done|done|by left|done|]. intros _. by left. Qed.

Lemma spawn_effect e w : effect e w (Handle.spawn_forwarder target w).1.
Proof.
  unfold Handle.spawn_forwarder. destruct (opened w) as [[i n]|] eqn:E; [|apply effect_refl]. apply opened_Some in E as [_ Hn].
  eapply eff_put; [exact Hn|done|done|simpl; lia| | |].
  - simpl. intros t Ht. destruct (decide (fa_next w = t)); [right; lia|]. rewrite lookup_insert_ne in Ht by done. by left.
  - intros Hnat Hcov t Hr. simpl in *. apply elem_of_app.
    destruct (decide (fa_next w = t)) as [<-|Hne]; [right; set_solver|]. left. rewrite lookup_insert_ne in Hr by done.
    apply list_elem_of_filter. split; [|by apply Hcov]. unfold Handle.is_finished. rewrite Hnat. simpl.
    rewrite lookup_insert_ne by done. apply bool_decide_eq_false. by destruct Hr as [? ->].
  - intros Hlt. left. intros t k Hk. simpl. destruct (decide (fa_next w = t)) as [<-|]; [|by rewrite lookup_insert_ne].
    rewrite lookup_insert_eq. split; [|by intros [= <-]]. intros Hx. specialize (Hlt _ (mk_is_Some _ _ Hx)). lia.
Qed.

Lemma shutdown_effect w : effect Handle.Shutdown w (Handle.shutdown target w).1.
Proof.
  unfold Handle.shutdown. destruct (opened w) as [[i n]|] eqn:E; [|apply effect_refl]. apply opened_Some in E as [Hc Hn].
  eapply eff_put; [exact Hn|done|done|done| | |]; simpl.
  - intros t Ht. left. by eapply abort_sub.
  - intros -> Hcov t [k Hk]. apply abort_native in Hk as [Hk Hni]. by destruct Hni; apply Hcov; exists k.
  - intros _. destruct target; [right|left; intros t k _; by rewrite abort_wasm].
    split_and!; [done..|]. intros t k Ht. by apply abort_native in Ht as [? _].
Qed.

Lemma initialize_effect e env w w' r : Handle.initialize target env w = Some (w', r) → effect e w w'.
Proof.
  unfold Handle.initialize. destruct (fa_cell w) eqn:Hc; [intros [= <- _]; apply effect_refl|].
  destruct (Handle.open target env w) as [[w2 r2]|] eqn:Eo; [|done]. simpl.
  apply open_cases in Eo as [[-> [e' ->]]|(s & ts & rn & k & -> & Hk & Hcov & Hts & Hr)]; [intros [= <- _]; apply effect_refl|].
  assert (Hlt : ∀ t, t ∈ ts → t < k) by (intros t Ht; apply Hts in Ht; lia).
  destruct Hr as [->|[e' ->]]; intros [= <- _]; (eapply eff_fresh; [done|done| |done|done]); auto.
Qed.

Lemma step_effect e w w' : Handle.step target e w = Some w' → effect e w w'.
Proof.
  destruct e as [env|m| |j t|j t m| | |j]; simpl.
  - destruct (fa_dropped w); [done|]. destruct (Handle.initialize target env w) as [[w1 r]|] eqn:E; [|done].
    intros [= <-]. by eapply initialize_effect.
  - destruct (fa_dropped w); [done|]. intros [= <-]. unfold Handle.call. destruct (opened w) as [[j n]|] eqn:E; [|apply effect_refl].
    apply opened_Some in E as [_ Hj]. destruct (m (rn_inner n)) as [s r]. by apply effect_state.
  - destruct (fa_dropped w); [done|]. intros [= <-]. apply spawn_effect.
  - unfold Handle.receiver_gone. destruct (fa_inners w !! j) as [n|] eqn:Hj; [|done]. simpl.
    destruct (rn_running n !! t) as [k|] eqn:Hk; [|done]. simpl. destruct (holds_inner k) eqn:Hh; [done|]. intros [= <-].
    eapply eff_put; [exact Hj|done|done|done| | |]; simpl.
    + intros t' [k' [_ Hk']%lookup_delete_Some]. left. by exists k'.
    + intros _ Hcov t' [k' Hk']. simpl in Hk'. apply lookup_delete_Some in Hk' as [_ Hk']. apply Hcov. by exists k'.
    + intros _. left. intros t' k' Hk'. rewrite lookup_delete_Some. split; [|by intros [_ ?]].
      intros Hx. split; [|done]. intros <-. congruence.
  - unfold Handle.turn. destruct (fa_inners w !! j) as [n|] eqn:Hj; [|done]. simpl.
    destruct (rn_running n !! t) as [k|]; [|done]. simpl. destruct (holds_inner k); [|done]. intros [= <-]. by apply effect_state.
  - destruct (fa_dropped w); [done|]. intros [= <-]. apply shutdown_effect.
  - destruct (fa_dropped w); [done|]. intros [= <-]. apply eff_none; auto.
  - intros [= <-]. unfold Handle.reclaim. destruct (fa_inners w !! j) as [n|] eqn:Hj; [|apply effect_refl].
    destruct (Handle.referenced w j n) eqn:Hr; [apply effect_refl|]. by eapply eff_gone.
Qed.

Lemma effect_wf e w w' : effect e w w' → wf w → wf w'.
Proof.
  intros [Hin Hnx Hcell|n Hin Hnx Hcell Hcov Hts|j n n' Hj Hin Hcell Hnx Hrun Hcov _|j n Hj Href Hin Hcell Hnx] [Hc Hi Ht Hv]; split; rewrite Hin;
    rewrite ?Hnx; try done.
  - intros i Hi'. apply Hc. destruct Hcell; congruence.
  - intros i Hi'. destruct (decide (fa_next w = i)) as [->|Hne]; [by rewrite lookup_insert_eq|]. rewrite lookup_insert_ne by done.
    apply Hc. destruct Hcell; congruence.
  - intros i m Hm. apply lookup_insert_Some in Hm as [[<- _]|[_ Hm]]; [done|]. apply Hi in Hm. lia.
  - intros i m t Hm Hr. apply lookup_insert_Some in Hm as [[<- <-]|[_ Hm]]; [by apply Hts, Hcov|]. specialize (Ht i m t Hm Hr). lia.
  - intros i m t Hnat Hm Hr. apply lookup_insert_Some in Hm as [[<- <-]|[_ Hm]]; [by apply Hcov|by eapply Hv].
  - intros i Hi'. destruct (decide (j = i)) as [->|Hne]; [by rewrite lookup_insert_eq|]. rewrite lookup_insert_ne by done.
    apply Hc. congruence.
  - intros i m Hm. apply lookup_insert_Some in Hm as [[<- _]|[_ Hm]]; [apply Hi in Hj; lia|]. apply Hi in Hm. lia.
  - intros i m t Hm Hr. apply lookup_insert_Some in Hm as [[<- <-]|[_ Hm]]; [|specialize (Ht i m t Hm Hr); lia].
    apply Hrun in Hr as [Hr|[_ ?]]; [|done]. specialize (Ht j n t Hj Hr). lia.
  - intros i m t Hnat Hm Hr. apply lookup_insert_Some in Hm as [[<- <-]|[_ Hm]]; [|by eapply Hv].
    apply (Hcov Hnat); [|done]. intros t'. by apply (Hv j n).
  - apply orb_false_iff in Href as [Href _]. apply bool_decide_eq_false in Href.
    intros i Hi'. rewrite lookup_delete_ne by congruence. apply Hc. congruence.
  - intros i m [_ Hm]%lookup_delete_Some. by eapply Hi.
  - intros i m t [_ Hm]%lookup_delete_Some. by eapply Ht.
  - intros i m t Hnat [_ Hm]%lookup_delete_Some. by eapply Hv.
Qed.

Lemma run_ind (P : Facade D R → Prop) es w w' :
  (∀ e w w', Handle.step target e w = Some w' → wf w → P w → P w') → Handle.run target es w = Some w' → wf w → P w → wf w' ∧ P w'.
Proof.
  intros Hstep. revert w. induction es as [|e es IH]; intros w; simpl; [by intros [= ->]|].
  destruct (Handle.step target e w) as [w1|] eqn:E; [|done]. simpl. intros H Hwf HP. eapply IH; [done| |by eapply Hstep].
  by eapply effect_wf; [eapply step_effect|].
Qed.

Lemma run_wf es w w' : Handle.run target es w = Some w' → wf w → wf w'.
Proof. intros H Hwf. by eapply (run_ind (λ _, True)). Qed.

(** ** Loops that nothing ends, loops that nothing starts *)

(** The inner [i] is out of reach of the handle, or in a browser, and [ts]
    run for it. *)
Definition orphaned (i : nat) (ts : gmap nat TaskKind) w : Prop :=
  i < fa_next w ∧ (target = Wasm32 ∨ fa_cell w ≠ Some i) ∧ ∃ n, fa_inners w !! i = Some n ∧ same_loops ts (rn_running n).

Lemma step_orphaned i ts e w w' :
  (∃ t k, ts !! t = Some k ∧ holds_inner k = true) → Handle.step target e w = Some w' → wf w → orphaned i ts w → orphaned i ts w'.
Proof.
  intros (t & k & Ht & Hk) H Hwf (Hlt & Hc & n & Hn & Hs).
  destruct (step_effect _ _ _ H) as [Hin Hnx Hcell|m Hin Hnx Hcell Hcov Hts|j m m' Hj Hin Hcell Hnx _ _ Hl|j m Hj Href Hin Hcell Hnx].
  - split_and!; [by rewrite Hnx|destruct Hc, Hcell; (by left) || (right; congruence)|exists n; by rewrite Hin].
  - split_and!; [lia| |exists n; rewrite Hin, lookup_insert_ne by lia; done].
    destruct Hc as [|Hc]; [by left|right]. destruct Hcell as [Hcell|Hcell]; rewrite Hcell; [done|]. intros [= ?]. lia.
  - split_and!; [lia|by rewrite Hcell|]. rewrite Hin. destruct (decide (j = i)) as [->|]; [|exists n; by rewrite lookup_insert_ne].
    rewrite lookup_insert_eq. exists m'. split; [done|]. assert (m = n) as -> by congruence.
    destruct Hl as [Hl|(? & ? & _)]; [intros t'; by eapply (wf_task _ Hwf)| |by destruct Hc; congruence].
    intros t' k' Hk'. by rewrite (Hs t' k'), (Hl t' k').
  - split_and!; [by rewrite Hnx|by rewrite Hcell|]. rewrite Hin. destruct (decide (j = i)) as [->|]; [|exists n; by rewrite lookup_delete_ne].
    assert (m = n) as -> by congruence. apply orb_false_iff in Href as [_ Href].
    assert (existsb (λ t, holds_inner t.2) (map_to_list (rn_running n)) = true); [|congruence].
    apply existsb_exists. exists (t, k). split; [|done]. apply list_elem_of_In, elem_of_map_to_list. by apply Hs.
Qed.

(** No loop runs for the inner [i], and none will. *)
Definition quiet (i : nat) w : Prop :=
  i < fa_next w ∧ ∀ n t k, fa_inners w !! i = Some n → rn_running n !! t = Some k → holds_inner k = false.

Lemma step_stays_quiet i e w w' : Handle.step target e w = Some w' → wf w → quiet i w → quiet i w'.
Proof.
  intros H Hwf [Hlt Hq].
  destruct (step_effect _ _ _ H) as [Hin Hnx _|m Hin Hnx _ _ _|j m m' Hj Hin _ Hnx _ _ Hl|j m Hj _ Hin _ Hnx]; (split; [lia|]); rewrite Hin.
  - done.
  - intros n t k. rewrite lookup_insert_ne by lia. apply Hq.
  - intros n t k Hn Hk. apply lookup_insert_Some in Hn as [[<- <-]|[_ Hn]]; [|by eapply Hq].
    destruct (holds_inner k) eqn:Hh; [|done]. rewrite <-Hh. apply (Hq m t); [done|].
    destruct Hl as [Hl|(_ & _ & _ & Hl)]; [intros t'; by eapply (wf_task _ Hwf)|by apply Hl|by apply Hl].
  - intros n t k [_ Hn]%lookup_delete_Some. by apply Hq.
Qed.
End lifetimes.

(** ** The handle's contract *)

Section contract.
Context {D R : Type} {DB : Db D} {DC : DbClose D} {RO : RemoteOps R} {HI : HashIter}.
Implicit Types (w : Facade D R) (n : Running D R).

(** C25: The end of a native store. After any run, shutting the store down
    disconnects the remote, closes the durable layer and ends every task of its
    inner; whatever happens next, no loop takes a turn on that inner again, and
    once the handle is dropped the inner goes too. *)
Theorem shutdown_stops config options id es w i n :
  Handle.run Native es (Handle.new config options id) = Some w → fa_cell w = Some i → fa_inners w !! i = Some n →
  let w1 := (Handle.shutdown Native w).1 in
  (Handle.shutdown Native w).2 = Ok () ∧
  (∃ n1, fa_inners w1 !! i = Some n1 ∧ rn_running n1 = ∅ ∧
     rn_inner n1 = Handle.close_persistence (Store.disconnect (rn_inner n)).1) ∧
  (∀ es' w2 t m, Handle.run Native es' w1 = Some w2 → Handle.turn i t m w2 = None) ∧
  fa_inners (Handle.reclaim i (Handle.drop_store w1)) !! i = None.
Proof.
  intros Hrun Hc Hn w1. pose proof (run_wf Native _ _ _ Hrun (new_wf Native _ _ _)) as Hwf.
  assert (Ho : opened w = Some (i, n)) by by apply opened_Some.
  assert (Hempty : Handle.abort_all Native (rn_tasks n) (rn_running n) = ∅).
  { apply map_empty. intros t. apply eq_None_not_Some. intros [k [Hk Hni]%abort_native]. apply Hni.
    eapply (wf_covered Native); [done..|by exists k]. }
  assert (Hw1 : fa_inners w1 !! i = Some (mkRunning (Handle.close_persistence (Store.disconnect (rn_inner n)).1) [] ∅)).
  { unfold w1, Handle.shutdown. rewrite Ho. simpl. by rewrite Hempty, lookup_insert_eq. }
  assert (Hwf1 : wf Native w1) by (eapply effect_wf; [apply shutdown_effect|done]).
  split_and!.
  - unfold Handle.shutdown. by rewrite Ho.
  - eexists. by split_and!.
  - intros es' w2 t m Hrun'.
    destruct (run_ind Native (quiet i) es' w1 w2) as [_ [_ Hq]]; [intros ???; apply step_stays_quiet|done|done| |].
    + split; [by eapply (wf_inner Native)|]. intros n' t' k Hn'. rewrite Hw1 in Hn'. injection Hn' as <-. done.
    + unfold Handle.turn. destruct (fa_inners w2 !! i) as [n2|] eqn:E2; [|done]. simpl.
      destruct (rn_running n2 !! t) as [k|] eqn:Ek; [|done]. simpl. by rewrite (Hq n2 t k eq_refl Ek).
  - unfold Handle.reclaim, Handle.drop_store, Handle.referenced. simpl. rewrite Hw1. simpl. rewrite map_to_list_empty. simpl.
    by rewrite lookup_delete_eq.
Qed.

(** Loops outlive the handle. A loop of an inner that is not the one in the
    cell (the handle was dropped, or opening failed after the loops were
    started), or any loop in a browser, runs on whatever happens, shutting
    down and dropping the store included. *)
Theorem loops_outlive_handle target config options id es es' w w' i n t k :
  Handle.run target es (Handle.new config options id) = Some w → fa_inners w !! i = Some n →
  rn_running n !! t = Some k → holds_inner k = true → target = Wasm32 ∨ fa_cell w ≠ Some i →
  Handle.run target es' w = Some w' →
  ∃ n', fa_inners w' !! i = Some n' ∧ rn_running n' !! t = Some k.
Proof.
  intros Hrun Hn Ht Hk Hout Hrun'. pose proof (run_wf target _ _ _ Hrun (new_wf target _ _ _)) as Hwf.
  destruct (run_ind target (orphaned target i (rn_running n)) es' w w') as [_ (_ & _ & n' & Hn' & Hs)].
  - intros e v v'. apply step_orphaned. by exists t, k.
  - done.
  - done.
  - split_and!; [by eapply (wf_inner target)|done|]. exists n. by split.
  - exists n'. split; [done|]. by apply Hs.
Qed.

Lemma open_layers c persisted remote (s : StoreInner D R) :
  Store.open c persisted remote = Ok s →
  (is_Some persisted ↔ is_Some (si_persistence s)) ∧ (is_Some remote ↔ is_Some (si_queue s)) ∧
  match remote with None => si_remote s = None | Some r => ∃ rem, r = Ok rem ∧ si_remote s = Some rem end.
Proof.
  unfold Store.open. destruct (MemoryStore.new c) as [m|e]; [|done]. simpl.
  destruct persisted as [[p|e]|]; simpl; [|done|]; (destruct remote as [[rm|e]|]; simpl; [|done|]).
  - destruct (Persistent.new p _) as [p' [q|e]]; simpl; [|done]. intros [= <-]. rewrite !is_Some_alt. eauto.
  - intros [= <-]. by rewrite !is_Some_alt.
  - intros [= <-]. rewrite !is_Some_alt. eauto.
  - intros [= <-]. by rewrite !is_Some_alt.
Qed.

(** The tasks of a store with a remote: one loop applies what the broker
    sends, one follows the connection, one flushes the queue. *)
Definition three_loops (i : nat) : gmap nat TaskKind :=
  <[S i := MutationLoop]> (<[S (S i) := StatusLoop]> {[ S (S (S i)) := FlushLoop ]}).

(** A store that opened: its layers are the configured ones, with a queue
    exactly when there is a remote; its loops run, and nothing else, and their
    handles are kept; and the remote was asked to connect, with the ticket,
    exactly when that was configured. *)
Record opened_as (target : Target) (env : Env D R) w n : Prop := {
  oa_running : rn_running n = match so_remote (fa_options w) with Some _ => three_loops (fa_next w) | None => ∅ end;
  oa_tasks t : t ∈ rn_tasks n ↔ is_Some (rn_running n !! t);
  oa_persistence : is_Some (so_persistence (fa_options w)) ↔ is_Some (si_persistence (rn_inner n));
  oa_queue : is_Some (so_remote (fa_options w)) ↔ is_Some (si_queue (rn_inner n));
  oa_remote :
    match so_remote (fa_options w) with
    | None => si_remote (rn_inner n) = None
    | Some cfg => ∃ rem, env_remote env (fa_client_id w) (fc_core (fa_config w)) = Ok rem ∧
        if rc_auto_connect cfg then
          ∃ ticket, Handle.ticket_of target cfg (env_ticket env) = Ok ticket ∧
            si_remote (rn_inner n) = Some (env_connect env (rc_server_url cfg) ticket (rc_username cfg) (rc_password cfg) rem).1
        else si_remote (rn_inner n) = Some rem
    end;
}.

Lemma loops_three i : list_to_map (Handle.loops (S i)) = three_loops i.
Proof. reflexivity. Qed.

Lemma loops_handles i t : t ∈ (Handle.loops (S i)).*1 ↔ is_Some (three_loops i !! t).
Proof.
  unfold three_loops. simpl. rewrite !elem_of_cons, elem_of_nil, !lookup_insert_is_Some, lookup_singleton_is_Some.
  naive_solver lia.
Qed.

Lemma open_spec target env w w' r : Handle.open target env w = Some (w', r) →
  fa_cell w' = fa_cell w ∧ (∀ j, j ≠ fa_next w → fa_inners w' !! j = fa_inners w !! j) ∧
  match r with
  | Ok i => i = fa_next w ∧ ∃ n, fa_inners w' !! i = Some n ∧ opened_as target env w n
  | Err e => fa_inners w' = fa_inners w ∨
      ∃ cfg n, so_remote (fa_options w) = Some cfg ∧ rc_auto_connect cfg = true ∧ target = Native ∧ rc_get_ticket cfg = true ∧
        env_ticket env = Err e ∧ fa_inners w' !! fa_next w = Some n ∧ rn_running n = three_loops (fa_next w)
  end.
Proof.
  unfold Handle.open. destruct (is_ok _ && _); [done|]. destruct (Store.open _ _ _) as [s|e] eqn:E.
  2:{ intros [= <- <-]. split_and!; [done..|by left]. }
  apply open_layers in E as (Hp & Hq & Hr). rewrite fmap_is_Some in Hp. rewrite fmap_is_Some in Hq.
  destruct (so_remote (fa_options w)) as [cfg|] eqn:Ec; simpl in Hr.
  2:{ rewrite Hr. intros [= <- <-]. split_and!; [done| |done|].
      - intros j Hj. simpl. by rewrite lookup_insert_ne.
      - exists (mkRunning s [] ∅). simpl. split; [by rewrite lookup_insert_eq|]. split; simpl; rewrite ?Ec; try done.
        intros t. rewrite lookup_empty, elem_of_nil. split; [done|]. by intros []. }
  destruct Hr as (rem & Hrem & Hrs). rewrite Hrs.
  destruct (rc_auto_connect cfg) eqn:Ea.
  2:{ intros [= <- <-]. split_and!; [done| |done|].
      - intros j Hj. simpl. by rewrite lookup_insert_ne.
      - eexists. simpl. split; [by rewrite lookup_insert_eq|]. split; simpl; rewrite ?Ec; try done.
        + apply loops_handles.
        + exists rem. by rewrite Ea. }
  destruct (Handle.ticket_of target cfg (env_ticket env)) as [ticket|e] eqn:Et.
  2:{ intros [= <- <-]. split_and!; [done| |].
      - intros j Hj. simpl. by rewrite lookup_insert_ne.
      - right. unfold Handle.ticket_of in Et. destruct target; [|done]. destruct (rc_get_ticket cfg) eqn:Eg; [|done].
        destruct (env_ticket env) as [tk|e'] eqn:Ee; [done|]. simpl in Et. injection Et as <-. exists cfg. eexists. split_and!; try done; [simpl; by rewrite lookup_insert_eq|done]. }
  unfold Store.on_remote. rewrite Hrs. destruct (env_connect env _ _ _ _ rem) as [rem' c] eqn:Econ. intros [= <- <-].
  split_and!; [done| |done|].
  - intros j Hj. simpl. by rewrite lookup_insert_ne.
  - eexists. simpl. split; [by rewrite lookup_insert_eq|]. split; simpl; rewrite ?Ec; try done.
    + apply loops_handles.
    + exists rem. rewrite Ea. split; [done|]. exists ticket. by rewrite Econ.
Qed.

(** C26: Initialising. A call that succeeds makes the store ready with the
    configured layers, a queue exactly when there is a remote, exactly the
    three loops of a remote (or none) with their handles kept for the shutdown,
    and the remote asked to connect exactly when that is configured; later
    calls change nothing. A call that fails leaves the store unready and
    nothing running, except after a failing ticket provider, which leaves the
    loops running on an inner the store does not hold. *)
Theorem initialize_contract target env w w' r :
  fa_cell w = None → Handle.initialize target env w = Some (w', r) →
  Handle.ready w' = is_ok r ∧ (∀ j, j ≠ fa_next w → fa_inners w' !! j = fa_inners w !! j) ∧
  match r with
  | Ok _ => fa_cell w' = Some (fa_next w) ∧ (∃ n, fa_inners w' !! fa_next w = Some n ∧ opened_as target env w n) ∧
      ∀ env', Handle.initialize target env' w' = Some (w', Ok ())
  | Err e => fa_inners w' = fa_inners w ∨
      ∃ cfg n, so_remote (fa_options w) = Some cfg ∧ rc_auto_connect cfg = true ∧ target = Native ∧ rc_get_ticket cfg = true ∧
        env_ticket env = Err e ∧ fa_inners w' !! fa_next w = Some n ∧ rn_running n = three_loops (fa_next w)
  end.
Proof.
  intros Hc. unfold Handle.initialize at 1. rewrite Hc.
  destruct (Handle.open target env w) as [[w1 [i|e]]|] eqn:E; [| |done]; simpl; intros [= <- <-];
    apply open_spec in E as (Hcell & Hother & E).
  - destruct E as [-> E]. by split_and!.
  - unfold Handle.ready. rewrite Hcell, Hc. by split_and!.
Qed.
End contract.

(** ** Entity names *)

Abbreviation s_le := (λ x y : string, string_le x y = true).

Lemma elem_of_dedup x l : x ∈ dedup l ↔ x ∈ l.
Proof.
  induction l as [|y l IH]; [done|]. simpl. rewrite elem_of_cons, <-IH. destruct (dedup l) as [|z k]; [set_solver|].
  case_bool_decide; set_solver.
Qed.

Lemma dedup_sorted l : StronglySorted s_le l → StronglySorted s_le (dedup l) ∧ NoDup (dedup l).
Proof.
  induction 1 as [|x l _ [IHs IHn] Hx]; [by repeat constructor|]. simpl. rewrite Forall_forall in Hx.
  assert (Hd : ∀ y, y ∈ dedup l → string_le x y = true) by (intros y Hy; by apply Hx, elem_of_dedup).
  destruct (dedup l) as [|y k]; [by repeat constructor; try apply not_elem_of_nil|].
  case_bool_decide as E; [done|]. split; [constructor; [done|by apply Forall_forall]|].
  apply NoDup_cons. split; [|done]. intros [->|Hin]%elem_of_cons; [done|]. apply E.
  apply StronglySorted_inv in IHs as [_ Hy]. rewrite Forall_forall in Hy.
  apply string_le_antisym; [apply Hd; left|by apply Hy].
Qed.

(** The names of all entities: each once, in order, whatever order the maps
    are read in. *)
Lemma all_entity_names_spec {HI : HashIter} c :
  (∀ x, x ∈ all_entity_names c ↔ x ∈ dom (fc_entities c) ∨ x ∈ dom (fc_local_only_entities c)) ∧
  StronglySorted s_le (all_entity_names c) ∧ NoDup (all_entity_names c).
Proof.
  unfold all_entity_names. split.
  - intros x. rewrite elem_of_dedup. rewrite (sort_by_perm string_le), elem_of_app, !elem_of_hset_iter. done.
  - apply dedup_sorted, sort_by_StronglySorted; [apply string_le_total|apply string_le_trans].
Qed.

(** ** In a browser *)

Section browser.
Context {M J T R : Type} {JT : JsText J} {JH : JsHost J T} {ST : SerdeText T} {WD : WasmDatabase M J}
  {WL : WasmDatabaseLaws (M := M) (J := J) (T := T)} {RO : RemoteOps R} {HI : HashIter}.
Context (entities : StoreConfig → list (string * EntityDefinition)).
#[local] Instance browser_db : Db (WasmDb M) := WasmDb.wasm_Db entities.
Implicit Types (s : StoreInner (WasmDb M) R) (m : MemoryStore (WasmDb M)).

Abbreviation cached m := (wl_table (wasm_db (ms_db m))).

Lemma read_sync_row d e id :
  wd_is_memory_backend (wasm_db d) = true → WasmDb.read_sync e id d = Ok (Object <$> wl_table (wasm_db d) !! (e, id)).
Proof.
  intros Hm. unfold WasmDb.read_sync, WasmDb.found. rewrite wl_read_sync by done.
  destruct (wl_table _ !! (e, id)) as [r|] eqn:E.
  - destruct (wl_read _ _ _ _ E) as (out & -> & Hout). by rewrite (from_js_denotes _ _ Hout).
  - destruct (wl_read_missing _ _ _ E) as (err & -> & Hmiss). by rewrite (missing_is_not_found _ Hmiss).
Qed.

(** The filters of the memory store carry strings. *)
Lemma list_filters_safe c entity scope_id :
  Forall (λ f, js_safe (filter_value f)) (MemoryStore.list_filters c entity scope_id).
Proof. unfold MemoryStore.list_filters. destruct (_ || _); repeat constructor. Qed.

Lemma list_both d e filters :
  wd_is_memory_backend (wasm_db d) = true → Forall (λ f, js_safe (filter_value f)) filters →
  ∃ rows, WasmDb.list_ e filters [] None [] d = Ok (Object <$> rows) ∧ WasmDb.list_sync e filters [] None [] d = Ok (Object <$> rows) ∧
    WasmDb.count_sync e filters d = Ok (length rows).
Proof using JH JT ST WD WL.
  intros Hm Hs. unfold WasmDb.list_, WasmDb.list_sync, WasmDb.count_sync, WasmDb.list_options_js.
  rewrite list_options_eq. destruct (to_js_denotes _ (eq_options_safe _ Hs)) as (j & -> & Hj). simpl.
  rewrite wl_list_sync by done. destruct (wl_list (wasm_db d) e filters j Hj) as (out & rows & -> & Hout & Hp). simpl.
  unfold WasmDb.list_array. rewrite (from_js_denotes _ _ Hout). exists rows. split_and!; [done..|].
  rewrite (wl_count_sync _ _ _ _ Hm Hj). simpl. by rewrite Hp.
Qed.

(** Reading without waiting. On a healthy in-memory database the
    synchronous calls of a browser answer what the asynchronous ones do: the
    same row, the same list, and its length as the count. *)
Theorem sync_reads_agree m entity id scope_id :
  wd_is_memory_backend (wasm_db (ms_db m)) = true →
  Handle.memory_read_sync entity id m = MemoryStore.read entity id m ∧
  Handle.memory_list_sync entity scope_id m = MemoryStore.list entity scope_id m ∧
  ∃ rows, MemoryStore.list entity scope_id m = Ok rows ∧ Handle.memory_count_sync entity scope_id m = Ok (length rows).
Proof using JH JT ST WD WL entities.
  intros Hm. unfold Handle.memory_read_sync, Handle.memory_list_sync, Handle.memory_count_sync, MemoryStore.read, MemoryStore.list. simpl.
  rewrite (read_sync_row _ _ _ Hm), read_row.
  destruct (list_both (ms_db m) entity _ Hm (list_filters_safe (ms_config m) entity scope_id)) as (rows & Hl & Hs & Hc).
  rewrite Hl, Hs, Hc. simpl. split_and!; [done..|]. exists rows. by rewrite collect_records.
Qed.

(** An update that is not mirrored. In a browser, an update from the remote
    for a row that the memory cache does not hold leaves the cache as it is,
    though the row is to be inserted then: the database says "not found", the
    adapter reports a configuration error, and the mirror inserts only on
    [NotFound]. *)
Theorem browser_update_not_mirrored s mutation data top :
  sm_op mutation = Update → sm_data mutation = Some data → js_safe (Object (strip_nulls data)) →
  cached (si_memory s) !! (sm_entity mutation, sm_id mutation) = None →
  post (Store.mirror_remote_to_memory mutation top) s (λ s' r, r = Ok () ∧ cached (si_memory s') = cached (si_memory s)).
Proof.
  intros Hop Hdata Hsafe Hno. unfold Store.mirror_remote_to_memory. asteps. rewrite Hop, Hdata.
  assert (Hupd : ∃ d' msg, MemoryStore.update (sm_entity mutation) (sm_id mutation) data Remote (si_memory s) =
    (MemoryStore.set_db (si_memory s) d', Err (Config msg)) ∧ wl_table (wasm_db d') = cached (si_memory s)).
  { destruct (update_absent (ms_db (si_memory s)) _ _ _ Hsafe Hno) as (d' & msg & Hu & Ht). exists d', msg. split; [|done].
    unfold MemoryStore.update, abind, MemoryStore.on_db, azoom. simpl. by rewrite Hu. }
  destruct Hupd as (d' & msg & Hu & Ht). astep. unfold Store.on_memory. astep.
  eapply post_eq; [exact Hu|]. simpl. asteps. done.
Qed.
End browser.

(** ** Runs *)

Module FacadeRuns.
#[export] Instance table_shutdown : MqShutdown TableDb := λ _, ∅.

Definition config : FullConfig := FullConfig_new ∅ (scope ex_scope_config).
Definition remote_config (provider : bool) : RemoteConfig := mkRemoteConfig "mqtt://broker" None provider None None None 30000 true.
Definition options (provider : bool) : StoreOptions :=
  mkOptions (Some (mkPersistenceConfig "/data" None)) (Some (remote_config provider)).

Definition env (ticket : result string Error) : Env (NativeDb TableDb) RemoteTable :=
  mkEnv (λ _ c, PersistenceLayer.open c (Ok (mkNative ex_rows))) (λ _ _, Ok ex_broker) ticket (λ _ _ _ _, aret ()).

Definition fresh (provider : bool) : Facade (NativeDb TableDb) RemoteTable := Handle.new config (options provider) "client-1".

(** A store that opened, connected, and has a subscriber. *)
Definition busy : list (Handle.event (D := NativeDb TableDb) (R := RemoteTable)) :=
  [Handle.Initialize (env (Ok "jwt")); Handle.Subscribe; Handle.Turn 0 2 (Store.status_step Connected)].

Lemma shutdown_stops_witness :
  ∃ w n, Handle.run Native busy (fresh false) = Some w ∧ fa_cell w = Some 0 ∧ fa_inners w !! 0 = Some n ∧ size (rn_running n) = 4 ∧
    ∀ es' w2 t m, Handle.run Native es' (Handle.shutdown Native w).1 = Some w2 → Handle.turn 0 t m w2 = None.
Proof.
  assert (Hg : (λ w, (fa_cell w, (λ n, size (rn_running n)) <$> fa_inners w !! 0)) <$> Handle.run Native busy (fresh false) = Some (Some 0, Some 4))
    by (vm_compute; reflexivity).
  destruct (Handle.run Native busy (fresh false)) as [w|] eqn:Hrun; [|discriminate Hg]. injection Hg as Hc Hn.
  destruct (fa_inners w !! 0) as [n|] eqn:En; [|discriminate Hn].
  simpl in Hn. injection Hn as Hn. exists w, n. split; [reflexivity|]. split; [exact Hc|]. split; [exact En|]. split; [exact Hn|].
  destruct (shutdown_stops config (options false) "client-1" busy w 0 n Hrun Hc En) as (_ & _ & H & _). exact H.
Defined.

(** The cell, and the task [1] of the inner [0]. *)
Definition glance (w : Facade (NativeDb TableDb) RemoteTable) : option nat * option TaskKind :=
  (fa_cell w, n ← fa_inners w !! 0; rn_running n !! 1).

Definition failed : list (Handle.event (D := NativeDb TableDb) (R := RemoteTable)) := [Handle.Initialize (env (Err SessionInvalid))].

(** The ticket provider fails: [initialize] answers its error, the store is
    not ready, and the loops run on; so do those of a dropped store. *)
Lemma loops_outlive_handle_witness :
  (∃ w, Handle.run Native failed (fresh true) = Some w ∧ Handle.ready w = false ∧
     ∀ es' w', Handle.run Native es' w = Some w' → ∃ n, fa_inners w' !! 0 = Some n ∧ rn_running n !! 1 = Some MutationLoop) ∧
  (∃ w, Handle.run Native (busy ++ [Handle.DropStore]) (fresh false) = Some w ∧
     ∀ es' w', Handle.run Native es' w = Some w' → ∃ n, fa_inners w' !! 0 = Some n ∧ rn_running n !! 1 = Some MutationLoop).
Proof.
  split.
  - assert (Hg : glance <$> Handle.run Native failed (fresh true) = Some (None, Some MutationLoop)) by (vm_compute; reflexivity).
    destruct (Handle.run Native failed (fresh true)) as [w|] eqn:Hrun; [|discriminate Hg]. injection Hg as Hc Ht.
    destruct (fa_inners w !! 0) as [n|] eqn:Hn; [|discriminate Ht]. exists w. split; [reflexivity|].
    split; [unfold Handle.ready; rewrite Hc; reflexivity|]. intros es' w' Hrun'.
    apply (loops_outlive_handle Native config (options true) "client-1" failed es' w w' 0 n 1 MutationLoop Hrun Hn Ht eq_refl); [|exact Hrun'].
    right. rewrite Hc. discriminate.
  - assert (Hg : glance <$> Handle.run Native (busy ++ [Handle.DropStore]) (fresh false) = Some (None, Some MutationLoop)) by (vm_compute; reflexivity).
    destruct (Handle.run Native (busy ++ [Handle.DropStore]) (fresh false)) as [w|] eqn:Hrun; [|discriminate Hg]. injection Hg as Hc Ht.
    destruct (fa_inners w !! 0) as [n|] eqn:Hn; [|discriminate Ht]. exists w. split; [reflexivity|]. intros es' w' Hrun'.
    apply (loops_outlive_handle Native config (options false) "client-1" (busy ++ [Handle.DropStore]) es' w w' 0 n 1 MutationLoop Hrun Hn Ht eq_refl); [|exact Hrun'].
    right. rewrite Hc. discriminate.
Defined.

(** A browser: a store that was shut down and dropped still applies what the
    remote sends. *)
#[local] Instance wasm_table_db : Db (WasmDb TableDb) := WasmDb.wasm_Db (λ _, []).

Definition wasm_env : Env (WasmDb TableDb) RemoteTable :=
  mkEnv (λ _ c, PersistenceLayer.open c (Ok (mkWasmDb ex_rows))) (λ _ _, Ok ex_broker) (Ok "") (λ _ _ _ _, aret ()).

Definition wasm_store : Facade (WasmDb TableDb) RemoteTable :=
  Handle.new config (mkOptions None (Some (remote_config false))) "client-1".

Lemma browser_shutdown_ignored :
  let es := [Handle.Initialize wasm_env; Handle.Shutdown; Handle.DropStore; Handle.Reclaim 0;
             Handle.Turn 0 1 (Store.handle_remote_mutation (mkSync Insert "workspace" "w9" (Some {[ "name" := Str "late" ]}) None))] in
  (λ w, (λ n, MemoryStore.read "workspace" "w9" (si_memory (rn_inner n))) <$> fa_inners w !! 0) <$> Handle.run Wasm32 es wasm_store =
  Some (Some (Ok (Some {[ "id" := Str "w9"; "name" := Str "late" ]}))).
Proof. vm_compute. reflexivity. Qed.

Lemma initialize_contract_witness :
  ∃ w n, Handle.initialize Native (env (Ok "jwt")) (fresh true) = Some (w, Ok ()) ∧ Handle.ready w = true ∧
    fa_inners w !! 0 = Some n ∧ opened_as Native (env (Ok "jwt")) (fresh true) n.
Proof.
  assert (Hok : snd <$> Handle.initialize Native (env (Ok "jwt")) (fresh true) = Some (Ok ())) by (vm_compute; reflexivity).
  destruct (Handle.initialize Native (env (Ok "jwt")) (fresh true)) as [[w r]|] eqn:E; [|discriminate Hok]. injection Hok as Hok.
  pose proof (initialize_contract Native (env (Ok "jwt")) (fresh true) w r eq_refl E) as [Hr H].
  simpl in Hok. subst r. destruct H as (_ & _ & (n & Hn & Ho) & _). exists w, n. split; [reflexivity|]. split; [exact Hr|]. split; [exact Hn|exact Ho].
Defined.

Lemma sync_reads_agree_witness :
  let m := mkMemory (mkWasmDb ex_rows) (Some "w1") [] ex_scope_config 0 ∅ ∅ in
  wd_is_memory_backend (wasm_db (ms_db m)) = true ∧ Handle.memory_read_sync "task" "t1" m = MemoryStore.read "task" "t1" m ∧
  MemoryStore.read "task" "t1" m = Ok (Some (ex_task "t1" "new")).
Proof.
  intros m. split; [reflexivity|]. split; [|vm_compute; reflexivity].
  apply (sync_reads_agree (λ _, []) m "task" "t1" "w1"). reflexivity.
Defined.

Lemma ex_safe : js_safe (Object (strip_nulls (ex_task "t7" "new"))).
Proof.
  apply safe_object. intros k v [Hk _]%strip_nulls_lookup. unfold ex_task in Hk.
  repeat (apply lookup_insert_Some in Hk as [[_ <-]|[_ Hk]]; [constructor|]). apply lookup_singleton_Some in Hk as [_ <-]. constructor.
Qed.

Lemma browser_update_not_mirrored_witness :
  let s : StoreInner (WasmDb TableDb) RemoteTable :=
    mkInner ex_scope_config (mkMemory (mkWasmDb ex_rows) (Some "w1") [] ex_scope_config 0 ∅ ∅) None None None ex_state false false in
  let mutation := mkSync Update "task" "t7" (Some (ex_task "t7" "new")) None in
  post (Store.mirror_remote_to_memory mutation false) s (λ s' r, r = Ok () ∧ wl_table (wasm_db (ms_db (si_memory s'))) = wl_table (wasm_db (ms_db (si_memory s)))).
Proof.
  intros s mutation. refine (browser_update_not_mirrored (λ _, []) s mutation (ex_task "t7" "new") false _ _ _ _).
  - reflexivity.
  - reflexivity.
  - apply ex_safe.
  - vm_compute. reflexivity.
Defined.
End FacadeRuns.
