(* ===== verification/Subscriptions.v ===== *)
(** * Subscriptions

    From a write to the callback of a JavaScript subscription: the buses of
    the store are [broadcast] channels, whose receivers lose the oldest events
    when they fall behind; [spawn_filtered_forwarder] of store.rs passes the
    events a subscription asks for to its unbounded channel; and the task of
    [spawn_mutation_forwarder] of stitch-wasm/src/lib.rs calls back. The task of
    [subscribe_to_connection_status] reads a [broadcast] receiver itself. Which
    task runs when, and when a receiver is overrun, is up to the events of a
    run. *)
From S2P Require Import Prelude Types MemoryStore RemoteSync Store.

(** ** [broadcast::Receiver] *)

(** [rx_lagged]: events were lost since the last [recv]. *)
Record Receiver (E : Type) := mkReceiver { rx_unread : list E; rx_lagged : bool; rx_closed : bool }.
Arguments mkReceiver {E}.
Arguments rx_unread {E}.
Arguments rx_lagged {E}.
Arguments rx_closed {E}.

Inductive Received (E : Type) := Item (e : E) | RecvLagged | RecvClosed.
Arguments Item {E}.
Arguments RecvLagged {E}.
Arguments RecvClosed {E}.

Module Rx.
Section rx.
Context {E : Type}.
Implicit Types r : Receiver E.

Definition new : Receiver E := mkReceiver [] false false.
Definition publish (e : E) r : Receiver E :=
  if rx_closed r then r else mkReceiver (rx_unread r ++ [e]) (rx_lagged r) false.

(** The oldest event a receiver has not read is overwritten. *)
Definition overrun r : Receiver E :=
  match rx_unread r with [] => r | _ :: l => mkReceiver l true (rx_closed r) end.
Definition close r : Receiver E := mkReceiver (rx_unread r) (rx_lagged r) true.

(** [recv]: [None] when it waits. *)
Definition recv r : option (Receiver E * Received E) :=
  if rx_lagged r then Some (mkReceiver (rx_unread r) false (rx_closed r), RecvLagged) else
  match rx_unread r with
  | e :: l => Some (mkReceiver l false (rx_closed r), Item e)
  | [] => if rx_closed r then Some (r, RecvClosed) else None
  end.
End rx.
End Rx.

(** ** Calling back *)

(** The task of [spawn_mutation_forwarder]: [fw_inbox] is what the channel
    holds, [fw_closed] that its senders are gone, [fw_cancelled] that the
    unsubscribe function was called, [fw_called] the events passed on. *)
Record Forwarder (E : Type) := mkForwarder {
  fw_inbox : list E;
  fw_closed : bool;
  fw_cancelled : bool;
  fw_called : list E;
  fw_done : bool;
}.
Arguments mkForwarder {E}.
Arguments fw_inbox {E}.
Arguments fw_closed {E}.
Arguments fw_cancelled {E}.
Arguments fw_called {E}.
Arguments fw_done {E}.

Module Forward.
Section forward.
Context {E : Type}.
Implicit Types f : Forwarder E.

Definition spawn_mutation_forwarder : Forwarder E := mkForwarder [] false false [] false.

(** [Poll cancel_first]: the task goes round its loop once; when both the
    channel and the cancellation are ready, [select] may take either. *)
Inductive event := Send (e : E) | Close | Unsubscribe | Poll (cancel_first : bool).

Definition finish f : Forwarder E := mkForwarder (fw_inbox f) (fw_closed f) (fw_cancelled f) (fw_called f) true.

Definition poll (cancel_first : bool) f : Forwarder E :=
  if fw_done f then f else
  if fw_cancelled f && cancel_first then finish f else
  match fw_inbox f with
  | e :: inbox => mkForwarder inbox (fw_closed f) (fw_cancelled f) (fw_called f ++ [e]) false
  | [] => if fw_closed f || fw_cancelled f then finish f else f
  end.

Definition step (ev : event) f : Forwarder E :=
  match ev with
  | Send e => if fw_closed f || fw_done f then f
              else mkForwarder (fw_inbox f ++ [e]) (fw_closed f) (fw_cancelled f) (fw_called f) (fw_done f)
  | Close => mkForwarder (fw_inbox f) true (fw_cancelled f) (fw_called f) (fw_done f)
  | Unsubscribe => mkForwarder (fw_inbox f) (fw_closed f) true (fw_called f) (fw_done f)
  | Poll b => poll b f
  end.

Definition run (evs : list event) f : Forwarder E := foldl (λ f ev, step ev f) f evs.
End forward.
End Forward.

(** ** A subscription *)

(** The task of [spawn_filtered_forwarder]: what it passes on for an event,
    and the receiver of the bus it reads. *)
Record Source := mkSource {
  src_forward : StoreEvent → option MutationEvent;
  src_rx : Receiver StoreEvent;
  src_done : bool;
}.

(** The tasks that feed the channel, and the one that reads it; the events in
    the channel are marked with the task they came from. *)
Record Subscription := mkSubscription {
  sub_sources : list Source;
  sub_tail : Forwarder (nat * MutationEvent);
}.

Module Subscribe.
Implicit Types s : Subscription.

Definition spawn (fs : list (StoreEvent → option MutationEvent)) : Subscription :=
  mkSubscription ((λ f, mkSource f Rx.new false) <$> fs) Forward.spawn_mutation_forwarder.

(** [subscribe_entity] of store.rs: the memory bus, which stays quiet about
    the writes the durable layer announces itself, and the durable bus. *)
Definition entity_sources (has_persistence : bool) (entity : string) : list (StoreEvent → option MutationEvent) :=
  Store.forward entity None (λ event, if has_persistence
    then match ev_origin event with Load | Clear => true | _ => false end else true) ::
  (if has_persistence then [Store.forward entity None (λ _, true)] else []).

Definition scope_sources (scope_id entity : string) : list (StoreEvent → option MutationEvent) :=
  [Store.forward entity (Some scope_id) (λ _, true)].

Definition set_source (i : nat) (src : Source) s : Subscription := mkSubscription (<[i := src]> (sub_sources s)) (sub_tail s).
Definition on_tail (ev : Forward.event) s : Subscription := mkSubscription (sub_sources s) (Forward.step ev (sub_tail s)).
Definition on_rx (f : Receiver StoreEvent → Receiver StoreEvent) (src : Source) : Source :=
  mkSource (src_forward src) (f (src_rx src)) (src_done src).

(** A filtering task ends and drops its sender; the channel closes with the
    last of them. *)
Definition end_source (i : nat) (rx : Receiver StoreEvent) (src : Source) s : Subscription :=
  let s := set_source i (mkSource (src_forward src) rx true) s in
  if forallb src_done (sub_sources s) then on_tail Forward.Close s else s.

(** One turn of the loop of a filtering task. *)
Definition turn (i : nat) s : Subscription :=
  match sub_sources s !! i with
  | None => s
  | Some src =>
    if src_done src then s else
    match Rx.recv (src_rx src) with
    | None => s
    | Some (rx, RecvLagged) => set_source i (mkSource (src_forward src) rx false) s
    | Some (rx, RecvClosed) => end_source i rx src s
    | Some (rx, Item ev) =>
      match src_forward src ev with
      | None => set_source i (mkSource (src_forward src) rx false) s
      | Some event =>
        if fw_done (sub_tail s) then end_source i rx src s
        else on_tail (Forward.Send (i, event)) (set_source i (mkSource (src_forward src) rx false) s)
      end
    end
  end.

Inductive event :=
| Publish (i : nat) (ev : StoreEvent)
| Overrun (i : nat)
| BusClosed (i : nat)
| Turn (i : nat)
| Unsubscribe
| Poll (cancel_first : bool).

Definition step (ev : event) s : Subscription :=
  match ev with
  | Publish i e => mkSubscription (alter (on_rx (Rx.publish e)) i (sub_sources s)) (sub_tail s)
  | Overrun i => mkSubscription (alter (on_rx Rx.overrun) i (sub_sources s)) (sub_tail s)
  | BusClosed i => mkSubscription (alter (on_rx Rx.close) i (sub_sources s)) (sub_tail s)
  | Turn i => turn i s
  | Unsubscribe => on_tail Forward.Unsubscribe s
  | Poll b => on_tail (Forward.Poll b) s
  end.

Definition run (evs : list event) s : Subscription := foldl (λ s ev, step ev s) s evs.

(** What was published on the bus [i] until it closed. *)
Fixpoint published (i : nat) (evs : list event) : list StoreEvent :=
  match evs with
  | [] => []
  | Publish j e :: evs => if decide (j = i) then e :: published i evs else published i evs
  | BusClosed j :: evs => if decide (j = i) then [] else published i evs
  | _ :: evs => published i evs
  end.

(** How often the reader of the bus [i] was overrun. *)
Definition overruns (i : nat) (evs : list event) : nat :=
  length (filter (λ ev, match ev with Overrun j => bool_decide (j = i) | _ => false end = true) evs).

(** The events that came through the task [i]. *)
Definition of_bus (i : nat) (l : list (nat * MutationEvent)) : list MutationEvent :=
  omap (λ t, if decide (t.1 = i) then Some t.2 else None) l.
End Subscribe.

(** ** The forwarder *)

Section forwarder.
Context {E : Type}.
Implicit Types (f : Forwarder E) (evs : list (Forward.event (E := E))).

(** A task that ended calls nothing more. *)
Lemma done_run evs f : fw_done f = true → fw_called (Forward.run evs f) = fw_called f ∧ fw_done (Forward.run evs f) = true.
Proof.
  revert f. induction evs as [|ev evs IH]; intros f Hd; [done|]. simpl.
  assert (H : fw_called (Forward.step ev f) = fw_called f ∧ fw_done (Forward.step ev f) = true).
  { destruct ev as [e| | |b]; simpl; [by rewrite Hd, orb_true_r|done|done|]. unfold Forward.poll. by rewrite Hd. }
  destruct H as [Hc Hd']. rewrite <-Hc. by apply IH.
Qed.

(** What it has passed on and what waits for it. *)
Definition through f : list E := fw_called f ++ fw_inbox f.

Lemma poll_through b f : through (Forward.poll b f) = through f ∧ fw_called f `prefix_of` fw_called (Forward.poll b f).
Proof.
  unfold through, Forward.poll. destruct (fw_done f); [done|]. destruct (_ && b); [done|].
  destruct (fw_inbox f) as [|e inbox] eqn:Ei; [destruct (_ || _); simpl; by rewrite Ei|]. simpl. rewrite <-app_assoc. split; [done|by eexists].
Qed.

(** Once unsubscribed, a task that is polled ends, whichever side wins. *)
Lemma cancelled_ends bs f :
  fw_cancelled f = true → length (fw_inbox f) < length bs → fw_done (Forward.run (Forward.Poll <$> bs) f) = true.
Proof.
  revert f. induction bs as [|b bs IH]; intros f Hc Hl; simpl in *; [lia|].
  destruct (fw_done (Forward.poll b f)) eqn:Hd; [by apply done_run|]. apply IH; revert Hd; unfold Forward.poll.
  - destruct (fw_done f); [done|]. rewrite Hc. simpl. destruct b; [done|]. destruct (fw_inbox f); simpl; [by rewrite orb_true_r|done].
  - destruct (fw_done f) eqn:Hd; [by rewrite Hd|]. rewrite Hc. simpl. destruct b; [done|].
    destruct (fw_inbox f) as [|e inbox]; simpl in *; [by rewrite orb_true_r|lia].
Qed.

End forwarder.

(** ** What reaches the callback *)

Section subscription.
Implicit Types (s : Subscription) (evs : list Subscribe.event).
Import Subscribe.

(** The events of the bus [i] that were passed on or wait to be, in order. *)
Definition held (i : nat) s : list MutationEvent :=
  match sub_sources s !! i with
  | Some src => of_bus i (through (sub_tail s)) ++ omap (src_forward src) (rx_unread (src_rx src))
  | None => []
  end.

(** What one event adds. *)
Definition gain (i : nat) (ev : event) s : list MutationEvent :=
  match sub_sources s !! i with
  | Some src => if rx_closed (src_rx src) then [] else omap (src_forward src) (published i [ev])
  | None => []
  end.

(** While nobody unsubscribed: the channel closes after its senders, the
    callback's task ends after the channel, and a filtering task after its bus. *)
Record healthy s : Prop := {
  hl_closed : fw_closed (sub_tail s) = true → Forall (λ src, src_done src = true) (sub_sources s);
  hl_done : fw_done (sub_tail s) = true → fw_closed (sub_tail s) = true ∧ fw_inbox (sub_tail s) = [];
  hl_source : Forall (λ src, src_done src = true → rx_unread (src_rx src) = [] ∧ rx_lagged (src_rx src) = false ∧ rx_closed (src_rx src) = true) (sub_sources s);
}.

Lemma of_bus_app i l k : of_bus i (l ++ k) = of_bus i l ++ of_bus i k.
Proof. apply omap_app. Qed.

Lemma step_cancelled ev s : fw_cancelled (sub_tail s) = true → fw_cancelled (sub_tail (step ev s)) = true.
Proof.
  destruct s as [srcs [inbox cl ca cd dn]]. simpl. intros ->. destruct ev as [i e|i|i|i| |b]; try done.
  - simpl. unfold turn, end_source. simpl. destruct (srcs !! i) as [src|]; [|done]. destruct (src_done src); [done|].
    destruct (Rx.recv _) as [[rx [ev| |]]|]; [| | |done]; repeat case_match; simpl; repeat case_match; done.
  - simpl. unfold Forward.poll. simpl. repeat case_match; done.
Qed.

Lemma lookup_alter_source g i j s :
  alter (on_rx g) j (sub_sources s) !! i = (if decide (j = i) then on_rx g else id) <$> sub_sources s !! i.
Proof.
  destruct (decide (j = i)) as [->|]; [apply list_lookup_alter_eq|]. rewrite list_lookup_alter_ne by done. by destruct (_ !! i).
Qed.

Lemma held_tail i s tail' :
  through tail' = through (sub_tail s) → held i (mkSubscription (sub_sources s) tail') = held i s.
Proof. unfold held. simpl. by intros ->. Qed.

Lemma held_put i j src src' s :
  sub_sources s !! j = Some src → src_forward src' = src_forward src →
  held i (set_source j src' s) = if decide (j = i) then
    of_bus i (through (sub_tail s)) ++ omap (src_forward src) (rx_unread (src_rx src')) else held i s.
Proof.
  intros Hj Hf. unfold held. simpl. destruct (decide (j = i)) as [->|].
  - rewrite list_lookup_insert_eq by (by eapply lookup_lt_Some). by rewrite Hf.
  - by rewrite list_lookup_insert_ne.
Qed.

Lemma held_end i j rx src s :
  sub_sources s !! j = Some src →
  held i (end_source j rx src s) = if decide (j = i) then of_bus i (through (sub_tail s)) ++ omap (src_forward src) (rx_unread rx) else held i s.
Proof.
  intros Hj. unfold end_source. destruct (forallb _ _).
  - unfold on_tail. rewrite held_tail by done. by rewrite (held_put i j src).
  - by rewrite (held_put i j src).
Qed.

Lemma healthy_open j src s : healthy s → sub_sources s !! j = Some src → src_done src = false →
  fw_closed (sub_tail s) = false ∧ fw_done (sub_tail s) = false.
Proof.
  intros [Hc Hd _] Hj Hs. assert (fw_closed (sub_tail s) = false) as Hcl.
  { destruct (fw_closed (sub_tail s)); [|done]. specialize (Hc eq_refl). rewrite Forall_lookup in Hc. apply Hc in Hj. congruence. }
  split; [done|]. destruct (fw_done (sub_tail s)); [|done]. destruct Hd; congruence.
Qed.

Lemma held_send i j src src' m s :
  sub_sources s !! j = Some src → src_forward src' = src_forward src → fw_done (sub_tail s) = false →
  held i (on_tail (Forward.Send (j, m)) (set_source j src' s)) = if decide (j = i) then
    of_bus i (through (sub_tail s)) ++ (if fw_closed (sub_tail s) then [] else [m]) ++ omap (src_forward src) (rx_unread (src_rx src')) else held i s.
Proof.
  intros Hj Hf Hd. unfold held, on_tail. cbn [sub_sources sub_tail set_source Forward.step]. rewrite Hd, orb_false_r. unfold through.
  destruct (decide (j = i)) as [->|Hne].
  - rewrite list_lookup_insert_eq by (by eapply lookup_lt_Some). rewrite Hf. destruct (fw_closed (sub_tail s)); [done|].
    cbn [fw_called fw_inbox]. rewrite app_assoc, of_bus_app. cbn. rewrite decide_True by done. by rewrite <-app_assoc.
  - rewrite list_lookup_insert_ne by done. destruct (fw_closed (sub_tail s)); [done|]. cbn [fw_called fw_inbox].
    rewrite app_assoc, (of_bus_app i (_ ++ _)). cbn. rewrite decide_False by done. by rewrite app_nil_r.
Qed.

Lemma turn_held i j s : held i (turn j s) `sublist_of` held i s ∧ (healthy s → held i (turn j s) = held i s).
Proof.
  unfold turn. destruct (sub_sources s !! j) as [src|] eqn:Hj; [|done]. destruct (src_done src) eqn:Hd; [done|].
  assert (Hi : j = i → held i s = of_bus i (through (sub_tail s)) ++ omap (src_forward src) (rx_unread (src_rx src))).
  { intros <-. unfold held. by rewrite Hj. }
  unfold Rx.recv. destruct (rx_lagged (src_rx src)).
  { rewrite (held_put i j src) by done. destruct (decide (j = i)); [|done]. by rewrite Hi. }
  destruct (rx_unread (src_rx src)) as [|e l] eqn:Eu.
  { destruct (rx_closed (src_rx src)); [|done]. rewrite (held_end i j) by done. destruct (decide (j = i)); [|done]. by rewrite Hi, Eu. }
  simpl in Hi. destruct (src_forward src e) as [m|].
  2:{ rewrite (held_put i j src) by done. destruct (decide (j = i)); [|done]. by rewrite Hi. }
  destruct (fw_done (sub_tail s)) eqn:Ht.
  - split; [|intros Hh; destruct (healthy_open j src s Hh Hj Hd); congruence]. rewrite (held_end i j) by done.
    destruct (decide (j = i)); [|done]. rewrite Hi by done. simpl. apply sublist_app; [done|]. by apply sublist_cons.
  - rewrite (held_send i j src) by done. destruct (decide (j = i)); [|done]. rewrite Hi by done. split.
    + apply sublist_app; [done|]. destruct (fw_closed (sub_tail s)); [by apply sublist_cons|done].
    + intros Hh. by destruct (healthy_open j src s Hh Hj Hd) as [-> _].
Qed.

Lemma publish_unread e (r : Receiver StoreEvent) : rx_unread (Rx.publish e r) = rx_unread r ++ (if rx_closed r then [] else [e]).
Proof. unfold Rx.publish. destruct (rx_closed r); [by rewrite app_nil_r|done]. Qed.

(** One event: nothing is passed on that is not there, nothing changes places,
    and only an overrun, or an end of the callback's task, loses anything. *)
Lemma step_held i ev s :
  held i (step ev s) `sublist_of` held i s ++ gain i ev s ∧
  (healthy s → ev ≠ Overrun i → held i (step ev s) = held i s ++ gain i ev s).
Proof.
  assert (Hno : (∀ e, ev ≠ Publish i e) → gain i ev s = []).
  { intros Hp. unfold gain. destruct (sub_sources s !! i) as [src|]; [|done]. destruct (rx_closed _); [done|].
    destruct ev as [j e|j|j|j| |b]; simpl; try done; destruct (decide (j = i)) as [->|]; simpl; try done. by destruct (Hp e). }
  destruct ev as [j e|j|j|j| |b]; try (rewrite Hno, app_nil_r by done).
  - unfold held, gain. simpl. rewrite lookup_alter_source. destruct (sub_sources s !! i) as [src|]; [|done]. simpl.
    destruct (decide (j = i)); simpl; [rewrite publish_unread, omap_app, app_assoc|]; destruct (rx_closed _); rewrite ?app_nil_r; done.
  - unfold held. simpl. rewrite lookup_alter_source. destruct (sub_sources s !! i) as [src|]; [|done]. simpl.
    destruct (decide (j = i)) as [->|]; [|done]. split; [|done]. apply sublist_app; [done|]. unfold Rx.overrun. simpl.
    destruct (rx_unread (src_rx src)) as [|e l] eqn:El; simpl; [by rewrite El|]. destruct (src_forward src e); [by apply sublist_cons|done].
  - unfold held. simpl. rewrite lookup_alter_source. destruct (sub_sources s !! i) as [src|]; [|done]. simpl. by destruct (decide (j = i)).
  - destruct (turn_held i j s) as [H1 H2]. split; [done|]. intros Hh _. by apply H2.
  - done.
  - simpl. unfold on_tail. rewrite held_tail by (simpl; apply poll_through). done.
Qed.

Definition closes (i : nat) (ev : event) : bool := match ev with BusClosed j => bool_decide (j = i) | _ => false end.

Lemma published_cons i ev evs : published i (ev :: evs) = published i [ev] ++ (if closes i ev then [] else published i evs).
Proof.
  destruct ev as [j e|j|j|j| |b]; simpl; try done; [by destruct (decide (j = i))|].
  destruct (decide (j = i)); [by rewrite bool_decide_eq_true_2|by rewrite bool_decide_eq_false_2].
Qed.

(** What a filtering task filters never changes; its bus closes once. *)
Lemma put_source i j src src' s : sub_sources s !! j = Some src → src_forward src' = src_forward src → rx_closed (src_rx src') = rx_closed (src_rx src) →
  (λ src, (src_forward src, rx_closed (src_rx src))) <$> <[j := src']> (sub_sources s) !! i = (λ src, (src_forward src, rx_closed (src_rx src))) <$> sub_sources s !! i.
Proof.
  intros Hj Hf Hc. destruct (decide (j = i)) as [->|]; [|by rewrite list_lookup_insert_ne].
  rewrite list_lookup_insert_eq by (by eapply lookup_lt_Some). rewrite Hj. simpl. by rewrite Hf, Hc.
Qed.

Lemma end_source_sources i rx src s : sub_sources (end_source i rx src s) = <[i := mkSource (src_forward src) rx true]> (sub_sources s).
Proof. unfold end_source. by destruct (forallb _ _). Qed.

Lemma step_source i ev s :
  (λ src, (src_forward src, rx_closed (src_rx src))) <$> sub_sources (step ev s) !! i =
  (λ src, (src_forward src, rx_closed (src_rx src) || closes i ev)) <$> sub_sources s !! i.
Proof.
  assert (Hid : (λ src, (src_forward src, rx_closed (src_rx src) || false)) <$> sub_sources s !! i =
    (λ src, (src_forward src, rx_closed (src_rx src))) <$> sub_sources s !! i).
  { destruct (sub_sources s !! i); simpl; [by rewrite orb_false_r|done]. }
  destruct ev as [j e|j|j|j| |b]; simpl; rewrite ?lookup_alter_source, ?Hid; try done.
  - destruct (decide (j = i)); [|by rewrite option_fmap_id]. destruct (sub_sources s !! i) as [src|]; [|done]. simpl.
    unfold Rx.publish. destruct (rx_closed (src_rx src)) eqn:Hc; simpl; by rewrite ?Hc.
  - destruct (decide (j = i)); [|by rewrite option_fmap_id]. destruct (sub_sources s !! i) as [src|]; [|done]. simpl.
    unfold Rx.overrun. by destruct (rx_unread (src_rx src)).
  - case_bool_decide; [rewrite decide_True by done|rewrite decide_False by done]; destruct (sub_sources s !! i) as [src|]; simpl; try done;
      by rewrite ?orb_true_r, ?orb_false_r.
  - unfold turn. destruct (sub_sources s !! j) as [src|] eqn:Hj; [|done]. destruct (src_done src); [done|].
    unfold Rx.recv. destruct (rx_lagged _); [by apply (put_source i j src)|]. destruct (rx_unread _) as [|e l].
    + destruct (rx_closed (src_rx src)) eqn:Hc; [|done]. rewrite end_source_sources. by apply (put_source i j src).
    + destruct (src_forward src e); [destruct (fw_done _); [rewrite end_source_sources|simpl]|]; by apply (put_source i j src).
Qed.

(** An overrun loses one event, and only that. *)
Lemma step_lost i ev s :
  healthy s → length (held i s ++ gain i ev s) ≤ length (held i (step ev s)) + overruns i [ev].
Proof.
  intros Hh. assert (Hother : ev ≠ Overrun i → length (held i s ++ gain i ev s) ≤ length (held i (step ev s)) + overruns i [ev]).
  { intros Hne. rewrite (proj2 (step_held i ev s)) by done. lia. }
  destruct ev as [| j | | | |]; try (by apply Hother). destruct (decide (j = i)) as [->|]; [|apply Hother; congruence]. clear Hother.
  unfold overruns. rewrite filter_cons, decide_True by (by apply bool_decide_eq_true_2). unfold held, gain. simpl.
  rewrite lookup_alter_source, decide_True by done. destruct (sub_sources s !! i) as [src|]; [|simpl; lia]. simpl.
  replace (if rx_closed (src_rx src) then [] else []) with (@nil MutationEvent) by (by destruct (rx_closed _)).
  rewrite app_nil_r, !length_app. unfold Rx.overrun.
  destruct (rx_unread (src_rx src)) as [|e l] eqn:El; simpl; [rewrite El; simpl; lia|].
  change (list_omap _ _ _ l) with (omap (src_forward src) l). destruct (src_forward src e); simpl; lia.
Qed.

Lemma overruns_cons i ev evs : overruns i (ev :: evs) = overruns i [ev] + overruns i evs.
Proof. unfold overruns. rewrite !filter_cons. by case_decide. Qed.

Lemma sublist_full {A} (l k : list A) : l `sublist_of` k → length k ≤ length l → l = k.
Proof.
  induction 1 as [|x l k _ IH|x l k H IH]; simpl; intros Hl; [done|f_equal; apply IH; lia|]. apply sublist_length in H. lia.
Qed.

Lemma run_held i evs s src :
  sub_sources s !! i = Some src →
  let all := held i s ++ omap (src_forward src) (if rx_closed (src_rx src) then [] else published i evs) in
  held i (run evs s) `sublist_of` all ∧
  ((∀ k, healthy (run (take k evs) s)) → length all ≤ length (held i (run evs s)) + overruns i evs) ∧
  src_forward <$> sub_sources (run evs s) !! i = Some (src_forward src).
Proof.
  revert s src. induction evs as [|ev evs IH]; intros s src Hs all.
  { unfold all. destruct (rx_closed _); simpl; rewrite app_nil_r, Hs; (split_and!; [done|intros _; lia|done]). }
  pose proof (step_source i ev s) as Hstep. rewrite Hs in Hstep. simpl in Hstep.
  destruct (sub_sources (step ev s) !! i) as [src'|] eqn:Hs'; [|done]. injection Hstep as Hf Hc.
  destruct (step_held i ev s) as [Hsub _]. destruct (IH (step ev s) src' Hs') as (Hsub' & Heq' & Hf').
  assert (Hall : all = (held i s ++ gain i ev s) ++ omap (src_forward src') (if rx_closed (src_rx src') then [] else published i evs)).
  { unfold all, gain. rewrite Hs, published_cons, Hf, Hc, <-app_assoc. destruct (rx_closed (src_rx src)); [done|]. simpl.
    rewrite omap_app. by destruct (closes i ev). }
  split_and!.
  - rewrite Hall. etrans; [exact Hsub'|]. by apply sublist_app.
  - intros Hh. rewrite Hall, overruns_cons. change (run (ev :: evs) s) with (run evs (step ev s)).
    specialize (Heq' (λ k, Hh (S k))). pose proof (step_lost i ev s (Hh 0)) as Hlost. rewrite length_app in Heq' |- *. lia.
  - by rewrite <-Hf.
Qed.

Lemma spawn_healthy fs : healthy (spawn fs).
Proof. split; [done|done|]. apply Forall_fmap, Forall_true. done. Qed.

(** A turn leaves the rest open, or ends a task whose bus has closed. *)
Lemma turn_healthy j s : healthy s → healthy (turn j s).
Proof.
  intros Hh. unfold turn. destruct (sub_sources s !! j) as [src|] eqn:Hj; [|done]. destruct (src_done src) eqn:Hds; [done|].
  destruct (healthy_open j src s Hh Hj Hds) as [Hcl Hdn]. pose proof (hl_source _ Hh) as Hs.
  assert (Hput : ∀ rx tail, fw_closed tail = false → fw_done tail = false →
    healthy (mkSubscription (<[j := mkSource (src_forward src) rx false]> (sub_sources s)) tail)).
  { intros rx tail H1 H2. split; simpl; [congruence|congruence|]. by apply Forall_insert. }
  unfold Rx.recv. destruct (rx_lagged (src_rx src)) eqn:El; [by apply Hput|].
  destruct (rx_unread (src_rx src)) as [|e l] eqn:Eu.
  - destruct (rx_closed (src_rx src)) eqn:Ec; [|done].
    assert (Hs' : Forall (λ src, src_done src = true → rx_unread (src_rx src) = [] ∧ rx_lagged (src_rx src) = false ∧ rx_closed (src_rx src) = true)
      (<[j := mkSource (src_forward src) (src_rx src) true]> (sub_sources s))) by by apply Forall_insert.
    unfold end_source. destruct (forallb _ _) eqn:Eall; split; simpl; try congruence; try done.
    intros _. apply Forall_forall. intros x Hx. rewrite forallb_forall in Eall. by apply Eall, list_elem_of_In.
  - destruct (src_forward src e) as [m|]; [|by apply Hput]. rewrite Hdn.
    unfold on_tail. apply Hput; simpl; by rewrite Hcl, Hdn.
Qed.

Lemma step_healthy ev s : healthy s → fw_cancelled (sub_tail (step ev s)) = false → healthy (step ev s).
Proof.
  intros [Hc Hd Hs] Hn. assert (Halter : ∀ g i, (∀ r, rx_closed r = true → rx_unread r = [] → rx_lagged r = false →
      rx_closed (g r) = true ∧ rx_unread (g r) = [] ∧ rx_lagged (g r) = false) → healthy (mkSubscription (alter (on_rx g) i (sub_sources s)) (sub_tail s))).
  { intros g i Hg. split; simpl; [|done|].
    - intros Hcl. specialize (Hc Hcl). apply Forall_alter; [done|]. by intros src _.
    - apply Forall_alter; [done|]. intros src _ Hsrc Hdone. destruct (Hsrc Hdone) as (H1 & H2 & H3). simpl.
      destruct (Hg (src_rx src)) as (? & ? & ?); done. }
  destruct ev as [j e|j|j|j| |b]; simpl.
  - apply Halter. intros r Hr. unfold Rx.publish. by rewrite Hr.
  - apply Halter. intros r Hr Hu. unfold Rx.overrun. by rewrite Hu.
  - by apply Halter.
  - by apply turn_healthy.
  - done.
  - destruct (fw_cancelled (sub_tail s)) eqn:Ec; [by rewrite (step_cancelled (Poll b) s Ec) in Hn|]. clear Hn.
    unfold on_tail, Forward.step, Forward.poll. destruct (fw_done (sub_tail s)) eqn:Ed; [split; simpl; auto|]. rewrite Ec.
    simpl. destruct (fw_inbox (sub_tail s)) as [|e inbox] eqn:Ei; rewrite ?orb_false_r.
    + destruct (fw_closed (sub_tail s)) eqn:Ecl; split; simpl; try done; try congruence; auto.
    + split; simpl; try done; congruence.
Qed.

Lemma run_healthy evs s : healthy s → fw_cancelled (sub_tail (run evs s)) = false → ∀ k, healthy (run (take k evs) s).
Proof.
  revert s. induction evs as [|ev evs IH]; intros s Hh Hn k; [by destruct k|]. destruct k as [|k]; [done|].
  apply (IH (step ev s)); [|done]. apply step_healthy; [done|].
  destruct (fw_cancelled (sub_tail (step ev s))) eqn:E; [|done]. exfalso.
  assert (H : ∀ evs s, fw_cancelled (sub_tail s) = true → fw_cancelled (sub_tail (run evs s)) = true).
  { induction evs0 as [|e evs0 IH0]; intros s0 H0; [done|]. apply IH0. by apply step_cancelled. }
  rewrite (H evs (step ev s) E : fw_cancelled (sub_tail (run (ev :: evs) s)) = true) in Hn. done.
Qed.

(** ** Progress *)

Definition source_work (src : Source) : nat :=
  if src_done src then 0 else 1 + (if rx_lagged (src_rx src) then 1 else 0) + 2 * length (rx_unread (src_rx src)).
Definition tail_work (f : Forwarder (nat * MutationEvent)) : nat := if fw_done f then 0 else 1 + length (fw_inbox f).

(** What the tasks have left to do. *)
Definition work s : nat := sum_list_with source_work (sub_sources s) + tail_work (sub_tail s).

(** No task has anything to do. *)
Definition idle s : Prop := (∀ i, step (Turn i) s = s) ∧ ∀ b, step (Poll b) s = s.

Lemma sum_insert (l : list Source) i x y :
  l !! i = Some x → sum_list_with source_work (<[i := y]> l) + source_work x = sum_list_with source_work l + source_work y.
Proof.
  revert i. induction l as [|z l IH]; intros [|i] Hi; simplify_eq/=; [lia|]. specialize (IH i Hi). lia.
Qed.

Lemma turn_works i src s :
  sub_sources s !! i = Some src → src_done src = false → Rx.recv (src_rx src) ≠ None → work (turn i s) < work s.
Proof.
  intros Hi Hd Hr. unfold turn. rewrite Hi, Hd. pose proof (sum_insert (sub_sources s) i src) as Hsum.
  assert (Hend : ∀ rx, work (end_source i rx src s) < work s).
  { intros rx. specialize (Hsum (mkSource (src_forward src) rx true) Hi). change (source_work (mkSource (src_forward src) rx true)) with 0 in Hsum.
    assert (0 < source_work src) by (unfold source_work; rewrite Hd; lia).
    unfold end_source, work. destruct (forallb _ _); cbn [sub_sources sub_tail set_source on_tail]; [change (tail_work (Forward.step Forward.Close (sub_tail s))) with (tail_work (sub_tail s))|]; lia. }
  assert (Hput : ∀ rx tail, source_work (mkSource (src_forward src) rx false) + tail_work tail < source_work src + tail_work (sub_tail s) →
    work (mkSubscription (<[i := mkSource (src_forward src) rx false]> (sub_sources s)) tail) < work s).
  { intros rx tail Hlt. specialize (Hsum (mkSource (src_forward src) rx false) Hi). unfold work. cbn [sub_sources sub_tail]. lia. }
  unfold Rx.recv in *. unfold source_work in Hput. simpl in Hput. rewrite Hd in Hput.
  destruct (rx_lagged (src_rx src)); [apply Hput; simpl; lia|]. destruct (rx_unread (src_rx src)) as [|e l].
  - destruct (rx_closed (src_rx src)); [apply Hend|done].
  - destruct (src_forward src e) as [m|]; [|apply Hput; simpl; lia]. destruct (fw_done (sub_tail s)) eqn:Et; [apply Hend|].
    unfold on_tail. apply Hput. simpl. unfold tail_work. rewrite Et, orb_false_r. destruct (fw_closed _); simpl; rewrite ?Et, ?length_app; simpl; lia.
Qed.

Lemma poll_works b f : Forward.poll b f = f ∨ tail_work (Forward.poll b f) < tail_work f.
Proof.
  unfold Forward.poll, tail_work. destruct (fw_done f) eqn:Ed; [by left|]. destruct (_ && b); [right; simpl; lia|].
  destruct (fw_inbox f) as [|e l] eqn:Ei; [destruct (_ || _); [right; simpl; lia|by left]|right; simpl; lia].
Qed.

Lemma idle_drained i src s : healthy s → fw_cancelled (sub_tail s) = false → idle s → sub_sources s !! i = Some src →
  rx_unread (src_rx src) = [] ∧ fw_inbox (sub_tail s) = [].
Proof.
  intros Hh Hc [Hturn Hpoll] Hi. split.
  - destruct (src_done src) eqn:Hd; [pose proof (hl_source _ Hh) as Hs; rewrite Forall_lookup in Hs; by apply (Hs i src Hi)|].
    destruct (Rx.recv (src_rx src)) as [p|] eqn:Er.
    + pose proof (turn_works i src s Hi Hd ltac:(congruence)) as Hw. specialize (Hturn i). simpl in Hturn. rewrite Hturn in Hw. lia.
    + unfold Rx.recv in Er. destruct (rx_lagged _); [done|]. by destruct (rx_unread _).
  - destruct (fw_done (sub_tail s)) eqn:Hd; [by apply (hl_done _ Hh)|]. specialize (Hpoll false). simpl in Hpoll.
    apply (f_equal (λ s, fw_inbox (sub_tail s))) in Hpoll. simpl in Hpoll. unfold Forward.poll in Hpoll. rewrite Hd, Hc in Hpoll. simpl in Hpoll.
    destruct (fw_inbox (sub_tail s)) as [|e l] eqn:Ei; [done|]. simpl in Hpoll. apply (f_equal length) in Hpoll. simpl in Hpoll. lia.
Qed.

(** Every event in the channel comes from a task of the subscription. *)
Definition from_sources (n : nat) s : Prop :=
  length (sub_sources s) = n ∧ Forall (λ t, t.1 < n) (through (sub_tail s)).

Lemma step_from_sources n ev s : from_sources n s → from_sources n (step ev s).
Proof.
  intros [Hn Ht]. unfold from_sources. destruct ev as [j e|j|j|j| |b]; simpl; rewrite ?length_alter; try done.
  - unfold turn. destruct (sub_sources s !! j) as [src|] eqn:Hj; [|done]. apply lookup_lt_Some in Hj as Hlt.
    destruct (src_done src); [done|]. destruct (Rx.recv _) as [[rx [ev| |]]|]; [| | |done]; unfold end_source; repeat case_match; simpl; rewrite length_insert; try done.
    split; [done|]. unfold through. simpl. destruct (_ || _); [done|]. simpl. rewrite app_assoc. apply Forall_app. split; [done|]. constructor; [simpl; lia|done].
  - by rewrite (proj1 (poll_through b _)).
Qed.

Lemma run_ind_sub (P : Subscription → Prop) evs s : (∀ ev s, P s → P (step ev s)) → P s → P (run evs s).
Proof. intros Hstep. revert s. induction evs as [|ev evs IH]; intros s Hs; [done|]. by apply IH, Hstep. Qed.

(** Polls alone are a run of the callback's task. *)
Lemma run_polls bs s : sub_tail (run (Poll <$> bs) s) = Forward.run (Forward.Poll <$> bs) (sub_tail s).
Proof. revert s. induction bs as [|b bs IH]; intros s; [done|]. apply (IH (step (Poll b) s)). Qed.

Lemma run_done evs s : fw_done (sub_tail s) = true →
  fw_called (sub_tail (run evs s)) = fw_called (sub_tail s) ∧ fw_done (sub_tail (run evs s)) = true.
Proof.
  intros Hd. apply (run_ind_sub (λ s', fw_called (sub_tail s') = fw_called (sub_tail s) ∧ fw_done (sub_tail s') = true)); [|done].
  intros ev s' [Hc Hd']. rewrite <-Hc. clear s Hd Hc.
  assert (Htail : ∀ ev, fw_called (Forward.step ev (sub_tail s')) = fw_called (sub_tail s') ∧ fw_done (Forward.step ev (sub_tail s')) = true).
  { intros ev'. apply (done_run [ev'] _ Hd'). }
  destruct ev as [j e|j|j|j| |b]; simpl; try done; [|apply (Htail (Forward.Poll b))].
  unfold turn. rewrite Hd'. destruct (sub_sources s' !! j) as [src|]; [|done]. destruct (src_done src); [done|].
  destruct (Rx.recv _) as [[rx [ev| |]]|]; [| | |done]; unfold end_source; repeat case_match; simpl; done.
Qed.

(** C38: Subscriptions. The callback of a subscription is called for events of
    its buses only, those of each bus in the order they were published and
    each at most once. If nobody has unsubscribed, then once no task has
    anything left to do, it has been called for every event the subscription
    asks for but as many as the bus overran its reader, so for all of them when
    it never did; and every turn that changes something brings that point
    nearer. After an unsubscribe the
    callback's task ends within one turn more than the events that wait, and
    once it has ended nothing is called again. *)
Theorem subscription_contract fs evs :
  let s := run evs (spawn fs) in let called := fw_called (sub_tail s) in
  Forall (λ t, t.1 < length fs) called ∧
  (∀ i f, fs !! i = Some f → of_bus i called `sublist_of` omap f (published i evs)) ∧
  (∀ i f, fs !! i = Some f → fw_cancelled (sub_tail s) = false → idle s →
     length (omap f (published i evs)) ≤ length (of_bus i called) + overruns i evs ∧
     (overruns i evs = 0 → of_bus i called = omap f (published i evs))) ∧
  (∀ i, turn i s = s ∨ work (turn i s) < work s) ∧ (∀ b, step (Poll b) s = s ∨ work (step (Poll b) s) < work s) ∧
  (fw_cancelled (sub_tail s) = true → ∀ bs, length (fw_inbox (sub_tail s)) < length bs → fw_done (sub_tail (run (Poll <$> bs) s)) = true) ∧
  (fw_done (sub_tail s) = true → ∀ evs', fw_called (sub_tail (run evs' s)) = called).
Proof.
  intros s called.
  assert (Hheld : ∀ i f, fs !! i = Some f → held i s `sublist_of` omap f (published i evs) ∧
    ((∀ k, healthy (run (take k evs) (spawn fs))) → length (omap f (published i evs)) ≤ length (held i s) + overruns i evs) ∧
    ∃ src, sub_sources s !! i = Some src ∧ held i s = of_bus i called ++ of_bus i (fw_inbox (sub_tail s)) ++ omap f (rx_unread (src_rx src))).
  { intros i f Hf. assert (Hi : sub_sources (spawn fs) !! i = Some (mkSource f Rx.new false)) by (simpl; by rewrite list_lookup_fmap, Hf).
    destruct (run_held i evs (spawn fs) _ Hi) as (H1 & H2 & H3). fold s in H1, H2, H3.
    assert (held i (spawn fs) = []) as Hh by (unfold held; by rewrite Hi). rewrite Hh in H1, H2. simpl in H1, H2, H3. split_and!; [done..|].
    destruct (sub_sources s !! i) as [src|] eqn:Es; [|done]. exists src. split; [done|]. injection H3 as Hfe.
    unfold held, through. by rewrite Es, Hfe, of_bus_app, <-app_assoc. }
  split_and!.
  - pose proof (run_ind_sub (from_sources (length fs)) evs (spawn fs) (step_from_sources _)) as [_ Hall].
    + split; [by simpl; rewrite length_fmap|constructor].
    + by apply Forall_app in Hall as [Hall _].
  - intros i f Hf. destruct (Hheld i f Hf) as (H1 & _ & src & _ & H3). rewrite H3 in H1. etrans; [|exact H1]. by apply sublist_inserts_r.
  - intros i f Hf Hc Hid. destruct (Hheld i f Hf) as (H1 & H2 & src & Hs & H3).
    pose proof (run_healthy evs (spawn fs) (spawn_healthy fs) Hc) as Hh. specialize (H2 Hh).
    specialize (Hh (length evs)). rewrite take_ge in Hh by done. destruct (idle_drained i src s Hh Hc Hid Hs) as [Hu Hb].
    rewrite Hu, Hb, app_nil_r in H3. rewrite H3 in H1, H2. split; [done|]. intros H0. apply sublist_full; [done|lia].
  - intros i. destruct (sub_sources s !! i) as [src|] eqn:Hi; [|left; unfold turn; by rewrite Hi].
    destruct (src_done src) eqn:Hd; [left; unfold turn; by rewrite Hi, Hd|].
    destruct (Rx.recv (src_rx src)) as [p|] eqn:Er; [right; apply (turn_works i src); congruence|left; unfold turn; by rewrite Hi, Hd, Er].
  - intros b. destruct (poll_works b (sub_tail s)) as [H|H]; [left|right; unfold work; simpl; lia]. simpl. unfold on_tail. simpl. rewrite H. by destruct s.
  - intros Hc bs Hl. rewrite run_polls. by apply cancelled_ends.
  - intros Hd evs'. by apply run_done.
Qed.
End subscription.

(** ** The connection status *)

(** The task of [subscribe_to_connection_status]. *)
Record StatusTask := mkStatusTask {
  st_rx : Receiver ConnectionStatus;
  st_cancelled : bool;
  st_called : list ConnectionStatus;
  st_done : bool;
}.

Module Status.
Implicit Types t : StatusTask.

Definition spawn : StatusTask := mkStatusTask Rx.new false [] false.
Definition finish t : StatusTask := mkStatusTask (st_rx t) (st_cancelled t) (st_called t) true.

Definition poll (cancel_first : bool) t : StatusTask :=
  if st_done t then t else
  if st_cancelled t && cancel_first then finish t else
  match Rx.recv (st_rx t) with
  | Some (rx, Item status) => mkStatusTask rx (st_cancelled t) (st_called t ++ [status]) false
  | Some (rx, RecvLagged) => mkStatusTask rx (st_cancelled t) (st_called t) false
  | Some (rx, RecvClosed) => finish t
  | None => if st_cancelled t then finish t else t
  end.

Inductive event := Publish (status : ConnectionStatus) | Overrun | Closed | Unsubscribe | Poll (cancel_first : bool).

Definition step (ev : event) t : StatusTask :=
  let on_rx f := mkStatusTask (f (st_rx t)) (st_cancelled t) (st_called t) (st_done t) in
  match ev with
  | Publish status => on_rx (Rx.publish status)
  | Overrun => on_rx Rx.overrun
  | Closed => on_rx Rx.close
  | Unsubscribe => mkStatusTask (st_rx t) true (st_called t) (st_done t)
  | Poll b => poll b t
  end.

Definition run (evs : list event) t : StatusTask := foldl (λ t ev, step ev t) t evs.

Definition published (evs : list event) : list ConnectionStatus := omap (λ ev, match ev with Publish s => Some s | _ => None end) evs.
End Status.

(** The callback sees the statuses in order, each at most once; the ones an
    overrun skipped it never sees. *)
Lemma status_in_order evs : st_called (Status.run evs Status.spawn) `sublist_of` Status.published evs.
Proof.
  assert (H : ∀ t, st_called (Status.run evs t) ++ rx_unread (st_rx (Status.run evs t)) `sublist_of`
    (st_called t ++ rx_unread (st_rx t)) ++ Status.published evs).
  { induction evs as [|ev evs IH]; intros t; [by rewrite app_nil_r|]. specialize (IH (Status.step ev t)). etrans; [exact IH|]. clear IH.
    destruct ev as [s| | | |b]; simpl.
    - rewrite <-!app_assoc. apply sublist_app; [done|]. unfold Rx.publish. destruct (rx_closed _); simpl.
      + apply sublist_app; [done|]. by apply sublist_cons.
      + by rewrite <-app_assoc.
    - apply sublist_app; [|done]. apply sublist_app; [done|]. unfold Rx.overrun. destruct (rx_unread (st_rx t)) eqn:E; simpl; [by rewrite E|by apply sublist_cons].
    - done.
    - done.
    - apply sublist_app; [|done]. unfold Status.poll. destruct (st_done t); [done|]. destruct (_ && b); [done|]. unfold Rx.recv.
      destruct (rx_lagged _); [done|]. destruct (rx_unread (st_rx t)) as [|s l] eqn:E; simpl.
      + destruct (rx_closed _); [simpl; by rewrite E|]. destruct (st_cancelled t); simpl; by rewrite E.
      + by rewrite <-app_assoc. }
  specialize (H Status.spawn). simpl in H. etrans; [|exact H]. by apply sublist_inserts_r.
Qed.

(** ** Examples *)

Definition ex_event (id : string) : MutationEvent := mkEvent Insert "task" id "p1" None Local.

(** Two writes of a store without a durable layer, and one of another entity. *)
Definition ex_published : list Subscribe.event :=
  [Subscribe.Publish 0 (Mutation (ex_event "a")); Subscribe.Publish 0 (Mutation (mkEvent Insert "note" "n" "p1" None Local));
   Subscribe.Publish 0 (Mutation (ex_event "b"))].
Definition ex_tasks : list Subscribe.event :=
  [Subscribe.Turn 0; Subscribe.Poll true; Subscribe.Turn 0; Subscribe.Turn 0; Subscribe.Poll false].

(** Read in time, both are called for, in order; overrun once, the first of
    them is missing. *)
Lemma subscription_contract_witness :
  let fs := Subscribe.entity_sources false "task" in
  Subscribe.of_bus 0 (fw_called (sub_tail (Subscribe.run (ex_published ++ ex_tasks) (Subscribe.spawn fs)))) = [ex_event "a"; ex_event "b"] ∧
  Subscribe.of_bus 0 (fw_called (sub_tail (Subscribe.run (ex_published ++ Subscribe.Overrun 0 :: Subscribe.Turn 0 :: ex_tasks) (Subscribe.spawn fs)))) = [ex_event "b"].
Proof.
  intros fs. destruct (subscription_contract fs (ex_published ++ ex_tasks)) as (_ & _ & Hall & _). split; [|vm_compute; reflexivity].
  destruct (Hall 0 (Store.forward "task" None (λ _, true))) as [_ H].
  - reflexivity.
  - vm_compute. reflexivity.
  - split; [intros [|i]; vm_compute; reflexivity|]. intros []; vm_compute; reflexivity.
  - rewrite H; vm_compute; reflexivity.
Defined.

(** An event that was sent before the callback was taken back, and one sent
    after it, may still reach it. *)
Lemma called_after_unsubscribe {E} (e1 e2 : E) :
  fw_called (Forward.run [Forward.Send e1; Forward.Unsubscribe; Forward.Send e2; Forward.Poll false; Forward.Poll false]
    Forward.spawn_mutation_forwarder) = [e1; e2].
Proof. reflexivity. Qed.
