(* ===== verification/Bindings.v ===== *)
(** * The browser bindings

    Models stitch-wasm/src/lib.rs: how JavaScript values become configurations,
    records and versions, how errors of the store become JavaScript errors, the
    methods of the class [Store] over the handle of Facade.v on the target
    [Wasm32]. The tasks that call back into JavaScript are those of
    Subscriptions.v. The JavaScript host and the text of [serde_json] are the
    interfaces of WasmBackend.v; the derived deserialisers of the configuration
    objects are [FromValue]. *)
From stdpp Require Import pretty.
From Corelib Require Import Floats.SpecFloat.
From S2P Require Import Prelude Json Float64 Types Backend WasmBackend OfflineQueue StorePersistence PersistentQueue MemoryStore SyncEngine MqttAdapters RemoteSync Store SortRecords StoreLaws ScopeLaws StoreExamples Facade Subscriptions.

(** ** Interfaces *)

(** [js_set] is [Reflect::set] on an object nothing else refers to yet. *)
Class JsObject (J : Type) := {
  js_null : J;
  js_is_undefined : J → bool;
  js_is_null : J → bool;
  js_str : string → J;
  js_error_new : string → J;
  js_set : J → string → string → J;
  js_get : J → string → result J J;
}.

(** The [Display] text of foreign values. *)
Class ForeignText := {
  mqdb_display : MqdbError → string;
  value_display : Value → string;
}.

(** A derived deserialiser, with its error text. *)
Class FromValue (A : Type) := from_value : Value → result A string.

(** ** Configuration objects *)

Record ScopeDto := mkScopeDto { sd_root_entity : string; sd_child_entities : list string; sd_scope_field : string }.

Record TopLevelEntityDto := mkTopLevelDto { td_entity : string; td_subscription_pattern : string }.

Record ConfigDto := mkConfigDto {
  cd_entities : gmap string EntityDefinition;
  cd_scope : ScopeDto;
  cd_top_level_entities : list TopLevelEntityDto;
  cd_local_only_entities : gmap string EntityDefinition;
  cd_sync_topic_prefix : option string;
  cd_response_topic_prefix : option string;
  cd_version_field : option string;
  cd_updated_at_field : option string;
  cd_user_scope_field : option string;
}.

Record PersistenceDto := mkPersistenceDto { pd_db_name : string; pd_passphrase : option string }.

Record WillDto := mkWillDto {
  wd_topic : string;
  wd_payload : string;
  wd_qos : option Z;
  wd_retain : option bool;
  wd_will_delay_interval_secs : option Z;
  wd_content_type : option string;
}.

Record RemoteDto := mkRemoteDto {
  rd_url : string;
  rd_client_id : option string;
  rd_ticket : option string;
  rd_username : option string;
  rd_password : option string;
  rd_will : option WillDto;
  rd_keep_alive_secs : option Z;
  rd_auto_connect : option bool;
}.

Record OptionsDto := mkOptionsDto { od_persistence : option PersistenceDto; od_remote : option RemoteDto }.

Definition OptionsDto_default : OptionsDto := mkOptionsDto None None.

Record SortFieldDto := mkSortFieldDto { sfo_field : string; sfo_direction : option string }.

Record ListFilterDto := mkListFilterDto {
  lfd_scope_id : option string; lfd_sort : list SortFieldDto; lfd_projection : list string }.

Definition SortField_from (dto : SortFieldDto) : Store.SortField :=
  Store.mkSortField (sfo_field dto) (if bool_decide (sfo_direction dto = Some "desc") then Desc else Asc).

Definition op_label (op : Operation) : string := match op with Insert => "insert" | Update => "update" | Delete => "delete" end.

Definition origin_from_tag (tag : option string) : Origin :=
  if bool_decide (tag = Some "remote") then Remote else
  if bool_decide (tag = Some "load") then Load else
  if bool_decide (tag = Some "clear") then Clear else Local.

(** [format!("{status:?}")]. *)
Definition status_debug (status : ConnectionStatus) : string :=
  match status with
  | Offline => "Offline" | Connecting => "Connecting" | Connected => "Connected"
  | ErrorStatus => "Error" | Disconnected => "Disconnected"
  end.

Definition build_store_config (dto : ConfigDto) : FullConfig :=
  let scope := mkScopeConfig (sd_root_entity (cd_scope dto)) (sd_child_entities (cd_scope dto)) (sd_scope_field (cd_scope dto)) in
  let cfg := FullConfig_new (cd_entities dto) scope in
  let core := fc_core cfg in
  mkFullConfig
    (mkConfig scope ((λ t, mkTopLevel (td_entity t) (td_subscription_pattern t)) <$> cd_top_level_entities dto)
      (default (sync_topic_prefix core) (cd_sync_topic_prefix dto))
      (default (response_topic_prefix core) (cd_response_topic_prefix dto))
      (default (version_field core) (cd_version_field dto))
      (default (updated_at_field core) (cd_updated_at_field dto))
      (match cd_user_scope_field dto with Some f => Some f | None => user_scope_field core end))
    (fc_entities cfg) (cd_local_only_entities dto) (fc_event_channel_capacity cfg) (fc_session_expiry_secs cfg)
    (fc_keep_alive_secs cfg) (fc_clean_start cfg) (fc_will cfg).

(** The part of [create_store] that sets what the remote options carry. *)
Definition will_from (w : WillDto) : WillConfig :=
  mkWill (wd_topic w) (as_bytes (wd_payload w)) (default 0%Z (wd_qos w)) (default false (wd_retain w))
    (wd_will_delay_interval_secs w) (wd_content_type w).

Definition with_remote (remote : option RemoteDto) (c : FullConfig) : FullConfig :=
  match remote with
  | None => c
  | Some r =>
    mkFullConfig (fc_core c) (fc_entities c) (fc_local_only_entities c) (fc_event_channel_capacity c)
      (fc_session_expiry_secs c) (default (fc_keep_alive_secs c) (rd_keep_alive_secs r)) (fc_clean_start c) (will_from <$> rd_will r)
  end.

Definition store_options (opts : OptionsDto) : StoreOptions :=
  mkOptions ((λ p, mkPersistenceConfig (pd_db_name p) (pd_passphrase p)) <$> od_persistence opts)
    ((λ r, let cfg := RemoteConfig_new (rd_url r) in
           mkRemoteConfig (rc_server_url cfg) (rc_client_id cfg) (rc_get_ticket cfg) (rd_ticket r) (rd_username r) (rd_password r)
             (rc_request_timeout cfg) (default true (rd_auto_connect r))) <$> od_remote opts).

(** ** Errors *)

(** [Error::is_corruption] on [wasm32]. *)
Definition is_corruption_wasm (e : Error) : bool := match e with Types.Mqdb _ MqCorruption => true | _ => false end.

Definition error_parts (e : Error) : string * option string * option string :=
  match e with
  | NotInitialized => ("notInitialized", None, None)
  | AlreadyInitialized => ("alreadyInitialized", None, None)
  | ScopeNotActive _ => ("scopeNotActive", None, None)
  | UnknownEntity _ => ("unknownEntity", None, None)
  | NotFound entity id => ("notFound", Some entity, Some id)
  | Ownership entity id => ("ownership", Some entity, Some id)
  | Conflict entity id => ("conflict", Some entity, Some id)
  | PreconditionFailed entity id => ("preconditionFailed", Some entity, Some id)
  | Types.Mqdb _ _ =>
    if is_corruption_wasm e then ("corruption", None, None) else
    if is_permanent_mutation e then ("constraint", None, None) else ("mqdb", None, None)
  | Rejected _ => ("constraint", None, None)
  | PublishRejected reason_code =>
    if bool_decide (reason_code = 135%Z) then ("notAuthorized", None, None) else ("publishRejected", None, None)
  | Mqtt _ => ("mqtt", None, None)
  | ConnectionClosed => ("connectionClosed", None, None)
  | Timeout _ => ("timeout", None, None)
  | Config _ => ("config", None, None)
  | SessionInvalid => ("sessionInvalid", None, None)
  | Serde _ => ("serde", None, None)
  | Io _ => ("io", None, None)
  end.

Abbreviation kind e := (error_parts e).1.1.

(** The [Display] of [Error]. *)
Definition error_to_string {FT : ForeignText} (e : Error) : string :=
  match e with
  | NotInitialized => "not initialized"
  | AlreadyInitialized => "already initialized"
  | ScopeNotActive s => "scope not active: " +:+ s
  | UnknownEntity s => "entity not configured: " +:+ s
  | NotFound entity id => "entity not found: " +:+ entity +:+ "/" +:+ id
  | Ownership entity id => "ownership denied for " +:+ entity +:+ "/" +:+ id
  | Conflict entity id => "conflict for " +:+ entity +:+ "/" +:+ id
  | PreconditionFailed entity id => "precondition failed for " +:+ entity +:+ "/" +:+ id
  | Types.Mqdb method source => "mqdb error in " +:+ method +:+ ": " +:+ mqdb_display source
  | Mqtt s => "mqtt error: " +:+ s
  | PublishRejected reason_code => "publish rejected with reason code " +:+ pretty reason_code
  | Rejected s => "rejected: " +:+ s
  | ConnectionClosed => "connection closed"
  | Timeout ms => "request timeout after " +:+ pretty ms +:+ "ms"
  | Config s => "invalid configuration: " +:+ s
  | SessionInvalid => "session invalid"
  | Serde s => "serialization: " +:+ s
  | Io s => "io: " +:+ s
  end.

(** ** The class [Store] *)

Module Js.
Section store.
Context {D R J T : Type} {DB : Db D} {DC : DbClose D} {DS : DbSync D} {RO : RemoteOps R} {HI : HashIter}
  {JT : JsText J} {JH : JsHost J T} {ST : SerdeText T} {JO : JsObject J} {FT : ForeignText}
  {FC : FromValue ConfigDto} {FO : FromValue OptionsDto} {FL : FromValue ListFilterDto}
  {FS : FromValue (list SortFieldDto)} {FR : FromValue (gmap string (list Record_))}.
Abbreviation Js_Store := (Facade D R).
Implicit Types w : Js_Store.

Definition set_prop (target : J) (key value : string) : J := js_set target key value.

Definition js_error (message kind : string) (entity id : option string) : J :=
  let error := set_prop (js_error_new message) "kind" kind in
  let error := match entity with Some entity => set_prop error "entity" entity | None => error end in
  match id with Some id => set_prop error "id" id | None => error end.

Definition stitch_err (e : Error) : J :=
  let '(kind, entity, id) := error_parts e in js_error (error_to_string e) kind entity id.

Definition thrown_message (thrown : J) : string :=
  match (match js_get thrown "message" with Ok v => js_as_string v | Err _ => None end) with
  | Some s => s
  | None => default "unknown error" (js_as_string thrown)
  end.

Definition err (text : string) : J := js_error text "invalidInput" None None.
Definition invalid_input (thrown : J) : J := js_error (thrown_message thrown) "invalidInput" None None.
Definition internal_err (message : string) : J := js_error message "internal" None None.

Definition to_js (value : Value) : result J J :=
  let? text := map_err internal_err (serde_to_string value) in
  map_err (λ e, internal_err (thrown_message e)) (JSON_parse text).

Definition json_from_js (js : J) : result Value J :=
  let? text := map_err invalid_input (JSON_stringify js) in
  map_err err (serde_from_str text).

Definition record_from_js (js : J) : result Record_ J :=
  let? v := json_from_js js in
  match v with
  | Object map => Ok map
  | other => Err (err ("expected object, got " +:+ value_display other))
  end.

Definition expected_version_u64 (value : f64) : result Z J :=
  if is_finite value && ge_zero value && is_integral value then Ok (as_u64_sat value)
  else Err (err "expectedVersion must be a non-negative integer").

(** A value read through [from_value]. *)
Definition parsed {A} {FV : FromValue A} (js : J) : result A J :=
  let? v := json_from_js js in map_err err (from_value v).

Definition absent (js : J) : bool := js_is_undefined js || js_is_null js.

(** [fresh] is the client id made up when none is given. *)
Definition create_store (fresh : string) (config options : J) : result Js_Store J :=
  let? dto := parsed config in
  let? opts := (if absent options then Ok OptionsDto_default else parsed options) in
  let cfg := with_remote (od_remote opts) (build_store_config dto) in
  let client_id := od_remote opts ≫= rd_client_id in
  Ok (match client_id with
      | Some id => Handle.with_client_id cfg (store_options opts) id
      | None => Handle.new cfg (store_options opts) fresh
      end).

(** A call of the store under [map_err(stitch_err)]. *)
Definition core {A} (m : action Js_Store Error A) : action Js_Store J A := λ w, let '(w, r) := m w in (w, map_err stitch_err r).
Definition core_read {A} (f : Js_Store → result A Error) w : result A J := map_err stitch_err (f w).

Definition rows_js (rows : list Record_) : result J J := to_js (Array (Object <$> rows)).

Definition row_js (row : option Record_) : result J J :=
  match row with Some record => to_js (Object record) | None => Ok js_null end.

Definition initialize (env : Env D R) w : option (Js_Store * result () J) :=
  '(w, r) ← Handle.initialize Wasm32 env w; Some (w, map_err stitch_err r).

Definition connection_status w : result string J :=
  let? status := core_read Handle.connection_status w in Ok (status_debug status).

Definition set_authenticated_user (user_id : option string) : action Js_Store J () :=
  core (Handle.call (amodify (Store.set_authenticated_user user_id))).

Definition set_session_invalid_handler : action Js_Store J () := core (Handle.call (amodify Store.set_session_invalid_handler)).

Definition pending_mutation_count (scope_id : string) : Js_Store → result nat J :=
  core_read (Handle.ask (Store.pending_count scope_id)).

Definition create (io : Inputs) (entity scope_id : string) (data : J) (tag : option string) : action Js_Store J string :=
  let! record := alift (record_from_js data) in
  core (Handle.call (Store.create io entity scope_id record (origin_from_tag tag))).

Definition read (entity id : string) w : result J J :=
  let? row := core_read (Handle.read_sync entity id) w in row_js row.

Definition update (io : Inputs) (entity id : string) (fields : J) (tag : option string) : action Js_Store J () :=
  let! record := alift (record_from_js fields) in
  core (Handle.call (Store.update io entity id record (origin_from_tag tag))).

Definition delete (io : Inputs) (entity id : string) (tag : option string) : action Js_Store J () :=
  core (Handle.call (Store.delete io entity id (origin_from_tag tag))).

Definition update_if (entity id : string) (fields : J) (expected_version : f64) : action Js_Store J f64 :=
  let! record := alift (record_from_js fields) in
  let! expected := alift (expected_version_u64 expected_version) in
  let! new_version := core (Handle.call (Store.update_if entity id record expected)) in
  aret (i_as_f64 new_version).

Definition delete_if (entity id : string) (expected_version : f64) : action Js_Store J () :=
  let! expected := alift (expected_version_u64 expected_version) in
  core (Handle.call (Store.delete_if entity id expected)).

Definition read_local_state (entity id : string) w : result J J :=
  let? row := core_read (Handle.ask (Store.read_local_state entity id)) w in row_js row.

Definition replace_scope (scope_id : string) : action Js_Store J () := core (Handle.call (Store.replace_scope scope_id)).

Definition load_scope (scope_id : string) (data : J) : action Js_Store J () :=
  let! parsed := alift (parsed data) in
  core (Handle.call (Store.load_scope scope_id parsed)).

Definition clear_scope (scope_id : string) : action Js_Store J () := core (Handle.call (Store.clear_scope scope_id)).

Definition snapshot (entity scope_id : string) w : result J J :=
  let? rows := core_read (Handle.snapshot_sync entity scope_id) w in rows_js rows.

Definition list_ (entity : string) (filter : J) w : result J J :=
  let? filter := (if absent filter then Ok None else
    let? dto := parsed (A := ListFilterDto) filter in
    Ok (Some (Store.mkListFilter (lfd_scope_id dto) (SortField_from <$> lfd_sort dto) (lfd_projection dto)))) in
  let? rows := core_read (Handle.ask (Store.list entity filter)) w in rows_js rows.

(** No answer when sorting the rows panics. *)
Definition list_root_entities (sort : J) w : option (result J J) :=
  match (if absent sort then Ok [] else let? dtos := parsed (A := list SortFieldDto) sort in Ok (SortField_from <$> dtos)) with
  | Err e => Some (Err e)
  | Ok sort =>
    r ← Handle.list_root_entities Wasm32 sort w;
    Some (let? rows := map_err stitch_err r in rows_js rows)
  end.

Definition get_child_count (entity scope_id : string) : Js_Store → result nat J :=
  core_read (Handle.child_count_sync entity scope_id).

Definition get_version (scope_id entity : string) w : result f64 J :=
  let? v := core_read (Handle.ask (λ s, Ok (Store.version scope_id entity s))) w in Ok (i_as_f64 v).

(** The loop of [get_snapshot_as_map]. *)
Definition by_id (rows : list Record_) : Record_ :=
  foldl (λ map row, match get_str row "id" with Some id => <[id := Object row]> map | None => map end) ∅ rows.

Definition get_snapshot_as_map (entity scope_id : string) w : result J J :=
  let? rows := core_read (Handle.snapshot_sync entity scope_id) w in
  to_js (Object (by_id rows)).

Definition close_scope (scope_id : string) : action Js_Store J () := core (Handle.close_scope Wasm32 scope_id).

Definition ready : Js_Store → bool := Handle.ready.
Definition has_persistence : Js_Store → result bool J := core_read Handle.has_persistence.
Definition has_remote : Js_Store → result bool J := core_read Handle.has_remote.
Definition is_reconnecting : Js_Store → result bool J := core_read Handle.is_reconnecting.

Definition disconnect : action Js_Store J () := core (Handle.call Store.disconnect).

Definition reconnect (server_url : string) (ticket username password : option string) : action Js_Store J () :=
  core (Handle.call (Store.reconnect server_url ticket username password)).

Definition reset_for_logout : action Js_Store J () := core (Handle.reset_for_logout Wasm32).

Definition destroy : action Js_Store J () := core (Handle.shutdown Wasm32).

Definition begin_batch : action Js_Store J () := core (Handle.call (amodify Store.begin_batch)).
Definition end_batch : action Js_Store J () := core (Handle.call (amodify Store.end_batch)).

Definition update_local_state (entity id : string) (fields : J) : action Js_Store J () :=
  let! record := alift (record_from_js fields) in
  core (Handle.call (Store.update_local_state entity id record)).

Definition request (topic : string) (payload : J) : action Js_Store J J :=
  let! payload := alift (json_from_js payload) in
  let! record := core (Handle.call (Store.request topic payload)) in
  alift (to_js (Object record)).

(** The arguments of the callback of [subscribe_to_entity]. *)
Definition entity_args (event : MutationEvent) : list J :=
  let data := match ev_data event with
              | Some record => match to_js (Object record) with Ok v => v | Err _ => js_null end
              | None => js_null
              end in
  [data; js_str (op_label (ev_operation event))].

(** The handles of the tasks that feed the channel, and the subscription. *)
Definition subscribe_to_entity (entity : string) : action Js_Store J (list nat * Subscription) :=
  let! tasks := core (Handle.subscribe_entity Wasm32 entity) in
  let! persistent := core (λ w, (w, Handle.has_persistence w)) in
  aret (tasks, Subscribe.spawn (Subscribe.entity_sources persistent entity)).

(** Its callback takes no arguments. *)
Definition subscribe_to_scope (scope_id entity : string) : action Js_Store J (list nat * Subscription) :=
  let! tasks := core (Handle.subscribe_scope_entity Wasm32 scope_id entity) in
  aret (tasks, Subscribe.spawn (Subscribe.scope_sources scope_id entity)).

Definition status_args (status : ConnectionStatus) : list J := [js_str (status_debug status)].

(** The first call of the callback, and the task, when a remote is
    configured. *)
Definition subscribe_to_connection_status w : result (option (option (list J) * StatusTask)) J :=
  let? remote := core_read Handle.has_remote w in
  if (remote : bool) then
    let first := match Handle.connection_status w with Ok status => Some (status_args status) | Err _ => None end in
    Ok (Some (first, Status.spawn))
  else Ok None.
End store.
End Js.

(** ** What a thrown error tells *)

(** What [js_sys] documents of error objects; [jl_error] tells them. *)
Class JsObjectLaws (J : Type) {JT : JsText J} {JO : JsObject J} := {
  jl_error : J → Prop;
  jl_new m : jl_error (js_error_new m);
  jl_set o k v : jl_error o → jl_error (js_set o k v);
  jl_as_string s : js_as_string (js_str s) = Some s;
  jl_get_set o k v : jl_error o → js_get (js_set o k v) k = Ok (js_str v);
  jl_get_set_ne o k k' v : jl_error o → k ≠ k' → js_get (js_set o k v) k' = js_get o k';
  jl_message m : js_get (js_error_new m) "message" = Ok (js_str m);
  jl_plain m k : k ≠ "message" → ∀ v, js_get (js_error_new m) k = Ok v → js_as_string v = None;
}.

Section errors.
Context {J : Type} {JT : JsText J} {JO : JsObject J} {FT : ForeignText} {JL : JsObjectLaws J}.

(** [error.k], when it is a string. *)
Definition prop (error : J) (k : string) : option string :=
  match js_get error k with Ok v => js_as_string v | Err _ => None end.

Lemma prop_set o k k' v : jl_error o → prop (js_set o k v) k' = if decide (k = k') then Some v else prop o k'.
Proof using JL JO JT.
  intros Ho. unfold prop. case_decide as E; [subst; by rewrite jl_get_set, jl_as_string|]. by rewrite jl_get_set_ne.
Qed.

Lemma prop_new m k : prop (js_error_new m) k = if decide (k = "message") then Some m else None.
Proof using JL JO JT.
  unfold prop. case_decide as E; [subst; by rewrite jl_message, jl_as_string|].
  destruct (js_get (js_error_new m) k) as [v|] eqn:Hv; [by eapply jl_plain|done].
Qed.

Lemma js_error_props message kd entity id :
  let e := Js.js_error message kd entity id in
  prop e "message" = Some message ∧ prop e "kind" = Some kd ∧ prop e "entity" = entity ∧ prop e "id" = id.
Proof using JL JO JT.
  unfold Js.js_error, Js.set_prop. destruct entity, id; cbv zeta; by rewrite !prop_set, !prop_new by auto using jl_new, jl_set.
Qed.

Ltac solve_kinds :=
  split; [reflexivity|];
  repeat match goal with |- _ ∧ _ => split end;
  repeat match goal with |- _ ↔ _ => split end;
  intros H;
  first [reflexivity | discriminate H | decide_compute | by destruct H as [? ?] |
         exfalso; revert H; match goal with |- ?P → False => change (¬ P) end; decide_compute].

(** Errors keep their class. The error object of a failed call carries the
    text of the error; its [kind] tells the classes the store itself goes by
    apart: missing row, conflict, ownership, stale version, constraint and
    corruption each have a kind of their own, a transient failure one of four;
    entity and id are there exactly for the four kinds about a row. *)
Theorem error_kinds (e : Error) :
  let js := Js.stitch_err e in
  prop js "message" = Some (error_to_string e) ∧
  (prop js "kind" = Some "notFound" ↔ is_not_found e = true) ∧
  (prop js "kind" = Some "conflict" ↔ is_conflict e = true) ∧
  (prop js "kind" = Some "ownership" ↔ is_ownership e = true) ∧
  (prop js "kind" = Some "preconditionFailed" ↔ is_precondition_failed e = true) ∧
  (prop js "kind" = Some "constraint" ↔ is_permanent_mutation e = true) ∧
  (prop js "kind" = Some "corruption" ↔ is_corruption_wasm e = true) ∧
  (is_transient e = true → prop js "kind" ∈ Some <$> ["timeout"; "connectionClosed"; "mqtt"; "publishRejected"]) ∧
  (prop js "kind" = Some "notAuthorized" → is_terminal_publish_rejection e = true) ∧
  (is_Some (prop js "entity") ↔ prop js "kind" ∈ Some <$> ["notFound"; "ownership"; "conflict"; "preconditionFailed"]) ∧
  (is_Some (prop js "id") ↔ is_Some (prop js "entity")).
Proof using FT JL JO JT.
  cbv zeta. unfold Js.stitch_err. destruct (error_parts e) as [[k entity] id] eqn:E.
  destruct (js_error_props (error_to_string e) k entity id) as (-> & -> & -> & ->).
  destruct e as [| | | | | | | |method source| |rc| | | | | | |]; try (injection E as <- <- <-; solve_kinds).
  - destruct source; injection E as <- <- <-; solve_kinds.
  - simpl in E. case_bool_decide as Hrc; injection E as <- <- <-; [subst rc; solve_kinds|]. solve_kinds.
Qed.
End errors.

(** ** Versions and snapshots *)

Section values.
Context {D R J T : Type} {DB : Db D} {DC : DbClose D} {DS : DbSync D} {RO : RemoteOps R} {HI : HashIter}
  {JT : JsText J} {JH : JsHost J T} {ST : SerdeText T} {JO : JsObject J} {FT : ForeignText}.
Implicit Types w : Facade D R.

Lemma expected_version_exact v : (0 ≤ v ≤ 2 ^ 53)%Z → Js.expected_version_u64 (i_as_f64 v) = Ok v.
Proof. intros Hv. unfold Js.expected_version_u64. by destruct (f64_roundtrip v Hv) as (-> & -> & -> & ->). Qed.

(** C39: Versions through JavaScript. A version up to 2^53 that a browser reads
    comes back as the same number: a checked update with it asks the server
    for exactly that version, and the answer's version reads back unchanged.
    The next number does not: it would ask for the version before it. *)
Theorem version_through_js entity id fields r v w :
  Js.record_from_js fields = Ok r → (0 ≤ v ≤ 2 ^ 53)%Z →
  (Js.update_if entity id fields (i_as_f64 v) w).1 = (Handle.call (Store.update_if entity id r v) w).1 ∧
  match (Handle.call (Store.update_if entity id r v) w).2 with
  | Ok v' => (Js.update_if entity id fields (i_as_f64 v) w).2 = Ok (i_as_f64 v') ∧
             ((0 ≤ v' ≤ 2 ^ 53)%Z → Js.expected_version_u64 (i_as_f64 v') = Ok v')
  | Err e => (Js.update_if entity id fields (i_as_f64 v) w).2 = Err (Js.stitch_err e)
  end ∧
  Js.expected_version_u64 (i_as_f64 (2 ^ 53 + 1)) = Ok (2 ^ 53)%Z.
Proof.
  intros Hr Hv. unfold Js.update_if, abind, alift, Js.core. rewrite Hr, (expected_version_exact v Hv).
  destruct (Handle.call (Store.update_if entity id r v) w) as [w' [v'|e]]; simpl; split_and!; try done.
  apply expected_version_exact.
Qed.

Lemma by_id_app rows row :
  Js.by_id (rows ++ [row]) = match get_str row "id" with Some id => <[id := Object row]> (Js.by_id rows) | None => Js.by_id rows end.
Proof. unfold Js.by_id. by rewrite foldl_app. Qed.

(** The snapshot as a map. Its keys are the ids of the rows that have one,
    each with the last row of that id; when no id repeats, every such row is
    there. *)
Theorem snapshot_by_id rows id :
  Js.by_id rows !! id = Object <$> last (filter (λ r, get_str r "id" = Some id) rows) ∧
  (NoDup (omap (λ r, get_str r "id") rows) → ∀ row, row ∈ rows → get_str row "id" = Some id → Js.by_id rows !! id = Some (Object row)).
Proof.
  assert (Hl : Js.by_id rows !! id = Object <$> last (filter (λ r, get_str r "id" = Some id) rows)).
  { induction rows as [|row rows IH] using rev_ind; [done|]. rewrite by_id_app, filter_app. simpl.
    destruct (get_str row "id") as [id'|] eqn:Hid.
    - destruct (decide (id' = id)) as [->|Hne].
      + rewrite lookup_insert_eq. rewrite filter_cons_True by done. by rewrite filter_nil, last_snoc.
      + rewrite lookup_insert_ne by done. rewrite filter_cons_False by congruence. by rewrite filter_nil, app_nil_r.
    - rewrite filter_cons_False by congruence. by rewrite filter_nil, app_nil_r. }
  split; [done|]. intros Hnd row Hrow Hid. rewrite Hl.
  assert (Hone : filter (λ r, get_str r "id" = Some id) rows = [row]); [|by rewrite Hone].
  clear Hl. induction rows as [|r rows IH]; [by apply not_elem_of_nil in Hrow|]. simpl in Hnd.
  apply elem_of_cons in Hrow as [->|Hrow].
  - rewrite filter_cons_True by done. f_equal. rewrite Hid in Hnd. apply NoDup_cons in Hnd as [Hni _].
    destruct (filter (λ r0, get_str r0 "id" = Some id) rows) as [|x l] eqn:Ef; [done|]. exfalso. apply Hni.
    assert (x ∈ filter (λ r0, get_str r0 "id" = Some id) rows) as Hx by (rewrite Ef; left).
    apply list_elem_of_filter in Hx as [Hx1 Hx2]. apply list_elem_of_omap. by exists x.
  - destruct (get_str r "id") as [id'|] eqn:Hr; [apply NoDup_cons in Hnd as [Hni Hnd]|].
    + assert (id' ≠ id). { intros ->. apply Hni, list_elem_of_omap. by exists row. }
      rewrite filter_cons_False by congruence. by apply IH.
    + rewrite filter_cons_False by congruence. by apply IH.
Qed.

(** Before [initialize]. Every call that needs an open store leaves it as
    it is and throws the error of kind notInitialized; [destroy] does nothing. *)
Theorem uninitialised_calls w io e id sid tag url t u p :
  fa_cell w = None →
  let no := Js.stitch_err NotInitialized in
  (∀ data r, Js.record_from_js data = Ok r →
     Js.create io e sid data tag w = (w, Err no) ∧ Js.update io e id data tag w = (w, Err no) ∧
     Js.update_local_state e id data w = (w, Err no)) ∧
  Js.delete io e id tag w = (w, Err no) ∧ Js.read e id w = Err no ∧ Js.snapshot e sid w = Err no ∧
  Js.get_snapshot_as_map e sid w = Err no ∧ Js.get_child_count e sid w = Err no ∧ Js.get_version sid e w = Err no ∧
  Js.read_local_state e id w = Err no ∧ Js.pending_mutation_count sid w = Err no ∧ Js.connection_status w = Err no ∧
  Js.replace_scope sid w = (w, Err no) ∧ Js.clear_scope sid w = (w, Err no) ∧ Js.close_scope sid w = (w, Err no) ∧
  Js.disconnect w = (w, Err no) ∧ Js.reconnect url t u p w = (w, Err no) ∧ Js.reset_for_logout w = (w, Err no) ∧
  Js.begin_batch w = (w, Err no) ∧ Js.end_batch w = (w, Err no) ∧ Js.set_authenticated_user u w = (w, Err no) ∧
  Js.subscribe_to_entity e w = (w, Err no) ∧ Js.subscribe_to_scope sid e w = (w, Err no) ∧
  Js.subscribe_to_connection_status w = Err no ∧ Js.has_remote w = Err no ∧ Js.has_persistence w = Err no ∧
  Js.ready w = false ∧ Js.destroy w = (w, Ok ()).
Proof.
  destruct w as [cfg opts cid cell dropped inners next]. intros Hc no. simpl in Hc. subst cell.
  split; [|by split_and!]. intros data r Hr. unfold Js.create, Js.update, Js.update_local_state, abind, alift. by rewrite Hr.
Qed.
End values.

(** ** Insert and look up *)

Section insert.
Context {M J T R : Type} {JT : JsText J} {JH : JsHost J T} {ST : SerdeText T} {JO : JsObject J} {FT : ForeignText} {WD : WasmDatabase M J}
  {WL : WasmDatabaseLaws (M := M) (J := J) (T := T)} {RO : RemoteOps R} {HI : HashIter}.
Context (entities : StoreConfig → list (string * EntityDefinition)).
#[local] Instance js_db : Db (WasmDb M) := WasmDb.wasm_Db entities.
Implicit Types (w : Facade (WasmDb M) R) (m : MemoryStore (WasmDb M)).

Abbreviation rows_in m := (wl_table (wasm_db (ms_db m))).

(** The row a create stores: with its id, its scope field when it is a child,
    and without nulls. *)
Definition new_row (c : StoreConfig) (entity scope_id id : string) (data : Record_) : Record_ :=
  let data := <["id" := Str id]> data in
  let sid := if bool_decide (entity = root_entity (scope c)) then id else scope_id in
  let data := if negb (bool_decide (entity = root_entity (scope c))) && negb (Store.is_top_level c entity)
              then entry_or_insert data (scope_field (scope c)) (Str sid) else data in
  MemoryStore.stamp_scope c entity sid (strip_nulls data).

Lemma new_row_id c entity scope_id id data : get_str (new_row c entity scope_id id data) "id" = Some id.
Proof.
  assert (Hset : ∀ r k v, get_str r "id" = Some id → (contains_key r k = false) → get_str (<[k := v]> r) "id" = Some id).
  { intros r k v Hr Hk%contains_key_false. rewrite get_str_insert. case_decide as E; [|done]. subst k.
    unfold get_str in Hr. by rewrite Hk in Hr. }
  assert (Hid : ∀ r, get_str (<["id" := Str id]> r) "id" = Some id) by (intros r; by rewrite get_str_insert, decide_True).
  unfold new_row, MemoryStore.stamp_scope. set (sid := if bool_decide _ then id else scope_id).
  assert (H1 : get_str (if negb (bool_decide (entity = root_entity (scope c))) && negb (Store.is_top_level c entity)
    then entry_or_insert (<["id" := Str id]> data) (scope_field (scope c)) (Str sid) else <["id" := Str id]> data) "id" = Some id).
  { destruct (_ && _); [|apply Hid]. unfold entry_or_insert. destruct (_ !! scope_field _) eqn:E; [apply Hid|].
    apply Hset; [apply Hid|by apply contains_key_false]. }
  revert H1. generalize (if negb (bool_decide (entity = root_entity (scope c))) && negb (Store.is_top_level c entity)
    then entry_or_insert (<["id" := Str id]> data) (scope_field (scope c)) (Str sid) else <["id" := Str id]> data). intros r Hr.
  destruct (_ && negb (contains_key _ _)) eqn:E; [|by rewrite get_str_strip]. apply andb_prop in E as [_ E]. apply negb_true_iff in E.
  apply Hset; [by rewrite get_str_strip|done].
Qed.

(** The database under a memory store after a create. *)
Lemma memory_create_db m entity scope_id data origin id :
  let row := MemoryStore.stamp_scope (ms_config m) entity scope_id (strip_nulls data) in
  js_safe (Object row) → get_str row "id" = Some id → wd_is_memory_backend (wasm_db (ms_db m)) = true →
  post (MemoryStore.create entity scope_id data origin) m (λ m' r, is_ok r = true ∧
    wd_is_memory_backend (wasm_db (ms_db m')) = true ∧ rows_in m' = <[(entity, id) := wl_defaults entity row]> (rows_in m)).
Proof.
  intros row Hs Hid Hm. unfold MemoryStore.create. asteps. fold row. unfold MemoryStore.on_db. asteps.
  destruct (wasm_create_stored (ms_db m) entity row id Hs Hid) as (d' & Hd & Ht). eapply post_eq; [exact Hd|]. cbv beta iota. asteps.
  simpl. asteps. assert (Hdb : ∀ ev, ms_db (MemoryStore.emit_mutation ev (MemoryStore.set_db m d')) = d').
  { intros ev. unfold MemoryStore.emit_mutation, MemoryStore.announce. by destruct (bool_decide _). }
  rewrite Hdb. split_and!; [done| |exact Ht]. rewrite <-Hm. revert Hd. unfold WasmDb.create, abind, alift, WasmDb.on_wasm.
  destruct (WasmDb.to_js (Object row)) as [j|]; [|done]. pose proof (wl_memory (wasm_db (ms_db m)) entity j) as Hk.
  destruct (wd_create entity j (wasm_db (ms_db m))) as [m' [out|e]]; simpl in *; by intros [= <- _].
Qed.

(** A create on a store that has a memory cache only. *)
Lemma local_create (s : StoreInner (WasmDb M) R) c io entity scope_id r origin :
  si_config s = c → ms_config (si_memory s) = c → si_persistence s = None → si_remote s = None → si_queue s = None →
  wd_is_memory_backend (wasm_db (ms_db (si_memory s))) = true →
  let id := default (in_id io) (get_str r "id") in
  let row := new_row c entity scope_id id r in
  js_safe (Object row) → rows_in (si_memory s) !! (entity, id) = None →
  post (Store.create io entity scope_id r origin) s (λ s' res, res = Ok id ∧
    wd_is_memory_backend (wasm_db (ms_db (si_memory s'))) = true ∧ rows_in (si_memory s') !! (entity, id) = Some (wl_defaults entity row)).
Proof.
  intros Hcfg Hmc Hp Hrem Hq Hmem id row Hs Hno.
  unfold Store.create. asteps. rewrite Hcfg. fold id.
  set (sid := if bool_decide (entity = root_entity (scope c)) then id else scope_id).
  set (d := if negb (bool_decide (entity = root_entity (scope c))) && negb (Store.is_top_level c entity)
    then entry_or_insert (<["id" := Str id]> r) (scope_field (scope c)) (Str sid) else <["id" := Str id]> r).
  apply (post_mono _ _ (λ s' res, s' = s ∧ res = Ok None)).
  { case_bool_decide; [|by apply post_ret]. unfold Store.on_memory. astep. eapply post_eq; [reflexivity|].
    unfold MemoryStore.read. simpl. rewrite read_row, Hno. simpl. by destruct s. }
  intros s' res [-> ->]. cbv beta iota. rewrite bool_decide_eq_false_2 by by intros [? ?]. astep. unfold Store.on_memory. astep.
  eapply post_mono; [apply (memory_create_db (si_memory s) entity sid d origin id)|].
  - rewrite Hmc. exact Hs.
  - rewrite Hmc. apply (new_row_id c entity scope_id id r).
  - done.
  - rewrite Hmc. intros m' [rec|e] (Hok & Hm' & Ht); [|done]. cbv beta iota.
    astep. apply (post_mono _ _ (λ s' res, s' = Store.set_memory m' s ∧ res = Ok ())).
    { destruct (skips_persistence _); [by apply post_ret|]. apply post_ignore. unfold post, Store.on_layer. simpl. by rewrite Hp. }
    intros s' res' [-> ->]. cbv beta iota. astep. apply (post_mono _ _ (λ s' res, s' = Store.set_memory m' s ∧ res = Ok ())).
    { unfold Store.queue_and. destruct (_ && negb (skips_remote _)); [|by apply post_ret]. unfold post, Store.queue_push, Store.on_queue. simpl. by rewrite Hq. }
    intros s' res'' [-> ->]. cbv beta iota. asteps. unfold Store.live. simpl. rewrite Hrem. simpl. asteps. split_and!; [done..|].
    simpl. rewrite Ht, lookup_insert_eq. done.
Qed.

(** C27: What a browser writes it reads. In an open store with neither remote
    nor durable layer, over a healthy database, a create of a row that is not
    there answers its id, and a read of that id answers the row: the given
    fields without nulls, the id, the scope field of a child, and the
    defaults of the entity. *)
Theorem create_then_read w i n c io entity scope_id data tag r :
  fa_cell w = Some i → fa_inners w !! i = Some n → si_config (rn_inner n) = c → ms_config (si_memory (rn_inner n)) = c →
  si_persistence (rn_inner n) = None → si_remote (rn_inner n) = None → si_queue (rn_inner n) = None →
  wd_is_memory_backend (wasm_db (ms_db (si_memory (rn_inner n)))) = true → Js.record_from_js data = Ok r →
  let id := default (in_id io) (get_str r "id") in
  let row := new_row c entity scope_id id r in
  js_safe (Object row) → rows_in (si_memory (rn_inner n)) !! (entity, id) = None →
  post (Js.create io entity scope_id data tag) w (λ w' res,
    res = Ok id ∧ Js.read entity id w' = Js.to_js (Object (wl_defaults entity row))).
Proof.
  intros Hc Hn Hcfg Hmc Hp Hrem Hq Hmem Hr id row Hs Hno. destruct n as [s tasks running]. simpl in *.
  pose proof (local_create s c io entity scope_id r (origin_from_tag tag) Hcfg Hmc Hp Hrem Hq Hmem Hs Hno) as Hstore.
  fold id in Hstore. fold row in Hstore.
  unfold post, Js.create, abind, alift, Js.core, Handle.call. rewrite Hr, Hc. simpl. rewrite Hn. simpl.
  unfold post in Hstore. destruct (Store.create io entity scope_id r (origin_from_tag tag) s) as [s' res]. simpl in *.
  destruct Hstore as (-> & Hm' & Hrow). split; [done|].
  unfold Js.read, Js.core_read, Handle.read_sync, Handle.ask. simpl. rewrite Hc. simpl. rewrite lookup_insert_eq. simpl.
  unfold Handle.memory_read_sync. simpl. rewrite (read_sync_row _ _ _ Hm'), Hrow. done.
Qed.
End insert.

(** ** Runs *)

(** JavaScript values and their text are the JSON they denote; an error is an
    object. *)
Definition value_set (o : Value) (k v : string) : Value := match o with Object m => Object (<[k := Str v]> m) | _ => o end.

#[export] Instance value_object : JsObject Value := {|
  js_null := Null;
  js_is_undefined _ := false;
  js_is_null := is_null;
  js_str := Str;
  js_error_new m := Object {[ "message" := Str m ]};
  js_set := value_set;
  js_get o k := match o with Object m => Ok (default Null (m !! k)) | _ => Err Null end;
|}.

#[export] Instance plain_text : ForeignText := {| mqdb_display _ := "database error"; value_display _ := "value" |}.

#[export] Program Instance value_object_laws : JsObjectLaws Value := {| jl_error o := ∃ m, o = Object m |}.
Next Obligation. intros m. by eexists. Qed.
Next Obligation. intros o k v [m ->]. by eexists. Qed.
Next Obligation. done. Qed.
Next Obligation. intros o k v [m ->]. simpl. by rewrite lookup_insert_eq. Qed.
Next Obligation. intros o k k' v [m ->] Hk. simpl. by rewrite lookup_insert_ne. Qed.
Next Obligation. intros m. simpl. by rewrite lookup_singleton_eq. Qed.
Next Obligation. intros m k Hk v. simpl. rewrite lookup_singleton_ne by done. by intros [= <-]. Qed.

Module BindingRuns.
#[local] Instance run_db : Db (WasmDb TableDb) := WasmDb.wasm_Db (λ _, []).

Definition get_list (m : Record_) (k : string) : list string :=
  match m !! k with Some (Array l) => omap as_str l | _ => [] end.

(** Deserialisers that read what the run below gives. *)
#[local] Instance read_config : FromValue ConfigDto := λ v,
  match (m ← as_object v; sc ← m !! "scope"; as_object sc) with
  | Some sc => Ok (mkConfigDto ∅ (mkScopeDto (default "" (get_str sc "rootEntity")) (get_list sc "childEntities") (default "" (get_str sc "scopeField")))
                 [] ∅ None None None None None)
  | None => Err "missing field `scope`"
  end.
#[local] Instance read_options : FromValue OptionsDto := λ _, Ok OptionsDto_default.

Definition js_config : Value :=
  object [("scope", object [("rootEntity", Str "workspace"); ("childEntities", Array [Str "task"]); ("scopeField", Str "workspaceId")])].

Definition no_env : Env (WasmDb TableDb) RemoteTable := mkEnv (λ _ _, Err NotInitialized) (λ _ _, Err NotInitialized) (Ok "") (λ _ _ _ _, aret ()).

(** [createStore], [initialize]. *)
Definition js_store : option (Facade (WasmDb TableDb) RemoteTable) :=
  match Js.create_store "client-1" js_config Null with
  | Ok w => fst <$> Js.initialize no_env w
  | Err _ => None
  end.

Definition task : Value := object [("id", Str "t1"); ("title", Str "x"); ("note", Null)].
Definition run_io : Inputs := mkInputs "fresh" "row" 0.

(** What the run needs to know of the open store. *)
Definition view (w : Facade (WasmDb TableDb) RemoteTable) :=
  i ← fa_cell w; n ← fa_inners w !! i;
  let s := rn_inner n in
  Some (si_config s, ms_config (si_memory s), si_persistence s, si_remote s, si_queue s, wasm_db (ms_db (si_memory s))).

Definition run_config : StoreConfig := StoreConfig_new (mkScopeConfig "workspace" ["task"] "workspaceId").

Definition run_data : Record_ := list_to_map [("id", Str "t1"); ("title", Str "x"); ("note", Null)].

Definition run_row : Record_ := {[ "id" := Str "t1"; "title" := Str "x"; "workspaceId" := Str "w1" ]}.

Lemma run_row_new : new_row run_config "task" "w1" "t1" run_data = run_row.
Proof. vm_compute. reflexivity. Qed.

Lemma run_row_safe : js_safe (Object run_row).
Proof.
  apply safe_object. intros k v Hk. unfold run_row in Hk.
  repeat (apply lookup_insert_Some in Hk as [[_ <-]|[_ Hk]]; [constructor|]). apply lookup_singleton_Some in Hk as [_ <-]. constructor.
Qed.

(** The whole way through: a row with a null, written and read. *)
Lemma create_then_read_witness :
  ∃ w, js_store = Some w ∧
  post (Js.create run_io "task" "w1" task None) w (λ w' res, res = Ok "t1" ∧
    Js.read "task" "t1" w' = Ok (object [("id", Str "t1"); ("title", Str "x"); ("workspaceId", Str "w1")])).
Proof.
  assert (Hg : view <$> js_store = Some (Some (run_config, run_config, None, None, None, ∅))) by (vm_compute; reflexivity).
  destruct js_store as [w|]; [|discriminate Hg]. injection Hg as Hg. exists w. split; [reflexivity|].
  unfold view in Hg. destruct (fa_cell w) as [i|] eqn:Hc; [|discriminate Hg]. simpl in Hg.
  destruct (fa_inners w !! i) as [n|] eqn:Hn; [|discriminate Hg]. simpl in Hg. injection Hg as H1 H2 H3 H4 H5 H6.
  eapply post_mono.
  - apply (create_then_read (λ _, []) w i n run_config run_io "task" "w1" task None
      run_data); [assumption..|reflexivity|vm_compute; reflexivity| |].
    + exact (eq_ind_r (λ r, js_safe (Object r)) run_row_safe run_row_new).
    + rewrite H6. reflexivity.
  - intros w' res [-> Hread]. split; [reflexivity|]. etransitivity; [exact Hread|]. vm_compute. reflexivity.
Defined.

(** A connected store whose row the server has at version 7. *)
Definition versioned : RemoteTable := {[ ("task", "t1") := <["_version" := Num (PosInt 7)]> (ex_task "t1" "new") ]}.
Definition connected : Facade (NativeDb TableDb) RemoteTable :=
  mkFacade FacadeRuns.config StoreOptions_default "c" (Some 0) false {[ 0 := mkRunning (ex_store versioned) [] ∅ ]} 1.

Lemma version_through_js_witness :
  (Js.update_if (J := Value) (T := Value) "task" "t1" (object [("status", Str "done")]) (i_as_f64 7) connected).2 = Ok (i_as_f64 8).
Proof.
  destruct (version_through_js (J := Value) (T := Value) "task" "t1" (object [("status", Str "done")]) (list_to_map [("status", Str "done")]) 7 connected) as (_ & H & _);
    [reflexivity|lia|].
  assert (E : (Handle.call (Store.update_if "task" "t1" (list_to_map [("status", Str "done")]) 7) connected).2 = Ok 8%Z) by (vm_compute; reflexivity).
  rewrite E in H. apply H.
Defined.

Lemma uninitialised_calls_witness :
  let w : Facade (WasmDb TableDb) RemoteTable := Handle.new FacadeRuns.config StoreOptions_default "c" in
  Js.create (J := Value) (T := Value) run_io "task" "w1" task None w = (w, Err (Js.stitch_err NotInitialized)) ∧
  prop (Js.stitch_err (J := Value) NotInitialized) "kind" = Some "notInitialized".
Proof.
  intros w. split; [|vm_compute; reflexivity].
  destruct (uninitialised_calls (J := Value) (T := Value) w run_io "task" "t1" "w1" None "" None None None eq_refl) as [H _].
  apply (H task run_data). reflexivity.
Defined.
End BindingRuns.
