(* ===== verification/Net.v ===== *)
(** * Addresses, errors and byte fields of the transport

    What the files of [crates/mqp2p] share: the error type (error.rs), socket
    addresses of the standard library, big-endian fields at an offset, and the
    padding and exclusive-or of STUN attributes. Where the source puts the
    text of a foreign error into a message, the text is left out. *)
From S2P Require Import Prelude SyncState.

(** ** Socket addresses *)

Inductive IpAddr := V4 (octets : list byte) | V6 (octets : list byte).

Inductive SocketAddr :=
| SockV4 (ip : list byte) (port : Z)
| SockV6 (ip : list byte) (port flowinfo scope_id : Z).

#[global] Instance SocketAddr_eq_dec : EqDecision SocketAddr.
Proof. solve_decision. Defined.

(** [SocketAddr::new] *)
Definition socket_addr (ip : IpAddr) (port : Z) : SocketAddr :=
  match ip with V4 o => SockV4 o port | V6 o => SockV6 o port 0 0 end.

Definition addr_ip (a : SocketAddr) : IpAddr :=
  match a with SockV4 ip _ => V4 ip | SockV6 ip _ _ _ => V6 ip end.

Definition addr_port (a : SocketAddr) : Z :=
  match a with SockV4 _ p => p | SockV6 _ p _ _ => p end.

Definition is_u16 (z : Z) : Prop := (0 ≤ z < 65536)%Z.

(** Addresses without a flow label and a zone: what a message can carry. *)
Definition addr_ok (a : SocketAddr) : Prop :=
  match a with
  | SockV4 ip port => length ip = 4 ∧ is_u16 port
  | SockV6 ip port flow scope => length ip = 16 ∧ is_u16 port ∧ flow = 0%Z ∧ scope = 0%Z
  end.

(** ** Errors *)

Inductive Error :=
| Stun (server : SocketAddr) (reason : string)
| StunParse (reason : string)
| TurnParse (reason : string)
| Turn (reason : string)
| Quic (reason : string)
| QuicConnect (addr : SocketAddr)
| FingerprintMismatch (expected actual : string)
| Signaling (reason : string)
| Transfer (reason : string)
| HashMismatch (expected actual : string)
| TransferRejected (reason : string)
| UnexpectedFrame (frame : byte)
| Io (e : IoError)
| Json.

#[global] Instance Error_eq_dec : EqDecision Error.
Proof. solve_decision. Defined.

(** ** Fields at an offset *)

(** [u16::from_be_bytes([buf[i], buf[i + 1]])], and the same for [u32]. *)
Definition u16_at (i : nat) (buf : list byte) : Z := from_be_bytes (slice i (i + 2) buf).
Definition u32_at (i : nat) (buf : list byte) : Z := from_be_bytes (slice i (i + 4) buf).

(** [len as u16]. *)
Definition as_u16 (n : nat) : Z := Z.of_nat n mod 65536.

Definition pad4 (n : nat) : nat := (4 - n mod 4) mod 4.

Lemma from_be_bytes_width n bs : length bs ≤ n → (0 ≤ from_be_bytes bs < 256 ^ Z.of_nat n)%Z.
Proof.
  intros Hl. pose proof (from_be_bytes_range bs). split; [lia|].
  eapply Z.lt_le_trans; [apply H|]. apply Z.pow_le_mono_r; lia.
Qed.

Lemma length_slice_le {A} a b (buf : list A) : length (slice a b buf) ≤ b - a.
Proof. unfold slice. rewrite length_take. lia. Qed.

Lemma u16_at_range i buf : is_u16 (u16_at i buf).
Proof.
  unfold is_u16, u16_at. pose proof (length_slice_le i (i + 2) buf).
  apply (from_be_bytes_width 2). lia.
Qed.

Lemma u32_at_range i buf : is_u32 (u32_at i buf).
Proof.
  unfold is_u32, u32_max, u32_at. pose proof (length_slice_le i (i + 4) buf) as H.
  pose proof (from_be_bytes_width 4 (slice i (i + 4) buf) ltac:(lia)) as H'. change (256 ^ Z.of_nat 4)%Z with 4294967296%Z in H'. lia.
Qed.

Lemma slice_between {A} (l m k : list A) a b : length l = a → a + length m = b → slice a b (l ++ m ++ k) = m.
Proof. intros <- <-. rewrite slice_app_r, Nat.sub_diag by lia. apply slice_app_head. lia. Qed.

Lemma slice_slice {A} a n i j (l : list A) :
  i ≤ j → j ≤ n → slice i j (slice a (a + n) l) = slice (a + i) (a + j) l.
Proof.
  intros. unfold slice. rewrite skipn_firstn_comm, take_take, drop_drop. f_equal; lia.
Qed.

Lemma as_u16_small n : (Z.of_nat n < 65536)%Z → as_u16 n = Z.of_nat n.
Proof. intros. unfold as_u16. apply Z.mod_small. lia. Qed.

Lemma u16_roundtrip z : is_u16 z → from_be_bytes (to_be_bytes 2 z) = z.
Proof. unfold is_u16. intros. apply from_to_be_bytes. change (256 ^ Z.of_nat 2)%Z with 65536%Z. lia. Qed.

Lemma u32_roundtrip z : is_u32 z → from_be_bytes (to_be_bytes 4 z) = z.
Proof. unfold is_u32, u32_max. intros. apply from_to_be_bytes. change (256 ^ Z.of_nat 4)%Z with 4294967296%Z. lia. Qed.

Lemma u16_at_mid (l k : list byte) v a : length l = a → is_u16 v → u16_at a (l ++ to_be_bytes 2 v ++ k) = v.
Proof. intros. unfold u16_at. rewrite (slice_between l); [by apply u16_roundtrip|done|by rewrite length_to_be_bytes]. Qed.

Lemma u32_at_mid (l k : list byte) v a : length l = a → is_u32 v → u32_at a (l ++ to_be_bytes 4 v ++ k) = v.
Proof. intros. unfold u32_at. rewrite (slice_between l); [by apply u32_roundtrip|done|by rewrite length_to_be_bytes]. Qed.

(** ** Exclusive or *)

Lemma lxor_range n a b : (0 ≤ n → 0 ≤ a < 2 ^ n → 0 ≤ b < 2 ^ n → 0 ≤ Z.lxor a b < 2 ^ n)%Z.
Proof.
  intros Hn Ha Hb. assert (Z.lxor a b = Z.lxor a b mod 2 ^ n)%Z as ->; [|apply Z.mod_pos_bound; lia].
  rewrite <-(Z.mod_small a (2 ^ n)), <-(Z.mod_small b (2 ^ n)) by done. apply Z.bits_inj'. intros i Hi.
  destruct (Z.lt_ge_cases i n); [by rewrite Z.mod_pow2_bits_low|].
  by rewrite Z.mod_pow2_bits_high, Z.lxor_spec, !Z.mod_pow2_bits_high by lia.
Qed.

Lemma lxor_cancel a k : Z.lxor (Z.lxor a k) k = a.
Proof. by rewrite Z.lxor_assoc, Z.lxor_nilpotent, Z.lxor_0_r. Qed.

Definition byte_xor (a b : byte) : byte := byte_of (Z.lxor (byte_val a) (byte_val b)).

Lemma byte_xor_range a b : (0 ≤ Z.lxor (byte_val a) (byte_val b) < 256)%Z.
Proof.
  pose proof (byte_val_range a). pose proof (byte_val_range b).
  apply (lxor_range 8); [done|change (2 ^ 8)%Z with 256%Z; lia..].
Qed.

Lemma byte_xor_cancel a k : byte_xor (byte_xor a k) k = a.
Proof.
  unfold byte_xor. apply (inj byte_val). rewrite !byte_val_of.
  pose proof (byte_val_range a). pose proof (byte_val_range k).
  rewrite (Z.mod_small (Z.lxor (byte_val a) (byte_val k))) by (by apply byte_xor_range).
  rewrite lxor_cancel. apply Z.mod_small. lia.
Qed.

Lemma zip_xor_cancel (l k : list byte) : length l = length k → zip_with byte_xor (zip_with byte_xor l k) k = l.
Proof.
  revert k. induction l as [|a l IH]; intros [|b k]; [done..|]. simpl. intros [= H]. by rewrite byte_xor_cancel, IH.
Qed.

Lemma byte_xor_zero a b : byte_xor a b = x00 → a = b.
Proof.
  unfold byte_xor. intros H. apply (f_equal byte_val) in H. rewrite byte_val_of in H.
  pose proof (byte_val_range a). pose proof (byte_val_range b).
  rewrite Z.mod_small in H by (by apply byte_xor_range). apply (inj byte_val). by apply Z.lxor_eq.
Qed.
