(* ===== verification/Turn.v ===== *)
(** * TURN messages

    [crates/mqp2p/src/turn.rs]: STUN/TURN messages as a header and a sequence
    of padded attributes, message integrity, and the ChannelData frames of a
    relay. HMAC-SHA1 (ring) and CRC-32 (crc32fast) are operations of the class
    [TurnCrypto]. The loops over attributes take the length of the body as
    fuel; each round consumes at least four bytes. *)
From S2P Require Import Prelude SyncState Membership Net.

Class TurnCrypto := {
  hmac_sha1 : list byte → list byte → list byte;
  crc32 : list byte → Z;
  md5 : list byte → list byte;
}.

Class TurnCryptoLaws {TC : TurnCrypto} := {
  length_hmac_sha1 key msg : length (hmac_sha1 key msg) = 20;
  crc32_range msg : is_u32 (crc32 msg);
}.

Definition MAGIC_COOKIE : Z := 0x2112A442.
Definition HEADER_LEN : nat := 20.
Definition FINGERPRINT_XOR : Z := 0x5354554E.

Definition METHOD_BINDING : Z := 0x001.
Definition METHOD_ALLOCATE : Z := 0x003.
Definition METHOD_REFRESH : Z := 0x004.
Definition METHOD_SEND : Z := 0x006.
Definition METHOD_DATA : Z := 0x007.
Definition METHOD_CREATE_PERMISSION : Z := 0x008.
Definition METHOD_CHANNEL_BIND : Z := 0x009.

Definition TRANSPORT_UDP : byte := x11.
Definition CHANNEL_MIN : Z := 0x4000.
Definition CHANNEL_MAX : Z := 0x4FFF.

Definition ATTR_MAPPED_ADDRESS : Z := 0x0001.
Definition ATTR_USERNAME : Z := 0x0006.
Definition ATTR_MESSAGE_INTEGRITY : Z := 0x0008.
Definition ATTR_ERROR_CODE : Z := 0x0009.
Definition ATTR_CHANNEL_NUMBER : Z := 0x000C.
Definition ATTR_LIFETIME : Z := 0x000D.
Definition ATTR_XOR_PEER_ADDRESS : Z := 0x0012.
Definition ATTR_DATA : Z := 0x0013.
Definition ATTR_REALM : Z := 0x0014.
Definition ATTR_NONCE : Z := 0x0015.
Definition ATTR_XOR_RELAYED_ADDRESS : Z := 0x0016.
Definition ATTR_REQUESTED_TRANSPORT : Z := 0x0019.
Definition ATTR_DONT_FRAGMENT : Z := 0x001A.
Definition ATTR_XOR_MAPPED_ADDRESS : Z := 0x0020.
Definition ATTR_SOFTWARE : Z := 0x8022.
Definition ATTR_FINGERPRINT : Z := 0x8028.

(** ** Message types *)

Module Class.
Inductive Class := Request | Indication | Success | Error.

#[global] Instance Class_eq_dec : EqDecision Class.
Proof. solve_decision. Defined.

Definition bits (c : Class) : Z :=
  match c with Request => 0 | Indication => 1 | Success => 2 | Error => 3 end.

Definition from_bits (bits : Z) : Class :=
  match Z.land bits 3 with
  | 0%Z => Request
  | 1%Z => Indication
  | 2%Z => Success
  | _ => Error
  end.
End Class.
Export (hints) Class.

Definition message_type (method : Z) (class : Class.Class) : Z :=
  let c := Class.bits class in
  Z.lor (Z.lor (Z.lor (Z.lor
    (Z.shiftl (Z.land method 0x0F80) 2)
    (Z.shiftl (Z.land c 0x02) 7))
    (Z.shiftl (Z.land method 0x0070) 1))
    (Z.shiftl (Z.land c 0x01) 4))
    (Z.land method 0x000F).

Definition decode_type (raw : Z) : Z * Class.Class :=
  let method := Z.lor (Z.lor (Z.shiftr (Z.land raw 0x3E00) 2) (Z.shiftr (Z.land raw 0x00E0) 1)) (Z.land raw 0x000F) in
  let class := Class.from_bits (Z.lor (Z.shiftr (Z.land raw 0x0100) 7) (Z.shiftr (Z.land raw 0x0010) 4)) in
  (method, class).

(** ** Addresses *)

Definition xor_with_key (octets txn : list byte) : list byte :=
  zip_with byte_xor octets (to_be_bytes 4 MAGIC_COOKIE ++ txn).

Definition encode_plain_address (addr : SocketAddr) : list byte :=
  x00 :: match addr_ip addr with
  | V4 v4 => x01 :: to_be_bytes 2 (addr_port addr) ++ v4
  | V6 v6 => x02 :: to_be_bytes 2 (addr_port addr) ++ v6
  end.

Definition decode_plain_address (value : list byte) : result SocketAddr Error :=
  if bool_decide (length value < 8) then Err (TurnParse "address shorter than 8 bytes") else
  let port := u16_at 2 value in
  match at_byte value 1 with
  | x01 => Ok (socket_addr (V4 (slice 4 8 value)) port)
  | x02 =>
    if bool_decide (length value < 20) then Err (TurnParse "ipv6 address shorter than 20 bytes") else
    Ok (socket_addr (V6 (slice 4 20 value)) port)
  | other => Err (TurnParse ("unknown address family 0x" +:+ String.string_of_list_byte (hex_bytes [other])))
  end.

Definition encode_xor_address (addr : SocketAddr) (txn : list byte) : list byte :=
  let xor_port := Z.lxor (addr_port addr) (Z.shiftr MAGIC_COOKIE 16) in
  x00 :: match addr_ip addr with
  | V4 v4 =>
    let xored := Z.lxor (from_be_bytes v4) MAGIC_COOKIE in
    x01 :: to_be_bytes 2 xor_port ++ to_be_bytes 4 xored
  | V6 v6 => x02 :: to_be_bytes 2 xor_port ++ xor_with_key v6 txn
  end.

Definition decode_xor_address (value txn : list byte) : result SocketAddr Error :=
  if bool_decide (length value < 8) then Err (TurnParse "xor address shorter than 8 bytes") else
  let port := Z.lxor (u16_at 2 value) (Z.shiftr MAGIC_COOKIE 16) in
  match at_byte value 1 with
  | x01 =>
    let xored := u32_at 4 value in
    Ok (socket_addr (V4 (to_be_bytes 4 (Z.lxor xored MAGIC_COOKIE))) port)
  | x02 =>
    if bool_decide (length value < 20) then Err (TurnParse "xor ipv6 address shorter than 20 bytes") else
    Ok (socket_addr (V6 (xor_with_key (slice 4 20 value) txn)) port)
  | other => Err (TurnParse ("unknown address family 0x" +:+ String.string_of_list_byte (hex_bytes [other])))
  end.

(** ** Attributes *)

Module Attribute.
Inductive Attribute :=
| MappedAddress (addr : SocketAddr)
| XorMappedAddress (addr : SocketAddr)
| XorPeerAddress (addr : SocketAddr)
| XorRelayedAddress (addr : SocketAddr)
| Username (s : string)
| Realm (s : string)
| Nonce (s : string)
| Software (s : string)
| MessageIntegrity (mac : list byte)
| Fingerprint (crc : Z)
| ErrorCode (code : Z) (reason : string)
| Lifetime (seconds : Z)
| RequestedTransport (proto : byte)
| ChannelNumber (number : Z)
| Data (data : list byte)
| DontFragment
| Unknown (typ : Z) (value : list byte).

#[global] Instance Attribute_eq_dec : EqDecision Attribute.
Proof. solve_decision. Defined.
End Attribute.
Export (hints) Attribute.

Definition push_raw_attribute (buf : list byte) (typ : Z) (value : list byte) : list byte :=
  buf ++ to_be_bytes 2 typ ++ to_be_bytes 2 (as_u16 (length value)) ++ value
    ++ replicate (pad4 (length value)) x00.

Definition encode_attribute (buf : list byte) (attr : Attribute.Attribute) (txn : list byte) : list byte :=
  match attr with
  | Attribute.MappedAddress addr => push_raw_attribute buf ATTR_MAPPED_ADDRESS (encode_plain_address addr)
  | Attribute.XorMappedAddress addr => push_raw_attribute buf ATTR_XOR_MAPPED_ADDRESS (encode_xor_address addr txn)
  | Attribute.XorPeerAddress addr => push_raw_attribute buf ATTR_XOR_PEER_ADDRESS (encode_xor_address addr txn)
  | Attribute.XorRelayedAddress addr => push_raw_attribute buf ATTR_XOR_RELAYED_ADDRESS (encode_xor_address addr txn)
  | Attribute.Username s => push_raw_attribute buf ATTR_USERNAME (as_bytes s)
  | Attribute.Realm s => push_raw_attribute buf ATTR_REALM (as_bytes s)
  | Attribute.Nonce s => push_raw_attribute buf ATTR_NONCE (as_bytes s)
  | Attribute.Software s => push_raw_attribute buf ATTR_SOFTWARE (as_bytes s)
  | Attribute.MessageIntegrity mac => push_raw_attribute buf ATTR_MESSAGE_INTEGRITY mac
  | Attribute.Fingerprint crc => push_raw_attribute buf ATTR_FINGERPRINT (to_be_bytes 4 crc)
  | Attribute.ErrorCode code reason =>
    push_raw_attribute buf ATTR_ERROR_CODE ([x00; x00; byte_of (code / 100); byte_of (code mod 100)] ++ as_bytes reason)
  | Attribute.Lifetime seconds => push_raw_attribute buf ATTR_LIFETIME (to_be_bytes 4 seconds)
  | Attribute.RequestedTransport proto => push_raw_attribute buf ATTR_REQUESTED_TRANSPORT [proto; x00; x00; x00]
  | Attribute.ChannelNumber number => push_raw_attribute buf ATTR_CHANNEL_NUMBER (to_be_bytes 2 number ++ [x00; x00])
  | Attribute.Data data => push_raw_attribute buf ATTR_DATA data
  | Attribute.DontFragment => push_raw_attribute buf ATTR_DONT_FRAGMENT []
  | Attribute.Unknown typ value => push_raw_attribute buf typ value
  end.

Definition decode_string (value : list byte) : result string Error :=
  ok_or (from_utf8 value) (TurnParse "attribute is not valid utf-8").

Definition decode_attribute (typ : Z) (value txn : list byte) : result Attribute.Attribute Error :=
  let len := length value in
  if bool_decide (typ = ATTR_MAPPED_ADDRESS) then
    let? a := decode_plain_address value in Ok (Attribute.MappedAddress a)
  else if bool_decide (typ = ATTR_XOR_MAPPED_ADDRESS) then
    let? a := decode_xor_address value txn in Ok (Attribute.XorMappedAddress a)
  else if bool_decide (typ = ATTR_XOR_PEER_ADDRESS) then
    let? a := decode_xor_address value txn in Ok (Attribute.XorPeerAddress a)
  else if bool_decide (typ = ATTR_XOR_RELAYED_ADDRESS) then
    let? a := decode_xor_address value txn in Ok (Attribute.XorRelayedAddress a)
  else if bool_decide (typ = ATTR_USERNAME) then let? s := decode_string value in Ok (Attribute.Username s)
  else if bool_decide (typ = ATTR_REALM) then let? s := decode_string value in Ok (Attribute.Realm s)
  else if bool_decide (typ = ATTR_NONCE) then let? s := decode_string value in Ok (Attribute.Nonce s)
  else if bool_decide (typ = ATTR_SOFTWARE) then let? s := decode_string value in Ok (Attribute.Software s)
  else if bool_decide (typ = ATTR_MESSAGE_INTEGRITY) then
    if bool_decide (len ≠ 20) then Err (TurnParse "message-integrity must be 20 bytes") else
    Ok (Attribute.MessageIntegrity value)
  else if bool_decide (typ = ATTR_FINGERPRINT) then
    if bool_decide (len ≠ 4) then Err (TurnParse "fingerprint must be 4 bytes") else
    Ok (Attribute.Fingerprint (u32_at 0 value))
  else if bool_decide (typ = ATTR_ERROR_CODE) then
    if bool_decide (len < 4) then Err (TurnParse "error-code shorter than 4 bytes") else
    let code := (byte_val (at_byte value 2) * 100 + byte_val (at_byte value 3))%Z in
    Ok (Attribute.ErrorCode code (from_utf8_lossy (drop 4 value)))
  else if bool_decide (typ = ATTR_LIFETIME) then
    if bool_decide (len < 4) then Err (TurnParse "lifetime shorter than 4 bytes") else
    Ok (Attribute.Lifetime (u32_at 0 value))
  else if bool_decide (typ = ATTR_REQUESTED_TRANSPORT) then
    if bool_decide (len = 0) then Err (TurnParse "requested-transport empty") else
    Ok (Attribute.RequestedTransport (at_byte value 0))
  else if bool_decide (typ = ATTR_CHANNEL_NUMBER) then
    if bool_decide (len < 2) then Err (TurnParse "channel-number shorter than 2 bytes") else
    Ok (Attribute.ChannelNumber (u16_at 0 value))
  else if bool_decide (typ = ATTR_DATA) then Ok (Attribute.Data value)
  else if bool_decide (typ = ATTR_DONT_FRAGMENT) then Ok Attribute.DontFragment
  else Ok (Attribute.Unknown typ value).

(** ** Messages *)

Record Message := mkMessage {
  method : Z;
  class : Class.Class;
  transaction_id : list byte;
  attributes : list Attribute.Attribute;
}.

#[global] Instance Message_eq_dec : EqDecision Message.
Proof. solve_decision. Defined.

Definition set_length (buf : list byte) (len : nat) : list byte :=
  take 2 buf ++ to_be_bytes 2 (as_u16 len) ++ drop 4 buf.

(** [iter().find_map(f)]. *)
Fixpoint find_map {A B} (f : A → option B) (l : list A) : option B :=
  match l with
  | [] => None
  | x :: l => match f x with Some y => Some y | None => find_map f l end
  end.

Module Message.
Definition new (method : Z) (class : Class.Class) (transaction_id : list byte) : Message :=
  mkMessage method class transaction_id [].

Definition push (m : Message) (attr : Attribute.Attribute) : Message :=
  mkMessage (method m) (class m) (transaction_id m) (attributes m ++ [attr]).

Definition error_code (m : Message) : option Z :=
  find_map (λ a, match a with Attribute.ErrorCode code _ => Some code | _ => None end) (attributes m).

Definition realm (m : Message) : option string :=
  find_map (λ a, match a with Attribute.Realm r => Some r | _ => None end) (attributes m).

Definition nonce (m : Message) : option string :=
  find_map (λ a, match a with Attribute.Nonce n => Some n | _ => None end) (attributes m).

Definition lifetime (m : Message) : option Z :=
  find_map (λ a, match a with Attribute.Lifetime l => Some l | _ => None end) (attributes m).

Definition xor_relayed_address (m : Message) : option SocketAddr :=
  find_map (λ a, match a with Attribute.XorRelayedAddress addr => Some addr | _ => None end) (attributes m).

Definition xor_mapped_address (m : Message) : option SocketAddr :=
  find_map (λ a, match a with Attribute.XorMappedAddress addr => Some addr | _ => None end) (attributes m).

Section encode.
Context `{TC : TurnCrypto}.

Definition encode (m : Message) (integrity_key : option (list byte)) (fingerprint : bool) : list byte :=
  let buf := to_be_bytes 2 (message_type (method m) (class m)) ++ [x00; x00]
    ++ to_be_bytes 4 MAGIC_COOKIE ++ transaction_id m in
  let buf := foldl (λ buf attr, encode_attribute buf attr (transaction_id m)) buf (attributes m) in
  let buf := match integrity_key with
    | Some key =>
      let buf := set_length buf (length buf - HEADER_LEN + 24) in
      push_raw_attribute buf ATTR_MESSAGE_INTEGRITY (hmac_sha1 key buf)
    | None => buf
    end in
  let buf := if fingerprint then
      let buf := set_length buf (length buf - HEADER_LEN + 8) in
      push_raw_attribute buf ATTR_FINGERPRINT (to_be_bytes 4 (Z.lxor (crc32 buf) FINGERPRINT_XOR))
    else buf in
  set_length buf (length buf - HEADER_LEN).
End encode.

(** The loop of [decode] and the check behind it. *)
Fixpoint decode_attributes (fuel : nat) (body txn : list byte) (offset : nat)
    (attributes : list Attribute.Attribute) : option (result (list Attribute.Attribute) Error) :=
  match fuel with
  | O => None
  | S fuel =>
    if bool_decide (offset + 4 ≤ length body) then
      let atyp := u16_at offset body in
      let alen := Z.to_nat (u16_at (offset + 2) body) in
      let offset := offset + 4 in
      if bool_decide (length body < offset + alen)
      then Some (Err (TurnParse "attribute length exceeds message")) else
      let value := slice offset (offset + alen) body in
      match decode_attribute atyp value txn with
      | Err e => Some (Err e)
      | Ok a => decode_attributes fuel body txn (offset + (alen + pad4 alen)) (attributes ++ [a])
      end
    else if bool_decide (offset ≠ length body)
    then Some (Err (TurnParse "trailing bytes after final attribute"))
    else Some (Ok attributes)
  end.

Definition decode (buf : list byte) : option (result Message Error) :=
  if bool_decide (length buf < HEADER_LEN) then Some (Err (TurnParse "message shorter than header")) else
  let raw_type := u16_at 0 buf in
  if bool_decide (Z.land raw_type 0xC000 ≠ 0)%Z then Some (Err (TurnParse "not a STUN message")) else
  if bool_decide (u32_at 4 buf ≠ MAGIC_COOKIE) then Some (Err (TurnParse "bad magic cookie")) else
  let msg_len := Z.to_nat (u16_at 2 buf) in
  if bool_decide (length buf < HEADER_LEN + msg_len)
  then Some (Err (TurnParse "declared length exceeds buffer")) else
  let transaction_id := slice 8 20 buf in
  let '(method, class) := decode_type raw_type in
  let body := slice HEADER_LEN (HEADER_LEN + msg_len) buf in
  r ← decode_attributes (S (length body)) body transaction_id 0 [];
  Some (let? attributes := r in Ok (mkMessage method class transaction_id attributes)).
End Message.

(** ** Message integrity *)

Section integrity.
Context `{TC : TurnCrypto}.

(** [diff |= a ^ b] over both sequences, then [diff == 0]. *)
Definition same_mac (expected actual : list byte) : bool :=
  bool_decide (foldl (λ diff x, byte_of (Z.lor (byte_val diff) (byte_val x))) x00
    (zip_with byte_xor expected actual) = x00).

(** The loop of [verify_integrity]. *)
Fixpoint find_integrity (fuel : nat) (buf body key : list byte) (offset : nat) : option bool :=
  match fuel with
  | O => None
  | S fuel =>
    if bool_decide (offset + 4 ≤ length body) then
      let atyp := u16_at offset body in
      let alen := Z.to_nat (u16_at (offset + 2) body) in
      let value_start := offset + 4 in
      if bool_decide (length body < value_start + alen) then Some false else
      if bool_decide (atyp = ATTR_MESSAGE_INTEGRITY) then
        if bool_decide (alen ≠ 20) then Some false else
        let prefix := set_length (take (HEADER_LEN + offset) buf) (offset + 24) in
        Some (same_mac (hmac_sha1 key prefix) (slice value_start (value_start + 20) body))
      else find_integrity fuel buf body key (value_start + alen + pad4 alen)
    else Some false
  end.

Definition verify_integrity (buf key : list byte) : option bool :=
  if bool_decide (length buf < HEADER_LEN) then Some false else
  let msg_len := Z.to_nat (u16_at 2 buf) in
  if bool_decide (length buf < HEADER_LEN + msg_len) then Some false else
  let body := slice HEADER_LEN (HEADER_LEN + msg_len) buf in
  find_integrity (S (length body)) buf body key 0.
End integrity.

(** ** ChannelData *)

Record ChannelData := mkChannelData { channel : Z; data : list byte }.

Definition in_channel_range (c : Z) : bool := bool_decide (CHANNEL_MIN ≤ c ≤ CHANNEL_MAX)%Z.

Module ChannelData.
Definition encode (f : ChannelData) : list byte :=
  to_be_bytes 2 (channel f) ++ to_be_bytes 2 (as_u16 (length (data f))) ++ data f.

Definition decode (buf : list byte) : result ChannelData Error :=
  if bool_decide (length buf < 4) then Err (TurnParse "channel data shorter than header") else
  let channel := u16_at 0 buf in
  if negb (in_channel_range channel)
  then Err (TurnParse ("channel number 0x" +:+ String.string_of_list_byte (hex_bytes (to_be_bytes 2 channel)) +:+ " out of range")) else
  let len := Z.to_nat (u16_at 2 buf) in
  if bool_decide (length buf < 4 + len) then Err (TurnParse "channel data length exceeds buffer") else
  Ok (mkChannelData channel (slice 4 (4 + len) buf)).
End ChannelData.

Definition is_channel_data (buf : list byte) : bool :=
  bool_decide (2 ≤ length buf) && in_channel_range (u16_at 0 buf).

(** ** Attributes on the wire *)

(** An attribute as its type and value, and its bytes: what the encoder
    appends for it. *)
Definition raw_bytes (tv : Z * list byte) : list byte := push_raw_attribute [] tv.1 tv.2.

Definition raw_ok (tv : Z * list byte) : Prop := is_u16 tv.1 ∧ is_u16 (Z.of_nat (length tv.2)).

Definition raws_bytes (tvs : list (Z * list byte)) : list byte := tvs ≫= raw_bytes.

Arguments raw_bytes : simpl never.
Arguments raws_bytes : simpl never.

Lemma raws_bytes_cons tv tvs : raws_bytes (tv :: tvs) = raw_bytes tv ++ raws_bytes tvs.
Proof. done. Qed.

Definition raw_of (txn : list byte) (a : Attribute.Attribute) : Z * list byte :=
  match a with
  | Attribute.MappedAddress addr => (ATTR_MAPPED_ADDRESS, encode_plain_address addr)
  | Attribute.XorMappedAddress addr => (ATTR_XOR_MAPPED_ADDRESS, encode_xor_address addr txn)
  | Attribute.XorPeerAddress addr => (ATTR_XOR_PEER_ADDRESS, encode_xor_address addr txn)
  | Attribute.XorRelayedAddress addr => (ATTR_XOR_RELAYED_ADDRESS, encode_xor_address addr txn)
  | Attribute.Username s => (ATTR_USERNAME, as_bytes s)
  | Attribute.Realm s => (ATTR_REALM, as_bytes s)
  | Attribute.Nonce s => (ATTR_NONCE, as_bytes s)
  | Attribute.Software s => (ATTR_SOFTWARE, as_bytes s)
  | Attribute.MessageIntegrity mac => (ATTR_MESSAGE_INTEGRITY, mac)
  | Attribute.Fingerprint crc => (ATTR_FINGERPRINT, to_be_bytes 4 crc)
  | Attribute.ErrorCode code reason =>
    (ATTR_ERROR_CODE, [x00; x00; byte_of (code / 100); byte_of (code mod 100)] ++ as_bytes reason)
  | Attribute.Lifetime seconds => (ATTR_LIFETIME, to_be_bytes 4 seconds)
  | Attribute.RequestedTransport proto => (ATTR_REQUESTED_TRANSPORT, [proto; x00; x00; x00])
  | Attribute.ChannelNumber number => (ATTR_CHANNEL_NUMBER, to_be_bytes 2 number ++ [x00; x00])
  | Attribute.Data data => (ATTR_DATA, data)
  | Attribute.DontFragment => (ATTR_DONT_FRAGMENT, [])
  | Attribute.Unknown typ value => (typ, value)
  end.

Lemma push_raw_bytes buf t v : push_raw_attribute buf t v = buf ++ raw_bytes (t, v).
Proof. done. Qed.

Lemma encode_attribute_raw buf a txn : encode_attribute buf a txn = buf ++ raw_bytes (raw_of txn a).
Proof. by destruct a. Qed.

Lemma encode_attributes_raw buf txn attrs :
  foldl (λ buf attr, encode_attribute buf attr txn) buf attrs = buf ++ raws_bytes (raw_of txn <$> attrs).
Proof.
  revert buf. induction attrs as [|a attrs IH]; intros buf; simpl; [by rewrite app_nil_r|].
  by rewrite IH, encode_attribute_raw, raws_bytes_cons, app_assoc.
Qed.

Lemma length_raw_bytes tv : length (raw_bytes tv) = 4 + (length tv.2 + pad4 (length tv.2)).
Proof. unfold raw_bytes, push_raw_attribute. cbn [fst snd app]. rewrite !length_app, !length_to_be_bytes, length_replicate. lia. Qed.

(** What a loop over attributes sees at the start of one. *)
Lemma raw_at pre tv post :
  raw_ok tv → let body := pre ++ raw_bytes tv ++ post in let offset := length pre in
  offset + 4 ≤ length body ∧ u16_at offset body = tv.1 ∧ Z.to_nat (u16_at (offset + 2) body) = length tv.2 ∧
  offset + 4 + length tv.2 ≤ length body ∧ slice (offset + 4) (offset + 4 + length tv.2) body = tv.2.
Proof.
  destruct tv as [t v]. intros [Ht Hv] body offset. cbn [fst snd] in *.
  assert (as_u16 (length v) = Z.of_nat (length v)) as Hlen by (apply as_u16_small; apply Hv).
  assert (body = pre ++ to_be_bytes 2 t ++ to_be_bytes 2 (Z.of_nat (length v)) ++ v
    ++ replicate (pad4 (length v)) x00 ++ post) as Hb.
  { unfold body, raw_bytes, push_raw_attribute. cbn [fst snd app]. rewrite Hlen. by rewrite <-!app_assoc. }
  clearbody body. subst body offset. split_and!.
  - rewrite !length_app, !length_to_be_bytes. lia.
  - by apply u16_at_mid.
  - rewrite (app_assoc pre), u16_at_mid; [lia|by rewrite length_app, length_to_be_bytes|done].
  - rewrite !length_app, !length_to_be_bytes. lia.
  - rewrite (app_assoc pre), (app_assoc (pre ++ _)), slice_between; [done| |done].
    rewrite !length_app, !length_to_be_bytes. lia.
Qed.

Lemma raws_bytes_app l k : raws_bytes (l ++ k) = raws_bytes l ++ raws_bytes k.
Proof. apply bind_app. Qed.

Lemma length_raws_bytes tvs : length tvs ≤ length (raws_bytes tvs).
Proof.
  induction tvs as [|tv tvs IH]; [done|]. rewrite raws_bytes_cons, length_app, length_raw_bytes. simpl. lia.
Qed.

(** A value no longer than the body it is part of. *)
Lemma raws_ok_of_length tvs :
  Forall (λ tv, is_u16 tv.1) tvs → is_u16 (Z.of_nat (length (raws_bytes tvs))) → Forall raw_ok tvs.
Proof.
  unfold is_u16. induction 1 as [|tv tvs Ht Htv IH]; [done|].
  rewrite raws_bytes_cons, length_app, length_raw_bytes. intros H. constructor; [|apply IH; lia]. split; [done|]. unfold is_u16. lia.
Qed.

Fixpoint decode_raws (txn : list byte) (tvs : list (Z * list byte)) : result (list Attribute.Attribute) Error :=
  match tvs with
  | [] => Ok []
  | tv :: tvs => let? a := decode_attribute tv.1 tv.2 txn in let? rest := decode_raws txn tvs in Ok (a :: rest)
  end.

(** The decoder's loop reads a sequence of attributes one by one. *)
Lemma decode_attributes_raws txn tvs pre acc fuel :
  Forall raw_ok tvs → length tvs < fuel →
  Message.decode_attributes fuel (pre ++ raws_bytes tvs) txn (length pre) acc =
    Some (let? rest := decode_raws txn tvs in Ok (acc ++ rest)).
Proof.
  intros Hok. revert pre acc fuel. induction Hok as [|tv tvs Htv Htvs IH]; intros pre acc [|fuel] Hf; [simpl in *; lia..| |simpl in *; lia|].
  - simpl. rewrite app_nil_r, bool_decide_eq_false_2 by lia. by rewrite bool_decide_eq_false_2, app_nil_r by naive_solver.
  - rewrite raws_bytes_cons. destruct (raw_at pre tv (raws_bytes tvs) Htv) as (H1 & H2 & H3 & H4 & H5).
    cbn [Message.decode_attributes]. rewrite bool_decide_eq_true_2 by done. rewrite H2, H3.
    rewrite bool_decide_eq_false_2 by lia. rewrite H5. cbn [decode_raws].
    destruct (decode_attribute tv.1 tv.2 txn) as [a|e]; [|done]. cbn [rbind].
    replace (length pre + 4 + (length tv.2 + pad4 (length tv.2))) with (length (pre ++ raw_bytes tv))
      by (rewrite length_app, length_raw_bytes; lia).
    rewrite (app_assoc pre). rewrite IH by (simpl in *; lia).
    destruct (decode_raws txn tvs); [|done]. simpl. by rewrite <-app_assoc.
Qed.

(** ** Round trips *)

Definition KNOWN_ATTRS : list Z :=
  [ATTR_MAPPED_ADDRESS; ATTR_USERNAME; ATTR_MESSAGE_INTEGRITY; ATTR_ERROR_CODE; ATTR_CHANNEL_NUMBER;
   ATTR_LIFETIME; ATTR_XOR_PEER_ADDRESS; ATTR_DATA; ATTR_REALM; ATTR_NONCE; ATTR_XOR_RELAYED_ADDRESS;
   ATTR_REQUESTED_TRANSPORT; ATTR_DONT_FRAGMENT; ATTR_XOR_MAPPED_ADDRESS; ATTR_SOFTWARE; ATTR_FINGERPRINT].

(** Attributes at the widths of the source's types that have an encoding of
    their own: addresses without zone, error codes of two bytes, and unknown
    attributes that are not known ones. *)
Definition attr_ok (a : Attribute.Attribute) : Prop :=
  match a with
  | Attribute.MappedAddress addr | Attribute.XorMappedAddress addr
  | Attribute.XorPeerAddress addr | Attribute.XorRelayedAddress addr => addr_ok addr
  | Attribute.Username s | Attribute.Realm s | Attribute.Nonce s | Attribute.Software s => str_ok s
  | Attribute.MessageIntegrity mac => length mac = 20
  | Attribute.Fingerprint n | Attribute.Lifetime n => is_u32 n
  | Attribute.ErrorCode code reason => (0 ≤ code < 25600)%Z ∧ str_ok reason
  | Attribute.ChannelNumber n => is_u16 n
  | Attribute.Unknown typ _ => is_u16 typ ∧ typ ∉ KNOWN_ATTRS
  | Attribute.RequestedTransport _ | Attribute.Data _ | Attribute.DontFragment => True
  end.

(** The fields of an encoded address. *)
Lemma addr_fields fam p rest :
  is_u16 p → let v := x00 :: fam :: to_be_bytes 2 p ++ rest in
  length v = 4 + length rest ∧ at_byte v 1 = fam ∧ u16_at 2 v = p ∧ ∀ n, n = 4 + length rest → slice 4 n v = rest.
Proof.
  intros Hp v. split_and!.
  - unfold v. cbn [length]. rewrite length_app, length_to_be_bytes. lia.
  - done.
  - apply (u16_at_mid [x00; fam] rest p); done.
  - intros n ->. pose proof (slice_between ([x00; fam] ++ to_be_bytes 2 p) rest [] 4 (4 + length rest)) as H.
    rewrite app_nil_r, <-app_assoc in H. apply H; by rewrite ?length_app, ?length_to_be_bytes.
Qed.

Lemma plain_address_roundtrip addr : addr_ok addr → decode_plain_address (encode_plain_address addr) = Ok addr.
Proof.
  destruct addr as [ip port|ip port fl sc]; cbn [addr_ok]; unfold encode_plain_address, decode_plain_address; cbn [addr_ip addr_port].
  - intros [Hl Hp]. destruct (addr_fields x01 port ip Hp) as (-> & -> & -> & Hs). rewrite Hl.
    rewrite bool_decide_eq_false_2 by lia. by rewrite Hs by lia.
  - intros (Hl & Hp & -> & ->). destruct (addr_fields x02 port ip Hp) as (-> & -> & -> & Hs). rewrite Hl.
    rewrite !bool_decide_eq_false_2 by lia. by rewrite Hs by lia.
Qed.

Lemma is_u16_xor p : is_u16 p → is_u16 (Z.lxor p (Z.shiftr MAGIC_COOKIE 16)).
Proof. intros H. apply (lxor_range 16); [done|apply H|done]. Qed.

Lemma is_u32_xor z : is_u32 z → is_u32 (Z.lxor z MAGIC_COOKIE).
Proof.
  unfold is_u32, u32_max. intros H. pose proof (lxor_range 32 z MAGIC_COOKIE) as Hx.
  change (2 ^ 32)%Z with 4294967296%Z in Hx. unfold MAGIC_COOKIE in *. lia.
Qed.

Lemma is_u32_be ip : length ip = 4 → is_u32 (from_be_bytes ip).
Proof.
  intros H. pose proof (from_be_bytes_range ip) as Hr. rewrite H in Hr.
  change (256 ^ Z.of_nat 4)%Z with 4294967296%Z in Hr. unfold is_u32, u32_max. lia.
Qed.

Lemma length_key txn : length txn = 12 → length (to_be_bytes 4 MAGIC_COOKIE ++ txn) = 16.
Proof. intros H. by rewrite length_app, length_to_be_bytes, H. Qed.

Lemma xor_with_key_cancel o txn :
  length o = 16 → length txn = 12 → xor_with_key (xor_with_key o txn) txn = o.
Proof. intros Ho Ht. apply zip_xor_cancel. by rewrite length_key. Qed.

Lemma length_xor_with_key o txn : length o = 16 → length txn = 12 → length (xor_with_key o txn) = 16.
Proof. intros Ho Ht. unfold xor_with_key. rewrite length_zip_with, length_key by done. lia. Qed.

Lemma xor_address_roundtrip addr txn :
  addr_ok addr → length txn = 12 → decode_xor_address (encode_xor_address addr txn) txn = Ok addr.
Proof.
  intros Ha Ht. destruct addr as [ip port|ip port fl sc]; cbn [addr_ok] in Ha;
    unfold encode_xor_address, decode_xor_address; cbn [addr_ip addr_port].
  - destruct Ha as [Hl Hp]. pose proof (is_u16_xor port Hp) as Hx.
    pose proof (is_u32_xor _ (is_u32_be ip Hl)) as Hi.
    destruct (addr_fields x01 _ (to_be_bytes 4 (Z.lxor (from_be_bytes ip) MAGIC_COOKIE)) Hx) as (-> & -> & -> & Hs).
    rewrite length_to_be_bytes. rewrite bool_decide_eq_false_2 by lia.
    unfold u32_at. rewrite Hs by (by rewrite length_to_be_bytes). rewrite u32_roundtrip, !lxor_cancel by done.
    by rewrite <-Hl, to_from_be_bytes.
  - destruct Ha as (Hl & Hp & -> & ->). pose proof (is_u16_xor port Hp) as Hx.
    destruct (addr_fields x02 _ (xor_with_key ip txn) Hx) as (-> & -> & -> & Hs).
    rewrite length_xor_with_key by done. rewrite !bool_decide_eq_false_2 by lia.
    rewrite Hs by (by rewrite length_xor_with_key). by rewrite lxor_cancel, xor_with_key_cancel.
Qed.

Lemma decode_string_ok s : str_ok s → decode_string (as_bytes s) = Ok s.
Proof. intros H. unfold decode_string. by rewrite from_utf8_as_bytes. Qed.

Lemma u32_at_0 z : is_u32 z → u32_at 0 (to_be_bytes 4 z) = z.
Proof. intros H. pose proof (u32_at_mid [] [] z 0) as Hm. rewrite app_nil_r in Hm. by apply Hm. Qed.

Lemma error_code_roundtrip code : (0 ≤ code < 25600 → byte_val (byte_of (code / 100)) * 100 + byte_val (byte_of (code mod 100)) = code)%Z.
Proof.
  intros H. rewrite !byte_val_of. pose proof (Z.mod_pos_bound code 100 ltac:(lia)).
  pose proof (Z.div_pos code 100). pose proof (Z.div_lt_upper_bound code 100 256).
  rewrite !Z.mod_small by lia. pose proof (Z.div_mod code 100). lia.
Qed.

(** Decides the type tests of [decode_attribute] at a known type. *)
Ltac pick_attr := unfold decode_attribute;
  repeat match goal with
  | |- context [bool_decide (@eq Z ?a ?b)] =>
    first [rewrite (bool_decide_eq_true_2 (a = b)) by reflexivity
          |rewrite (bool_decide_eq_false_2 (a = b)) by (vm_compute; discriminate)]
  end; cbv beta iota.

Lemma decode_attribute_unknown typ value txn :
  typ ∉ KNOWN_ATTRS → decode_attribute typ value txn = Ok (Attribute.Unknown typ value).
Proof.
  intros H. unfold decode_attribute.
  repeat match goal with
  | |- context [bool_decide (@eq Z ?a ?b)] => rewrite (bool_decide_eq_false_2 (a = b)) by (intros ->; apply H; unfold KNOWN_ATTRS; set_solver)
  end. done.
Qed.

Lemma decode_attribute_raw txn a :
  attr_ok a → length txn = 12 → decode_attribute (raw_of txn a).1 (raw_of txn a).2 txn = Ok a.
Proof.
  intros Ha Ht. destruct a; cbn [raw_of fst snd attr_ok] in *.
  17: apply decode_attribute_unknown; apply Ha.
  all: pick_attr.
  all: try by rewrite ?plain_address_roundtrip, ?xor_address_roundtrip, ?decode_string_ok by done.
  - by rewrite bool_decide_eq_false_2 by naive_solver.
  - rewrite length_to_be_bytes, bool_decide_eq_false_2 by naive_solver. by rewrite u32_at_0.
  - destruct Ha as [Hc Hr]. rewrite bool_decide_eq_false_2 by (simpl; lia). cbn [app drop]. rewrite drop_0.
    rewrite from_utf8_lossy_as_bytes by done. unfold at_byte. cbn. by rewrite error_code_roundtrip.
  - rewrite length_to_be_bytes, bool_decide_eq_false_2 by lia. by rewrite u32_at_0.
  - pose proof (u16_at_mid [] [x00; x00] number 0 eq_refl Ha) as Hm. cbn [app] in Hm. rewrite Hm.
    rewrite length_app, length_to_be_bytes. done.
Qed.

(** ** Types *)

(** The type field packs method and class so that both come back, for every
    method of twelve bits; higher bits of a method are dropped. *)
Lemma message_type_mask m c : message_type (Z.land m 0xFFF) c = message_type m c.
Proof. unfold message_type. by rewrite <-!Z.land_assoc. Qed.

Definition type_roundtrip_ok (m : Z) (c : Class.Class) : bool :=
  bool_decide (decode_type (message_type m c) = (m, c)) &&
  bool_decide (0 ≤ message_type m c < 0x4000)%Z.

Lemma types_checked :
  Forall (λ m, Forall (λ c, type_roundtrip_ok m c = true) [Class.Request; Class.Indication; Class.Success; Class.Error])
    (seqZ 0 4096).
Proof. decide_compute. Qed.

Lemma type_roundtrip m c :
  (0 ≤ m < 4096)%Z → decode_type (message_type m c) = (m, c) ∧ (0 ≤ message_type m c < 0x4000)%Z.
Proof.
  intros Hm. pose proof types_checked as H. rewrite Forall_forall in H.
  specialize (H m ltac:(apply elem_of_seqZ; lia)). rewrite Forall_forall in H.
  specialize (H c ltac:(destruct c; set_solver)).
  by apply andb_prop in H as [H1%bool_decide_eq_true H2%bool_decide_eq_true].
Qed.

Lemma land_low t : (0 ≤ t < 0x4000)%Z → Z.land t 0xC000 = 0%Z.
Proof.
  intros Ht. apply Z.bits_inj'. intros i Hi. rewrite Z.land_spec, Z.bits_0.
  destruct (Z.lt_ge_cases i 14).
  - change 0xC000%Z with (Z.shiftl 3 14). rewrite Z.shiftl_spec, (Z.testbit_neg_r _ (i - 14)) by lia. apply andb_false_r.
  - rewrite <-(Z.mod_small t (2 ^ 14)) by done. by rewrite Z.mod_pow2_bits_high by lia.
Qed.

(** ** Encoded messages *)

Section messages.
Context `{TC : TurnCrypto}.

(** The header of a message whose body has [len] bytes. *)
Definition header (m : Message) (len : nat) : list byte :=
  to_be_bytes 2 (message_type (method m) (class m)) ++ to_be_bytes 2 (as_u16 len)
    ++ to_be_bytes 4 MAGIC_COOKIE ++ transaction_id m.

Definition body_of (m : Message) (attrs : list Attribute.Attribute) : list byte :=
  raws_bytes (raw_of (transaction_id m) <$> attrs).

(** The attributes the encoder adds: the MAC of everything before it, then
    the checksum of everything before it, each under the length the message
    has when it ends there. *)
Definition integrity_attr (m : Message) (key : list byte) : Attribute.Attribute :=
  let body := body_of m (attributes m) in
  Attribute.MessageIntegrity (hmac_sha1 key (header m (length body + 24) ++ body)).

Definition fingerprint_attr (m : Message) (attrs : list Attribute.Attribute) : Attribute.Attribute :=
  let body := body_of m attrs in
  Attribute.Fingerprint (Z.lxor (crc32 (header m (length body + 8) ++ body)) FINGERPRINT_XOR).

Definition sealed (m : Message) (key : option (list byte)) (fingerprint : bool) : list Attribute.Attribute :=
  let attrs := attributes m ++ match key with Some key => [integrity_attr m key] | None => [] end in
  attrs ++ (if fingerprint then [fingerprint_attr m attrs] else []).

Lemma length_message_header m len : length (transaction_id m) = 12 → length (header m len) = HEADER_LEN.
Proof. intros H. unfold header. by rewrite !length_app, !length_to_be_bytes, H. Qed.

Lemma set_length_header m l l' rest : set_length (header m l ++ rest) l' = header m l' ++ rest.
Proof.
  unfold set_length, header. rewrite <-!app_assoc.
  rewrite take_app_length' by (by rewrite length_to_be_bytes).
  rewrite drop_app_ge, length_to_be_bytes by (rewrite length_to_be_bytes; lia).
  by rewrite drop_app_length' by (by rewrite length_to_be_bytes).
Qed.

Lemma body_of_app m l k : body_of m (l ++ k) = body_of m l ++ body_of m k.
Proof. unfold body_of. by rewrite fmap_app, raws_bytes_app. Qed.

Lemma body_of_one m a : body_of m [a] = raw_bytes (raw_of (transaction_id m) a).
Proof. apply app_nil_r. Qed.

(** The bytes of a message: its header and its attributes, the added ones
    last. *)
Lemma encode_bytes m key fp :
  length (transaction_id m) = 12 →
  Message.encode m key fp = header m (length (body_of m (sealed m key fp))) ++ body_of m (sealed m key fp).
Proof.
  intros Ht. unfold Message.encode. rewrite encode_attributes_raw.
  fold (body_of m (attributes m)).
  assert (to_be_bytes 2 (message_type (method m) (class m)) ++ [x00; x00] ++ to_be_bytes 4 MAGIC_COOKIE ++ transaction_id m
    = header m 0) as -> by done.
  assert (∀ l body, length (header m l ++ body) - HEADER_LEN = length body) as Hlen.
  { intros. rewrite length_app, length_message_header by done. lia. }
  unfold sealed. set (attrs := attributes m).
  destruct key as [key|]; cbv zeta; rewrite ?Hlen, ?set_length_header, ?push_raw_bytes, <-?app_assoc.
  - change (raw_bytes (ATTR_MESSAGE_INTEGRITY, _)) with (raw_bytes (raw_of (transaction_id m) (integrity_attr m key))).
    rewrite <-body_of_one, <-body_of_app. set (attrs' := attrs ++ [integrity_attr m key]).
    destruct fp; rewrite ?Hlen, ?set_length_header, ?push_raw_bytes, <-?app_assoc.
    + change (raw_bytes (ATTR_FINGERPRINT, _)) with (raw_bytes (raw_of (transaction_id m) (fingerprint_attr m attrs'))).
      rewrite <-body_of_one, <-body_of_app, Hlen, set_length_header. unfold attrs'. by rewrite <-app_assoc.
    + by rewrite app_nil_r.
  - rewrite app_nil_r. destruct fp; rewrite ?Hlen, ?set_length_header, ?push_raw_bytes, <-?app_assoc.
    + change (raw_bytes (ATTR_FINGERPRINT, _)) with (raw_bytes (raw_of (transaction_id m) (fingerprint_attr m attrs))).
      by rewrite <-body_of_one, <-body_of_app.
    + by rewrite app_nil_r.
Qed.

(** Messages the encoder is meant for: a twelve-bit method and attributes
    with an encoding, short enough for the length field. *)
Definition message_ok (m : Message) (key : option (list byte)) (fp : bool) : Prop :=
  (0 ≤ method m < 4096)%Z ∧ length (transaction_id m) = 12 ∧ Forall attr_ok (attributes m) ∧
  is_u16 (Z.of_nat (length (body_of m (sealed m key fp)))).

Lemma raw_of_u16 txn a : attr_ok a → is_u16 (raw_of txn a).1.
Proof. destruct a; cbn [raw_of fst attr_ok]; [done..|]. naive_solver. Qed.

Lemma decode_raws_ok txn attrs :
  Forall attr_ok attrs → length txn = 12 → decode_raws txn (raw_of txn <$> attrs) = Ok attrs.
Proof.
  intros Ha Ht. induction Ha as [|a attrs Ha _ IH]; [done|]. rewrite fmap_cons. cbn [decode_raws].
  rewrite decode_attribute_raw by done. cbn [rbind]. by rewrite IH.
Qed.

Lemma message_header_fields m len rest :
  (0 ≤ method m < 4096)%Z → length (transaction_id m) = 12 → is_u16 (Z.of_nat len) →
  let buf := header m len ++ rest in
  u16_at 0 buf = message_type (method m) (class m) ∧ Z.to_nat (u16_at 2 buf) = len ∧ u32_at 4 buf = MAGIC_COOKIE ∧
  slice 8 20 buf = transaction_id m ∧ length buf = HEADER_LEN + length rest.
Proof.
  intros Hm Ht Hl buf. destruct (type_roundtrip _ (class m) Hm) as [_ Hty].
  assert (is_u16 (message_type (method m) (class m))) as Hu by (unfold is_u16; lia).
  unfold buf, header. rewrite (as_u16_small len) by (apply Hl). rewrite <-!app_assoc. split_and!.
  - by apply (u16_at_mid []).
  - rewrite u16_at_mid; [lia|by rewrite length_to_be_bytes|done].
  - rewrite (app_assoc (to_be_bytes 2 _)). rewrite u32_at_mid; [done| |done]. by rewrite length_app, !length_to_be_bytes.
  - rewrite (app_assoc (to_be_bytes 2 _)), (app_assoc (_ ++ _)), slice_between; [done| |by rewrite Ht].
    by rewrite !length_app, !length_to_be_bytes.
  - rewrite !length_app, !length_to_be_bytes, Ht. unfold HEADER_LEN. lia.
Qed.

Context {TL : TurnCryptoLaws}.

Lemma fingerprint_ok m attrs : attr_ok (fingerprint_attr m attrs).
Proof using TL.
  cbn. set (msg := _ ++ _). pose proof (crc32_range msg) as H. unfold is_u32, u32_max in *.
  pose proof (lxor_range 32 (crc32 msg) FINGERPRINT_XOR) as Hx.
  change (2 ^ 32)%Z with 4294967296%Z in Hx. unfold FINGERPRINT_XOR in *. lia.
Qed.

Lemma sealed_ok m key fp : Forall attr_ok (attributes m) → Forall attr_ok (sealed m key fp).
Proof using TL.
  intros Ha. unfold sealed. rewrite !Forall_app. split_and!; [done|destruct key; [|done]|destruct fp; [|done]]; apply Forall_singleton.
  - apply length_hmac_sha1.
  - apply fingerprint_ok.
Qed.

Lemma decode_attributes_body m attrs :
  Forall attr_ok attrs → length (transaction_id m) = 12 → is_u16 (Z.of_nat (length (body_of m attrs))) →
  Message.decode_attributes (S (length (body_of m attrs))) (body_of m attrs) (transaction_id m) 0 [] = Some (Ok attrs).
Proof.
  intros Ha Ht Hl.
  pose proof (decode_attributes_raws (transaction_id m) (raw_of (transaction_id m) <$> attrs) [] []
    (S (length (body_of m attrs)))) as Hd.
  rewrite decode_raws_ok in Hd by done. apply Hd.
  - apply raws_ok_of_length; [|done]. apply Forall_fmap. eapply Forall_impl; [exact Ha|]. intros a. apply raw_of_u16.
  - apply Nat.lt_succ_r, length_raws_bytes.
Qed.

Lemma decode_header_body m attrs rest :
  (0 ≤ method m < 4096)%Z → length (transaction_id m) = 12 → Forall attr_ok attrs →
  is_u16 (Z.of_nat (length (body_of m attrs))) →
  Message.decode (header m (length (body_of m attrs)) ++ body_of m attrs ++ rest) =
    Some (Ok (mkMessage (method m) (class m) (transaction_id m) attrs)).
Proof.
  intros Hm Ht Hok Hl. destruct (type_roundtrip _ (class m) Hm) as [Hty Hr].
  destruct (message_header_fields m (length (body_of m attrs)) (body_of m attrs ++ rest) Hm Ht Hl) as (H0 & H2 & H4 & H8 & Hlen).
  unfold Message.decode. rewrite Hlen, H0, H2, H4, H8, Hty, !length_app.
  rewrite (slice_between _ (body_of m attrs)) by (done || by apply length_message_header).
  rewrite (bool_decide_eq_false_2 (_ < HEADER_LEN)) by lia.
  rewrite (bool_decide_eq_false_2 (Z.land _ _ ≠ 0%Z)) by (rewrite land_low; [naive_solver|done]).
  rewrite (bool_decide_eq_false_2 (MAGIC_COOKIE ≠ _)) by naive_solver.
  rewrite (bool_decide_eq_false_2 (_ < HEADER_LEN + _)) by lia.
  by rewrite decode_attributes_body by done.
Qed.

Lemma message_decode_encode m key fp rest :
  message_ok m key fp →
  Message.decode (Message.encode m key fp ++ rest) =
    Some (Ok (mkMessage (method m) (class m) (transaction_id m) (sealed m key fp))).
Proof using TL.
  intros (Hm & Ht & Ha & Hl). rewrite encode_bytes, <-app_assoc by done.
  apply decode_header_body; [done..| |done]. by apply sealed_ok.
Qed.

Lemma encode_not_channel m key fp rest :
  message_ok m key fp → is_channel_data (Message.encode m key fp ++ rest) = false.
Proof.
  intros (Hm & Ht & Ha & Hl). rewrite encode_bytes, <-app_assoc by done.
  destruct (message_header_fields m (length (body_of m (sealed m key fp))) (body_of m (sealed m key fp) ++ rest) Hm Ht Hl) as (H0 & _).
  unfold is_channel_data, in_channel_range. rewrite H0. rewrite (bool_decide_eq_false_2 (CHANNEL_MIN ≤ _ ≤ _)%Z); [apply andb_false_r|].
  destruct (type_roundtrip _ (class m) Hm) as [_ Hr]. unfold CHANNEL_MIN. lia.
Qed.

(** C35: A message that fits is read back with all its attributes, followed by
    the MAC and the checksum the encoder added, whatever follows it in the
    datagram; and no reader takes it for channel data. *)
Theorem turn_roundtrip m key fp rest :
  message_ok m key fp →
  Message.decode (Message.encode m key fp ++ rest) =
    Some (Ok (mkMessage (method m) (class m) (transaction_id m) (sealed m key fp))) ∧
  is_channel_data (Message.encode m key fp ++ rest) = false.
Proof using TL. intros H. split; [by apply message_decode_encode|by apply encode_not_channel]. Qed.
End messages.

(** ** Integrity *)

Definition byte_or (a b : byte) : byte := byte_of (Z.lor (byte_val a) (byte_val b)).

Lemma byte_or_zero a b : byte_or a b = x00 ↔ a = x00 ∧ b = x00.
Proof.
  split; [|by intros [-> ->]]. unfold byte_or. intros H. apply (f_equal byte_val) in H. rewrite byte_val_of in H.
  pose proof (byte_val_range a). pose proof (byte_val_range b).
  assert (0 ≤ Z.lor (byte_val a) (byte_val b) < 256)%Z as Hr.
  { split; [apply Z.lor_nonneg; lia|]. destruct (decide (Z.lor (byte_val a) (byte_val b) = 0)%Z) as [->|]; [done|].
    apply (Z.log2_lt_pow2 _ 8); [|rewrite Z.log2_lor by lia; apply Z.max_lub_lt].
    - assert (0 ≤ Z.lor (byte_val a) (byte_val b))%Z by (apply Z.lor_nonneg; lia). lia.
    - apply Z.le_lt_trans with (Z.log2 255); [apply Z.log2_le_mono; lia|done].
    - apply Z.le_lt_trans with (Z.log2 255); [apply Z.log2_le_mono; lia|done]. }
  rewrite Z.mod_small in H by done. change (byte_val x00) with 0%Z in H. apply Z.lor_eq_0_iff in H as [Ha Hb].
  split; by apply (inj byte_val).
Qed.

Lemma foldl_or_zero l d : foldl byte_or d l = x00 ↔ d = x00 ∧ Forall (λ x, x = x00) l.
Proof.
  revert d. induction l as [|x l IH]; intros d; simpl; [naive_solver|]. rewrite IH, byte_or_zero, Forall_cons. tauto.
Qed.

Lemma same_mac_spec e a : length e = length a → same_mac e a = bool_decide (e = a).
Proof.
  intros Hl. unfold same_mac. change (foldl _ _ _) with (foldl byte_or x00 (zip_with byte_xor e a)).
  apply bool_decide_ext. rewrite foldl_or_zero. split.
  - intros [_ H]. revert a Hl H. induction e as [|x e IH]; intros [|y a]; [done..|]. simpl.
    intros [= Hl] [Hx H]%Forall_cons. apply byte_xor_zero in Hx as ->. f_equal. by apply IH.
  - intros <-. split; [done|]. clear Hl. induction e as [|x e IH]; constructor; [|done].
    unfold byte_xor. by rewrite Z.lxor_nilpotent.
Qed.

Definition is_integrity (a : Attribute.Attribute) : Prop := match a with Attribute.MessageIntegrity _ => True | _ => False end.

Lemma raw_of_integrity txn a : attr_ok a → ¬ is_integrity a → (raw_of txn a).1 ≠ ATTR_MESSAGE_INTEGRITY.
Proof.
  destruct a; cbn [raw_of fst is_integrity attr_ok]; intros Ha Hn; try (vm_compute; discriminate); [done|].
  intros ->. apply Ha. unfold KNOWN_ATTRS. set_solver.
Qed.

Section integrity_laws.
Context `{TC : TurnCrypto}.

(** The search walks over other attributes to the first MAC. *)
Lemma find_integrity_raws tvs mac pre post buf key fuel :
  Forall (λ tv, raw_ok tv ∧ tv.1 ≠ ATTR_MESSAGE_INTEGRITY) tvs → length mac = 20 → length tvs < fuel →
  find_integrity fuel buf (pre ++ raws_bytes tvs ++ raw_bytes (ATTR_MESSAGE_INTEGRITY, mac) ++ post) key (length pre) =
    let offset := length (pre ++ raws_bytes tvs) in
    Some (same_mac (hmac_sha1 key (set_length (take (HEADER_LEN + offset) buf) (offset + 24))) mac).
Proof.
  intros Hok Hmac. revert pre fuel. induction Hok as [|tv tvs [Htv Hne] Htvs IH]; intros pre [|fuel] Hf; [simpl in *; lia..| |simpl in *; lia|].
  - unfold raws_bytes. cbn [mbind list_bind app]. rewrite app_nil_r.
    assert (raw_ok (ATTR_MESSAGE_INTEGRITY, mac)) as Hr by (split; [done|cbn [snd]; rewrite Hmac; done]).
    destruct (raw_at pre _ post Hr) as (H1 & H2 & H3 & H4 & H5). cbn [fst snd] in *. rewrite Hmac in *.
    cbn [find_integrity]. rewrite bool_decide_eq_true_2 by done. rewrite H2, H3.
    rewrite bool_decide_eq_false_2 by lia. rewrite bool_decide_eq_true_2 by done.
    rewrite bool_decide_eq_false_2 by naive_solver. by rewrite H5.
  - rewrite raws_bytes_cons, <-!app_assoc.
    destruct (raw_at pre tv (raws_bytes tvs ++ raw_bytes (ATTR_MESSAGE_INTEGRITY, mac) ++ post) Htv) as (H1 & H2 & H3 & H4 & H5).
    cbn [find_integrity]. rewrite bool_decide_eq_true_2 by done. rewrite H2, H3.
    rewrite !bool_decide_eq_false_2 by (done || lia).
    replace (length pre + 4 + length tv.2 + pad4 (length tv.2)) with (length (pre ++ raw_bytes tv))
      by (rewrite length_app, length_raw_bytes; lia).
    rewrite (app_assoc pre). rewrite IH by (simpl in *; lia). cbv zeta. by rewrite <-!app_assoc.
Qed.

Context {TL : TurnCryptoLaws}.

(** What the MAC of a message covers. *)
Definition covered (m : Message) : list byte :=
  let body := body_of m (attributes m) in header m (length body + 24) ++ body.

(** Checking a message with its MAC followed by any further attributes. *)
Lemma verify_sealed m key key' extra rest :
  (0 ≤ method m < 4096)%Z → length (transaction_id m) = 12 → Forall attr_ok (attributes m) →
  Forall (λ a, ¬ is_integrity a) (attributes m) → Forall attr_ok extra →
  let attrs := attributes m ++ [integrity_attr m key] ++ extra in let body := body_of m attrs in
  is_u16 (Z.of_nat (length body)) →
  verify_integrity (header m (length body) ++ body ++ rest) key' =
    Some (bool_decide (hmac_sha1 key' (covered m) = hmac_sha1 key (covered m))).
Proof using TL.
  intros Hm Ht Ha Hni He attrs body Hl. unfold verify_integrity.
  destruct (message_header_fields m (length body) (body ++ rest) Hm Ht Hl) as (_ & H2 & _ & _ & Hlen).
  rewrite Hlen, H2, length_app. rewrite !bool_decide_eq_false_2 by lia.
  rewrite (slice_between _ body) by (done || by apply length_message_header).
  assert (body = body_of m (attributes m) ++ raw_bytes (ATTR_MESSAGE_INTEGRITY, hmac_sha1 key (covered m)) ++ body_of m extra) as Hb.
  { unfold body, attrs. rewrite !body_of_app, body_of_one. done. }
  clearbody body. assert (is_u16 (Z.of_nat (length (body_of m (attributes m))))) as Hl0.
  { unfold is_u16 in *. rewrite Hb, length_app in Hl. lia. }
  assert (Forall (λ tv, raw_ok tv ∧ tv.1 ≠ ATTR_MESSAGE_INTEGRITY) (raw_of (transaction_id m) <$> attributes m)) as Hr.
  { assert (Forall raw_ok (raw_of (transaction_id m) <$> attributes m)) as Hr.
    { apply raws_ok_of_length; [|done]. apply Forall_fmap. eapply Forall_impl; [exact Ha|]. intros a. apply raw_of_u16. }
    rewrite Forall_fmap in Hr |- *. rewrite !Forall_forall in *. intros a Hin. split; [by apply Hr|].
    by apply raw_of_integrity; [apply Ha|apply Hni]. }
  assert (length (raw_of (transaction_id m) <$> attributes m) < S (length body)) as Hf.
  { apply Nat.lt_succ_r. rewrite Hb, length_app. etransitivity; [apply length_raws_bytes|]. unfold body_of. lia. }
  set (fuel := S (length body)) in *. set (buf := header m (length body) ++ body ++ rest).
  assert (take (HEADER_LEN + length (body_of m (attributes m))) buf = header m (length body) ++ body_of m (attributes m)) as Htake.
  { unfold buf. rewrite Hb at 2. rewrite <-!app_assoc, (app_assoc (header _ _)). apply take_app_length'.
    by rewrite length_app, length_message_header. }
  clearbody fuel buf. rewrite Hb.
  etransitivity; [apply (find_integrity_raws _ _ [] (body_of m extra) buf key' fuel Hr); [apply length_hmac_sha1|done]|].
  cbv zeta. cbn [app]. fold (body_of m (attributes m)). rewrite Htake, set_length_header. f_equal.
  apply same_mac_spec. by rewrite !length_hmac_sha1.
Qed.

Lemma verify_encode m key key' fp rest :
  message_ok m (Some key) fp → Forall (λ a, ¬ is_integrity a) (attributes m) →
  verify_integrity (Message.encode m (Some key) fp ++ rest) key' =
    Some (bool_decide (hmac_sha1 key' (covered m) = hmac_sha1 key (covered m))).
Proof using TL.
  intros (Hm & Ht & Ha & Hl) Hni. rewrite encode_bytes, <-!app_assoc by done.
  set (extra := if fp then [fingerprint_attr m (attributes m ++ [integrity_attr m key])] else []).
  assert (sealed m (Some key) fp = attributes m ++ [integrity_attr m key] ++ extra) as He by (unfold sealed; by rewrite <-app_assoc).
  assert (Forall attr_ok extra) as Hx by (unfold extra; destruct fp; [apply Forall_singleton, fingerprint_ok|done]).
  rewrite He in *. by rewrite (verify_sealed m key).
Qed.

(** The receiver's check of a sealed message: it accepts under the sender's
    key, and under another key only when the MAC of the covered bytes is the
    same. *)
Theorem integrity_checked m key key' fp rest :
  message_ok m (Some key) fp → Forall (λ a, ¬ is_integrity a) (attributes m) →
  verify_integrity (Message.encode m (Some key) fp ++ rest) key = Some true ∧
  verify_integrity (Message.encode m (Some key) fp ++ rest) key' =
    Some (bool_decide (hmac_sha1 key' (covered m) = hmac_sha1 key (covered m))).
Proof using TL.
  intros Hok Hni. rewrite !(verify_encode m key) by done. by rewrite (bool_decide_eq_true_2 (_ key _ = _ key _)).
Qed.

(** The MAC covers what precedes it only. Anyone can append attributes to a
    sealed message and correct the length: the check still accepts, and the
    decoder reports the added attributes beside the protected ones. *)
Theorem appended_attributes_accepted m key extra rest :
  (0 ≤ method m < 4096)%Z → length (transaction_id m) = 12 → Forall attr_ok (attributes m) →
  Forall (λ a, ¬ is_integrity a) (attributes m) → Forall attr_ok extra →
  let attrs := attributes m ++ [integrity_attr m key] ++ extra in
  is_u16 (Z.of_nat (length (body_of m attrs))) →
  let forged := header m (length (body_of m attrs)) ++ body_of m attrs ++ rest in
  verify_integrity forged key = Some true ∧
  Message.decode forged = Some (Ok (mkMessage (method m) (class m) (transaction_id m) attrs)).
Proof using TL.
  intros Hm Ht Ha Hni He attrs Hl forged. split.
  - unfold forged, attrs. rewrite (verify_sealed m key key extra) by done. by rewrite bool_decide_eq_true_2.
  - apply (decode_header_body m attrs rest); [done..| |done]. unfold attrs. rewrite !Forall_app.
    split_and!; [done| |done]. apply Forall_singleton, length_hmac_sha1.
Qed.

Lemma find_integrity_sound fuel msg_len buf key offset :
  let body := slice HEADER_LEN (HEADER_LEN + msg_len) buf in
  HEADER_LEN + msg_len ≤ length buf → length body - offset < fuel →
  ∃ b, find_integrity fuel buf body key offset = Some b ∧
    (b = true → ∃ o, HEADER_LEN + o + 24 ≤ length buf ∧
       slice (HEADER_LEN + o + 4) (HEADER_LEN + o + 24) buf = hmac_sha1 key (set_length (take (HEADER_LEN + o) buf) (o + 24))).
Proof using TL.
  intros body Hb. assert (length body = msg_len) as Hlen by (unfold body; rewrite length_slice by lia; lia).
  revert offset. induction fuel as [|fuel IH]; intros offset Hf; [lia|]. cbn [find_integrity].
  case_bool_decide as H4; [|by eexists]. case_bool_decide as Ha; [by eexists|].
  case_bool_decide as Ht; [|apply IH; lia].
  case_bool_decide as H20; [by eexists|]. eexists. split; [done|]. intros Hs.
  assert (length (slice (offset + 4) (offset + 4 + 20) body) = 20) as Hl by (rewrite length_slice; lia).
  rewrite same_mac_spec in Hs by (by rewrite length_hmac_sha1, Hl). apply bool_decide_eq_true in Hs.
  exists offset. split; [lia|]. rewrite Hs. unfold body. rewrite slice_slice by lia. f_equal; lia.
Qed.

(** The check terminates on every datagram, and what it accepts carries the
    MAC, under the key, of the bytes in front of it. *)
Theorem integrity_sound buf key :
  ∃ b, verify_integrity buf key = Some b ∧
    (b = true → ∃ o, HEADER_LEN + o + 24 ≤ length buf ∧
       slice (HEADER_LEN + o + 4) (HEADER_LEN + o + 24) buf = hmac_sha1 key (set_length (take (HEADER_LEN + o) buf) (o + 24))).
Proof using TL.
  unfold verify_integrity. case_bool_decide; [by eexists|]. case_bool_decide; [by eexists|].
  apply find_integrity_sound; lia.
Qed.
End integrity_laws.

(** ** Decoding is total and typed *)

(** Attributes at the widths of the source's types. *)
Definition attr_typed (a : Attribute.Attribute) : Prop :=
  match a with
  | Attribute.MappedAddress addr | Attribute.XorMappedAddress addr
  | Attribute.XorPeerAddress addr | Attribute.XorRelayedAddress addr => addr_ok addr
  | Attribute.Username s | Attribute.Realm s | Attribute.Nonce s | Attribute.Software s => str_ok s
  | Attribute.MessageIntegrity mac => length mac = 20
  | Attribute.Fingerprint n | Attribute.Lifetime n => is_u32 n
  | Attribute.ErrorCode code _ | Attribute.ChannelNumber code => is_u16 code
  | Attribute.Unknown typ value => is_u16 typ ∧ (typ ∉ KNOWN_ATTRS) ∧ is_u16 (Z.of_nat (length value))
  | Attribute.Data value => is_u16 (Z.of_nat (length value))
  | Attribute.RequestedTransport _ | Attribute.DontFragment => True
  end.

Lemma decode_plain_address_typed v a : decode_plain_address v = Ok a → addr_ok a.
Proof.
  unfold decode_plain_address. case_bool_decide as Hl; [done|].
  destruct (at_byte v 1); try discriminate; [intros [= <-]|case_bool_decide; [done|]; intros [= <-]];
    cbn [socket_addr addr_ok]; rewrite length_slice by lia; pose proof (u16_at_range 2 v); by split_and!.
Qed.

Lemma decode_xor_address_typed v txn a : length txn = 12 → decode_xor_address v txn = Ok a → addr_ok a.
Proof.
  intros Ht. unfold decode_xor_address. case_bool_decide as Hl; [done|]. pose proof (is_u16_xor _ (u16_at_range 2 v)).
  destruct (at_byte v 1); try discriminate; [intros [= <-]|case_bool_decide; [done|]; intros [= <-]]; cbn [socket_addr addr_ok].
  - by rewrite length_to_be_bytes.
  - rewrite length_xor_with_key by (done || by rewrite length_slice by lia). by split_and!.
Qed.

Lemma decode_attribute_typed typ v txn a :
  length txn = 12 → is_u16 typ → is_u16 (Z.of_nat (length v)) → decode_attribute typ v txn = Ok a → attr_typed a.
Proof.
  intros Ht Hty Hv. destruct (decide (typ ∈ KNOWN_ATTRS)) as [Hin|Hn].
  2:{ rewrite decode_attribute_unknown by done. by intros [= <-]. }
  unfold KNOWN_ATTRS in Hin. repeat (apply elem_of_cons in Hin as [->|Hin]); [..|by apply elem_of_nil in Hin].
  all: pick_attr.
  all: try (intros (? & ?%decode_plain_address_typed & [= <-])%rbind_Ok; done).
  all: try (intros (? & ?%decode_xor_address_typed & [= <-])%rbind_Ok; done).
  all: try (unfold decode_string; intros (? & ?%ok_or_Ok%from_utf8_Some & [= <-])%rbind_Ok; naive_solver).
  all: try (intros [= <-]; done).
  all: case_bool_decide as Hl; [done|]; intros [= <-]; cbn [attr_typed].
  all: try done || apply u32_at_range || apply u16_at_range || lia.
  pose proof (byte_val_range (at_byte v 2)). pose proof (byte_val_range (at_byte v 3)). unfold is_u16. lia.
Qed.

Lemma decode_attributes_total fuel body txn offset acc :
  length body - offset < fuel → length txn = 12 → Forall attr_typed acc →
  ∃ r, Message.decode_attributes fuel body txn offset acc = Some r ∧ ∀ attrs, r = Ok attrs → Forall attr_typed attrs.
Proof.
  revert offset acc. induction fuel as [|fuel IH]; intros offset acc Hf Ht Hacc; [lia|]. cbn [Message.decode_attributes].
  case_bool_decide as H4; [|case_bool_decide; eexists; (split; [done|]); naive_solver].
  case_bool_decide as Ha; [eexists; split; [done|]; naive_solver|].
  pose proof (u16_at_range offset body) as Hty. pose proof (u16_at_range (offset + 2) body) as Hlen.
  set (v := slice _ _ body). destruct (decode_attribute _ v txn) as [a|e] eqn:Ed; [|eexists; split; [done|]; naive_solver].
  apply IH; [lia|done|]. apply Forall_app. split; [done|]. apply Forall_singleton.
  apply (decode_attribute_typed _ v _ _ Ht Hty); [|exact Ed]. unfold v. rewrite length_slice by lia.
  unfold is_u16 in *. lia.
Qed.

Lemma decode_type_range raw : (0 ≤ raw)%Z → (0 ≤ (decode_type raw).1 < 4096)%Z.
Proof.
  intros Hr. set (m := (decode_type raw).1). assert (0 ≤ m)%Z.
  { unfold m, decode_type. cbn [fst]. rewrite !Z.lor_nonneg, !Z.shiftr_nonneg, !Z.land_nonneg. lia. }
  assert (m = m mod 2 ^ 12)%Z as ->; [|apply Z.mod_pos_bound; lia].
  apply Z.bits_inj'. intros i Hi. destruct (Z.lt_ge_cases i 12); [by rewrite Z.mod_pow2_bits_low|].
  rewrite Z.mod_pow2_bits_high by lia. unfold m, decode_type. cbn [fst].
  rewrite !Z.lor_spec, !Z.shiftr_spec, !Z.land_spec by lia.
  rewrite (Z.bits_above_log2 0x3E00), (Z.bits_above_log2 0x00E0), (Z.bits_above_log2 0x000F) by (simpl; lia).
  by rewrite !andb_false_r.
Qed.

Lemma decode_total buf :
  ∃ r, Message.decode buf = Some r ∧
    ∀ m, r = Ok m → (0 ≤ method m < 4096)%Z ∧ length (transaction_id m) = 12 ∧ Forall attr_typed (attributes m).
Proof.
  unfold Message.decode. case_bool_decide as Hl; [eexists; split; [done|]; naive_solver|].
  do 3 (case_bool_decide; [eexists; split; [done|]; naive_solver|]).
  destruct (decode_type (u16_at 0 buf)) as [me cl] eqn:Et.
  assert (length (slice 8 20 buf) = 12) as H12 by (unfold HEADER_LEN in Hl; rewrite length_slice; lia).
  set (body := slice HEADER_LEN _ buf).
  destruct (decode_attributes_total (S (length body)) body (slice 8 20 buf) 0 []) as (r & -> & Hr); [lia|done|done|].
  simpl. eexists. split; [done|]. intros m. destruct r as [attrs|]; [|done]. intros [= <-]. cbn [method transaction_id attributes].
  pose proof (decode_type_range (u16_at 0 buf)) as Hm. rewrite Et in Hm. pose proof (u16_at_range 0 buf) as Hu. unfold is_u16 in Hu.
  split; [apply Hm; lia|]. split; [done|]. by apply Hr.
Qed.

(** Any datagram is decoded to a message of the source's types or refused;
    the decoder never runs past the buffer or its fuel. *)
Theorem turn_decode_typed buf :
  ∃ r, Message.decode buf = Some r ∧
    ∀ m, r = Ok m → (0 ≤ method m < 4096)%Z ∧ length (transaction_id m) = 12 ∧ Forall attr_typed (attributes m).
Proof. apply decode_total. Qed.

Lemma decoded_relayed_address buf m addr :
  Message.decode buf = Some (Ok m) → Message.xor_relayed_address m = Some addr → addr_ok addr.
Proof.
  destruct (decode_total buf) as (r & -> & Hr). intros [= ->]. destruct (Hr _ eq_refl) as (_ & _ & Hat). unfold Message.xor_relayed_address.
  induction Hat as [|a l Ha _ IH]; simpl; [done|]. destruct a; try apply IH. intros [= <-]. exact Ha.
Qed.

(** ** ChannelData *)

(** A frame of at most 65535 bytes on a channel of the range is read back,
    whatever padding follows it, and is recognised as channel data. A longer
    payload is cut: the length field wraps around. *)
Lemma channel_data_cut f rest :
  (CHANNEL_MIN ≤ channel f ≤ CHANNEL_MAX)%Z →
  is_channel_data (ChannelData.encode f ++ rest) = true ∧
  ChannelData.decode (ChannelData.encode f ++ rest) =
    Ok (mkChannelData (channel f) (take (Z.to_nat (Z.of_nat (length (data f)) mod 65536)) (data f))).
Proof.
  intros Hc. destruct f as [c d]. cbn [channel data] in *.
  assert (is_u16 c) as Hu by (unfold CHANNEL_MIN, CHANNEL_MAX in *; unfold is_u16; lia).
  unfold ChannelData.encode. cbn [channel data]. rewrite <-!app_assoc.
  assert (u16_at 0 (to_be_bytes 2 c ++ to_be_bytes 2 (as_u16 (length d)) ++ d ++ rest) = c) as H0 by (by apply (u16_at_mid [])).
  assert (is_u16 (as_u16 (length d))) as Hw by (apply Z.mod_pos_bound; lia).
  assert (in_channel_range c = true) as Hr by (by apply bool_decide_eq_true_2).
  unfold is_channel_data, ChannelData.decode. rewrite H0, Hr, u16_at_mid by (done || by rewrite length_to_be_bytes).
  rewrite !length_app, !length_to_be_bytes. rewrite bool_decide_eq_true_2 by lia. split; [done|].
  rewrite bool_decide_eq_false_2 by lia. cbn [negb].
  assert (Z.to_nat (as_u16 (length d)) ≤ length d) as Hle.
  { unfold as_u16. pose proof (Z.mod_le (Z.of_nat (length d)) 65536). lia. }
  rewrite bool_decide_eq_false_2 by lia. do 2 f_equal. fold (as_u16 (length d)).
  rewrite (app_assoc (to_be_bytes 2 c)), slice_app_r, length_app, !length_to_be_bytes
    by (rewrite length_app, !length_to_be_bytes; lia).
  unfold slice. replace (4 - (2 + 2)) with 0 by done. rewrite drop_0. rewrite take_app_le by lia. f_equal. lia.
Qed.

(** ** Examples *)

(** A stand-in for the primitives: the bytes themselves, folded to width. *)
#[export] Instance toy_crypto : TurnCrypto :=
  {| hmac_sha1 key msg := to_be_bytes 20 (from_be_bytes (key ++ msg) mod (2 ^ 160 - 47));
     crc32 msg := u32_wrap (from_be_bytes msg);
     md5 msg := to_be_bytes 16 (from_be_bytes msg) |}.

#[export] Instance toy_crypto_laws : TurnCryptoLaws.
Proof. split; intros; [apply length_to_be_bytes|apply u32_wrap_range]. Qed.

Definition ex_txn : list byte := replicate 12 x07.
Definition ex_addr : SocketAddr := SockV4 [xcb; x00; x71; x09] 7000.
Definition ex_reply : Message :=
  mkMessage METHOD_ALLOCATE Class.Success ex_txn
    [Attribute.XorRelayedAddress ex_addr; Attribute.ErrorCode 438 "Stale"; Attribute.Realm "lab"; Attribute.Lifetime 600].

Lemma ex_reply_ok key fp : length (body_of ex_reply (sealed ex_reply key fp)) ≤ 100 → message_ok ex_reply key fp.
Proof.
  intros H. split; [by vm_compute|]. split; [done|]. split; [|unfold is_u16; lia].
  unfold ex_reply. cbn [attributes]. rewrite !Forall_cons, Forall_nil. split_and!; by vm_compute.
Qed.

Lemma turn_roundtrip_witness :
  Message.decode (Message.encode ex_reply (Some [x01]) true) =
    Some (Ok (mkMessage METHOD_ALLOCATE Class.Success ex_txn (sealed ex_reply (Some [x01]) true))).
Proof.
  rewrite <-(app_nil_r (Message.encode _ _ _)). apply (turn_roundtrip ex_reply (Some [x01]) true []).
  apply ex_reply_ok. apply Nat.leb_le. vm_compute. reflexivity.
Defined.

Lemma integrity_checked_witness :
  verify_integrity (Message.encode ex_reply (Some [x01]) true ++ []) [x01] = Some true ∧
  verify_integrity (Message.encode ex_reply (Some [x01]) true ++ []) [x02] = Some false.
Proof.
  destruct (integrity_checked ex_reply [x01] [x02] true []) as [H1 H2].
  - apply ex_reply_ok. apply Nat.leb_le. vm_compute. reflexivity.
  - repeat constructor; intros [].
  - split; [exact H1|]. rewrite H2. vm_compute. reflexivity.
Defined.

(** A refresh answer without a lifetime, and the lifetime an onlooker adds. *)
Definition ex_refreshed : Message := mkMessage METHOD_REFRESH Class.Success ex_txn [].

Lemma appended_attributes_accepted_witness :
  let attrs := [integrity_attr ex_refreshed [x01]; Attribute.Lifetime 0] in
  let forged := header ex_refreshed (length (body_of ex_refreshed attrs)) ++ body_of ex_refreshed attrs ++ [] in
  verify_integrity forged [x01] = Some true ∧
  (∃ m, Message.decode forged = Some (Ok m) ∧ Message.lifetime m = Some 0%Z).
Proof.
  destruct (appended_attributes_accepted ex_refreshed [x01] [Attribute.Lifetime 0] []) as [H1 H2].
  - vm_compute. split; discriminate || reflexivity.
  - reflexivity.
  - constructor.
  - constructor.
  - repeat constructor; vm_compute; discriminate.
  - vm_compute. split; discriminate || reflexivity.
  - split; [exact H1|]. eexists. split; [exact H2|]. reflexivity.
Defined.
