(* ===== verification/Stun.v ===== *)
(** * STUN bindings and the tap on the QUIC socket

    [crates/mqp2p/src/stun.rs] asks a server for the address it sees;
    [crates/mqp2p/src/stun_tap.rs] sits between the socket and QUIC, takes
    binding responses out of what the socket receives, and lets everything
    else through. Sockets, name resolution, random transaction ids and timers
    are the inputs of the operations. *)
From S2P Require Import Prelude SyncState Membership Net Turn.

Definition STUN_MAGIC : Z := 0x2112A442.
Definition STUN_HEADER_LEN : nat := 20.
Definition STUN_BINDING_REQUEST : Z := 0x0001.
Definition STUN_BINDING_RESPONSE : Z := 0x0101.
Definition ATTR_XOR_MAPPED_ADDRESS : Z := 0x0020.
Definition ATTR_MAPPED_ADDRESS : Z := 0x0001.
Definition HOLE_PUNCH_MAGIC : list byte := [x50; x32; x50; x50].

Definition hex16 (v : Z) : string := "0x" +:+ String.string_of_list_byte (hex_bytes (to_be_bytes 2 v)).
Definition hex8 (b : byte) : string := "0x" +:+ String.string_of_list_byte (hex_bytes [b]).

Definition looks_like_binding_response (buf : list byte) : bool :=
  bool_decide (STUN_HEADER_LEN ≤ length buf)
  && bool_decide (u16_at 0 buf = STUN_BINDING_RESPONSE)
  && bool_decide (u32_at 4 buf = STUN_MAGIC).

Definition unspecified_server : SocketAddr := SockV4 [x00; x00; x00; x00] 0.

(** [lookup] is what [lookup_host] answered. *)
Definition resolve_server (stun_server : string) (lookup : result (list SocketAddr) IoError) : result SocketAddr Error :=
  match lookup with
  | Err _ => Err (Net.Stun unspecified_server ("DNS lookup failed for " +:+ stun_server))
  | Ok addrs => ok_or (head addrs) (Net.Stun unspecified_server ("no addresses found for " +:+ stun_server))
  end.

(** [filled] is what the system's random generator answered. *)
Definition random_txn_id (filled : option (list byte)) : result (list byte) Error :=
  ok_or filled (Net.Stun unspecified_server "failed to generate random transaction ID").

Definition build_binding_request (txn_id : list byte) : list byte :=
  to_be_bytes 2 STUN_BINDING_REQUEST ++ [x00; x00] ++
  [byte_of (Z.shiftr STUN_MAGIC 24); byte_of (Z.shiftr STUN_MAGIC 16); byte_of (Z.shiftr STUN_MAGIC 8); byte_of STUN_MAGIC]
  ++ txn_id.

Definition parse_xor_mapped_address (attr_value txn_id : list byte) : result SocketAddr string :=
  if bool_decide (length attr_value < 8) then Err "XOR-MAPPED-ADDRESS too short"%string else
  let family := at_byte attr_value 1 in
  let xor_port := u16_at 2 attr_value in
  let port := Z.lxor xor_port (Z.shiftr STUN_MAGIC 16) in
  match family with
  | x01 =>
    let xor_ip := u32_at 4 attr_value in
    Ok (socket_addr (V4 (to_be_bytes 4 (Z.lxor xor_ip STUN_MAGIC))) port)
  | x02 =>
    if bool_decide (length attr_value < 20) then Err "XOR-MAPPED-ADDRESS IPv6 too short"%string else
    let xor_bytes := slice 4 20 attr_value in
    let key := to_be_bytes 4 STUN_MAGIC ++ txn_id in
    Ok (socket_addr (V6 (zip_with byte_xor xor_bytes key)) port)
  | _ => Err ("unknown address family: " +:+ hex8 family)
  end.

Definition parse_mapped_address (attr_value : list byte) : result SocketAddr string :=
  if bool_decide (length attr_value < 8) then Err "MAPPED-ADDRESS too short"%string else
  let family := at_byte attr_value 1 in
  let port := u16_at 2 attr_value in
  match family with
  | x01 => Ok (socket_addr (V4 (slice 4 8 attr_value)) port)
  | _ => Err ("unsupported MAPPED-ADDRESS family: " +:+ hex8 family)
  end.

Definition ok {T E} (r : result T E) : option T := match r with Ok t => Some t | Err _ => None end.

(** The two variables of the loop of [parse_binding_response] after one
    attribute. *)
Definition note_attr (txn_id : list byte) (attr_type : Z) (attr_value : list byte)
    (found : option SocketAddr * option SocketAddr) : option SocketAddr * option SocketAddr :=
  if bool_decide (attr_type = ATTR_XOR_MAPPED_ADDRESS)
  then (ok (parse_xor_mapped_address attr_value txn_id), found.2)
  else if bool_decide (attr_type = ATTR_MAPPED_ADDRESS)
  then (found.1, ok (parse_mapped_address attr_value))
  else found.

Fixpoint scan_attrs (fuel : nat) (attrs txn_id : list byte) (offset : nat)
    (found : option SocketAddr * option SocketAddr) : option (option SocketAddr * option SocketAddr) :=
  match fuel with
  | O => None
  | S fuel =>
    if bool_decide (offset + 4 ≤ length attrs) then
      let attr_type := u16_at offset attrs in
      let attr_len := Z.to_nat (u16_at (offset + 2) attrs) in
      let offset := offset + 4 in
      if bool_decide (length attrs < offset + attr_len) then Some found else
      let attr_value := slice offset (offset + attr_len) attrs in
      scan_attrs fuel attrs txn_id (offset + attr_len + pad4 attr_len) (note_attr txn_id attr_type attr_value found)
    else Some found
  end.

Definition parse_binding_response (buf txn_id : list byte) : option (result SocketAddr string) :=
  if bool_decide (length buf < STUN_HEADER_LEN) then Some (Err "response too short"%string) else
  let msg_type := u16_at 0 buf in
  if bool_decide (msg_type ≠ STUN_BINDING_RESPONSE) then Some (Err ("unexpected message type: " +:+ hex16 msg_type)) else
  if bool_decide (slice 8 20 buf ≠ txn_id) then Some (Err "transaction ID mismatch"%string) else
  let msg_len := Z.to_nat (u16_at 2 buf) in
  let attrs := slice STUN_HEADER_LEN (STUN_HEADER_LEN + min msg_len (length buf - STUN_HEADER_LEN)) buf in
  found ← scan_attrs (S (length attrs)) attrs txn_id 0 (None, None);
  Some (ok_or (match found.1 with Some a => Some a | None => found.2 end) "no mapped address in response"%string).

(** One exchange on a plain socket. [received] is what [recv_from] delivered,
    [None] when the timeout struck first. *)
Definition discover_external_addr (resolved : result SocketAddr Error) (txn : result (list byte) Error)
    (send_to : list byte → SocketAddr → result () IoError) (received : option (result (list byte) IoError))
    (local_addr : result SocketAddr IoError) : option (result SocketAddr Error) :=
  match resolved, txn with
  | Err e, _ => Some (Err e)
  | Ok _, Err e => Some (Err e)
  | Ok server_addr, Ok txn_id =>
    match send_to (build_binding_request txn_id) server_addr, received with
    | Err _, _ => Some (Err (Net.Stun server_addr "send failed"))
    | Ok _, None => Some (Err (Net.Stun server_addr "timeout waiting for STUN response"))
    | Ok _, Some (Err _) => Some (Err (Net.Stun server_addr "recv failed"))
    | Ok _, Some (Ok datagram) =>
      r ← parse_binding_response (take 512 datagram) txn_id;
      Some (match r with
        | Err reason => Err (StunParse reason)
        | Ok srflx => match local_addr with Ok _ => Ok srflx | Err e => Err (Io e) end
        end)
    end
  end.

(** ** The tap *)

Record RecvMeta := mkMeta { m_addr : SocketAddr; m_len : nat; m_stride : nat }.

(** One round of the loop of [poll_recv] on a received datagram: what is sent
    to [responses], and the datagram's meta data afterwards. *)
Definition tap_one (buf : list byte) (meta : RecvMeta) : option (list byte) * RecvMeta :=
  let len := m_len meta in
  if bool_decide (len = 0) || (bool_decide (m_stride meta ≠ 0) && bool_decide (m_stride meta < len)) then (None, meta) else
  if looks_like_binding_response (take len buf)
  then (Some (take len buf), mkMeta (m_addr meta) 0 (m_stride meta))
  else (None, meta).

Inductive Poll := Pending | Ready (count : result nat IoError).

(** [poll_recv] after the inner socket answered: the first [count] entries go
    through the tap, the others are left alone. *)
Definition poll_recv (inner : Poll) (bufs : list (list byte)) (meta : list RecvMeta) : list (list byte) * list RecvMeta :=
  match inner with
  | Ready (Ok count) =>
    let rs := zip_with tap_one (take count bufs) (take count meta) in
    (omap fst rs, (snd <$> rs) ++ drop count meta)
  | _ => ([], meta)
  end.

(** What [rediscover_srflx] sees of its channel and its deadline. *)
Inductive TapEvent := Payload (p : list byte) | Closed | Elapsed.

Fixpoint await_response (server_addr : SocketAddr) (txn_id : list byte) (events : list TapEvent) : option (result SocketAddr Error) :=
  match events with
  | [] => None
  | Elapsed :: _ => Some (Err (Net.Stun server_addr "timeout waiting for STUN response"))
  | Closed :: _ => Some (Err (Net.Stun server_addr "STUN response channel closed"))
  | Payload payload :: events =>
    r ← parse_binding_response payload txn_id;
    match r with
    | Ok addr => Some (Ok addr)
    | Err _ => await_response server_addr txn_id events
    end
  end.

Definition rediscover_srflx (resolved : result SocketAddr Error) (txn : result (list byte) Error)
    (try_send : list byte → SocketAddr → result () IoError) (events : list TapEvent) : option (result SocketAddr Error) :=
  match resolved, txn with
  | Err e, _ => Some (Err e)
  | Ok _, Err e => Some (Err e)
  | Ok server_addr, Ok txn_id =>
    match try_send (build_binding_request txn_id) server_addr with
    | Err _ => Some (Err (Net.Stun server_addr "tap send failed"))
    | Ok _ => await_response server_addr txn_id events
    end
  end.

(** ** Responses *)

(** The scan terminates within the length of what it scans. *)
Lemma scan_attrs_total fuel attrs txn offset found :
  length attrs - offset < fuel → is_Some (scan_attrs fuel attrs txn offset found).
Proof.
  revert offset found. induction fuel as [|fuel IH]; intros offset found Hf; [lia|]. cbn [scan_attrs].
  case_bool_decide; [|done]. case_bool_decide; [done|]. apply IH. lia.
Qed.

Lemma parse_binding_response_total buf txn : is_Some (parse_binding_response buf txn).
Proof.
  unfold parse_binding_response. do 3 (case_bool_decide; [done|]). set (attrs := slice _ _ buf).
  destruct (scan_attrs_total (S (length attrs)) attrs txn 0 (None, None)) as [f ->]; [lia|]. done.
Qed.

Lemma scan_attrs_raws txn tvs pre found fuel :
  Forall raw_ok tvs → length tvs < fuel →
  scan_attrs fuel (pre ++ raws_bytes tvs) txn (length pre) found =
    Some (foldl (λ found tv, note_attr txn tv.1 tv.2 found) found tvs).
Proof.
  intros Hok. revert pre found fuel. induction Hok as [|tv tvs Htv Htvs IH]; intros pre found [|fuel] Hf; [simpl in *; lia..| |simpl in *; lia|].
  - cbn [scan_attrs]. by rewrite app_nil_r, bool_decide_eq_false_2 by lia.
  - rewrite raws_bytes_cons. destruct (raw_at pre tv (raws_bytes tvs) Htv) as (H1 & H2 & H3 & H4 & H5).
    cbn [scan_attrs]. rewrite bool_decide_eq_true_2 by done. rewrite H2, H3.
    rewrite bool_decide_eq_false_2 by lia. rewrite H5.
    replace (length pre + 4 + length tv.2 + pad4 (length tv.2)) with (length (pre ++ raw_bytes tv))
      by (rewrite length_app, length_raw_bytes; lia).
    rewrite (app_assoc pre). rewrite IH by (simpl in *; lia). done.
Qed.

(** The readers of the two files agree on addresses. *)
Lemma parse_xor_decode v txn : ok (parse_xor_mapped_address v txn) = ok (decode_xor_address v txn).
Proof.
  unfold parse_xor_mapped_address, decode_xor_address. case_bool_decide; [done|].
  destruct (at_byte v 1); try reflexivity. case_bool_decide; reflexivity.
Qed.

Lemma parse_mapped_decode v :
  ok (parse_mapped_address v) = match decode_plain_address v with Ok (SockV4 ip port) => Some (SockV4 ip port) | _ => None end.
Proof.
  unfold parse_mapped_address, decode_plain_address. case_bool_decide; [done|].
  destruct (at_byte v 1); try reflexivity. case_bool_decide; reflexivity.
Qed.

(** The mapped addresses a message reports: the last one of each kind. *)
Definition note_mapped (found : option SocketAddr * option SocketAddr) (a : Attribute.Attribute) : option SocketAddr * option SocketAddr :=
  match a with
  | Attribute.XorMappedAddress addr => (Some addr, found.2)
  | Attribute.MappedAddress (SockV4 ip port) => (found.1, Some (SockV4 ip port))
  | Attribute.MappedAddress _ => (found.1, None)
  | _ => found
  end.

Definition mapped_address (attrs : list Attribute.Attribute) : option SocketAddr :=
  let found := foldl note_mapped (None, None) attrs in
  match found.1 with Some a => Some a | None => found.2 end.

Lemma note_attr_raw txn a found :
  attr_ok a → length txn = 12 → note_attr txn (raw_of txn a).1 (raw_of txn a).2 found = note_mapped found a.
Proof.
  intros Ha Ht. unfold note_attr. destruct a; cbn [raw_of fst snd note_mapped attr_ok] in *.
  17:{ rewrite !bool_decide_eq_false_2; [done|intros ->; apply Ha; unfold KNOWN_ATTRS; set_solver..]. }
  all: repeat match goal with
    | |- context [bool_decide (@eq Z ?a ?b)] =>
      first [rewrite (bool_decide_eq_true_2 (a = b)) by reflexivity
            |rewrite (bool_decide_eq_false_2 (a = b)) by (vm_compute; discriminate)]
    end; try reflexivity.
  - rewrite parse_mapped_decode, plain_address_roundtrip by done. by destruct addr.
  - by rewrite parse_xor_decode, xor_address_roundtrip.
Qed.

Lemma scan_attrs_body m attrs :
  Forall attr_ok attrs → length (transaction_id m) = 12 → is_u16 (Z.of_nat (length (body_of m attrs))) →
  scan_attrs (S (length (body_of m attrs))) (body_of m attrs) (transaction_id m) 0 (None, None) =
    Some (foldl note_mapped (None, None) attrs).
Proof.
  intros Ha Ht Hl.
  pose proof (scan_attrs_raws (transaction_id m) (raw_of (transaction_id m) <$> attrs) [] (None, None)
    (S (length (body_of m attrs)))) as Hd.
  etransitivity; [apply Hd|].
  - apply raws_ok_of_length; [|done]. apply Forall_fmap. eapply Forall_impl; [exact Ha|]. intros a. apply raw_of_u16.
  - apply Nat.lt_succ_r, length_raws_bytes.
  - f_equal. clear Hd Hl. generalize (None : option SocketAddr, None : option SocketAddr).
    induction Ha as [|a attrs Ha _ IH]; intros f; [done|]. rewrite fmap_cons. cbn [foldl]. by rewrite note_attr_raw, IH.
Qed.

Section responses.
Context `{TC : TurnCrypto, TL : !TurnCryptoLaws}.

Lemma mapped_address_sealed m key fp : mapped_address (sealed m key fp) = mapped_address (attributes m).
Proof. unfold sealed, mapped_address. rewrite !foldl_app. by destruct key, fp. Qed.

(** A binding response is understood: whatever attributes, MAC and checksum a
    server puts into it, the client recognises it and reads the address it
    reports, the XOR form before the plain one. *)
Lemma binding_response_parsed m key fp rest :
  message_ok m key fp → method m = METHOD_BINDING → class m = Class.Success →
  looks_like_binding_response (Message.encode m key fp ++ rest) = true ∧
  parse_binding_response (Message.encode m key fp ++ rest) (transaction_id m) =
    Some (ok_or (mapped_address (attributes m)) "no mapped address in response"%string).
Proof using TL.
  intros (Hm & Ht & Ha & Hl) Hme Hcl. rewrite encode_bytes, <-app_assoc by done.
  set (body := body_of m (sealed m key fp)) in *.
  destruct (message_header_fields m (length body) (body ++ rest) Hm Ht Hl) as (H0 & H2 & H4 & H8 & Hlen).
  rewrite Hme, Hcl in H0. change (message_type _ _) with STUN_BINDING_RESPONSE in H0.
  unfold looks_like_binding_response, parse_binding_response. rewrite H0, H2, H4, H8, Hlen, length_app.
  change STUN_HEADER_LEN with HEADER_LEN. change STUN_MAGIC with MAGIC_COOKIE.
  rewrite !(bool_decide_eq_true_2 (_ = _)) by done. rewrite bool_decide_eq_true_2 by lia. split; [done|].
  rewrite (bool_decide_eq_false_2 (_ < HEADER_LEN)) by lia. rewrite !bool_decide_eq_false_2 by naive_solver.
  replace (min (length body) (HEADER_LEN + (length body + length rest) - HEADER_LEN)) with (length body) by lia.
  rewrite slice_between by (done || by apply length_message_header). unfold body.
  rewrite scan_attrs_body by (done || by apply sealed_ok). rewrite <-(mapped_address_sealed m key fp). done.
Qed.

(** A whole datagram: not one of several the socket delivered in one buffer. *)
Definition whole (meta : RecvMeta) : Prop := m_stride meta = 0 ∨ m_len meta ≤ m_stride meta.

Lemma tap_one_spec buf meta :
  whole meta →
  tap_one buf meta =
    if looks_like_binding_response (take (m_len meta) buf)
    then (Some (take (m_len meta) buf), mkMeta (m_addr meta) 0 (m_stride meta)) else (None, meta).
Proof.
  intros Hw. unfold tap_one. destruct (decide (m_len meta = 0)) as [H0|H0].
  - rewrite bool_decide_eq_true_2 by done. rewrite H0. done.
  - rewrite bool_decide_eq_false_2 by done.
    destruct Hw as [Hs|Hs]; [rewrite (bool_decide_eq_false_2 (m_stride meta ≠ 0)) by naive_solver|
      rewrite (bool_decide_eq_false_2 (m_stride meta < _)) by lia]; by rewrite ?andb_false_r.
Qed.

(** A QUIC packet has the fixed bit of its first byte set; a binding response
    does not, so no QUIC packet is mistaken for one. *)
Lemma quic_not_response buf : Z.land (byte_val (at_byte buf 0)) 0x40 ≠ 0%Z → looks_like_binding_response buf = false.
Proof.
  intros Hq. unfold looks_like_binding_response. destruct (decide (u16_at 0 buf = STUN_BINDING_RESPONSE)) as [Hu|Hu].
  2:{ rewrite (bool_decide_eq_false_2 (u16_at 0 buf = _)) by done. by rewrite andb_false_r. }
  case_bool_decide as Hl; [|done]. exfalso. apply Hq. unfold STUN_HEADER_LEN in Hl.
  destruct buf as [|a [|b buf]]; [simpl in Hl; lia..|]. unfold u16_at, slice in Hu. cbn [drop take Nat.add Nat.sub] in Hu; rewrite take_0 in Hu.
  pose proof (to_from_be_bytes [a; b]) as He. rewrite Hu in He. vm_compute in He. injection He as <- <-. done.
Qed.

Lemma await_first server txn payloads reply addr rest :
  reply ∈ payloads → parse_binding_response reply txn = Some (Ok addr) →
  (∀ p, p ∈ payloads → slice 8 20 p = txn → p = reply) →
  await_response server txn ((Payload <$> payloads) ++ rest) = Some (Ok addr).
Proof.
  intros Hin Hp Huniq. induction payloads as [|p payloads IH]; [by apply elem_of_nil in Hin|]. cbn [fmap list_fmap app await_response].
  destruct (decide (p = reply)) as [->|Hne]; [by rewrite Hp|].
  apply elem_of_cons in Hin as [->|Hin]; [done|].
  destruct (parse_binding_response_total p txn) as [r Hr]. rewrite Hr. destruct r as [a|e]; simpl.
  - exfalso. apply Hne. apply Huniq; [apply elem_of_cons; by left|]. unfold parse_binding_response in Hr.
    do 2 (case_bool_decide; [done|]). case_bool_decide as Ht; [done|exact Ht].
  - apply IH; [done|]. intros q Hq. apply Huniq. apply elem_of_cons. by right.
Qed.

(** The tap takes exactly the binding responses out of what the socket
    received: QUIC sees every other datagram unchanged and in its place. The
    response to the pending request is found among them, whatever else was
    received, and yields the address the server reported. *)
Theorem tap_recovers_address dgrams reply key fp server addr evs :
  message_ok reply key fp → method reply = METHOD_BINDING → class reply = Class.Success →
  mapped_address (attributes reply) = Some addr → Forall (λ d, whole d.2) dgrams →
  let bytes := Message.encode reply key fp in
  let seen := (λ d, take (m_len d.2) d.1) <$> dgrams in
  bytes ∈ seen → (∀ p, p ∈ seen → slice 8 20 p = transaction_id reply → p = bytes) →
  let (responses, meta) := poll_recv (Ready (Ok (length dgrams))) dgrams.*1 dgrams.*2 in
  responses = filter (λ p, looks_like_binding_response p = true) seen ∧
  (∀ i d meta', dgrams !! i = Some d → meta !! i = Some meta' →
     if looks_like_binding_response (take (m_len d.2) d.1) then m_len meta' = 0 else meta' = d.2) ∧
  (∀ i d, dgrams !! i = Some d → Z.land (byte_val (at_byte (take (m_len d.2) d.1) 0)) 0x40 ≠ 0%Z → meta !! i = Some d.2) ∧
  await_response server (transaction_id reply) ((Payload <$> responses) ++ evs) = Some (Ok addr).
Proof using TL.
  intros Hok Hme Hcl Hma Hw bytes seen Hin Huniq. cbn [poll_recv].
  rewrite !take_ge by (by rewrite length_fmap). rewrite drop_ge, app_nil_r by (by rewrite length_fmap).
  set (one := λ d : list byte * RecvMeta, tap_one d.1 d.2).
  assert (zip_with tap_one dgrams.*1 dgrams.*2 = one <$> dgrams) as ->.
  { clear. induction dgrams as [|[b m] l IH]; [done|]. cbn. by rewrite IH. }
  assert (omap fst (one <$> dgrams) = filter (λ p, looks_like_binding_response p = true) seen) as Hresp.
  { unfold seen. clear Hin Huniq. induction Hw as [|d l Hd _ IH]; [done|]. cbn [fmap list_fmap omap list_omap].
    unfold one at 1. rewrite tap_one_spec by done. rewrite filter_cons.
    destruct (looks_like_binding_response _) eqn:E; cbn [fst]; [rewrite decide_True by done; by f_equal|by rewrite decide_False]. }
  rewrite Hresp. split_and!; [done| | |].
  - intros i d meta' Hd. rewrite <-list_fmap_compose, list_lookup_fmap, Hd. cbn [fmap option_fmap option_map]. intros [= <-].
    unfold one. simpl. rewrite tap_one_spec by (by eapply Forall_lookup_1 in Hw). by destruct (looks_like_binding_response _).
  - intros i d Hd Hq. rewrite <-list_fmap_compose, list_lookup_fmap, Hd. cbn [fmap option_fmap option_map]. f_equal.
    unfold one. simpl. rewrite tap_one_spec by (by eapply Forall_lookup_1 in Hw). by rewrite quic_not_response.
  - destruct (binding_response_parsed reply key fp [] Hok Hme Hcl) as [Hl Hp]. rewrite app_nil_r in Hl, Hp. rewrite Hma in Hp.
    apply (await_first _ _ _ bytes); [by apply list_elem_of_filter|done|].
    intros p [_ Hpin]%list_elem_of_filter. by apply Huniq.
Qed.
End responses.

(** ** Examples *)

Definition ex_binding : Message :=
  mkMessage METHOD_BINDING Class.Success ex_txn [Attribute.MappedAddress ex_addr; Attribute.XorMappedAddress ex_addr].

Definition ex_batch : list (list byte * RecvMeta) :=
  let reply := Message.encode ex_binding None true in
  [(x40 :: replicate 30 x01, mkMeta ex_addr 31 31); (reply ++ [x00], mkMeta ex_addr (length reply) 0)].

Lemma tap_recovers_address_witness :
  let (responses, meta) := poll_recv (Ready (Ok 2)) ex_batch.*1 ex_batch.*2 in
  responses = [Message.encode ex_binding None true] ∧ (m_len <$> meta) = [31; 0] ∧
  await_response unspecified_server ex_txn (Payload <$> responses) = Some (Ok ex_addr).
Proof.
  pose proof (tap_recovers_address ex_batch ex_binding None true unspecified_server ex_addr []) as H.
  destruct (poll_recv (Ready (Ok (length ex_batch))) ex_batch.*1 ex_batch.*2) as [responses meta] eqn:E.
  destruct H as (H1 & _ & _ & H4).
  - split; [by vm_compute|]. split; [done|]. split; [|by vm_compute].
    unfold ex_binding. cbn [attributes]. rewrite !Forall_cons, Forall_nil. split_and!; by vm_compute.
  - reflexivity.
  - reflexivity.
  - reflexivity.
  - constructor; [right; vm_compute; lia|]. constructor; [left; reflexivity|constructor].
  - vm_compute. right. left.
  - intros p Hp. unfold ex_batch in Hp. cbn [fmap list_fmap fst snd m_len] in Hp. rewrite !elem_of_cons in Hp. destruct Hp as [->|[->|Hp]]; [by vm_compute|by vm_compute|by apply elem_of_nil in Hp].
  - change (length ex_batch) with 2 in E. rewrite E. rewrite app_nil_r in H4. split_and!; [|
      by injection E as <- <-|exact H4]. rewrite H1. vm_compute. reflexivity.
Defined.

