(* ===== verification/TurnClient.v ===== *)
(** * The TURN client

    [crates/mqp2p/src/turn_client.rs]: an allocation on a relay server, the
    demultiplexer behind its socket, and the relay socket handed to QUIC. The
    demultiplexer runs beside the requests; what it receives while a request
    waits is the script of the run: one entry per attempt, with the outcome of
    the send and the datagrams that arrive before the attempt's timer. An
    empty script is a silent network. Fresh transaction ids are the values of
    [new_transaction_id]. A oneshot sender is dropped unused only when a
    second request replaces it, which the request lock excludes, so the
    "transaction cancelled" branch has no counterpart. *)
From stdpp Require Import pretty.
From S2P Require Import Prelude SyncState Membership Net Turn Stun.

Definition INBOUND_CAPACITY : nat := 1024.
Definition INITIAL_RTO : Z := 500.
Definition MAX_RTO : Z := 2000.
Definition MAX_ATTEMPTS : nat := 7.
Definition STALE_NONCE : Z := 438.
Definition CHANNEL_REFRESH : Z := 240.

Record TurnConfig := mkConfig {
  cfg_server : SocketAddr;
  cfg_username : string;
  cfg_password : string;
  cfg_lifetime_secs : Z;
}.

Record Pending := mkPending { p_txn : list byte; p_expect_integrity : bool }.

(** The shared state, with the inbound queue of the relay and the datagrams
    sent on the socket so far. *)
Record TurnInner := mkInner {
  ti_username : string;
  ti_realm : string;
  ti_nonce : string;
  ti_key : list byte;
  ti_pending : option Pending;
  ti_bound : option (SocketAddr * Z);
  ti_inbound : list (list byte);
  ti_sent : list (list byte);
}.

Definition set_pending (p : option Pending) (s : TurnInner) : TurnInner :=
  mkInner (ti_username s) (ti_realm s) (ti_nonce s) (ti_key s) p (ti_bound s) (ti_inbound s) (ti_sent s).
Definition set_inbound (q : list (list byte)) (s : TurnInner) : TurnInner :=
  mkInner (ti_username s) (ti_realm s) (ti_nonce s) (ti_key s) (ti_pending s) (ti_bound s) q (ti_sent s).
Definition set_nonce (n : string) (s : TurnInner) : TurnInner :=
  mkInner (ti_username s) (ti_realm s) n (ti_key s) (ti_pending s) (ti_bound s) (ti_inbound s) (ti_sent s).
Definition set_credentials (r n : string) (k : list byte) (s : TurnInner) : TurnInner :=
  mkInner (ti_username s) r n k (ti_pending s) (ti_bound s) (ti_inbound s) (ti_sent s).
Definition set_bound (b : option (SocketAddr * Z)) (s : TurnInner) : TurnInner :=
  mkInner (ti_username s) (ti_realm s) (ti_nonce s) (ti_key s) (ti_pending s) b (ti_inbound s) (ti_sent s).
Definition push_sent (d : list byte) (s : TurnInner) : TurnInner :=
  mkInner (ti_username s) (ti_realm s) (ti_nonce s) (ti_key s) (ti_pending s) (ti_bound s) (ti_inbound s) (ti_sent s ++ [d]).

Definition hex12 (m : Z) : string := "0x" +:+ String.string_of_list_byte (drop 1 (hex_bytes (to_be_bytes 2 m))).

Section client.
Context `{TC : TurnCrypto} (new_transaction_id : nat → list byte).

Definition long_term_key (username realm password : string) : list byte :=
  md5 (as_bytes username ++ as_bytes ":" ++ as_bytes realm ++ as_bytes ":" ++ as_bytes password).

(** ** The demultiplexer *)

(** One round of [run_demux] on a received datagram, and the message it hands
    to the waiting request. *)
Definition demux_step (s : TurnInner) (datagram : list byte) : TurnInner * option Message :=
  if is_channel_data datagram then
    match ChannelData.decode datagram with
    | Ok frame =>
      if bool_decide (length (ti_inbound s) < INBOUND_CAPACITY)
      then (set_inbound (ti_inbound s ++ [data frame]) s, None) else (s, None)
    | Err _ => (s, None)
    end
  else
    match Message.decode datagram with
    | Some (Ok msg) =>
      let matches := match ti_pending s with Some p => bool_decide (p_txn p = transaction_id msg) | None => false end in
      let expects := match ti_pending s with Some p => p_expect_integrity p | None => false end in
      let needs_integrity := matches && expects && bool_decide (class msg = Class.Success) in
      if needs_integrity && negb (default false (verify_integrity datagram (ti_key s))) then (s, None) else
      if matches then (set_pending None s, Some msg) else (s, None)
    | _ => (s, None)
    end.

(** The datagrams that arrive during a wait, and the first message handed to
    the request. *)
Fixpoint demux_all (s : TurnInner) (datagrams : list (list byte)) : TurnInner * option Message :=
  match datagrams with
  | [] => (s, None)
  | d :: datagrams =>
    let (s, got) := demux_step s d in
    let (s, later) := demux_all s datagrams in
    (s, match got with Some m => Some m | None => later end)
  end.

(** ** Requests *)

Record Attempt := mkAttempt { at_send : result () IoError; at_received : list (list byte) }.

(** A run: the shared state, the script still to be played and the number of
    transaction ids drawn. *)
Record Run := mkRun { run_inner : TurnInner; run_script : list Attempt; run_ids : nat }.

Definition with_inner (f : TurnInner → TurnInner) (r : Run) : Run := mkRun (f (run_inner r)) (run_script r) (run_ids r).

Definition silent : Attempt := mkAttempt (Ok ()) [].

Definition next_rto (rto : Z) : Z := Z.min (rto * 2) MAX_RTO.

(** The attempts of [transact]: send, then wait for [rto]; the waits only
    bound the script's entries in time. *)
Fixpoint attempts (n : nat) (bytes : list byte) (r : Run) : Run * result Message Error :=
  match n with
  | O => (with_inner (set_pending None) r, Err (Net.Turn "request timed out"))
  | S n =>
    let a := default silent (head (run_script r)) in
    let r := mkRun (run_inner r) (tail (run_script r)) (run_ids r) in
    match at_send a with
    | Err _ => (r, Err (Net.Turn "send failed"))
    | Ok _ =>
      let (inner, got) := demux_all (push_sent bytes (run_inner r)) (at_received a) in
      let r := mkRun inner (run_script r) (run_ids r) in
      match got with
      | Some msg => (r, Ok msg)
      | None => attempts n bytes r
      end
    end
  end.

Definition transact (bytes txn : list byte) (expect_integrity : bool) : action Run Error Message :=
  λ r, attempts MAX_ATTEMPTS bytes (with_inner (set_pending (Some (mkPending txn expect_integrity))) r).

Definition draw_txn : action Run Error (list byte) :=
  λ r, (mkRun (run_inner r) (run_script r) (S (run_ids r)), Ok (new_transaction_id (run_ids r))).

Definition authed_request (s : TurnInner) (method : Z) (txn : list byte) (extra : list Attribute.Attribute) : Message :=
  foldl Message.push (Message.new method Class.Request txn)
    (extra ++ [Attribute.Username (ti_username s); Attribute.Realm (ti_realm s); Attribute.Nonce (ti_nonce s)]).

(** [for attempt in 0..2]: [tries] attempts remain. *)
Fixpoint request_loop (tries : nat) (first : bool) (method : Z) (extra : list Attribute.Attribute) : action Run Error Message :=
  match tries with
  | O => athrow (Net.Turn "stale-nonce retry exhausted")
  | S tries =>
    let! txn := draw_txn in
    let! inner := aget run_inner in
    let bytes := Message.encode (authed_request inner method txn extra) (Some (ti_key inner)) false in
    let! resp := transact bytes txn true in
    match class resp with
    | Class.Success => aret resp
    | Class.Error =>
      let code := default 0%Z (Message.error_code resp) in
      if bool_decide (code = STALE_NONCE) && first then
        (match Message.nonce resp with
         | Some nonce => amodify (with_inner (set_nonce nonce))
         | None => aret ()
         end) ;;
        request_loop tries false method extra
      else athrow (Net.Turn (hex12 method +:+ " rejected with code " +:+ pretty code))
    | _ => athrow (Net.Turn (hex12 method +:+ " unexpected response class"))
    end
  end.

Definition request_authed (method : Z) (extra : list Attribute.Attribute) : action Run Error Message :=
  request_loop 2 true method extra.

(** ** Allocations *)

Definition parse_allocation (resp : Message) (requested : Z) : result (SocketAddr * Z) Error :=
  if bool_decide (class resp ≠ Class.Success) then
    Err (Net.Turn ("allocate rejected: " +:+
      match Message.error_code resp with Some c => "Some(" +:+ pretty c +:+ ")" | None => "None" end))
  else
  let? relayed := ok_or (Message.xor_relayed_address resp) (Net.Turn "allocate success missing relayed address") in
  let lifetime := default requested (Message.lifetime resp) in
  Ok (relayed, lifetime).

Definition allocate (config : TurnConfig) : action Run Error (SocketAddr * Z) :=
  let! txn := draw_txn in
  let initial := Message.push (Message.new METHOD_ALLOCATE Class.Request txn) (Attribute.RequestedTransport TRANSPORT_UDP) in
  let! resp := transact (Message.encode initial None false) txn false in
  if bool_decide (class resp ≠ Class.Success) then
    let! realm := alift (ok_or (Message.realm resp) (Net.Turn "allocate challenge missing realm")) in
    let! nonce := alift (ok_or (Message.nonce resp) (Net.Turn "allocate challenge missing nonce")) in
    let key := long_term_key (cfg_username config) realm (cfg_password config) in
    amodify (with_inner (set_credentials realm nonce key)) ;;
    let! authed := request_authed METHOD_ALLOCATE
      [Attribute.RequestedTransport TRANSPORT_UDP; Attribute.Lifetime (cfg_lifetime_secs config)] in
    alift (parse_allocation authed (cfg_lifetime_secs config))
  else alift (parse_allocation resp (cfg_lifetime_secs config)).

(** A client: the run with what the client keeps, whether the inbound queue is
    still there to be taken, and the lifetime its maintenance works with. *)
Record TurnClient := mkClient {
  tc_relayed_addr : SocketAddr;
  tc_channel : Z;
  tc_untaken : bool;
  tc_lifetime : Z;
}.

Definition fresh_inner (config : TurnConfig) : TurnInner :=
  mkInner (cfg_username config) "" "" (replicate 16 x00) None None [] [].

(** [bound] and [connected] are the outcomes of binding the socket and
    connecting it to the server. *)
Definition connect (config : TurnConfig) (bound connected : result () IoError) (script : list Attempt)
    : Run * result TurnClient Error :=
  let r := mkRun (fresh_inner config) script 0 in
  match bound, connected with
  | Err _, _ => (r, Err (Net.Turn "bind failed"))
  | Ok _, Err _ => (r, Err (Net.Turn "connect failed"))
  | Ok _, Ok _ =>
    match allocate config r with
    | (r, Err e) => (r, Err e)
    | (r, Ok (relayed_addr, lifetime)) => (r, Ok (mkClient relayed_addr CHANNEL_MIN true lifetime))
    end
  end.

Definition bind_request (channel : Z) (peer : SocketAddr) : action Run Error Message :=
  request_authed METHOD_CHANNEL_BIND [Attribute.ChannelNumber channel; Attribute.XorPeerAddress peer].

Definition bind_channel (c : TurnClient) (peer : SocketAddr) : action Run Error () :=
  let! _ := bind_request (tc_channel c) peer in
  amodify (with_inner (set_bound (Some (peer, tc_channel c)))).

Record TurnRelaySocket := mkRelay { rs_channel : Z; rs_peer : SocketAddr; rs_local : SocketAddr }.

(** The queue and the tasks are taken together, once. *)
Definition relay_socket (c : TurnClient) (peer : SocketAddr) : action Run Error (TurnClient * TurnRelaySocket) :=
  bind_channel c peer ;;
  if tc_untaken c
  then aret (mkClient (tc_relayed_addr c) (tc_channel c) false (tc_lifetime c),
             mkRelay (tc_channel c) peer (tc_relayed_addr c))
  else athrow (Net.Turn "relay socket already taken").

(** ** Maintenance *)

(** How long a round of [run_maintenance] sleeps, in seconds. *)
Definition sleep_secs (lifetime : Z) : Z := Z.min (Z.max (lifetime / 2) 60) CHANNEL_REFRESH.

(** The rest of the round: refresh the allocation, then rebind the channel;
    failures are logged. *)
Definition maintain (lifetime : Z) : action Run Error Z :=
  try! refreshed := request_authed METHOD_REFRESH [Attribute.Lifetime lifetime] in
  let lifetime := match refreshed with Ok resp => default lifetime (Message.lifetime resp) | Err _ => lifetime end in
  let! bound := aget (λ r, ti_bound (run_inner r)) in
  (match bound with
   | Some (peer, channel) => try! _ := bind_request channel peer in aret ()
   | None => aret ()
   end) ;;
  aret lifetime.

(** ** The relay socket *)

Definition try_send (s : TurnRelaySocket) (destination : SocketAddr) (contents : list byte)
    (socket_send : list byte → result () IoError) : option (list byte) * result () IoError :=
  if bool_decide (destination ≠ rs_peer s) then (None, Ok ()) else
  let frame := ChannelData.encode (mkChannelData (rs_channel s) contents) in
  (Some frame, socket_send frame).

(** [poll_recv] with receive buffers of the given sizes: the datagrams it
    fills in, with their meta data, and what stays queued. [closed] says that
    the demultiplexer is gone. *)
Fixpoint fill_bufs (s : TurnRelaySocket) (inbound : list (list byte)) (bufs : list nat)
    : list (list byte * RecvMeta) * list (list byte) :=
  match bufs, inbound with
  | size :: bufs, d :: inbound =>
    let len := min (length d) size in
    let (filled, queued) := fill_bufs s inbound bufs in
    ((take len d, mkMeta (rs_peer s) len len) :: filled, queued)
  | _, _ => ([], inbound)
  end.

Definition poll_recv (s : TurnRelaySocket) (inbound : list (list byte)) (closed : bool) (bufs : list nat)
    : Poll * list (list byte * RecvMeta) * list (list byte) :=
  let (filled, queued) := fill_bufs s inbound bufs in
  let count := length filled in
  if bool_decide (count = 0)
  then ((if closed && bool_decide (0 < length bufs) then Ready (Err IoOther) else Stun.Pending), [], queued)
  else (Ready (Ok count), filled, queued).
End client.

(** ** What reaches a request *)

(** States that differ in the pending request, the inbound queue and the
    datagrams sent only. *)
Definition same_session (s t : TurnInner) : Prop :=
  ti_username s = ti_username t ∧ ti_realm s = ti_realm t ∧ ti_nonce s = ti_nonce t ∧ ti_key s = ti_key t ∧ ti_bound s = ti_bound t.

#[global] Instance same_session_equiv : Equivalence same_session.
Proof. unfold same_session. split; [by intros ?|by intros ? ? (? & ? & ? & ? & ?)|intros ? ? ? (? & ? & ? & ? & ?) (? & ? & ? & ? & ?)]; split_and!; congruence. Qed.

Section laws.
Context `{TC : TurnCrypto}.

(** [d] answers the request [p]: it decodes to [m], carries the transaction
    id, and, where a MAC is due, a valid one. *)
Definition answers (key : list byte) (p : Pending) (d : list byte) (m : Message) : Prop :=
  is_channel_data d = false ∧ Message.decode d = Some (Ok m) ∧ transaction_id m = p_txn p ∧
  (p_expect_integrity p = true → class m = Class.Success → verify_integrity d key = Some true).

Lemma demux_step_got s d s' m :
  demux_step s d = (s', Some m) → ∃ p, ti_pending s = Some p ∧ answers (ti_key s) p d m ∧ s' = set_pending None s.
Proof.
  unfold demux_step, answers. destruct (is_channel_data d).
  { destruct (ChannelData.decode d); [case_bool_decide|]; naive_solver. }
  destruct (Message.decode d) as [[msg|e]|]; [|naive_solver..].
  destruct (ti_pending s) as [p|]; [|naive_solver]. case_bool_decide as Ht; [|naive_solver].
  destruct (p_expect_integrity p) eqn:Ep; simpl; [case_bool_decide as Hc|]; simpl.
  - destruct (verify_integrity d (ti_key s)) as [[]|] eqn:Ev; naive_solver.
  - intros [= <- <-]. exists p. split; [done|]. split; [|done]. split_and!; [done|done|done|congruence].
  - intros [= <- <-]. exists p. split; [done|]. split; [|done]. split_and!; [done|done|done|congruence].
Qed.

Lemma demux_step_none s d s' :
  demux_step s d = (s', None) → ∃ q, s' = set_inbound q s ∧ (q = ti_inbound s ∨ ∃ f, ChannelData.decode d = Ok f ∧ q = ti_inbound s ++ [data f]).
Proof.
  assert (s = set_inbound (ti_inbound s) s) as Hs by (by destruct s).
  unfold demux_step. destruct (is_channel_data d).
  { destruct (ChannelData.decode d); [case_bool_decide|]; intros [= <-]; eexists; eauto. }
  destruct (Message.decode d) as [[msg|e]|]; [|intros [= <-]; eauto..].
  destruct (_ && negb _); [intros [= <-]; eauto|]. destruct (match ti_pending s with Some _ => _ | None => _ end); [done|].
  intros [= <-]; eauto.
Qed.

Lemma set_inbound_twice q q' s : set_inbound q (set_inbound q' s) = set_inbound q s.
Proof. done. Qed.

Lemma demux_all_none s ds s' : demux_all s ds = (s', None) → ∃ q, s' = set_inbound q s.
Proof.
  revert s. induction ds as [|d ds IH]; intros s; simpl; [intros [= <-]; exists (ti_inbound s); by destruct s|].
  destruct (demux_step s d) as [s1 [m|]] eqn:E1; destruct (demux_all s1 ds) as [s2 later] eqn:E2; [done|].
  intros [= -> ->]. apply demux_step_none in E1 as (q & -> & _). destruct (IH _ E2) as [q' ->]. by eexists.
Qed.

(** Nothing is handed out when no request is pending. *)
Lemma demux_all_idle s ds : ti_pending s = None → (demux_all s ds).2 = None.
Proof.
  revert s. induction ds as [|d ds IH]; intros s Hn; simpl; [done|].
  destruct (demux_step s d) as [s1 [m|]] eqn:E1.
  - apply demux_step_got in E1 as (? & ? & _). congruence.
  - apply demux_step_none in E1 as (q & -> & _). specialize (IH (set_inbound q s) Hn). by destruct (demux_all _ ds).
Qed.

(** The demultiplexer completes a request with the first answer, and changes
    nothing else but the inbound queue. *)
Lemma demux_all_got s ds s' m :
  demux_all s ds = (s', Some m) →
  (∃ q, s' = set_inbound q (set_pending None s)) ∧ ∃ p d, d ∈ ds ∧ ti_pending s = Some p ∧ answers (ti_key s) p d m.
Proof.
  revert s. induction ds as [|d ds IH]; intros s; simpl; [done|].
  destruct (demux_step s d) as [s1 [m'|]] eqn:E1; destruct (demux_all s1 ds) as [s2 later] eqn:E2.
  - intros [= -> ->]. apply demux_step_got in E1 as (p & Hp & Ha & ->).
    pose proof (demux_all_idle (set_pending None s) ds eq_refl) as Hi. rewrite E2 in Hi. simpl in Hi. subst later.
    split; [by eapply demux_all_none|]. exists p, d. split; [apply elem_of_cons; by left|done].
  - intros [= -> ->]. apply demux_step_none in E1 as (q & -> & _). destruct (IH _ E2) as ((q' & ->) & p & d' & Hin & Hp & Ha).
    split; [by eexists|]. exists p, d'. split; [apply elem_of_cons; by right|done].
Qed.

(** ** Requests *)

Lemma attempts_got n bytes r r' m :
  attempts n bytes r = (r', Ok m) →
  run_ids r' = run_ids r ∧ same_session (run_inner r) (run_inner r') ∧ run_script r' ⊆ run_script r ∧
  ∃ p a d, a ∈ run_script r ∧ d ∈ at_received a ∧ ti_pending (run_inner r) = Some p ∧ answers (ti_key (run_inner r)) p d m.
Proof.
  assert (∀ l : list Attempt, tail l ⊆ l) as Htail by (intros [|? ?]; set_solver).
  revert r. induction n as [|n IH]; intros r; simpl; [done|].
  destruct (at_send _); [|done]. destruct (demux_all _ _) as [s1 [m'|]] eqn:E1; cbn [run_inner run_script run_ids].
  - intros [= <- ->]. apply demux_all_got in E1 as ((q & ->) & p & d & Hd & Hp & Ha). split_and!; [done..|apply Htail|].
    destruct (run_script r) as [|a script]; [by apply elem_of_nil in Hd|]. exists p, a, d. split_and!; [apply elem_of_cons; by left|done..].
  - apply demux_all_none in E1 as [q ->]. intros H. apply IH in H as (Hi & Hs & Hsub & p & a & d & Hin & Hd & Hp & Ha).
    split_and!; [done..|set_solver|]. exists p, a, d. split; [set_solver|done].
Qed.

Lemma transact_got bytes txn expect r r' m :
  transact bytes txn expect r = (r', Ok m) →
  run_ids r' = run_ids r ∧ same_session (run_inner r) (run_inner r') ∧ run_script r' ⊆ run_script r ∧
  ∃ a d, a ∈ run_script r ∧ d ∈ at_received a ∧ answers (ti_key (run_inner r)) (mkPending txn expect) d m.
Proof.
  unfold transact. generalize MAX_ATTEMPTS. intros n H. apply attempts_got in H as (Hi & Hs & Hsub & p & a & d & Hin & Hd & Hp & Ha).
  split; [exact Hi|]. split; [exact Hs|]. split; [exact Hsub|]. injection Hp as <-. exists a, d. split; [exact Hin|]. split; [exact Hd|exact Ha].
Qed.

(** When nothing answers, the request is sent seven times and given up, and no
    late answer can be taken for it. *)
Lemma attempts_silent n bytes r :
  run_script r = [] →
  attempts n bytes r = (with_inner (λ s, set_pending None (Nat.iter n (push_sent bytes) s)) r, Err (Net.Turn "request timed out")).
Proof.
  revert r. induction n as [|n IH]; intros r Hr; simpl; [done|]. rewrite Hr. simpl. rewrite IH by done.
  unfold with_inner. simpl. by rewrite Hr, Nat.iter_swap.
Qed.

(** ** Answered requests *)

(** A datagram that is none of the request's business. *)
Definition quiet (txn d : list byte) : Prop :=
  is_channel_data d = true ∨ ∀ m, Message.decode d = Some (Ok m) → transaction_id m ≠ txn.

(** The answer arrives within the seven attempts, after any number of lost
    attempts and among any other traffic; [rest] is the script behind it. *)
Definition reply_arrives (txn reply : list byte) (script rest : list Attempt) : Prop :=
  ∃ lost noise late, script = lost ++ mkAttempt (Ok ()) (noise ++ reply :: late) :: rest ∧ length lost < MAX_ATTEMPTS ∧
    Forall (λ a, at_send a = Ok () ∧ Forall (quiet txn) (at_received a)) lost ∧ Forall (quiet txn) noise.

Lemma demux_step_quiet s d p :
  ti_pending s = Some p → quiet (p_txn p) d → ∃ q, demux_step s d = (set_inbound q s, None).
Proof.
  intros Hp Hq. destruct (demux_step s d) as [s' [m|]] eqn:E.
  - apply demux_step_got in E as (p' & Hp' & (Hc & Hd & Ht & _) & _). simplify_eq. destruct Hq as [Hq|Hq]; [congruence|].
    by destruct (Hq m Hd).
  - apply demux_step_none in E as (q & -> & _). by eexists.
Qed.

Lemma demux_all_quiet s ds p :
  ti_pending s = Some p → Forall (quiet (p_txn p)) ds → ∃ q, demux_all s ds = (set_inbound q s, None).
Proof.
  intros Hp Hds. revert s Hp. induction Hds as [|d ds Hd _ IH]; intros s Hp; simpl; [exists (ti_inbound s); by destruct s|].
  destruct (demux_step_quiet s d p Hp Hd) as [q ->]. destruct (IH (set_inbound q s) Hp) as [q' ->]. by eexists.
Qed.

Lemma demux_step_answer s d p m :
  ti_pending s = Some p → answers (ti_key s) p d m → demux_step s d = (set_pending None s, Some m).
Proof.
  intros Hp (Hc & Hd & Ht & Hv). unfold demux_step. rewrite Hc, Hd, Hp. rewrite bool_decide_eq_true_2 by done.
  destruct (p_expect_integrity p) eqn:Ep; [|done]. case_bool_decide as Hs; [|done]. simpl.
  by rewrite Hv.
Qed.

Lemma demux_all_answered s noise reply late p m :
  ti_pending s = Some p → Forall (quiet (p_txn p)) noise → answers (ti_key s) p reply m →
  ∃ q, demux_all s (noise ++ reply :: late) = (set_inbound q (set_pending None s), Some m).
Proof.
  intros Hp Hn Ha. revert s Hp Ha. induction Hn as [|d noise Hd _ IH]; intros s Hp Ha; simpl.
  - rewrite (demux_step_answer s reply p m) by done.
    destruct (demux_all (set_pending None s) late) as [s' got] eqn:E.
    pose proof (demux_all_idle (set_pending None s) late eq_refl) as Hi. rewrite E in Hi. simpl in Hi. subst got.
    apply demux_all_none in E as [q ->]. by eexists.
  - destruct (demux_step_quiet s d p Hp Hd) as [q ->]. destruct (IH (set_inbound q s) Hp Ha) as [q' ->]. by eexists.
Qed.

(** A request whose answer arrives gets it; the session is unchanged and the
    rest of the script is left to the requests that follow. *)
Lemma attempts_answered n bytes r p lost noise reply late rest m :
  ti_pending (run_inner r) = Some p → run_script r = lost ++ mkAttempt (Ok ()) (noise ++ reply :: late) :: rest →
  length lost < n → Forall (λ a, at_send a = Ok () ∧ Forall (quiet (p_txn p)) (at_received a)) lost →
  Forall (quiet (p_txn p)) noise → answers (ti_key (run_inner r)) p reply m →
  ∃ inner, attempts n bytes r = (mkRun inner rest (run_ids r), Ok m) ∧ same_session (run_inner r) inner.
Proof.
  revert r lost. induction n as [|n IH]; intros r lost Hp Hs Hn Hl Hq Ha; [lia|].
  destruct lost as [|a lost]; cbn [attempts]; rewrite Hs; cbn [app head tail from_option id run_inner run_script run_ids at_send at_received].
  - destruct (demux_all_answered (push_sent bytes (run_inner r)) noise reply late p m Hp Hq Ha) as [q ->]. by eexists.
  - apply Forall_cons in Hl as [[Hok Hqa] Hl]. rewrite Hok.
    destruct (demux_all_quiet (push_sent bytes (run_inner r)) (at_received a) p Hp Hqa) as [q ->].
    destruct (IH (mkRun (set_inbound q (push_sent bytes (run_inner r))) (lost ++ mkAttempt (Ok ()) (noise ++ reply :: late) :: rest) (run_ids r)) lost)
      as (inner & -> & Hsame); [done|done|simpl in Hn; lia|done..|]. by eexists.
Qed.

Lemma transact_answered bytes txn expect r reply rest m :
  reply_arrives txn reply (run_script r) rest → answers (ti_key (run_inner r)) (mkPending txn expect) reply m →
  ∃ inner, transact bytes txn expect r = (mkRun inner rest (run_ids r), Ok m) ∧ same_session (run_inner r) inner.
Proof.
  intros (lost & noise & late & Hs & Hn & Hl & Hq) Ha. unfold transact.
  set (r0 := with_inner _ r).
  destruct (attempts_answered MAX_ATTEMPTS bytes r0 (mkPending txn expect) lost noise reply late rest m)
    as (inner & -> & Hsame); [done..|]. by eexists.
Qed.

Section requests.
Context (new_transaction_id : nat → list byte).

Lemma request_loop_got tries first method extra r r' m :
  request_loop new_transaction_id tries first method extra r = (r', Ok m) →
  class m = Class.Success ∧ ∃ a d i, a ∈ run_script r ∧ d ∈ at_received a ∧ run_ids r ≤ i < run_ids r' ∧
    Message.decode d = Some (Ok m) ∧ transaction_id m = new_transaction_id i ∧
    verify_integrity d (ti_key (run_inner r)) = Some true.
Proof.
  revert first r. induction tries as [|tries IH]; intros first r; cbn [request_loop]; [done|].
  rewrite abind_Ok. intros (r1 & txn & [= <- <-] & H). rewrite abind_Ok in H. destruct H as (r1 & inner & [= <- <-] & H).
  rewrite abind_Ok in H. destruct H as (r2 & resp & Htx & H).
  apply transact_got in Htx as (Hi & Hs & Hsub & a & d & Hin & Hd & _ & Hdec & Htxn & Hver).
  cbn in Hi, Hsub, Hin, Htxn, Hver. destruct (class resp) eqn:Ec; [done|done| |].
  - injection H as <- <-. split; [done|]. exists a, d, (run_ids r). rewrite Hi. split_and!; [done..|lia|lia|done|done|by apply Hver].
  - destruct (_ && first); [|done]. rewrite abind_Ok in H. destruct H as (r3 & [] & Hn & H).
    assert (run_ids r3 = run_ids r2 ∧ run_script r3 = run_script r2 ∧ ti_key (run_inner r3) = ti_key (run_inner r)) as (H1 & H2 & H3).
    { destruct Hs as (_ & _ & _ & Hk & _). cbn in Hk. destruct (Message.nonce resp); injection Hn as <-; by rewrite Hk. }
    apply IH in H as (Hc & a' & d' & i & Ha' & Hd' & Hi' & Hdec' & Htxn' & Hver'). split; [done|]. exists a', d', i.
    rewrite H3 in Hver'. rewrite H2 in Ha'. apply Hsub in Ha'. split_and!; [done|done|lia|lia|done..].
Qed.

Lemma attempts_ids n bytes r : run_ids (attempts n bytes r).1 = run_ids r.
Proof.
  revert r. induction n as [|n IH]; intros r; simpl; [done|]. destruct (at_send _); [|done].
  destruct (demux_all _ _) as [s1 [m|]]; [done|]. by rewrite IH.
Qed.

Lemma transact_ids bytes txn expect r : post (transact bytes txn expect) r (λ r' _, run_ids r' = run_ids r).
Proof. unfold post, transact. by rewrite attempts_ids. Qed.

Lemma request_loop_ids tries first method extra r :
  post (request_loop new_transaction_id tries first method extra) r (λ r' _, run_ids r' ≤ run_ids r + tries).
Proof.
  revert first r. induction tries as [|tries IH]; intros first r; cbn [request_loop]; [apply post_throw; lia|].
  apply post_bind. apply (post_eq (draw_txn new_transaction_id) r (mkRun (run_inner r) (run_script r) (S (run_ids r))) (Ok (new_transaction_id (run_ids r)))); [done|].
  asteps. acall transact_ids. cbn [run_ids]. intros r2 [resp|e] Hi; [|lia].
  destruct (class resp); asteps; [lia..|]. destruct (_ && first); asteps; [|lia].
  destruct (Message.nonce resp); asteps; (eapply post_mono; [apply IH|]); simpl; intros; lia.
Qed.

(** What an allocation returns is an address that messages can carry. *)
Lemma parsed_addr_ok d resp req addr lifetime :
  Message.decode d = Some (Ok resp) → parse_allocation resp req = Ok (addr, lifetime) → addr_ok addr.
Proof.
  intros Hd. unfold parse_allocation. case_bool_decide; [done|]. rewrite rbind_Ok. intros (a & Ha & [= <- <-]).
  apply ok_or_Ok in Ha. by eapply decoded_relayed_address.
Qed.

Definition decoded (res : result Message Error) : Prop := ∀ m, res = Ok m → ∃ d, Message.decode d = Some (Ok m).

Lemma transact_decoded bytes txn expect r : post (transact bytes txn expect) r (λ _ res, decoded res).
Proof.
  unfold post. destruct (transact bytes txn expect r) as [r' res] eqn:E. cbn [fst snd]. intros m ->.
  apply transact_got in E as (_ & _ & _ & a & d & _ & _ & _ & Hd & _). by exists d.
Qed.

Lemma request_decoded method extra r : post (request_authed new_transaction_id method extra) r (λ _ res, decoded res).
Proof.
  unfold post, request_authed. generalize 2, true. intros tries first.
  destruct (request_loop _ tries first method extra r) as [r' res] eqn:E. cbn [fst snd]. intros m ->. apply request_loop_got in E as (_ & a & d & i & _ & _ & _ & Hd & _). by exists d.
Qed.

Lemma allocate_addr_ok config r :
  post (allocate new_transaction_id config) r (λ _ res, ∀ addr lifetime, res = Ok (addr, lifetime) → addr_ok addr).
Proof.
  unfold allocate. apply post_bind, (post_eq (draw_txn new_transaction_id) r _ _ _ eq_refl).
  astep. acall transact_decoded. intros r1 [resp|e] Hd; [|done]. destruct (Hd _ eq_refl) as [d Hdec]. destruct (bool_decide _).
  - asteps. destruct (ok_or (Message.realm resp) _); [|done]. asteps. destruct (ok_or (Message.nonce resp) _); [|done]. asteps.
    acall request_decoded. intros r2 [authed|e] Ha; [|done]. destruct (Ha _ eq_refl) as [d' Hdec']. astep.
    intros addr lifetime H. by eapply parsed_addr_ok.
  - astep. intros addr lifetime H. by eapply parsed_addr_ok.
Qed.

(** C36: Only genuine answers complete an authenticated request: what it returns
    was received while it ran, reports success, bears the id of one of its two
    transactions, and carries a MAC that is valid under the client's key. *)
Theorem authed_answers_genuine method extra r r' resp :
  request_authed new_transaction_id method extra r = (r', Ok resp) →
  class resp = Class.Success ∧
  ∃ a d, a ∈ run_script r ∧ d ∈ at_received a ∧ Message.decode d = Some (Ok resp) ∧
    (∃ i, run_ids r ≤ i < run_ids r + 2 ∧ transaction_id resp = new_transaction_id i) ∧
    verify_integrity d (ti_key (run_inner r)) = Some true.
Proof.
  unfold request_authed. intros H. pose proof (post_elim _ _ _ _ _ H (request_loop_ids 2 true method extra r)) as Hids. cbv beta in Hids.
  apply request_loop_got in H as (Hc & a & d & i & Ha & Hd & Hi & Hdec & Htxn & Hver).
  split; [done|]. exists a, d. split_and!; [done..| |done]. exists i. split; [lia|done].
Qed.

Lemma find_map_app {A B} (f : A → option B) l k :
  find_map f (l ++ k) = match find_map f l with Some y => Some y | None => find_map f k end.
Proof. induction l as [|x l IH]; [done|]. simpl. by destruct (f x). Qed.

(** The attributes the encoder adds hide none of the others. *)
Lemma find_map_sealed {B} (f : Attribute.Attribute → option B) m key fp :
  (∀ mac, f (Attribute.MessageIntegrity mac) = None) → (∀ crc, f (Attribute.Fingerprint crc) = None) →
  find_map f (sealed m key fp) = find_map f (attributes m).
Proof.
  intros H1 H2. unfold sealed. rewrite !find_map_app. destruct (find_map f (attributes m)); [done|].
  destruct key, fp; cbn [find_map]; unfold integrity_attr, fingerprint_attr; cbv zeta; by rewrite ?H1, ?H2.
Qed.

Lemma accessors_sealed m key fp :
  let m' := mkMessage (method m) (class m) (transaction_id m) (sealed m key fp) in
  Message.realm m' = Message.realm m ∧ Message.nonce m' = Message.nonce m ∧ Message.lifetime m' = Message.lifetime m ∧
  Message.xor_relayed_address m' = Message.xor_relayed_address m.
Proof. split_and!; by apply find_map_sealed. Qed.

(** A message encoded by a server answers the request that bears its id. *)
Lemma encoded_answers {TL : TurnCryptoLaws} key p m mkey fp :
  message_ok m mkey fp → transaction_id m = p_txn p →
  (p_expect_integrity p = true → class m = Class.Success →
   mkey = Some key ∧ Forall (λ a, ¬ is_integrity a) (attributes m)) →
  answers key p (Message.encode m mkey fp) (mkMessage (method m) (class m) (transaction_id m) (sealed m mkey fp)).
Proof.
  intros Hok Ht Hk. pose proof (message_decode_encode m mkey fp [] Hok) as Hd.
  pose proof (encode_not_channel m mkey fp [] Hok) as Hc. rewrite app_nil_r in Hd, Hc.
  split_and!; [done..|]. intros He Hs. destruct (Hk He Hs) as [-> Hni].
  pose proof (verify_encode m key key fp [] Hok Hni) as Hv. rewrite app_nil_r in Hv. rewrite Hv. by rewrite bool_decide_eq_true_2.
Qed.

(** A request that is answered with success at once. *)
Lemma authed_request_answered method extra r reply rest m :
  reply_arrives (new_transaction_id (run_ids r)) reply (run_script r) rest →
  answers (ti_key (run_inner r)) (mkPending (new_transaction_id (run_ids r)) true) reply m → class m = Class.Success →
  ∃ inner, request_authed new_transaction_id method extra r = (mkRun inner rest (S (run_ids r)), Ok m) ∧ same_session (run_inner r) inner.
Proof.
  intros Har Ha Hc. unfold request_authed. cbn [request_loop]. unfold abind at 1, draw_txn. cbn [run_ids]. unfold abind at 1, aget.
  unfold abind at 1. set (bytes := Message.encode _ _ _).
  set (r0 := mkRun (run_inner r) (run_script r) (S (run_ids r))).
  destruct (transact_answered bytes (new_transaction_id (run_ids r)) true r0 reply rest m Har Ha) as (inner & -> & Hs).
  rewrite Hc. by exists inner.
Qed.

(** An allocation is obtained from a server that challenges the first request
    with a realm and a nonce and grants the second one under the long-term
    key, however many attempts are lost on the way and whatever else arrives:
    the client ends with the relayed address, the granted lifetime and the
    credentials of the challenge. *)
Theorem allocation_completes {TL : TurnCryptoLaws} config script rest rest' challenge ckey cfp realm nonce grant fp addr :
  let key := long_term_key (cfg_username config) realm (cfg_password config) in
  message_ok challenge ckey cfp → transaction_id challenge = new_transaction_id 0 → class challenge ≠ Class.Success →
  Message.realm challenge = Some realm → Message.nonce challenge = Some nonce →
  message_ok grant (Some key) fp → transaction_id grant = new_transaction_id 1 → class grant = Class.Success →
  Forall (λ a, ¬ is_integrity a) (attributes grant) → Message.xor_relayed_address grant = Some addr →
  reply_arrives (new_transaction_id 0) (Message.encode challenge ckey cfp) script rest →
  reply_arrives (new_transaction_id 1) (Message.encode grant (Some key) fp) rest rest' →
  ∃ r, connect new_transaction_id config (Ok ()) (Ok ()) script =
      (r, Ok (mkClient addr CHANNEL_MIN true (default (cfg_lifetime_secs config) (Message.lifetime grant)))) ∧
    run_script r = rest' ∧ ti_key (run_inner r) = key ∧ ti_realm (run_inner r) = realm ∧ ti_nonce (run_inner r) = nonce.
Proof.
  intros key Hc Hct Hcc Hrealm Hnonce Hg Hgt Hgc Hni Haddr Har1 Har2. unfold connect.
  enough (∃ r, allocate new_transaction_id config (mkRun (fresh_inner config) script 0) =
    (r, Ok (addr, default (cfg_lifetime_secs config) (Message.lifetime grant))) ∧
    run_script r = rest' ∧ ti_key (run_inner r) = key ∧ ti_realm (run_inner r) = realm ∧ ti_nonce (run_inner r) = nonce) as (r & -> & H)
    by (by exists r).
  apply post_exists. unfold allocate. apply post_bind.
  apply (post_eq (draw_txn new_transaction_id) _ (mkRun (fresh_inner config) script 1) (Ok (new_transaction_id 0))); [done|].
  apply post_bind. set (bytes := Message.encode _ None false).
  destruct (transact_answered bytes (new_transaction_id 0) false (mkRun (fresh_inner config) script 1) _ rest
    (mkMessage (method challenge) (class challenge) (transaction_id challenge) (sealed challenge ckey cfp)) Har1)
    as (s1 & Ht & Hs1); [by apply (encoded_answers _ (mkPending (new_transaction_id 0) false) challenge ckey cfp Hc Hct)|].
  eapply post_eq; [exact Ht|]. cbv beta iota. cbn [class]. rewrite bool_decide_eq_true_2 by done.
  destruct (accessors_sealed challenge ckey cfp) as (-> & -> & _). rewrite Hrealm, Hnonce. cbn [ok_or]. asteps. fold key.
  unfold with_inner. cbn [run_inner run_script run_ids]. set (r2 := mkRun _ rest 1).
  destruct (authed_request_answered METHOD_ALLOCATE [Attribute.RequestedTransport TRANSPORT_UDP; Attribute.Lifetime (cfg_lifetime_secs config)]
    r2 (Message.encode grant (Some key) fp) rest' (mkMessage (method grant) (class grant) (transaction_id grant) (sealed grant (Some key) fp)))
    as (s2 & Hr2 & Hs2); [done|by apply (encoded_answers _ (mkPending (new_transaction_id 1) true) grant (Some key) fp Hg Hgt)|done|].
  eapply post_eq; [exact Hr2|]. asteps. destruct Hs2 as (_ & Hre & Hno & Hke & _). split; [|by split_and!].
  unfold parse_allocation. cbn [class]. rewrite Hgc. destruct (accessors_sealed grant (Some key) fp) as (_ & _ & Hl & Hx).
  rewrite Hgc in Hl, Hx. rewrite bool_decide_eq_false_2 by naive_solver. by rewrite Hx, Haddr, Hl.
Qed.
End requests.

(** ** Relayed datagrams *)

Lemma decode_channel c d rest :
  (CHANNEL_MIN ≤ c ≤ CHANNEL_MAX)%Z → is_u16 (Z.of_nat (length d)) →
  is_channel_data (ChannelData.encode (mkChannelData c d) ++ rest) = true ∧
  ChannelData.decode (ChannelData.encode (mkChannelData c d) ++ rest) = Ok (mkChannelData c d).
Proof.
  intros Hc Hd. destruct (channel_data_cut (mkChannelData c d) rest Hc) as [-> ->]. split; [done|].
  cbn [channel data]. do 2 f_equal. unfold is_u16 in Hd. rewrite Z.mod_small, Nat2Z.id by done. by apply take_ge.
Qed.

(** What the demultiplexer queues: the payloads in the order they arrive, as
    many as there is room for. *)
Lemma demux_all_channel s c ds :
  (CHANNEL_MIN ≤ c ≤ CHANNEL_MAX)%Z → Forall (λ d, is_u16 (Z.of_nat (length d))) ds → length (ti_inbound s) ≤ INBOUND_CAPACITY →
  demux_all s ((λ d, ChannelData.encode (mkChannelData c d)) <$> ds) =
    (set_inbound (take INBOUND_CAPACITY (ti_inbound s ++ ds)) s, None).
Proof.
  intros Hc Hds. revert s. induction Hds as [|d ds Hd _ IH]; intros s Hs.
  - cbn [fmap list_fmap demux_all]. rewrite app_nil_r, take_ge by done. by destruct s.
  - cbn [fmap list_fmap demux_all]. unfold demux_step.
    destruct (decode_channel c d [] Hc Hd) as [H1 H2]. rewrite app_nil_r in H1, H2. rewrite H1, H2.
    case_bool_decide as Hr.
    + rewrite IH by (cbn [set_inbound ti_inbound data]; rewrite length_app; cbn [length]; lia).
      cbn [set_inbound ti_inbound data]. by rewrite <-app_assoc.
    + rewrite IH by done. rewrite !take_app_ge by lia. replace (INBOUND_CAPACITY - length (ti_inbound s)) with 0 by lia. done.
Qed.

Lemma fill_bufs_all s ds bufs :
  Forall2 (λ d size, length d ≤ size) ds bufs →
  fill_bufs s ds bufs = ((λ d, (d, mkMeta (rs_peer s) (length d) (length d))) <$> ds, []).
Proof.
  induction 1 as [|d size ds bufs Hle _ IH]; [done|]. cbn [fill_bufs fmap list_fmap]. rewrite IH.
  by rewrite Nat.min_l, take_ge by done.
Qed.

(** A relay server: it sends the payload of a frame on to the peer, on the
    channel the peer has bound to the sender. *)
Definition forward (channel : Z) (frame : list byte) : list (list byte) :=
  match ChannelData.decode frame with
  | Ok f => [ChannelData.encode (mkChannelData channel (data f))]
  | Err _ => []
  end.

(** Datagrams cross the relay unchanged, in order and each once: what QUIC
    sends to the bound peer is what QUIC receives on the other side, from the
    address of the bound peer, as long as the queue has room and the buffers
    fit. A datagram for any other destination does not leave the socket. *)
Theorem relay_delivers snd rcv c' ds bufs inner ok :
  (CHANNEL_MIN ≤ rs_channel snd ≤ CHANNEL_MAX)%Z → (CHANNEL_MIN ≤ c' ≤ CHANNEL_MAX)%Z →
  Forall (λ d, is_u16 (Z.of_nat (length d))) ds → ds ≠ [] → length ds ≤ INBOUND_CAPACITY →
  ti_inbound inner = [] → Forall2 (λ d size, length d ≤ size) ds bufs →
  let sent := omap (λ d, (try_send snd (rs_peer snd) d ok).1) ds in
  let (inner', got) := demux_all inner (sent ≫= forward c') in
  got = None ∧ inner' = set_inbound ds inner ∧
  poll_recv rcv (ti_inbound inner') false bufs =
    (Ready (Ok (length ds)), (λ d, (d, mkMeta (rs_peer rcv) (length d) (length d))) <$> ds, []) ∧
  ∀ dest d, dest ≠ rs_peer snd → try_send snd dest d ok = (None, Ok ()).
Proof.
  intros Hc Hc' Hds Hne Hlen Hin Hb sent.
  assert (sent ≫= forward c' = (λ d, ChannelData.encode (mkChannelData c' d)) <$> ds) as ->.
  { unfold sent. clear Hne Hlen Hb. induction Hds as [|d ds Hd _ IH]; [done|].
    cbn [omap list_omap fmap list_fmap]. unfold try_send at 1. rewrite bool_decide_eq_false_2 by naive_solver. cbn [fst].
    rewrite bind_cons, IH. unfold forward. destruct (decode_channel (rs_channel snd) d [] Hc Hd) as [_ H2]. rewrite app_nil_r in H2. by rewrite H2. }
  rewrite demux_all_channel by (done || rewrite Hin; apply Nat.le_0_l). rewrite Hin. cbn [app]. rewrite take_ge by done.
  split_and!; [done..| |].
  - cbn [set_inbound ti_inbound]. unfold poll_recv. rewrite fill_bufs_all by done. rewrite length_fmap.
    rewrite bool_decide_eq_false_2; [done|]. by destruct ds.
  - intros dest d Hd. unfold try_send. by rewrite bool_decide_eq_true_2.
Qed.
End laws.

(** ** Maintenance *)

(** The maintenance round comes before the allocation expires exactly when
    the granted lifetime exceeds one minute; it always comes before a channel
    binding expires. With a lifetime of a minute or less the client refreshes
    an allocation the server has already dropped. *)
Theorem maintenance_in_time lifetime :
  is_u32 lifetime → ((sleep_secs lifetime < lifetime)%Z ↔ (60 < lifetime)%Z) ∧ (60 ≤ sleep_secs lifetime ≤ 240)%Z.
Proof.
  unfold is_u32, sleep_secs, CHANNEL_REFRESH. intros H.
  pose proof (Z.div_mod lifetime 2 ltac:(lia)). pose proof (Z.mod_pos_bound lifetime 2 ltac:(lia)). lia.
Qed.

(** ** Examples *)

Definition ex_ids (n : nat) : list byte := replicate 12 (byte_of (Z.of_nat n)).
Definition ex_config : TurnConfig := mkConfig ex_addr "dev" "pw" 900.
Definition ex_key : list byte := long_term_key "dev" "lab" "pw".

Definition ex_challenge : Message :=
  mkMessage METHOD_ALLOCATE Class.Error (ex_ids 0) [Attribute.ErrorCode 401 "no"; Attribute.Realm "lab"; Attribute.Nonce "n1"].
Definition ex_grant : Message :=
  mkMessage METHOD_ALLOCATE Class.Success (ex_ids 1) [Attribute.XorRelayedAddress ex_addr; Attribute.Lifetime 600].

Definition ex_script : list Attempt :=
  [silent; mkAttempt (Ok ()) [[x01; x02]; Message.encode ex_challenge None true];
   mkAttempt (Ok ()) [Message.encode ex_grant (Some ex_key) false]].

Lemma allocation_completes_witness :
  ∃ r, connect ex_ids ex_config (Ok ()) (Ok ()) ex_script = (r, Ok (mkClient ex_addr CHANNEL_MIN true 600)) ∧ ti_key (run_inner r) = ex_key.
Proof.
  destruct (allocation_completes ex_ids ex_config ex_script
    [mkAttempt (Ok ()) [Message.encode ex_grant (Some ex_key) false]] [] ex_challenge None true "lab" "n1" ex_grant false ex_addr)
    as (r & Hr & _ & Hk & _).
  - split; [by vm_compute|]. split; [done|]. split; [|by vm_compute].
    unfold ex_challenge. cbn [attributes]. rewrite !Forall_cons, Forall_nil. split_and!; by vm_compute.
  - reflexivity.
  - discriminate.
  - reflexivity.
  - reflexivity.
  - split; [by vm_compute|]. split; [done|]. split; [|by vm_compute].
    unfold ex_grant. cbn [attributes]. rewrite !Forall_cons, Forall_nil. split_and!; by vm_compute.
  - reflexivity.
  - reflexivity.
  - repeat constructor; intros [].
  - reflexivity.
  - exists [silent], [[x01; x02]], []. split_and!; [done|vm_compute; lia|by repeat constructor|].
    apply Forall_singleton. right. intros m Hm. vm_compute in Hm. discriminate.
  - exists [], [], []. split_and!; [done|vm_compute; lia|constructor|constructor].
  - exists r. split; [exact Hr|exact Hk].
Defined.

Definition ex_run : Run :=
  mkRun (mkInner "dev" "lab" "n1" ex_key None None [] []) [mkAttempt (Ok ()) [Message.encode ex_grant (Some ex_key) false]] 1.

Lemma authed_answers_genuine_witness :
  ∃ r resp, request_authed ex_ids METHOD_ALLOCATE [] ex_run = (r, Ok resp) ∧ class resp = Class.Success.
Proof.
  destruct (request_authed ex_ids METHOD_ALLOCATE [] ex_run) as [r [resp|e]] eqn:E; [|vm_compute in E; discriminate].
  exists r, resp. split; [reflexivity|]. destruct (authed_answers_genuine ex_ids METHOD_ALLOCATE [] ex_run r resp E) as [H _]. exact H.
Defined.

Lemma relay_delivers_witness :
  let snd := mkRelay CHANNEL_MIN ex_addr ex_addr in
  let inner := fresh_inner ex_config in
  let (inner', _) := demux_all inner (omap (λ d, (try_send snd ex_addr d (λ _, Ok ())).1) [[x01]; [x02; x03]] ≫= forward 0x4001) in
  ti_inbound inner' = [[x01]; [x02; x03]].
Proof.
  pose proof (relay_delivers (mkRelay CHANNEL_MIN ex_addr ex_addr) (mkRelay 0x4001 ex_addr ex_addr) 0x4001 [[x01]; [x02; x03]] [1500; 1500]
    (fresh_inner ex_config) (λ _, Ok ())) as H. cbv zeta in H |- *. cbn [rs_peer] in H.
  destruct (demux_all _ _) as [inner' got]. destruct H as (_ & H & _).
  - vm_compute. split; discriminate.
  - vm_compute. split; discriminate.
  - repeat constructor; vm_compute; discriminate.
  - discriminate.
  - apply Nat.leb_le. vm_compute. reflexivity.
  - reflexivity.
  - repeat constructor; apply Nat.leb_le; vm_compute; reflexivity.
  - rewrite H. reflexivity.
Defined.

Lemma maintenance_in_time_witness : ¬ (sleep_secs 45 < 45)%Z ∧ (sleep_secs 600 < 600)%Z.
Proof.
  destruct (maintenance_in_time 45) as [H _]; [vm_compute; split; discriminate|].
  destruct (maintenance_in_time 600) as [H' _]; [vm_compute; split; discriminate|]. lia.
Defined.
