(* ===== verification/QuicAccept.v ===== *)
(** * Inbound QUIC connections by fingerprint

    [crates/mqp2p/src/quic.rs]: identities and certificate checks, and the
    rendezvous between inbound connections and the callers that wait for a
    fingerprint. A connection that nobody waits for is buffered for a while;
    [AcceptState] is shared behind a mutex, so each critical section is one
    operation here. Connections are opaque; what an operation does to them
    (handing one to a waiter, closing one) is its list of effects. Certificate
    generation, X.509 parsing and SHA-256 are operations of [CertOps]. *)
From S2P Require Import Prelude SyncState Membership Discovery Net.

(** ** Identities *)

Class CertOps := {
  sha256 : list byte → list byte;
  self_signed : list byte → result (list byte * list byte) ();
  generate_key : result (list byte) ();
  load_key : list byte → result (list byte) ();
  subject_public_key : list byte → option (list byte);
}.

Record CertIdentity := mkIdentity { cert_der : list byte; key_der : list byte; fingerprint : string }.

Definition ED25519_PKCS8_PREFIX : list byte :=
  [x30; x2e; x02; x01; x00; x30; x05; x06; x03; x2b; x65; x70; x04; x22; x04; x20].

Section identities.
Context `{CO : CertOps}.

Definition self_signed_identity (key_pair : list byte) : result CertIdentity Error :=
  match self_signed key_pair with
  | Err _ => Err (Quic "self-sign failed")
  | Ok (cert, key) => Ok (mkIdentity cert key (compute_fingerprint sha256 cert))
  end.

Definition generate_self_signed_cert : result CertIdentity Error :=
  match generate_key with
  | Err _ => Err (Quic "key generation failed")
  | Ok key_pair => self_signed_identity key_pair
  end.

Definition cert_from_ed25519_seed (seed : list byte) : result CertIdentity Error :=
  match load_key (ED25519_PKCS8_PREFIX ++ seed) with
  | Err _ => Err (Quic "key load failed")
  | Ok key_pair => self_signed_identity key_pair
  end.

(** [<[u8; 32]>::try_from]. *)
Definition public_key_from_cert (cert : list byte) : option (list byte) :=
  key ← subject_public_key cert;
  if bool_decide (length key = 32) then Some key else None.

(** The certificates a connection presents, the peer's own first. *)
Definition peer_public_key (certs : option (list (list byte))) : option (list byte) :=
  certs ← certs; cert ← head certs; public_key_from_cert cert.

Definition connection_fingerprint (certs : option (list (list byte))) : option string :=
  certs ← certs; cert ← head certs; Some (compute_fingerprint sha256 cert).

(** [FingerprintVerifier]: the server's certificate must be the expected one. *)
Definition verify_server_cert (expected : string) (end_entity : list byte) : result () string :=
  let actual := compute_fingerprint sha256 end_entity in
  if bool_decide (actual = expected) then Ok ()
  else Err ("fingerprint mismatch: expected " +:+ expected +:+ ", got " +:+ actual).
End identities.

(** ** The rendezvous *)

Definition MAX_BUFFERED_CONNECTIONS : nat := 256.
Definition BUFFERED_CONNECTION_TTL : Z := 30000.

Section accept.
Context {Conn : Type}.

Record Buffered := mkBuffered { b_conn : Conn; b_at : Z }.

Record AcceptState := mkAccept {
  waiters : gmap string (list Z);
  arrived : gmap string (list Buffered);
  next_waiter_id : Z;
  closed : bool;
}.

Inductive Effect :=
| Handed (id : Z) (c : Conn)
| Returned (c : Conn)
| Discarded (c : Conn)
| CloseConn (c : Conn) (reason : string).

Definition default_state : AcceptState := mkAccept ∅ ∅ 0 false.

Definition set_waiters (w : gmap string (list Z)) (s : AcceptState) : AcceptState :=
  mkAccept w (arrived s) (next_waiter_id s) (closed s).
Definition set_arrived (a : gmap string (list Buffered)) (s : AcceptState) : AcceptState :=
  mkAccept (waiters s) a (next_waiter_id s) (closed s).

(** A queue put back under its key, or the key removed when it is empty. *)
Definition put_queue {A} (fp : string) (queue : list A) (m : gmap string (list A)) : gmap string (list A) :=
  match queue with [] => delete fp m | _ => <[fp := queue]> m end.

Context {HI : HashIter}.

Definition buffered_total (s : AcceptState) : nat := sum_list (length <$> (hiter (arrived s)).*2).

Definition remove_waiter (s : AcceptState) (fp : string) (id : Z) : AcceptState :=
  match waiters s !! fp with
  | Some queue => set_waiters (put_queue fp (filter (λ i, i ≠ id) queue) (waiters s)) s
  | None => s
  end.

(** [min_by_key]: the first entry with the least key. *)
Fixpoint min_by_at (l : list (string * Z)) : option (string * Z) :=
  match l with
  | [] => None
  | (fp, at_) :: l =>
    match min_by_at l with
    | Some (fp', at') => Some (if bool_decide (at' < at_)%Z then (fp', at') else (fp, at_))
    | None => Some (fp, at_)
    end
  end.

(** The queue whose oldest connection is the oldest of all. *)
Definition oldest (s : AcceptState) : option string :=
  fst <$> min_by_at (omap (λ e, b ← head e.2; Some (e.1, b_at b)) (hiter (arrived s))).

Fixpoint evict_loop (fuel : nat) (s : AcceptState) : AcceptState * list Effect :=
  match fuel with
  | O => (s, [])
  | S fuel =>
    if bool_decide (MAX_BUFFERED_CONNECTIONS ≤ buffered_total s) then
      match oldest s with
      | None => (s, [])
      | Some fp =>
        match arrived s !! fp with
        | Some (b :: queue) =>
          let (s, effects) := evict_loop fuel (set_arrived (put_queue fp queue (arrived s)) s) in
          (s, CloseConn (b_conn b) "accept buffer full" :: effects)
        | _ => (s, [])
        end
      end
    else (s, [])
  end.

(** Every round closes one connection, so the number buffered is fuel enough. *)
Definition evict_overflow (s : AcceptState) : AcceptState * list Effect := evict_loop (S (buffered_total s)) s.

(** The inner loop of [expire_buffered] on one queue. *)
Fixpoint expire_queue (now : Z) (queue : list Buffered) : list Buffered * list Effect :=
  match queue with
  | [] => ([], [])
  | b :: rest =>
    if bool_decide (BUFFERED_CONNECTION_TTL ≤ now - b_at b)%Z then
      let (queue, effects) := expire_queue now rest in
      (queue, CloseConn (b_conn b) "unclaimed" :: effects)
    else (queue, [])
  end.

Definition expire_buffered (now : Z) (s : AcceptState) : AcceptState * list Effect :=
  (set_arrived (filter (λ e, e.2 ≠ []) ((λ q, (expire_queue now q).1) <$> arrived s)) s,
   hiter (arrived s) ≫= λ e, (expire_queue now e.2).2).

(** A round of the sweep loop; [None] ends the loop. *)
Definition sweep (now : Z) (s : AcceptState) : option (AcceptState * list Effect) :=
  if closed s then None else Some (expire_buffered now s).

(** The waiter that takes a connection: the first whose receiver is alive.
    Waiters whose caller is gone are dropped on the way. *)
Fixpoint offer (gone : Z → bool) (queue : list Z) : option Z * list Z :=
  match queue with
  | [] => (None, [])
  | id :: queue => if gone id then offer gone queue else (Some id, queue)
  end.

Definition buffer (s : AcceptState) (fp : string) (c : Conn) (now : Z) : AcceptState * list Effect :=
  let (s, effects) := evict_overflow s in
  (set_arrived (<[fp := default [] (arrived s !! fp) ++ [mkBuffered c now]]> (arrived s)) s, effects).

Definition deliver (s : AcceptState) (gone : Z → bool) (fp : string) (c : Conn) (now : Z) : AcceptState * list Effect :=
  if closed s then (s, [CloseConn c "endpoint closed"]) else
  match waiters s !! fp with
  | Some queue =>
    match offer gone queue with
    | (Some id, queue) => (set_waiters (put_queue fp queue (waiters s)) s, [Handed id c])
    | (None, _) => buffer (set_waiters (delete fp (waiters s)) s) fp c now
    end
  | None => buffer s fp c now
  end.

(** One inbound handshake of the accept loop. *)
Definition inbound `{CO : CertOps} (s : AcceptState) (gone : Z → bool) (certs : option (list (list byte))) (c : Conn) (now : Z)
    : AcceptState * list Effect :=
  match connection_fingerprint certs with
  | None => (s, [CloseConn c "no verifiable certificate"])
  | Some fp => deliver s gone fp c now
  end.

(** The loop at the head of [accept_with_fingerprint]: buffered connections
    that have been closed meanwhile are discarded. *)
Fixpoint take_buffered (alive : Conn → bool) (queue : list Buffered) : option Conn * list Buffered * list Effect :=
  match queue with
  | [] => (None, [], [])
  | b :: queue =>
    if alive (b_conn b) then (Some (b_conn b), queue, [Returned (b_conn b)])
    else let '(found, queue, effects) := take_buffered alive queue in (found, queue, Discarded (b_conn b) :: effects)
  end.

Inductive Accepted := Connection (c : Conn) | Waiting (id : Z).

Definition accept_with_fingerprint (s : AcceptState) (alive : Conn → bool) (fp : string)
    : AcceptState * list Effect * result Accepted Error :=
  if closed s then (s, [], Err (Quic "endpoint closed")) else
  let '(found, queue, effects) := take_buffered alive (default [] (arrived s !! fp)) in
  let s := set_arrived (put_queue fp queue (arrived s)) s in
  match found with
  | Some c => (s, effects, Ok (Connection c))
  | None =>
    let id := next_waiter_id s in
    let s := mkAccept (<[fp := default [] (waiters s !! fp) ++ [id]]> (waiters s)) (arrived s) (u64_wrap (id + 1)) (closed s) in
    (s, effects, Ok (Waiting id))
  end.

(** The end of the accept loop, and dropping the endpoint. *)
Definition close_all (s : AcceptState) : AcceptState * list Effect :=
  (mkAccept ∅ ∅ (next_waiter_id s) true,
   hiter (arrived s) ≫= λ e, (λ b, CloseConn (b_conn b) "endpoint closed") <$> e.2).
End accept.
Arguments Buffered : clear implicits.
Arguments AcceptState : clear implicits.
Arguments Effect : clear implicits.

(** ** What is buffered *)

Section buffered.
Context {Conn : Type} {HI : HashIter}.
Implicit Types (s : AcceptState Conn) (a : gmap string (list (Buffered Conn))).

Definition buffered a : list Conn := hiter a ≫= λ e, b_conn <$> e.2.

Definition effect_conn (e : Effect Conn) : Conn :=
  match e with Handed _ c | Returned c | Discarded c | CloseConn c _ => c end.

Definition no_empty {A} (m : gmap string (list A)) : Prop := ∀ fp, m !! fp ≠ Some [].

Lemma buffered_perm a : buffered a ≡ₚ map_to_list a ≫= λ e, b_conn <$> e.2.
Proof. unfold buffered. by rewrite (hiter_perm a). Qed.

Lemma buffered_insert fp q a : a !! fp = None → buffered (<[fp := q]> a) ≡ₚ (b_conn <$> q) ++ buffered a.
Proof. intros H. by rewrite !buffered_perm, map_to_list_insert. Qed.

Lemma buffered_split fp a : buffered a ≡ₚ (b_conn <$> default [] (a !! fp)) ++ buffered (delete fp a).
Proof.
  destruct (a !! fp) as [q|] eqn:E; simpl.
  - rewrite <-(insert_delete_id a fp q E) at 1. by rewrite buffered_insert by apply lookup_delete_eq.
  - by rewrite delete_id.
Qed.

Lemma buffered_put fp q a : buffered (put_queue fp q a) ≡ₚ (b_conn <$> q) ++ buffered (delete fp a).
Proof.
  unfold put_queue. destruct q as [|b q]; [done|]. rewrite <-insert_delete_eq. apply buffered_insert, lookup_delete_eq.
Qed.

Lemma lookup_put_queue {A} fp fp' (q : list A) m :
  put_queue fp q m !! fp' = if decide (fp = fp') then match q with [] => None | _ => Some q end else m !! fp'.
Proof.
  unfold put_queue. case_decide as Hd; [subst|]; destruct q; by rewrite ?lookup_insert_eq, ?lookup_delete_eq, ?lookup_insert_ne, ?lookup_delete_ne.
Qed.

Lemma no_empty_put {A} fp (q : list A) m : no_empty m → no_empty (put_queue fp q m).
Proof. intros H fp'. rewrite lookup_put_queue. case_decide; [by destruct q|apply H]. Qed.

Lemma buffered_total_length s : buffered_total s = length (buffered (arrived s)).
Proof.
  unfold buffered_total, buffered. induction (hiter (arrived s)) as [|[fp q] l IH]; [done|].
  rewrite bind_cons, length_app, <-IH. cbn. by rewrite length_fmap.
Qed.

(** ** Eviction *)

Lemma min_by_at_elem l x : min_by_at l = Some x → x ∈ l ∧ ∀ y, y ∈ l → (x.2 ≤ y.2)%Z.
Proof.
  revert x. induction l as [|[fp t] l IH]; intros x; simpl; [done|]. destruct (min_by_at l) as [[fp' t']|] eqn:E.
  - destruct (IH _ eq_refl) as [Hin Hmin]. case_bool_decide as Hlt; intros [= <-].
    + split; [by apply elem_of_cons; right|]. intros y [->|Hy]%elem_of_cons; simpl; [lia|]. by apply Hmin.
    + split; [by apply elem_of_cons; left|]. intros y [->|Hy]%elem_of_cons; simpl; [lia|]. specialize (Hmin _ Hy). simpl in *. lia.
  - intros [= <-]. destruct l as [|[f2 t2] l]; [|simpl in E; by destruct (min_by_at l) as [[? ?]|]].
    split; [by apply list_elem_of_singleton|]. intros y Hy%list_elem_of_singleton. by subst.
Qed.

Lemma min_by_at_None l : min_by_at l = None → l = [].
Proof. destruct l as [|[fp t] l]; [done|]. simpl. by destruct (min_by_at l) as [[? ?]|]. Qed.

Lemma oldest_Some s fp : oldest s = Some fp → ∃ b q, arrived s !! fp = Some (b :: q) ∧
  ∀ fp' b' q', arrived s !! fp' = Some (b' :: q') → (b_at b ≤ b_at b')%Z.
Proof.
  unfold oldest. intros ([fp0 t] & Hm & ->)%fmap_Some. apply min_by_at_elem in Hm as [Hin Hmin].
  apply list_elem_of_omap in Hin as ([fp1 q] & Hin & Hq). apply elem_of_hiter in Hin.
  destruct q as [|b q]; simpl in Hq; simplify_eq. exists b, q. split; [done|]. intros fp' b' q' Hb.
  apply (Hmin (fp', b_at b')). apply list_elem_of_omap. exists (fp', b' :: q'). split; [by apply elem_of_hiter|done].
Qed.

Lemma oldest_None s : no_empty (arrived s) → oldest s = None → buffered_total s = 0.
Proof.
  unfold oldest, buffered_total. intros Hne Hn. apply fmap_None, min_by_at_None in Hn.
  assert (∀ e, e ∈ hiter (arrived s) → e.2 ≠ []) as Hl.
  { intros [fp q] Hin He. apply elem_of_hiter in Hin. simpl in He. subst. by apply (Hne fp). }
  destruct (hiter (arrived s)) as [|[fp q] l]; [done|]. specialize (Hl (fp, q) ltac:(by left)). by destruct q.
Qed.

(** Eviction closes connections, oldest first, until there is room; what
    remains of every queue is its newer part. *)
Lemma evict_loop_spec fuel s s' es :
  no_empty (arrived s) → buffered_total s < fuel → evict_loop fuel s = (s', es) →
  buffered_total s' < MAX_BUFFERED_CONNECTIONS ∧ no_empty (arrived s') ∧ buffered (arrived s) ≡ₚ (effect_conn <$> es) ++ buffered (arrived s') ∧
  waiters s' = waiters s ∧ closed s' = closed s ∧ next_waiter_id s' = next_waiter_id s ∧
  (∀ fp q', arrived s' !! fp = Some q' → ∃ q, arrived s !! fp = Some q ∧ q' `suffix_of` q) ∧
  Forall (λ e, ∃ c, e = CloseConn c "accept buffer full") es.
Proof.
  revert s es. induction fuel as [|fuel IH]; intros s es Hne Hf; [lia|]. cbn [evict_loop].
  case_bool_decide as Hm; [|intros [= <- <-]; split_and!; [lia|done..|naive_solver|done]].
  destruct (oldest s) as [fp|] eqn:Eo.
  2:{ apply oldest_None in Eo; [|done]. unfold MAX_BUFFERED_CONNECTIONS in Hm. lia. }
  apply oldest_Some in Eo as (b & q & Hb & _). rewrite Hb.
  set (s1 := set_arrived _ s). destruct (evict_loop fuel s1) as [s2 es2] eqn:E. intros [= <- <-].
  assert (buffered (arrived s) ≡ₚ b_conn b :: buffered (arrived s1)) as Hp.
  { rewrite (buffered_split fp), Hb. unfold s1. cbn [set_arrived arrived]. by rewrite buffered_put. }
  apply IH in E as (H1 & H2 & H3 & H4 & H5 & H6 & H7 & H8).
  - split_and!; [done|done| |done|done|done| |].
    + rewrite Hp, H3. done.
    + intros fp' q' Hq'. destruct (H7 _ _ Hq') as (q1 & Hq1 & Hs). unfold s1 in Hq1. cbn [set_arrived arrived] in Hq1.
      rewrite lookup_put_queue in Hq1. case_decide as Hd; [subst fp'|by exists q1].
      destruct q; simplify_eq. exists (b :: b0 :: q). split; [done|]. by apply suffix_cons_r.
    + constructor; [by eexists|done].
  - apply no_empty_put, Hne.
  - apply Permutation_length in Hp. rewrite buffered_total_length in Hf |- *. cbn [length] in Hp. lia.
Qed.

(** ** Well-formed states *)

(** No queue is empty, the buffer is within its bound, nobody waits for a
    fingerprint with a buffered connection, and a closed endpoint is empty. *)
Record accept_wf s : Prop := {
  wf_arrived : no_empty (arrived s);
  wf_waiters : no_empty (waiters s);
  wf_bound : buffered_total s ≤ MAX_BUFFERED_CONNECTIONS;
  wf_disjoint : ∀ fp q, waiters s !! fp = Some q → arrived s !! fp = None;
  wf_closed : closed s = true → waiters s = ∅ ∧ arrived s = ∅;
}.

(** Every connection an operation takes over is accounted for: it is still
    buffered, or an effect names it. *)
Definition accounts (new : list Conn) s s' (es : list (Effect Conn)) : Prop :=
  new ++ buffered (arrived s) ≡ₚ (effect_conn <$> es) ++ buffered (arrived s').

Lemma offer_spec gone queue : match offer gone queue with
  | (Some id, rest) => gone id = false ∧ ∃ dropped, queue = dropped ++ id :: rest ∧ Forall (λ i, gone i = true) dropped
  | (None, rest) => rest = [] ∧ Forall (λ i, gone i = true) queue
  end.
Proof.
  induction queue as [|id queue IH]; simpl; [done|]. destruct (gone id) eqn:E.
  - destruct (offer gone queue) as [[id'|] rest].
    + destruct IH as [Hg (d & -> & Hd)]. split; [done|]. exists (id :: d). split; [done|]. by constructor.
    + destruct IH as [-> H]. split; [done|]. by constructor.
  - split; [done|]. by exists [].
Qed.

Lemma buffer_spec s fp c now s' es :
  accept_wf s → waiters s !! fp = None → closed s = false → buffer s fp c now = (s', es) →
  accept_wf s' ∧ accounts [c] s s' es ∧ waiters s' = waiters s ∧
  (∀ fp' b, (∃ q, arrived s' !! fp' = Some q ∧ b ∈ q) → (fp' = fp ∧ b = mkBuffered c now) ∨ ∃ q, arrived s !! fp' = Some q ∧ b ∈ q) ∧
  Forall (λ e, ∃ c, e = CloseConn c "accept buffer full") es.
Proof.
  intros [Hne Hwe Hb Hdis Hcl] Hw Hc. unfold buffer, evict_overflow.
  destruct (evict_loop _ s) as [s1 es1] eqn:E. intros [= <- <-].
  apply evict_loop_spec in E as (H1 & H2 & H3 & H4 & H5 & H6 & H7 & H8); [|done|lia].
  set (q0 := default [] (arrived s1 !! fp)).
  assert (buffered (<[fp := q0 ++ [mkBuffered c now]]> (arrived s1)) ≡ₚ c :: buffered (arrived s1)) as Hp.
  { rewrite (buffered_split fp (arrived s1)). fold q0. rewrite <-insert_delete_eq, buffered_insert by apply lookup_delete_eq.
    rewrite fmap_app. cbn. by rewrite <-Permutation_middle, app_nil_r. }
  split_and!.
  - split; cbn [set_arrived arrived waiters closed].
    + intros fp'. rewrite lookup_insert. case_decide; [by destruct q0|apply H2].
    + by rewrite H4.
    + rewrite buffered_total_length. cbn [arrived]. rewrite Hp. cbn [length]. rewrite <-buffered_total_length. lia.
    + rewrite H4. intros fp' q Hq. rewrite lookup_insert_ne by (intros ->; congruence).
      destruct (arrived s1 !! fp') eqn:Ea; [|done]. apply H7 in Ea as (? & Ha & _). by rewrite (Hdis _ _ Hq) in Ha.
    + rewrite H5, Hc. done.
  - unfold accounts. cbn [set_arrived arrived]. rewrite Hp, H3. cbn. by rewrite Permutation_middle.
  - done.
  - cbn [set_arrived arrived]. intros fp' b (q & Hq & Hin). rewrite lookup_insert in Hq. case_decide as Hd.
    + injection Hq as <-. subst fp'. apply elem_of_app in Hin as [Hin|Hin%list_elem_of_singleton]; [|by left]. right.
      unfold q0 in Hin. destruct (arrived s1 !! fp) as [q1|] eqn:Ea; [|by apply elem_of_nil in Hin]. simpl in Hin.
      apply H7 in Ea as (q2 & -> & Hs). exists q2. split; [done|]. by eapply elem_of_suffix.
    + right. apply H7 in Hq as (q2 & -> & Hs). exists q2. split; [done|]. by eapply elem_of_suffix.
  - done.
Qed.

Lemma evict_loop_next fuel s : next_waiter_id (evict_loop fuel s).1 = next_waiter_id s.
Proof.
  revert s. induction fuel as [|fuel IH]; intros s; [done|]. cbn [evict_loop]. case_bool_decide; [|done].
  destruct (oldest s) as [fp|]; [|done]. destruct (arrived s !! fp) as [[|b queue]|]; [done| |done].
  specialize (IH (set_arrived (put_queue fp queue (arrived s)) s)). by destruct (evict_loop fuel _).
Qed.

Lemma deliver_next s gone fp c now : next_waiter_id (deliver s gone fp c now).1 = next_waiter_id s.
Proof.
  assert (∀ s, next_waiter_id (buffer s fp c now).1 = next_waiter_id s) as Hb.
  { intros s1. unfold buffer, evict_overflow. pose proof (evict_loop_next (S (buffered_total s1)) s1) as H. by destruct (evict_loop _ s1). }
  unfold deliver. destruct (closed s); [done|]. destruct (waiters s !! fp); [|apply Hb]. destruct (offer gone _) as [[]]; [done|]. by rewrite Hb.
Qed.

(** A live waiter of the fingerprint, the first in line, gets the connection;
    otherwise it is buffered. *)
Lemma deliver_spec s gone fp c now s' es :
  accept_wf s → deliver s gone fp c now = (s', es) →
  accept_wf s' ∧ accounts [c] s s' es ∧
  (∀ fp' b, (∃ q, arrived s' !! fp' = Some q ∧ b ∈ q) → (fp' = fp ∧ b = mkBuffered c now) ∨ ∃ q, arrived s !! fp' = Some q ∧ b ∈ q) ∧
  (∀ fp' id, (∃ q, waiters s' !! fp' = Some q ∧ id ∈ q) → ∃ q, waiters s !! fp' = Some q ∧ id ∈ q) ∧
  (∀ id c', Handed id c' ∈ es → c' = c ∧ ∃ q, waiters s !! fp = Some q ∧ id ∈ q).
Proof.
  assert (∀ es' : list (Effect Conn), Forall (λ e, ∃ c, e = CloseConn c "accept buffer full") es' → ∀ id c', Handed id c' ∉ es') as Hno.
  { intros es' Hes' id c' Hin. rewrite Forall_forall in Hes'. by destruct (Hes' _ Hin). }
  intros Hwf. pose proof Hwf as [Hne Hwe Hb Hdis Hcl]. unfold deliver. destruct (closed s) eqn:Ec.
  { intros [= <- <-]. split_and!; [done|by unfold accounts|naive_solver|naive_solver|]. intros id c' Hin%list_elem_of_singleton. done. }
  destruct (waiters s !! fp) as [queue|] eqn:Ew.
  - pose proof (offer_spec gone queue) as Ho. destruct (offer gone queue) as [[id|] rest].
    + intros [= <- <-]. destruct Ho as (_ & dropped & -> & _). split_and!.
      * split; cbn [set_waiters arrived waiters closed]; [done|by apply no_empty_put|done| |by rewrite Ec].
        intros fp' q. rewrite lookup_put_queue. case_decide as Hd; [subst fp'|by apply Hdis]. intros _. by eapply Hdis.
      * by unfold accounts.
      * naive_solver.
      * cbn [set_waiters waiters]. intros fp' id' (q & Hq & Hin). rewrite lookup_put_queue in Hq. case_decide as Hd; [subst fp'|eauto].
        exists (dropped ++ id :: rest). split; [done|]. destruct rest; [done|]. injection Hq as <-. apply elem_of_app. right. by right.
      * intros id' c' Hin%list_elem_of_singleton. injection Hin as -> ->. split; [done|]. eexists. split; [done|]. apply elem_of_app. right. by left.
    + set (s1 := set_waiters _ s). intros Hbuf. assert (accept_wf s1) as Hwf1.
      { split; cbn [s1 set_waiters arrived waiters closed]; [done| |done| |by rewrite Ec].
        - intros fp'. rewrite lookup_delete. case_decide; [done|apply Hwe].
        - intros fp' q. rewrite lookup_delete. case_decide; [done|apply Hdis]. }
      apply buffer_spec in Hbuf as (H1 & H2 & H3 & H4 & H5); [|done|apply lookup_delete_eq|done].
      split_and!; [done|done|done| |].
      * rewrite H3. cbn [s1 set_waiters waiters]. intros fp' id (q & Hq & Hin). rewrite lookup_delete in Hq. case_decide; [done|eauto].
      * intros id c' Hin. by apply Hno in Hin.
  - intros Hbuf. apply buffer_spec in Hbuf as (H1 & H2 & H3 & H4 & H5); [|done|done|done].
    split_and!; [done|done|done|by rewrite H3|]. intros id c' Hin. by apply Hno in Hin.
Qed.

Lemma expire_queue_spec now q :
  (b_conn <$> q) ≡ₚ (effect_conn <$> (expire_queue now q).2) ++ (b_conn <$> (expire_queue now q).1) ∧
  (expire_queue now q).1 `suffix_of` q ∧ Forall (λ e, ∃ c, e = CloseConn c "unclaimed") (expire_queue now q).2.
Proof.
  induction q as [|b q IH]; simpl; [done|]. case_bool_decide; simpl; [|by split_and!].
  destruct (expire_queue now q) as [q' es]. destruct IH as (H1 & H2 & H3). simpl in *. split_and!.
  - by rewrite H1.
  - by apply suffix_cons_r.
  - constructor; [by eexists|done].
Qed.

Lemma expire_conserves now a :
  buffered a ≡ₚ (effect_conn <$> (hiter a ≫= λ e, (expire_queue now e.2).2)) ++
    buffered (filter (λ e, e.2 ≠ []) ((λ q, (expire_queue now q).1) <$> a)).
Proof.
  rewrite !buffered_perm. setoid_rewrite (hiter_perm a).
  induction a as [|fp q a Ha IH] using map_ind.
  - by rewrite map_to_list_empty, fmap_empty, map_filter_empty, map_to_list_empty.
  - rewrite map_to_list_insert by done. rewrite !bind_cons, fmap_app, fmap_insert. cbn [snd].
    destruct (expire_queue_spec now q) as (Hq & _). rewrite Hq, IH. rewrite map_filter_insert. cbn [snd].
    assert (filter (λ e : string * list (Buffered Conn), e.2 ≠ []) ((λ q, (expire_queue now q).1) <$> a) !! fp = None) as Hf.
    { apply map_lookup_filter_None. left. by rewrite lookup_fmap, Ha. }
    case_decide as Hd.
    + rewrite map_to_list_insert, bind_cons by done. cbn [snd]. solve_Permutation.
    + rewrite Hd. simpl. rewrite app_nil_r.
      rewrite (delete_id ((λ q, (expire_queue now q).1) <$> a)) by (by rewrite lookup_fmap, Ha). by rewrite app_assoc.
Qed.

Lemma accounts_total new s s' es : accounts new s s' es → new = [] → buffered_total s' ≤ buffered_total s.
Proof.
  unfold accounts. intros H ->. apply Permutation_length in H. cbn [app] in H. rewrite length_app, length_fmap in H. rewrite !buffered_total_length. simpl in H. lia.
Qed.

Lemma expire_spec now s s' es :
  accept_wf s → expire_buffered now s = (s', es) →
  accept_wf s' ∧ accounts [] s s' es ∧ waiters s' = waiters s ∧
  (∀ fp q', arrived s' !! fp = Some q' → ∃ q, arrived s !! fp = Some q ∧ q' `suffix_of` q) ∧
  Forall (λ e, ∃ c, e = CloseConn c "unclaimed") es.
Proof.
  intros [Hne Hwe Hb Hdis Hcl] H. assert (accounts [] s s' es) as Hacc.
  { injection H as <- <-. unfold accounts. apply expire_conserves. }
  pose proof (accounts_total _ _ _ _ Hacc eq_refl) as Hle. injection H as <- <-. cbn [set_arrived arrived waiters closed] in *.
  assert (∀ fp q', filter (λ e : string * list (Buffered Conn), e.2 ≠ []) ((λ q, (expire_queue now q).1) <$> arrived s) !! fp = Some q' →
    q' ≠ [] ∧ ∃ q, arrived s !! fp = Some q ∧ q' `suffix_of` q) as Hlk.
  { intros fp q' [Hq Hn]%map_lookup_filter_Some. rewrite lookup_fmap in Hq. apply fmap_Some in Hq as (q & Hq & ->).
    split; [done|]. exists q. split; [done|]. apply expire_queue_spec. }
  split_and!; [|done|done| |].
  - split; cbn [set_arrived arrived waiters closed]; [|done|lia| |].
    + intros fp Hq. by apply Hlk in Hq as [? _].
    + intros fp q Hq. destruct (filter _ _ !! fp) eqn:E; [|done]. apply Hlk in E as (_ & q2 & Hq2 & _). by rewrite (Hdis _ _ Hq) in Hq2.
    + intros Hc. destruct (Hcl Hc) as [-> ->]. split; [done|]. by rewrite fmap_empty, map_filter_empty.
  - intros fp q' Hq'. by apply Hlk in Hq' as [_ ?].
  - apply Forall_forall. intros e ([fp q] & He & _)%list_elem_of_bind. cbn in He.
    destruct (expire_queue_spec now q) as (_ & _ & Hf). rewrite Forall_forall in Hf. by apply Hf.
Qed.

Lemma take_buffered_spec alive queue found rest es :
  take_buffered alive queue = (found, rest, es) →
  (b_conn <$> queue) ≡ₚ (effect_conn <$> es) ++ (b_conn <$> rest) ∧ rest `suffix_of` queue ∧
  (∀ e, e ∈ es → (∃ c, e = Discarded c) ∨ ∃ c, e = Returned c ∧ found = Some c) ∧
  match found with Some c => alive c = true ∧ ∃ b, b ∈ queue ∧ b_conn b = c | None => rest = [] end.
Proof.
  revert found rest es. induction queue as [|b queue IH]; intros found rest es; simpl.
  { intros [= <- <- <-]. split_and!; [done|done|set_solver|done]. }
  destruct (alive (b_conn b)) eqn:Ea.
  - intros [= <- <- <-]. split_and!; [done|by apply suffix_cons_r| |done|].
    + intros e He%list_elem_of_singleton. right. eauto.
    + exists b. split; [by left|done].
  - destruct (take_buffered alive queue) as [[f r] es'] eqn:E. intros [= <- <- <-]. destruct (IH _ _ _ eq_refl) as (H1 & H2 & H3 & H4).
    split_and!; [by rewrite H1|by apply suffix_cons_r| |].
    + intros e [->|He]%elem_of_cons; [left; eauto|by apply H3].
    + destruct f; [|done]. destruct H4 as [? (b' & Hb' & ?)]. split; [done|]. exists b'. split; [by right|done].
Qed.

Lemma accept_spec s alive fp s' es r :
  accept_wf s → accept_with_fingerprint s alive fp = (s', es, r) →
  accept_wf s' ∧ accounts [] s s' es ∧
  (∀ fp' q', arrived s' !! fp' = Some q' → ∃ q, arrived s !! fp' = Some q ∧ q' `suffix_of` q) ∧
  (∀ id c, Handed id c ∉ es) ∧
  match r with
  | Ok (Connection c) => waiters s' = waiters s ∧ alive c = true ∧ ∃ q b, arrived s !! fp = Some q ∧ b ∈ q ∧ b_conn b = c
  | Ok (Waiting id) => id = next_waiter_id s ∧ waiters s' = <[fp := default [] (waiters s !! fp) ++ [id]]> (waiters s)
  | Err _ => closed s = true ∧ s' = s
  end.
Proof.
  intros Hwf. pose proof Hwf as [Hne Hwe Hb Hdis Hcl]. unfold accept_with_fingerprint. destruct (closed s) eqn:Ec.
  { intros [= <- <- <-]. split_and!; [done|by unfold accounts|naive_solver|set_solver|done|done]. }
  destruct (take_buffered alive _) as [[found rest] es0] eqn:E. apply take_buffered_spec in E as (H1 & H2 & H3 & H4).
  set (s1 := set_arrived _ s). assert (accounts [] s s1 es0) as Hacc.
  { unfold accounts, s1. cbn [set_arrived arrived app]. rewrite buffered_put, (buffered_split fp (arrived s)), H1. by rewrite app_assoc. }
  pose proof (accounts_total _ _ _ _ Hacc eq_refl) as Hle.
  assert (∀ fp' q', arrived s1 !! fp' = Some q' → ∃ q, arrived s !! fp' = Some q ∧ q' `suffix_of` q) as Hsuf.
  { intros fp' q'. unfold s1. cbn [set_arrived arrived]. rewrite lookup_put_queue. case_decide as Hd; [subst fp'|naive_solver].
    destruct rest as [|b rest]; [done|]. intros [= <-]. destruct (arrived s !! fp) as [q|]; [by exists q|].
    by apply suffix_nil_inv in H2. }
  assert (∀ id c, Handed id c ∉ es0) as Hno by (intros id c Hin; apply H3 in Hin; naive_solver).
  destruct found as [c|]; intros [= <- <- <-].
  - destruct H4 as [Hal (b & Hin & Hbc)]. split; [|split; [done|split; [done|split; [done|split; [done|split; [done|]]]]]].
    + split; [by apply no_empty_put|done|cbn in *; lia| |unfold s1; cbn [set_arrived closed]; congruence].
      intros fp' q Hq. destruct (arrived s1 !! fp') eqn:Ea; [|done]. apply Hsuf in Ea as (? & Ha & _). by rewrite (Hdis _ _ Hq) in Ha.
    + destruct (arrived s !! fp) as [q|]; [|by apply elem_of_nil in Hin]. by exists q, b.
  - split_and!; [|exact Hacc|exact Hsuf|done|done|done]. subst rest.
    split; cbn [s1 set_arrived put_queue arrived waiters closed]; [by apply (no_empty_put fp [])| |transitivity (buffered_total s1); [done|lia]| |congruence].
    + intros fp'. rewrite lookup_insert. case_decide; [intros [= Hn]; by apply app_nil in Hn as [_ ?]|apply Hwe].
    + intros fp' q. rewrite lookup_insert. case_decide as Hd; [subst fp'; intros _; apply lookup_delete_eq|].
      intros Hq. rewrite lookup_delete_ne by done. by eapply Hdis.
Qed.

(** ** Runs of an endpoint *)

(** An endpoint with its history: the connections that arrived, by the
    fingerprint they proved, the callers that went to wait, the connections
    returned at once, and every effect. *)
Record World := mkWorld {
  w_state : AcceptState Conn;
  w_delivered : list (string * Conn);
  w_requests : list (Z * string);
  w_returned : list (string * Conn);
  w_effects : list (Effect Conn);
}.

Inductive step : World → World → Prop :=
| step_deliver s D R T E gone fp c now s' es :
  deliver s gone fp c now = (s', es) → step (mkWorld s D R T E) (mkWorld s' (D ++ [(fp, c)]) R T (E ++ es))
| step_sweep s D R T E now s' es :
  sweep now s = Some (s', es) → step (mkWorld s D R T E) (mkWorld s' D R T (E ++ es))
| step_wait s D R T E alive fp s' es id :
  accept_with_fingerprint s alive fp = (s', es, Ok (Waiting id)) →
  step (mkWorld s D R T E) (mkWorld s' D (R ++ [(id, fp)]) T (E ++ es))
| step_take s D R T E alive fp s' es c :
  accept_with_fingerprint s alive fp = (s', es, Ok (Connection c)) →
  step (mkWorld s D R T E) (mkWorld s' D R (T ++ [(fp, c)]) (E ++ es))
| step_cancel s D R T E fp id : step (mkWorld s D R T E) (mkWorld (remove_waiter s fp id) D R T E)
| step_close s D R T E s' es :
  close_all s = (s', es) → step (mkWorld s D R T E) (mkWorld s' D R T (E ++ es)).

Definition initial : World := mkWorld default_state [] [] [] [].

Record world_inv (w : World) : Prop := {
  wi_wf : accept_wf (w_state w);
  wi_accounted : (w_delivered w).*2 ≡ₚ (effect_conn <$> w_effects w) ++ buffered (arrived (w_state w));
  wi_buffered : ∀ fp q b, arrived (w_state w) !! fp = Some q → b ∈ q → (fp, b_conn b) ∈ w_delivered w;
  wi_waiting : ∀ fp q id, waiters (w_state w) !! fp = Some q → id ∈ q → (id, fp) ∈ w_requests w;
  wi_handed : ∀ id c, Handed id c ∈ w_effects w → ∃ fp, (id, fp) ∈ w_requests w ∧ (fp, c) ∈ w_delivered w;
  wi_returned : ∀ fp c, (fp, c) ∈ w_returned w → (fp, c) ∈ w_delivered w;
}.

Lemma accounts_extend (D : list (string * Conn)) E s s' es new :
  D.*2 ≡ₚ (effect_conn <$> E) ++ buffered (arrived s) → accounts new.*2 s s' es →
  (D ++ new).*2 ≡ₚ (effect_conn <$> (E ++ es)) ++ buffered (arrived s').
Proof.
  intros Hd Ha. rewrite !fmap_app, Hd. unfold accounts in Ha. rewrite <-!app_assoc, <-Ha. solve_Permutation.
Qed.

Lemma suffix_buffered (a a' : gmap string (list (Buffered Conn))) (D : list (string * Conn)) :
  (∀ fp q b, a !! fp = Some q → b ∈ q → (fp, b_conn b) ∈ D) →
  (∀ fp q', a' !! fp = Some q' → ∃ q, a !! fp = Some q ∧ q' `suffix_of` q) →
  ∀ fp q b, a' !! fp = Some q → b ∈ q → (fp, b_conn b) ∈ D.
Proof. intros H Hs fp q' b Hq Hb. destruct (Hs _ _ Hq) as (q & Hq' & Hsuf). eapply H; [done|]. by eapply elem_of_suffix. Qed.

Lemma step_inv w w' : step w w' → world_inv w → world_inv w'.
Proof.
  intros Hstep [Hwf Hacc Hbuf Hwait Hhand Hret].
  destruct Hstep as [s D R T E gone fp c now s' es H|s D R T E now s' es H|s D R T E alive fp s' es id H|s D R T E alive fp s' es c H|s D R T E fp id|s D R T E s' es H];
    cbn [w_state w_delivered w_requests w_returned w_effects] in *.
  - apply deliver_spec in H as (H1 & H2 & H3 & H4 & H5); [|done]. split; cbn; [done|by eapply accounts_extend| | | |].
    + intros fp' q b Hq Hb. apply elem_of_app. destruct (H3 fp' b) as [[-> ->]|(q' & Hq' & Hb')]; [eauto|right; by left|left; by eapply Hbuf].
    + intros fp' q id Hq Hin. destruct (H4 fp' id) as (q' & Hq' & Hin'); [eauto|]. by eapply Hwait.
    + intros id c' [Hin|Hin]%elem_of_app.
      * destruct (Hhand _ _ Hin) as (fp' & ? & ?). exists fp'. split; [done|]. apply elem_of_app. by left.
      * apply H5 in Hin as (-> & q & Hq & Hin). exists fp. split; [by eapply Hwait|]. apply elem_of_app. right. by left.
    + intros fp' c' Hin. apply elem_of_app. left. by apply Hret.
  - unfold sweep in H. destruct (closed s); [done|]. apply Some_inj in H. apply expire_spec in H as (H1 & H2 & H3 & H4 & H5); [|done].
    split; cbn; [done| |by eapply suffix_buffered|by rewrite H3| |done].
    + rewrite <-(app_nil_r D). by eapply accounts_extend.
    + intros id c [Hin|Hin]%elem_of_app; [by apply Hhand|]. rewrite Forall_forall in H5. by destruct (H5 _ Hin).
  - apply accept_spec in H as (H1 & H2 & H3 & H4 & -> & H6); [|done]. split; cbn; [done| |by eapply suffix_buffered| | |done].
    + rewrite <-(app_nil_r D). by eapply accounts_extend.
    + intros fp' q id. rewrite H6, lookup_insert. intros Hq Hin. apply elem_of_app. case_decide as Hd.
      * injection Hq as <-. subst fp'. apply elem_of_app in Hin as [Hin|Hin%list_elem_of_singleton]; [|subst; right; by left].
        left. destruct (waiters s !! fp) as [q|] eqn:Ew; [|by apply elem_of_nil in Hin]. by eapply Hwait.
      * left. by eapply Hwait.
    + intros id c [Hin|Hin]%elem_of_app; [|by apply H4 in Hin]. destruct (Hhand _ _ Hin) as (fp' & ? & ?). exists fp'. split; [|done]. apply elem_of_app. by left.
  - apply accept_spec in H as (H1 & H2 & H3 & H4 & H5 & _ & q & b & Hq & Hb & <-); [|done]. split; cbn; [done| |by eapply suffix_buffered|by rewrite H5| |].
    + rewrite <-(app_nil_r D). by eapply accounts_extend.
    + intros id c' [Hin|Hin]%elem_of_app; [by apply Hhand|by apply H4 in Hin].
    + intros fp' c' [Hin|Hin%list_elem_of_singleton]%elem_of_app; [by apply Hret|]. simplify_eq. by eapply Hbuf.
  - unfold remove_waiter. destruct (waiters s !! fp) as [queue|] eqn:Ew; [|by split].
    destruct Hwf as [Hne Hwe Hb Hdis Hcl]. split; cbn; [|done|done| |done|done].
    + split; cbn [set_waiters arrived waiters closed]; [done|by apply no_empty_put|done| |].
      * intros fp' q. rewrite lookup_put_queue. case_decide as Hd; [subst fp'; intros _; by eapply Hdis|apply Hdis].
      * intros Hc. destruct (Hcl Hc) as [Hw _]. by rewrite Hw in Ew.
    + intros fp' q id' Hq Hin. rewrite lookup_put_queue in Hq. case_decide as Hd; [subst fp'|by eapply Hwait].
      eapply Hwait; [done|]. destruct (filter _ queue) as [|i l] eqn:Ef; [done|]. injection Hq as <-. rewrite <-Ef in Hin.
      by apply list_elem_of_filter in Hin as [_ ?].
  - injection H as <- <-. split; cbn; [|..|done].
    + split; cbn; [intros ? ?; done|intros ? ?; done| |done|done]. rewrite buffered_total_length, buffered_perm. cbn. rewrite map_to_list_empty. simpl. lia.
    + rewrite fmap_app, Hacc. rewrite (buffered_perm ∅), map_to_list_empty, app_nil_r. f_equiv. unfold buffered.
      induction (hiter (arrived s)) as [|e l IH]; [done|]. rewrite !bind_cons, fmap_app, <-IH. by rewrite <-list_fmap_compose.
    + done.
    + done.
    + intros id c [Hin|Hin]%elem_of_app; [by apply Hhand|]. apply list_elem_of_bind in Hin as (e & Hin & _).
      apply list_elem_of_fmap in Hin as (b & ? & _). done.
Qed.

(** C16: In every run of an endpoint no inbound connection is lost: each one is
    buffered, or was handed to one caller, returned, found dead or closed, and
    only once. A caller only ever gets a connection that proved the
    fingerprint it waits for; at most 256 connections are buffered; and nobody
    waits for a fingerprint while a connection with it is buffered. *)
Theorem rendezvous w : rtc step initial w → world_inv w.
Proof.
  intros Hrtc. assert (world_inv initial) as Hinit.
  { split; cbn; [| |done..|set_solver|set_solver].
    - split; cbn; [done|done| |done|done]. rewrite buffered_total_length, buffered_perm. cbn. rewrite map_to_list_empty. simpl. lia.
    - by rewrite buffered_perm, map_to_list_empty. }
  revert Hinit. induction Hrtc as [|w w1 w2 Hs _ IH]; [done|]. intros Hi. apply IH. by eapply step_inv.
Qed.
End buffered.

(** ** Examples *)

(** A caller waits for "a", a connection of "b" is buffered, then one of "a"
    arrives. *)
Lemma rendezvous_witness :
  ∃ w : World (Conn := nat), rtc step initial w ∧ Handed 0 7 ∈ w_effects w ∧ arrived (w_state w) !! "b" = Some [mkBuffered 3 10] ∧
    world_inv w.
Proof.
  eexists. match goal with |- ?R ∧ _ => assert R as Hr end.
  { eapply rtc_l; [eapply (step_wait _ _ _ _ _ (λ _, true) "a"); reflexivity|].
    eapply rtc_l; [eapply (step_deliver _ _ _ _ _ (λ _, false) "b" 3 10); reflexivity|].
    eapply rtc_l; [eapply (step_deliver _ _ _ _ _ (λ _, false) "a" 7 20); reflexivity|]. apply rtc_refl. }
  split; [exact Hr|]. split; [vm_compute; by left|]. split; [vm_compute; reflexivity|]. exact (rendezvous _ Hr).
Defined.
