(* ===== verification/Transfer.v ===== *)
(** * File transfers

    [crates/mqp2p/src/transfer.rs]: a file is offered, accepted or rejected,
    sent in chunks and confirmed by its hash, over the two directions of a
    stream. The streams are [AsyncWrite] and [AsyncRead] of Protocol.v, the
    file system is the class [Files], JSON and SHA-256 the class [TransferOps];
    a running hash is the bytes it was fed. Calls of [progress] are recorded.
    The receiving loop takes fuel, one unit per frame; [None] is a transfer
    still under way. *)
From Stdlib Require Import Ascii.
From S2P Require Import Prelude SyncState Protocol Membership Net.

Definition FRAME_FILE_OFFER : byte := x01.
Definition FRAME_FILE_ACCEPT : byte := x02.
Definition FRAME_FILE_REJECT : byte := x03.
Definition FRAME_DATA_CHUNK : byte := x10.
Definition FRAME_TRANSFER_COMPLETE : byte := x20.
Definition FRAME_ACK : byte := x30.

Definition CHUNK_SIZE : Z := 64 * 1024.
Definition MAX_FRAME_PAYLOAD : Z := 128 * 1024 * 1024.

Record FileOffer := mkOffer { fo_name : string; fo_size : Z; fo_sha256 : string }.
Record TransferResult := mkResult { tr_file_name : string; tr_file_size : Z; tr_sha256 : string }.

Class TransferOps := {
  sha256 : list byte → list byte;
  offer_to_vec : FileOffer → result (list byte) ();
  offer_from_slice : list byte → result FileOffer ();
  reason_to_vec : string → result (list byte) ();
  reason_from_slice : list byte → result string ();
}.

(** One pass over a file: the non-empty pieces [read] returns, and the error
    that ends it, if any. *)
Record Pass := mkPass { p_chunks : list (list byte); p_error : option IoError }.

Class Files (F : Type) := {
  metadata_len : F → string → result Z IoError;
  open_read : F → string → F * result Pass IoError;
  file_create : F → string → F * result () IoError;
  file_write : F → string → list byte → F * result () IoError;
  file_flush : F → string → F * result () IoError;
  file_rename : F → string → string → F * result () IoError;
  file_remove : F → string → F * result () IoError;
}.

Class SendStream (W : Type) := {
  ss_write :: AsyncWrite W;
  ss_finish : W → W * result () ();
}.

(** [Path::join]: an absolute path replaces the directory. *)
Definition join (dir name : string) : string :=
  match name with
  | String "/"%char _ => name
  | _ => dir +:+ "/" +:+ name
  end.

Definition hex_string (bs : list byte) : string := String.string_of_list_byte (hex_bytes bs).

Section transfer.
Context {W R F : Type} {SS : SendStream W} {AR : AsyncRead R} {FS : Files F} {TO : TransferOps}.

Record Xfer := mkXfer { x_send : W; x_recv : R; x_files : F; x_progress : list (Z * Z) }.

Definition on_send {A E} (m : W → W * result A E) (f : E → Error) : action Xfer Error A :=
  λ x, let (w, r) := m (x_send x) in (mkXfer w (x_recv x) (x_files x) (x_progress x), map_err f r).
Definition on_recv {A E} (m : R → R * result A E) (f : E → Error) : action Xfer Error A :=
  λ x, let (r', r) := m (x_recv x) in (mkXfer (x_send x) r' (x_files x) (x_progress x), map_err f r).
Definition on_files {A} (m : F → F * result A IoError) : action Xfer Error A :=
  λ x, let (f, r) := m (x_files x) in (mkXfer (x_send x) (x_recv x) f (x_progress x), map_err Net.Io r).
Definition progress (bytes total : Z) : action Xfer Error () :=
  amodify (λ x, mkXfer (x_send x) (x_recv x) (x_files x) (x_progress x ++ [(bytes, total)])).

(** ** Frames *)

Definition write_frame (frame_type : byte) (payload : list byte) : action Xfer Error () :=
  let len := u32_wrap (Z.of_nat (length payload)) in
  on_send (λ w, write_all w (frame_type :: to_be_bytes 4 len)) (λ _, Transfer "write frame header") ;;
  if bool_decide (payload = []) then aret ()
  else on_send (λ w, write_all w payload) (λ _, Transfer "write frame payload").

Definition read_frame : action Xfer Error (byte * list byte) :=
  let! header := on_recv (λ r, read_exact r 5) (λ _, Transfer "read frame header") in
  let frame_type := at_byte header 0 in
  let len := u32_at 1 header in
  if bool_decide (MAX_FRAME_PAYLOAD < len)%Z then athrow (Transfer "frame payload too large") else
  let! payload := if bool_decide (0 < len)%Z
    then on_recv (λ r, read_exact r len) (λ _, Transfer "read frame payload") else aret [] in
  aret (frame_type, payload).

(** ** Sending *)

(** The end of a pass: the error that cut it short. *)
Definition end_pass (p : Pass) : action Xfer Error () :=
  match p_error p with Some e => athrow (Net.Io e) | None => aret () end.

(** The loop that sends the chunks, from [offset]. *)
Fixpoint send_chunks (total offset : Z) (chunks : list (list byte)) : action Xfer Error () :=
  match chunks with
  | [] => aret ()
  | chunk :: chunks =>
    write_frame FRAME_DATA_CHUNK (to_be_bytes 8 offset ++ chunk) ;;
    let offset := (offset + Z.of_nat (length chunk))%Z in
    progress offset total ;;
    send_chunks total offset chunks
  end.

(** [name] is [path.file_name()] as a string. *)
Definition send_file (path : string) (name : option string) : action Xfer Error TransferResult :=
  let! file_size := λ x, (x, map_err Net.Io (metadata_len (x_files x) path)) in
  let file_name := default "unknown" name in
  let! pass := on_files (λ f, open_read f path) in
  end_pass pass ;;
  let sha256_digest := sha256 (concat (p_chunks pass)) in
  let hash := hex_string sha256_digest in
  let offer := mkOffer file_name file_size hash in
  let! offer_json := alift (map_err (λ _, Json) (offer_to_vec offer)) in
  write_frame FRAME_FILE_OFFER offer_json ;;
  let! '(frame_type, payload) := read_frame in
  (if bool_decide (frame_type = FRAME_FILE_ACCEPT) then aret ()
   else if bool_decide (frame_type = FRAME_FILE_REJECT) then
     athrow (TransferRejected (match reason_from_slice payload with Ok r => r | Err _ => "unknown" end))
   else athrow (UnexpectedFrame frame_type)) ;;
  let! pass := on_files (λ f, open_read f path) in
  send_chunks file_size 0 (p_chunks pass) ;;
  end_pass pass ;;
  write_frame FRAME_TRANSFER_COMPLETE sha256_digest ;;
  let! '(ack_type, _) := read_frame in
  (if bool_decide (ack_type ≠ FRAME_ACK) then athrow (UnexpectedFrame ack_type) else aret ()) ;;
  on_send ss_finish (λ _, Transfer "finish send stream") ;;
  aret (mkResult file_name file_size hash).

(** ** Receiving *)

(** The loop of [receive_file]: what was received so far is [data]; the end
    of the loop yields the hash and the number of bytes. *)
Fixpoint receive_loop (fuel : nat) (temp_path : string) (total : Z) (data : list byte)
    : action Xfer Error (option (string * Z)) :=
  match fuel with
  | O => aret None
  | S fuel =>
    let! '(frame_type, payload) := read_frame in
    if bool_decide (frame_type = FRAME_DATA_CHUNK) then
      if bool_decide (length payload < 8) then athrow (Transfer "data chunk too short") else
      let chunk_data := drop 8 payload in
      on_files (λ f, file_write f temp_path chunk_data) ;;
      progress (Z.of_nat (length (data ++ chunk_data))) total ;;
      receive_loop fuel temp_path total (data ++ chunk_data)
    else if bool_decide (frame_type = FRAME_TRANSFER_COMPLETE) then
      if bool_decide (length payload < 32) then athrow (Transfer "transfer complete hash too short") else
      let received_hash := hex_string (take 32 payload) in
      let computed_hash := hex_string (sha256 data) in
      if bool_decide (received_hash ≠ computed_hash) then
        aignore (on_files (λ f, file_remove f temp_path)) ;;
        athrow (HashMismatch received_hash computed_hash)
      else aret (Some (computed_hash, Z.of_nat (length data)))
    else athrow (UnexpectedFrame frame_type)
  end.

Definition receive_file (fuel : nat) (output_dir : string) (accept : FileOffer → bool)
    : action Xfer Error (option TransferResult) :=
  let! '(frame_type, payload) := read_frame in
  if bool_decide (frame_type ≠ FRAME_FILE_OFFER) then athrow (UnexpectedFrame frame_type) else
  let! offer := alift (map_err (λ _, Json) (offer_from_slice payload)) in
  if negb (accept offer) then
    let! reject := alift (map_err (λ _, Json) (reason_to_vec "rejected by receiver")) in
    write_frame FRAME_FILE_REJECT reject ;;
    athrow (TransferRejected "rejected by receiver")
  else
  write_frame FRAME_FILE_ACCEPT [] ;;
  let temp_path := join output_dir ("." +:+ fo_name offer +:+ ".tmp") in
  let out_path := join output_dir (fo_name offer) in
  on_files (λ f, file_create f temp_path) ;;
  let! received := receive_loop fuel temp_path (fo_size offer) [] in
  match received with
  | None => aret None
  | Some (final_hash, bytes_received) =>
    on_files (λ f, file_flush f temp_path) ;;
    on_files (λ f, file_rename f temp_path out_path) ;;
    write_frame FRAME_ACK (to_be_bytes 8 bytes_received) ;;
    on_send ss_finish (λ _, Transfer "finish send stream") ;;
    aret (Some (mkResult (fo_name offer) bytes_received final_hash))
  end.
End transfer.

(** ** A healthy disk and a pipe *)

#[export] Instance pipe_stream : SendStream (list byte) := {| ss_finish w := (w, Ok ()) |}.

(** [read] with a buffer of [n] bytes until the end of the file. *)
Fixpoint chunks_of (fuel n : nat) (data : list byte) : list (list byte) :=
  match fuel, data with
  | S fuel, _ :: _ => take n data :: chunks_of fuel n (drop n data)
  | _, _ => []
  end.

#[export] Instance mem_files : Files (gmap string (list byte)) := {|
  metadata_len f p := match f !! p with Some d => Ok (Z.of_nat (length d)) | None => Err IoOther end;
  open_read f p := (f, match f !! p with
    | Some d => Ok (mkPass (chunks_of (length d) (Z.to_nat CHUNK_SIZE) d) None) | None => Err IoOther end);
  file_create f p := (<[p := []]> f, Ok ());
  file_write f p bs := match f !! p with Some d => (<[p := d ++ bs]> f, Ok ()) | None => (f, Err IoOther) end;
  file_flush f p := (f, Ok ());
  file_rename f p q := match f !! p with Some d => (<[q := d]> (delete p f), Ok ()) | None => (f, Err IoOther) end;
  file_remove f p := (delete p f, Ok ());
|}.

(** What the receiver relies on: the files by their names, no one else using
    the two it writes to. A call that fails may leave anything in the file it
    was made for, and leaves the others alone. *)
Definition only_changes (p : string) (m m' : gmap string (list byte)) : Prop := delete p m' = delete p m.

Class FilesLaws (F : Type) {FS : Files F} := {
  contents : F → gmap string (list byte);
  file_create_law f p f' r : file_create f p = (f', r) →
    match r with Ok _ => contents f' = <[p := []]> (contents f) | Err _ => only_changes p (contents f) (contents f') end;
  file_write_law f p bs d f' r : file_write f p bs = (f', r) → contents f !! p = Some d →
    match r with Ok _ => contents f' = <[p := d ++ bs]> (contents f) | Err _ => only_changes p (contents f) (contents f') end;
  file_flush_law f p f' r : file_flush f p = (f', r) →
    match r with Ok _ => contents f' = contents f | Err _ => only_changes p (contents f) (contents f') end;
  file_rename_law f p q d f' r : file_rename f p q = (f', r) → contents f !! p = Some d →
    match r with Ok _ => contents f' = <[q := d]> (delete p (contents f)) | Err _ => only_changes p (contents f) (contents f') end;
  file_remove_law f p f' r : file_remove f p = (f', r) → only_changes p (contents f) (contents f');
}.

#[export] Instance mem_files_laws : FilesLaws (gmap string (list byte)).
Proof.
  refine {| contents f := f |}; simpl; unfold only_changes.
  - by intros f p f' r [= <- <-].
  - intros f p bs d f' r H Hd. rewrite Hd in H. by injection H as <- <-.
  - by intros f p f' r [= <- <-].
  - intros f p q d f' r H Hd. rewrite Hd in H. by injection H as <- <-.
  - intros f p f' r [= <- <-]. by rewrite delete_delete_eq.
Defined.

Section frames.
Context {F : Type} {FS : Files F} {TO : TransferOps}.
Implicit Types x : Xfer (W := list byte) (R := list byte) (F := F).

(** The bytes of a frame. *)
Definition frame (t : byte) (p : list byte) : list byte := t :: to_be_bytes 4 (u32_wrap (Z.of_nat (length p))) ++ p.

Lemma write_frame_pipe t p x :
  write_frame t p x = (mkXfer (x_send x ++ frame t p) (x_recv x) (x_files x) (x_progress x), Ok ()).
Proof.
  unfold write_frame, abind, on_send, frame. destruct p as [|b p]; cbn; [done|]. by rewrite <-app_assoc.
Qed.

Lemma read_frame_pipe t p w rest f g :
  (Z.of_nat (length p) ≤ MAX_FRAME_PAYLOAD)%Z →
  read_frame (W := list byte) (F := F) (mkXfer w (frame t p ++ rest) f g) = (mkXfer w rest f g, Ok (t, p)).
Proof.
  intros Hp. unfold MAX_FRAME_PAYLOAD in Hp. assert (is_u32 (Z.of_nat (length p))) as Hu by (unfold is_u32, u32_max; lia).
  unfold read_frame, abind at 1, on_recv at 1, frame. cbn [x_recv x_send x_files x_progress read_exact pipe_read]. rewrite u32_wrap_small by done.
  set (hd := t :: to_be_bytes 4 (Z.of_nat (length p))). assert (length hd = 5) as Hh by (unfold hd; cbn [length]; by rewrite length_to_be_bytes).
  assert ((t :: to_be_bytes 4 (Z.of_nat (length p)) ++ p) ++ rest = hd ++ p ++ rest) as -> by (unfold hd; cbn [app]; by rewrite <-app_assoc).
  rewrite bool_decide_eq_false_2 by (rewrite length_app; lia). change (Z.to_nat 5) with 5. rewrite take_app_length', drop_app_length' by done. cbn [map_err].
  assert (u32_at 1 hd = Z.of_nat (length p)) as ->.
  { pose proof (u32_at_mid [t] [] (Z.of_nat (length p)) 1 eq_refl Hu) as H. by rewrite app_nil_r in H. }
  rewrite bool_decide_eq_false_2 by (unfold MAX_FRAME_PAYLOAD; lia). change (at_byte hd 0) with t.
  unfold abind, on_recv. cbn [x_recv x_send x_files x_progress read_exact pipe_read]. destruct p as [|b p].
  - done.
  - rewrite bool_decide_eq_true_2 by (cbn [length]; lia). cbn [x_recv x_send x_files x_progress].
    rewrite bool_decide_eq_false_2 by (rewrite length_app; lia). rewrite Nat2Z.id, take_app_length, drop_app_length. done.
Qed.

End frames.

(** ** Receiving from anyone *)

Section receiving.
Context {W F : Type} {SS : SendStream W} {FS : Files F} {FL : FilesLaws F} {TO : TransferOps}.
Implicit Types x : Xfer (W := W) (R := list byte) (F := F).

(** Whatever the stream holds, reading a frame touches nothing but the stream,
    and a frame that is returned is what was taken from it. *)
Lemma read_frame_any x :
  post read_frame x (λ x' r, x_send x' = x_send x ∧ x_files x' = x_files x ∧
    match r with Ok (t, p) => x_recv x = frame t p ++ x_recv x' | Err _ => True end).
Proof using Type.
  unfold read_frame. apply post_bind. unfold on_recv at 1, post at 1. cbn [read_exact pipe_read].
  case_bool_decide as H5; cbn [fst snd map_err]; [done|]. change (Z.to_nat 5) with 5.
  destruct (x_recv x) as [|t [|b1 [|b2 [|b3 [|b4 rc]]]]] eqn:E; [cbn [length] in H5; lia..|].
  set (len := u32_at 1 (take 5 (t :: b1 :: b2 :: b3 :: b4 :: rc))).
  assert (to_be_bytes 4 len = [b1; b2; b3; b4]) as Hlen by apply (to_from_be_bytes [b1; b2; b3; b4]).
  assert (is_u32 len) as Hu by (unfold is_u32, u32_max; pose proof (from_be_bytes_range [b1; b2; b3; b4]) as Hb; change (256 ^ Z.of_nat (length [b1; b2; b3; b4]))%Z with 4294967296%Z in Hb; change len with (from_be_bytes [b1; b2; b3; b4]); lia).
  assert (Hframe : ∀ p, Z.of_nat (length p) = len → t :: b1 :: b2 :: b3 :: b4 :: p = frame t p).
  { intros p Hp. unfold frame. by rewrite Hp, u32_wrap_small, Hlen. }
  case_bool_decide; [by apply post_throw|]. apply post_bind. case_bool_decide.
  - unfold on_recv, post at 1. cbn [x_recv read_exact pipe_read drop]. case_bool_decide as Hl; cbn [fst snd map_err]; [done|].
    asteps. split_and!; [done..|]. cbn [x_recv]. change (at_byte (take 5 _) 0) with t. rewrite <-Hframe by (rewrite length_take; lia).
    cbn [app]. by rewrite take_drop.
  - asteps. split_and!; [done..|]. cbn [x_recv drop]. change (at_byte (take 5 _) 0) with t. rewrite <-Hframe; [done|].
    unfold is_u32 in Hu. cbn [length]. lia.
Qed.

(** Writing a frame touches nothing but the stream. *)
Lemma write_frame_any t p x :
  post (write_frame t p) x (λ x' r, x_recv x' = x_recv x ∧ x_files x' = x_files x ∧
    match r with Ok _ => True | Err e => e = Transfer "write frame header" ∨ e = Transfer "write frame payload" end).
Proof using Type.
  unfold write_frame. apply post_bind. unfold on_send at 1, post at 1.
  destruct (write_all (x_send x) _) as [w [[]|e]]; cbn [fst snd map_err]; [|by eauto].
  case_bool_decide; [by apply post_ret|]. unfold on_send, post. cbn [x_send].
  destruct (write_all w p) as [w' [[]|e]]; cbn [fst snd map_err]; eauto.
Qed.

(** A call on the files, by what it does to their contents. *)
Lemma on_files_post {A} (m : F → F * result A IoError) x (Q : F → result A IoError → Prop) :
  (∀ f r, m (x_files x) = (f, r) → Q f r) →
  post (on_files m) x (λ x' r, x_send x' = x_send x ∧ x_recv x' = x_recv x ∧ ∃ r', r = map_err Net.Io r' ∧ Q (x_files x') r').
Proof using Type.
  intros HQ. unfold on_files, post. destruct (m (x_files x)) as [f r] eqn:E. cbn. split_and!; [done..|]. exists r. split; [done|]. by apply HQ.
Qed.

(** The data frames of a stream, each an offset of eight bytes and the data. *)
Definition chunk_frames (chunks : list (list byte * list byte)) : list byte :=
  concat ((λ c, frame FRAME_DATA_CHUNK (c.1 ++ c.2)) <$> chunks).

Lemma hex_string_inj a b : hex_string a = hex_string b → a = b.
Proof using Type. apply record_id_inj. Qed.

(** The loop takes data frames and the frame that completes the transfer off
    the stream; when it succeeds, the temporary file holds what it held and
    the data of those frames, and the announced hash is that of all of it. *)
Lemma receive_loop_spec fuel temp total data x :
  contents (x_files x) !! temp = Some data →
  post (receive_loop fuel temp total data) x (λ x' r,
    only_changes temp (contents (x_files x)) (contents (x_files x')) ∧
    (length (x_recv x) < fuel → r ≠ Ok None) ∧
    ∀ h n, r = Ok (Some (h, n)) → ∃ chunks hash, let data' := data ++ concat chunks.*2 in
      Forall (λ c, length c.1 = 8) chunks ∧ x_recv x = chunk_frames chunks ++ frame FRAME_TRANSFER_COMPLETE hash ++ x_recv x' ∧
      take 32 hash = sha256 data' ∧ contents (x_files x') !! temp = Some data' ∧ h = hex_string (sha256 data') ∧ n = Z.of_nat (length data')).
Proof using Type.
  unfold only_changes. revert data x. induction fuel as [|fuel IH]; intros data x Hx; cbn [receive_loop]; [apply post_ret; split_and!; [done|lia|done]|].
  apply post_bind. acall read_frame_any. intros x1 [[t payload]|e] (_ & Hf & Hl); [|by rewrite Hf].
  case_bool_decide as Ht.
  - subst t. case_bool_decide as H8; [apply post_throw; by rewrite Hf|]. apply post_bind. acall on_files_post.
    { intros f r Hw. rewrite Hf in Hw. exact (file_write_law _ _ _ data _ _ Hw Hx). }
    intros x2 r2 (_ & Hr2 & [[]|e] & -> & H2); cbn [map_err]; [|by split_and!].
    apply post_bind, post_modify. acall IH; [cbn [x_files]; rewrite H2; apply lookup_insert_eq|]. cbn [x_files x_recv].
    intros x' r (H1 & Hfin & Hok). rewrite H2, delete_insert_eq in H1. split_and!; [done| |].
    + intros Hlt. apply Hfin. rewrite Hr2. apply (f_equal length) in Hl. unfold frame in Hl. rewrite length_app in Hl. cbn [length] in Hl. lia.
    + intros h n Hr. destruct (Hok h n Hr) as (chunks & hash & H). exists ((take 8 payload, drop 8 payload) :: chunks), hash.
      cbv zeta in *. cbn [fmap list_fmap snd concat]. rewrite <-app_assoc in H. destruct H as (H8s & Hrecv & H). split_and!; [| |apply H..].
      * constructor; [cbn [fst]; rewrite length_take; lia|done].
      * change (chunk_frames (?c :: chunks)) with (frame FRAME_DATA_CHUNK (c.1 ++ c.2) ++ chunk_frames chunks).
        cbn [fst snd]. by rewrite take_drop, Hl, <-app_assoc, <-Hrecv, Hr2.
  - case_bool_decide as Ht'; [|apply post_throw; by rewrite Hf]. subst t. case_bool_decide; [apply post_throw; by rewrite Hf|]. case_bool_decide as Hh.
    + apply post_bind, post_ignore. acall on_files_post; [intros f r Hw; exact (file_remove_law _ _ _ _ Hw)|].
      intros x2 r2 (_ & _ & r' & _ & H2). apply post_throw. rewrite <-Hf. by split_and!.
    + apply post_ret. rewrite Hf. split_and!; [done|done|]. intros h n [= <- <-]. exists [], payload. cbv zeta. cbn [fmap list_fmap concat]. rewrite app_nil_r.
      split_and!; [done|done|by apply hex_string_inj|done..].
Qed.

(** A file has been stored: [accept] took the offer, the data of the chunks
    that followed is under the offered name, in their order and without their
    offsets, its hash is the announced one, and no temporary file is left. *)
Definition stored (dir : string) (accept : FileOffer → bool) x x' (offer : FileOffer) (data : list byte) : Prop :=
  ∃ js chunks hash,
    x_recv x = frame FRAME_FILE_OFFER js ++ chunk_frames chunks ++ frame FRAME_TRANSFER_COMPLETE hash ++ x_recv x' ∧
    offer_from_slice js = Ok offer ∧ accept offer = true ∧
    Forall (λ c, length c.1 = 8) chunks ∧ data = concat chunks.*2 ∧ take 32 hash = sha256 data ∧
    contents (x_files x') = <[join dir (fo_name offer) := data]>
      (delete (join dir ("." +:+ fo_name offer +:+ ".tmp")) (contents (x_files x))).

(** What the call then reports: the file, or that the acknowledgement failed. *)
Definition answered (offer : FileOffer) (data : list byte) (r : result (option TransferResult) Error) : Prop :=
  match r with
  | Ok res => res = Some (mkResult (fo_name offer) (Z.of_nat (length data)) (hex_string (sha256 data)))
  | Err e => e ∈ Transfer <$> ["write frame header"; "write frame payload"; "finish send stream"]
  end.

(** The call failed, and only the temporary file of some offer may differ. *)
Definition refused (dir : string) x x' (r : result (option TransferResult) Error) : Prop :=
  ∃ e name, r = Err e ∧ only_changes (join dir ("." +:+ name +:+ ".tmp")) (contents (x_files x)) (contents (x_files x')).

Lemma refused_untouched dir x x' e : x_files x' = x_files x → refused dir x x' (Err e).
Proof using Type. intros H. exists e, "". by rewrite H. Qed.

Lemma receive_file_spec fuel dir accept x :
  length (x_recv x) < fuel →
  post (receive_file fuel dir accept) x (λ x' r, refused dir x x' r ∨ ∃ offer data, stored dir accept x x' offer data ∧ answered offer data r).
Proof using Type.
  intros Hfuel. unfold receive_file. apply post_bind. acall read_frame_any.
  intros x1 [[t payload]|e] (_ & Hf & Hl); [|left; by apply refused_untouched; rewrite Hf].
  case_bool_decide as Ht; [apply post_throw; left; by apply refused_untouched; rewrite Hf|]. subst t.
  apply post_bind, post_lift. destruct (offer_from_slice payload) as [offer|] eqn:Eo; cbn [map_err]; [|left; by apply refused_untouched; rewrite Hf].
  destruct (accept offer) eqn:Ea; cbn [negb].
  2:{ apply post_bind, post_lift. destruct (reason_to_vec _) as [rj|]; cbn [map_err]; [|left; by apply refused_untouched; rewrite Hf].
      apply post_bind. acall write_frame_any.
      intros x2 [[]|e] (_ & H2 & _); [apply post_throw|]; left; apply refused_untouched; by rewrite H2, Hf. }
  apply post_bind. acall write_frame_any. intros x2 [[]|e] (Hr2 & H2 & _); [|left; apply refused_untouched; by rewrite H2, Hf].
  rewrite Hf in H2. apply (f_equal length) in Hl as Hlen. unfold frame in Hlen. rewrite length_app in Hlen. cbn [length] in Hlen.
  assert (Hrefused : ∀ x' e, only_changes (join dir ("." +:+ fo_name offer +:+ ".tmp")) (contents (x_files x2)) (contents (x_files x')) → refused dir x x' (Err e)).
  { intros x' e H. exists e, (fo_name offer). by rewrite <-H2. }
  cbv zeta. set (temp := join dir ("." +:+ fo_name offer +:+ ".tmp")) in *. set (out := join dir (fo_name offer)) in *.
  apply post_bind. acall on_files_post; [intros f r; apply file_create_law|].
  intros x3 r3 (_ & Hr3 & [[]|e] & -> & H3); cbn [map_err]; [|left; by apply Hrefused].
  apply post_bind. acall (receive_loop_spec fuel temp (fo_size offer) []); [rewrite H3; apply lookup_insert_eq|].
  intros x4 r4 (Ho & Hfin & Hok). unfold only_changes in Ho. rewrite H3, delete_insert_eq in Ho.
  destruct r4 as [[[h n]|]|e]; [| |left; by apply Hrefused].
  2:{ exfalso. apply Hfin; [|done]. rewrite Hr3, Hr2. lia. }
  destruct (Hok h n eq_refl) as (chunks & hash & H8 & Hrecv & Hh & Hd & -> & ->). clear Hok Hfin. cbn [app] in *.
  apply post_bind. acall on_files_post; [intros f r; apply file_flush_law|].
  intros x5 r5 (_ & Hr5 & [[]|e] & -> & H5); cbn [map_err]; [|left; apply Hrefused; unfold only_changes in *; by rewrite H5].
  apply post_bind. acall on_files_post; [intros f r Hr; rewrite <-H5 in Hd; exact (file_rename_law _ _ _ _ _ _ Hr Hd)|].
  intros x6 r6 (_ & Hr6 & [[]|e] & -> & H6); cbn [map_err]; [|left; apply Hrefused; unfold only_changes in *; by rewrite H6, H5].
  assert (Hstored : ∀ x', x_recv x' = x_recv x6 → x_files x' = x_files x6 → stored dir accept x x' offer (concat chunks.*2)).
  { intros x' Hrx Hfx. exists payload, chunks, hash. split_and!; try done.
    - by rewrite Hl, Hrx, Hr6, Hr5, <-Hrecv, Hr3, Hr2.
    - by rewrite Hfx, H6, H5, Ho, H2. }
  apply post_bind. acall write_frame_any. intros x7 [[]|e] (Hr7 & H7 & He).
  2:{ right. eexists _, _. split; [by apply Hstored|]. destruct He as [-> | ->]; simpl; set_solver. }
  apply post_bind. unfold on_send, post. destruct (ss_finish (x_send x7)) as [w [[]|e]]; cbn [fst snd map_err].
  - apply post_ret. right. eexists _, _. by split; [by apply Hstored|].
  - right. eexists _, _. split; [by apply Hstored|]. simpl. set_solver.
Qed.

(** C37: Whatever bytes a peer sends, [receive_file] ends once the stream does,
    in one of two ways. Either it fails and no file but its own temporary one
    has changed; or the stream held an offer that was accepted, data chunks and
    their hash, the data of the chunks is stored under the offered name, and
    the call reports that name, its length and that hash, or an error when the
    acknowledgement could not be sent. *)
Theorem receive_safe fuel dir accept x x' r :
  receive_file fuel dir accept x = (x', r) → length (x_recv x) < fuel →
  refused dir x x' r ∨ ∃ offer data, stored dir accept x x' offer data ∧ answered offer data r.
Proof using Type. intros Hrun Hfuel. exact (post_elim _ _ _ _ _ Hrun (receive_file_spec fuel dir accept x Hfuel)). Qed.
End receiving.

(** ** A transfer between two peers *)

Class TransferLaws {TO : TransferOps} := {
  length_sha256 bs : length (sha256 bs) = 32;
  offer_roundtrip o js : offer_to_vec o = Ok js → offer_from_slice js = Ok o;
}.

Section completing.
Context {F : Type} {FS : Files F} {TO : TransferOps} {TL : TransferLaws}.

(** The data frames of a file sent from [offset]. *)
Fixpoint data_frames (offset : Z) (chunks : list (list byte)) : list byte :=
  match chunks with
  | [] => []
  | chunk :: chunks => frame FRAME_DATA_CHUNK (to_be_bytes 8 offset ++ chunk) ++ data_frames (offset + Z.of_nat (length chunk)) chunks
  end.

Lemma send_chunks_pipe total offset chunks (x : Xfer (W := list byte) (R := list byte) (F := F)) :
  post (send_chunks total offset chunks) x (λ x' r, r = Ok () ∧ x_send x' = x_send x ++ data_frames offset chunks ∧
    x_recv x' = x_recv x ∧ x_files x' = x_files x).
Proof using Type.
  revert offset x. induction chunks as [|chunk chunks IH]; intros offset x; cbn [send_chunks data_frames].
  - apply post_ret. by rewrite app_nil_r.
  - apply post_bind. eapply post_eq; [apply write_frame_pipe|]. cbv beta iota. apply post_bind, post_modify.
    eapply post_mono; [apply IH|]. cbn [x_send x_recv x_files]. cbv beta. intros x' r (-> & -> & -> & ->). by rewrite <-app_assoc.
Qed.

Lemma receive_loop_chunks chunks offset temp total data rest fuel (x : Xfer (W := list byte) (R := list byte) (F := gmap string (list byte))) :
  Forall (λ c, (Z.of_nat (length c) ≤ CHUNK_SIZE)%Z) chunks → length chunks < fuel → x_files x !! temp = Some data →
  x_recv x = data_frames offset chunks ++ frame FRAME_TRANSFER_COMPLETE (sha256 (data ++ concat chunks)) ++ rest →
  post (receive_loop fuel temp total data) x (λ x' r,
    r = Ok (Some (hex_string (sha256 (data ++ concat chunks)), Z.of_nat (length (data ++ concat chunks)))) ∧
    x_send x' = x_send x ∧ x_files x' = <[temp := data ++ concat chunks]> (x_files x)).
Proof using TL.
  clear FS F. intros Hc. revert offset data fuel x. induction Hc as [|c chunks Hc _ IH]; intros offset data [|fuel] x Hf Hx Hr; [simpl in Hf; lia..| |simpl in Hf; lia|].
  - destruct x as [w rc f g]. cbn [x_recv x_files data_frames concat] in *. rewrite app_nil_r in *. subst rc. cbn [receive_loop app].
    apply post_bind. eapply post_eq; [apply read_frame_pipe; rewrite length_sha256; done|]. cbv beta iota.
    rewrite (bool_decide_eq_false_2 (FRAME_TRANSFER_COMPLETE = _)) by done. rewrite (bool_decide_eq_true_2 (FRAME_TRANSFER_COMPLETE = _)) by done.
    rewrite length_sha256, (bool_decide_eq_false_2 (32 < 32)) by lia. rewrite take_ge by (by rewrite length_sha256).
    rewrite bool_decide_eq_false_2 by naive_solver. apply post_ret. cbn [x_send x_files]. split_and!; [done..|]. by rewrite insert_id.
  - destruct x as [w rc f g]. cbn [x_recv x_files data_frames concat] in *. rewrite <-app_assoc in Hr. subst rc. cbn [receive_loop].
    unfold CHUNK_SIZE in Hc. apply post_bind.
    eapply post_eq; [apply read_frame_pipe; rewrite length_app, length_to_be_bytes; unfold MAX_FRAME_PAYLOAD; lia|]. cbv beta iota.
    rewrite (bool_decide_eq_true_2 (FRAME_DATA_CHUNK = _)) by done. rewrite (bool_decide_eq_false_2 (_ < 8)) by (rewrite length_app, length_to_be_bytes; lia).
    rewrite drop_app_length' by (by rewrite length_to_be_bytes). apply post_bind. unfold on_files, post at 1.
    cbn [file_write mem_files x_files]. rewrite Hx. cbn [map_err fst snd]. apply post_bind, post_modify. cbn [x_send x_recv x_files x_progress].
    eapply post_mono; [eapply (IH (offset + Z.of_nat (length c))%Z); cbn [x_files x_recv]; [simpl in Hf; lia|apply lookup_insert_eq|by rewrite <-app_assoc]|].
    cbv beta. cbn [x_send x_files]. intros x' r (-> & -> & ->). rewrite <-app_assoc. split_and!; [done..|]. by rewrite insert_insert_eq.
Qed.

(** What the two sides write. *)
Definition sender_bytes (js : list byte) (chunks : list (list byte)) : list byte :=
  frame FRAME_FILE_OFFER js ++ data_frames 0 chunks ++ frame FRAME_TRANSFER_COMPLETE (sha256 (concat chunks)).
Definition receiver_bytes (data : list byte) : list byte :=
  frame FRAME_FILE_ACCEPT [] ++ frame FRAME_ACK (to_be_bytes 8 (Z.of_nat (length data))).

Lemma send_completes path name f f1 f2 size chunks chunks' js :
  metadata_len f path = Ok size → open_read f path = (f1, Ok (mkPass chunks None)) → open_read f1 path = (f2, Ok (mkPass chunks' None)) →
  concat chunks' = concat chunks →
  let data := concat chunks in
  let offer := mkOffer (default "unknown" name) size (hex_string (sha256 data)) in
  offer_to_vec offer = Ok js →
  ∃ xs, send_file path name (mkXfer [] (receiver_bytes data) f []) = (xs, Ok (mkResult (fo_name offer) size (fo_sha256 offer))) ∧
    x_send xs = sender_bytes js chunks'.
Proof using Type.
  intros Hmeta Hop1 Hop2 Heq data offer Hjs.
  apply post_exists. unfold send_file. apply post_bind. unfold post at 1. cbn [x_files fst snd]. rewrite Hmeta. cbn [map_err].
  apply post_bind. unfold on_files at 1, post at 1. cbn [x_files]. rewrite Hop1. cbn [fst snd map_err x_send x_recv x_progress].
  apply post_bind. unfold end_pass. cbn [p_error]. apply post_ret. cbn [p_chunks].
  apply post_bind, post_lift. fold data. fold offer. rewrite Hjs. cbn [map_err].
  apply post_bind. eapply post_eq; [apply write_frame_pipe|]. cbv beta iota. cbn [x_send x_recv x_files x_progress].
  apply post_bind. eapply post_eq; [unfold receiver_bytes; apply read_frame_pipe; done|]. cbv beta iota.
  rewrite (bool_decide_eq_true_2 (FRAME_FILE_ACCEPT = _)) by done. asteps.
  unfold on_files at 1, post at 1. cbn [x_files]. rewrite Hop2. cbn [fst snd map_err x_send x_recv x_progress].
  apply post_bind. eapply post_mono; [apply send_chunks_pipe|]. cbn [x_send x_recv x_files p_chunks]. cbv beta. intros x1 r (-> & Hse & Hre & _).
  apply post_bind. unfold end_pass. cbn [p_error]. apply post_ret.
  apply post_bind. eapply post_eq; [apply write_frame_pipe|]. cbv beta iota. rewrite Hse, Hre.
  apply post_bind. eapply post_eq; [rewrite <-(app_nil_r (frame FRAME_ACK _)); apply read_frame_pipe; by rewrite length_to_be_bytes|]. cbv beta iota.
  rewrite bool_decide_eq_false_2 by naive_solver. asteps. unfold on_send, post at 1. cbn [ss_finish pipe_stream map_err fst snd x_send]. asteps.
  cbn [x_send app]. split; [done|]. unfold sender_bytes. rewrite Heq. fold data. by rewrite <-!app_assoc.
Qed.

Lemma receive_completes offer js chunks dir accept disk fuel :
  offer_to_vec offer = Ok js → (Z.of_nat (length js) ≤ MAX_FRAME_PAYLOAD)%Z → accept offer = true → length chunks < fuel →
  Forall (λ c, (Z.of_nat (length c) ≤ CHUNK_SIZE)%Z) chunks →
  let data := concat chunks in
  let temp := join dir ("." +:+ fo_name offer +:+ ".tmp") in let out := join dir (fo_name offer) in
  ∃ xr, receive_file fuel dir accept (mkXfer [] (sender_bytes js chunks) disk []) =
    (xr, Ok (Some (mkResult (fo_name offer) (Z.of_nat (length data)) (hex_string (sha256 data))))) ∧
    x_send xr = receiver_bytes data ∧ x_files xr = <[out := data]> (delete temp disk).
Proof using TL.
  clear FS F. intros Hjs Hlen Hacc Hfuel Hch data temp out.
  apply post_exists. unfold receive_file. apply post_bind. eapply post_eq; [unfold sender_bytes; apply read_frame_pipe; done|]. cbv beta iota.
  rewrite bool_decide_eq_false_2 by naive_solver. apply post_bind, post_lift. rewrite (offer_roundtrip _ _ Hjs). cbn [map_err].
  rewrite Hacc. cbn [negb]. apply post_bind. eapply post_eq; [apply write_frame_pipe|]. cbv beta iota. cbn [x_send x_recv x_files x_progress app].
  fold temp out. apply post_bind. unfold on_files at 1, post at 1. cbn [file_create mem_files map_err fst snd x_send x_recv x_files x_progress].
  apply post_bind. eapply post_mono; [eapply (receive_loop_chunks chunks 0 temp (fo_size offer) [] []);
    [done|done|apply lookup_insert_eq|cbn [x_recv app]; by rewrite app_nil_r]|].
  cbv beta. cbn [app x_send x_files]. fold data. intros x1 r (-> & Hse & Hfi). rewrite insert_insert_eq in Hfi.
  apply post_bind. unfold on_files at 1, post at 1. cbn [file_flush mem_files map_err fst snd x_send x_recv x_files x_progress].
  apply post_bind. unfold on_files at 1, post at 1. cbn [file_rename mem_files x_files]. rewrite Hfi, lookup_insert_eq. cbn [map_err fst snd x_send x_recv x_files x_progress].
  apply post_bind. eapply post_eq; [apply write_frame_pipe|]. cbv beta iota.
  apply post_bind. unfold on_send, post at 1. cbn [ss_finish pipe_stream map_err fst snd]. apply post_ret. cbn [x_send x_files].
  rewrite Hse, delete_insert_eq. by split_and!.
Qed.

(** A file that is accepted arrives: sender and receiver, each reading what
    the other writes, both end with success, and the receiver's disk holds the
    sender's bytes under the offered name and no temporary file. *)
Theorem transfer_completes path name f f1 f2 size chunks chunks' js dir accept disk fuel :
  metadata_len f path = Ok size → open_read f path = (f1, Ok (mkPass chunks None)) → open_read f1 path = (f2, Ok (mkPass chunks' None)) →
  concat chunks' = concat chunks → Forall (λ c, (Z.of_nat (length c) ≤ CHUNK_SIZE)%Z) chunks' →
  let data := concat chunks in
  let offer := mkOffer (default "unknown" name) size (hex_string (sha256 data)) in
  offer_to_vec offer = Ok js → (Z.of_nat (length js) ≤ MAX_FRAME_PAYLOAD)%Z → accept offer = true → length chunks' < fuel →
  let temp := join dir ("." +:+ fo_name offer +:+ ".tmp") in let out := join dir (fo_name offer) in
  ∃ to_receiver to_sender xs xr,
    send_file path name (mkXfer [] to_sender f []) = (xs, Ok (mkResult (fo_name offer) size (fo_sha256 offer))) ∧
    receive_file fuel dir accept (mkXfer [] to_receiver disk []) =
      (xr, Ok (Some (mkResult (fo_name offer) (Z.of_nat (length data)) (fo_sha256 offer)))) ∧
    x_send xs = to_receiver ∧ x_send xr = to_sender ∧ x_files xr = <[out := data]> (delete temp disk).
Proof using TL.
  intros Hmeta Hop1 Hop2 Heq Hch data offer Hjs Hlen Hacc Hfuel temp out.
  destruct (send_completes path name f f1 f2 size chunks chunks' js Hmeta Hop1 Hop2 Heq Hjs) as (xs & Hs & Hxs).
  destruct (receive_completes offer js chunks' dir accept disk fuel Hjs Hlen Hacc Hfuel Hch) as (xr & Hr & Hxr & Hf).
  rewrite Heq in Hr, Hxr, Hf. by exists (sender_bytes js chunks'), (receiver_bytes data), xs, xr.
Qed.
End completing.

(** ** Examples *)

(** Stand-ins for the hash and for JSON: fields with their lengths. *)
#[export] Instance toy_transfer : TransferOps := {|
  sha256 bs := to_be_bytes 32 (from_be_bytes bs * 257 + Z.of_nat (length bs));
  offer_to_vec o :=
    if bool_decide (Z.of_nat (str_len (fo_name o)) ≤ u32_max ∧ 0 ≤ fo_size o ≤ u64_max)%Z
    then Ok (to_be_bytes 4 (Z.of_nat (str_len (fo_name o))) ++ as_bytes (fo_name o) ++ to_be_bytes 8 (fo_size o) ++ as_bytes (fo_sha256 o))
    else Err ();
  offer_from_slice bs :=
    let n := Z.to_nat (u32_at 0 bs) in
    Ok (mkOffer (String.string_of_list_byte (slice 4 (4 + n) bs)) (from_be_bytes (slice (4 + n) (4 + n + 8) bs))
      (String.string_of_list_byte (drop (4 + n + 8) bs)));
  reason_to_vec s := Ok (as_bytes s);
  reason_from_slice bs := Ok (String.string_of_list_byte bs) |}.

#[export] Instance toy_transfer_laws : TransferLaws.
Proof.
  split; [intros; apply length_to_be_bytes|]. intros [n s h] js. cbn [offer_to_vec offer_from_slice toy_transfer fo_name fo_size fo_sha256]. case_bool_decide as Hb; [|done]. intros Hjs%(inj Ok). subst js. destruct Hb as [Hn Hs]. cbv zeta.
  assert (is_u32 (Z.of_nat (str_len n))) as Hu by (unfold is_u32; lia).
  pose proof (u32_at_mid [] (as_bytes n ++ to_be_bytes 8 s ++ as_bytes h) _ 0 eq_refl Hu) as Hlen. cbn [app] in Hlen. rewrite Hlen, Nat2Z.id.
  unfold str_len. rewrite (slice_between (to_be_bytes 4 _)) by (done || by rewrite length_to_be_bytes).
  rewrite (app_assoc (to_be_bytes 4 _)), slice_between by (rewrite ?length_app, ?length_to_be_bytes; done).
  rewrite (app_assoc (_ ++ _)), drop_app_length' by (by rewrite !length_app, !length_to_be_bytes).
  rewrite from_to_be_8 by done. do 2 f_equal; apply String.string_of_list_byte_of_string.
Qed.

Lemma transfer_completes_witness :
  ∃ to_receiver to_sender xs xr,
    send_file "/home/a" (Some "a") (mkXfer [] to_sender ({[ "/home/a" := [x01; x02] ]} : gmap string (list byte)) []) = (xs, Ok (mkResult "a" 2 (hex_string (sha256 [x01; x02])))) ∧
    receive_file 9 "/dl" (λ _, true) (mkXfer [] to_receiver ∅ []) = (xr, Ok (Some (mkResult "a" 2 (hex_string (sha256 [x01; x02]))))) ∧
    x_send xs = to_receiver ∧ x_send xr = to_sender ∧ x_files xr = <["/dl/a" := [x01; x02]]> (delete "/dl/.a.tmp" ∅).
Proof.
  apply (transfer_completes "/home/a" (Some "a") ({[ "/home/a" := [x01; x02] ]} : gmap string (list byte)) {[ "/home/a" := [x01; x02] ]} {[ "/home/a" := [x01; x02] ]} 2 [[x01; x02]] [[x01; x02]]
    (to_be_bytes 4 1 ++ as_bytes "a" ++ to_be_bytes 8 2 ++ as_bytes (hex_string (sha256 [x01; x02]))) "/dl" (λ _, true) ∅ 9).
  - vm_compute. reflexivity.
  - vm_compute. reflexivity.
  - vm_compute. reflexivity.
  - reflexivity.
  - repeat constructor. vm_compute. discriminate.
  - vm_compute. reflexivity.
  - vm_compute. discriminate.
  - reflexivity.
  - simpl. lia.
Defined.

(** A peer that offers one thing and sends another. *)
Definition ex_offer : FileOffer := mkOffer "a" 1 "00".
Definition ex_liar (name : string) (sha : list byte) : list byte :=
  frame FRAME_FILE_OFFER (match offer_to_vec (mkOffer name 1 "00") with Ok js => js | Err _ => [] end)
  ++ frame FRAME_DATA_CHUNK (to_be_bytes 8 77 ++ [x05; x06; x07]) ++ frame FRAME_TRANSFER_COMPLETE sha.

(** A stream that takes so many writes and then fails. *)
#[local] Instance failing_stream : SendStream nat := {|
  ss_write := {| write_all n bs := match n with O => (O, Err IoOther) | S n => (n, Ok ()) end; flush n := (n, Ok ()) |};
  ss_finish n := (n, Ok ()) |}.

(** A wrong hash: nothing is stored. An acknowledgement that cannot be sent:
    the file is stored, and the call fails. *)
Lemma receive_safe_witness :
  (let x := mkXfer [] (ex_liar "a" (replicate 32 x00)) (∅ : gmap string (list byte)) [] in
   let '(x', r) := receive_file 99 "/dl" (λ _, true) x in refused "/dl" x x' r ∧ x_files x' = ∅) ∧
  (let x := mkXfer 1 (ex_liar "a" (sha256 [x05; x06; x07])) (∅ : gmap string (list byte)) [] in
   let '(x', r) := receive_file 99 "/dl" (λ _, true) x in
   r = Err (Transfer "write frame header") ∧ x_files x' !! "/dl/a" = Some [x05; x06; x07] ∧
   ∃ offer data, stored "/dl" (λ _, true) x x' offer data).
Proof.
  split.
  - intros x. destruct (receive_file 99 "/dl" (λ _, true) x) as [x' r] eqn:E.
    assert (x_files (receive_file 99 "/dl" (λ _, true) x).1 = ∅) as Hf by (vm_compute; reflexivity). rewrite E in Hf. simpl in Hf.
    destruct (receive_safe 99 "/dl" (λ _, true) x x' r E) as [H|(offer & data & (? & ? & ? & _ & _ & _ & _ & _ & _ & H) & _)].
    + apply Nat.ltb_lt. vm_compute. reflexivity.
    + split; [exact H|exact Hf].
    + exfalso. cbn [contents mem_files_laws] in H. rewrite Hf in H. symmetry in H. by apply insert_non_empty in H.
  - intros x. destruct (receive_file 99 "/dl" (λ _, true) x) as [x' r] eqn:E.
    assert ((receive_file 99 "/dl" (λ _, true) x).2 = Err (Transfer "write frame header")) as Hr by (vm_compute; reflexivity).
    assert (x_files (receive_file 99 "/dl" (λ _, true) x).1 !! "/dl/a" = Some [x05; x06; x07]) as Hf by (vm_compute; reflexivity).
    rewrite E in Hr, Hf. cbn [fst snd] in Hr, Hf. split_and!; [exact Hr|exact Hf|].
    destruct (receive_safe 99 "/dl" (λ _, true) x x' r E) as [(e & name & _ & H)|(offer & data & Hs & _)].
    + apply Nat.ltb_lt. vm_compute. reflexivity.
    + exfalso. apply (f_equal (.!! "/dl/a")) in H. cbn [contents mem_files_laws] in H. rewrite lookup_delete_ne in H by (intros [=]).
      rewrite Hf in H. unfold x in H. cbn [x_files] in H. rewrite delete_empty in H. discriminate H.
    + exists offer, data. exact Hs.
Defined.

(** Neither the offered size nor the offered hash, on which the receiver
    decided, is compared with what arrives, and the offset of a chunk is
    ignored. *)
Theorem offer_unchecked :
  let x := mkXfer (W := list byte) [] (ex_liar "a" (sha256 [x05; x06; x07])) (∅ : gmap string (list byte)) [] in
  ∃ x', receive_file 99 "/dl" (λ o, bool_decide (fo_size o ≤ 1)%Z && bool_decide (fo_sha256 o = "00")) x =
    (x', Ok (Some (mkResult "a" 3 (hex_string (sha256 [x05; x06; x07]))))) ∧ x_files x' !! "/dl/a" = Some [x05; x06; x07].
Proof. eexists. split; vm_compute; reflexivity. Qed.

(** The offered name is joined to the directory as it is: an absolute name
    leaves the directory, and so does its temporary file. *)
Theorem absolute_name_escapes :
  let x := mkXfer (W := list byte) [] (ex_liar "/../etc/a" (sha256 [x05; x06; x07])) (∅ : gmap string (list byte)) [] in
  ∃ x' res, receive_file 99 "/dl" (λ _, true) x = (x', Ok (Some res)) ∧
    x_files x' !! "/../etc/a" = Some [x05; x06; x07] ∧ join "/dl" ("." +:+ "/../etc/a" +:+ ".tmp") = "/dl/./../etc/a.tmp".
Proof. do 2 eexists. split; [vm_compute; reflexivity|]. split; vm_compute; reflexivity. Qed.
