(* ===== verification/Signaling.v ===== *)
(** * Rendezvous through the broker

    [crates/mqp2p/src/signaling.rs]: peer records with leases, presence
    events, and the offers, answers and syncs two peers exchange. The MQTT
    client, the clocks and the UUID generator are operations of [MqttClient]
    on a world of their own; the client records every publication it asks for,
    and the two tables its clones share. The text of JSON is read and printed
    by [JsonText] (values) and [JsonSyntax] (derived types, which see duplicate
    members); the text of socket addresses by [AddrText]. The locks of the
    tables cannot be poisoned: nothing panics while one is held. Waiting 50 ms
    before a request and the log lines have no counterpart. *)
From S2P Require Import Prelude SyncState Json P2pStore Net.

Definition DEFAULT_TIMEOUT_MS : Z := 5000.
Definition PEER_LEASE_SECS : Z := 15.
Definition MIN_LEASE_SECS : Z := 2.
Definition CLIENT_ID_PREFIX : string := "mqp2p-".
Definition PRESENCE_TOPIC : string := "$DB/_presence/#".
Definition MAX_TRACKED_CLIENTS : nat := 4096.

Definition heartbeat_interval_secs (lease_secs : Z) : Z := Z.max (lease_secs / 3) 1.

Definition client_id_for (name : string) : string := CLIENT_ID_PREFIX +:+ name.

(** ** Derived deserializers

    What a derived [Deserialize] sees of a document, whether it is a [Value]
    or text: objects as their members in order, and arrays, which also stand
    for structures. *)
Class Node (N : Type) := {
  node_null : N → bool;
  node_str : N → option string;
  node_u64 : N → option Z;
  node_seq : N → option (list N);
  node_entries : N → option (list (string * N));
}.

#[global] Instance Value_node : Node Value := {|
  node_null := is_null;
  node_str := as_str;
  node_u64 := as_u64;
  node_seq := λ v, match v with Array l => Some l | _ => None end;
  node_entries := λ v, match v with Object m => Some (map_to_list m) | _ => None end;
|}.

(** A document as it is written. *)
Inductive Syntax :=
| SNull
| SBool (b : bool)
| SNum (n : Number)
| SStr (s : string)
| SArray (l : list Syntax)
| SObject (members : list (string * Syntax)).

#[global] Instance Syntax_node : Node Syntax := {|
  node_null := λ v, match v with SNull => true | _ => false end;
  node_str := λ v, match v with SStr s => Some s | _ => None end;
  node_u64 := λ v, match v with SNum (PosInt n) => Some n | _ => None end;
  node_seq := λ v, match v with SArray l => Some l | _ => None end;
  node_entries := λ v, match v with SObject l => Some l | _ => None end;
|}.

Class JsonSyntax := {
  print : Syntax → result (list byte) ();
  parse : list byte → option Syntax;
}.

Class JsonSyntaxLaws {JS : JsonSyntax} := {
  parse_print v bs : print v = Ok bs → parse bs = Some v;
}.

(** [SocketAddr]'s [Display] and [FromStr]. *)
Class AddrText := {
  addr_to_string : SocketAddr → string;
  addr_parse : string → option SocketAddr;
}.

Class AddrTextLaws {AT : AddrText} := {
  addr_parse_to_string a : addr_ok a → addr_parse (addr_to_string a) = Some a;
}.

Section derived.
Context {N : Type} {NN : Node N}.

(** The fields of a structure, each given at most once; unknown members are
    skipped, and an array lists the fields in order. *)
Definition struct_fields (names : list string) (n : N) : option (list (option N)) :=
  match node_entries n with
  | Some es =>
    mapM (λ name,
      match filter (λ e, e.1 = name) es with
      | [] => Some None
      | [e] => Some (Some e.2)
      | _ => None
      end) names
  | None =>
    l ← node_seq n;
    if bool_decide (length l ≤ length names)
    then Some ((Some <$> l) ++ replicate (length names - length l) None) else None
  end.

Definition required {T} (decode : N → option T) (f : option N) : option T := f ≫= decode.

(** An [Option] field with a default. *)
Definition optional {T} (decode : N → option T) (f : option N) : option (option T) :=
  match f with
  | None => Some None
  | Some n => if node_null n then Some None else Some <$> decode n
  end.

Definition decode_u16 (n : N) : option Z :=
  v ← node_u64 n; if bool_decide (v < 65536)%Z then Some v else None.
End derived.

(** ** Peer records *)

Record PeerInfo := mkPeerInfo {
  pi_id : string;
  pi_name : string;
  pi_status : string;
  pi_quic_port : Z;
  pi_cert_fingerprint : string;
  pi_public_addr : option string;
  pi_expires_at : option Z;
  pi_lease_secs : option Z;
}.

Definition decode_peer_info {N} {NN : Node N} (n : N) : option PeerInfo :=
  fs ← struct_fields ["id"; "name"; "status"; "quic_port"; "cert_fingerprint"; "public_addr"; "_expires_at"; "lease_secs"] n;
  match fs with
  | [id; name; status; port; fp; addr; expires; lease] =>
    id ← required node_str id;
    name ← required node_str name;
    status ← required node_str status;
    port ← required decode_u16 port;
    fp ← required node_str fp;
    addr ← optional node_str addr;
    expires ← optional node_u64 expires;
    lease ← optional node_u64 lease;
    Some (mkPeerInfo id name status port fp addr expires lease)
  | _ => None
  end.

(** ** Presence *)

Record PresenceEvent := mkPresence { pe_client_id : string; pe_event : string; pe_ts : Z }.

Definition decode_presence_event {N} {NN : Node N} (n : N) : option PresenceEvent :=
  fs ← struct_fields ["client_id"; "event"; "ts"] n;
  match fs with
  | [client_id; event; ts] =>
    client_id ← required node_str client_id;
    event ← required node_str event;
    ts ← required node_u64 ts;
    Some (mkPresence client_id event ts)
  | _ => None
  end.

Record PresenceMark := mkMark { mark_ts : Z; mark_online : bool }.

Abbreviation PresenceTable := (gmap string PresenceMark).

(** [s.starts_with(prefix)]. *)
Definition starts_with (prefix s : string) : bool := String.prefix prefix s.

(** The meaning of an event's name. *)
Definition event_online (event : string) : option bool :=
  if bool_decide (event = "connect") then Some true
  else if bool_decide (event = "disconnect") then Some false else None.

Definition apply_presence (table : PresenceTable) (event : PresenceEvent) : PresenceTable :=
  if negb (starts_with CLIENT_ID_PREFIX (pe_client_id event)) then table else
  match event_online (pe_event event) with
  | None => table
  | Some online =>
    let insert := <[pe_client_id event := mkMark (pe_ts event) online]> table in
    match table !! pe_client_id event with
    | Some mark => if bool_decide (pe_ts event < mark_ts mark)%Z then table else insert
    | None => if bool_decide (MAX_TRACKED_CLIENTS ≤ size table) then table else insert
    end
  end.

Definition departed (table : PresenceTable) (name : string) : bool :=
  match table !! client_id_for name with Some mark => negb (mark_online mark) | None => false end.

(** ** Leases *)

Definition peer_is_live (expires_at : option Z) (now : Z) : bool :=
  match expires_at with Some e => bool_decide (now < e)%Z | None => true end.

(** [Instant]s are nanoseconds of a monotonic clock. *)
Record LeaseSighting := mkSighting { ls_expires_at : Z; ls_seen_at : Z }.

Abbreviation LeaseTable := (gmap string LeaseSighting).

Definition from_secs (s : Z) : Z := s * 1000000000.

(** [now.duration_since(seen_at)], which saturates at zero. *)
Definition duration_since (now seen_at : Z) : Z := Z.max 0 (now - seen_at).

Definition lease_is_live (table : LeaseTable) (peer : PeerInfo) (now unix_now : Z) : LeaseTable * bool :=
  match pi_expires_at peer, pi_lease_secs peer with
  | Some expires_at, Some lease_secs =>
    let go seen_at :=
      (<[pi_id peer := mkSighting expires_at seen_at]> table,
       bool_decide (duration_since now seen_at < from_secs lease_secs)%Z) in
    match table !! pi_id peer with
    | Some sighting => if bool_decide (ls_expires_at sighting = expires_at) then go (ls_seen_at sighting) else go now
    | None =>
      if bool_decide (MAX_TRACKED_CLIENTS ≤ size table)
      then (table, peer_is_live (pi_expires_at peer) unix_now) else go now
    end
  | _, _ => (table, peer_is_live (pi_expires_at peer) unix_now)
  end.

(** The filter of [list_peers], whose closure updates the lease table. *)
Fixpoint live_records (presence : PresenceTable) (now unix_now : Z) (leases : LeaseTable) (records : list PeerInfo)
    : LeaseTable * list PeerInfo :=
  match records with
  | [] => (leases, [])
  | p :: records =>
    let (leases, live) := lease_is_live leases p now unix_now in
    let (leases, peers) := live_records presence now unix_now leases records in
    (leases, if live && negb (departed presence (pi_name p)) then p :: peers else peers)
  end.

(** [leases.retain(..)], then the filter. *)
Definition poll_records (presence : PresenceTable) (now unix_now : Z) (leases : LeaseTable) (records : list PeerInfo)
    : LeaseTable * list PeerInfo :=
  live_records presence now unix_now (filter (λ e, e.1 ∈ pi_id <$> records) leases) records.

(** The records in the answer to a list request. *)
Definition list_items (data : Value) : list Value :=
  match data with
  | Array items => items
  | Object obj => match obj !! "items" with Some (Array items) => items | _ => [data] end
  | Null => []
  | other => [other]
  end.

(** ** Offers, answers and syncs *)

Inductive CandidateKind := Host | Srflx | Relay | Unknown.

#[global] Instance CandidateKind_eq_dec : EqDecision CandidateKind.
Proof. solve_decision. Defined.

Definition is_connectable (k : CandidateKind) : bool := match k with Host | Srflx | Relay => true | Unknown => false end.
Definition is_direct (k : CandidateKind) : bool := match k with Host | Srflx => true | _ => false end.

Record Candidate := mkCandidate { c_addr : SocketAddr; c_kind : CandidateKind }.

Record ConnectionOffer := mkOffer {
  o_from : string;
  o_session_id : string;
  o_cert_fingerprint : string;
  o_candidates : list Candidate;
}.

Record ConnectionSync := mkSync { y_from : string; y_session_id : string; y_rtt_ms : Z }.

Definition kind_name (k : CandidateKind) : string :=
  match k with Host => "Host" | Srflx => "Srflx" | Relay => "Relay" | Unknown => "Unknown" end.

Definition kind_of_name (s : string) : CandidateKind :=
  if bool_decide (s = "Host") then Host else
  if bool_decide (s = "Srflx") then Srflx else
  if bool_decide (s = "Relay") then Relay else Unknown.

Section codecs.
Context {AT : AddrText}.

Definition encode_candidate (c : Candidate) : Syntax :=
  SObject [("addr", SStr (addr_to_string (c_addr c))); ("kind", SStr (kind_name (c_kind c)))].

Definition encode_offer (o : ConnectionOffer) : Syntax :=
  SObject [("from", SStr (o_from o)); ("session_id", SStr (o_session_id o));
           ("cert_fingerprint", SStr (o_cert_fingerprint o)); ("candidates", SArray (encode_candidate <$> o_candidates o))].

Definition encode_sync (y : ConnectionSync) : Syntax :=
  SObject [("from", SStr (y_from y)); ("session_id", SStr (y_session_id y)); ("rtt_ms", SNum (PosInt (y_rtt_ms y)))].

Context {N : Type} {NN : Node N}.

(** A unit variant is a string, or an object from its name to [null]. *)
Definition decode_kind (n : N) : option CandidateKind :=
  match node_str n with
  | Some s => Some (kind_of_name s)
  | None =>
    match node_entries n with
    | Some [(s, v)] => if node_null v then Some (kind_of_name s) else None
    | _ => None
    end
  end.

Definition decode_candidate (n : N) : option Candidate :=
  fs ← struct_fields ["addr"; "kind"] n;
  match fs with
  | [addr; kind] =>
    addr ← required (λ n, node_str n ≫= addr_parse) addr;
    kind ← match kind with None => Some Srflx | Some n => decode_kind n end;
    Some (mkCandidate addr kind)
  | _ => None
  end.

Definition decode_offer (n : N) : option ConnectionOffer :=
  fs ← struct_fields ["from"; "session_id"; "cert_fingerprint"; "candidates"] n;
  match fs with
  | [from; session_id; fp; candidates] =>
    from ← required node_str from;
    session_id ← required node_str session_id;
    fp ← required node_str fp;
    candidates ← required (λ n, node_seq n ≫= mapM decode_candidate) candidates;
    Some (mkOffer from session_id fp candidates)
  | _ => None
  end.

Definition decode_sync (n : N) : option ConnectionSync :=
  fs ← struct_fields ["from"; "session_id"; "rtt_ms"] n;
  match fs with
  | [from; session_id; rtt_ms] =>
    from ← required node_str from;
    session_id ← required node_str session_id;
    rtt_ms ← required node_u64 rtt_ms;
    Some (mkSync from session_id rtt_ms)
  | _ => None
  end.
End codecs.

(** ** The client *)

(** How a wait on a subscription ends when nothing usable arrived. *)
Inductive WaitEnd := TimedOut | Disconnected.

(** [mq_receive topic timeout] is what the broker delivers on a subscription
    before the receiver resumes, and how the wait ends otherwise. *)
Class MqttClient (W : Type) := {
  mq_connect : string → W → W * result () ();
  mq_disconnect : W → W * result () ();
  mq_subscribe : string → W → W * result () ();
  mq_unsubscribe : string → W → W * result () ();
  mq_publish : string → list byte → option string → W → W * result () ();
  mq_receive : string → option Z → W → W * (list (list byte) * WaitEnd);
  new_uuid : W → W * string;
  unix_now_secs : W → W * Z;
  instant_now : W → W * Z;
}.

Record SignalingClient (W : Type) := mkSignaling {
  sc_client : W;
  sc_sent : list (string * list byte);
  sc_presence : PresenceTable;
  sc_leases : LeaseTable;
}.
Arguments mkSignaling {W}.
Arguments sc_client {W}.
Arguments sc_sent {W}.
Arguments sc_presence {W}.
Arguments sc_leases {W}.

(** A bounded channel behind a subscription: messages that do not parse are
    dropped, and so is what arrives while it is full. *)
Definition try_send {T} (capacity : nat) (q : list T) (x : option T) : list T :=
  match x with
  | Some x => if bool_decide (length q < capacity) then q ++ [x] else q
  | None => q
  end.

Definition CHANNEL_CAPACITY : nat := 16.

Module SignalingClient.
Section ops.
Context {W : Type} {MC : MqttClient W} {JT : JsonText} {JS : JsonSyntax} {AT : AddrText}.
Abbreviation Client := (SignalingClient W).

Definition new (client : W) : Client := mkSignaling client [] ∅ ∅.

Definition set_client (w : W) (s : Client) : Client := mkSignaling w (sc_sent s) (sc_presence s) (sc_leases s).
Definition set_leases (l : LeaseTable) (s : Client) : Client := mkSignaling (sc_client s) (sc_sent s) (sc_presence s) l.
Definition set_presence (p : PresenceTable) (s : Client) : Client := mkSignaling (sc_client s) (sc_sent s) p (sc_leases s).
Definition push_sent (topic : string) (payload : list byte) (s : Client) : Client :=
  mkSignaling (sc_client s) (sc_sent s ++ [(topic, payload)]) (sc_presence s) (sc_leases s).

(** A call of the MQTT client, and one whose error becomes [e]. *)
Definition world {A} (f : W → W * A) : action Client Error A :=
  λ s, let '(w, a) := f (sc_client s) in (set_client w s, Ok a).
Definition fallible {A} (f : W → W * result A ()) (e : Error) : action Client Error A :=
  λ s, let '(w, r) := f (sc_client s) in (set_client w s, map_err (λ _, e) r).

Definition connect (broker_addr : string) : action Client Error () :=
  fallible (mq_connect broker_addr) (Signaling "MQTT connect failed").

Definition disconnect : action Client Error () := fallible mq_disconnect (Signaling "MQTT disconnect failed").

Definition track_presence : action Client Error () :=
  fallible (mq_subscribe PRESENCE_TOPIC) (Signaling "subscribe presence failed").

(** The handler of the presence subscription. *)
Definition on_presence (payload : list byte) (s : Client) : Client :=
  match parse payload ≫= decode_presence_event with
  | Some event => set_presence (apply_presence (sc_presence s) event) s
  | None => s
  end.

Definition publish (topic : string) (payload : list byte) (response_topic : option string) (e : Error) : action Client Error () :=
  amodify (push_sent topic payload) ;;
  fallible (mq_publish topic payload response_topic) e.

(** A failed publication returns before the subscription is removed. *)
Definition publish_and_wait (topic : string) (payload : list byte) : action Client Error Value :=
  let! uuid := world new_uuid in
  let response_topic := "mqp2p/responses/" +:+ uuid in
  fallible (mq_subscribe response_topic) (Signaling "subscribe failed") ;;
  publish topic payload (Some response_topic) (Signaling "publish failed") ;;
  let! got := world (mq_receive response_topic (Some DEFAULT_TIMEOUT_MS)) in
  let result :=
    match foldl (try_send 1) [] (Some <$> got.1), got.2 with
    | data :: _, _ => ok_or (of_text data) Net.Json
    | [], Disconnected => Err (Signaling "channel recv error")
    | [], TimedOut => Err (Signaling ("timeout waiting for response on " +:+ topic))
    end in
  try! _ := fallible (mq_unsubscribe response_topic) (Signaling "") in
  alift result.

(** [v.get(k)] *)
Definition value_get (v : Value) (k : string) : option Value := as_object v ≫= (.!! k).

Definition check_response (response : Value) : result () Error :=
  let status := default "unknown" (value_get response "status" ≫= as_str) in
  if bool_decide (status = "ok") then Ok () else
  let msg := default "unknown error" (value_get response "message" ≫= as_str) in
  Err (Signaling ("DB error: " +:+ msg)).

(** [serde_json::to_vec(&payload)?], the request, and the check of the answer. *)
Definition request (topic : string) (payload : Value) : action Client Error () :=
  let! bytes := alift (map_err (λ _, Net.Json) (to_text payload)) in
  let! response := publish_and_wait topic bytes in
  alift (check_response response).

Definition peer_record (id name : string) (quic_port : Z) (cert_fingerprint : string) (public_addr : option string)
    (expires_at lease_secs : Z) : Record_ :=
  let payload : Record_ :=
    list_to_map [("id", Str id); ("name", Str name); ("status", Str "online"); ("quic_port", Num (PosInt quic_port));
      ("cert_fingerprint", Str cert_fingerprint); ("_expires_at", Num (PosInt expires_at)); ("lease_secs", Num (PosInt lease_secs))] in
  match public_addr with Some addr => <["public_addr" := Str addr]> payload | None => payload end.

Definition register_peer (id name : string) (quic_port : Z) (cert_fingerprint : string) (public_addr : option string)
    (lease_secs : Z) : action Client Error () :=
  let! now := world unix_now_secs in
  request "$DB/peers/create"
    (Object (peer_record id name quic_port cert_fingerprint public_addr (u64_wrap (now + lease_secs)) lease_secs)).

Definition update_topic (peer_id : string) : string := "$DB/peers/" +:+ peer_id +:+ "/update".

Definition lease_fields (expires_at lease_secs : Z) : Record_ :=
  list_to_map [("_expires_at", Num (PosInt expires_at)); ("lease_secs", Num (PosInt lease_secs))].

Definition renew_lease (peer_id : string) (lease_secs : Z) : action Client Error () :=
  let! now := world unix_now_secs in
  request (update_topic peer_id) (Object (lease_fields (u64_wrap (now + lease_secs)) lease_secs)).

Definition ensure_registered (id name : string) (quic_port : Z) (cert_fingerprint : string) (public_addr : option string)
    (lease_secs : Z) : action Client Error () :=
  try! renewed := renew_lease id lease_secs in
  match renewed with
  | Ok _ => aret ()
  | Err _ => register_peer id name quic_port cert_fingerprint public_addr lease_secs
  end.

Definition update_peer_addr (peer_id : string) (public_addr : SocketAddr) : action Client Error () :=
  request (update_topic peer_id) (Object {[ "public_addr" := Str (addr_to_string public_addr) ]}).

Definition list_peers : action Client Error (list PeerInfo) :=
  let! response := publish_and_wait "$DB/peers/list" (as_bytes "{}") in
  alift (check_response response) ;;
  let data := default Null (value_get response "data") in
  let items := list_items data in
  let! unix_now := world unix_now_secs in
  let! now := world instant_now in
  let records := omap decode_peer_info items in
  λ s, let (leases, peers) := poll_records (sc_presence s) now unix_now (sc_leases s) records in
       (set_leases leases s, Ok peers).

Definition deregister_peer (peer_id : string) : action Client Error () :=
  let! response := publish_and_wait ("$DB/peers/" +:+ peer_id +:+ "/delete") [] in
  alift (check_response response).

(** The topic of a kind of message to a peer. *)
Definition p2p_topic (peer_id what : string) : string := "p2p/" +:+ peer_id +:+ "/" +:+ what.

Definition send_offer (target_peer_id : string) (offer : ConnectionOffer) : action Client Error () :=
  let! payload := alift (map_err (λ _, Net.Json) (print (encode_offer offer))) in
  publish (p2p_topic target_peer_id "offer") payload None (Signaling "send offer failed").

Definition send_answer (initiator_peer_id : string) (answer : ConnectionOffer) : action Client Error () :=
  let! payload := alift (map_err (λ _, Net.Json) (print (encode_offer answer))) in
  publish (p2p_topic initiator_peer_id "answer") payload None (Signaling "send answer failed").

Definition send_sync (target_peer_id : string) (sync : ConnectionSync) : action Client Error () :=
  let! payload := alift (map_err (λ _, Net.Json) (print (encode_sync sync))) in
  publish (p2p_topic target_peer_id "sync") payload None (Signaling "send sync failed").

(** The receivers that subscriptions return: the topic and the decoder of the
    handler. *)
Record Receiver (T : Type) := mkReceiver { rx_topic : string; rx_decode : list byte → option T }.
Arguments mkReceiver {T}.
Arguments rx_topic {T}.
Arguments rx_decode {T}.

Definition subscribe_offers (my_peer_id : string) : action Client Error (Receiver ConnectionOffer) :=
  let topic := p2p_topic my_peer_id "offer" in
  fallible (mq_subscribe topic) (Signaling "subscribe offers failed") ;;
  aret (mkReceiver topic (λ payload, parse payload ≫= decode_offer)).

Definition subscribe_answers (my_peer_id : string) : action Client Error (Receiver ConnectionOffer) :=
  let topic := p2p_topic my_peer_id "answer" in
  fallible (mq_subscribe topic) (Signaling "subscribe answers failed") ;;
  aret (mkReceiver topic (λ payload, parse payload ≫= decode_offer)).

Definition subscribe_sync (my_peer_id : string) : action Client Error (Receiver ConnectionSync) :=
  let topic := p2p_topic my_peer_id "sync" in
  fallible (mq_subscribe topic) (Signaling "subscribe sync failed") ;;
  aret (mkReceiver topic (λ payload, parse payload ≫= decode_sync)).

(** [rx.recv_async()] under a timeout: the first message in the channel. *)
Definition recv_async {T} (rx : Receiver T) (timeout : option Z) : action Client Error (result T WaitEnd) :=
  let! got := world (mq_receive (rx_topic rx) timeout) in
  aret (match foldl (try_send CHANNEL_CAPACITY) [] (rx_decode rx <$> got.1) with
        | x :: _ => Ok x
        | [] => Err got.2
        end).
End ops.
Arguments mkReceiver {T}.
Arguments rx_topic {T}.
Arguments rx_decode {T}.
Arguments Receiver : clear implicits.
End SignalingClient.

(** ** What the presence table knows *)

(** An event the table takes in, and the mark it leaves. *)
Definition tracked (e : PresenceEvent) : Prop :=
  starts_with CLIENT_ID_PREFIX (pe_client_id e) = true ∧ is_Some (event_online (pe_event e)).

#[global] Instance tracked_dec e : Decision (tracked e).
Proof. apply _. Defined.

(** The newest of [c]'s events, and the last to arrive of those. *)
Definition newest (c : string) (es : list PresenceEvent) (e : PresenceEvent) : Prop :=
  ∃ i, es !! i = Some e ∧ pe_client_id e = c ∧ tracked e ∧
    ∀ j e', es !! j = Some e' → pe_client_id e' = c → tracked e' →
      (pe_ts e' ≤ pe_ts e)%Z ∧ (i < j → (pe_ts e' < pe_ts e)%Z).

Definition tracked_clients (es : list PresenceEvent) : gset string :=
  list_to_set (pe_client_id <$> filter tracked es).

Definition presence_of (es : list PresenceEvent) : PresenceTable := foldl apply_presence ∅ es.

Lemma apply_presence_size t e : size t ≤ MAX_TRACKED_CLIENTS → size (apply_presence t e) ≤ MAX_TRACKED_CLIENTS.
Proof.
  intros Ht. unfold apply_presence. destruct (negb _); [done|]. destruct (event_online _); [|done].
  destruct (t !! _) as [m|] eqn:El; case_bool_decide; try done.
  - by rewrite map_size_insert_Some by eauto.
  - rewrite map_size_insert_None by done. lia.
Qed.

Lemma presence_size es : size (presence_of es) ≤ MAX_TRACKED_CLIENTS.
Proof.
  unfold presence_of. assert (size (∅ : PresenceTable) ≤ MAX_TRACKED_CLIENTS) as H by (rewrite map_size_empty; lia).
  revert H. generalize (∅ : PresenceTable). induction es as [|e es IH]; intros t Ht; simpl; [done|].
  apply IH, apply_presence_size, Ht.
Qed.

Lemma apply_presence_untracked t e : ¬ tracked e → apply_presence t e = t.
Proof.
  unfold tracked, apply_presence. intros H. destruct (starts_with _ _); [|done]. simpl.
  destruct (event_online _) eqn:E; [|done]. exfalso. naive_solver.
Qed.

Definition mark_of (e : PresenceEvent) : PresenceMark :=
  mkMark (pe_ts e) (default false (event_online (pe_event e))).

(** A tracked event that the table has room for. *)
Lemma apply_presence_tracked t e :
  tracked e → (t !! pe_client_id e = None → size t < MAX_TRACKED_CLIENTS) →
  apply_presence t e =
    match t !! pe_client_id e with
    | Some m => if bool_decide (pe_ts e < mark_ts m)%Z then t else <[pe_client_id e := mark_of e]> t
    | None => <[pe_client_id e := mark_of e]> t
    end.
Proof.
  intros [H1 [b Hb]] Hroom. unfold apply_presence, mark_of. rewrite H1, Hb. simpl.
  destruct (t !! pe_client_id e) as [m|]; [done|].
  rewrite (bool_decide_eq_false_2 (_ ≤ _)) by (specialize (Hroom eq_refl); lia). done.
Qed.

Lemma newest_unique c es e e' : newest c es e → newest c es e' → e = e'.
Proof.
  intros (i & Hi & Hc & Ht & H) (i' & Hi' & Hc' & Ht' & H').
  destruct (H _ _ Hi' Hc' Ht') as [? Hlt]. destruct (H' _ _ Hi Hc Ht) as [? Hlt'].
  destruct (lt_eq_lt_dec i i') as [[?|Heq]|?]; [specialize (Hlt ltac:(done)); lia|subst; congruence|specialize (Hlt' ltac:(done)); lia].
Qed.

(** An event that does not concern [c], or is older than [c]'s newest. *)
Lemma newest_keep c es e x :
  newest c es x → (tracked e → pe_client_id e = c → pe_ts e < pe_ts x)%Z → newest c (es ++ [e]) x.
Proof.
  intros (i & Hi & Hc & Ht & H) He. exists i. split_and!; [by apply lookup_app_l_Some|done..|].
  intros j e' [Hj|[Hl Hj]]%lookup_app_Some; [by apply H|].
  apply list_lookup_singleton_Some in Hj as [Hj <-]. intros Hc' Ht'. specialize (He Ht' Hc').
  apply lookup_lt_Some in Hi. lia.
Qed.

Lemma newest_last c es e :
  tracked e → pe_client_id e = c → Forall (λ x, tracked x → pe_client_id x = c → pe_ts x ≤ pe_ts e)%Z es →
  newest c (es ++ [e]) e.
Proof.
  intros Ht Hc Hall. exists (length es). split_and!; [by apply list_lookup_middle|done..|].
  intros j e' Hj Hc' Ht'. apply lookup_app_Some in Hj as [Hj|[Hl Hj]].
  - pose proof (lookup_lt_Some _ _ _ Hj). split; [|lia]. rewrite Forall_lookup in Hall. by eapply Hall.
  - apply list_lookup_singleton_Some in Hj as [Hj <-]. lia.
Qed.

Lemma tracked_clients_snoc es e :
  tracked_clients (es ++ [e]) = tracked_clients es ∪ (if decide (tracked e) then {[pe_client_id e]} else ∅).
Proof.
  unfold tracked_clients. rewrite filter_app, fmap_app, list_to_set_app_L. f_equal.
  rewrite filter_cons. case_decide; simpl; set_solver.
Qed.

Lemma elem_of_tracked_clients c es :
  c ∈ tracked_clients es ↔ ∃ e, e ∈ es ∧ tracked e ∧ pe_client_id e = c.
Proof.
  unfold tracked_clients. rewrite elem_of_list_to_set, list_elem_of_fmap.
  setoid_rewrite list_elem_of_filter. naive_solver.
Qed.

(** The table holds the newest event of each client, while it has room. *)
Definition presence_exact (es : list PresenceEvent) (t : PresenceTable) : Prop :=
  dom t = tracked_clients es ∧ ∀ c m, t !! c = Some m → ∃ e, newest c es e ∧ m = mark_of e.

Lemma presence_step es t e :
  presence_exact es t → size (tracked_clients (es ++ [e])) ≤ MAX_TRACKED_CLIENTS →
  presence_exact (es ++ [e]) (apply_presence t e).
Proof.
  intros [Hd Hm] Hsize. unfold presence_exact. rewrite tracked_clients_snoc in *. case_decide as Ht; last first.
  { rewrite apply_presence_untracked by done. split; [set_solver|]. intros c m (x & Hx & ->)%Hm. exists x.
    split; [|done]. by apply newest_keep. }
  rewrite apply_presence_tracked; [|done|]; last first.
  { intros Hn. rewrite <-size_dom, Hd. eapply Nat.lt_le_trans; [|exact Hsize]. apply subset_size.
    apply not_elem_of_dom in Hn. set_solver. }
  assert (∀ c m, pe_client_id e ≠ c → t !! c = Some m → ∃ x, newest c (es ++ [e]) x ∧ m = mark_of x) as Hother.
  { intros c m Hc (x & Hx & ->)%Hm. exists x. split; [|done]. by apply newest_keep. }
  assert (Forall (λ x, tracked x → pe_client_id x = pe_client_id e → pe_ts x ≤ pe_ts e)%Z es →
          dom (<[pe_client_id e := mark_of e]> t) = tracked_clients es ∪ {[pe_client_id e]} ∧
          ∀ c m, <[pe_client_id e := mark_of e]> t !! c = Some m → ∃ x, newest c (es ++ [e]) x ∧ m = mark_of x) as Hins.
  { intros Hall. split; [rewrite dom_insert_L; set_solver|]. intros c m [[<- <-]|[Hc Hl]]%lookup_insert_Some; [|eauto].
    exists e. split; [|done]. by apply newest_last. }
  destruct (t !! pe_client_id e) as [m|] eqn:El.
  - destruct (Hm _ _ El) as (x & Hx & ->). simpl. case_bool_decide as Hold.
    + assert (pe_client_id e ∈ dom t) by (by apply elem_of_dom_2 in El). split; [set_solver|].
      intros c m Hl. destruct (Hm _ _ Hl) as (y & Hy & ->). exists y. split; [|done]. apply newest_keep; [done|].
      intros _ <-. by rewrite (newest_unique _ _ _ _ Hy Hx).
    + apply Hins, Forall_lookup. intros j y Hj Hty Hcy. destruct Hx as (i & _ & _ & _ & H).
      destruct (H _ _ Hj Hcy Hty). lia.
  - apply Hins, Forall_forall. intros y Hy Hty Hcy. exfalso. apply not_elem_of_dom in El. apply El. rewrite Hd.
    apply elem_of_tracked_clients. eauto.
Qed.

Lemma presence_of_exact es : size (tracked_clients es) ≤ MAX_TRACKED_CLIENTS → presence_exact es (presence_of es).
Proof.
  induction es as [|e es IH] using rev_ind; intros Hsize.
  { split; [set_solver|]. intros c m H. unfold presence_of in H. simpl in H. by rewrite lookup_empty in H. }
  unfold presence_of. rewrite foldl_app. simpl. apply presence_step; [|done]. apply IH.
  etrans; [apply subseteq_size|exact Hsize]. rewrite tracked_clients_snoc. set_solver.
Qed.

(** presence. Whatever events arrive, in any order, at most 4096 clients
    are tracked; and while no more than that many ever appear, a peer counts as
    departed exactly when the newest event of its client, the last to arrive
    among equals, is a disconnect. *)
Theorem presence_tracks es name :
  size (tracked_clients es) ≤ MAX_TRACKED_CLIENTS →
  size (presence_of es) ≤ MAX_TRACKED_CLIENTS ∧
  (departed (presence_of es) name = true ↔
   ∃ e, newest (client_id_for name) es e ∧ pe_event e = "disconnect").
Proof.
  intros Hsize. split; [apply presence_size|]. destruct (presence_of_exact es Hsize) as [Hd Hm].
  unfold departed. split.
  - destruct (_ !! _) as [m|] eqn:El; [|done]. intros Hon. destruct (Hm _ _ El) as (e & He & ->). exists e.
    split; [done|]. destruct He as (_ & _ & _ & [_ [b Hb]] & _). unfold mark_of in Hon. rewrite Hb in Hon. simpl in Hon.
    unfold event_online in Hb. repeat case_bool_decide; naive_solver.
  - intros (e & He & Hev). assert (client_id_for name ∈ dom (presence_of es)) as Hin.
    { rewrite Hd. apply elem_of_tracked_clients. destruct He as (i & Hi & ? & ? & _). apply list_elem_of_lookup_2 in Hi. eauto. }
    apply elem_of_dom in Hin as [m Hl]. rewrite Hl. destruct (Hm _ _ Hl) as (e' & He' & ->).
    rewrite (newest_unique _ _ _ _ He' He). unfold mark_of. by rewrite Hev.
Qed.

(** ** What the lease table knows *)

(** One listing: the presence table and the clocks at the time, and the
    records the broker returned. *)
Record Listing := mkListing {
  li_presence : PresenceTable;
  li_now : Z;
  li_unix_now : Z;
  li_records : list PeerInfo;
}.

Definition observe (leases : LeaseTable) (l : Listing) : LeaseTable * list PeerInfo :=
  poll_records (li_presence l) (li_now l) (li_unix_now l) leases (li_records l).

(** The table after a history of listings, the latest first. *)
Fixpoint leases_after (h : list Listing) : LeaseTable :=
  match h with [] => ∅ | l :: h => (observe (leases_after h) l).1 end.

(** The broker lists each record once, and no more than the table can hold. *)
Definition well_listed (l : Listing) : Prop :=
  NoDup (pi_id <$> li_records l) ∧ length (li_records l) ≤ MAX_TRACKED_CLIENTS.

Definition leased (r : PeerInfo) (e lease : Z) : Prop := pi_expires_at r = Some e ∧ pi_lease_secs r = Some lease.

(** When the lease with expiry [e] was first seen, according to the table. *)
Definition seen_at (t : LeaseTable) (id : string) (e now : Z) : Z :=
  match t !! id with Some s => if bool_decide (ls_expires_at s = e) then ls_seen_at s else now | None => now end.

(** What one record does to a table that has room for it. *)
Lemma lease_is_live_leased t r e lease now unix_now :
  leased r e lease → (t !! pi_id r = None → size t < MAX_TRACKED_CLIENTS) →
  lease_is_live t r now unix_now =
    (<[pi_id r := mkSighting e (seen_at t (pi_id r) e now)]> t,
     bool_decide (duration_since now (seen_at t (pi_id r) e now) < from_secs lease)%Z).
Proof.
  intros [He Hl] Hroom. unfold lease_is_live, seen_at. rewrite He, Hl.
  destruct (t !! pi_id r) as [s|]; [by case_bool_decide|].
  rewrite bool_decide_eq_false_2 by (specialize (Hroom eq_refl); lia). done.
Qed.

Lemma lease_is_live_dom t r now unix_now t' b :
  lease_is_live t r now unix_now = (t', b) → dom t' ⊆ {[pi_id r]} ∪ dom t ∧ ∀ id, id ≠ pi_id r → t' !! id = t !! id.
Proof.
  unfold lease_is_live. intros H.
  repeat match type of H with context [match ?x with _ => _ end] => destruct x end; inv H;
    try (split; [set_solver|done]);
    (split; [rewrite dom_insert_L; set_solver|intros id Hid; by rewrite lookup_insert_ne]).
Qed.

Section listing.
Context (presence : PresenceTable) (now unix_now : Z).

Lemma live_records_sublist t rs : (live_records presence now unix_now t rs).2 `sublist_of` rs.
Proof.
  revert t. induction rs as [|r rs IH]; intros t; simpl; [constructor|].
  destruct (lease_is_live _ _ _ _) as [t' b]. specialize (IH t'). destruct (live_records _ _ _ t' rs) as [t2 ps]. simpl in *.
  destruct (b && _); by constructor.
Qed.

Lemma live_records_other t rs id :
  id ∉ pi_id <$> rs → (live_records presence now unix_now t rs).1 !! id = t !! id.
Proof.
  revert t. induction rs as [|r rs IH]; intros t Hid; simpl; [done|].
  destruct (lease_is_live _ _ _ _) as [t' b] eqn:E. apply not_elem_of_cons in Hid as [Hne Hid].
  specialize (IH t' Hid). destruct (live_records _ _ _ t' rs) as [t2 ps]. simpl in *. rewrite IH.
  by apply (lease_is_live_dom _ _ _ _ _ _ E).
Qed.

(** One leased record among distinct ones: when it was seen is kept, and it is
    reported while its lease runs from then and it has not departed. *)
Lemma live_records_leased t rs r e lease (ids : gset string) :
  NoDup (pi_id <$> rs) → r ∈ rs → leased r e lease →
  dom t ⊆ ids → list_to_set (pi_id <$> rs) ⊆ ids → size ids ≤ MAX_TRACKED_CLIENTS →
  let seen := seen_at t (pi_id r) e now in
  (live_records presence now unix_now t rs).1 !! pi_id r = Some (mkSighting e seen) ∧
  (r ∈ (live_records presence now unix_now t rs).2 ↔
   (duration_since now seen < from_secs lease)%Z ∧ departed presence (pi_name r) = false).
Proof.
  intros Hnd Hr Hl Hdom Hids Hsize. revert t Hdom. induction rs as [|q rs IH]; intros t Hdom; [by apply elem_of_nil in Hr|].
  apply NoDup_cons in Hnd as [Hq Hnd]. simpl. destruct (lease_is_live t q now unix_now) as [t' b] eqn:E.
  destruct (live_records_sublist t' rs, live_records_other t' rs) as [Hsub Hoth].
  apply elem_of_cons in Hr as [<-|Hr].
  - rewrite (lease_is_live_leased _ _ _ _ _ _ Hl) in E; last first.
    { intros Hn. eapply Nat.lt_le_trans; [|exact Hsize]. rewrite <-size_dom. apply subset_size.
      apply not_elem_of_dom in Hn. set_solver. }
    inv E. specialize (Hoth (pi_id r) Hq). destruct (live_records _ _ _ _ rs) as [t2 ps]. simpl in *. rewrite Hoth, lookup_insert_eq.
    split; [done|]. assert (r ∉ ps) as Hps.
    { intros Hin. apply Hq. apply list_elem_of_fmap. exists r. split; [done|]. by eapply elem_of_sublist. }
    case_bool_decide; destruct (departed _ _); simpl; rewrite ?elem_of_cons; naive_solver.
  - apply lease_is_live_dom in E as [Hd Ho]. assert (pi_id r ≠ pi_id q) as Hne.
    { intros Heq. apply Hq. rewrite <-Heq. by apply list_elem_of_fmap_2. }
    specialize (IH Hnd Hr ltac:(clear -Hids; set_solver) t' ltac:(clear -Hd Hdom Hids; set_solver)). unfold seen_at in *. rewrite (Ho _ Hne) in IH.
    destruct (live_records _ _ _ _ rs) as [t2 ps]. simpl in *. destruct IH as [IH1 IH2]. split; [done|].
    rewrite <-IH2. destruct (b && _); [|done]. rewrite elem_of_cons. naive_solver.
Qed.

(** A record without a lease leaves the table alone. *)
Lemma live_records_unleased t rs r :
  NoDup (pi_id <$> rs) → r ∈ rs → (∀ e lease, ¬ leased r e lease) → (live_records presence now unix_now t rs).1 !! pi_id r = t !! pi_id r.
Proof.
  intros Hnd Hr Hl. revert t. induction rs as [|q rs IH]; intros t; [by apply elem_of_nil in Hr|].
  apply NoDup_cons in Hnd as [Hq Hnd]. simpl. destruct (lease_is_live t q now unix_now) as [t' b] eqn:E.
  apply elem_of_cons in Hr as [<-|Hr].
  - pose proof (live_records_other t' rs _ Hq) as Ho. destruct (live_records _ _ _ t' rs) as [t2 ps]. simpl in *. rewrite Ho.
    unfold lease_is_live in E. destruct (pi_expires_at r) as [e|] eqn:He; [|by injection E as <- _].
    destruct (pi_lease_secs r) as [lease|] eqn:Hs; [|by injection E as <- _]. by destruct (Hl e lease).
  - specialize (IH Hnd Hr t'). destruct (live_records _ _ _ t' rs) as [t2 ps]. simpl in *. rewrite IH.
    apply (lease_is_live_dom _ _ _ _ _ _ E). intros Heq. apply Hq. rewrite <-Heq. by apply list_elem_of_fmap_2.
Qed.
End listing.

(** [l] lists the record of [id] with a lease that expires at [e]. *)
Definition lists (l : Listing) (id : string) (e : Z) : Prop :=
  ∃ r lease, r ∈ li_records l ∧ pi_id r = id ∧ leased r e lease.

(** The listing that came before a run of listings with expiry [e]: there was
    none, it lacked the record, or the record had another lease. *)
Definition lease_changed (id : string) (e : Z) (h : list Listing) : Prop :=
  match h with
  | [] => True
  | l :: _ => id ∉ pi_id <$> li_records l ∨ ∃ e', e' ≠ e ∧ lists l id e'
  end.

Lemma observe_unlisted t l id : id ∉ pi_id <$> li_records l → (observe t l).1 !! id = None.
Proof.
  intros Hid. unfold observe, poll_records. rewrite live_records_other by done.
  apply map_lookup_filter_None. right. naive_solver.
Qed.

(** A listing of a leased record, whatever the table held before. *)
Lemma observe_leased t l r e lease :
  well_listed l → r ∈ li_records l → leased r e lease →
  let seen := seen_at t (pi_id r) e (li_now l) in
  (observe t l).1 !! pi_id r = Some (mkSighting e seen) ∧
  (r ∈ (observe t l).2 ↔
   (duration_since (li_now l) seen < from_secs lease)%Z ∧ departed (li_presence l) (pi_name r) = false).
Proof.
  intros [Hnd Hlen] Hr Hl. unfold observe, poll_records.
  pose proof (live_records_leased (li_presence l) (li_now l) (li_unix_now l)
    (filter (λ e, e.1 ∈ pi_id <$> li_records l) t) (li_records l) r e lease (list_to_set (pi_id <$> li_records l)) Hnd Hr Hl) as H.
  assert (seen_at (filter (λ e, e.1 ∈ pi_id <$> li_records l) t) (pi_id r) e (li_now l) = seen_at t (pi_id r) e (li_now l)) as Hs.
  { unfold seen_at. rewrite map_lookup_filter. destruct (t !! pi_id r) as [s|]; [|done]. simpl.
    rewrite option_guard_True; [done|]. by apply list_elem_of_fmap_2. }
  rewrite Hs in H. apply H; [|done|].
  - intros id [s [_ Hs']%map_lookup_filter_Some]%elem_of_dom. by apply elem_of_list_to_set.
  - rewrite size_list_to_set by done. by rewrite length_fmap.
Qed.

(** After a run of listings with one expiry, the table knows when it began. *)
Lemma run_sighting id e run older l0 :
  Forall well_listed (run ++ l0 :: older) → Forall (λ l, lists l id e) (run ++ [l0]) → lease_changed id e older →
  leases_after (run ++ l0 :: older) !! id = Some (mkSighting e (li_now l0)).
Proof.
  intros Hwl Hrun Hch. induction run as [|l run IH]; simpl in *.
  - apply Forall_cons in Hwl as [Hwl Hwo]. apply Forall_singleton in Hrun as (r & lease & Hr & <- & Hl).
    rewrite (proj1 (observe_leased _ _ _ _ _ Hwl Hr Hl)). do 2 f_equal. unfold seen_at. destruct older as [|l1 older]; simpl.
    + by rewrite lookup_empty.
    + destruct Hch as [Hno|(e' & Hne & r' & lease' & Hr' & Hid & Hl')]; [by rewrite observe_unlisted|].
      apply Forall_cons in Hwo as [Hw1 _]. rewrite <-Hid, (proj1 (observe_leased _ _ _ _ _ Hw1 Hr' Hl')). simpl.
      by rewrite bool_decide_eq_false_2.
  - apply Forall_cons in Hwl as [Hwl Hwo]. apply Forall_cons in Hrun as [(r & lease & Hr & <- & Hl) Hrun].
    rewrite (proj1 (observe_leased _ _ _ _ _ Hwl Hr Hl)). unfold seen_at. rewrite IH by done. simpl.
    by rewrite bool_decide_eq_true_2.
Qed.

(** C15: leases. Whatever an observer has listed before, a listing returns
    records of the broker in their order, and a leased record is among them
    exactly when less than its lease has passed since the observer first saw
    the present expiry, in an unbroken run of listings, and its client has not
    departed. The broker's and the owner's clocks play no part. *)
Theorem lease_runs_from_sighting l run l0 older id e r lease :
  Forall well_listed (l :: run ++ l0 :: older) →
  Forall (λ l, lists l id e) (run ++ [l0]) → lease_changed id e older →
  r ∈ li_records l → pi_id r = id → leased r e lease →
  let peers := (observe (leases_after (run ++ l0 :: older)) l).2 in
  peers `sublist_of` li_records l ∧
  (r ∈ peers ↔ (duration_since (li_now l) (li_now l0) < from_secs lease)%Z ∧ departed (li_presence l) (pi_name r) = false).
Proof.
  intros [Hwl Hwo]%Forall_cons Hrun Hch Hr <- Hl. simpl. split; [apply live_records_sublist|].
  rewrite (proj2 (observe_leased _ _ _ _ _ Hwl Hr Hl)). unfold seen_at. rewrite (run_sighting _ e) by done. simpl.
  by rewrite bool_decide_eq_true_2.
Qed.

(** A sighting in the table was a listing of that expiry. *)
Lemma sighting_listed h id e t :
  Forall well_listed h → leases_after h !! id = Some (mkSighting e t) → ∃ l, l ∈ h ∧ li_now l = t ∧ lists l id e.
Proof.
  revert e t. induction h as [|l h IH]; intros e t Hwl; simpl; [by rewrite lookup_empty|]. apply Forall_cons in Hwl as [Hl Hwl].
  destruct (decide (id ∈ pi_id <$> li_records l)) as [(r & -> & Hr)%list_elem_of_fmap|Hno]; [|by rewrite observe_unlisted].
  destruct (pi_expires_at r) as [e0|] eqn:He; [destruct (pi_lease_secs r) as [lease|] eqn:Hs|].
  - rewrite (proj1 (observe_leased _ _ _ _ _ Hl Hr (conj He Hs))). intros [= <- <-].
    assert (lists l (pi_id r) e0) as Hlist by (by exists r, lease).
    unfold seen_at. destruct (leases_after h !! pi_id r) as [[e1 t1]|] eqn:E; [|exists l; split; [by left|done]]. simpl.
    case_bool_decide; [subst e1|exists l; split; [by left|done]]. destruct (IH _ _ Hwl eq_refl) as (l' & Hin & ?). exists l'. split; [by right|done].
  - unfold observe, poll_records. rewrite live_records_unleased; [|apply Hl|done|unfold leased; naive_solver].
    intros [H _]%map_lookup_filter_Some. destruct (IH _ _ Hwl H) as (l' & Hin & ?). exists l'. split; [by right|done].
  - unfold observe, poll_records. rewrite live_records_unleased; [|apply Hl|done|unfold leased; naive_solver].
    intros [H _]%map_lookup_filter_Some. destruct (IH _ _ Hwl H) as (l' & Hin & ?). exists l'. split; [by right|done].
Qed.

(** A record is reported while its lease runs from its renewal, whatever was
    listed before. *)
Lemma renewed_is_listed l h r e lease renewed :
  Forall well_listed (l :: h) → r ∈ li_records l → leased r e lease →
  (∀ l', l' ∈ l :: h → lists l' (pi_id r) e → (renewed ≤ li_now l')%Z) → (li_now l < renewed + from_secs lease)%Z →
  departed (li_presence l) (pi_name r) = false → r ∈ (observe (leases_after h) l).2.
Proof.
  intros [Hl Hwl]%Forall_cons Hr Hle Hren Hnow Hdep. apply (observe_leased _ _ _ _ _ Hl Hr Hle). split; [|done].
  assert (renewed ≤ li_now l)%Z by (apply Hren; [by left|by exists r, lease]).
  unfold duration_since, seen_at. destruct (leases_after h !! pi_id r) as [[e1 t1]|] eqn:E; [|lia]. simpl. case_bool_decide; [subst e1|lia].
  destruct (sighting_listed _ _ _ _ Hwl E) as (l' & Hin & <- & Hli). pose proof (Hren l' ltac:(by right) Hli). lia.
Qed.

(** ** Round trips *)

Lemma kind_of_kind_name k : kind_of_name (kind_name k) = k.
Proof. by destruct k. Qed.

Lemma decode_encode_candidate {AT : AddrText} {AL : AddrTextLaws} c :
  addr_ok (c_addr c) → decode_candidate (encode_candidate c) = Some c.
Proof.
  intros Hok. unfold decode_candidate.
  change (struct_fields _ _) with (Some [Some (SStr (addr_to_string (c_addr c))); Some (SStr (kind_name (c_kind c)))]).
  unfold required, decode_kind. cbn [mbind option_bind node_str Syntax_node].
  rewrite addr_parse_to_string by done. cbn [mbind option_bind]. rewrite kind_of_kind_name. by destruct c.
Qed.

Definition offer_ok (o : ConnectionOffer) : Prop := Forall (λ c, addr_ok (c_addr c)) (o_candidates o).

Lemma decode_encode_offer {AT : AddrText} {AL : AddrTextLaws} o :
  offer_ok o → decode_offer (encode_offer o) = Some o.
Proof.
  intros Hok. unfold decode_offer.
  change (struct_fields _ _) with (Some [Some (SStr (o_from o)); Some (SStr (o_session_id o));
    Some (SStr (o_cert_fingerprint o)); Some (SArray (encode_candidate <$> o_candidates o))]).
  unfold required. cbn [mbind option_bind node_str node_seq Syntax_node].
  rewrite mapM_fmap_Forall_Some; [by destruct o|].
  eapply Forall_impl; [exact Hok|]. intros c. apply decode_encode_candidate.
Qed.

Lemma decode_encode_sync y : decode_sync (encode_sync y) = Some y.
Proof. by destruct y. Qed.

Lemma filter_map_to_list_key {V} (m : gmap string V) k :
  filter (λ e, e.1 = k) (map_to_list m) = match m !! k with Some v => [(k, v)] | None => [] end.
Proof.
  assert (∀ e, e ∈ filter (λ e, e.1 = k) (map_to_list m) ↔ m !! e.1 = Some e.2 ∧ e.1 = k) as Hin.
  { intros [k' v]. rewrite list_elem_of_filter, elem_of_map_to_list. naive_solver. }
  assert (NoDup (filter (λ e, e.1 = k) (map_to_list m))) as Hnd by apply NoDup_filter, NoDup_map_to_list.
  destruct (m !! k) as [v|] eqn:E.
  - apply Permutation_singleton_r, NoDup_Permutation; [done|apply NoDup_singleton|]. intros [k' v'].
    rewrite Hin, list_elem_of_singleton. simpl. naive_solver.
  - apply elem_of_nil_inv. intros [k' v'] [H1 H2]%Hin. simpl in *. congruence.
Qed.

(** The fields of an object are the members of its map. *)
Lemma struct_fields_object names m : struct_fields names (Object m) = Some ((λ k, m !! k) <$> names).
Proof.
  unfold struct_fields. simpl. induction names as [|k names IH]; simpl; [done|].
  rewrite filter_map_to_list_key, IH. by destruct (m !! k).
Qed.

(** What a peer registers is what observers read. *)
Lemma decode_peer_record id name port fp addr expires lease :
  is_u16 port →
  decode_peer_info (Object (SignalingClient.peer_record id name port fp addr expires lease)) =
  Some (mkPeerInfo id name "online" port fp addr (Some expires) (Some lease)).
Proof.
  intros Hp. unfold decode_peer_info. rewrite struct_fields_object.
  assert (decode_u16 (Num (PosInt port)) = Some port) as Hport.
  { unfold decode_u16. simpl. rewrite bool_decide_eq_true_2; [done|]. unfold is_u16 in Hp. lia. }
  match goal with |- context [?f <$> ?l] =>
    assert (f <$> l = [Some (Str id); Some (Str name); Some (Str "online"); Some (Num (PosInt port)); Some (Str fp);
      Str <$> addr; Some (Num (PosInt expires)); Some (Num (PosInt lease))]) as -> end.
  { destruct addr; vm_compute; reflexivity. }
  unfold required, optional. cbn [mbind option_bind node_str Value_node as_str]. rewrite Hport. by destruct addr.
Qed.

(** ** Examples *)

Definition ex_event (name event : string) (ts : Z) : PresenceEvent := mkPresence (client_id_for name) event ts.

Lemma presence_tracks_witness :
  departed (presence_of [ex_event "a" "disconnect" 5; ex_event "b" "connect" 1; ex_event "a" "connect" 4]) "a" = true.
Proof.
  apply (proj2 (presence_tracks [ex_event "a" "disconnect" 5; ex_event "b" "connect" 1; ex_event "a" "connect" 4] "a" ltac:(decide_compute))).
  exists (ex_event "a" "disconnect" 5). split; [|done]. exists 0. split_and!; [done..|by split; [|eexists]|].
  intros [|[|[|]]] e' He Hc Ht; simplify_eq/=; simpl; lia.
Defined.

Definition ex_peer (id : string) (expires : Z) : PeerInfo := mkPeerInfo id id "online" 4433 "fp" None (Some expires) (Some 15%Z).
Definition ex_listing (now_secs : Z) (records : list PeerInfo) : Listing := mkListing ∅ (from_secs now_secs) 0 records.

Lemma ex_well_listed now_secs e : well_listed (ex_listing now_secs [ex_peer "p" e]).
Proof. split; [apply NoDup_singleton|]. change (1 ≤ MAX_TRACKED_CLIENTS). decide_compute. Qed.

(** First seen at second 1, the lease runs until second 16. *)
Lemma lease_runs_from_sighting_witness :
  ex_peer "p" 7 ∈ (observe (leases_after [ex_listing 1 [ex_peer "p" 7]; ex_listing 0 [ex_peer "p" 6]]) (ex_listing 15 [ex_peer "p" 7])).2.
Proof.
  apply (proj2 (lease_runs_from_sighting (ex_listing 15 [ex_peer "p" 7]) [] (ex_listing 1 [ex_peer "p" 7]) [ex_listing 0 [ex_peer "p" 6]]
    "p" 7 (ex_peer "p" 7) 15 ltac:(repeat (constructor; [apply ex_well_listed|]); constructor)
    ltac:(apply Forall_singleton; exists (ex_peer "p" 7), 15%Z; repeat constructor)
    ltac:(right; exists 6%Z; split; [done|]; exists (ex_peer "p" 6), 15%Z; repeat constructor)
    ltac:(by left) ltac:(done) ltac:(done))).
  done.
Defined.
