(* ===== verification/Demo.v ===== *)
(** * The narrated demo and the soak runner

    Models [crates/stitch-tasks/src/bin]: the peer process of the demo (its
    identity, its commands, the lines it prints), the orchestrator that reads
    those lines, collects the snapshots and decides whether the peers agree
    (demo.rs), and the arguments of the soak runner (soak.rs). Processes, ports
    and the broker are not modelled: what a peer reads and what the orchestrator
    receives are lists, a link is up or down. *)
From Stdlib Require Import Strings.Ascii.
From S2P Require Import Prelude Hlc Lww Wire Replog SyncState Node Membership Json P2pStore Tasks Net Signaling.

Definition PEERS : list string := ["A"; "B"; "C"].
Definition OWNER : string := "A".

(** ** Text *)

(** [str::split_once] at a space. *)
Fixpoint split_once (s : string) : option (string * string) :=
  match s with
  | EmptyString => None
  | String c s => if bool_decide (c = " "%char) then Some (EmptyString, s) else '(a, b) ← split_once s; Some (String c a, b)
  end.

(** [splitn(3, ' ')], absent parts empty. *)
Definition split3 (line : string) : string * string * string :=
  match split_once line with
  | None => (line, "", "")
  | Some (cmd, line) => match split_once line with None => (cmd, line, "") | Some (id, rest) => (cmd, id, rest) end
  end.

(** White space of Unicode, as encoded. *)
Definition white_space : list (list byte) :=
  [[x09]; [x0a]; [x0b]; [x0c]; [x0d]; [x20]; [xc2; x85]; [xc2; xa0]; [xe1; x9a; x80]] ++
  ((λ b, [xe2; x80; b]) <$> [x80; x81; x82; x83; x84; x85; x86; x87; x88; x89; x8a; xa8; xa9; xaf]) ++
  [[xe2; x81; x9f]; [xe3; x80; x80]].

(** The number of bytes of the first white space that is a prefix of [bs] backwards. *)
Definition white_suffix (bs : list byte) : option nat :=
  length <$> head (filter (λ w, take (length w) bs = reverse w) white_space).

Fixpoint trim_back (fuel : nat) (bs : list byte) : list byte :=
  match fuel, white_suffix bs with
  | S fuel, Some n => trim_back fuel (drop n bs)
  | _, _ => bs
  end.

(** [str::trim_end]; each step drops a byte or more. *)
Definition trim_end (s : string) : string :=
  String.string_of_list_byte (reverse (trim_back (str_len s) (reverse (as_bytes s)))).

Definition quote : string := String (ascii_of_nat 34) "".

Definition show_bool (b : bool) : string := if b then "true" else "false".

(** ** The peer process *)

Definition seed_from_name (name : string) : list byte :=
  let bytes := as_bytes name in
  let n := length bytes `min` 32 in
  take n bytes ++ replicate (32 - n) x00.

Definition flag (args : list string) (key : string) : option string :=
  '(i, _) ← list_find (λ a, a = key) args; args !! S i.

(** The derived reader of [Task] on text. *)
Definition decode_task (n : Syntax) : option Task :=
  fs ← struct_fields ["title"; "done"] n;
  match fs with
  | [Some (SStr title); Some (SBool done)] => Some (mkTask title done)
  | _ => None
  end.

Definition encode_task (t : Task) : Syntax := SObject [("title", SStr (t_title t)); ("done", SBool (t_done t))].

Definition op_symbol (op : Op) : string := match op with Insert => "+" | Update => "~" | Delete => "x" end.

Section peer.
Context {JS : JsonSyntax}.

Definition task_detail (data : option (list byte)) : string :=
  match data with
  | Some bytes =>
    match parse bytes ≫= decode_task with
    | Some t => quote +:+ t_title t +:+ quote +:+ " done=" +:+ show_bool (t_done t)
    | None => ""
    end
  | None => ""
  end.

(** The line of an event, none for other entities. *)
Definition event_line (name : string) (event : MutationEvent) : option string :=
  if negb (bool_decide (ev_entity event = ENTITY)) then None else
  let detail := task_detail (ev_data event) in
  Some (trim_end match ev_origin event with
                 | Local => "EVT " +:+ name +:+ "  " +:+ op_symbol (ev_op event) +:+ " " +:+ ev_id event +:+ "  " +:+ detail
                 | Remote => "EVT " +:+ name +:+ "  <- " +:+ ev_id event +:+ "  " +:+ detail +:+ "  (synced from peer)"
                 end).

(** A [BTreeMap] is printed in the order of its keys. *)
Definition by_key : string * Task → string * Task → bool := λ a b, string_le a.1 b.1.

Definition snapshot_syntax (snap : gmap string Task) : Syntax :=
  SObject ((λ '(id, t), (id, encode_task t)) <$> Prelude.sort_by by_key (map_to_list snap)).

Definition snapshot_json (snap : gmap string Task) : string :=
  match print (snapshot_syntax snap) with Ok bytes => String.string_of_list_byte bytes | Err _ => "" end.

Definition ready_line (name : string) : string := "READY " +:+ name.
Definition snap_line (name json : string) : string := "SNAP " +:+ name +:+ " " +:+ json.
Definition err_line (name cmd id error : string) : string := "ERR " +:+ name +:+ " " +:+ cmd +:+ " " +:+ id +:+ ": " +:+ error.

(** [disconnect]: whether the peer was shut down; [unwraps] are the attempts
    to take it back from its clones, of which 40 are made. *)
Definition disconnect (unwraps : list bool) : bool := existsb id (take 40 unwraps).

(** The process: its board, whether its link is up, and what it printed. *)
Record PeerProcess (P : Type) := mkProcess { pr_board : Store P Identity; pr_link : bool; pr_out : list string }.
Arguments mkProcess {P}.
Arguments pr_board {P}.
Arguments pr_link {P}.
Arguments pr_out {P}.

Section process.
Context {P : Type} {FP : FramePersister P} {HI : HashIter} {ED : Ed25519} {JT : JsonText}.
(** [StoreError]'s text. *)
Context (error_text : StoreError → string).
Implicit Types p : PeerProcess P.

Definition emit (line : string) p : PeerProcess P := mkProcess (pr_board p) (pr_link p) (pr_out p ++ [line]).

Definition open_board (name : string) : Store P Identity :=
  let identity := Identity.from_seed (seed_from_name name) in
  if bool_decide (name = OWNER) then Store.with_owner identity
  else Store.join identity (peer_id (Identity.from_seed (seed_from_name OWNER))).

(** The owner invites the other peers; a refused invitation is only printed. *)
Fixpoint invite_members (name : string) (now : result Z ()) (members : list string) p : PeerProcess P :=
  match members with
  | [] => p
  | member :: members =>
    if bool_decide (member = OWNER) then invite_members name now members p else
    match Store.invite (pr_board p) now (peer_id (Identity.from_seed (seed_from_name member))) Member with
    | (b, Ok _) => invite_members name now members (mkProcess b (pr_link p) (pr_out p))
    | (b, Err e) =>
      invite_members name now members
        (emit ("ERR " +:+ name +:+ " invite " +:+ member +:+ ": " +:+ error_text e) (mkProcess b (pr_link p) (pr_out p)))
    end
  end.

Definition start_peer (name : string) (now : result Z ()) (link_up : bool) : option (PeerProcess P) :=
  let p := mkProcess (open_board name) false [] in
  let p := if bool_decide (name = OWNER) then invite_members name now PEERS p else p in
  if link_up then Some (emit (ready_line name) (mkProcess (pr_board p) true (pr_out p))) else None.

(** The write of a command, if it is one. *)
Definition written (fuel : nat) (now : result Z ()) (cmd id rest : string) (b : Store P Identity)
    : option (Store P Identity * option (result () StoreError)) :=
  if bool_decide (cmd = "add") then let '(b, r) := TaskBoard.add b now id rest in Some (b, Some r) else
  if bool_decide (cmd = "rename") then '(b, r) ← TaskBoard.rename b fuel now id rest; Some (b, Some r) else
  if bool_decide (cmd = "done") then '(b, r) ← TaskBoard.set_done b fuel now id (bool_decide (rest = "true")); Some (b, Some r) else
  if bool_decide (cmd = "remove") then let '(b, r) := TaskBoard.remove b now id in Some (b, Some r) else Some (b, None).

(** One line of input; the result says whether the process goes on. Bringing
    a link up panics when the broker cannot be reached. *)
Definition command (name : string) (fuel : nat) (now : result Z ()) (link_up : bool) (line : string) p : option (PeerProcess P * bool) :=
  let '(cmd, id, rest) := split3 line in
  '(b, w) ← written fuel now cmd id rest (pr_board p);
  let p := mkProcess b (pr_link p) (pr_out p) in
  let p := match w with Some (Err error) => emit (err_line name cmd id (error_text error)) p | _ => p end in
  if bool_decide (cmd = "offline") then Some (mkProcess (pr_board p) false (pr_out p), true) else
  if bool_decide (cmd = "online") && negb (pr_link p) then
    if link_up then Some (mkProcess (pr_board p) true (pr_out p), true) else None
  else if bool_decide (cmd = "snapshot") then
    snap ← TaskBoard.snapshot (pr_board p) fuel; Some (emit (snap_line name (snapshot_json snap)) p, true)
  else if bool_decide (cmd = "quit") then Some (p, false) else Some (p, true).
End process.
End peer.
Arguments mkProcess {P}.
Arguments pr_board {P}.
Arguments pr_link {P}.
Arguments pr_out {P}.

(** ** The orchestrator *)

Inductive Ctl := Ready (name : string) | Snap (name json : string).

#[export] Instance Ctl_eq_dec : EqDecision Ctl.
Proof. solve_decision. Defined.

(** A line of a peer: a control message, a line of the timeline, or nothing. *)
Definition dispatch (line : string) : option (Ctl + string) :=
  match strip_prefix "READY " line with
  | Some rest => Some (inl (Ready rest))
  | None =>
    match strip_prefix "SNAP " line with
    | Some rest => '(peer, json) ← split_once rest; Some (inl (Snap peer json))
    | None => rest ← strip_prefix "EVT " line; Some (inr rest)
    end
  end.

(** What a wait for a control message ends with: the message, or the deadline
    or the end of the channel. *)
Abbreviation recv := (option Ctl).

Fixpoint collect_loop (n : nat) (snaps : gmap string string) (rs : list recv) : list recv * option (gmap string string) :=
  if n <=? size snaps then (rs, Some snaps) else
  match rs with
  | Some (Snap name json) :: rs => collect_loop n (<[name := json]> snaps) rs
  | Some (Ready _) :: rs => collect_loop n snaps rs
  | None :: rs => (rs, None)
  | [] => ([], None)
  end.

(** The answers to one request for snapshots, and what is left to receive. *)
Definition collect_snapshots (n : nat) (rs : list recv) : list recv * option (gmap string string) := collect_loop n ∅ rs.

Section verdict.
Context {HI : HashIter}.

Definition agreed (snaps : gmap string string) : option string :=
  match (hiter snaps).*2 with
  | first :: values => if forallb (λ v, bool_decide (v = first)) values then Some first else None
  | [] => None
  end.

(** [rounds]: how many requests are made before the deadline. *)
Fixpoint await_convergence (rounds n : nat) (rs : list recv) : option string :=
  match rounds with
  | 0 => None
  | S rounds =>
    let '(rs, snaps) := collect_snapshots n rs in
    match snaps ≫= agreed with Some state => Some state | None => await_convergence rounds n rs end
  end.
End verdict.

(** The wait for the peers to come up. *)
Fixpoint await_ready (n ready : nat) (rs : list recv) : list recv * nat :=
  if n <=? ready then (rs, ready) else
  match rs with
  | Some (Ready _) :: rs => await_ready n (S ready) rs
  | _ :: rs => (rs, ready)
  | [] => ([], ready)
  end.

(** The story: who is told what, in order. *)
Definition script : list (string * string) :=
  [("A", "add t1 ship release"); ("B", "offline"); ("B", "done t1 true"); ("C", "rename t1 ship v2");
   ("C", "add t2 write changelog"); ("B", "online")].

Definition peer_mut (names : list string) (name : string) : option nat := fst <$> list_find (λ p, p = name) names.

(** ** The soak runner *)

Section soak.
(** [str::parse::<usize>]. *)
Context (parse_usize : string → option nat).

Definition arg (args : list string) (i default : nat) : nat :=
  match args !! i ≫= parse_usize with Some n => n | None => default end.

Definition soak_config (args : list string) : Chaos :=
  mkChaos (arg args 1 4) (arg args 2 1000) (ch_id_pool Chaos_default) (Z.of_nat (arg args 3 0)) 15.
End soak.

(** ** Lines *)

Definition no_space (s : string) : Prop := split_once s = None.

Lemma split_once_app s t : no_space s → split_once (s +:+ " " +:+ t) = Some (s, t).
Proof.
  unfold no_space. induction s as [|c s IH]; [done|]. simpl. case_bool_decide; [done|].
  destruct (split_once s) as [[a b]|]; [done|]. intros _. by rewrite IH.
Qed.

(** The orchestrator reads the lines of the peers back, and drops the lines
    that report a failed write. *)
Lemma lines_dispatched name json cmd i error :
  dispatch (ready_line name) = Some (inl (Ready name)) ∧
  (no_space name → dispatch (snap_line name json) = Some (inl (Snap name json))) ∧
  dispatch (err_line name cmd i error) = None.
Proof.
  split_and!; [done| |done]. intros Hn. pose proof (split_once_app name json Hn) as E. unfold dispatch, snap_line. rewrite strip_prefix_app, E. done.
Qed.

(** ** Snapshots as text *)

Section text.
Context {JS : JsonSyntax} {JL : JsonSyntaxLaws}.

Lemma snapshot_syntax_inj m m' : snapshot_syntax m = snapshot_syntax m' → m = m'.
Proof.
  intros [= H]. assert (Prelude.sort_by by_key (map_to_list m) = Prelude.sort_by by_key (map_to_list m')) as E.
  { revert H. generalize (Prelude.sort_by by_key (map_to_list m')). generalize (Prelude.sort_by by_key (map_to_list m)).
    induction l as [|[i [t d]] l IH]; intros [|[i' [t' d']] l']; simpl; try done. intros [= -> -> -> H]. by f_equal; apply IH. }
  rewrite <-(list_to_map_to_list m), <-(list_to_map_to_list m').
  apply list_to_map_proper; [apply NoDup_fst_map_to_list|].
  by rewrite <-(sort_by_perm by_key (map_to_list m)), E, sort_by_perm.
Qed.

(** Two boards print the same text exactly when they show the same tasks. *)
Lemma snapshot_json_exact m m' :
  is_ok (print (snapshot_syntax m)) = true → is_ok (print (snapshot_syntax m')) = true →
  snapshot_json m = snapshot_json m' → m = m'.
Proof using JL JS.
  unfold snapshot_json. destruct (print (snapshot_syntax m)) as [bs|] eqn:E, (print (snapshot_syntax m')) as [bs'|] eqn:E'; try done.
  intros _ _ H. apply (f_equal as_bytes) in H. rewrite !as_bytes_of in H. subst bs'.
  apply parse_print in E, E'. apply snapshot_syntax_inj. congruence.
Qed.
End text.

(** ** The verdict *)

Section verdict_laws.
Context {HI : HashIter}.

Lemma agreed_Some snaps state : agreed snaps = Some state → ∀ name v, snaps !! name = Some v → v = state.
Proof.
  unfold agreed. intros H name v Hv. assert (v ∈ (hiter snaps).*2) as Hin.
  { apply list_elem_of_fmap. exists (name, v). split; [done|]. by apply elem_of_hiter. }
  destruct (hiter snaps).*2 as [|first values]; [done|]. destruct (forallb _ values) eqn:E; [|done]. simplify_eq.
  apply elem_of_cons in Hin as [|Hin]; [done|]. rewrite forallb_forall in E. apply list_elem_of_In, E in Hin. by apply bool_decide_eq_true in Hin.
Qed.

Lemma agreed_all snaps state : snaps ≠ ∅ → (∀ name v, snaps !! name = Some v → v = state) → agreed snaps = Some state.
Proof.
  intros Hne Hall. unfold agreed.
  assert (∀ v, v ∈ (hiter snaps).*2 → v = state) as Hin.
  { intros v ([name v'] & -> & Hv)%list_elem_of_fmap. apply elem_of_hiter in Hv. by eapply Hall. }
  destruct (hiter snaps) as [|[k v] l] eqn:E.
  { exfalso. apply Hne. rewrite <-(list_to_map_hiter snaps), E. done. }
  simpl in *. rewrite (proj2 (forallb_forall _ _)).
  - f_equal. apply Hin. by left.
  - intros x Hx%list_elem_of_In. apply bool_decide_eq_true. rewrite (Hin x) by by right. symmetry. apply Hin. by left.
Qed.

(** The last answer of each name. *)
Definition latest {V} (m : gmap string V) (seg : list (string * V)) : gmap string V := foldl (λ m '(name, v), <[name := v]> m) m seg.

(** What one wait ends with when the peer [name] shows [m] in reply. *)
Definition answer {JS : JsonSyntax} (a : option (string * gmap string Task)) : recv :=
  '(name, m) ← a; d ← dispatch (snap_line name (snapshot_json m)); match d with inl c => Some c | inr _ => None end.

Definition answerable {JS : JsonSyntax} (a : string * gmap string Task) : Prop :=
  no_space a.1 ∧ is_ok (print (snapshot_syntax a.2)) = true.

Context {JS : JsonSyntax} {JL : JsonSyntaxLaws}.

Lemma answer_snap name m : no_space name → answer (Some (name, m)) = Some (Snap name (snapshot_json m)).
Proof. intros Hn. unfold answer. simpl. by rewrite (proj1 (proj2 (lines_dispatched name (snapshot_json m) "" "" "")) Hn). Qed.

(** A collection reads answers until it has [n] names, or a wait fails. *)
Lemma collect_loop_spec n ans M rs snaps :
  (∀ a, Some a ∈ ans → answerable a) →
  collect_loop n (snapshot_json <$> M) (answer <$> ans) = (rs, snaps) →
  ∃ pre post, ans = pre ++ post ∧ rs = answer <$> post ∧
    (∀ out, snaps = Some out → ∃ seg, pre = Some <$> seg ∧ out = snapshot_json <$> latest M seg ∧ n ≤ size (latest M seg)).
Proof.
  clear HI JL. revert M. induction ans as [|a ans IH]; intros M Hans; cbn [collect_loop fmap list_fmap]; rewrite map_size_fmap;
    destruct (n <=? size M) eqn:E; try (apply Nat.leb_le in E).
  - intros [= <- <-]. exists [], []. split_and!; [done..|]. intros out [= <-]. by exists [].
  - intros [= <- <-]. by exists [], [].
  - intros [= <- <-]. exists [], (a :: ans). split_and!; [done..|]. intros out [= <-]. by exists [].
  - destruct a as [[name m]|].
    + rewrite answer_snap by (apply (Hans (name, m)); left). rewrite <-fmap_insert.
      intros H. apply IH in H as (pre & post & -> & -> & Ho); [|intros x Hx; apply Hans; by right].
      exists (Some (name, m) :: pre), post. split_and!; [done..|]. intros out Hout. destruct (Ho out Hout) as (seg & -> & -> & Hs).
      by exists ((name, m) :: seg).
    + intros [= <- <-]. exists [None], ans. by split_and!.
Qed.

Lemma latest_elem {V} (seg : list (string * V)) M name v : latest M seg !! name = Some v → (name, v) ∈ seg ∨ M !! name = Some v.
Proof.
  clear. revert M. induction seg as [|[k w] seg IH]; intros M; [by right|]. simpl. intros [H|H]%IH; [left; by right|].
  apply lookup_insert_Some in H as [[<- <-]|[_ H]]; [left; by left|by right].
Qed.

Lemma latest_keeps {V} (seg : list (string * V)) M name : is_Some (M !! name) → is_Some (latest M seg !! name).
Proof.
  clear. revert M. induction seg as [|[k w] seg IH]; intros M H; [done|]. simpl. apply IH.
  destruct (decide (k = name)) as [->|]; [by rewrite lookup_insert_eq|by rewrite lookup_insert_ne].
Qed.

Lemma collect_all n m names M :
  NoDup names → (∀ name, name ∈ names → no_space name ∧ M !! name = None) → size M + length names = n →
  collect_loop n (snapshot_json <$> M) (answer <$> ((λ name, Some (name, m)) <$> names)) =
    ([], Some (snapshot_json <$> latest M ((λ name, (name, m)) <$> names))).
Proof.
  clear HI JL. revert M. induction names as [|name names IH]; intros M Hnd Hok Hsz; cbn [collect_loop fmap list_fmap length] in *; rewrite map_size_fmap.
  - by rewrite (proj2 (Nat.leb_le _ _)) by lia.
  - rewrite (proj2 (Nat.leb_gt _ _)) by lia. apply NoDup_cons in Hnd as [Hni Hnd].
    destruct (Hok name) as [Hsp HM]; [left|]. rewrite answer_snap by done. rewrite <-fmap_insert. apply IH; [done| |].
    + intros x Hx. destruct (Hok x) as [? HMx]; [by right|]. split; [done|]. rewrite lookup_insert_ne; [done|]. by intros ->.
    + rewrite map_size_insert_None by done. lia.
Qed.

(** The verdict of the demo. When it announces that all peers agree on a
    state, there was a stretch of answers from as many peers as it
    started, and the boards behind the last answer of each of them showed the
    same tasks, of which the state is the text. When every peer answers
    the first request with the same tasks, it does announce agreement. *)
Theorem demo_verdict rounds n ans :
  0 < n → (∀ a, Some a ∈ ans → answerable a) →
  (∀ state, await_convergence rounds n (answer <$> ans) = Some state →
     ∃ pre seg post m, ans = pre ++ (Some <$> seg) ++ post ∧ state = snapshot_json m ∧
       n ≤ size (latest ∅ seg) ∧ ∀ name m', latest ∅ seg !! name = Some m' → m' = m) ∧
  (∀ m names, ans = (λ name, Some (name, m)) <$> names → NoDup names → length names = n → 0 < rounds →
     await_convergence rounds n (answer <$> ans) = Some (snapshot_json m)).
Proof using HI JL JS.
  intros Hn Hans. split.
  - revert ans Hans. induction rounds as [|rounds IH]; intros ans Hans state; [done|]. cbn [await_convergence].
    destruct (collect_snapshots n (answer <$> ans)) as [rs snaps] eqn:E. unfold collect_snapshots in E.
    rewrite <-(fmap_empty snapshot_json) in E. apply collect_loop_spec in E as (pre & post & -> & -> & Ho); [|done].
    destruct (snaps ≫= agreed) as [st|] eqn:Ea.
    + intros [= <-]. destruct snaps as [out|]; [|done]. destruct (Ho out eq_refl) as (seg & -> & -> & Hs). simpl in Ea.
      pose proof (agreed_Some _ _ Ea) as Hag.
      destruct (map_choose (latest ∅ seg)) as (name & m & Hm). { intros He. rewrite He, map_size_empty in Hs. lia. }
      exists [], seg, post, m. split_and!; [done| |done|].
      * symmetry. apply (Hag name). by rewrite lookup_fmap, Hm.
      * intros name' m' Hm'.
        assert (∀ k x, latest ∅ seg !! k = Some x → answerable (k, x) ∧ snapshot_json x = st) as Hk.
        { intros k x Hx. split; [|apply (Hag k); by rewrite lookup_fmap, Hx]. apply Hans, elem_of_app. left.
          apply list_elem_of_fmap. exists (k, x). split; [done|]. by apply latest_elem in Hx as [|]. }
        destruct (Hk _ _ Hm) as [[_ H1] H2], (Hk _ _ Hm') as [[_ H3] H4]. apply snapshot_json_exact; simpl in *; congruence.
    + intros H. apply IH in H as (pre' & seg & post' & m & -> & Hr); [|intros a Ha; apply Hans, elem_of_app; by right].
      exists (pre ++ pre'), seg, post', m. split; [by rewrite <-app_assoc|done].
  - intros m names -> Hnd Hlen Hr. destruct rounds as [|rounds]; [lia|]. cbn [await_convergence]. unfold collect_snapshots.
    pose proof (collect_all n m names ∅ Hnd) as E. rewrite fmap_empty in E. rewrite E; [|intros name Hname|by rewrite map_size_empty].
    2:{ split; [|by apply lookup_empty]. apply (Hans (name, m)). apply list_elem_of_fmap. by exists name. }
    assert (∀ k x, latest ∅ ((λ name, (name, m)) <$> names) !! k = Some x → x = m) as Hl.
    { intros k x [Hx|Hx]%latest_elem; [|by rewrite lookup_empty in Hx]. apply list_elem_of_fmap in Hx as (y & [= -> ->] & _). done. }
    simpl. rewrite (agreed_all _ (snapshot_json m)); [done| |].
    + intros He%fmap_empty_inv. destruct names as [|name names]; [simpl in *; lia|].
      assert (is_Some (latest ∅ ((λ name, (name, m)) <$> name :: names) !! name)) as [x Hx]; [|by rewrite He, lookup_empty in Hx].
      simpl. apply latest_keeps. by rewrite lookup_insert_eq.
    + intros name v. rewrite lookup_fmap_Some. intros (x & <- & Hx). by rewrite (Hl _ _ Hx).
Qed.
End verdict_laws.

(** ** Runs *)

Module DemoRuns.

(** A codec for boards with at most the task [t1]. *)
Definition one_task_json : JsonSyntax := {|
  print v := match v with
             | SObject [] => Ok []
             | SObject [(i, SObject [(a, SStr t); (b, SBool d)])] =>
               if bool_decide (i = "t1" ∧ a = "title" ∧ b = "done") then Ok ((if d : bool then x01 else x00) :: as_bytes t) else Err ()
             | _ => Err ()
             end;
  parse bs := match bs with
              | [] => Some (SObject [])
              | d :: t => Some (SObject [("t1", encode_task (mkTask (String.string_of_list_byte t) (bool_decide (d = x01))))])
              end;
|}.

Lemma one_task_json_laws : @JsonSyntaxLaws one_task_json.
Proof.
  constructor. intros v bs. simpl. destruct v as [| | | | |[|[i [| | | | |ms]] [|]]]; try done; [by intros [= <-]|..].
  all: destruct ms as [|[a [| | |t| |]] [|[b [|d| | | |]] [|]]]; try done.
  case_bool_decide as H; [|done]. destruct H as (-> & -> & ->). intros [= <-].
  unfold encode_task, as_bytes. simpl. rewrite String.string_of_list_byte_of_string. by destruct d.
Qed.

Definition board_of (t : string) : gmap string Task := {[ "t1" := mkTask t false ]}.

Abbreviation awaited := (await_convergence (HI := map_to_list_iter)).
Abbreviation answered := (answer (JS := one_task_json)).
Abbreviation text := (snapshot_json (JS := one_task_json)).

Lemma demo_verdict_witness :
  ∃ state, awaited 1 3 (answered <$> ((λ n, Some (n, board_of "ship")) <$> PEERS)) = Some state ∧ state = text (board_of "ship").
Proof.
  exists (text (board_of "ship")). split; [|done].
  eapply (demo_verdict (JS := one_task_json) (JL := one_task_json_laws) 1 3); [lia| |done|by repeat constructor; set_solver|done|lia].
  intros a (n & [= ->] & Hn)%list_elem_of_fmap.
  assert (∀ n, n ∈ PEERS → answerable (JS := one_task_json) (n, board_of "ship")) as Hp; [|by apply Hp].
  intros k Hk. repeat (apply elem_of_cons in Hk as [->|Hk]; [split; vm_compute; reflexivity|]). by apply elem_of_nil in Hk.
Defined.

(** An answer that comes after its request was given up is taken for the
    answer to the next: here C's board had moved on to another title, which
    its answer to the request at hand says, and the verdict is agreement. *)
Lemma late_answer_counts :
  awaited 2 3 (answered <$> [Some ("A", board_of "ship"); Some ("B", board_of "ship"); None;
    Some ("C", board_of "ship"); Some ("A", board_of "ship"); Some ("B", board_of "ship"); Some ("C", board_of "ship v2")])
  = Some (text (board_of "ship")).
Proof. vm_compute. reflexivity. Qed.

(** The owner starts, adds the task and shows its board. *)
Lemma owner_session :
  let run line o := p ← o; '(p, _) ← command (JS := one_task_json) (JT := TaskRuns.task_json) (P := NoSink) (λ _, "") "A" 4 (Ok 100%Z) true line p; Some p in
  let start := start_peer (λ _, "") "A" (Ok 100%Z) true in
  pr_out <$> run "snapshot" (run "done t1 true" (run "add t1 ship release" start)) =
  Some ["READY A"; snap_line "A" (text {[ "t1" := mkTask "ship release" true ]})].
Proof. vm_compute. reflexivity. Qed.
End DemoRuns.
