(* ===== verification/Harness.v ===== *)
(** * The broker harness

    Models [crates/stitch-harness/src/lib.rs]: the builder of a local broker,
    the ports it takes, the password and access files it writes, and the order
    in which a broker is brought up and stopped. The agent, its database and
    the password hash are operations of other packages and arguments here; that
    a port is free is asked of the machine. *)
From Stdlib Require Import Strings.Ascii.
From S2P Require Import Prelude.

(** ** Ports *)

Definition FIRST_PORT : Z := 28800.
Definition u16_wrap (z : Z) : Z := z mod 65536.

Section ports.
Context (free : Z → bool).

(** [tries] candidates are left; the result is the counter, and the port or
    [None] for the panic. *)
Fixpoint alloc_from (tries : nat) (next : Z) : Z * option Z :=
  match tries with
  | 0 => (next, None)
  | S tries =>
    let next' := u16_wrap (next + 1) in
    if (next <? 1024)%Z then alloc_from tries next' else
    if free next then (next', Some next) else alloc_from tries next'
  end.

Definition alloc_port (next : Z) : Z * option Z := alloc_from 256 next.
End ports.

(** ** The builder *)

Inductive Access := Read | Write | ReadWrite | Deny.

Definition token (a : Access) : string :=
  match a with Read => "read" | Write => "write" | ReadWrite => "readwrite" | Deny => "deny" end.

Record AclEntry := mkAcl { acl_user : string; acl_topic : string; acl_access : Access }.

Record BrokerHarness := mkHarness {
  root_entity : string;
  scope_field : string;
  anonymous : bool;
  anonymous_set : bool;
  users : list (string * string);
  acl : list AclEntry;
  unique_constraints : list (string * list string);
}.

(** What the agent is given. *)
Record AgentSetup := mkSetup {
  ag_port : Z;
  ag_anonymous : bool;
  ag_scope : string * string;
  ag_password_file : option string;
  ag_acl_file : option string;
}.

Module BrokerHarness.
Implicit Types h : BrokerHarness.

Definition new : BrokerHarness := mkHarness "project" "projectId" true false [] [] [].

Definition scope (root field : string) h : BrokerHarness :=
  mkHarness root field (anonymous h) (anonymous_set h) (users h) (acl h) (unique_constraints h).

Definition set_anonymous (allow : bool) h : BrokerHarness :=
  mkHarness (root_entity h) (scope_field h) allow true (users h) (acl h) (unique_constraints h).

Definition user (username password : string) h : BrokerHarness :=
  mkHarness (root_entity h) (scope_field h) (if anonymous_set h then anonymous h else false) (anonymous_set h)
    (users h ++ [(username, password)]) (acl h) (unique_constraints h).

Definition allow (username topic : string) (access : Access) h : BrokerHarness :=
  mkHarness (root_entity h) (scope_field h) (anonymous h) (anonymous_set h) (users h)
    (acl h ++ [mkAcl username topic access]) (unique_constraints h).

Definition unique_constraint (entity : string) (fields : list string) h : BrokerHarness :=
  mkHarness (root_entity h) (scope_field h) (anonymous h) (anonymous_set h) (users h) (acl h)
    (unique_constraints h ++ [(entity, fields)]).

Definition newline : string := String (ascii_of_nat 10) "".

Definition acl_file h : string :=
  foldl (λ c e, c +:+ "user " +:+ acl_user e +:+ " topic " +:+ acl_topic e +:+ " permission " +:+ token (acl_access e) +:+ newline) "" (acl h).

Section start.
Context {E : Type} (free : Z → bool) (hash : string → result string E) (open_db : result () E).
(** Adding the schema of an entity, then its constraint; writing a file, by
    its name; running the agent until it is ready. *)
Context (add_schema add_unique : string → list string → result () E) (write_file : string → string → result () E).
Context (run : AgentSetup → result () E).

Fixpoint password_lines (us : list (string * string)) (contents : string) : result string E :=
  match us with
  | [] => Ok contents
  | (username, password) :: us =>
    let? h := hash password in password_lines us (contents +:+ username +:+ ":" +:+ h +:+ newline)
  end.

Fixpoint register (cs : list (string * list string)) : result () E :=
  match cs with
  | [] => Ok ()
  | (entity, fields) :: cs => let? _ := add_schema entity fields in let? _ := add_unique entity fields in register cs
  end.

Definition password_file h : result (option string) E :=
  if bool_decide (users h = []) then Ok None else
  let? contents := password_lines (users h) "" in let? _ := write_file "passwords" contents in Ok (Some contents).

Definition access_file h : result (option string) E :=
  if bool_decide (acl h = []) then Ok None else let? _ := write_file "acl" (acl_file h) in Ok (Some (acl_file h)).

(** The counter, and the running broker; [None] when no port was free.
    [open_db] stands for the temporary directory and the database in it. *)
Definition start (next : Z) h : Z * option (result AgentSetup E) :=
  match alloc_port free next with
  | (next, None) => (next, None)
  | (next, Some port) =>
    (next, Some (
      let? _ := open_db in
      let? _ := register (unique_constraints h) in
      let? passwords := password_file h in
      let? access := access_file h in
      let setup := mkSetup port (anonymous h) (root_entity h, scope_field h) passwords access in
      let? _ := run setup in Ok setup))
  end.
End start.
End BrokerHarness.

#[export] Instance AclEntry_eq_dec : EqDecision AclEntry.
Proof. assert (EqDecision Access) by solve_decision. solve_decision. Defined.

(** A running broker: the task of the agent, and the signals it was sent. *)
Record RunningBroker := mkBroker { rb_port : Z; rb_handle : bool; rb_signals : nat; rb_aborted : bool }.

Module RunningBroker.
Definition tcp_url (address : string) : string := "mqtt://" +:+ address.

(** Both send the signal; a drop that still has the task aborts it. *)
Definition drop (b : RunningBroker) : RunningBroker :=
  mkBroker (rb_port b) false (S (rb_signals b)) (rb_aborted b || rb_handle b).

(** [shutdown] takes the task, waits for it, and drops the broker. *)
Definition shutdown (b : RunningBroker) : RunningBroker :=
  drop (mkBroker (rb_port b) false (S (rb_signals b)) (rb_aborted b)).
End RunningBroker.

(** ** What was configured *)

Section laws.
Context (free : Z → bool).

Lemma alloc_from_spec tries next next' p :
  (0 ≤ next < 65536)%Z → alloc_from free tries next = (next', p) →
  ∃ k, k ≤ tries ∧ (next' = u16_wrap (next + Z.of_nat k)) ∧
    match p with
    | Some port => k ≠ 0 ∧ port = u16_wrap (next + Z.of_nat (k - 1)) ∧ (1024 ≤ port)%Z ∧ free port = true
    | None => k = tries ∧ ∀ i, i < tries → let c := u16_wrap (next + Z.of_nat i) in (1024 ≤ c)%Z → free c = false
    end.
Proof.
  revert next. induction tries as [|tries IH]; intros next Hn; cbn [alloc_from].
  - intros [= <- <-]. exists 0. rewrite Z.add_0_r. split_and!; [done|unfold u16_wrap; rewrite Z.mod_small; lia|done|lia].
  - assert (Hstep : ∀ i, u16_wrap (u16_wrap (next + 1) + Z.of_nat i) = u16_wrap (next + Z.of_nat (S i))).
    { intros i. unfold u16_wrap. rewrite Zplus_mod_idemp_l. f_equal. lia. }
    assert (Hwrap : (0 ≤ u16_wrap (next + 1) < 65536)%Z) by (unfold u16_wrap; apply Z.mod_pos_bound; lia).
    assert (Hnext : u16_wrap (next + Z.of_nat 0) = next) by (unfold u16_wrap; rewrite Z.mod_small; lia).
    assert (Hgo : alloc_from free tries (u16_wrap (next + 1)) = (next', p) → ((1024 ≤ next)%Z → free next = false) →
      ∃ k, k ≤ S tries ∧ (next' = u16_wrap (next + Z.of_nat k)) ∧
        match p with
        | Some port => k ≠ 0 ∧ port = u16_wrap (next + Z.of_nat (k - 1)) ∧ (1024 ≤ port)%Z ∧ free port = true
        | None => k = S tries ∧ ∀ i, i < S tries → let c := u16_wrap (next + Z.of_nat i) in (1024 ≤ c)%Z → free c = false
        end).
    { intros H Hf. apply IH in H as (k & Hk & Hn' & Hp); [|done]. exists (S k). rewrite Hstep in Hn'. split; [lia|]. split; [done|]. destruct p as [port|].
      - destruct Hp as (Hk0 & Hport & Hr). rewrite Hstep in Hport. replace (S (k - 1)) with (S k - 1) in Hport by lia. done.
      - destruct Hp as [-> Hall]. split; [done|]. intros [|i] Hi; [by rewrite Hnext|]. rewrite <-Hstep. apply Hall. lia. }
    destruct (next <? 1024)%Z eqn:E; [intros H; apply Hgo; [done|]; apply Z.ltb_lt in E; lia|].
    apply Z.ltb_ge in E. destruct (free next) eqn:F; [|intros H; by apply Hgo].
    intros [= <- <-]. exists 1. rewrite Nat.sub_diag, Hnext. split_and!; [lia|done..].
Qed.

Lemma u16_wrap_range z : (0 ≤ u16_wrap z < 65536)%Z.
Proof. unfold u16_wrap. apply Z.mod_pos_bound. lia. Qed.

Lemma alloc_port_spec next next' p :
  (0 ≤ next < 65536)%Z → alloc_port free next = (next', p) →
  ∃ k, k ≤ 256 ∧ (next' = u16_wrap (next + Z.of_nat k)) ∧
    match p with
    | Some port => k ≠ 0 ∧ port = u16_wrap (next + Z.of_nat (k - 1)) ∧ (1024 ≤ port)%Z ∧ free port = true
    | None => k = 256 ∧ ∀ i, i < 256 → let c := u16_wrap (next + Z.of_nat i) in (1024 ≤ c)%Z → free c = false
    end.
Proof. unfold alloc_port. exact (alloc_from_spec 256 next next' p). Qed.
End laws.

(** Ports. A port that is handed out is not a privileged one and was
    free when it was asked for; the next port handed out is another one,
    even if the first was not taken yet; and the allocation gives up
    only when none of the 256 candidates from the counter on was usable. *)
Theorem ports_allocated free free' next next' next'' p :
  (0 ≤ next < 65536)%Z → alloc_port free next = (next', p) →
  (∀ port, p = Some port → (1024 ≤ port < 65536)%Z ∧ free port = true ∧
     ∀ port', alloc_port free' next' = (next'', Some port') → port' ≠ port) ∧
  (p = None → ∀ i, i < 256 → let c := u16_wrap (next + Z.of_nat i) in (1024 ≤ c)%Z → free c = false).
Proof.
  intros Hn E. destruct (alloc_port_spec free _ _ _ Hn E) as (k & Hk & Hn' & Hp). split; [intros port ->|intros ->; by destruct Hp].
  destruct Hp as (Hk0 & -> & Hge & Hfree). split_and!; [done|apply u16_wrap_range|done|]. intros port' E'.
  destruct (alloc_port_spec free' next' next'' (Some port')) as (j & Hj & _ & (Hj0 & -> & _)); [rewrite Hn'; apply u16_wrap_range|done|].
  rewrite Hn'. unfold u16_wrap. rewrite Zplus_mod_idemp_l. intros Heq.
  pose proof (Z.div_mod (next + Z.of_nat k + Z.of_nat (j - 1)) 65536). pose proof (Z.div_mod (next + Z.of_nat (k - 1)) 65536).
  set (a := ((next + Z.of_nat k + Z.of_nat (j - 1)) / 65536)%Z) in *. set (b := ((next + Z.of_nat (k - 1)) / 65536)%Z) in *. lia.
Qed.

Inductive builder_call :=
| CScope (root field : string) | CAnonymous (allow : bool) | CUser (username password : string)
| CAllow (username topic : string) (access : Access) | CUnique (entity : string) (fields : list string).

Definition call (c : builder_call) : BrokerHarness → BrokerHarness :=
  match c with
  | CScope root field => BrokerHarness.scope root field
  | CAnonymous allow => BrokerHarness.set_anonymous allow
  | CUser username password => BrokerHarness.user username password
  | CAllow username topic access => BrokerHarness.allow username topic access
  | CUnique entity fields => BrokerHarness.unique_constraint entity fields
  end.

Definition build (cs : list builder_call) : BrokerHarness := foldl (λ h c, call c h) BrokerHarness.new cs.

(** Anonymous access. Whatever is configured in whatever order, anonymous
    access is what it was last set to; if it was never set, it is allowed
    exactly when there is no user, and then no password file is written. *)
Theorem anonymous_access cs :
  anonymous (build cs) =
    match last (omap (λ c, match c with CAnonymous a => Some a | _ => None end) cs) with
    | Some a => a
    | None => bool_decide (users (build cs) = [])
    end ∧
  ∀ E (hash : string → result string E) write,
    users (build cs) = [] ↔ BrokerHarness.password_file hash write (build cs) = Ok None.
Proof.
  split.
  - assert (H : anonymous_set (build cs) = bool_decide (is_Some (last (omap (λ c, match c with CAnonymous a => Some a | _ => None end) cs))) ∧
      anonymous (build cs) = match last (omap (λ c, match c with CAnonymous a => Some a | _ => None end) cs) with
                             | Some a => a | None => bool_decide (users (build cs) = []) end); [|apply H].
    unfold build. induction cs as [|c cs IH] using rev_ind; [done|]. rewrite foldl_app, omap_app. simpl.
    destruct IH as [IH1 IH2]. destruct c; simpl; rewrite ?app_nil_r; try done.
    + by rewrite last_snoc.
    + split; [done|]. rewrite IH1, IH2. destruct (last _); simpl; [done|]. symmetry. apply bool_decide_eq_false. by destruct (users _).
  - intros E hash write. unfold BrokerHarness.password_file. case_bool_decide as H; [done|]. split; [done|].
    destruct (BrokerHarness.password_lines _ _ _) as [s|]; simpl; [|done]. by destruct (write "passwords" s).
Qed.
