(* ===== verification/Peer.v ===== *)
(** * Peers

    [crates/mqp2p/src/peer.rs]: a peer registers with the broker and keeps its
    lease alive, and two peers meet by an offer, an answer and a sync, then
    connect directly or through a relay, each checking the certificate the
    other announced. Signaling, STUN, TURN and the inbound rendezvous are those
    of their own files. The rest of the machine (sockets, name resolution, QUIC
    handshakes, timers) is the class [Machine] on the world of the MQTT client:
    an operation says what the machine answers, and handshakes are given the
    certificate check of the code. Identifiers, datagrams and connections are
    the world's; a log line has no counterpart. The configurations of an
    endpoint and the methods of a connection are in Endpoint.v. *)
From S2P Require Import Prelude SyncState Membership Discovery Json P2pStore Net Turn Stun TurnClient QuicAccept Signaling.

(** Milliseconds. *)
Definition STUN_REDISCOVER_TIMEOUT : Z := 3000.
Definition TURN_LIFETIME_SECS : Z := 600.
Definition TURN_SETUP_TIMEOUT : Z := 5000.
Definition CANDIDATE_TIMEOUT : Z := 5000.
Definition ACCEPT_TIMEOUT : Z := 10000.
Definition RELAY_ACCEPT_MARGIN : Z := 2000.
Definition SIGNALING_TIMEOUT : Z := 10000.
Definition DEFAULT_STUN_SERVER : string := "stun.l.google.com:19302".

Definition relay_accept_timeout (direct_candidates : nat) : Z :=
  CANDIDATE_TIMEOUT * (Z.of_nat direct_candidates + 1) + RELAY_ACCEPT_MARGIN.

Record TurnServer := mkTurnServer { ts_server : string; ts_username : string; ts_password : string }.

Inductive SegmentationOffload := Enabled | Disabled.

#[global] Instance SegmentationOffload_eq_dec : EqDecision SegmentationOffload.
Proof. solve_decision. Defined.

(** [quinn::TransportConfig]. *)
Class TransportConfig (T : Type) := {
  default_transport : T;
  enable_segmentation_offload : bool → T → T;
}.

(** ** Configuration *)

Record PeerConfig (T : Type) := mkPeerConfig {
  pc_name : string;
  pc_broker_addr : string;
  pc_bind_addr : SocketAddr;
  pc_stun_server : option string;
  pc_turn : option TurnServer;
  pc_credentials : option (string * string);
  pc_lease_secs : Z;
  pc_keepalive_secs : option Z;
  pc_presence : bool;
  pc_segmentation_offload : option SegmentationOffload;
  pc_transport_config : option T;
  pc_ed25519_seed : option (list byte);
}.
Arguments mkPeerConfig {T}.
Arguments pc_name {T}.
Arguments pc_broker_addr {T}.
Arguments pc_bind_addr {T}.
Arguments pc_stun_server {T}.
Arguments pc_turn {T}.
Arguments pc_credentials {T}.
Arguments pc_lease_secs {T}.
Arguments pc_keepalive_secs {T}.
Arguments pc_presence {T}.
Arguments pc_segmentation_offload {T}.
Arguments pc_transport_config {T}.
Arguments pc_ed25519_seed {T}.

Definition offload_override (offload : option SegmentationOffload) : option bool :=
  (λ o, bool_decide (o = Enabled)) <$> offload.

Module PeerConfig.
Section config.
Context {T : Type}.
Implicit Types c : PeerConfig T.

Definition new (name broker_addr : string) : PeerConfig T :=
  mkPeerConfig name broker_addr unspecified_server (Some DEFAULT_STUN_SERVER) None None PEER_LEASE_SECS None false None None None.

Definition with_lease_secs (lease_secs : Z) c : PeerConfig T :=
  mkPeerConfig (pc_name c) (pc_broker_addr c) (pc_bind_addr c) (pc_stun_server c) (pc_turn c) (pc_credentials c) lease_secs
    (pc_keepalive_secs c) (pc_presence c) (pc_segmentation_offload c) (pc_transport_config c) (pc_ed25519_seed c).

Definition with_keepalive_secs (keepalive_secs : Z) c : PeerConfig T :=
  mkPeerConfig (pc_name c) (pc_broker_addr c) (pc_bind_addr c) (pc_stun_server c) (pc_turn c) (pc_credentials c) (pc_lease_secs c)
    (Some keepalive_secs) (pc_presence c) (pc_segmentation_offload c) (pc_transport_config c) (pc_ed25519_seed c).

Definition with_presence c : PeerConfig T :=
  mkPeerConfig (pc_name c) (pc_broker_addr c) (pc_bind_addr c) (pc_stun_server c) (pc_turn c) (pc_credentials c) (pc_lease_secs c)
    (pc_keepalive_secs c) true (pc_segmentation_offload c) (pc_transport_config c) (pc_ed25519_seed c).

Definition effective_lease_secs c : Z := Z.max (pc_lease_secs c) MIN_LEASE_SECS.

Definition effective_keepalive_secs c : Z :=
  default (heartbeat_interval_secs (effective_lease_secs c)) (pc_keepalive_secs c).

Definition with_bind_addr (addr : SocketAddr) c : PeerConfig T :=
  mkPeerConfig (pc_name c) (pc_broker_addr c) addr (pc_stun_server c) (pc_turn c) (pc_credentials c) (pc_lease_secs c)
    (pc_keepalive_secs c) (pc_presence c) (pc_segmentation_offload c) (pc_transport_config c) (pc_ed25519_seed c).

Definition with_stun_server (server : string) c : PeerConfig T :=
  mkPeerConfig (pc_name c) (pc_broker_addr c) (pc_bind_addr c) (Some server) (pc_turn c) (pc_credentials c) (pc_lease_secs c)
    (pc_keepalive_secs c) (pc_presence c) (pc_segmentation_offload c) (pc_transport_config c) (pc_ed25519_seed c).

Definition without_stun c : PeerConfig T :=
  mkPeerConfig (pc_name c) (pc_broker_addr c) (pc_bind_addr c) None (pc_turn c) (pc_credentials c) (pc_lease_secs c)
    (pc_keepalive_secs c) (pc_presence c) (pc_segmentation_offload c) (pc_transport_config c) (pc_ed25519_seed c).

Definition with_turn (server username password : string) c : PeerConfig T :=
  mkPeerConfig (pc_name c) (pc_broker_addr c) (pc_bind_addr c) (pc_stun_server c) (Some (mkTurnServer server username password))
    (pc_credentials c) (pc_lease_secs c)
    (pc_keepalive_secs c) (pc_presence c) (pc_segmentation_offload c) (pc_transport_config c) (pc_ed25519_seed c).

Definition set_offload (o : SegmentationOffload) c : PeerConfig T :=
  mkPeerConfig (pc_name c) (pc_broker_addr c) (pc_bind_addr c) (pc_stun_server c) (pc_turn c) (pc_credentials c) (pc_lease_secs c)
    (pc_keepalive_secs c) (pc_presence c) (Some o) (pc_transport_config c) (pc_ed25519_seed c).
Definition with_segmentation_offload c : PeerConfig T := set_offload Enabled c.
Definition without_segmentation_offload c : PeerConfig T := set_offload Disabled c.

Definition with_transport_config (transport : T) c : PeerConfig T :=
  mkPeerConfig (pc_name c) (pc_broker_addr c) (pc_bind_addr c) (pc_stun_server c) (pc_turn c) (pc_credentials c) (pc_lease_secs c)
    (pc_keepalive_secs c) (pc_presence c) (pc_segmentation_offload c) (Some transport) (pc_ed25519_seed c).

Definition with_credentials (username password : string) c : PeerConfig T :=
  mkPeerConfig (pc_name c) (pc_broker_addr c) (pc_bind_addr c) (pc_stun_server c) (pc_turn c) (Some (username, password)) (pc_lease_secs c)
    (pc_keepalive_secs c) (pc_presence c) (pc_segmentation_offload c) (pc_transport_config c) (pc_ed25519_seed c).

Definition with_ed25519_identity (seed : list byte) c : PeerConfig T :=
  mkPeerConfig (pc_name c) (pc_broker_addr c) (pc_bind_addr c) (pc_stun_server c) (pc_turn c) (pc_credentials c) (pc_lease_secs c)
    (pc_keepalive_secs c) (pc_presence c) (pc_segmentation_offload c) (pc_transport_config c) (Some seed).
End config.
End PeerConfig.

(** ** The machine *)

(** What the steps of a TURN setup met: the resolver, the socket, the
    datagrams, and whether the setup ended within its timeout. *)
Record TurnSetup := mkTurnSetup {
  tu_lookup : result (list SocketAddr) IoError;
  tu_bound : result () IoError;
  tu_connected : result () IoError;
  tu_script : list Attempt;
  tu_in_time : bool;
}.

(** What an exchange with the STUN server met: the resolver, the random
    generator, the sends, the answers on the plain socket and on the tap. *)
Record StunExchange := mkStunExchange {
  se_lookup : result (list SocketAddr) IoError;
  se_random : option (list byte);
  se_send : list byte → SocketAddr → result () IoError;
  se_received : option (result (list byte) IoError);
  se_local_addr : result SocketAddr IoError;
  se_events : list TapEvent;
}.

(** What happens at an endpoint while a caller waits: a connection completes
    its handshake at a time, at which some other callers are gone, or the
    endpoint closes. *)
Inductive InEvent (Conn : Type) :=
| Arrives (c : Conn) (now : Z) (gone : Z → bool)
| EndpointClosed.
Arguments Arrives {Conn}.
Arguments EndpointClosed {Conn}.

Inductive Side := DirectSide | RelaySide.

(** A race between the two endpoints: which is polled first, the connections
    that reach the relay's before it is polled, and the events after. *)
Record Race (Conn : Type) := mkRace { ra_first : Side; ra_early : list (Conn * Z); ra_events : list (Side * InEvent Conn) }.
Arguments mkRace {Conn}.
Arguments ra_first {Conn}.
Arguments ra_early {Conn}.
Arguments ra_events {Conn}.

Class Machine (W Conn : Type) := {
  mc_bind : SocketAddr → W → W * result SocketAddr IoError;
  mc_probe_ip : string → W → W * result IpAddr IoError;
  mc_clone_socket : W → W * result () IoError;
  mc_send_to : list byte → SocketAddr → W → W * ();
  mc_stun : string → W → W * StunExchange;
  mc_turn : string → W → W * TurnSetup;
  mc_turn_script : W → W * list Attempt;
  mc_bind_endpoint : W → W * result () Error;
  mc_local_port : W → W * result Z ();
  mc_sleep : Z → W → W * ();
  mc_dial : option TurnRelaySocket → (list byte → result () string) → SocketAddr → Z → W → W * option (result Conn Error);
  mc_inbound : Z → W → W * list (InEvent Conn);
  mc_race : Z → W → W * Race Conn;
  mc_alive : W → W * (Conn → bool);
  certs : Conn → option (list (list byte));
  remote_address : Conn → SocketAddr;
}.

(** TLS completes a client handshake only if the verifier accepts the
    certificate the server presented, and keeps that certificate. *)
Class MachineLaws {W Conn : Type} {MA : Machine W Conn} := {
  dial_verified via verify a t w w' c :
    mc_dial via verify a t w = (w', Some (Ok c)) → ∃ cert chain, certs c = Some (cert :: chain) ∧ verify cert = Ok ();
}.

(** ** The peer *)

(** The task that [register] spawns, with what it captured and the address it
    published last. *)
Record Heartbeat := mkHeartbeat {
  hb_id : string;
  hb_name : string;
  hb_quic_port : Z;
  hb_fingerprint : string;
  hb_public_addr : option string;
  hb_lease_secs : Z;
  hb_rediscovery : option string;
}.

Record Peer (W Conn : Type) := mkPeer {
  p_name : string;
  p_identity : CertIdentity;
  p_signaling : SignalingClient W;
  p_accept : AcceptState Conn;
  p_record_id : string;
  p_peer_id : option string;
  p_host_addr : SocketAddr;
  p_srflx_addr : option SocketAddr;
  p_turn : option TurnServer;
  p_lease_secs : Z;
  p_heartbeat : option Heartbeat;
  p_stun_responses : bool;
  p_stun_server : option string;
}.
Arguments mkPeer {W Conn}.
Arguments p_name {W Conn}.
Arguments p_identity {W Conn}.
Arguments p_signaling {W Conn}.
Arguments p_accept {W Conn}.
Arguments p_record_id {W Conn}.
Arguments p_peer_id {W Conn}.
Arguments p_host_addr {W Conn}.
Arguments p_srflx_addr {W Conn}.
Arguments p_turn {W Conn}.
Arguments p_lease_secs {W Conn}.
Arguments p_heartbeat {W Conn}.
Arguments p_stun_responses {W Conn}.
Arguments p_stun_server {W Conn}.

(** An established connection; a relayed one keeps its relay socket. *)
Record P2pConnection (Conn : Type) := mkP2p {
  pp_connection : Conn;
  pp_remote_peer : PeerInfo;
  pp_remote_public_key : option (list byte);
  pp_relay_endpoint : option TurnRelaySocket;
}.
Arguments mkP2p {Conn}.
Arguments pp_connection {Conn}.
Arguments pp_remote_peer {Conn}.
Arguments pp_remote_public_key {Conn}.
Arguments pp_relay_endpoint {Conn}.

Definition is_relayed {Conn} (c : P2pConnection Conn) : bool := bool_decide (is_Some (pp_relay_endpoint c)).

Definition probe_payload : list byte := [x50; x32; x50; x50].

(** ** Waiting for a connection *)

Section waiting.
Context {W Conn : Type} {MA : Machine W Conn} {HI : HashIter} {CO : CertOps}.
Implicit Types s : AcceptState Conn.

Definition handed (id : Z) (es : list (Effect Conn)) : option Conn :=
  head (omap (λ e, match e with Handed i c => if bool_decide (i = id) then Some c else None | _ => None end) es).

(** An event at an endpoint where [id] waits. *)
Definition in_event (id : Z) s (e : InEvent Conn) : AcceptState Conn * option (result Conn Error) :=
  match e with
  | Arrives c now gone =>
    let (s, es) := inbound s (λ i, bool_decide (i ≠ id) && gone i) (certs c) c now in
    (s, Ok <$> handed id es)
  | EndpointClosed => ((close_all s).1, Some (Err (Quic "endpoint closed")))
  end.

(** The wait of [accept_with_fingerprint]; the guard takes the waiter out when
    it ends, and the events end with the timeout. *)
Fixpoint await_handed (id : Z) (fp : string) s (events : list (InEvent Conn)) : AcceptState Conn * option (result Conn Error) :=
  match events with
  | [] => (remove_waiter s fp id, None)
  | e :: events =>
    match in_event id s e with
    | (s, Some r) => (remove_waiter s fp id, Some r)
    | (s, None) => await_handed id fp s events
    end
  end.

Definition accept_within (alive : Conn → bool) (fp : string) (events : list (InEvent Conn)) s
    : AcceptState Conn * option (result Conn Error) :=
  match accept_with_fingerprint s alive fp with
  | (s, _, Err e) => (s, Some (Err e))
  | (s, _, Ok (Connection c)) => (s, Some (Ok c))
  | (s, _, Ok (Waiting id)) => await_handed id fp s events
  end.

(** [tokio::select!] once both sides wait; the relay's endpoint is dropped
    with its state. *)
Fixpoint race_handed (id_d id_r : Z) (fp : string) s (relay : AcceptState Conn) (events : list (Side * InEvent Conn))
    : AcceptState Conn * option (Side * result Conn Error) :=
  match events with
  | [] => (remove_waiter s fp id_d, None)
  | (DirectSide, e) :: events =>
    match in_event id_d s e with
    | (s, Some r) => (remove_waiter s fp id_d, Some (DirectSide, r))
    | (s, None) => race_handed id_d id_r fp s relay events
    end
  | (RelaySide, e) :: events =>
    match in_event id_r relay e with
    | (_, Some r) => (remove_waiter s fp id_d, Some (RelaySide, r))
    | (relay, None) => race_handed id_d id_r fp s relay events
    end
  end.

(** The relay's endpoint when it is first polled. *)
Definition early_arrivals (early : list (Conn * Z)) : AcceptState Conn :=
  foldl (λ s a, (inbound s (λ _, false) (certs a.1) a.1 a.2).1) default_state early.

(** [select!] polls the two in either order. *)
Definition race_accept (alive : Conn → bool) (fp : string) (r : Race Conn) s : AcceptState Conn * option (Side * result Conn Error) :=
  let relay_poll := accept_with_fingerprint (early_arrivals (ra_early r)) alive fp in
  match ra_first r, relay_poll with
  | RelaySide, (_, _, Err e) => (s, Some (RelaySide, Err e))
  | RelaySide, (_, _, Ok (Connection c)) => (s, Some (RelaySide, Ok c))
  | _, _ =>
    match accept_with_fingerprint s alive fp with
    | (s, _, Err e) => (s, Some (DirectSide, Err e))
    | (s, _, Ok (Connection c)) => (s, Some (DirectSide, Ok c))
    | (s, _, Ok (Waiting id_d)) =>
      match relay_poll with
      | (_, _, Err e) => (remove_waiter s fp id_d, Some (RelaySide, Err e))
      | (_, _, Ok (Connection c)) => (remove_waiter s fp id_d, Some (RelaySide, Ok c))
      | (relay, _, Ok (Waiting id_r)) => race_handed id_d id_r fp s relay (ra_events r)
      end
    end
  end.
End waiting.

(** ** Operations *)

Module Peer.
Section ops.
Context {W Conn T : Type} {MC : MqttClient W} {MA : Machine W Conn} {TR : TransportConfig T}.
Context {JT : JsonText} {JS : JsonSyntax} {AT : AddrText} {HI : HashIter} {CO : CertOps} {TC : TurnCrypto}.
Context (new_transaction_id : nat → list byte).
Abbreviation Self := (Peer W Conn).

Definition set_signaling (g : SignalingClient W) (p : Self) : Self :=
  mkPeer (p_name p) (p_identity p) g (p_accept p) (p_record_id p) (p_peer_id p) (p_host_addr p) (p_srflx_addr p)
    (p_turn p) (p_lease_secs p) (p_heartbeat p) (p_stun_responses p) (p_stun_server p).
Definition set_accept (a : AcceptState Conn) (p : Self) : Self :=
  mkPeer (p_name p) (p_identity p) (p_signaling p) a (p_record_id p) (p_peer_id p) (p_host_addr p) (p_srflx_addr p)
    (p_turn p) (p_lease_secs p) (p_heartbeat p) (p_stun_responses p) (p_stun_server p).
Definition set_peer_id (i : string) (p : Self) : Self :=
  mkPeer (p_name p) (p_identity p) (p_signaling p) (p_accept p) (p_record_id p) (Some i) (p_host_addr p) (p_srflx_addr p)
    (p_turn p) (p_lease_secs p) (p_heartbeat p) (p_stun_responses p) (p_stun_server p).
Definition set_heartbeat (h : option Heartbeat) (responses : bool) (p : Self) : Self :=
  mkPeer (p_name p) (p_identity p) (p_signaling p) (p_accept p) (p_record_id p) (p_peer_id p) (p_host_addr p) (p_srflx_addr p)
    (p_turn p) (p_lease_secs p) h responses (p_stun_server p).

Definition sig {A} (m : action (SignalingClient W) Error A) : action Self Error A := azoom p_signaling set_signaling m.
Definition machine {A} (f : W → W * A) : action Self Error A := sig (SignalingClient.world f).
(** [f()?] of an [io::Error]. *)
Definition machine_io {A} (f : W → W * result A IoError) : action Self Error A :=
  let! r := machine f in alift (map_err Io r).

(** *** Start *)

Definition establish_signaling (broker_addr : string) (presence : bool) : action (SignalingClient W) Error () :=
  SignalingClient.connect broker_addr ;;
  if presence then SignalingClient.track_presence else aret ().

Definition is_unspecified (ip : IpAddr) : bool :=
  match ip with V4 o => bool_decide (o = replicate 4 x00) | V6 o => bool_decide (o = replicate 16 x00) end.

(** The address a peer finds with STUN; a failure is logged. *)
Definition discover (server : string) (e : StunExchange) : option SocketAddr :=
  match discover_external_addr (resolve_server server (se_lookup e)) (random_txn_id (se_random e)) (se_send e) (se_received e) (se_local_addr e) with
  | Some (Ok addr) => Some addr
  | _ => None
  end.

(** The transport a peer uses, its offload setting overridden when chosen. *)
Definition peer_transport (c : PeerConfig T) : T :=
  let transport := default default_transport (pc_transport_config c) in
  match offload_override (pc_segmentation_offload c) with
  | Some enabled => enable_segmentation_offload enabled transport
  | None => transport
  end.

(** The MQTT client's identifier and keepalive. *)
Definition connect_options (c : PeerConfig T) : string * Z := (client_id_for (pc_name c), PeerConfig.effective_keepalive_secs c).

(** [w] is the world of a new MQTT client with [connect_options]. Binding and
    cloning the socket can fail, and so can the QUIC endpoint. *)
Definition new (config : PeerConfig T) : action (SignalingClient W) Error Self :=
  let! identity := alift (match pc_ed25519_seed config with
    | Some seed => cert_from_ed25519_seed seed
    | None => generate_self_signed_cert
    end) in
  let io {A} (f : W → W * result A IoError) : action (SignalingClient W) Error A :=
    let! r := SignalingClient.world f in alift (map_err Io r) in
  let! local_addr := io (mc_bind (pc_bind_addr config)) in
  let! host_addr := (if is_unspecified (addr_ip local_addr)
    then let! real_ip := io (mc_probe_ip (pc_broker_addr config)) in aret (socket_addr real_ip (addr_port local_addr))
    else aret local_addr) in
  let! srflx_addr := (match pc_stun_server config with
    | Some server =>
      io mc_clone_socket ;;
      let! e := SignalingClient.world (mc_stun server) in
      aret (discover server e)
    | None => aret None
    end) in
  io mc_clone_socket ;;
  let! bound := SignalingClient.world mc_bind_endpoint in
  alift bound ;;
  try! established := establish_signaling (pc_broker_addr config) (pc_presence config) in
  match established with
  | Err e => try! _ := SignalingClient.disconnect in athrow e
  | Ok _ =>
    let! record_id := SignalingClient.world new_uuid in
    λ s, (s, Ok (mkPeer (pc_name config) identity s default_state record_id None host_addr srflx_addr
      (pc_turn config) (PeerConfig.effective_lease_secs config) None true (pc_stun_server config)))
  end.

(** *** Registration *)

Definition register : action Self Error string :=
  let! port := machine mc_local_port in
  let! quic_port := alift (map_err (λ _, Quic "") port) in
  let! p := aget id in
  let peer_id := p_record_id p in
  let public_addr := addr_to_string <$> p_srflx_addr p in
  sig (SignalingClient.register_peer peer_id (p_name p) quic_port (fingerprint (p_identity p)) public_addr (p_lease_secs p)) ;;
  amodify (set_peer_id peer_id) ;;
  let rediscovery := if p_stun_responses p then p_stun_server p else None in
  amodify (set_heartbeat (Some (mkHeartbeat peer_id (p_name p) quic_port (fingerprint (p_identity p)) public_addr (p_lease_secs p) rediscovery)) false) ;;
  aret peer_id.

(** A tick of the heartbeat after the first: the address is looked up again
    and published when it changed, then the lease is renewed. Failures are
    logged. *)
Definition rediscover_round (h : Heartbeat) : action (SignalingClient W) Error (option string) :=
  match hb_rediscovery h with
  | None => aret (hb_public_addr h)
  | Some server =>
    let! e := SignalingClient.world (mc_stun server) in
    match rediscover_srflx (resolve_server server (se_lookup e)) (random_txn_id (se_random e)) (se_send e) (se_events e ++ [Elapsed]) with
    | Some (Ok addr) =>
      if bool_decide (hb_public_addr h ≠ Some (addr_to_string addr)) then
        try! updated := SignalingClient.update_peer_addr (hb_id h) addr in
        aret (match updated with Ok _ => Some (addr_to_string addr) | Err _ => hb_public_addr h end)
      else aret (hb_public_addr h)
    | _ => aret (hb_public_addr h)
    end
  end.

Definition heartbeat_round (h : Heartbeat) : action (SignalingClient W) Error Heartbeat :=
  let! current := rediscover_round h in
  try! _ := SignalingClient.ensure_registered (hb_id h) (hb_name h) (hb_quic_port h) (hb_fingerprint h) current (hb_lease_secs h) in
  aret (mkHeartbeat (hb_id h) (hb_name h) (hb_quic_port h) (hb_fingerprint h) current (hb_lease_secs h) (hb_rediscovery h)).

Definition discover_peers : action Self Error (list PeerInfo) := sig SignalingClient.list_peers.

(** The endpoint's tasks run on until the peer is dropped. *)
Definition disconnect : action Self Error () :=
  let! p := aget id in
  amodify (set_heartbeat None (p_stun_responses p)) ;;
  (match p_peer_id p with
   | Some peer_id => try! _ := sig (SignalingClient.deregister_peer peer_id) in aret ()
   | None => aret ()
   end) ;;
  try! _ := sig SignalingClient.disconnect in
  amodify (λ p, set_accept (close_all (p_accept p)).1 p).

(** *** Candidates *)

(** A TURN client with its session. *)
Abbreviation Relay := (TurnClient * Run)%type.

Definition setup_turn (turn : TurnServer) (e : TurnSetup) : Run * result TurnClient Error :=
  let failed err := (mkRun (fresh_inner (mkConfig unspecified_server "" "" 0)) [] 0, Err err) in
  match tu_lookup e with
  | Err _ => failed (Net.Turn "TURN server resolve failed")
  | Ok addrs =>
    match head addrs with
    | None => failed (Net.Turn "TURN server resolved to no addresses")
    | Some server =>
      TurnClient.connect new_transaction_id (mkConfig server (ts_username turn) (ts_password turn) TURN_LIFETIME_SECS)
        (tu_bound e) (tu_connected e) (tu_script e)
    end
  end.

Definition allocate_relay : action Self Error (option Relay) :=
  let! turn := aget p_turn in
  match turn with
  | None => aret None
  | Some turn_server =>
    let! e := machine (mc_turn (ts_server turn_server)) in
    aret (if tu_in_time e then
            match setup_turn turn_server e with (run, Ok client) => Some (client, run) | (_, Err _) => None end
          else None)
  end.

(** Host, then server-reflexive, then relayed. *)
Definition direct_list (p : Self) : list Candidate :=
  mkCandidate (p_host_addr p) Host :: match p_srflx_addr p with Some a => [mkCandidate a Srflx] | None => [] end.
Definition own_candidates (p : Self) (turn : option Relay) : list Candidate :=
  direct_list p ++ match turn with Some (client, _) => [mkCandidate (tc_relayed_addr client) Signaling.Relay] | None => [] end.

Definition addrs_of (k : CandidateKind) (cs : list Candidate) : list SocketAddr := c_addr <$> filter (λ c, c_kind c = k) cs.

Definition ordered_candidates (cs : list Candidate) : list SocketAddr := addrs_of Srflx cs ++ addrs_of Host cs.

Definition relay_candidate (cs : list Candidate) : option SocketAddr := head (addrs_of Signaling.Relay cs).

(** *** Connecting *)

(** Binding the channel, and the QUIC endpoint on the relay's socket. *)
Definition relay_endpoint (turn : Relay) (peer_relayed : SocketAddr) : action Self Error TurnRelaySocket :=
  let! script := machine mc_turn_script in
  match TurnClient.relay_socket new_transaction_id turn.1 peer_relayed (mkRun (run_inner turn.2) script (run_ids turn.2)) with
  | (_, Err e) => athrow e
  | (_, Ok (_, socket)) =>
    let! bound := machine mc_bind_endpoint in
    alift bound ;;
    aret socket
  end.

(** [QuicEndpoint::connect] within the candidate's timeout. *)
Definition dial (via : option TurnRelaySocket) (addr : SocketAddr) (fp : string) : action Self Error (option (result Conn Error)) :=
  machine (mc_dial via (verify_server_cert fp) addr CANDIDATE_TIMEOUT).

Definition connect_via_relay (turn : Relay) (relay_addr : SocketAddr) (fp : string) : action Self Error (Conn * TurnRelaySocket) :=
  let! endpoint := relay_endpoint turn relay_addr in
  let! out := dial (Some endpoint) relay_addr fp in
  match out with
  | None => athrow (Quic "relay candidate timed out")
  | Some (Err e) => athrow e
  | Some (Ok connection) => aret (connection, endpoint)
  end.

(** A probe that opens the way through a NAT; its failure is ignored. *)
Definition send_probe (addr : SocketAddr) : action Self Error () :=
  machine_io mc_clone_socket ;;
  machine (mc_send_to probe_payload addr).

Fixpoint try_candidates (fp : string) (addrs : list SocketAddr) : action Self Error (option Conn) :=
  match addrs with
  | [] => aret None
  | remote_addr :: addrs =>
    send_probe remote_addr ;;
    let! out := dial None remote_addr fp in
    match out with
    | Some (Ok conn) => aret (Some conn)
    | _ => try_candidates fp addrs
    end
  end.

(** The relay attempt of [connect_to]. *)
Definition try_relay (fp : string) (relay_addr : option SocketAddr) (turn : option Relay) (direct : option Conn)
    : action Self Error (option (Conn * option TurnRelaySocket)) :=
  match direct, relay_addr, turn with
  | Some conn, _, _ => aret (Some (conn, None))
  | None, Some relay_addr, Some turn =>
    try! relayed := connect_via_relay turn relay_addr fp in
    aret (match relayed with Ok (conn, endpoint) => Some (conn, Some endpoint) | Err _ => None end)
  | None, _, _ => aret None
  end.

Definition my_peer_id : action Self Error string :=
  let! id := aget p_peer_id in alift (ok_or id (Signaling "not registered")).

(** [elapsed().as_millis() as u64]. *)
Definition elapsed_ms (since now : Z) : Z := u64_wrap (duration_since now since / 1000000).

(** The exchange of offer and answer, and the sync: the answer, and the relay
    the offer announced. *)
Definition negotiate (target : PeerInfo) : action Self Error (ConnectionOffer * option Relay) :=
  let! my_peer_id := my_peer_id in
  let! session_id := machine new_uuid in
  let! answer_rx := sig (SignalingClient.subscribe_answers my_peer_id) in
  let! turn := allocate_relay in
  let! p := aget id in
  let offer := mkOffer my_peer_id session_id (fingerprint (p_identity p)) (own_candidates p turn) in
  let! offer_sent := machine instant_now in
  sig (SignalingClient.send_offer (pi_id target) offer) ;;
  let! received := sig (SignalingClient.recv_async answer_rx (Some SIGNALING_TIMEOUT)) in
  match received with
  | Err TimedOut => athrow (Signaling "timeout waiting for connection answer")
  | Err Disconnected => athrow (Signaling "answer channel closed")
  | Ok answer =>
    let! now := machine instant_now in
    if bool_decide (o_session_id answer ≠ session_id) then
      athrow (Signaling ("session ID mismatch: expected " +:+ session_id +:+ ", got " +:+ o_session_id answer))
    else if bool_decide (ordered_candidates (o_candidates answer) = [] ∧ relay_candidate (o_candidates answer) = None) then
      athrow (Signaling "no candidates in answer")
    else
      sig (SignalingClient.send_sync (o_from answer) (mkSync my_peer_id session_id (elapsed_ms offer_sent now))) ;;
      aret (answer, turn)
  end.

Definition connect_to (target : PeerInfo) : action Self Error (P2pConnection Conn) :=
  let! '(answer, turn) := negotiate target in
  let fp := o_cert_fingerprint answer in
  let! direct := try_candidates fp (ordered_candidates (o_candidates answer)) in
  let! found := try_relay fp (relay_candidate (o_candidates answer)) turn direct in
  match found with
  | None => athrow (Quic "all candidates exhausted")
  | Some (connection, relay_endpoint) =>
    aret (mkP2p connection target (peer_public_key (certs connection)) relay_endpoint)
  end.

(** *** Accepting *)

Definition timeout_inbound {A} : action Self Error A := athrow (Signaling "timeout waiting for inbound connection").

Definition accept_direct (fp : string) (timeout : Z) : action Self Error Conn :=
  let! alive := machine mc_alive in
  let! events := machine (mc_inbound timeout) in
  λ p, let (a, out) := accept_within alive fp events (p_accept p) in
       match out with
       | None => timeout_inbound (set_accept a p)
       | Some r => alift r (set_accept a p)
       end.

Definition accept_direct_or_relay (fp : string) (relay : option (Relay * SocketAddr)) (direct_candidates : nat)
    : action Self Error (Conn * option TurnRelaySocket) :=
  match relay with
  | None => let! c := accept_direct fp ACCEPT_TIMEOUT in aret (c, None)
  | Some (turn, relay_addr) =>
    try! endpoint := relay_endpoint turn relay_addr in
    match endpoint with
    | Err _ => let! c := accept_direct fp ACCEPT_TIMEOUT in aret (c, None)
    | Ok endpoint =>
      let! alive := machine mc_alive in
      let! race := machine (mc_race (relay_accept_timeout direct_candidates)) in
      λ p, let (a, out) := race_accept alive fp race (p_accept p) in
           match out with
           | None => timeout_inbound (set_accept a p)
           | Some (side, r) =>
             (let! c := alift r in
              aret (c, match side with DirectSide => None | RelaySide => Some endpoint end)) (set_accept a p)
           end
    end
  end.

(** The exchange seen from the other side: the offer, the relay when both
    sides have one, and the number of direct candidates announced. *)
Definition answer_offer : action Self Error (ConnectionOffer * option (Relay * SocketAddr) * nat) :=
  let! my_peer_id := my_peer_id in
  let! offer_rx := sig (SignalingClient.subscribe_offers my_peer_id) in
  let! sync_rx := sig (SignalingClient.subscribe_sync my_peer_id) in
  let! received := sig (SignalingClient.recv_async offer_rx None) in
  let! offer := alift (map_err (λ _, Signaling "offer channel closed") received) in
  let relay_addr := relay_candidate (o_candidates offer) in
  let! turn := (match relay_addr with Some _ => allocate_relay | None => aret None end) in
  let! p := aget id in
  let answer := mkOffer my_peer_id (o_session_id offer) (fingerprint (p_identity p)) (own_candidates p turn) in
  sig (SignalingClient.send_answer (o_from offer) answer) ;;
  if negb (existsb (λ c, is_connectable (c_kind c)) (o_candidates offer)) then
    athrow (Signaling "no connectable candidates in offer")
  else
  let! synced := sig (SignalingClient.recv_async sync_rx (Some SIGNALING_TIMEOUT)) in
  match synced with
  | Err TimedOut => athrow (Signaling "timeout waiting for sync")
  | Err Disconnected => athrow (Signaling "sync channel closed")
  | Ok sync =>
    machine (mc_sleep (y_rtt_ms sync / 2)) ;;
    aret (offer, match turn, relay_addr with Some t, Some a => Some (t, a) | _, _ => None end, length (direct_list p))
  end.

Definition accept_connection : action Self Error (P2pConnection Conn) :=
  let! '(offer, relay, direct_candidates) := answer_offer in
  afor (λ c, send_probe (c_addr c)) (filter (λ c, is_direct (c_kind c) = true) (o_candidates offer)) ;;
  let! '(connection, relay_endpoint) := accept_direct_or_relay (o_cert_fingerprint offer) relay direct_candidates in
  let remote_addr := remote_address connection in
  let remote_peer := mkPeerInfo (o_from offer) "" "connected" (addr_port remote_addr) (o_cert_fingerprint offer)
    (Some (addr_to_string remote_addr)) None None in
  aret (mkP2p connection remote_peer (peer_public_key (certs connection)) relay_endpoint).
End ops.
End Peer.

(** Reading an offer or an answer off the wire. *)
Abbreviation read_offer := (λ payload, parse payload ≫= decode_offer (N := Syntax)).

(** ** Steps that succeed *)

Section steps.
Context {W Conn : Type} {MC : MqttClient W} {MA : Machine W Conn}.
Context {JT : JsonText} {JS : JsonSyntax} {AT : AddrText} {HI : HashIter} {CO : CertOps} {TC : TurnCrypto}.
Context (new_transaction_id : nat → list byte).
Implicit Types p q : Peer W Conn.

(** From [p] to [q] the world moved on and the messages were published. *)
Definition advances (msgs : list (string * list byte)) p q : Prop :=
  ∃ w, q = Peer.set_signaling (mkSignaling w (sc_sent (p_signaling p) ++ msgs) (sc_presence (p_signaling p)) (sc_leases (p_signaling p))) p.

Lemma advances_refl p : advances [] p p.
Proof. exists (sc_client (p_signaling p)). rewrite app_nil_r. by destruct p as [? ? [] ? ? ? ? ? ? ? ? ? ?]. Qed.

Lemma advances_trans m1 m2 p q r : advances m1 p q → advances m2 q r → advances (m1 ++ m2) p r.
Proof. intros [w1 ->] [w2 ->]. exists w2. unfold Peer.set_signaling. simpl. by rewrite app_assoc. Qed.

(** What the signaling of a peer does, as a step of the peer. *)
Lemma sig_Ok {A} (m : action (SignalingClient W) Error A) p q a :
  Peer.sig m p = (q, Ok a) → ∃ g, m (p_signaling p) = (g, Ok a) ∧ q = Peer.set_signaling g p.
Proof. unfold Peer.sig, azoom. destruct (m (p_signaling p)) as [g r]. intros [= <- ->]. by exists g. Qed.

Lemma machine_Ok {A} (f : W → W * A) p q a : Peer.machine f p = (q, Ok a) → advances [] p q ∧ ∃ w w', f w = (w', a).
Proof.
  intros (g & H & ->)%sig_Ok. unfold SignalingClient.world in H. destruct (f _) as [w' x] eqn:E. injection H as <- <-.
  split; [|by eexists _, _]. exists w'. by rewrite app_nil_r.
Qed.

Lemma machine_io_Ok {A} (f : W → W * result A IoError) p q a : Peer.machine_io f p = (q, Ok a) → advances [] p q.
Proof. unfold Peer.machine_io. rewrite abind_Ok. intros (p1 & r & [H _]%machine_Ok & [= <- _]). done. Qed.

Lemma fallible_Ok {A} (f : W → W * result A ()) e p q a : Peer.sig (SignalingClient.fallible f e) p = (q, Ok a) → advances [] p q.
Proof.
  intros (g & H & ->)%sig_Ok. unfold SignalingClient.fallible in H. destruct (f _) as [w' x]. injection H as <- _.
  exists w'. by rewrite app_nil_r.
Qed.

Lemma publish_Ok topic payload response e p q a :
  Peer.sig (SignalingClient.publish topic payload response e) p = (q, Ok a) → advances [(topic, payload)] p q.
Proof.
  intros (g & H & ->)%sig_Ok. unfold SignalingClient.publish in H. apply abind_Ok in H as (g1 & [] & [= <-] & H).
  unfold SignalingClient.fallible in H. destruct (mq_publish _ _ _ _) as [w' x]. injection H as <- _. by exists w'.
Qed.

Lemma send_Ok v topic e p q a :
  Peer.sig (let! payload := alift (map_err (λ _, Net.Json) (print v)) in SignalingClient.publish topic payload None e) p = (q, Ok a) →
  ∃ payload, print v = Ok payload ∧ advances [(topic, payload)] p q.
Proof.
  intros (g & H & ->)%sig_Ok. apply abind_Ok in H as (g1 & payload & [= <- Hv] & H). exists payload. split; [by destruct (print v); simplify_eq/=|].
  eapply (publish_Ok topic payload None e). unfold Peer.sig, azoom. by rewrite H.
Qed.

(** A receiver yields the first message of its topic that parses. *)
Definition received {X} (topic : string) (decode : list byte → option X) (x : X) : Prop :=
  ∃ t w w' payloads e, mq_receive topic t w = (w', (payloads, e)) ∧ head (omap decode payloads) = Some x.

Lemma channel_head {X} (decode : list byte → option X) n (ch : list X) payloads :
  0 < n → head (foldl (try_send n) ch (decode <$> payloads)) = head (ch ++ omap decode payloads).
Proof.
  intros Hn. revert ch. induction payloads as [|y ys IH]; intros ch; csimpl; [by rewrite app_nil_r|].
  rewrite IH. unfold try_send. destruct (decode y) as [x|]; [|done]. case_bool_decide as Hl.
  - by rewrite <-app_assoc.
  - destruct ch; simpl in *; [lia|done].
Qed.

Lemma recv_Ok {X} (rx : SignalingClient.Receiver X) t p q r :
  Peer.sig (SignalingClient.recv_async rx t) p = (q, Ok r) →
  advances [] p q ∧ ∀ x, r = Ok x → received (SignalingClient.rx_topic rx) (SignalingClient.rx_decode rx) x.
Proof.
  intros (g & H & ->)%sig_Ok. unfold SignalingClient.recv_async in H. apply abind_Ok in H as (g1 & [payloads e] & Hw & [= <- <-]).
  unfold SignalingClient.world in Hw. destruct (mq_receive _ _ _) as [w' got] eqn:E. injection Hw as <- ->. split.
  { exists w'. by rewrite app_nil_r. }
  intros x Hx. eexists _, _, _, _, _. split; [exact E|]. cbn [fst] in Hx.
  pose proof (channel_head (SignalingClient.rx_decode rx) CHANNEL_CAPACITY [] payloads ltac:(unfold CHANNEL_CAPACITY; lia)) as Hh.
  simpl in Hh. rewrite <-Hh. destruct (foldl _ _ _); [done|]. by injection Hx as ->.
Qed.

Lemma send_probe_Ok a p q r : Peer.send_probe a p = (q, Ok r) → advances [] p q.
Proof. unfold Peer.send_probe. rewrite abind_Ok. intros (p1 & [] & H1%machine_io_Ok & [H2 _]%machine_Ok). by apply (advances_trans [] [] _ p1). Qed.

Lemma probes_Ok cs p q r : afor (λ c, Peer.send_probe (c_addr c)) cs p = (q, Ok r) → advances [] p q.
Proof.
  revert p. induction cs as [|c cs IH]; intros p; cbn [afor]; [intros [= <-]; apply advances_refl|].
  rewrite abind_Ok. intros (p1 & [] & H1%send_probe_Ok & H2%IH). by apply (advances_trans [] [] _ p1).
Qed.

(** *** Dialling *)

(** A handshake at [a] that ended with [c] after checking for [fp]. *)
Definition dialled (via : option TurnRelaySocket) (fp : string) (a : SocketAddr) (c : Conn) : Prop :=
  ∃ w w', mc_dial via (verify_server_cert fp) a CANDIDATE_TIMEOUT w = (w', Some (Ok c)).

(** A handshake at [a] that failed or timed out. *)
Definition refused (fp : string) (a : SocketAddr) : Prop :=
  ∃ w w' out, mc_dial None (verify_server_cert fp) a CANDIDATE_TIMEOUT w = (w', out) ∧ ∀ c : Conn, out ≠ Some (Ok c).

Lemma dialled_verified {ML : @MachineLaws W Conn MA} via fp a c :
  dialled via fp a c → connection_fingerprint (certs c) = Some fp.
Proof.
  intros (w & w' & (cert & chain & Hc & Hv)%dial_verified). rewrite Hc. unfold verify_server_cert in Hv. simpl.
  case_bool_decide as Hfp; [|done]. by rewrite Hfp.
Qed.

Lemma try_candidates_Ok fp addrs p q found :
  Peer.try_candidates fp addrs p = (q, Ok found) →
  advances [] p q ∧
  match found with
  | Some c => ∃ before a after, addrs = before ++ a :: after ∧ Forall (refused fp) before ∧ dialled None fp a c
  | None => Forall (refused fp) addrs
  end.
Proof.
  revert p. induction addrs as [|a addrs IH]; intros p; cbn [Peer.try_candidates].
  { intros [= <- <-]. split; [apply advances_refl|done]. }
  rewrite abind_Ok. intros (p1 & [] & H1%send_probe_Ok & H). apply abind_Ok in H as (p2 & out & [H2 (w & w' & Hd)]%machine_Ok & H).
  pose proof (advances_trans [] [] _ _ _ H1 H2) as H12.
  assert ((∀ c, out ≠ Some (Ok c)) → refused fp a) as Href by (intros; by exists w, w', out).
  assert (Peer.try_candidates fp addrs p2 = (q, Ok found) → (∀ c, out ≠ Some (Ok c)) →
    advances [] p q ∧ match found with
      | Some c => ∃ before a' after, a :: addrs = before ++ a' :: after ∧ Forall (refused fp) before ∧ dialled None fp a' c
      | None => Forall (refused fp) (a :: addrs) end) as Hgo.
  { intros [H3 Hf]%IH Hout. split; [by apply (advances_trans [] [] _ p2)|]. destruct found as [c|]; [|by constructor; auto].
    destruct Hf as (before & a' & after & -> & Hb & Ha). exists (a :: before), a', after. split_and!; [done|by constructor; auto|done]. }
  destruct out as [[c|e]|]; [|by eapply Hgo..]. injection H as <- <-. split; [done|]. exists [], a, addrs. split_and!; [done..|]. by exists w, w'.
Qed.

Lemma machine_any {A} (f : W → W * A) p : post (Peer.machine f) p (λ q _, advances [] p q).
Proof.
  unfold post, Peer.machine, Peer.sig, azoom, SignalingClient.world. destruct (f _) as [w' a]. exists w'. by rewrite app_nil_r.
Qed.

Lemma relay_endpoint_any turn a p : post (Peer.relay_endpoint new_transaction_id turn a) p (λ q _, advances [] p q).
Proof.
  unfold Peer.relay_endpoint. astep. acall machine_any. intros p1 [script|e] H1; [|done].
  destruct (TurnClient.relay_socket _ _ _ _) as [run [[client socket]|e]]; [|by asteps].
  astep. acall machine_any. intros p2 [bound|e] H2; [|by apply (advances_trans [] [] _ p1)].
  asteps. destruct bound; asteps; by apply (advances_trans [] [] _ p1).
Qed.

(** *** Offers and answers *)

Definition addrs_ok p : Prop := addr_ok (p_host_addr p) ∧ ∀ a, p_srflx_addr p = Some a → addr_ok a.

Lemma setup_turn_ok turn e run client :
  Peer.setup_turn new_transaction_id turn e = (run, Ok client) → addr_ok (tc_relayed_addr client).
Proof.
  unfold Peer.setup_turn. destruct (tu_lookup e) as [addrs|]; [|done]. destruct (head addrs) as [server|]; [|done].
  unfold TurnClient.connect. destruct (tu_bound e); [|done]. destruct (tu_connected e); [|done].
  set (config := mkConfig _ _ _ _). set (r := mkRun _ _ _). pose proof (allocate_addr_ok new_transaction_id config r) as H.
  unfold post in H. destruct (TurnClient.allocate _ config r) as [r' [[a l]|]]; [|done]. intros [= _ <-]. by apply (H a l).
Qed.

Lemma allocate_relay_Ok p q turn :
  Peer.allocate_relay new_transaction_id p = (q, Ok turn) →
  advances [] p q ∧ ∀ t, turn = Some t → addr_ok (tc_relayed_addr t.1).
Proof.
  unfold Peer.allocate_relay. rewrite abind_Ok. intros (p1 & srv & [= <- <-] & H). destruct (p_turn p) as [srv|].
  - apply abind_Ok in H as (p2 & e & [H1 _]%machine_Ok & [= <- <-]). split; [done|]. intros [client run].
    destruct (tu_in_time e); [|done]. destruct (Peer.setup_turn _ srv e) as [run' [client'|]] eqn:E; [|done]. intros [= <- <-].
    by eapply setup_turn_ok.
  - injection H as <- <-. split; [apply advances_refl|done].
Qed.

Lemma own_candidates_ok p turn :
  addrs_ok p → (∀ t, turn = Some t → addr_ok (tc_relayed_addr t.1)) → Forall (λ c, addr_ok (c_addr c)) (Peer.own_candidates p turn).
Proof.
  intros [Hh Hs] Ht. unfold Peer.own_candidates, Peer.direct_list. apply Forall_app. split; [constructor; [done|]|].
  - destruct (p_srflx_addr p); [|done]. apply Forall_singleton, Hs. done.
  - destruct turn as [[client run]|]; [|done]. apply Forall_singleton. by apply (Ht (client, run)).
Qed.

(** A message of [p] as [me], in reply to the session [sid]. *)
Definition own_offer p (me sid : string) (o : ConnectionOffer) : Prop :=
  o_from o = me ∧ o_session_id o = sid ∧ o_cert_fingerprint o = fingerprint (p_identity p) ∧ (addrs_ok p → offer_ok o) ∧
  Peer.direct_list p `prefix_of` o_candidates o.

Lemma own_offer_intro p me sid turn :
  (∀ t, turn = Some t → addr_ok (tc_relayed_addr t.1)) →
  own_offer p me sid (mkOffer me sid (fingerprint (p_identity p)) (Peer.own_candidates p turn)).
Proof. intros Ht. split_and!; [done..| |by eexists]. intros Hp. by apply own_candidates_ok. Qed.

Lemma my_peer_id_Ok p q me : Peer.my_peer_id p = (q, Ok me) → q = p ∧ p_peer_id p = Some me.
Proof. unfold Peer.my_peer_id. rewrite abind_Ok. intros (p1 & o & [= <- <-] & [= <- H]). by apply ok_or_Ok in H. Qed.

Lemma subscribe_Ok {X} topic e (rx : SignalingClient.Receiver X) p q r :
  Peer.sig (SignalingClient.fallible (mq_subscribe topic) e ;; aret rx) p = (q, Ok r) → advances [] p q ∧ r = rx.
Proof.
  intros (g & H & ->)%sig_Ok. apply abind_Ok in H as (g1 & [] & H1 & [= <- <-]). split; [|done].
  eapply (fallible_Ok (mq_subscribe topic) e). unfold Peer.sig, azoom. by rewrite H1.
Qed.

Lemma negotiate_Ok target p q answer turn :
  Peer.negotiate new_transaction_id target p = (q, Ok (answer, turn)) →
  ∃ me offer sync,
    p_peer_id p = Some me ∧ own_offer p me (o_session_id answer) offer ∧
    (∃ op sp, print (encode_offer offer) = Ok op ∧ print (encode_sync sync) = Ok sp ∧
     advances [(SignalingClient.p2p_topic (pi_id target) "offer", op); (SignalingClient.p2p_topic (o_from answer) "sync", sp)] p q) ∧
    y_session_id sync = o_session_id answer ∧
    received (SignalingClient.p2p_topic me "answer") read_offer answer.
Proof.
  unfold Peer.negotiate. rewrite abind_Ok. intros (p0 & me & [-> Hme]%my_peer_id_Ok & H).
  apply abind_Ok in H as (p1 & sid & [H1 _]%machine_Ok & H). apply abind_Ok in H as (p2 & rx & [H2 ->]%subscribe_Ok & H).
  apply abind_Ok in H as (p3 & t & [H3 Ht]%allocate_relay_Ok & H). apply abind_Ok in H as (p4 & p' & [= <- <-] & H). cbv beta zeta in H.
  apply abind_Ok in H as (p5 & sent & [H5 _]%machine_Ok & H). apply abind_Ok in H as (p6 & [] & (op & Hop & H6)%send_Ok & H).
  apply abind_Ok in H as (p7 & res & [H7 Hrx]%recv_Ok & H). destruct res as [ans|[]]; [|done..].
  apply abind_Ok in H as (p8 & now & [H8 _]%machine_Ok & H). cbv beta in H. case_bool_decide as Hsid; [done|].
  case_bool_decide; [done|]. apply abind_Ok in H as (p9 & [] & (sp & Hsp & H9)%send_Ok & [= <- <- <-]).
  pose proof (advances_trans _ _ _ _ _ H1 (advances_trans _ _ _ _ _ H2 H3)) as Hp3.
  eexists me, _, _. split_and!; [done| | | |by apply Hrx].
  - rewrite Hsid. pose proof (own_offer_intro p3 me sid t Ht) as Ho. destruct Hp3 as [w Hw]. rewrite Hw in Ho at 1. exact Ho.
  - exists op, sp. split; [exact Hop|]. split; [exact Hsp|]. exact (advances_trans _ _ _ _ _ Hp3 (advances_trans _ _ _ _ _ H5 (advances_trans _ _ _ _ _ H6
      (advances_trans _ _ _ _ _ H7 (advances_trans _ _ _ _ _ H8 H9))))).
  - done.
Qed.

(** Where a connection came from: the first direct candidate that answered,
    server-reflexive ones before host ones, or the relay when none did. *)
Definition reached (cs : list Candidate) (fp : string) (c : Conn) (via : option TurnRelaySocket) : Prop :=
  (via = None ∧ ∃ before a after, Peer.ordered_candidates cs = before ++ a :: after ∧ Forall (refused fp) before ∧ dialled None fp a c) ∨
  (is_Some via ∧ Forall (refused fp) (Peer.ordered_candidates cs) ∧ ∃ a, Peer.relay_candidate cs = Some a ∧ dialled via fp a c).

Lemma try_relay_Ok fp relay_addr turn direct p q c via :
  Peer.try_relay new_transaction_id fp relay_addr turn direct p = (q, Ok (Some (c, via))) →
  advances [] p q ∧
  ((direct = Some c ∧ via = None) ∨ (direct = None ∧ is_Some via ∧ ∃ a, relay_addr = Some a ∧ dialled via fp a c)).
Proof.
  unfold Peer.try_relay. destruct direct as [c'|].
  { intros [= <- <- <-]. split; [apply advances_refl|by left]. }
  destruct relay_addr as [a|]; [|done]. destruct turn as [turn|]; [|done]. unfold atry, Peer.connect_via_relay.
  destruct (abind _ _ p) as [p1 [[c' s]|e]] eqn:E; [|done]. intros [= <- <- <-].
  apply abind_Ok in E as (p2 & s' & H1 & E). pose proof (post_elim _ _ _ _ _ H1 (relay_endpoint_any turn a p)) as Hadv. cbv beta in Hadv.
  apply abind_Ok in E as (p3 & out & [H2 (w & w' & Hd)]%machine_Ok & E). destruct out as [[c2|]|]; [|done..]. injection E as <- <- <-.
  split; [by apply (advances_trans [] [] _ p2)|]. right. split_and!; [done..|]. exists a. split; [done|]. by exists w, w'.
Qed.

Lemma connect_to_Ok target p q c :
  Peer.connect_to new_transaction_id target p = (q, Ok c) →
  ∃ answer turn p1,
    Peer.negotiate new_transaction_id target p = (p1, Ok (answer, turn)) ∧ advances [] p1 q ∧
    reached (o_candidates answer) (o_cert_fingerprint answer) (pp_connection c) (pp_relay_endpoint c) ∧
    pp_remote_peer c = target ∧ pp_remote_public_key c = peer_public_key (certs (pp_connection c)).
Proof.
  unfold Peer.connect_to. rewrite abind_Ok. intros (p1 & [answer turn] & H1 & H). cbv beta iota zeta in H.
  apply abind_Ok in H as (p2 & direct & [H2 Hdir]%try_candidates_Ok & H).
  apply abind_Ok in H as (p3 & [[conn via]|] & H3 & H); [|done]. apply try_relay_Ok in H3 as [H3 Hr]. injection H as <- <-.
  exists answer, turn, p1. split_and!; [done|by apply (advances_trans [] [] _ p2)| |done..]. cbn [pp_connection pp_relay_endpoint].
  destruct Hr as [[-> ->]|(-> & Hvia & Ha)]; [by left|by right].
Qed.

Lemma answer_offer_Ok p q offer relay n :
  Peer.answer_offer new_transaction_id p = (q, Ok (offer, relay, n)) →
  ∃ me answer,
    p_peer_id p = Some me ∧ own_offer p me (o_session_id offer) answer ∧
    (∃ payload, print (encode_offer answer) = Ok payload ∧ advances [(SignalingClient.p2p_topic (o_from offer) "answer", payload)] p q) ∧
    received (SignalingClient.p2p_topic me "offer") read_offer offer ∧
    Exists (λ c, is_connectable (c_kind c) = true) (o_candidates offer).
Proof.
  unfold Peer.answer_offer. rewrite abind_Ok. intros (p0 & me & [-> Hme]%my_peer_id_Ok & H).
  apply abind_Ok in H as (p1 & rx & [H1 ->]%subscribe_Ok & H). apply abind_Ok in H as (p2 & rx' & [H2 ->]%subscribe_Ok & H).
  apply abind_Ok in H as (p3 & res & [H3 Hrx]%recv_Ok & H). apply abind_Ok in H as (p4 & o & [= <- Ho] & H).
  destruct res as [o'|]; [|done]. injection Ho as <-. cbv beta zeta in H.
  apply abind_Ok in H as (p5 & turn & H5 & H).
  assert (advances [] p3 p5 ∧ ∀ t, turn = Some t → addr_ok (tc_relayed_addr t.1)) as [Hadv5 Ht].
  { destruct (Peer.relay_candidate _); [by apply allocate_relay_Ok|]. injection H5 as <- <-. split; [apply advances_refl|done]. }
  apply abind_Ok in H as (p6 & p' & [= <- <-] & H). cbv beta zeta in H. apply abind_Ok in H as (p7 & [] & (ap & Hap & H7)%send_Ok & H). cbv beta in H.
  destruct (existsb _ _) eqn:Ex; [|done]. cbn [negb] in H. apply abind_Ok in H as (p8 & synced & [H8 _]%recv_Ok & H).
  destruct synced as [y|[]]; [|done..]. apply abind_Ok in H as (p9 & [] & [H9 _]%machine_Ok & [= <- <- _ _]).
  pose proof (advances_trans _ _ _ _ _ H1 (advances_trans _ _ _ _ _ H2 (advances_trans _ _ _ _ _ H3 Hadv5))) as Hp5.
  eexists me, _. split_and!; [done| | |by apply Hrx|].
  - pose proof (own_offer_intro p5 me (o_session_id o') turn Ht) as Ho. destruct Hp5 as [w Hw]. rewrite Hw in Ho at 1. exact Ho.
  - exists ap. split; [exact Hap|]. exact (advances_trans _ _ _ _ _ Hp5 (advances_trans _ _ _ _ _ H7 (advances_trans _ _ _ _ _ H8 H9))).
  - apply existsb_exists in Ex as (c & Hc & Hk). apply Exists_exists. exists c. split; [by apply list_elem_of_In|done].
Qed.

(** *** Waiting *)

(** The endpoint of a peer: well formed, every buffered connection proved the
    fingerprint it is filed under, and no waiter holds a number still to be
    given out. *)
Record accept_inv (s : AcceptState Conn) : Prop := {
  ai_wf : accept_wf s;
  ai_proved : ∀ fp bs b, arrived s !! fp = Some bs → b ∈ bs → connection_fingerprint (certs (b_conn b)) = Some fp;
  ai_fresh : ∀ fp ids i, waiters s !! fp = Some ids → i ∈ ids → (i < next_waiter_id s)%Z;
}.

(** [id] waits for [fp] and nothing else. *)
Definition waits_for (id : Z) (fp : string) (s : AcceptState Conn) : Prop :=
  accept_wf s ∧
  (∀ fp bs b, arrived s !! fp = Some bs → b ∈ bs → connection_fingerprint (certs (b_conn b)) = Some fp) ∧
  ∀ fp' ids, waiters s !! fp' = Some ids → id ∈ ids → fp' = fp.

Lemma handed_elem id (es : list (Effect Conn)) c : handed id es = Some c → Handed id c ∈ es.
Proof.
  unfold handed. induction es as [|e es IH]; [done|]. cbn [omap list_omap].
  destruct e as [i c'| | |]; try (intros H; right; by apply IH).
  case_bool_decide as Hi; [|intros H; right; by apply IH]. intros [= <-]. subst. by left.
Qed.

(** A handed connection proved the fingerprint its waiter asked for. *)
Lemma in_event_proved id fp s e s' out :
  waits_for id fp s → in_event id s e = (s', out) →
  match out with
  | None => waits_for id fp s'
  | Some (Ok c) => connection_fingerprint (certs c) = Some fp
  | Some (Err _) => True
  end.
Proof.
  intros (Hwf & Hp & Hid). destruct e as [c now gone|]; cbn [in_event]; [|by intros [= <- <-]].
  unfold inbound. destruct (connection_fingerprint (certs c)) as [fpc|] eqn:Efp; [|by intros [= <- <-]].
  destruct (deliver _ _ fpc c now) as [s1 es] eqn:Ed. intros [= <- <-].
  apply deliver_spec in Ed as (H1 & _ & H3 & H4 & H5); [|done]. destruct (handed id es) as [c'|] eqn:Eh; simpl.
  - apply handed_elem, H5 in Eh as (-> & ids & Hl & Hin). by rewrite <-(Hid _ _ Hl Hin).
  - split_and!; [done| |].
    + intros fp' bs b Hl Hb. destruct (H3 fp' b) as [[-> ->]|(bs' & Hl' & Hb')]; [eauto|done|by eapply Hp].
    + intros fp' ids Hl Hin. destruct (H4 fp' id) as (ids' & Hl' & Hin'); [eauto|]. by eapply Hid.
Qed.

Lemma await_handed_proved id fp s events s' c :
  waits_for id fp s → await_handed id fp s events = (s', Some (Ok c)) → connection_fingerprint (certs c) = Some fp.
Proof.
  revert s. induction events as [|e events IH]; intros s Hw; cbn [await_handed]; [done|].
  destruct (in_event id s e) as [s1 out] eqn:E. pose proof (in_event_proved _ _ _ _ _ _ Hw E) as H.
  destruct out as [r|]; [|by apply IH]. intros [= _ ->]. done.
Qed.

(** Starting to wait, or taking a buffered connection. *)
Lemma accept_proved s alive fp s' es r :
  accept_inv s → accept_with_fingerprint s alive fp = (s', es, Ok r) →
  match r with
  | Connection c => connection_fingerprint (certs c) = Some fp
  | Waiting id => waits_for id fp s'
  end.
Proof.
  intros [Hwf Hp Hf] H. apply accept_spec in H as (H1 & _ & H3 & _ & H5); [|done]. destruct r as [c|id].
  - destruct H5 as (_ & _ & bs & b & Hl & Hb & <-). by eapply Hp.
  - destruct H5 as [-> Hw]. split_and!; [done| |].
    + intros fp' bs' b Hl Hb. destruct (H3 _ _ Hl) as (bs & Hl' & Hs). eapply Hp; [done|]. by eapply elem_of_suffix.
    + rewrite Hw. intros fp' ids. rewrite lookup_insert. case_decide as Hd; [done|]. intros Hl Hin.
      pose proof (Hf _ _ _ Hl Hin). lia.
Qed.

Lemma accept_within_proved alive fp events s s' c :
  accept_inv s → accept_within alive fp events s = (s', Some (Ok c)) → connection_fingerprint (certs c) = Some fp.
Proof.
  intros Hi. unfold accept_within. destruct (accept_with_fingerprint s alive fp) as [[s1 es] [r|e]] eqn:E; [|done].
  pose proof (accept_proved _ _ _ _ _ _ Hi E) as H. destruct r as [c'|id]; [by intros [= _ <-]|]. by apply await_handed_proved.
Qed.

Lemma race_handed_proved id_d id_r fp s relay events s' side c :
  waits_for id_d fp s → waits_for id_r fp relay → race_handed id_d id_r fp s relay events = (s', Some (side, Ok c)) →
  connection_fingerprint (certs c) = Some fp.
Proof.
  revert s relay. induction events as [|[[] e] events IH]; intros s relay Hd Hr; cbn [race_handed]; [done|..].
  - destruct (in_event id_d s e) as [s1 out] eqn:E. pose proof (in_event_proved _ _ _ _ _ _ Hd E) as H.
    destruct out as [r|]; [|by apply IH]. intros [= _ _ ->]. done.
  - destruct (in_event id_r relay e) as [s1 out] eqn:E. pose proof (in_event_proved _ _ _ _ _ _ Hr E) as H.
    destruct out as [r|]; [|by apply IH]. intros [= _ _ ->]. done.
Qed.

Lemma default_accept_inv : accept_inv default_state.
Proof.
  split; [|done|done]. split; cbn; [done|done| |done|done].
  rewrite buffered_total_length, buffered_perm. cbn. rewrite map_to_list_empty. simpl. lia.
Qed.

Lemma inbound_inv s gone cs c now : cs = certs c → accept_inv s → accept_inv (inbound s gone cs c now).1.
Proof.
  intros -> [Hwf Hp Hf]. unfold inbound. destruct (connection_fingerprint (certs c)) as [fpc|] eqn:Efp; [|done].
  pose proof (deliver_next s gone fpc c now) as Hn. destruct (deliver s gone fpc c now) as [s1 es] eqn:Ed. cbn [fst] in *.
  apply deliver_spec in Ed as (H1 & _ & H3 & H4 & _); [|done]. split; [done| |].
  - intros fp' bs b Hl Hb. destruct (H3 fp' b) as [[-> ->]|(bs' & Hl' & Hb')]; [eauto|done|by eapply Hp].
  - intros fp' ids i Hl Hin. rewrite Hn. destruct (H4 fp' i) as (ids' & Hl' & Hin'); [eauto|]. by eapply Hf.
Qed.

Lemma early_arrivals_inv early : accept_inv (early_arrivals early).
Proof.
  unfold early_arrivals. assert (accept_inv default_state) as H by apply default_accept_inv. revert H.
  generalize (@default_state Conn). induction early as [|[c now] early IH]; intros s Hs; [done|]. cbn [foldl].
  by apply IH, inbound_inv.
Qed.

Lemma race_accept_proved alive fp r s s' side c :
  accept_inv s → race_accept alive fp r s = (s', Some (side, Ok c)) → connection_fingerprint (certs c) = Some fp.
Proof.
  intros Hi. unfold race_accept.
  destruct (accept_with_fingerprint (early_arrivals _) alive fp) as [[relay es] rr] eqn:Er.
  assert (∀ x, rr = Ok x → match x with Connection c => connection_fingerprint (certs c) = Some fp | Waiting id => waits_for id fp relay end) as Hr.
  { intros x ->. eapply accept_proved; [|exact Er]. apply early_arrivals_inv. }
  destruct (accept_with_fingerprint s alive fp) as [[s1 es1] rd] eqn:Ed.
  assert (∀ x, rd = Ok x → match x with Connection c => connection_fingerprint (certs c) = Some fp | Waiting id => waits_for id fp s1 end) as Hd.
  { intros x ->. by eapply accept_proved. }
  destruct (ra_first r), rr as [[cr|idr]|], rd as [[cd|idd]|]; intros H; simplify_eq;
    try (by apply (Hr (Connection c))); try (by apply (Hd (Connection c))).
  all: eapply race_handed_proved; [| |exact H]; [by apply (Hd (Waiting idd))|by apply (Hr (Waiting idr))].
Qed.

Lemma accept_direct_proved fp t p q c :
  accept_inv (p_accept p) → Peer.accept_direct fp t p = (q, Ok c) →
  connection_fingerprint (certs c) = Some fp ∧ sc_sent (p_signaling q) = sc_sent (p_signaling p).
Proof.
  intros Hi. unfold Peer.accept_direct. rewrite abind_Ok. intros (p1 & alive & [[w1 ->] _]%machine_Ok & H).
  apply abind_Ok in H as (p2 & events & [[w2 ->] _]%machine_Ok & H). cbn [p_accept Peer.set_signaling] in H.
  destruct (accept_within _ _ _ _) as [a [[c'|e]|]] eqn:E; try done. injection H as <- <-.
  split; [by eapply accept_within_proved|]. simpl. by rewrite !app_nil_r.
Qed.

Lemma accept_either_proved fp relay n p q c via :
  accept_inv (p_accept p) → Peer.accept_direct_or_relay new_transaction_id fp relay n p = (q, Ok (c, via)) →
  connection_fingerprint (certs c) = Some fp ∧ sc_sent (p_signaling q) = sc_sent (p_signaling p).
Proof.
  intros Hi. unfold Peer.accept_direct_or_relay. destruct relay as [[turn a]|].
  2:{ rewrite abind_Ok. intros (p1 & c' & H & [= <- <- _]). by eapply accept_direct_proved. }
  unfold atry. pose proof (relay_endpoint_any turn a p) as Hre. unfold post in Hre.
  destruct (Peer.relay_endpoint _ turn a p) as [p1 [s|e]]; destruct Hre as [w Hw]; cbn [fst] in Hw; subst p1.
  - rewrite abind_Ok. intros (p2 & alive & [[w2 ->] _]%machine_Ok & H). apply abind_Ok in H as (p3 & race & [[w3 ->] _]%machine_Ok & H).
    cbn [p_accept Peer.set_signaling] in H. destruct (race_accept _ _ _ _) as [a' [[side r]|]] eqn:E; [|done].
    apply abind_Ok in H as (p4 & c' & [= <- ->] & [= <- <- _]). split; [by eapply race_accept_proved|]. simpl. by rewrite !app_nil_r.
  - rewrite abind_Ok. intros (p2 & c' & H & [= <- <- _]). apply accept_direct_proved in H as [H1 H2]; [|done].
    split; [done|]. rewrite H2. simpl. by rewrite app_nil_r.
Qed.

(** What an accepted connection is: its offer, and the certificate check. *)
Lemma accept_connection_Ok p q c :
  accept_inv (p_accept p) → Peer.accept_connection new_transaction_id p = (q, Ok c) →
  ∃ offer relay n p1,
    Peer.answer_offer new_transaction_id p = (p1, Ok (offer, relay, n)) ∧
    connection_fingerprint (certs (pp_connection c)) = Some (o_cert_fingerprint offer) ∧
    sc_sent (p_signaling q) = sc_sent (p_signaling p1) ∧ pi_id (pp_remote_peer c) = o_from offer ∧ pi_cert_fingerprint (pp_remote_peer c) = o_cert_fingerprint offer ∧
    pp_remote_public_key c = peer_public_key (certs (pp_connection c)).
Proof.
  intros Hi. unfold Peer.accept_connection. rewrite abind_Ok. intros (p1 & [[offer relay] n] & H1 & H). cbv beta iota in H.
  apply abind_Ok in H as (p2 & [] & [w2 H2]%probes_Ok & H). apply abind_Ok in H as (p3 & [conn via] & H3 & [= <- <-]).
  apply accept_either_proved in H3 as [H3 Hs]; last first.
  { rewrite H2. apply answer_offer_Ok in H1 as (me & answer & _ & _ & (payload & _ & w1 & ->) & _). done. }
  exists offer, relay, n, p1. split_and!; [done|done| |done..]. rewrite Hs, H2. simpl. by rewrite app_nil_r.
Qed.
End steps.

(** ** Two peers *)

Lemma p2p_topic_ne a b : SignalingClient.p2p_topic a "offer" ≠ SignalingClient.p2p_topic b "sync".
Proof.
  unfold SignalingClient.p2p_topic. intros H. apply (f_equal as_bytes) in H. rewrite !as_bytes_app in H.
  apply (f_equal last) in H. rewrite !app_assoc, !last_app in H. done.
Qed.

(** What a call published. *)
Definition published {W Conn} (p q : Peer W Conn) : list (string * list byte) :=
  drop (length (sc_sent (p_signaling p))) (sc_sent (p_signaling q)).

(** The first message a subscription to [topic] delivers is one of [msgs]. *)
Definition relays (W : Type) {MC : MqttClient W} (topic : string) (msgs : list (string * list byte)) : Prop :=
  ∀ t w, ∃ w' payload rest e, mq_receive topic t w = (w', (payload :: rest, e)) ∧ (topic, payload) ∈ msgs.

Lemma advances_published {W Conn} msgs (p q : Peer W Conn) : advances msgs p q → published p q = msgs.
Proof. intros [w ->]. unfold published. simpl. by rewrite drop_app_length. Qed.

Lemma relays_received {W : Type} {MC : MqttClient W} {X} topic msgs (decode : list byte → option X) x :
  relays W topic msgs → received topic decode x →
  (∀ payload, (topic, payload) ∈ msgs → ∃ y, decode payload = Some y) →
  ∃ payload, (topic, payload) ∈ msgs ∧ decode payload = Some x.
Proof.
  intros Hr (t & w & w' & payloads & e & Hw & Hx) Hdec. destruct (Hr t w) as (w2 & payload & rest & e2 & Hw2 & Hin).
  rewrite Hw in Hw2. injection Hw2 as _ -> _. exists payload. split; [done|]. destruct (Hdec _ Hin) as [y Hy]. simpl in Hx. rewrite Hy in Hx. by injection Hx as ->.
Qed.

Section handshake.
Context {WA WB CA CB : Type} {MCA : MqttClient WA} {MAA : Machine WA CA} {MLA : @MachineLaws WA CA MAA}.
Context {MCB : MqttClient WB} {MAB : Machine WB CB}.
Context {JT : JsonText} {JS : JsonSyntax} {JSL : JsonSyntaxLaws} {AT : AddrText} {ATL : AddrTextLaws}.
Context {HI : HashIter} {CO : CertOps} {TC : TurnCrypto} (txnA txnB : nat → list byte).

Lemma read_own_offer {W Conn} (p : Peer W Conn) me sid o payload :
  addrs_ok p → own_offer p me sid o → print (encode_offer o) = Ok payload → (parse payload ≫= decode_offer (N := Syntax)) = Some o.
Proof using JSL ATL. intros Hp (_ & _ & _ & Ho & _) Hpr. rewrite (parse_print _ _ Hpr). simpl. by apply decode_encode_offer, Ho. Qed.

(** C12: mutual authentication. When one peer's [connect_to] and another's
    [accept_connection] both return, and the broker brought the offer of the
    first and the answer of the second as the first messages of their topics,
    then each holds a connection whose certificate has the other's own
    fingerprint, the responder knows the initiator's id, and the initiator
    reached one of the responder's candidates: the first server-reflexive or
    host address that answered, or the relay after all of those failed. *)
Theorem handshake_mutual (a a' : Peer WA CA) (b b' : Peer WB CB) target ca cb :
  Peer.connect_to txnA target a = (a', Ok ca) → Peer.accept_connection txnB b = (b', Ok cb) →
  p_peer_id b = Some (pi_id target) → addrs_ok a → addrs_ok b → accept_inv (p_accept b) →
  relays WB (SignalingClient.p2p_topic (pi_id target) "offer") (published a a') →
  (∀ me, p_peer_id a = Some me → relays WA (SignalingClient.p2p_topic me "answer") (published b b')) →
  connection_fingerprint (certs (pp_connection ca)) = Some (fingerprint (p_identity b)) ∧
  connection_fingerprint (certs (pp_connection cb)) = Some (fingerprint (p_identity a)) ∧
  Some (pi_id (pp_remote_peer cb)) = p_peer_id a ∧
  ∃ answer, own_offer b (pi_id target) (o_session_id answer) answer ∧
    reached (o_candidates answer) (fingerprint (p_identity b)) (pp_connection ca) (pp_relay_endpoint ca).
Proof using MLA JSL ATL.
  intros (answer & turn & a1 & Hneg & Hadv & Hreach & _)%connect_to_Ok Hacc Hid Ha Hb Hi HrB HrA.
  apply accept_connection_Ok in Hacc as (offer & relay & n & b1 & Hans & Hfp & Hsent & Hfrom & _); [|done].
  apply negotiate_Ok in Hneg as (me & offerA & sync & Hme & Hown & (op & sp & Hop & _ & Hadv1) & _ & HrecA).
  apply answer_offer_Ok in Hans as (idb & answerB & Hidb & HownB & (ap & Hap & HadvB) & HrecB & _).
  rewrite Hid in Hidb. injection Hidb as <-. pose proof (HrA _ Hme) as HrA'.
  rewrite (advances_published _ _ _ (advances_trans _ _ _ _ _ Hadv1 Hadv)) in HrB. unfold published in HrA'. rewrite Hsent in HrA'. fold (published b b1) in HrA'.
  rewrite (advances_published _ _ _ HadvB) in HrA'. set (msgs := _ ++ []) in HrB.
  assert (offer = offerA) as ->.
  { assert (∀ payload, (SignalingClient.p2p_topic (pi_id target) "offer", payload) ∈ msgs → payload = op) as Honly.
    { intros payload [[_ ->]%pair_inv|[[Hne _]%pair_inv|[]%elem_of_nil]%elem_of_cons]%elem_of_cons; [done|by apply p2p_topic_ne in Hne]. }
    destruct (relays_received _ _ _ _ HrB HrecB) as (payload & ->%Honly & Hdec).
    - intros payload ->%Honly. exists offerA. by eapply (read_own_offer a me (o_session_id answer)).
    - rewrite (read_own_offer a me _ offerA op Ha Hown Hop) in Hdec. by injection Hdec. }
  assert (answer = answerB) as ->.
  { destruct (relays_received _ _ _ _ HrA' HrecA) as (payload & Hin & Hdec).
    - intros payload [_ ->]%list_elem_of_singleton%pair_inv. exists answerB. by eapply (read_own_offer b).
    - apply list_elem_of_singleton, pair_inv in Hin as [_ ->]. rewrite (read_own_offer b _ _ answerB ap Hb HownB Hap) in Hdec. by injection Hdec. }
  destruct Hown as (Hf & Hs & Hfa & _). pose proof HownB as (_ & Hsb & Hfb & _). rewrite Hfb in Hreach. rewrite Hfa in Hfp. rewrite Hf in Hfrom.
  split_and!; [|done|by rewrite Hfrom|].
  - destruct Hreach as [(_ & bf & x & af & _ & _ & Hd)|(_ & _ & x & _ & Hd)]; by eapply dialled_verified.
  - exists answerB. split; [by rewrite Hsb|done].
Qed.
End handshake.

(** ** Connecting completes *)

Section completes.
Context {W Conn : Type} {MC : MqttClient W} {MA : Machine W Conn}.
Context {JT : JsonText} {JS : JsonSyntax} {AT : AddrText} {HI : HashIter} {CO : CertOps} {TC : TurnCrypto}.
Context (new_transaction_id : nat → list byte).
Implicit Types p q : Peer W Conn.

(** A machine whose broker and sockets work. *)
Record working : Prop := {
  wk_subscribe topic w : (mq_subscribe topic w).2 = Ok ();
  wk_publish topic payload response w : (mq_publish topic payload response w).2 = Ok ();
  wk_clone w : (mc_clone_socket w).2 = Ok ();
  wk_print v : ∃ bs, print v = Ok bs;
}.
Context (HW : working).

(** The parts of a peer that its calls leave alone. *)
Definition same_peer p q : Prop := p_peer_id q = p_peer_id p.

Lemma machine_same {A} (f : W → W * A) p :
  post (Peer.machine f) p (λ q r, same_peer p q ∧ ∃ w w' a, f w = (w', a) ∧ r = Ok a).
Proof.
  unfold post, Peer.machine, Peer.sig, azoom, SignalingClient.world. destruct (f _) as [w' a] eqn:E. cbn [fst snd].
  split; [done|]. by eexists _, _, _.
Qed.

Lemma sig_same {A} (m : action (SignalingClient W) Error A) p (Q : result A Error → Prop) :
  (∀ g, Q (m g).2) → post (Peer.sig m) p (λ q r, same_peer p q ∧ Q r).
Proof. intros H. unfold post, Peer.sig, azoom. specialize (H (p_signaling p)). by destruct (m (p_signaling p)). Qed.

Lemma publish_works topic payload response e (g : SignalingClient W) : (SignalingClient.publish topic payload response e g).2 = Ok ().
Proof using HW.
  unfold SignalingClient.publish, abind, amodify, SignalingClient.fallible.
  pose proof (wk_publish HW topic payload response (sc_client (SignalingClient.push_sent topic payload g))) as H.
  destruct (mq_publish _ _ _ _) as [w r]. simpl in *. by subst.
Qed.

Lemma send_works v topic e (g : SignalingClient W) :
  ((let! payload := alift (map_err (λ _, Net.Json) (print v)) in SignalingClient.publish topic payload None e) g).2 = Ok ().
Proof using HW. destruct (wk_print HW v) as [bs Hbs]. unfold abind, alift. rewrite Hbs. apply publish_works. Qed.

Lemma subscribe_works {X} topic e (rx : X) (g : SignalingClient W) :
  ((SignalingClient.fallible (mq_subscribe topic) e ;; aret rx) g).2 = Ok rx.
Proof using HW.
  unfold abind, SignalingClient.fallible. pose proof (wk_subscribe HW topic (sc_client g)) as H.
  destruct (mq_subscribe _ _) as [w r]. simpl in *. by subst.
Qed.

(** A receiver whose topic brings a message. *)
Lemma recv_works {X} (rx : SignalingClient.Receiver X) t x (g : SignalingClient W) :
  (∀ t w, head (omap (SignalingClient.rx_decode rx) (mq_receive (SignalingClient.rx_topic rx) t w).2.1) = Some x) →
  (SignalingClient.recv_async rx t g).2 = Ok (Ok x).
Proof.
  intros Hx. specialize (Hx t (sc_client g)). unfold SignalingClient.recv_async, abind, SignalingClient.world.
  destruct (mq_receive _ _ _) as [w' [payloads e]]. cbn [fst snd] in *. unfold aret. cbn [snd].
  pose proof (channel_head (SignalingClient.rx_decode rx) CHANNEL_CAPACITY [] payloads ltac:(unfold CHANNEL_CAPACITY; lia)) as Hh.
  simpl in Hh. rewrite Hx in Hh. destruct (foldl _ _ _); simplify_eq/=. done.
Qed.

Lemma send_probe_works a p : post (Peer.send_probe a) p (λ q r, same_peer p q ∧ r = Ok ()).
Proof using HW.
  unfold Peer.send_probe, Peer.machine_io. asteps. acall machine_same. intros p1 r (Hs & w & w' & x & Hx & ->).
  pose proof (wk_clone HW w) as Hc. rewrite Hx in Hc. simpl in Hc. subst x. asteps. cbn [map_err].
  acall machine_same. intros p2 r (Hs2 & w2 & w2' & [] & _ & ->). split; [by etrans|done].
Qed.

Lemma try_candidates_works fp addrs a p :
  a ∈ addrs → (∀ w, ∃ c : Conn, (mc_dial None (verify_server_cert fp) a CANDIDATE_TIMEOUT w).2 = Some (Ok c)) →
  post (Peer.try_candidates fp addrs) p (λ q r, ∃ c, r = Ok (Some c)).
Proof using HW.
  intros Ha Hd. revert p. induction addrs as [|a' addrs IH]; intros p; [by apply elem_of_nil in Ha|]. cbn [Peer.try_candidates].
  asteps. acall send_probe_works. intros p1 r [_ ->]. astep. acall machine_same. intros p2 r (_ & w & w' & out & Hout & ->).
  destruct out as [[c|e]|]; [asteps; by exists c|..].
  all: apply elem_of_cons in Ha as [<-|Ha]; [|by apply IH].
  all: destruct (Hd w) as [c Hc]; by rewrite Hout in Hc.
Qed.

Lemma allocate_relay_works p : post (Peer.allocate_relay new_transaction_id) p (λ q r, same_peer p q ∧ ∃ t, r = Ok t).
Proof.
  unfold Peer.allocate_relay. asteps. destruct (p_turn p) as [srv|]; [|asteps; split; [done|by eexists]].
  astep. acall machine_same. intros p1 r (Hs & w & w' & e & _ & ->). asteps. split; [done|by eexists].
Qed.

(** C13: connecting completes. If the broker and the sockets work, an answer to
    the session arrives before any other message on the topic, and one of its
    direct candidates completes the handshake with the announced certificate,
    then [connect_to] returns a connection, and it does not use the relay. *)
Theorem connect_completes target p me sid answer a :
  p_peer_id p = Some me → (∀ w, (new_uuid w).2 = sid) → o_session_id answer = sid →
  (∀ t w, head (omap read_offer (mq_receive (SignalingClient.p2p_topic me "answer") t w).2.1) = Some answer) →
  a ∈ Peer.ordered_candidates (o_candidates answer) →
  (∀ w, ∃ c : Conn, (mc_dial None (verify_server_cert (o_cert_fingerprint answer)) a CANDIDATE_TIMEOUT w).2 = Some (Ok c)) →
  ∃ q c, Peer.connect_to new_transaction_id target p = (q, Ok c) ∧ is_relayed c = false.
Proof using HW.
  intros Hme Huuid Hsid Hans Hin Hdial.
  assert (post (Peer.connect_to new_transaction_id target) p (λ q r, ∃ c, r = Ok c ∧ is_relayed c = false)) as H; last first.
  { unfold post in H. destruct (Peer.connect_to _ target p) as [q r]. destruct H as (c & Hc & Hr). simpl in Hc. subst r. by exists q, c. }
  unfold Peer.connect_to, Peer.negotiate, Peer.my_peer_id. asteps. rewrite Hme. cbn [ok_or]. asteps.
  acall machine_same. intros p1 r (_ & w & w' & s & Hs & ->). pose proof (Huuid w) as Hu. rewrite Hs in Hu. simpl in Hu. subst s. asteps.
  acall (sig_same _ _ (λ r, r = Ok _)); [intros g; apply subscribe_works|]. intros p2 r (_ & ->). asteps.
  acall allocate_relay_works. intros p3 r (_ & turn & ->). asteps.
  acall machine_same. intros p4 r (_ & _ & _ & sent & _ & ->). asteps.
  acall (sig_same _ _ (λ r, r = Ok _)); [intros g; apply send_works|]. intros p5 r (_ & ->). asteps.
  acall (sig_same _ _ (λ r, r = Ok (Ok answer))); [intros g; by apply recv_works|]. intros p6 r (_ & ->). asteps.
  acall machine_same. intros p7 r (_ & _ & _ & now & _ & ->). rewrite bool_decide_eq_false_2 by naive_solver.
  rewrite bool_decide_eq_false_2; [|intros [Hn _]; rewrite Hn in Hin; by apply elem_of_nil in Hin]. asteps.
  acall (sig_same _ _ (λ r, r = Ok _)); [intros g; apply send_works|]. intros p8 r (_ & ->). asteps.
  acall try_candidates_works; [done|done|]. intros p9 r (c & ->). asteps. unfold Peer.try_relay. asteps. by eexists.
Qed.
End completes.

(** ** The heartbeat in time

    Milliseconds since the record was created. [tokio::time::interval] ticks
    at multiples of its period from its first tick, and a missed tick fires as
    soon as it is awaited. A round looks the address up, which takes [rd_lookup],
    renews the lease, and waits [rd_renew] for the broker. *)
Record Round := mkRound { rd_lookup : Z; rd_renew : Z }.

Fixpoint renewals (period tick free : Z) (rounds : list Round) : list Z :=
  match rounds with
  | [] => []
  | r :: rounds =>
    let renewed := (Z.max tick free + rd_lookup r)%Z in
    renewed :: renewals period (tick + period)%Z (renewed + rd_renew r)%Z rounds
  end.

(** When the lease is set: at the registration, which takes [register_ms], and
    in every round of the task spawned after it. *)
Definition lease_times (lease_secs register_ms : Z) (rounds : list Round) : list Z :=
  let period := (heartbeat_interval_secs lease_secs * 1000)%Z in
  0%Z :: renewals period (register_ms + period)%Z register_ms rounds.

Definition round_within (lookup renew : Z) (r : Round) : Prop :=
  (0 ≤ rd_lookup r ≤ lookup ∧ 0 ≤ rd_renew r ≤ renew)%Z.

(** Rounds follow each other by no more than a period and what they take. *)
Lemma renewals_gap P D C tick free last rounds i t t' :
  (0 ≤ P)%Z → Forall (round_within D C) rounds → (tick ≤ last + C + P)%Z → (free ≤ last + C)%Z →
  (last :: renewals P tick free rounds) !! i = Some t → (last :: renewals P tick free rounds) !! S i = Some t' →
  (t' - t ≤ P + C + D)%Z.
Proof.
  intros HP. revert i tick free last. induction rounds as [|r rounds IH]; intros i tick free last Hr Htick Hfree.
  { destruct i as [|[]]; done. }
  apply Forall_cons in Hr as [[Hl Hw] Hr]. cbn [renewals]. destruct i as [|i].
  - intros [= <-] [= <-]. lia.
  - intros Ht Ht'. eapply (IH i (tick + P) (Z.max tick free + rd_lookup r + rd_renew r) (Z.max tick free + rd_lookup r))%Z; [done|lia|lia|done|done].
Qed.

Lemma lease_times_gap lease c0 D C rounds i t t' :
  Forall (round_within D C) rounds → (0 ≤ c0 ≤ C)%Z →
  lease_times lease c0 rounds !! i = Some t → lease_times lease c0 rounds !! S i = Some t' →
  (t' - t ≤ heartbeat_interval_secs lease * 1000 + C + D)%Z.
Proof.
  intros Hr Hc. unfold lease_times. assert (0 ≤ heartbeat_interval_secs lease)%Z by (unfold heartbeat_interval_secs; lia).
  apply renewals_gap; [lia|done|lia|lia].
Qed.

Definition from_millis (ms : Z) : Z := ms * 1000000.

(** C14: the heartbeat. If a lookup takes at most [D] and a request at most [C]
    milliseconds, and a heartbeat interval and these are less than the lease,
    then an observer does not lose sight of a running peer whose renewals carry
    expiry stamps that never repeat: every listing that shows the record of the
    latest renewal reports it, unless the client has been reported departed.
    The stamps are only compared for equality, so the peer's wall clock may be
    off, but not stand still or be set back onto a stamp it used. *)
Theorem heartbeat_keeps_listed lease c0 D C rounds (expiry : nat → Z) l h r k t t' :
  Forall (round_within D C) rounds → (0 ≤ c0 ≤ C)%Z →
  (heartbeat_interval_secs lease * 1000 + C + D < lease * 1000)%Z →
  (∀ i j, expiry i = expiry j → i = j) → Forall well_listed (l :: h) →
  (∀ l' i, l' ∈ l :: h → lists l' (pi_id r) (expiry i) →
     ∃ ti, lease_times lease c0 rounds !! i = Some ti ∧ (from_millis ti ≤ li_now l')%Z) →
  r ∈ li_records l → leased r (expiry k) lease →
  lease_times lease c0 rounds !! k = Some t → lease_times lease c0 rounds !! S k = Some t' →
  (li_now l < from_millis t')%Z → departed (li_presence l) (pi_name r) = false →
  r ∈ (observe (leases_after h) l).2.
Proof.
  intros Hr Hc Hfit Hinj Hwl Hpub Hin Hle Ht Ht' Hnow Hdep.
  apply (renewed_is_listed l h r (expiry k) lease (from_millis t)); [done..| | |done].
  - intros l' Hl' Hli. destruct (Hpub l' k Hl' Hli) as (ti & Hti & ?). rewrite Ht in Hti. by injection Hti as <-.
  - pose proof (lease_times_gap _ _ _ _ _ _ _ _ Hr Hc Ht Ht'). unfold from_millis, from_secs in *. lia.
Qed.

(** With a STUN server that never answers, every round first waits the three
    seconds of its timeout, so a lease of two or three seconds has run out
    before each renewal. *)
Lemma renewals_slow P tick free last rounds i t t' :
  (0 ≤ P ≤ STUN_REDISCOVER_TIMEOUT)%Z → (last ≤ free)%Z →
  Forall (λ r, rd_lookup r = STUN_REDISCOVER_TIMEOUT ∧ (0 ≤ rd_renew r)%Z) rounds →
  (last :: renewals P tick free rounds) !! i = Some t → (last :: renewals P tick free rounds) !! S i = Some t' →
  (STUN_REDISCOVER_TIMEOUT ≤ t' - t)%Z.
Proof.
  intros HP. revert i tick free last. induction rounds as [|r rounds IH]; intros i tick free last Hfree Hr; [by destruct i as [|[]]|].
  apply Forall_cons in Hr as [[Hl Hw] Hr]. cbn [renewals]. destruct i as [|i].
  - intros [= <-] [= <-]. lia.
  - intros Ht Ht'. eapply (IH i (tick + P) (Z.max tick free + rd_lookup r + rd_renew r) (Z.max tick free + rd_lookup r))%Z; [lia|done|done|done].
Qed.

Theorem silent_stun_outlasts_lease lease c0 rounds i t t' :
  (MIN_LEASE_SECS ≤ lease ≤ 3)%Z → (0 ≤ c0)%Z →
  Forall (λ r, rd_lookup r = STUN_REDISCOVER_TIMEOUT ∧ (0 ≤ rd_renew r)%Z) rounds →
  lease_times lease c0 rounds !! i = Some t → lease_times lease c0 rounds !! S i = Some t' →
  (lease * 1000 ≤ t' - t)%Z.
Proof.
  intros Hl Hc Hr Ht Ht'. transitivity STUN_REDISCOVER_TIMEOUT; [unfold STUN_REDISCOVER_TIMEOUT; lia|].
  eapply renewals_slow; [|exact Hc|exact Hr|exact Ht|exact Ht'].
  unfold heartbeat_interval_secs, STUN_REDISCOVER_TIMEOUT, MIN_LEASE_SECS in *.
  assert (lease = 2 ∨ lease = 3)%Z as [-> | ->] by lia; vm_compute; split; congruence.
Qed.

(** ** Registration and targets *)

Section registration.
Context {W Conn : Type} {MC : MqttClient W} {MA : Machine W Conn}.
Context {JT : JsonText} {JS : JsonSyntax} {AT : AddrText} {HI : HashIter} {CO : CertOps} {TC : TurnCrypto}.
Context (new_transaction_id : nat → list byte).
Implicit Types p q : Peer W Conn.

(** The receiver of STUN answers goes to the first heartbeat. *)
Lemma register_Ok p q i :
  Peer.register p = (q, Ok i) →
  i = p_record_id p ∧ p_peer_id q = Some i ∧ p_stun_responses q = false ∧
  ∃ h, p_heartbeat q = Some h ∧ hb_id h = i ∧ hb_lease_secs h = p_lease_secs p ∧
    hb_public_addr h = addr_to_string <$> p_srflx_addr p ∧
    hb_rediscovery h = if p_stun_responses p then p_stun_server p else None.
Proof.
  unfold Peer.register. rewrite abind_Ok. intros (p1 & port & [[w1 ->] _]%machine_Ok & H).
  apply abind_Ok in H as (p2 & qp & [= <- _] & H). apply abind_Ok in H as (p3 & p' & [= <- <-] & H). cbv beta zeta in H.
  apply abind_Ok in H as (p4 & [] & (g & _ & ->)%sig_Ok & H). apply abind_Ok in H as (p5 & [] & [= <-] & H).
  apply abind_Ok in H as (p6 & [] & [= <-] & [= <- <-]). simpl. split_and!; [done..|]. by eexists.
Qed.

(** A peer that registers again no longer follows its public address. *)
Theorem reregistering_stops_rediscovery p p1 p2 i j :
  Peer.register p = (p1, Ok i) → Peer.register p1 = (p2, Ok j) →
  ∃ h, p_heartbeat p2 = Some h ∧ hb_rediscovery h = None ∧
    ∀ g, Peer.rediscover_round (Conn := Conn) h g = (g, Ok (hb_public_addr h)).
Proof.
  intros (_ & _ & Hs & _)%register_Ok (_ & _ & _ & h & Hh & _ & _ & _ & Hr)%register_Ok. exists h. rewrite Hs in Hr.
  split_and!; [done..|]. intros g. unfold Peer.rediscover_round. by rewrite Hr.
Qed.

(** The fingerprint in the record of the target plays no part: the connection
    is checked against the one in the answer. *)
Theorem registered_fingerprint_ignored target fp p :
  let target' := mkPeerInfo (pi_id target) (pi_name target) (pi_status target) (pi_quic_port target) fp
    (pi_public_addr target) (pi_expires_at target) (pi_lease_secs target) in
  (Peer.connect_to new_transaction_id target' p).1 = (Peer.connect_to new_transaction_id target p).1 ∧
  (∀ q c, Peer.connect_to new_transaction_id target p = (q, Ok c) →
     Peer.connect_to new_transaction_id target' p =
     (q, Ok (mkP2p (pp_connection c) target' (pp_remote_public_key c) (pp_relay_endpoint c)))).
Proof.
  intros target'. unfold Peer.connect_to.
  change (Peer.negotiate new_transaction_id target') with (Peer.negotiate new_transaction_id target).
  unfold abind. destruct (Peer.negotiate _ target p) as [p1 [[answer turn]|e]]; [|by split].
  destruct (Peer.try_candidates _ _ p1) as [p2 [direct|e]]; [|by split].
  destruct (Peer.try_relay _ _ _ _ _ p2) as [p3 [[[c via]|]|e]]; [|by split..]. split; [done|]. by intros q c' [= <- <-].
Qed.
End registration.

(** ** Examples *)

Module Example.

(** Documents as trees, and trees as bits. *)
Fixpoint to_tree (v : Syntax) : gen_tree (string + (bool + (Z + (Z + Z)))) :=
  match v with
  | SNull => GenNode 0 []
  | SBool b => GenLeaf (inr (inl b))
  | SNum (PosInt n) => GenLeaf (inr (inr (inl n)))
  | SNum (NegInt n) => GenLeaf (inr (inr (inr (inl n))))
  | SNum (Float n) => GenLeaf (inr (inr (inr (inr n))))
  | SStr s => GenLeaf (inl s)
  | SArray l => GenNode 1 (to_tree <$> l)
  | SObject ms => GenNode 2 ((λ m, GenNode 3 [GenLeaf (inl m.1); to_tree m.2]) <$> ms)
  end.

Fixpoint of_tree (t : gen_tree (string + (bool + (Z + (Z + Z))))) : Syntax :=
  match t with
  | GenLeaf (inr (inl b)) => SBool b
  | GenLeaf (inr (inr (inl n))) => SNum (PosInt n)
  | GenLeaf (inr (inr (inr (inl n)))) => SNum (NegInt n)
  | GenLeaf (inr (inr (inr (inr n)))) => SNum (Float n)
  | GenLeaf (inl s) => SStr s
  | GenNode 1 l => SArray (of_tree <$> l)
  | GenNode 2 ms => SObject ((λ t, match t with GenNode 3 [GenLeaf (inl k); v] => (k, of_tree v) | _ => ("", SNull) end) <$> ms)
  | GenNode _ _ => SNull
  end.

Lemma of_to_tree v : of_tree (to_tree v) = v.
Proof.
  revert v. fix IH 1. intros [|b|[n|n|n]|s|l|ms]; cbn; try done.
  - f_equal. induction l as [|v l IHl]; cbn; [done|]. by rewrite IH, IHl.
  - f_equal. induction ms as [|[k v] ms IHl]; cbn; [done|]. by rewrite IH, IHl.
Qed.

Fixpoint to_bits (p : positive) : list byte :=
  match p with xH => [] | xO p => x00 :: to_bits p | xI p => x01 :: to_bits p end.
Fixpoint of_bits (bs : list byte) : positive :=
  match bs with [] => xH | x00 :: bs => xO (of_bits bs) | _ :: bs => xI (of_bits bs) end.

Lemma of_to_bits p : of_bits (to_bits p) = p.
Proof. induction p; simpl; congruence. Qed.

#[export] Instance tree_json : JsonSyntax := {|
  print v := Ok (to_bits (encode (to_tree v)));
  parse bs := of_tree <$> decode (of_bits bs);
|}.

#[export] Instance tree_json_laws : JsonSyntaxLaws.
Proof. constructor. intros v bs [= <-]. simpl. rewrite of_to_bits, countable.decode_encode. simpl. by rewrite of_to_tree. Qed.

(** Addresses in the form of a STUN attribute. *)
#[export] Instance attr_addr : AddrText := {|
  addr_to_string a := String.string_of_list_byte (encode_plain_address a);
  addr_parse s := match decode_plain_address (as_bytes s) with Ok a => Some a | Err _ => None end;
|}.

#[export] Instance attr_addr_laws : AddrTextLaws.
Proof. constructor. intros a Ha. simpl. rewrite as_bytes_of, plain_address_roundtrip by done. done. Qed.

(** Certificates that are their own digest. *)
#[export] Instance plain_certs : CertOps := {|
  sha256 bs := bs;
  self_signed key := Ok (key, key);
  generate_key := Ok [x01];
  load_key key := Ok key;
  subject_public_key cert := Some cert;
|}.

Definition host (port : Z) : SocketAddr := SockV4 [x7f; x00; x00; x01] port.
Definition public (port : Z) : SocketAddr := SockV4 [xc0; x00; x02; x01] port.
Definition identity (b : byte) : CertIdentity := mkIdentity [b] [b] (compute_fingerprint sha256 [b]).

(** Two machines: [initiator]'s broker brings the answer, [responder]'s the
    offer and the sync. *)
Inductive initiator := Initiator.
Inductive responder := Responder.

Definition offer : ConnectionOffer :=
  mkOffer "a" "s1" (fingerprint (identity x0a)) [mkCandidate (host 1000) Host].
Definition answer : ConnectionOffer :=
  mkOffer "b" "s1" (fingerprint (identity x0b)) [mkCandidate (host 2000) Host; mkCandidate (public 2000) Srflx].

Definition bytes_of (v : Syntax) : list byte := default [] (Stun.ok (print v)).

#[export] Instance initiator_mqtt : MqttClient initiator := {|
  mq_connect _ w := (w, Ok ());
  mq_disconnect w := (w, Ok ());
  mq_subscribe _ w := (w, Ok ());
  mq_unsubscribe _ w := (w, Ok ());
  mq_publish _ _ _ w := (w, Ok ());
  mq_receive _ _ w := (w, ([bytes_of (encode_offer answer)], TimedOut));
  new_uuid w := (w, "s1");
  unix_now_secs w := (w, 0%Z);
  instant_now w := (w, 0%Z);
|}.

#[export] Instance responder_mqtt : MqttClient responder := {|
  mq_connect _ w := (w, Ok ());
  mq_disconnect w := (w, Ok ());
  mq_subscribe _ w := (w, Ok ());
  mq_unsubscribe _ w := (w, Ok ());
  mq_publish _ _ _ w := (w, Ok ());
  mq_receive topic _ w :=
    (w, (if bool_decide (topic = "p2p/b/offer") then [bytes_of (encode_offer offer)]
         else [bytes_of (encode_sync (mkSync "a" "s1" 40))], TimedOut));
  new_uuid w := (w, "");
  unix_now_secs w := (w, 0%Z);
  instant_now w := (w, 0%Z);
|}.

(** A connection is the certificate of its other end. *)
Definition quiet_machine {W} (dial : (list byte → result () string) → SocketAddr → option (result (list byte) Error))
    (arriving : list (InEvent (list byte))) : Machine W (list byte) := {|
  mc_bind a w := (w, Ok a);
  mc_probe_ip _ w := (w, Ok (V4 [x7f; x00; x00; x01]));
  mc_clone_socket w := (w, Ok ());
  mc_send_to _ _ w := (w, ());
  mc_stun _ w := (w, mkStunExchange (Ok []) None (λ _ _, Ok ()) None (Ok (host 0)) []);
  mc_turn _ w := (w, mkTurnSetup (Ok []) (Ok ()) (Ok ()) [] true);
  mc_turn_script w := (w, []);
  mc_bind_endpoint w := (w, Ok ());
  mc_local_port w := (w, Ok 0%Z);
  mc_sleep _ w := (w, ());
  mc_dial _ verify a _ w := (w, dial verify a);
  mc_inbound _ w := (w, arriving);
  mc_race _ w := (w, mkRace DirectSide [] []);
  mc_alive w := (w, λ _, true);
  certs c := Some [c];
  remote_address _ := host 1000;
|}.

(** Only the host address of the responder answers. *)
#[export] Instance initiator_machine : Machine initiator (list byte) :=
  quiet_machine (λ verify a, if bool_decide (a = host 2000) then match verify [x0b] with Ok _ => Some (Ok [x0b]) | Err _ => None end else None) [].
#[export] Instance responder_machine : Machine responder (list byte) := quiet_machine (λ _ _, None) [Arrives [x0a] 5 (λ _, false)].

#[export] Instance initiator_laws : @MachineLaws initiator (list byte) initiator_machine.
Proof.
  constructor. intros via verify a t w w' c. simpl. case_bool_decide; [|done]. destruct (verify [x0b]) as [[]|] eqn:E; [|done].
  intros ?; simplify_eq. by exists [x0b], [].
Qed.

Definition peer_a : Peer initiator (list byte) :=
  mkPeer "a" (identity x0a) (SignalingClient.new Initiator) default_state "a" (Some "a") (host 1000) None None 15 None true None.
Definition peer_b : Peer responder (list byte) :=
  mkPeer "b" (identity x0b) (SignalingClient.new Responder) default_state "b" (Some "b") (host 2000) (Some (public 2000)) None 15 None true None.
Definition record_b : PeerInfo := mkPeerInfo "b" "b" "online" 2000 "stale" None None None.

Definition no_txn (n : nat) : list byte := [].

Definition run_a := Peer.connect_to no_txn record_b peer_a.
Definition run_b := Peer.accept_connection no_txn peer_b.

(** The connections of the two. *)
Definition conn_a : P2pConnection (list byte) := mkP2p [x0b] record_b None None.
Definition conn_b : P2pConnection (list byte) :=
  mkP2p [x0a] (mkPeerInfo "a" "" "connected" 1000 (fingerprint (identity x0a)) (Some (addr_to_string (host 1000))) None None) None None.
End Example.

Import Example.

Lemma run_a_Ok : Peer.connect_to no_txn record_b peer_a = (run_a.1, Ok conn_a).
Proof. vm_compute. reflexivity. Qed.

Lemma run_b_Ok : Peer.accept_connection no_txn peer_b = (run_b.1, Ok conn_b).
Proof. vm_compute. reflexivity. Qed.

Lemma ex_relays_b : relays responder (SignalingClient.p2p_topic "b" "offer") (published peer_a run_a.1).
Proof. intros t w. eexists _, _, _, _. split; [reflexivity|]. vm_compute. by left. Qed.

Lemma ex_relays_a : relays initiator (SignalingClient.p2p_topic "a" "answer") (published peer_b run_b.1).
Proof. intros t w. eexists _, _, _, _. split; [reflexivity|]. vm_compute. by left. Qed.

Lemma ex_addrs_a : addrs_ok peer_a.
Proof. split; [by vm_compute|done]. Qed.
Lemma ex_addrs_b : addrs_ok peer_b.
Proof. split; [by vm_compute|]. intros a [= <-]. by vm_compute. Qed.

(** The initiator is refused at the public address, reaches the host address,
    and both check the right certificate. *)
Lemma handshake_mutual_witness :
  connection_fingerprint (certs (W := initiator) (pp_connection conn_a)) = Some (fingerprint (p_identity peer_b)) ∧
  connection_fingerprint (certs (W := responder) (pp_connection conn_b)) = Some (fingerprint (p_identity peer_a)).
Proof.
  destruct (handshake_mutual no_txn no_txn peer_a run_a.1 peer_b run_b.1 record_b conn_a conn_b run_a_Ok run_b_Ok eq_refl
    ex_addrs_a ex_addrs_b default_accept_inv ex_relays_b ltac:(intros me [= <-]; exact ex_relays_a)) as (H1 & H2 & _).
  split; [exact H1|exact H2].
Defined.

Lemma ex_working : working (W := initiator) (Conn := list byte).
Proof. split; [done|done|done|]. intros v. by eexists. Qed.

Lemma connect_completes_witness :
  ∃ q c, Peer.connect_to no_txn record_b peer_a = (q, Ok c) ∧ is_relayed c = false.
Proof.
  apply (connect_completes no_txn ex_working record_b peer_a "a" "s1" answer (host 2000)); [done..| |by right; left|].
  - intros t w. vm_compute. reflexivity.
  - intros w. exists [x0b]. vm_compute. reflexivity.
Defined.

(** The default lease outlasts a silent STUN server and a broker that takes
    five seconds. *)
Lemma heartbeat_keeps_listed_witness :
  ex_peer "p" 8 ∈ (observe (leases_after [ex_listing 9 [ex_peer "p" 8]; ex_listing 1 [ex_peer "p" 7]]) (ex_listing 12 [ex_peer "p" 8])).2.
Proof.
  apply (heartbeat_keeps_listed 15 100 3000 5000 [mkRound 3000 5000; mkRound 3000 100] (λ n, 7 + Z.of_nat n)%Z
    (ex_listing 12 [ex_peer "p" 8]) [ex_listing 9 [ex_peer "p" 8]; ex_listing 1 [ex_peer "p" 7]] (ex_peer "p" 8) 1 8100 16100).
  all: try (by vm_compute); try (intros; lia); try (by left).
  - repeat constructor; simpl; lia.
  - repeat (constructor; [apply ex_well_listed|]); constructor.
  - intros l' i Hl (q & lease & Hq & Hid & [He _]). repeat (apply elem_of_cons in Hl as [->|Hl]); [..|by apply elem_of_nil in Hl];
      apply list_elem_of_singleton in Hq as ->; cbn in He; injection He as He.
    + replace i with 1 by lia. by exists 8100%Z.
    + replace i with 1 by lia. by exists 8100%Z.
    + replace i with 0 by lia. by exists 0%Z.
Defined.
