(* ===== verification/Endpoint.v ===== *)
(** * QUIC endpoints and connections

    The rest of [crates/mqp2p/src/quic.rs]: the TLS configurations with their
    two verifiers, binding an endpoint, dialling, and its life from the accept
    loop to the drop; and of [peer.rs] the methods of a connection and the drop
    of a peer. rustls and quinn are the class [QuicLib]: it is given the
    configurations the code builds, with the verifiers as the functions they
    are, and [QuicLibLaws] says when TLS calls them. The signature checks of the
    verifiers call rustls and are part of its handshake. *)
From S2P Require Import Prelude SyncState Protocol Membership Discovery Json P2pStore Net Turn Stun TurnClient Transfer QuicAccept Signaling Peer.

(** ** Configurations *)

Record ServerTls := mkServerTls {
  sv_chain : list (list byte);
  sv_key : list byte;
  sv_offer_client_auth : bool;
  sv_client_auth_mandatory : bool;
  sv_verify_client : list byte → result () string;
}.

Record ClientTls := mkClientTls {
  ct_chain : list (list byte);
  ct_key : list byte;
  ct_verify_server : list byte → result () string;
}.

Record ServerConfig (T : Type) := mkServerConfig { sf_tls : ServerTls; sf_transport : T }.
Arguments mkServerConfig {T}.
Arguments sf_tls {T}.
Arguments sf_transport {T}.

Record ClientConfig (T : Type) := mkClientConfig { cf_tls : ClientTls; cf_transport : T }.
Arguments mkClientConfig {T}.
Arguments cf_tls {T}.
Arguments cf_transport {T}.

(** [CollectClientCert]: a client must present a certificate, any will do. *)
Definition offer_client_auth : bool := true.
Definition client_auth_mandatory : bool := true.
Definition verify_client_cert (end_entity : list byte) : result () string := Ok ().

(** rustls and quinn: the checks that building a configuration makes, sockets,
    and handshakes. An endpoint knows its configuration. *)
Class QuicLib (T S EP W Conn : Type) := {
  ql_single_cert : list (list byte) → list byte → result () string;
  ql_client_auth_cert : list (list byte) → list byte → result () string;
  ql_server_crypto : ServerTls → result () string;
  ql_client_crypto : ClientTls → result () string;
  ql_runtime : W → bool;
  ql_endpoint : ServerConfig T → S → W → W * result EP string;
  ql_config : EP → ServerConfig T;
  ql_local_addr : EP → result SocketAddr string;
  ql_connect_with : EP → ClientConfig T → SocketAddr → string → W → W * result () string;
  ql_established : EP → ClientConfig T → SocketAddr → W → W * result Conn ();
  ql_incoming : EP → W → W * option (result Conn ());
  ql_certs : Conn → option (list (list byte));
}.

(** A client handshake completes only if the client's verifier took the
    certificate of the server; where client certificates are mandatory, an
    incoming one only with a certificate the server's verifier took. Both ends
    keep what was presented. *)
Class QuicLibLaws {T S EP W Conn : Type} {QL : QuicLib T S EP W Conn} := {
  endpoint_config sc s w w' ep : ql_endpoint sc s w = (w', Ok ep) → ql_config ep = sc;
  established_verified ep cc a w w' c :
    ql_established ep cc a w = (w', Ok c) → ∃ cert chain, ql_certs c = Some (cert :: chain) ∧ ct_verify_server (cf_tls cc) cert = Ok ();
  incoming_verified ep w w' c :
    ql_incoming ep w = (w', Some (Ok c)) → sv_client_auth_mandatory (sf_tls (ql_config ep)) = true →
    ∃ cert chain, ql_certs c = Some (cert :: chain) ∧ sv_verify_client (sf_tls (ql_config ep)) cert = Ok ();
}.

Section configs.
Context {T S EP W Conn : Type} {QL : QuicLib T S EP W Conn} {TR : TransportConfig T} {CO : CertOps}.

Definition transport_config (offload : SegmentationOffload) : T :=
  enable_segmentation_offload (bool_decide (offload = Enabled)) default_transport.

Definition build_server_config (identity : CertIdentity) (transport : T) : result (ServerConfig T) Error :=
  let tls := mkServerTls [cert_der identity] (key_der identity) offer_client_auth client_auth_mandatory verify_client_cert in
  let? _ := map_err (λ e, Quic ("server TLS config failed: " +:+ e)) (ql_single_cert (sv_chain tls) (sv_key tls)) in
  let? _ := map_err (λ e, Quic ("QUIC server config failed: " +:+ e)) (ql_server_crypto tls) in
  Ok (mkServerConfig tls transport).

Definition build_client_config (identity : CertIdentity) (expected_fingerprint : string) (transport : T) : result (ClientConfig T) Error :=
  let tls := mkClientTls [cert_der identity] (key_der identity) (verify_server_cert expected_fingerprint) in
  let? _ := map_err (λ e, Quic ("client TLS config failed: " +:+ e)) (ql_client_auth_cert (ct_chain tls) (ct_key tls)) in
  let? _ := map_err (λ e, Quic ("QUIC client config failed: " +:+ e)) (ql_client_crypto tls) in
  Ok (mkClientConfig tls transport).
End configs.

(** ** The endpoint *)

(** [qe_accepting] and [qe_sweeping]: its two tasks run. *)
Record QuicEndpoint (T EP Conn : Type) := mkEndpoint {
  qe_endpoint : EP;
  qe_identity : CertIdentity;
  qe_transport : T;
  qe_state : AcceptState Conn;
  qe_accepting : bool;
  qe_sweeping : bool;
}.
Arguments mkEndpoint {T EP Conn}.
Arguments qe_endpoint {T EP Conn}.
Arguments qe_identity {T EP Conn}.
Arguments qe_transport {T EP Conn}.
Arguments qe_state {T EP Conn}.
Arguments qe_accepting {T EP Conn}.
Arguments qe_sweeping {T EP Conn}.

Module QuicEndpoint.
Section endpoint.
Context {T S EP W Conn : Type} {QL : QuicLib T S EP W Conn} {TR : TransportConfig T} {CO : CertOps} {HI : HashIter}.
Abbreviation Self := (QuicEndpoint T EP Conn).

Definition from_endpoint (endpoint : EP) (identity : CertIdentity) (transport : T) : result Self Error :=
  let? _ := map_err Quic (ql_local_addr endpoint) in
  Ok (mkEndpoint endpoint identity transport default_state true true).

Definition bind_with_transport (socket : S) (identity : CertIdentity) (transport : T) : action W Error Self :=
  let! server_config := alift (build_server_config identity transport) in
  let! runtime := aget ql_runtime in
  if negb runtime then athrow (Quic "no async runtime available") else
  let! endpoint := λ w, let '(w, r) := ql_endpoint server_config socket w in (w, map_err (λ e, Quic ("endpoint bind failed: " +:+ e)) r) in
  alift (from_endpoint endpoint identity transport).

(** [ql_endpoint] is told which kind of socket it is. *)
Definition bind_abstract (socket : S) (identity : CertIdentity) (transport : T) : action W Error Self :=
  bind_with_transport socket identity transport.

Definition bind_with_offload (socket : S) (identity : CertIdentity) (offload : SegmentationOffload) : action W Error Self :=
  bind_with_transport socket identity (transport_config offload).

Definition bind (socket : S) (identity : CertIdentity) : action W Error Self := bind_with_offload socket identity Enabled.

Definition local_addr (q : Self) : result SocketAddr Error := map_err Quic (ql_local_addr (qe_endpoint q)).
Definition fingerprint (q : Self) : string := QuicAccept.fingerprint (qe_identity q).

Definition connect (q : Self) (addr : SocketAddr) (remote_fingerprint : string) : action W Error Conn :=
  let! client_config := alift (build_client_config (qe_identity q) remote_fingerprint (qe_transport q)) in
  (λ w, let '(w, r) := ql_connect_with (qe_endpoint q) client_config addr "mqp2p-peer" w in (w, map_err (λ e, Quic ("connect failed: " +:+ e)) r)) ;;
  λ w, let '(w, r) := ql_established (qe_endpoint q) client_config addr w in (w, map_err (λ _, QuicConnect addr) r).

Definition set_state (s : AcceptState Conn) (q : Self) : Self :=
  mkEndpoint (qe_endpoint q) (qe_identity q) (qe_transport q) s (qe_accepting q) (qe_sweeping q).

(** The end of the accept loop: the endpoint was closed. *)
Definition accept_ended (q : Self) : Self * list (Effect Conn) :=
  let '(s, es) := close_all (qe_state q) in
  (mkEndpoint (qe_endpoint q) (qe_identity q) (qe_transport q) s false (qe_sweeping q), es).

(** [Drop]: both tasks are aborted. *)
Definition drop (q : Self) : Self * list (Effect Conn) :=
  let '(s, es) := close_all (qe_state q) in
  (mkEndpoint (qe_endpoint q) (qe_identity q) (qe_transport q) s false false, es).

(** What happens at an endpoint: a handshake task that the accept loop spawned
    ends (it is no part of that loop, and runs on without it), the sweep task
    wakes up, a caller waits for a fingerprint or goes away, and the two ends. *)
Inductive event :=
| EHandshake (c : result Conn ()) (gone : Z → bool) (now : Z)
| ESweep (now : Z)
| EAccept (fp : string) (alive : Conn → bool)
| EGone (fp : string) (id : Z)
| EClosed
| EDrop.

Definition step (q : Self) (e : event) : Self * list (Effect Conn) :=
  match e with
  | EHandshake (Ok c) gone now => let '(s, es) := inbound (qe_state q) gone (ql_certs c) c now in (set_state s q, es)
  | EHandshake (Err _) _ _ => (q, [])
  | ESweep now =>
    if negb (qe_sweeping q) then (q, []) else
    match sweep now (qe_state q) with
    | Some (s, es) => (set_state s q, es)
    | None => (mkEndpoint (qe_endpoint q) (qe_identity q) (qe_transport q) (qe_state q) (qe_accepting q) false, [])
    end
  | EAccept fp alive => let '(s, es, _) := accept_with_fingerprint (qe_state q) alive fp in (set_state s q, es)
  | EGone fp id => (set_state (remove_waiter (qe_state q) fp id) q, [])
  | EClosed => accept_ended q
  | EDrop => drop q
  end.

Definition run (evs : list event) (q : Self) : Self * list (Effect Conn) :=
  foldl (λ '(q, out) e, let '(q, es) := step q e in (q, out ++ es)) (q, []) evs.
End endpoint.
End QuicEndpoint.

(** ** Connections *)

(** The streams and datagrams of a connection. *)
Class QuicConn (W Send Recv : Type) := {
  qc_open_bi : W → W * result (Send * Recv) string;
  qc_accept_bi : W → W * result (Send * Recv) string;
  qc_open_uni : W → W * result Send string;
  qc_accept_uni : W → W * result Recv string;
  qc_send_datagram : list byte → W → W * result () string;
  qc_read_datagram : W → W * result (list byte) string;
  qc_max_datagram_size : W → option nat;
  qc_close : Z → string → W → W;
}.

Module P2pConnection.
Section connection.
Context {W Send Recv F : Type} {QC : QuicConn W Send Recv} {SS : SendStream Send} {AR : AsyncRead Recv} {FS : Files F} {TO : TransferOps}.

Definition wrapped {A} (what : string) (m : W → W * result A string) : action (W * F) Error A :=
  λ '(w, f), let '(w, r) := m w in ((w, f), map_err (λ e, Quic (what +:+ ": " +:+ e)) r).

Definition open_stream : action (W * F) Error (Send * Recv) := wrapped "open bidirectional stream" qc_open_bi.
Definition accept_stream : action (W * F) Error (Send * Recv) := wrapped "accept bidirectional stream" qc_accept_bi.
Definition open_uni : action (W * F) Error Send := wrapped "open unidirectional stream" qc_open_uni.
Definition accept_uni : action (W * F) Error Recv := wrapped "accept unidirectional stream" qc_accept_uni.
Definition send_datagram (data : list byte) : action (W * F) Error () := wrapped "send datagram" (qc_send_datagram data).
Definition read_datagram : action (W * F) Error (list byte) := wrapped "read datagram" qc_read_datagram.
Definition max_datagram_size (s : W * F) : option nat := qc_max_datagram_size s.1.
Definition close (s : W * F) : W * F := (qc_close 0 "done" s.1, s.2).

(** A transfer on a stream of its own, which is dropped at the end. *)
Definition on_stream {A} (open : action (W * F) Error (Send * Recv)) (m : action (Xfer (W := Send) (R := Recv) (F := F)) Error A)
    : action (W * F) Error A :=
  let! '(send, recv) := open in
  λ s, let '(x, r) := m (mkXfer send recv s.2 []) in ((s.1, x_files x), r).

Definition send_file (path : string) (name : option string) : action (W * F) Error TransferResult :=
  on_stream open_stream (Transfer.send_file path name).

Definition receive_file (fuel : nat) (output_dir : string) (accept : FileOffer → bool) : action (W * F) Error (option TransferResult) :=
  on_stream accept_stream (Transfer.receive_file fuel output_dir accept).
End connection.
End P2pConnection.

(** ** Who is at the other end *)

Section laws.
Context {T S EP W Conn : Type} {QL : QuicLib T S EP W Conn} {LL : QuicLibLaws} {CO : CertOps} {HI : HashIter}.
Implicit Types q : QuicEndpoint T EP Conn.

Lemma build_server_config_Ok identity (transport : T) sc :
  build_server_config identity transport = Ok sc → sv_client_auth_mandatory (sf_tls sc) = true ∧ sv_chain (sf_tls sc) = [cert_der identity].
Proof.
  clear LL. unfold build_server_config. cbn [sv_chain sv_key].
  destruct (ql_single_cert _ _); [|done]. simpl. destruct (ql_server_crypto _); [|done]. by intros [= <-].
Qed.

Lemma bound_config socket identity transport w w' q :
  QuicEndpoint.bind_with_transport socket identity transport w = (w', Ok q) →
  qe_identity q = identity ∧ sv_client_auth_mandatory (sf_tls (ql_config (qe_endpoint q))) = true.
Proof using LL.
  unfold QuicEndpoint.bind_with_transport, abind, alift, aget, athrow.
  destruct (build_server_config identity transport) as [sc|] eqn:Es; [|done].
  destruct (negb (ql_runtime w)); [done|].
  destruct (ql_endpoint sc socket w) as [w1 [ep|]] eqn:Ee; [|done]. simpl. unfold QuicEndpoint.from_endpoint.
  destruct (ql_local_addr ep); [|done]. simpl. intros [= <- <-]. simpl. split; [done|].
  rewrite (endpoint_config _ _ _ _ _ Ee). by apply build_server_config_Ok in Es as [? _].
Qed.

(** Both ends of a connection know each other's certificate. Dialling with a
    fingerprint returns only connections to the certificate with that
    fingerprint; and every connection that comes in presented a certificate, so
    it is filed under its fingerprint and none is turned away for lack of one. *)
Theorem endpoint_authenticates socket identity transport w w' q :
  QuicEndpoint.bind_with_transport socket identity transport w = (w', Ok q) →
  (∀ addr fp w1 w2 c, QuicEndpoint.connect q addr fp w1 = (w2, Ok c) → connection_fingerprint (ql_certs c) = Some fp) ∧
  (∀ w1 w2 c, ql_incoming (qe_endpoint q) w1 = (w2, Some (Ok c)) →
     ∃ fp, connection_fingerprint (ql_certs c) = Some fp ∧
       ∀ gone now, (QuicEndpoint.step q (QuicEndpoint.EHandshake (Ok c) gone now)).2 = (deliver (qe_state q) gone fp c now).2).
Proof using LL.
  intros Hb. destruct (bound_config _ _ _ _ _ _ Hb) as [_ Hm]. split.
  - intros addr fp w1 w2 c. unfold QuicEndpoint.connect, build_client_config, abind, alift. cbn [ct_chain ct_key].
    destruct (ql_client_auth_cert _ _); [|done]. simpl. destruct (ql_client_crypto _); [|done]. simpl.
    destruct (ql_connect_with _ _ _ _ _) as [w3 [[]|]]; [|done]. simpl.
    destruct (ql_established _ _ _ _) as [w4 [c'|]] eqn:E; [|done]. intros [= <- <-].
    destruct (established_verified _ _ _ _ _ _ E) as (cert & chain & Hc & Hv). simpl in Hv. unfold verify_server_cert in Hv.
    case_bool_decide; [|done]. subst fp. rewrite Hc. done.
  - intros w1 w2 c Hi. destruct (incoming_verified _ _ _ _ Hi Hm) as (cert & chain & Hc & _). rewrite Hc. eexists. split; [done|].
    intros gone now. simpl. rewrite Hc. unfold inbound. cbn [connection_fingerprint mbind option_bind head].
    by destruct (deliver _ _ _ _ _).
Qed.

(** ** The end of an endpoint *)

Definition ended q : Prop := closed (qe_state q) = true ∧ waiters (qe_state q) = ∅ ∧ arrived (qe_state q) = ∅.

Definition closes_only (es : list (Effect Conn)) : Prop := Forall (λ e, ∃ c why, e = CloseConn c why) es.

Lemma step_ended q e : ended q → ended (QuicEndpoint.step q e).1 ∧ closes_only (QuicEndpoint.step q e).2.
Proof.
  clear LL. intros (Hc & Hw & Ha). destruct e as [[c|] gone now|now|fp alive|fp i| |]; simpl.
  - unfold inbound. destruct (connection_fingerprint (ql_certs c)); [unfold deliver; rewrite Hc|];
      simpl; (split; [done|]); constructor; eauto.
  - by split; [|constructor].
  - destruct (qe_sweeping q); simpl; [|by split; [|constructor]]. unfold sweep. rewrite Hc. by split; [|constructor].
  - unfold accept_with_fingerprint. rewrite Hc. by split; [|constructor].
  - split; [|constructor]. unfold ended. simpl. unfold remove_waiter. rewrite Hw, lookup_empty. by rewrite Hc.
  - unfold ended, closes_only. simpl. split; [done|]. rewrite Ha.
    assert (hiter (∅ : gmap string (list (Buffered Conn))) = []) as ->; [|constructor].
    apply Permutation_nil. by rewrite hiter_perm, map_to_list_empty.
  - unfold ended, closes_only. simpl. split; [done|]. rewrite Ha.
    assert (hiter (∅ : gmap string (list (Buffered Conn))) = []) as ->; [|constructor].
    apply Permutation_nil. by rewrite hiter_perm, map_to_list_empty.
Qed.

Lemma close_all_closes (s : AcceptState Conn) : closes_only (close_all s).2.
Proof.
  clear. unfold closes_only. simpl. apply Forall_forall. intros e (x & He & _)%list_elem_of_bind.
  apply list_elem_of_fmap in He as (b & -> & _). by eexists _, _.
Qed.

(** An endpoint that ends, because it was closed or dropped, is done: its
    buffered connections are closed, nobody waits any more, whoever asks is
    told that it is closed, and whatever handshakes finish afterwards, their
    connections are closed at once and given to nobody. *)
Theorem ended_endpoint q e later alive fp :
  e = QuicEndpoint.EClosed ∨ e = QuicEndpoint.EDrop →
  let q' := (QuicEndpoint.run (e :: later) q).1 in
  ended q' ∧ closes_only (QuicEndpoint.run (e :: later) q).2 ∧
  (accept_with_fingerprint (qe_state q') alive fp).2 = Err (Quic "endpoint closed").
Proof.
  clear LL. intros He q'. assert (Hq : ended q' ∧ closes_only (QuicEndpoint.run (e :: later) q).2).
  { assert (Hstart : ended (QuicEndpoint.step q e).1 ∧ closes_only (QuicEndpoint.step q e).2).
    { destruct He as [-> | ->]; (split; [done|apply close_all_closes]). }
    subst q'. unfold QuicEndpoint.run. cbn [foldl]. destruct (QuicEndpoint.step q e) as [q1 es]. simpl in *. revert Hstart.
    generalize q1 es. clear. induction later as [|x later IH]; intros q es [Hq Hes]; [done|]. cbn [foldl].
    destruct (QuicEndpoint.step q x) as [q2 es2] eqn:E. apply IH.
    destruct (step_ended q x Hq) as [H1 H2]. rewrite E in H1, H2. split; [done|]. by apply Forall_app_2. }
  destruct Hq as [Hq Hes]. split_and!; try done. unfold accept_with_fingerprint. by rewrite (proj1 Hq).
Qed.
End laws.
